(* ===== verification/_CoqProject ===== *)
-Q . S2P
Prelude.v
Bytes.v
RelyGuarantee.v
Text.v
SortedLists.v
Externals.v
ToyCrates.v
Json.v
ToyValue.v
Hash.v
RunFormat.v
RunFormatFacts.v
RunBuilder.v
RunReader.v
RunRep.v
RunScan.v
RunBuild.v
RunEmission.v
RunTheorems.v
Head.v
ToyJson.v
HeadFacts.v
Summary.v
SummaryFacts.v
Store.v
StoreContract.v
ObjectStore.v
ObjectStoreFacts.v
ObjectStoreTheorems.v
FsStore.v
FsModel.v
FsFacts.v
FsLinear.v
FsRefinement.v
FsTheorems.v
FsListing.v
OpenStore.v
FsExample.v
OpenTheorems.v
Compact.v
CompactFacts.v
MergeFacts.v
Format.v
Tiered.v
Normalized.v
Bootstrap.v
TieredReader.v
ReaderFacts.v
ReaderTheorems.v
Rpc.v
FormatFacts.v
RpcFacts.v
RpcTheorems.v
Worker.v
Gateway.v
WorkerFacts.v
WorkerTheorems.v
GatewayTheorems.v
HeadSteps.v
Calm.v
PublishFacts.v
TieredTheorems.v
Protocol.v
SharedStore.v
SharedProcesses.v
Collect.v
CollectFacts.v
PackageTheorems.v
NormalizedFacts.v
PackageInput.v
NormalizedTheorems.v
PackageStaging.v
BootstrapFacts.v
BootstrapTheorems.v
StateProbe.v
Cli.v
CliTheorems.v
FsProtocol.v
TieredExample.v
Examples.v
