(* ===== verification/Prelude.v ===== *)
(** * Fossil: a verified model of a historical state archive

    Fossil stores the history of an Ethereum chain's state in an object store and
    answers "what was this account, slot or code at block N".  A history is a
    sequence of records [(key, block, value)]; it is cut into immutable, sorted runs,
    content-addressed and described by one small mutable head.  Publishers append
    runs, compactors merge adjacent ones, a collector deletes what no head reaches,
    and readers pin a head and look keys up, newest run first.  This library models
    those parts in Gallina, from the source, and proves what makes them correct.

    ** Parts and files

    - [codec/src/run.rs], the run format.  [RunFormat] (pages, fences, roots, their
      encoders and decoders), [RunBuilder] ([RunBuilder::build]), [RunReader]
      ([decode], [lookup], [walk], [RunScanner]).  [RunFormatFacts], [RunRep],
      [RunScan], [RunBuild], [RunEmission]: lemmas.  [RunTheorems]: a
      built run is read back by lookup and scan, a tampered object is detected, a
      lookup costs three bounded fetches, encodings are canonical, and objects are
      emitted after what they refer to.
    - [codec/src/hash.rs]: [Hash].  [codec/src/head.rs]: [Head] (the head, the key
      layout, account states) and [HeadFacts].  [codec/src/summary.rs]: [Summary]
      and [SummaryFacts] (no false negatives, bounds, distinct paths).
    - [src/store.rs]: [Store], the interface [ArchiveStore] as the type of requests
      [storeE], the in-memory store that answers them, and the counting store.
      [StoreContract]: [store_spec], what one request may answer and do, and
      [StoreImplements], what a back end owes its clients; [RelyGuarantee]: the
      proof rules for programs under interference.  [ObjectStore] is
      [ObjectArchiveStore] over the requests of the crate [object_store];
      [ObjectStoreFacts] and [ObjectStoreTheorems] prove the contract.  [FsStore] is
      [FsArchiveStore] over system calls, and [FsModel] the file system below it,
      with failures, locks and crashes; [FsFacts], [FsLinear] and [FsRefinement]
      prove the contract, [FsTheorems] what follows for concurrent clients and
      crashes, [FsListing] that [list] is exact; [FsExample] runs it.  [OpenStore]
      and [OpenTheorems]: [open_store] and the choice of a back end.
    - [src/compact.rs]: [Compact] ([write_sorted], [merge_runs]); [CompactFacts]
      (what a write leaves in the store) and [MergeFacts] (the merge is the sorted
      union of its inputs).
    - [src/format.rs]: [Format] and [FormatFacts] (quantities, words, addresses).
    - [src/normalized.rs]: [Normalized], the package parser; [NormalizedFacts],
      [PackageInput], [NormalizedTheorems] (soundness and round trip), and
      [PackageStaging] (an accepted package can be staged).
    - [src/bootstrap.rs]: [Bootstrap], [BootstrapFacts], [BootstrapTheorems] (the
      anchor of a genesis allocation is complete).
    - [src/tiered.rs]: [Tiered] (publication and compaction), [TieredReader] (the
      pinned reader and its budget), [Collect] (garbage collection).
      [ReaderFacts]/[ReaderTheorems]: a reader refines the abstract history.
      [HeadSteps], [Calm], [PublishFacts], [TieredTheorems]:
      publication appends, compaction preserves every state, planning ends.
      [Protocol]: any interleaving of publishers and compactors,
      request by request, keeps the archive readable and loses no publication, on
      the in-memory store.  [SharedStore]: against [store_spec], where requests fail,
      what publishers and compactors do together is explained by a log of packages
      ([ledger]); [Calm] replays what one of them wrote on a store of its own.
      [SharedProcesses] adds pinned readers; [FsProtocol] is the same for processes
      on the file system.
      [CollectFacts]: collection deletes exactly the old objects that no head needs,
      where [needed] is defined from what the runs and their fences name.
      [PackageTheorems]: what was published is what is read.
    - [src/rpc.rs]: [Rpc] (the trait [RpcBackend] as a record of operations, dispatch,
      batches, the refreshing server), [RpcFacts], [RpcTheorems].
    - [worker/src/core.rs]: [Worker], the worker's bounded reader; [WorkerFacts].
      [worker/src/lib.rs]: [Gateway], JSON-RPC and the object gateway.
      [WorkerTheorems]: the worker answers as the native server does.
      [GatewayTheorems]: what the gateway exposes and serves.
    - [src/main.rs]: [Cli], the commands from parsed arguments on; [CliTheorems]
      (compaction drains the backlog, the checks of [archive], the probe's report).
    - [tools/base-export/probe/src/main.rs]: [StateProbe], the exporter's probe, over
      the crates of a node; its lines are complete.
    - [Prelude], [Bytes], [Text], [SortedLists], [Json]: results, programs, machine
      integers, text and JSON values, and their lemmas.  [TieredExample] and
      [Examples] run the operations on a small archive and apply the theorems to it.

    ** How code is modelled

    A function that can fail returns [result], or [aresult] for the worker's own
    error type; a panic is an error value of its own ([Panic], [APanic]), so that
    theorems can say it does not happen.  Code that calls a store is a tree of
    requests, [prog]: [run_prog] executes it against a state, [run_pure] against
    fixed answers, [always] and [bounded] quantify over all answers, and [Protocol]
    and [pool] interleave the requests of several programs.  A back end is an
    interpretation ([interp]) of store requests by programs over system calls or
    over calls of a provider, whose answers are a step relation.  Integers are [N] or [Z] with the
    width written out where the code can reach it; [usize] is 64 bits in the native
    program and 32 in the worker.

    Crates outside the repository are classes: [Sha256], [Keccak256], [Hex], [Zstd],
    [ZstdStream], [HeadJson], [SerdeJson], [RecordJson], [RequestJson], [ShardCache],
    [Revm] and [Reth], and the bucket of the worker ([r2E], [bucket_holds], [object_stored]).  What the
    code relies on is a separate class of laws.  [ToyCrates], [ToyJson], [ToyValue],
    [NormalizedTheorems] and the examples instantiate every class by computable functions that
    satisfy the laws.  No collision-freedom of SHA-256 is assumed, since the store
    refuses to overwrite an object with other bytes; the one exception is
    [fs_processes_serialize], because the versions of the file-system store are digests.

    ** Fuel and bounds

    The merge loop takes one unit of fuel per record and one to stop
    ([merge_loop_enough]); planning a compaction takes nine, one more than the eight
    levels ([compaction_plan_total]); the compare-and-swap loops take the 32 attempts
    of the code; a listing takes one unit per directory ([fs_list_exact]); draining the
    level-0 runs takes one per compaction ([compact_drains]).  Everything else is
    structural.

    ** The main theorems

    [reader_refines_history], [server_refines_history] and
    [worker_agrees_with_server] say that the native reader, the RPC server in any
    reachable state, and the worker return the state of the published history and
    nothing else.  [publish_appends_history], [compaction_preserves_states],
    [interleaving_is_legal], [published_never_lost] and
    [garbage_collection_exact] say that the operations that change the archive keep
    that history.  [fs_processes_serialize] says it of publishers, compactors and readers
    as processes on a file system, from their system calls up: the history each chain
    ends with, and every answer given on the way, is that of a log of packages.  It
    rests on [fs_clients_linearize], which like
    [object_clients_linearize] says that requests to a back end are atomic to its
    clients.  [fs_crash_complete] says what any crash shows,
    and [fs_write_durable] which writes a crash cannot take back, also with other
    processes about; a put that finds its object flushes nothing, and the lemma
    [existing_object_can_be_lost] runs that case.  [parsed_package_ok], [package_roundtrip],
    [accepted_package_stages], [genesis_anchor_complete] and
    [published_state_is_read] connect the input files to it, and
    [export_explains_range] says that the exporter's probe omits nothing.
    [gateway_exposes_only_objects] and [object_get_exact] describe the public gateway:
    which keys it reads, and the exact answer to every combination of conditions and
    ranges.

    ** Not modelled

    - The inside of the system calls and of the crate [object_store]: [fs_step] and
      the provider's step relation state their documented behaviour.
    - Linearizability is about clients that have finished; a process that dies inside
      a request is covered by [fs_crash_complete] and by the invariants, not by it.
    - Concurrent publishers on the object store.  [object_clients_linearize] asks that
      every key a client may put has one designated content, whatever the provider
      answers; for content-addressed keys this only holds of runs in which no two
      digests collide, and is not connected to [SharedStore] yet.
    - Garbage collection beside other processes: [garbage_collection_exact] runs it
      alone, on a memory store whose objects have given ages.
    - Concurrency inside one operation.  Uploads overlap the build in [src/compact.rs]
      and the deletions of a collection overlap; they run in program order here, and
      when several tasks fail at once only the fact that the operation fails is
      modelled, not which error is reported.  The requests of an RPC batch are
      answered in order; [batch_is_pointwise] shows that the order does not matter.
    - A request that is in flight while the server adopts a new head keeps its reader:
      a request is one step of a server here.
    - HTTP routing by [axum], the Cloudflare runtime and the deserializers that
      [serde] derives: they are parameters.
    - Argument parsing by [clap], logging, and the Python script that turns the lines
      of the probe into packages.  The node below the probe is a parameter: [replays]
      is what its bundles of changes are taken to say.

    ** Next

    The upload pipeline of [src/compact.rs] as interleaved tasks; crashes in the
    middle of a publication on the file system, with the recovery that the next
    publisher makes; the collector beside publishers and readers on a shared back
    end, where a reader may lose the objects of a head that was superseded. *)

From stdpp Require Export base numbers list strings gmap.
From Stdlib Require Export Strings.Byte.
From Stdlib Require Import Lia ZArith NArith.

(** ** Results

    [anyhow::Result<T>]: an error is a message, or a message with a context
    wrapped around it ([.context(..)]).  [Panic] is a Rust panic (an index
    out of bounds, an [unwrap] of [None], a division by zero): it is a value
    here so that theorems can say it does not happen. *)

(** [worker/src/core.rs]: the worker's own error type, which the codec carries
    through as an [anyhow::Error]. *)
Inductive ArchiveError :=
| Unavailable (message : string)
| Integrity
| Limit
| InvalidParams (message : string)
| Backend.

Inductive error :=
| Msg (message : string)
| Ctx (context : string) (cause : error)
| Archive (e : ArchiveError)
| Panic (reason : string).

Inductive result (A : Type) :=
| Ok (a : A)
| Err (e : error).
Arguments Ok {A} a.
Arguments Err {A} e.

#[export] Instance ArchiveError_eq_dec : EqDecision ArchiveError.
Proof. solve_decision. Defined.
#[export] Instance error_eq_dec : EqDecision error.
Proof. solve_decision. Defined.
#[export] Instance result_eq_dec `{EqDecision A} : EqDecision (result A).
Proof. solve_decision. Defined.

Declare Scope fossil_scope.
Delimit Scope fossil_scope with fossil.
Open Scope fossil_scope.

(** The [?] operator. *)
Notation "'let?' x := c 'in' k" :=
  (match c with Ok x => k | Err e => Err e end)
  (at level 10, x pattern, c at level 100, k at level 200) : fossil_scope.

Definition bail {A} (message : string) : result A := Err (Msg message).

(** [Option::context] / [ok_or_else]. *)
Definition ok_or {A} (o : option A) (message : string) : result A :=
  match o with Some a => Ok a | None => Err (Msg message) end.

(** [Result::context]. *)
Definition with_context {A} (message : string) (r : result A) : result A :=
  match r with Ok a => Ok a | Err e => Err (Ctx message e) end.

(** [impl Display for ArchiveError]: its [Debug] form; the messages need no escapes. *)
Definition archive_error_to_string (e : ArchiveError) : string :=
  let quoted m := String (Ascii.ascii_of_nat 34) (m +:+ String (Ascii.ascii_of_nat 34) EmptyString) in
  match e with
  | Unavailable m => "Unavailable(" +:+ quoted m +:+ ")"
  | Integrity => "Integrity"
  | Limit => "Limit"
  | InvalidParams m => "InvalidParams(" +:+ quoted m +:+ ")"
  | Backend => "Backend"
  end.
(** [anyhow::Error::to_string]: the outermost message. *)
Definition error_to_string (e : error) : string :=
  match e with Msg m => m | Ctx c _ => c | Archive a => archive_error_to_string a | Panic r => r end.

(** [Option::unwrap] *)
Definition unwrap {A} (o : option A) : result A :=
  match o with Some a => Ok a | None => Err (Panic "called `Option::unwrap()` on a `None` value") end.

Definition is_ok {A} (r : result A) : bool :=
  match r with Ok _ => true | Err _ => false end.

(** [iter.map(f).collect::<Result<Vec<_>>>()]. *)
Fixpoint collect {A B} (f : A → result B) (l : list A) : result (list B) :=
  match l with
  | [] => Ok []
  | x :: l => let? y := f x in let? ys := collect f l in Ok (y :: ys)
  end.

(** ** Machine integers

    [u32], [u64] and [usize] (64 bits wide on the native targets) are [N];
    the width is written out wherever the code can reach it. *)

Definition u32_max : N := 4294967295.
Definition u64_max : N := 18446744073709551615.
Definition usize_max : N := u64_max.

Definition checked_add (width_max a b : N) : option N :=
  if (a + b <=? width_max)%N then Some (a + b)%N else None.

(** [a + b] of a release build: the profile does not enable overflow checks. *)
Definition wrapping_add64 (a b : N) : N := ((a + b) mod (u64_max + 1))%N.
Definition wrapping_mul64 (a b : N) : N := ((a * b) mod (u64_max + 1))%N.

(** [n as u32] *)
Definition as_u32 (n : N) : N := (n mod (u32_max + 1))%N.

(** [u32::try_from(n)] *)
Definition try_u32 (n : N) (message : string) : result N :=
  if (n <=? u32_max)%N then Ok n else Err (Msg message).

(** ** Programs

    Code that calls a store or a caller's [fetch] closure is a tree of
    requests: [Vis e k] issues the request [e] and continues with its answer.
    The same tree is executed against one store ([run_prog]), traced, bounded
    over every possible answer, and interleaved with other programs. *)

Inductive prog (E : Type → Type) (A : Type) : Type :=
| Ret (a : A)
| Vis {X : Type} (e : E X) (k : X → prog E A).
Arguments Ret {E A} a.
Arguments Vis {E A X} e k.

Fixpoint bind {E A B} (p : prog E A) (f : A → prog E B) : prog E B :=
  match p with
  | Ret a => f a
  | Vis e k => Vis e (λ x, bind (k x) f)
  end.

Definition request {E X} (e : E X) : prog E X := Vis e Ret.

(** [.await?] in a function that returns a [Result]. *)
Notation "'let!' x := c 'in' k" :=
  (bind c (λ r, match r with Ok x => k | Err e => Ret (Err e) end))
  (at level 10, x pattern, c at level 100, k at level 200) : fossil_scope.
(** [?] on a pure result inside a program. *)
Notation "'let!?' x := c 'in' k" :=
  (match c with Ok x => k | Err e => Ret (Err e) end)
  (at level 10, x pattern, c at level 100, k at level 200) : fossil_scope.
(** Sequencing of programs whose answer is not a [Result]. *)
Notation "'let*' x := c 'in' k" :=
  (bind c (λ x, k))
  (at level 10, x pattern, c at level 100, k at level 200) : fossil_scope.

(** Execution against a handler that threads a state. *)
Fixpoint run_prog {E S A} (h : ∀ X, E X → S → X * S) (p : prog E A) (s : S) : A * S :=
  match p with
  | Ret a => (a, s)
  | Vis e k => let '(x, s') := h _ e s in run_prog h (k x) s'
  end.

(** Execution against answers that depend on the request alone. *)
Fixpoint run_pure {E A} (h : ∀ X, E X → X) (p : prog E A) : A :=
  match p with
  | Ret a => a
  | Vis e k => run_pure h (k (h _ e))
  end.

(** Replacing every request by a program of another interface. *)
Fixpoint interp {E F A} (h : ∀ X, E X → prog F X) (p : prog E A) : prog F A :=
  match p with
  | Ret a => Ret a
  | Vis e k => bind (h _ e) (λ x, interp h (k x))
  end.

(** The same with a state that the replacements share. *)
Fixpoint interp_st {E F S A} (h : ∀ X, E X → S → prog F (X * S)) (p : prog E A) (s : S)
    : prog F (A * S) :=
  match p with
  | Ret a => Ret (a, s)
  | Vis e k => bind (h _ e s) (λ '(x, s'), interp_st h (k x) s')
  end.

(** At most [n] requests are issued, each satisfying [P], whatever the answers. *)
Inductive bounded {E A} (P : ∀ X, E X → Prop) : nat → prog E A → Prop :=
| bounded_ret n a : bounded P n (Ret a)
| bounded_vis n {X} (e : E X) k :
    P X e → (∀ x, bounded P n (k x)) → bounded P (S n) (Vis e k).

(** Every request satisfies [P] and every result [Q], whatever the answers. *)
Inductive always {E A} (P : ∀ X, E X → Prop) (Q : A → Prop) : prog E A → Prop :=
| always_ret a : Q a → always P Q (Ret a)
| always_vis {X} (e : E X) k : P X e → (∀ x, always P Q (k x)) → always P Q (Vis e k).

(** ** Generic lemmas *)

Lemma bind_assoc {E A B C} (p : prog E A) (f : A → prog E B) (g : B → prog E C) (h : ∀ X, E X → X) :
  run_pure h (bind (bind p f) g) = run_pure h (bind p (λ a, bind (f a) g)).
Proof. induction p as [a|X e k IH]; simpl; [done|apply IH]. Qed.

Lemma run_pure_bind {E A B} (h : ∀ X, E X → X) (p : prog E A) (f : A → prog E B) :
  run_pure h (bind p f) = run_pure h (f (run_pure h p)).
Proof. induction p as [a|X e k IH]; simpl; [done|apply IH]. Qed.

Lemma run_prog_bind {E S A B} (h : ∀ X, E X → S → X * S) (p : prog E A) (f : A → prog E B) s :
  run_prog h (bind p f) s = let '(a, s') := run_prog h p s in run_prog h (f a) s'.
Proof.
  revert s; induction p as [a|X e k IH]; intros s; simpl; [done|].
  destruct (h X e s) as [x s']; apply IH.
Qed.

Lemma bounded_weaken {E A} (P : ∀ X, E X → Prop) n m (p : prog E A) :
  bounded P n p → n ≤ m → bounded P m p.
Proof.
  intros Hp; revert m; induction Hp as [|n X e k He Hk IH]; intros m Hm; [constructor|].
  destruct m as [|m]; [lia|]. constructor; [done|]. intros x; apply IH; lia.
Qed.

Lemma bounded_bind {E A B} (P : ∀ X, E X → Prop) n m (p : prog E A) (f : A → prog E B) :
  bounded P n p → (∀ a, bounded P m (f a)) → bounded P (n + m) (bind p f).
Proof.
  intros Hp Hf; induction Hp as [n a|n X e k He Hk IH]; simpl.
  - eapply bounded_weaken; [apply Hf|lia].
  - by constructor.
Qed.

Lemma always_bind {E A B} (P : ∀ X, E X → Prop) (Q : A → Prop) (R : B → Prop) (p : prog E A) (f : A → prog E B) :
  always P Q p → (∀ a, Q a → always P R (f a)) → always P R (bind p f).
Proof. intros Hp Hf; induction Hp; simpl; [by apply Hf|by constructor]. Qed.

Lemma always_inv {E A} (P : ∀ X, E X → Prop) (Q : A → Prop) (p : prog E A) :
  always P Q p → match p with Ret a => Q a | Vis e k => P _ e ∧ ∀ x, always P Q (k x) end.
Proof. by intros []. Qed.
Lemma always_both {E A} (P : ∀ X, E X → Prop) (Q R : A → Prop) (p : prog E A) :
  always P Q p → always P R p → always P (λ a, Q a ∧ R a) p.
Proof.
  induction 1 as [a Ha|X e k He _ IH]; intros Hr%always_inv; [by constructor|]. constructor; [done|]. intros x. by apply IH, Hr.
Qed.
Lemma always_weaken {E A} (P : ∀ X, E X → Prop) (Q R : A → Prop) (p : prog E A) :
  always P Q p → (∀ a, Q a → R a) → always P R p.
Proof. intros Hp Hf; induction Hp; constructor; auto. Qed.

(** Programs over a state keep what each replaced request keeps. *)
Lemma always_interp_st {E F S A} (P : ∀ X, F X → Prop) (h : ∀ X, E X → S → prog F (X * S)) (p : prog E A) s :
  (∀ X e s, always P (λ _, True) (h X e s)) → always P (λ _, True) (interp_st h p s).
Proof.
  intros Hh. revert s; induction p as [a|X e k IH]; intros s; simpl; [by constructor|].
  eapply always_bind; [apply Hh|]. intros [x s'] _. apply IH.
Qed.
Lemma always_interp {E F A} (P : ∀ X, F X → Prop) (h : ∀ X, E X → prog F X) (p : prog E A) :
  (∀ X e, always P (λ _, True) (h X e)) → always P (λ _, True) (interp h p).
Proof.
  intros Hh. induction p as [a|X e k IH]; simpl; [by constructor|].
  eapply always_bind; [apply Hh|]. intros x _. apply IH.
Qed.

Lemma as_u32_small n : (n <= u32_max)%N → as_u32 n = n.
Proof. intros Hn. apply N.mod_small. lia. Qed.

Lemma collect_Forall2 {A B} (f : A → result B) l ys :
  collect f l = Ok ys ↔ Forall2 (λ x y, f x = Ok y) l ys.
Proof.
  revert ys; induction l as [|x l IH]; intros ys; simpl.
  - split; [intros [= <-]; constructor|intros H; inversion H; done].
  - split.
    + destruct (f x) as [y|] eqn:Hx; [|done].
      destruct (collect f l) as [zs|]; [|done].
      intros [= <-]; constructor; [done|by apply IH].
    + intros H; inversion H as [|?? ? ? Hx Hl]; subst.
      rewrite Hx. apply IH in Hl; by rewrite Hl.
Qed.

(** The images of a list are distinct when their keys come from distinct things. *)
Lemma NoDup_omap_key {A B C D} (f : A → option B) (key : B → C) (g : A → option D) l :
  (∀ x y a b, x ∈ l → y ∈ l → f x = Some a → f y = Some b → key a = key b → is_Some (g x) ∧ g x = g y) →
  NoDup (omap g l) → NoDup (map key (omap f l)).
Proof.
  induction l as [|x l IH]; simpl; intros Hk Hd; [constructor|].
  assert (NoDup (map key (omap f l))) as Hl.
  { apply IH; [intros y z a b Hy Hz; apply Hk; by apply list_elem_of_further|]. revert Hd. destruct (g x); [by inversion 1|done]. }
  destruct (f x) as [a|] eqn:Ef; [|done]. simpl. constructor; [|done].
  intros Hin. apply list_elem_of_fmap in Hin as (b & Eb & Hb). apply list_elem_of_omap in Hb as (y & Hy & Ey).
  destruct (Hk x y a b) as [[d Ed] Exy]; [by apply list_elem_of_here|by apply list_elem_of_further|done..|]. rewrite Ed in *. inversion Hd as [|? ? Hn]; subst.
  apply Hn. apply list_elem_of_omap. eauto.
Qed.

(** ** Tactics *)

(** Split a successful chain of [let?] / [if] tests into its steps. *)
Ltac step_ok H :=
  match type of H with
  | (match ?c with Ok _ => _ | Err _ => _ end) = Ok _ =>
      let E := fresh "E" in destruct c eqn:E; [|discriminate H]
  | (if ?c then _ else _) = Ok _ =>
      let E := fresh "E" in destruct c eqn:E
  | (match ?c with Some _ => _ | None => _ end) = Ok _ =>
      let E := fresh "E" in destruct c eqn:E
  end.


Ltac invs H := inversion H; subst; clear H.

(** Turn boolean tests into propositions. *)
Ltac bool_prop :=
  repeat match goal with
  | H : _ && _ = true |- _ => apply andb_true_iff in H; destruct H
  | H : _ || _ = false |- _ => apply orb_false_iff in H; destruct H
  | H : negb _ = true |- _ => apply negb_true_iff in H
  | H : negb _ = false |- _ => apply negb_false_iff in H
  | H : bool_decide _ = true |- _ => apply bool_decide_eq_true in H
  | H : bool_decide _ = false |- _ => apply bool_decide_eq_false in H
  | H : (_ =? _)%N = true |- _ => apply N.eqb_eq in H
  | H : (_ =? _)%N = false |- _ => apply N.eqb_neq in H
  | H : (_ <=? _)%N = true |- _ => apply N.leb_le in H
  | H : (_ <=? _)%N = false |- _ => apply N.leb_gt in H
  | H : (_ <? _)%N = true |- _ => apply N.ltb_lt in H
  | H : (_ <? _)%N = false |- _ => apply N.ltb_ge in H
  end.

Create HintDb fossil.
Create Rewrite HintDb fossil_len.
