(* ===== verification/Bytes.v ===== *)
(** * Bytes, fixed-size arrays and big-endian integers

    What the codec uses of Rust's [u8], [&[u8]], [[u8; N]], [to_be_bytes],
    [from_be_bytes] and of the lexicographic [Ord] of slices and tuples. *)

From S2P Require Import Prelude.
From Stdlib Require Import Lia ZArith NArith.

Abbreviation bytes := (list byte).

#[export] Instance byte_eq_dec : EqDecision byte := Byte.byte_eq_dec.

(** [b as u64] and [n as u8]. *)
Definition byte_N (b : byte) : N := Byte.to_N b.
Definition byte_of (n : N) : byte :=
  match Byte.of_N (n mod 256) with Some b => b | None => Byte.x00 end.

Definition len {A} (l : list A) : N := N.of_nat (length l).
Definition byte_string (s : string) : bytes := String.list_byte_of_string s.

(** [char::is_ascii_uppercase] on a byte *)
Definition is_ascii_uppercase (c : byte) : bool :=
  (65 <=? byte_N c)%N && (byte_N c <=? 90)%N.

(** [bytes.get(start..stop)] *)
Definition get_range (b : bytes) (start stop : N) : option bytes :=
  if (start <=? stop)%N && (stop <=? len b)%N
  then Some (take (N.to_nat (stop - start)) (drop (N.to_nat start) b))
  else None.

(** [bytes.starts_with(prefix)] *)
Definition starts_with {A} `{EqDecision A} (b prefix : list A) : bool :=
  bool_decide (take (length prefix) b = prefix).

(** [x.to_be_bytes()] for an integer of [n] bytes. *)
Fixpoint to_be (n : nat) (x : N) : bytes :=
  match n with
  | O => []
  | S n => to_be n (x / 256) ++ [byte_of x]
  end.
Definition u32_be : N → bytes := to_be 4.
Definition u64_be : N → bytes := to_be 8.

(** [uN::from_be_bytes(b)] *)
Definition from_be (b : bytes) : N :=
  fold_left (λ acc x, acc * 256 + byte_N x)%N b 0%N.

(** [[u8; n]]: a list that carries its length. *)
Record array (n : nat) := Array {
  arr : bytes;
  arr_len : (length arr =? n)%nat = true
}.
Arguments Array {n} arr arr_len.
Arguments arr {n} _.

(** [slice.try_into::<[u8; n]>()] *)
Definition to_array (n : nat) (b : bytes) : option (array n) :=
  match bool_dec (length b =? n)%nat true with
  | left H => Some (Array b H)
  | right _ => None
  end.

(** [[x; n]] *)
Definition array_repeat (n : nat) (x : byte) : array n :=
  Array (replicate n x)
    (eq_ind_r (λ m, (m =? n)%nat = true) (Nat.eqb_refl n) (length_replicate n x)).

Definition Hash32 : Type := array 32.
Definition zero_hash : Hash32 := @Array 32 (replicate 32 Byte.x00) eq_refl.

Definition arr_eqb {n} (a b : array n) : bool := bool_decide (arr a = arr b).

(** Lowercase hexadecimal digits, as [{:x}] and [hex::encode] write them. *)
Definition hex_digit (n : N) : Ascii.ascii :=
  Ascii.ascii_of_N (if (n <? 10)%N then 48 + n else 87 + n)%N.
Fixpoint lower_hex (b : bytes) : string :=
  match b with
  | [] => EmptyString
  | x :: b => String (hex_digit (byte_N x / 16)) (String (hex_digit (byte_N x mod 16)) (lower_hex b))
  end.

(** [format!("{n:08x}")] for a [u32]. *)
Definition hex08 (n : N) : string := lower_hex (u32_be n).

(** ** Orders

    [Ord::cmp] as a three-way comparison, with the laws the sorted-list
    theory needs. *)

Class Cmp (A : Type) := cmp : A → A → comparison.
Class CmpLaws (A : Type) `{Cmp A} : Prop := {
  cmp_eq (x y : A) : cmp x y = Eq ↔ x = y;
  cmp_opp (x y : A) : cmp y x = CompOpp (cmp x y);
  cmp_trans (x y z : A) : cmp x y = Lt → cmp y z = Lt → cmp x z = Lt
}.

#[export] Instance N_cmp : Cmp N := N.compare.
#[export] Instance byte_cmp : Cmp byte := λ x y, (byte_N x ?= byte_N y)%N.

Fixpoint list_cmp {A} `{Cmp A} (x y : list A) : comparison :=
  match x, y with
  | [], [] => Eq
  | [], _ :: _ => Lt
  | _ :: _, [] => Gt
  | a :: x, b :: y => match cmp a b with Eq => list_cmp x y | c => c end
  end.
#[export] Instance list_Cmp `{Cmp A} : Cmp (list A) := list_cmp.

#[export] Instance prod_cmp `{Cmp A, Cmp B} : Cmp (A * B) := λ x y,
  match cmp x.1 y.1 with Eq => cmp x.2 y.2 | c => c end.

#[export] Instance array_cmp n : Cmp (array n) := λ x y, cmp (arr x) (arr y).

(** [x < y] and [x <= y] as the code's tests and as propositions. *)
Definition ltb {A} `{Cmp A} (x y : A) : bool :=
  match cmp x y with Lt => true | _ => false end.
Definition leb {A} `{Cmp A} (x y : A) : bool :=
  match cmp x y with Gt => false | _ => true end.
Definition clt {A} `{Cmp A} (x y : A) : Prop := cmp x y = Lt.
Definition cle {A} `{Cmp A} (x y : A) : Prop := cmp x y ≠ Gt.

(** ** Lemmas: bytes and integers *)

Lemma byte_N_lt b : (byte_N b < 256)%N.
Proof. pose proof (Byte.to_N_bounded b). unfold byte_N. lia. Qed.

Lemma byte_N_of n : byte_N (byte_of n) = (n mod 256)%N.
Proof.
  unfold byte_of, byte_N. pose proof (N.mod_lt n 256 ltac:(lia)).
  destruct (Byte.of_N (n mod 256)) eqn:E; [by apply Byte.to_of_N|].
  apply Byte.of_N_None_iff in E. lia.
Qed.

Lemma byte_N_inj a b : byte_N a = byte_N b → a = b.
Proof.
  unfold byte_N; intros H. pose proof (Byte.of_to_N a) as Ha. pose proof (Byte.of_to_N b) as Hb.
  congruence.
Qed.

Lemma byte_of_N b : byte_of (byte_N b) = b.
Proof. apply byte_N_inj. rewrite byte_N_of. apply N.mod_small, byte_N_lt. Qed.

Lemma byte_of_eq n b : (n mod 256 = byte_N b)%N → byte_of n = b.
Proof. intros H. apply byte_N_inj. by rewrite byte_N_of. Qed.

Lemma len_nil {A} : len (@nil A) = 0%N.
Proof. done. Qed.
Lemma len_cons {A} (x : A) l : len (x :: l) = (1 + len l)%N.
Proof. unfold len; simpl; lia. Qed.
Lemma len_app {A} (l k : list A) : len (l ++ k) = (len l + len k)%N.
Proof. unfold len; rewrite length_app; lia. Qed.
Lemma len_map {A B} (f : A → B) l : len (map f l) = len l.
Proof. unfold len. by rewrite length_map. Qed.
Lemma len_fmap {A B} (f : A → B) (l : list A) : len (f <$> l) = len l.
Proof. apply len_map. Qed.
Lemma len_replicate {A} n (x : A) : len (replicate n x) = N.of_nat n.
Proof. unfold len. by rewrite length_replicate. Qed.
Lemma len_length {A} (l : list A) : N.to_nat (len l) = length l.
Proof. unfold len; lia. Qed.

Lemma length_to_be n x : length (to_be n x) = n.
Proof. revert x; induction n as [|n IH]; intros x; simpl; [done|]. rewrite length_app, IH; simpl; lia. Qed.
Lemma len_to_be n x : len (to_be n x) = N.of_nat n.
Proof. unfold len. by rewrite length_to_be. Qed.
Lemma len_u32_be x : len (u32_be x) = 4%N.
Proof. apply (len_to_be 4). Qed.
Lemma len_u64_be x : len (u64_be x) = 8%N.
Proof. apply (len_to_be 8). Qed.
#[export] Hint Rewrite @len_nil @len_cons @len_app @len_map @len_fmap @len_replicate
  @len_u32_be @len_u64_be : fossil_len.

(** Length arithmetic. *)
Ltac len_lia := autorewrite with fossil_len in *; lia.

Lemma from_be_snoc b x : from_be (b ++ [x]) = (from_be b * 256 + byte_N x)%N.
Proof. unfold from_be. by rewrite fold_left_app. Qed.

Lemma from_be_to_be n x : (x < 256 ^ N.of_nat n)%N → from_be (to_be n x) = x.
Proof.
  revert x; induction n as [|n IH]; intros x Hx.
  - simpl in *. unfold from_be; simpl. lia.
  - simpl. rewrite from_be_snoc, IH, byte_N_of.
    + pose proof (N.div_mod x 256 ltac:(lia)). lia.
    + apply N.Div0.div_lt_upper_bound.
      replace (N.of_nat (S n)) with (N.succ (N.of_nat n)) in Hx by lia.
      by rewrite N.pow_succ_r' in Hx.
Qed.

Lemma from_be_lt b : (from_be b < 256 ^ len b)%N.
Proof.
  induction b as [|x b IH] using rev_ind; [done|].
  rewrite from_be_snoc, len_app. change (len [x]) with 1%N.
  rewrite N.add_1_r, N.pow_succ_r'. pose proof (byte_N_lt x). nia.
Qed.

Lemma to_be_from_be b : to_be (length b) (from_be b) = b.
Proof.
  induction b as [|x b IH] using rev_ind; [done|].
  rewrite length_app, Nat.add_comm; simpl. rewrite from_be_snoc. f_equal.
  - replace ((from_be b * 256 + byte_N x) / 256)%N with (from_be b); [done|].
    pose proof (byte_N_lt x). apply (N.div_unique _ 256 _ (byte_N x)); lia.
  - f_equal. apply byte_of_eq. pose proof (byte_N_lt x).
    symmetry. apply (N.mod_unique _ 256 (from_be b)); lia.
Qed.

Lemma to_be_inj n x y :
  (x < 256 ^ N.of_nat n)%N → (y < 256 ^ N.of_nat n)%N → to_be n x = to_be n y → x = y.
Proof. intros Hx Hy H. rewrite <-(from_be_to_be n x), <-(from_be_to_be n y), H; done. Qed.

Lemma u32_be_round x : (x <= u32_max)%N → from_be (u32_be x) = x.
Proof. intros H. apply from_be_to_be. change (256 ^ N.of_nat 4)%N with 4294967296%N. unfold u32_max in H; lia. Qed.
Lemma u64_be_round x : (x <= u64_max)%N → from_be (u64_be x) = x.
Proof.
  intros H. apply from_be_to_be.
  change (256 ^ N.of_nat 8)%N with 18446744073709551616%N. unfold u64_max in H; lia.
Qed.
Lemma from_be_u32 b : length b = 4 → (from_be b <= u32_max)%N ∧ u32_be (from_be b) = b.
Proof.
  intros H. split; [|unfold u32_be; rewrite <-H; apply to_be_from_be].
  pose proof (from_be_lt b) as Hb. unfold len in Hb; rewrite H in Hb.
  change (256 ^ N.of_nat 4)%N with 4294967296%N in Hb. unfold u32_max; lia.
Qed.
Lemma from_be_u64 b : length b = 8 → (from_be b <= u64_max)%N ∧ u64_be (from_be b) = b.
Proof.
  intros H. split; [|unfold u64_be; rewrite <-H; apply to_be_from_be].
  pose proof (from_be_lt b) as Hb. unfold len in Hb; rewrite H in Hb.
  change (256 ^ N.of_nat 8)%N with 18446744073709551616%N in Hb. unfold u64_max; lia.
Qed.

(** ** Lemmas: hexadecimal *)

Definition nibbles : list N := [0; 1; 2; 3; 4; 5; 6; 7; 8; 9; 10; 11; 12; 13; 14; 15]%N.

Lemma nibble_cases n : (n < 16)%N → n ∈ nibbles.
Proof.
  intros Hn. unfold nibbles.
  assert (∃ k, (n = N.of_nat k ∧ k < 16)%nat) as (k & -> & Hk) by (exists (N.to_nat n); lia).
  do 16 (destruct k as [|k]; [set_solver|]). lia.
Qed.

Lemma byte_nibbles x : (byte_N x / 16 < 16)%N ∧ (byte_N x mod 16 < 16)%N.
Proof.
  pose proof (byte_N_lt x). split; [apply N.Div0.div_lt_upper_bound; lia|apply N.mod_lt; lia].
Qed.

Lemma hex_digit_inj n m : (n < 16)%N → (m < 16)%N → hex_digit n = hex_digit m → n = m.
Proof.
  intros Hn%nibble_cases Hm%nibble_cases.
  assert (Forall (λ a, Forall (λ b, hex_digit a = hex_digit b → a = b) nibbles) nibbles) as HF
    by (repeat constructor; done).
  rewrite Forall_forall in HF. specialize (HF n Hn). rewrite Forall_forall in HF. by apply HF.
Qed.

Lemma lower_hex_inj a b : lower_hex a = lower_hex b → a = b.
Proof.
  revert b; induction a as [|x a IH]; intros [|y b]; simpl; try done. intros [= H1 H2 H3].
  destruct (byte_nibbles x), (byte_nibbles y).
  apply hex_digit_inj in H1; [|done..]. apply hex_digit_inj in H2; [|done..]. f_equal; [|by apply IH].
  apply byte_N_inj. rewrite (N.div_mod (byte_N x) 16), (N.div_mod (byte_N y) 16) by done. congruence.
Qed.

Lemma hex08_inj n m : (n <= u32_max)%N → (m <= u32_max)%N → hex08 n = hex08 m → n = m.
Proof. intros Hn Hm E%lower_hex_inj. rewrite <-(u32_be_round n), <-(u32_be_round m), E; done. Qed.

Lemma length_lower_hex b : String.length (lower_hex b) = 2 * length b.
Proof. induction b as [|x b IH]; simpl; [done|]. rewrite IH. lia. Qed.
Lemma length_hex08 n : String.length (hex08 n) = 8.
Proof. unfold hex08. rewrite length_lower_hex. by rewrite (length_to_be 4). Qed.

#[global] Arguments to_be : simpl never.
#[global] Opaque u32_be u64_be.
#[global] Arguments len : simpl never.

(** ** Lemmas: slices *)

Lemma get_range_app pre mid post s e :
  s = len pre → e = (len pre + len mid)%N → get_range (pre ++ mid ++ post) s e = Some mid.
Proof.
  intros -> ->. unfold get_range.
  replace (len pre <=? len pre + len mid)%N with true by (symmetry; apply N.leb_le; lia).
  replace (len pre + len mid <=? len (pre ++ mid ++ post))%N with true
    by (symmetry; apply N.leb_le; len_lia). simpl.
  rewrite len_length, drop_app_length.
  replace (N.to_nat (len pre + len mid - len pre)) with (length mid) by (unfold len; lia).
  by rewrite take_app_length.
Qed.

Lemma get_range_Some b s e m :
  get_range b s e = Some m →
  (s <= e)%N ∧ (e <= len b)%N ∧ len m = (e - s)%N ∧
  m = take (N.to_nat (e - s)) (drop (N.to_nat s) b).
Proof.
  unfold get_range. destruct (_ && _) eqn:E; [|done]. bool_prop. intros [= <-].
  split_and!; [done..| |done]. unfold len in *. rewrite length_take, length_drop. lia.
Qed.

Lemma get_range_split b s e m :
  get_range b s e = Some m → ∃ pre post, b = pre ++ m ++ post ∧ len pre = s.
Proof.
  intros H. apply get_range_Some in H as (Hs & He & Hl & ->).
  exists (take (N.to_nat s) b), (drop (N.to_nat (e - s)) (drop (N.to_nat s) b)). split.
  - by rewrite take_drop, take_drop.
  - unfold len in *. rewrite length_take. lia.
Qed.

Lemma get_range_0 b e m : get_range b 0 e = Some m → m = take (N.to_nat e) b.
Proof. intros H. apply get_range_Some in H as (_ & _ & _ & ->). by rewrite N.sub_0_r. Qed.

(** Adjacent ranges join. *)
Lemma get_range_join b s m e x y :
  get_range b s m = Some x → get_range b m e = Some y → get_range b s e = Some (x ++ y).
Proof.
  intros Hx Hy. apply get_range_Some in Hx as (?&?&?&->). apply get_range_Some in Hy as (?&?&?&->).
  unfold get_range. replace (s <=? e)%N with true by (symmetry; apply N.leb_le; lia).
  replace (e <=? len b)%N with true by (symmetry; apply N.leb_le; lia). simpl. f_equal.
  replace (N.to_nat (e - s)) with (N.to_nat (m - s) + N.to_nat (e - m)) by lia.
  rewrite <-take_take_drop. f_equal. f_equal. rewrite drop_drop. f_equal. lia.
Qed.

(** ** Lemmas: arrays *)

Lemma arr_inj {n} (a b : array n) : arr a = arr b → a = b.
Proof.
  destruct a as [x Hx], b as [y Hy]; simpl; intros ->. f_equal.
  apply (Eqdep_dec.UIP_dec bool_dec).
Qed.
#[export] Instance array_eq_dec n : EqDecision (array n).
Proof.
  intros a b. destruct (decide (arr a = arr b)) as [H|H].
  - left. by apply arr_inj.
  - right. by intros ->.
Defined.

Lemma length_arr {n} (a : array n) : length (arr a) = n.
Proof. destruct a as [x H]; simpl. by apply Nat.eqb_eq. Qed.
Lemma len_arr {n} (a : array n) : len (arr a) = N.of_nat n.
Proof. unfold len. by rewrite length_arr. Qed.
#[export] Hint Rewrite @len_arr : fossil_len.

Lemma to_array_Some n b a : to_array n b = Some a ↔ arr a = b.
Proof.
  unfold to_array. destruct (bool_dec _ _) as [H|H].
  - split; [by intros [= <-]|]. intros <-. f_equal. by apply arr_inj.
  - split; [done|]. intros <-. destruct H. apply Nat.eqb_eq, length_arr.
Qed.
Lemma to_array_arr {n} (a : array n) : to_array n (arr a) = Some a.
Proof. by apply to_array_Some. Qed.
Lemma to_array_is_Some n b : length b = n → ∃ a, to_array n b = Some a ∧ arr a = b.
Proof.
  intros H. unfold to_array. destruct (bool_dec _ _) as [H'|H'].
  - eexists; split; done.
  - destruct H'. by apply Nat.eqb_eq.
Qed.

(** ** Lemmas: orders *)

#[export] Instance N_cmp_laws : CmpLaws N.
Proof.
  split; unfold cmp, N_cmp.
  - apply N.compare_eq_iff.
  - intros. apply N.compare_antisym.
  - intros x y z. rewrite !N.compare_lt_iff. lia.
Qed.

#[export] Instance byte_cmp_laws : CmpLaws byte.
Proof.
  split; unfold cmp, byte_cmp.
  - intros x y. rewrite N.compare_eq_iff. split; [apply byte_N_inj|congruence].
  - intros. apply N.compare_antisym.
  - intros x y z. rewrite !N.compare_lt_iff. lia.
Qed.

Lemma cmp_refl `{CmpLaws A} x : cmp x x = Eq.
Proof. by apply cmp_eq. Qed.

#[export] Instance list_cmp_laws `{CmpLaws A} : CmpLaws (list A).
Proof.
  assert (Hopp : ∀ x y : list A, list_cmp y x = CompOpp (list_cmp x y)).
  { induction x as [|a x IH]; intros [|b y]; simpl; try done.
    rewrite (cmp_opp a b). destruct (cmp a b); simpl; [apply IH|done|done]. }
  split; unfold cmp, list_Cmp.
  - induction x as [|a x IH]; intros [|b y]; simpl; try (split; [done|done]).
    destruct (cmp a b) eqn:E; try (split; [done|]; intros [= -> ->];
      rewrite cmp_refl in E; discriminate).
    apply cmp_eq in E as ->. rewrite IH. split; [by intros ->|by intros [= ->]].
  - apply Hopp.
  - induction x as [|a x IH]; intros [|b y] [|c z]; simpl; try done.
    destruct (cmp a b) eqn:E1, (cmp b c) eqn:E2; try done; intros H1 H2.
    + apply cmp_eq in E1 as ->. rewrite E2. eauto.
    + apply cmp_eq in E1 as ->. by rewrite E2.
    + apply cmp_eq in E2 as ->. by rewrite E1.
    + by rewrite (cmp_trans _ _ _ E1 E2).
Qed.

#[export] Instance prod_cmp_laws `{CmpLaws A, CmpLaws B} : CmpLaws (A * B).
Proof.
  split; unfold cmp, prod_cmp.
  - intros [a b] [c d]; simpl. destruct (cmp a c) eqn:E.
    + apply cmp_eq in E as ->. rewrite cmp_eq. split; [by intros ->|by intros [= ->]].
    + split; [done|]. intros [= -> ->]. rewrite cmp_refl in E. done.
    + split; [done|]. intros [= -> ->]. rewrite cmp_refl in E. done.
  - intros [a b] [c d]; simpl. rewrite (cmp_opp a c). destruct (cmp a c); simpl; [apply cmp_opp|done|done].
  - intros [a b] [c d] [e f]; simpl.
    destruct (cmp a c) eqn:E1, (cmp c e) eqn:E2; try done; intros H3 H4.
    + apply cmp_eq in E1 as ->. rewrite E2. by eapply cmp_trans.
    + apply cmp_eq in E1 as ->. by rewrite E2.
    + apply cmp_eq in E2 as ->. by rewrite E1.
    + by rewrite (cmp_trans _ _ _ E1 E2).
Qed.

#[export] Instance array_cmp_laws n : CmpLaws (array n).
Proof.
  split; unfold cmp, array_cmp.
  - intros x y. rewrite cmp_eq. split; [apply arr_inj|congruence].
  - intros. apply cmp_opp.
  - intros x y z. apply cmp_trans.
Qed.

Section order.
Context `{CmpLaws A}.
Implicit Types x y z : A.

Lemma clt_irrefl x : ¬ clt x x.
Proof. unfold clt. by rewrite cmp_refl. Qed.
Lemma clt_trans x y z : clt x y → clt y z → clt x z.
Proof. apply cmp_trans. Qed.
Lemma cle_lt_eq x y : cle x y ↔ clt x y ∨ x = y.
Proof.
  unfold cle, clt. rewrite <-cmp_eq. destruct (cmp x y); naive_solver.
Qed.
Lemma cle_refl x : cle x x.
Proof. apply cle_lt_eq. by right. Qed.
Lemma cle_trans x y z : cle x y → cle y z → cle x z.
Proof.
  rewrite !cle_lt_eq. intros [Hx| ->] [Hy| ->]; [left; by eapply clt_trans|by left|by left|by right].
Qed.
Lemma clt_le_trans x y z : clt x y → cle y z → clt x z.
Proof. rewrite cle_lt_eq. intros Hx [Hy| <-]; [by eapply clt_trans|done]. Qed.
Lemma cle_lt_trans x y z : cle x y → clt y z → clt x z.
Proof. rewrite cle_lt_eq. intros [Hx| ->] Hy; [by eapply clt_trans|done]. Qed.
Lemma not_cle x y : ¬ cle x y ↔ clt y x.
Proof. unfold cle, clt. rewrite (cmp_opp x y). destruct (cmp x y); simpl; naive_solver. Qed.
Lemma clt_not_cle x y : clt x y → ¬ cle y x.
Proof. intros Hx. by apply not_cle. Qed.
Lemma ltb_spec x y : ltb x y = true ↔ clt x y.
Proof. unfold ltb, clt. destruct (cmp x y); naive_solver. Qed.
Lemma ltb_false x y : ltb x y = false ↔ cle y x.
Proof. unfold ltb, cle. rewrite (cmp_opp x y). destruct (cmp x y); simpl; naive_solver. Qed.
Lemma leb_spec x y : leb x y = true ↔ cle x y.
Proof. unfold leb, cle. destruct (cmp x y); naive_solver. Qed.
Lemma leb_false x y : leb x y = false ↔ clt y x.
Proof. unfold leb, clt. rewrite (cmp_opp x y). destruct (cmp x y); simpl; naive_solver. Qed.
End order.

Lemma N_cle x y : cle (x : N) y ↔ (x <= y)%N.
Proof. unfold cle, cmp, N_cmp. apply N.compare_le_iff. Qed.
Lemma N_clt x y : clt (x : N) y ↔ (x < y)%N.
Proof. unfold clt, cmp, N_cmp. apply N.compare_lt_iff. Qed.

(** ** Concatenated strings *)

Lemma string_length_app s t : String.length (s +:+ t) = String.length s + String.length t.
Proof. induction s as [|c s IH]; [done|]. change (String c s +:+ t) with (String c (s +:+ t)). simpl. lia. Qed.
Lemma string_app_inj s s' t t' :
  String.length s = String.length s' → s +:+ t = s' +:+ t' → s = s' ∧ t = t'.
Proof.
  revert s'; induction s as [|c s IH]; intros [|c' s'] Hl E; try done.
  injection E as -> E. destruct (IH s') as [-> ->]; [by injection Hl|done|done].
Qed.
