(* ===== verification/RelyGuarantee.v ===== *)
(** * Programs under interference

    A back end implements one request of a store by several requests to the
    operating system or to a provider, and other processes run in between.
    [steps] is that execution: the requests of one program, each recorded with the
    states around it, and what the others do between them.  [rg] is the proof rule
    for it, by recursion on the program; [steps_rg] connects the two.  [pool] runs
    any number of programs together, and [pool_rg] says that what each program is
    proved to do under the others' guarantees, it does in every interleaving. *)

From S2P Require Import Prelude.
From stdpp Require Import relations.
From Stdlib Require Import Lia.

Section rely.
Context {E : Type → Type} {S : Type}.
Implicit Types (s : S) (tr : list (S * S)).

Section one.
Context (step : ∀ X, E X → S → X → S → Prop) (rely : S → S → Prop).

(** The program [p] runs from [s] to what is left of it in [s']; [tr] are its own
    requests, each as the state it found and the state it left. *)
Inductive steps {A} : prog E A → S → list (S * S) → prog E A → S → Prop :=
| steps_refl p s : steps p s [] p s
| steps_env p s s1 tr p' s' : rely s s1 → steps p s1 tr p' s' → steps p s tr p' s'
| steps_own {X} (e : E X) k s x s1 tr p' s' :
    step X e s x s1 → steps (k x) s1 tr p' s' → steps (Vis e k) s ((s, s1) :: tr) p' s'.

(** Each request satisfies [G] and the result [Q], whatever the answers and the
    interference; [Q] may look back at the requests that were made. *)
Fixpoint rg {A} (G : S → S → Prop) (Q : list (S * S) → A → S → Prop)
    (p : prog E A) (tr : list (S * S)) (s : S) : Prop :=
  match p with
  | Ret a => ∀ s', rely s s' → Q tr a s'
  | Vis e k =>
      ∀ s1 x s2, rely s s1 → step _ e s1 x s2 → G s1 s2 ∧ rg G Q (k x) (tr ++ [(s1, s2)]) s2
  end.

Context `{!PreOrder rely}.

Lemma rg_later {A} G Q (p : prog E A) tr s s' : rely s s' → rg G Q p tr s → rg G Q p tr s'.
Proof.
  intros Hs. destruct p as [a|X e k]; simpl; intros H.
  - intros s1 H1. apply H. by etrans.
  - intros s1 x s2 H1. apply H. by etrans.
Qed.

Lemma rg_bind {A B} G Q (p : prog E A) (f : A → prog E B) tr s :
  rg G (λ tr a s, rg G Q (f a) tr s) p tr s → rg G Q (bind p f) tr s.
Proof.
  revert tr s; induction p as [a|X e k IH]; intros tr s; simpl; [intros H; by apply H|].
  intros H s1 x s2 H1 Hx. destruct (H _ _ _ H1 Hx) as [Hg Hk]. eauto.
Qed.

Lemma rg_bind_inv {A B} G Q (p : prog E A) (f : A → prog E B) tr s :
  rg G Q (bind p f) tr s → rg G (λ tr a s, rg G Q (f a) tr s) p tr s.
Proof.
  revert tr s; induction p as [a|X e k IH]; intros tr s; simpl; [intros H s' Hs; by eapply rg_later|].
  intros H s1 x s2 H1 Hx. destruct (H _ _ _ H1 Hx) as [Hg Hk]. eauto.
Qed.

Lemma rg_weaken {A} (G G' : S → S → Prop) (Q Q' : list (S * S) → A → S → Prop) (p : prog E A) tr s :
  (∀ s s', G s s' → G' s s') → (∀ tr a s, Q tr a s → Q' tr a s) → rg G Q p tr s → rg G' Q' p tr s.
Proof.
  intros HG HQ. revert tr s; induction p as [a|X e k IH]; intros tr s; simpl; [eauto|].
  intros H s1 x s2 H1 Hx. destruct (H _ _ _ H1 Hx) as [Hg Hk]. eauto.
Qed.

Lemma rg_and {A} (G1 G2 : S → S → Prop) (Q1 Q2 : list (S * S) → A → S → Prop) (p : prog E A) tr s :
  rg G1 Q1 p tr s → rg G2 Q2 p tr s →
  rg (λ s s', G1 s s' ∧ G2 s s') (λ tr a s, Q1 tr a s ∧ Q2 tr a s) p tr s.
Proof.
  revert tr s; induction p as [a|X e k IH]; intros tr s; simpl; [eauto|].
  intros H1 H2 s1 x s2 Hr Hx. destruct (H1 _ _ _ Hr Hx), (H2 _ _ _ Hr Hx). eauto.
Qed.

(** What the environment and the program keep. *)
Lemma rg_invariant {A} (I : S → Prop) G Q (p : prog E A) tr s :
  (∀ s s', rely s s' → I s → I s') → (∀ s s', G s s' → I s → I s') → I s →
  rg G Q p tr s → rg G (λ tr a s', Q tr a s' ∧ I s') p tr s.
Proof.
  intros Hr HG. revert tr s; induction p as [a|X e k IH]; simpl; intros tr s Hi H.
  - intros s' Hs. split; [by apply H|by eapply Hr].
  - intros s1 x s2 Hs Hx. destruct (H s1 x s2 Hs Hx) as [Hg Hk]. split; [done|].
    apply IH; [|done]. eapply HG; [done|]. by eapply Hr.
Qed.

Lemma rg_shift {A} G Q (p : prog E A) tr0 tr s :
  rg G (λ tr, Q (tr0 ++ tr)) p tr s → rg G Q p (tr0 ++ tr) s.
Proof.
  revert tr s; induction p as [a|X e k IH]; intros tr s; simpl; [done|].
  intros H s1 x s2 H1 Hx. destruct (H _ _ _ H1 Hx) as [Hg Hk]. split; [done|].
  rewrite <-app_assoc. by apply IH.
Qed.

(** Adequacy: every request of an execution satisfies [G], and a finished one [Q]. *)
Lemma steps_rg {A} G Q (p : prog E A) s tr p' s' tr0 :
  steps p s tr p' s' → rg G Q p tr0 s →
  Forall (λ t, G t.1 t.2) tr ∧ rg G Q p' (tr0 ++ tr) s'.
Proof.
  intros Hp. revert tr0. induction Hp as [p s|p s s1 tr p' s' H1 _ IH|X e k s x s1 tr p' s' Hx _ IH]; intros tr0 H.
  - rewrite app_nil_r. done.
  - apply IH. by eapply rg_later.
  - simpl in H. destruct (H s x s1) as [Hg Hk]; [reflexivity|done|].
    destruct (IH _ Hk) as [Ht Hp]. split; [by constructor|]. by rewrite <-app_assoc in Hp.
Qed.
Lemma steps_rg_ret {A} G Q (p : prog E A) s tr a s' :
  steps p s tr (Ret a) s' → rg G Q p [] s → Forall (λ t, G t.1 t.2) tr ∧ Q tr a s'.
Proof. intros Hp H. destruct (steps_rg _ _ _ _ _ _ _ _ Hp H) as [Ht Hq]. split; [done|]. by apply Hq. Qed.

End one.

(** ** Any number of programs *)

Section pool.
Context (step : nat → ∀ X, E X → S → X → S → Prop).

(** One request of the program at [i]. *)
Inductive pool_step {A} : list (prog E A) * S → nat → list (prog E A) * S → Prop :=
| pool_step_at ps i {X} (e : E X) k s x s' :
    ps !! i = Some (Vis e k) → step i X e s x s' → pool_step (ps, s) i (<[i := k x]> ps, s').

(** A run, with the index and the states around every request. *)
Inductive pool {A} : list (prog E A) * S → list (nat * (S * S)) → list (prog E A) * S → Prop :=
| pool_refl c : pool c [] c
| pool_next c i c1 run c' : pool_step c i c1 → pool c1 run c' → pool c ((i, (c.2, c1.2)) :: run) c'.

(** The requests of one program in a run. *)
Definition own (i : nat) (run : list (nat * (S * S))) : list (S * S) :=
  (filter (λ t, t.1 = i) run).*2.

Context (rely : nat → S → S → Prop) `{!∀ i, PreOrder (rely i)}.

(** If each program is proved under [rely], and every request of one is what the
    others rely on, then all of them do what they were proved to do. *)
Lemma pool_rg {A} (Q : nat → list (S * S) → A → S → Prop) c run c' :
  pool c run c' →
  ∀ trs : nat → list (S * S),
  (∀ i p, c.1 !! i = Some p →
     rg (step i) (rely i) (λ s s', ∀ j, j ≠ i → rely j s s') (Q i) p (trs i) c.2) →
  Forall (λ t, ∀ j, j ≠ t.1 → rely j t.2.1 t.2.2) run ∧
  ∀ i p, c'.1 !! i = Some p →
    rg (step i) (rely i) (λ s s', ∀ j, j ≠ i → rely j s s') (Q i) p (trs i ++ own i run) c'.2.
Proof.
  induction 1 as [c|c i c1 run c' Hs _ IH]; intros trs Hp.
  { split; [done|]. intros i p Hi. unfold own. simpl. rewrite app_nil_r. by apply Hp. }
  destruct Hs as [ps i X e k s x s' Hi Hx]. simpl in *.
  pose proof (Hp i _ Hi) as Hthis. simpl in Hthis. destruct (Hthis s x s') as [Hg Hk]; [reflexivity|done|].
  destruct (IH (λ j, trs j ++ if decide (i = j) then [(s, s')] else [])) as [Hr He].
  { intros j p Hj. case_decide as E1.
    - subst j. rewrite list_lookup_insert_eq in Hj by (by eapply lookup_lt_Some). by simplify_eq.
    - rewrite list_lookup_insert_ne in Hj by done. rewrite app_nil_r.
      eapply rg_later; [apply _| |by apply Hp]. by apply Hg. }
  split; [by constructor|]. intros j p Hj. specialize (He j p Hj). unfold own. rewrite filter_cons. simpl.
  rewrite <-app_assoc in He. destruct (decide (i = j)); simpl in *; done.
Qed.

Lemma pool_finished {A} (Q : nat → list (S * S) → A → S → Prop) ps s run c' i a :
  pool (ps, s) run c' →
  (∀ i p, ps !! i = Some p →
     rg (step i) (rely i) (λ s s', ∀ j, j ≠ i → rely j s s') (Q i) p [] s) →
  c'.1 !! i = Some (Ret a) → Q i (own i run) a c'.2.
Proof.
  intros Hrun Hp Hi. destruct (pool_rg Q _ _ _ Hrun (λ _, []) Hp) as [_ Hend].
  by apply (Hend i _ Hi).
Qed.

End pool.
End rely.

(** Less interference. *)
Lemma rg_rely {E S A} step (rely rely' : S → S → Prop) G Q (p : prog E A) tr s :
  (∀ s s', rely' s s' → rely s s') → rg step rely G Q p tr s → rg step rely' G Q p tr s.
Proof.
  intros Hr. revert tr s; induction p as [a|X e k IH]; intros tr s; simpl; [eauto|].
  intros H s1 x s2 H1 Hx. destruct (H _ _ _ (Hr _ _ H1) Hx). eauto.
Qed.

Lemma steps_rely {E S A} step (rely rely' : S → S → Prop) (p : prog E A) s tr p' s' :
  (∀ s s', rely s s' → rely' s s') → steps step rely p s tr p' s' → steps step rely' p s tr p' s'.
Proof. intros Hr. induction 1; [constructor|eapply steps_env; [by apply Hr|done]|by eapply steps_own]. Qed.

(** Without interference the first request is made in the first state. *)
Lemma steps_eq_head {E S A} step (p : prog E A) (s : S) tr p' s' :
  steps (E := E) step eq p s tr p' s' → ∀ t, head tr = Some t → t.1 = s.
Proof. induction 1 as [| |]; intros t Ht; [done|subst; auto|by simplify_eq/=]. Qed.

(** Without interference: the executions of a handler are [steps]. *)
Lemma run_prog_steps {E S A} (h : ∀ X, E X → S → X * S) (step : ∀ X, E X → S → X → S → Prop) (p : prog E A) s :
  (∀ X e s, step X e s (h X e s).1 (h X e s).2) →
  ∃ tr, steps step eq p s tr (Ret (run_prog h p s).1) (run_prog h p s).2.
Proof.
  intros Hh. revert s. induction p as [a|X e k IH]; intros s; [exists []; constructor|]. simpl.
  specialize (Hh X e s). destruct (h X e s) as [x s1]. destruct (IH x s1) as [tr Htr].
  eexists. by econstructor.
Qed.

(** ** Schedules

    A handler that answers a request or blocks ([None]), and a schedule: the
    indices of the programs in the order they run. *)
Fixpoint run_pool {E S A} (h : nat → ∀ X, E X → S → option (X * S)) (schedule : list nat) (c : list (prog E A) * S)
    : list (prog E A) * S :=
  match schedule with
  | [] => c
  | i :: schedule =>
      match c.1 !! i with
      | Some (Vis e k) =>
          match h i _ e c.2 with
          | Some (x, s') => run_pool h schedule (<[i := k x]> c.1, s')
          | None => run_pool h schedule c
          end
      | _ => run_pool h schedule c
      end
  end.

(** The steps of that run. *)
Fixpoint run_trace {E S A} (h : nat → ∀ X, E X → S → option (X * S)) (schedule : list nat) (c : list (prog E A) * S)
    : list (nat * (S * S)) :=
  match schedule with
  | [] => []
  | i :: schedule =>
      match c.1 !! i with
      | Some (Vis e k) =>
          match h i _ e c.2 with
          | Some (x, s') => (i, (c.2, s')) :: run_trace h schedule (<[i := k x]> c.1, s')
          | None => run_trace h schedule c
          end
      | _ => run_trace h schedule c
      end
  end.

Lemma run_pool_trace {E S A} (h : nat → ∀ X, E X → S → option (X * S)) (step : nat → ∀ X, E X → S → X → S → Prop)
    schedule (c : list (prog E A) * S) :
  (∀ i X e s x s', h i X e s = Some (x, s') → step i X e s x s') →
  pool step c (run_trace h schedule c) (run_pool h schedule c).
Proof.
  intros Hh. revert c. induction schedule as [|i schedule IH]; intros [ps s]; simpl; [constructor|].
  destruct (ps !! i) as [[a|X e k]|] eqn:Ei; try apply IH.
  destruct (h i X e s) as [[x s']|] eqn:Hx; [|apply IH].
  apply (pool_next step (ps, s) i (<[i := k x]> ps, s')); [|apply IH]. econstructor; [done|]. by apply Hh.
Qed.
Lemma run_pool_pool {E S A} (h : nat → ∀ X, E X → S → option (X * S)) (step : nat → ∀ X, E X → S → X → S → Prop)
    schedule (c : list (prog E A) * S) :
  (∀ i X e s x s', h i X e s = Some (x, s') → step i X e s x s') →
  ∃ run, pool step c run (run_pool h schedule c).
Proof. intros Hh. eexists. by apply run_pool_trace. Qed.

(** One program alone, under a handler that may block. *)
Fixpoint run_alone {E S A} (h : ∀ X, E X → S → option (X * S)) (p : prog E A) (s : S) : option (A * S) :=
  match p with
  | Ret a => Some (a, s)
  | Vis e k => match h _ e s with Some (x, s') => run_alone h (k x) s' | None => None end
  end.
Lemma run_alone_steps {E S A} (h : ∀ X, E X → S → option (X * S)) (step : ∀ X, E X → S → X → S → Prop)
    (p : prog E A) s a s' :
  (∀ X e s x s', h X e s = Some (x, s') → step X e s x s') →
  run_alone h p s = Some (a, s') → ∃ tr, steps step eq p s tr (Ret a) s'.
Proof.
  intros Hh. revert s. induction p as [b|X e k IH]; intros s; simpl.
  - intros [= -> ->]. eexists. constructor.
  - destruct (h X e s) as [[x s1]|] eqn:Hx; [|done]. intros Hr. destruct (IH x s1 Hr) as [tr Htr].
    eexists. econstructor; [by apply Hh|exact Htr].
Qed.
