(* ===== verification/Text.v ===== *)
(** * Text of the standard library

    What the sources use of [std::str]: [from_utf8], [lines], [trim] and the
    digit tests.  A [str] is a list of bytes. *)

From S2P Require Import Prelude Bytes.
From Stdlib Require Import Lia Strings.Ascii.

(** ** [std::str::from_utf8]: the well-formed sequences and their code points. *)

Definition in_range (lo hi : N) (x : byte) : bool := (lo <=? byte_N x)%N && (byte_N x <=? hi)%N.
Definition continuation (x : byte) : bool := in_range 128 191 x.
Definition low6 (x : byte) : N := N.land (byte_N x) 63.

(** The second byte of a three- or four-byte sequence depends on the first. *)
Definition second3 (x0 x1 : byte) : bool :=
  if in_range 224 224 x0 then in_range 160 191 x1
  else if in_range 237 237 x0 then in_range 128 159 x1
  else in_range 225 239 x0 && continuation x1.
Definition second4 (x0 x1 : byte) : bool :=
  if in_range 240 240 x0 then in_range 144 191 x1
  else if in_range 244 244 x0 then in_range 128 143 x1
  else in_range 241 243 x0 && continuation x1.

Fixpoint utf8_chars (b : bytes) : option (list N) :=
  match b with
  | [] => Some []
  | x0 :: r0 =>
      if (byte_N x0 <? 128)%N then cons (byte_N x0) <$> utf8_chars r0
      else
        match r0 with
        | [] => None
        | x1 :: r1 =>
            if in_range 194 223 x0 && continuation x1
            then cons (N.land (byte_N x0) 31 * 64 + low6 x1)%N <$> utf8_chars r1
            else
              match r1 with
              | [] => None
              | x2 :: r2 =>
                  if second3 x0 x1 && continuation x2
                  then cons ((N.land (byte_N x0) 15 * 64 + low6 x1) * 64 + low6 x2)%N <$> utf8_chars r2
                  else
                    match r2 with
                    | [] => None
                    | x3 :: r3 =>
                        if second4 x0 x1 && continuation x2 && continuation x3
                        then cons (((N.land (byte_N x0) 7 * 64 + low6 x1) * 64 + low6 x2) * 64 + low6 x3)%N
                               <$> utf8_chars r3
                        else None
                    end
              end
        end
  end.

Definition from_utf8 (b : bytes) : result bytes :=
  match utf8_chars b with Some _ => Ok b | None => bail "invalid utf-8 sequence" end.

(** [char::is_whitespace]: the Unicode property [White_Space]. *)
Definition is_whitespace (c : N) : bool :=
  ((9 <=? c) && (c <=? 13) || (c =? 32) || (c =? 133) || (c =? 160) || (c =? 5760)
   || (8192 <=? c) && (c <=? 8202) || (c =? 8232) || (c =? 8233) || (c =? 8239)
   || (c =? 8287) || (c =? 12288))%N.

(** [line.trim().is_empty()]: every character is whitespace. *)
Definition is_blank (line : bytes) : bool :=
  match utf8_chars line with Some chars => forallb is_whitespace chars | None => false end.

(** ** [str::lines]

    [split_inclusive('\n')] gives the lines with their terminators; each loses
    its newline, and a carriage return before it. *)
Definition newline : byte := Byte.x0a.
Definition carriage : byte := Byte.x0d.
Fixpoint split_inclusive (b : bytes) : list (bytes * bool) :=
  match b with
  | [] => []
  | x :: b =>
      if bool_decide (x = newline) then ([], true) :: split_inclusive b
      else
        match split_inclusive b with
        | [] => [([x], false)]
        | (line, ended) :: rest => (x :: line, ended) :: rest
        end
  end.
Definition strip_line (line : bytes * bool) : bytes :=
  let '(line, ended) := line in
  if ended && bool_decide (last line = Some carriage) then take (length line - 1) line else line.
Definition lines (b : bytes) : list bytes := map strip_line (split_inclusive b).

(** ** Digits *)

Definition is_ascii_digit (x : byte) : bool := in_range 48 57 x.
Definition is_ascii_hexdigit (x : byte) : bool := in_range 48 57 x || in_range 97 102 x || in_range 65 70 x.
Definition is_lower_hexdigit (x : byte) : bool := in_range 48 57 x || in_range 97 102 x.

(** [str::parse::<u64>()]: an optional plus sign, then decimal digits. *)
Fixpoint decimal_digits (acc : N) (b : bytes) : option N :=
  match b with
  | [] => Some acc
  | x :: b =>
      if is_ascii_digit x then
        let acc := (acc * 10 + (byte_N x - 48))%N in
        if (acc <=? u64_max)%N then decimal_digits acc b else None
      else None
  end.
Definition parse_u64 (b : bytes) : option N :=
  match b with
  | [] => None
  | x :: b' =>
      if bool_decide (x = Byte.x2b) then match b' with [] => None | _ => decimal_digits 0 b' end
      else decimal_digits 0 b
  end.

(** ** Strings *)

(** [str::split] on one character. *)
Fixpoint split_on (sep : ascii) (s : string) : list string :=
  match s with
  | EmptyString => [EmptyString]
  | String c rest =>
      match split_on sep rest with
      | part :: parts => if bool_decide (c = sep) then EmptyString :: part :: parts else String c part :: parts
      | [] => []
      end
  end.
Fixpoint contains_char (sep : ascii) (s : string) : bool :=
  match s with EmptyString => false | String c rest => bool_decide (c = sep) || contains_char sep rest end.
Definition starts_with_char (c : ascii) (s : string) : bool :=
  match s with String x _ => bool_decide (x = c) | EmptyString => false end.
Fixpoint ends_with_char (c : ascii) (s : string) : bool :=
  match s with
  | EmptyString => false
  | String x EmptyString => bool_decide (x = c)
  | String _ rest => ends_with_char c rest
  end.

(** [str::split_once] *)
Fixpoint split_once (sep : ascii) (s : string) : option (string * string) :=
  match s with
  | EmptyString => None
  | String c rest =>
      if bool_decide (c = sep) then Some (EmptyString, rest)
      else match split_once sep rest with Some (a, b) => Some (String c a, b) | None => None end
  end.

(** ** Lemmas *)

(** Plain text: printable ASCII. *)
Definition plain (b : bytes) : Prop := Forall (λ x, (33 <= byte_N x < 127)%N) b.

Lemma utf8_ascii b : Forall (λ x, (byte_N x < 128)%N) b → utf8_chars b = Some (map byte_N b).
Proof.
  induction 1 as [|x b Hx Hb IH]; simpl; [done|]. apply N.ltb_lt in Hx. by rewrite Hx, IH.
Qed.

Lemma split_inclusive_line line rest :
  newline ∉ line → split_inclusive (line ++ newline :: rest) = (line, true) :: split_inclusive rest.
Proof.
  induction line as [|x line IH]; intros Hn; simpl; [done|].
  apply not_elem_of_cons in Hn as [Hx Hn]. rewrite bool_decide_eq_false_2 by congruence. by rewrite IH.
Qed.

Lemma lines_line line rest :
  newline ∉ line → carriage ∉ line → lines (line ++ newline :: rest) = line :: lines rest.
Proof.
  intros Hn Hc. unfold lines. rewrite split_inclusive_line by done. simpl. f_equal.
  case_bool_decide as E; [|done]. exfalso. apply Hc. apply last_Some in E as [l ->]. set_solver.
Qed.

(** Every line of a text that ends each of its lines. *)
Lemma lines_concat l :
  Forall (λ line, newline ∉ line ∧ carriage ∉ line) l → lines (concat (map (λ line, line ++ [newline]) l)) = l.
Proof.
  induction 1 as [|line l [Hn Hc] _ IH]; simpl; [done|].
  rewrite <- app_assoc. simpl. by rewrite lines_line, IH.
Qed.

Lemma plain_line b : plain b → newline ∉ b ∧ carriage ∉ b.
Proof.
  unfold plain. rewrite Forall_forall. intros Hb. split; intros Hx%Hb; vm_compute in Hx; destruct Hx as [Hx _]; by apply Hx.
Qed.

Lemma plain_not_blank b : plain b → b ≠ [] → is_blank b = false.
Proof.
  intros Hb Hne. unfold is_blank. rewrite utf8_ascii.
  2: { eapply Forall_impl; [exact Hb|]. simpl. lia. }
  destruct b as [|x b]; [done|]. apply Forall_cons in Hb as [Hx _]. simpl.
  assert (is_whitespace (byte_N x) = false) as ->; [|done]. unfold is_whitespace.
  repeat (apply orb_false_iff; split); try (apply N.eqb_neq; lia);
    apply andb_false_iff; rewrite ?N.leb_gt; lia.
Qed.

Lemma decimal_digits_le acc b n : (acc <= u64_max)%N → decimal_digits acc b = Some n → (n <= u64_max)%N.
Proof.
  revert acc; induction b as [|x b IH]; intros acc Ha; simpl; [by intros [= <-]|].
  destruct (is_ascii_digit x); [|done]. destruct (_ <=? _)%N eqn:E; [|done].
  apply N.leb_le in E. by apply IH.
Qed.
Lemma parse_u64_le b n : parse_u64 b = Some n → (n <= u64_max)%N.
Proof.
  destruct b as [|x b]; [done|]. unfold parse_u64.
  case_bool_decide; [destruct b; [done|]|]; apply decimal_digits_le; unfold u64_max; lia.
Qed.

(** ** Segments *)

Fixpoint join (sep : ascii) (parts : list string) : string :=
  match parts with
  | [] => EmptyString
  | [part] => part
  | part :: parts => part +:+ String sep (join sep parts)
  end.
Lemma split_on_join sep s : split_on sep s ≠ [] ∧ join sep (split_on sep s) = s.
Proof.
  induction s as [|c s [Hne IH]]; [done|]. cbn [split_on]. destruct (split_on sep s) as [|part parts]; [done|].
  case_bool_decide as E; split; try done.
  - subst c. change (join sep ("" :: part :: parts)) with (String sep (join sep (part :: parts))). by rewrite IH.
  - rewrite <-IH. by destruct parts.
Qed.
Lemma split_on_segment sep a rest :
  contains_char sep a = false → split_on sep (a +:+ String sep rest) = a :: split_on sep rest.
Proof.
  induction a as [|c a IH]; intros Ha.
  - change ("" +:+ ?s) with s. cbn [split_on]. destruct (split_on_join sep rest) as [Hne _].
    destruct (split_on sep rest); [done|]. by rewrite bool_decide_eq_true_2.
  - change (String c a +:+ ?s) with (String c (a +:+ s)). cbn [contains_char] in Ha. apply orb_false_iff in Ha as [Hc Ha].
    cbn [split_on]. by rewrite IH, Hc.
Qed.
Lemma split_on_last sep a : contains_char sep a = false → split_on sep a = [a].
Proof.
  induction a as [|c a IH]; intros Ha; [done|]. cbn [contains_char] in Ha. apply orb_false_iff in Ha as [Hc Ha].
  cbn [split_on]. by rewrite IH, Hc.
Qed.
Lemma split_on_app sep a b : split_on sep (a +:+ String sep b) = split_on sep a ++ split_on sep b.
Proof.
  induction a as [|c a IH].
  - change ("" +:+ ?s) with s. cbn [split_on]. destruct (split_on_join sep b) as [Hne _].
    destruct (split_on sep b); [done|]. by rewrite bool_decide_eq_true_2.
  - change (String c a +:+ ?s) with (String c (a +:+ s)). cbn [split_on]. rewrite IH.
    destruct (split_on_join sep a) as [Hne _]. destruct (split_on sep a); [done|]. simpl. by case_bool_decide.
Qed.
Lemma split_on_inj sep a b : split_on sep a = split_on sep b → a = b.
Proof. intros E. destruct (split_on_join sep a) as [_ <-], (split_on_join sep b) as [_ <-]. by rewrite E. Qed.

(** ** Concatenation *)

Lemma string_app_assoc (a b c : string) : (a +:+ b) +:+ c = a +:+ (b +:+ c).
Proof.
  induction a as [|x a IH]; [done|]. change (String x ((a +:+ b) +:+ c) = String x (a +:+ (b +:+ c))). by rewrite IH.
Qed.
Lemma string_app_cancel (a b c : string) : a +:+ b = a +:+ c → b = c.
Proof.
  induction a as [|x a IH]; [done|]. change (String x (a +:+ b) = String x (a +:+ c) → b = c). intros [= E]. auto.
Qed.
Lemma string_app_slash p x : p +:+ String "/" x = (p +:+ "/") +:+ x.
Proof. by rewrite string_app_assoc. Qed.
Lemma prefix_strip p s : String.prefix p s = true ↔ ∃ rest, s = p +:+ rest.
Proof.
  revert s; induction p as [|c p IH]; intros s; simpl.
  - split; [eauto|]. intros _. by destruct s.
  - destruct s as [|d s]; simpl; [split; [done|intros (rest & Hr); done]|].
    destruct (ascii_dec c d) as [->|Hne].
    + rewrite IH. split; intros (rest & Hr); exists rest; [by subst|].
      change (String d p +:+ rest) with (String d (p +:+ rest)) in Hr. congruence.
    + split; [done|]. intros (rest & Hr). change (String c p +:+ rest) with (String c (p +:+ rest)) in Hr. congruence.
Qed.
Lemma contains_char_app c s t : contains_char c (s +:+ t) = contains_char c s || contains_char c t.
Proof.
  induction s as [|x s IH]; [done|]. change (String x s +:+ t) with (String x (s +:+ t)). cbn [contains_char].
  by rewrite IH, orb_assoc.
Qed.

(** ** Splitting once *)

Lemma split_once_app sep a b : contains_char sep a = false → split_once sep (a +:+ String sep b) = Some (a, b).
Proof.
  induction a as [|c a IH]; intros Ha.
  - change ("" +:+ ?s) with s. cbn [split_once]. by rewrite bool_decide_eq_true_2.
  - change (String c a +:+ ?s) with (String c (a +:+ s)). cbn [contains_char] in Ha. apply orb_false_iff in Ha as [Hc Ha].
    cbn [split_once]. by rewrite Hc, IH.
Qed.
Lemma split_once_Some sep s a b : split_once sep s = Some (a, b) → s = a +:+ String sep b ∧ contains_char sep a = false.
Proof.
  revert a b; induction s as [|c s IH]; intros a b; [done|]. cbn [split_once]. case_bool_decide as E; [by intros [= <- <-]; subst|].
  destruct (split_once sep s) as [[x y]|]; [|done]. intros [= <- <-]. destruct (IH x y eq_refl) as [-> Hx].
  split; [done|]. cbn [contains_char]. by rewrite bool_decide_eq_false_2, Hx.
Qed.

Lemma digits_no_char c s :
  Forall (λ x, is_ascii_digit x = true) (byte_string s) → is_ascii_digit (byte_of_ascii c) = false → contains_char c s = false.
Proof.
  intros Hs Hc. induction s as [|a s IH]; [done|]. change (byte_string (String a s)) with (byte_of_ascii a :: byte_string s) in Hs.
  inversion Hs; subst. cbn [contains_char]. rewrite IH by done. rewrite orb_false_r. apply bool_decide_eq_false. intros ->. congruence.
Qed.
