(* ===== verification/SortedLists.v ===== *)
(** * Strictly sorted lists and predecessor search

    Pages, fence leaves and internal roots are lists strictly sorted by
    [(key, block)], searched with [slice::partition_point].  This file holds
    the theory they share: searching the list of first elements and then one
    chunk finds the predecessor in the whole list. *)

From S2P Require Import Prelude Bytes.
From Stdlib Require Import Lia Sorting.Sorted.

(** [slice::partition_point(p)]: the index of the first element that fails
    [p], for a slice partitioned by [p]. *)
Fixpoint partition_point {A} (p : A → bool) (l : list A) : nat :=
  match l with
  | [] => 0
  | x :: l => if p x then S (partition_point p l) else 0
  end.

(** [slice.windows(2).any(p)] *)
Fixpoint windows2_any {A} (p : A → A → bool) (l : list A) : bool :=
  match l with
  | x :: ((y :: _) as l') => p x y || windows2_any p l'
  | _ => false
  end.

Definition sorted_by {A K} `{Cmp K} (key : A → K) (l : list A) : Prop :=
  StronglySorted (λ x y, clt (key x) (key y)) l.

(** The last element whose key is at most [t]. *)
Definition predecessor {A K} `{Cmp K} (key : A → K) (t : K) (l : list A) : option A :=
  last (filter (λ x, leb (key x) t = true) l).

Lemma filter_none {A} (P : A → Prop) `{∀ x, Decision (P x)} (l : list A) :
  (∀ x, x ∈ l → ¬ P x) → filter P l = [].
Proof.
  induction l as [|x l IH]; intros Hl; [done|].
  rewrite filter_cons_False by (apply Hl; set_solver). apply IH. set_solver.
Qed.

Lemma filter_snoc_True {A} (P : A → Prop) `{∀ x, Decision (P x)} (l : list A) x :
  P x → filter P (l ++ [x]) = filter P l ++ [x].
Proof. intros Hx. rewrite filter_app. f_equal. by rewrite filter_cons_True. Qed.

Lemma filter_snoc_False {A} (P : A → Prop) `{∀ x, Decision (P x)} (l : list A) x :
  ¬ P x → filter P (l ++ [x]) = filter P l.
Proof.
  intros Hx. rewrite filter_app, (filter_cons_False _ x) by done. apply app_nil_r.
Qed.

Lemma elem_of_concat {A} (ls : list (list A)) x :
  x ∈ concat ls ↔ ∃ l, x ∈ l ∧ l ∈ ls.
Proof. induction ls as [|l ls IH]; simpl; set_solver. Qed.

Lemma concat_concat {A} (ls : list (list (list A))) :
  concat (concat ls) = concat (map (@concat A) ls).
Proof. induction ls as [|l ls IH]; simpl; [done|]. by rewrite concat_app, IH. Qed.

(** Concatenating two lists the second of which starts above the first. *)
Lemma StronglySorted_app {A} (R : A → A → Prop) l k :
  StronglySorted R (l ++ k) ↔
  StronglySorted R l ∧ StronglySorted R k ∧ ∀ x y, x ∈ l → y ∈ k → R x y.
Proof.
  induction l as [|a l IH]; simpl.
  - split; [intros H; split_and!; [constructor|done|set_solver]|naive_solver].
  - split.
    + intros H; invs H. destruct (proj1 IH) as (? & ? & ?); [done|].
      match goal with HF : Forall _ (l ++ k) |- _ => apply Forall_app in HF as [] end.
      split_and!; [by constructor|done|].
      intros x y [->|Hx]%elem_of_cons Hy; [|eauto].
      by apply (proj1 (Forall_forall (R a) k)).
    + intros (Hl & Hk & HR); invs Hl. constructor.
      * apply IH. split_and!; [done|done|]. intros; apply HR; set_solver.
      * apply Forall_app; split; [done|]. apply Forall_forall. intros; apply HR; set_solver.
Qed.

Lemma windows2_any_false {A} (p : A → A → bool) l i x y :
  windows2_any p l = false → l !! i = Some x → l !! S i = Some y → p x y = false.
Proof.
  revert i; induction l as [|a l IH]; intros i H Hx Hy; [done|].
  destruct l as [|b l]; [destruct i; simpl in Hy; done|].
  simpl in H. apply orb_false_iff in H as [H1 H2].
  destruct i as [|i]; simpl in Hx, Hy; [congruence|]. by apply (IH i).
Qed.

Section sorted.
Context {A K : Type} `{CmpLaws K} (key : A → K).
Implicit Types (l : list A) (x y : A) (t : K).
Abbreviation sorted := (sorted_by key).
Abbreviation pred := (predecessor key).

Lemma sorted_app l k :
  sorted (l ++ k) ↔ sorted l ∧ sorted k ∧ ∀ x y, x ∈ l → y ∈ k → clt (key x) (key y).
Proof. apply StronglySorted_app. Qed.

Lemma sorted_cons x l :
  sorted (x :: l) ↔ sorted l ∧ ∀ y, y ∈ l → clt (key x) (key y).
Proof.
  split.
  - intros Hs; invs Hs. split; [done|]. intros y Hy. by apply (proj1 (Forall_forall (λ z, clt (key x) (key z)) l)).
  - intros [Hl Hx]. constructor; [done|]. by apply Forall_forall.
Qed.

Lemma sorted_nil : sorted [].
Proof. constructor. Qed.
Lemma sorted_one x : sorted [x].
Proof. repeat constructor. Qed.

(** Appending one element above the last one. *)
Lemma sorted_snoc l y :
  sorted l → (∀ x, last l = Some x → clt (key x) (key y)) → sorted (l ++ [y]).
Proof.
  intros Hl Hlast. apply sorted_app. split_and!; [done|apply sorted_one|].
  intros x z Hx ->%list_elem_of_singleton.
  destruct l as [|w l _] using rev_ind; [set_solver|].
  rewrite last_snoc in Hlast. specialize (Hlast w eq_refl).
  apply sorted_app in Hl as (_ & _ & Hl).
  apply elem_of_app in Hx as [Hx|Hx].
  - eapply clt_trans; [|done]. apply Hl; set_solver.
  - apply list_elem_of_singleton in Hx as ->. done.
Qed.

Lemma sorted_snoc_inv l y x :
  sorted (l ++ [y]) → last l = Some x → clt (key x) (key y).
Proof.
  intros (_ & _ & Hl)%sorted_app Hx. apply Hl; [|set_solver].
  apply last_Some in Hx as [l' ->]. set_solver.
Qed.

Lemma sorted_sublist l k : sublist l k → sorted k → sorted l.
Proof.
  induction 1 as [|x l k Hsub IH|x l k Hsub IH]; [done| |].
  - rewrite !sorted_cons. intros [Hk Hx]. split; [by apply IH|].
    intros y Hy. apply Hx. eapply elem_of_submseteq; [done|by apply sublist_submseteq].
  - rewrite sorted_cons. intros [Hk _]. by apply IH.
Qed.

Lemma sorted_filter (P : A → Prop) `{∀ x, Decision (P x)} l : sorted l → sorted (filter P l).
Proof. apply sorted_sublist, sublist_filter. Qed.

(** Two elements of a sorted list with the same key are one element. *)
Lemma sorted_key_inj l x y : sorted l → x ∈ l → y ∈ l → key x = key y → x = y.
Proof.
  induction l as [|a l IH]; [set_solver|]. rewrite sorted_cons.
  intros [Hl Ha] [->|Hx]%elem_of_cons [->|Hy]%elem_of_cons E; [done| | |eauto].
  - specialize (Ha y Hy). rewrite E in Ha. by apply clt_irrefl in Ha.
  - specialize (Ha x Hx). rewrite E in Ha. by apply clt_irrefl in Ha.
Qed.

(** The tests of the decoders: each element above its predecessor. *)
Lemma pred_above l t : (∀ x, x ∈ l → clt t (key x)) → pred t l = None.
Proof.
  intros Hl. unfold predecessor. replace (filter _ l) with (@nil A); [done|].
  symmetry. apply filter_none. intros x Hx2 Hx1.
  apply leb_spec in Hx1. by apply (clt_not_cle _ _ (Hl x Hx2)).
Qed.

Lemma pred_app_l l k t : (∀ x, x ∈ k → clt t (key x)) → pred t (l ++ k) = pred t l.
Proof.
  intros Hk. unfold predecessor. rewrite filter_app.
  replace (filter _ k) with (@nil A); [by rewrite app_nil_r|].
  symmetry. apply filter_none. intros x Hx2 Hx1.
  apply leb_spec in Hx1. by apply (clt_not_cle _ _ (Hk x Hx2)).
Qed.

Lemma pred_app_r l k t x : head k = Some x → cle (key x) t → pred t (l ++ k) = pred t k.
Proof.
  intros Hk Hx. destruct k as [|y k]; [done|]. injection Hk as ->.
  unfold predecessor. rewrite filter_app. rewrite filter_cons_True by (by apply leb_spec).
  rewrite last_app_cons. done.
Qed.

Lemma pred_is_Some l t x : x ∈ l → cle (key x) t → is_Some (pred t l).
Proof.
  intros Hx Ht. unfold predecessor. apply last_is_Some.
  intros Hn. eapply (not_elem_of_nil x). rewrite <-Hn. apply list_elem_of_filter.
  split; [by apply leb_spec|done].
Qed.

Lemma pred_Some l t x : pred t l = Some x → x ∈ l ∧ cle (key x) t.
Proof.
  unfold predecessor. intros [l' Hl']%last_Some.
  assert (x ∈ filter (λ x, leb (key x) t = true) l) as Hin by (rewrite Hl'; set_solver).
  apply list_elem_of_filter in Hin as [Hx ?]. by apply leb_spec in Hx.
Qed.

(** [partition_point(|x| key(x) <= t)] and the element before it. *)
Lemma partition_point_pred l t :
  sorted l →
  match partition_point (λ x, leb (key x) t) l with
  | 0 => pred t l = None
  | S n => ∃ x, l !! n = Some x ∧ pred t l = Some x
  end.
Proof.
  induction l as [|a l IH]; simpl; [done|]. intros [Hl Ha]%sorted_cons.
  destruct (leb (key a) t) eqn:E.
  - specialize (IH Hl). apply leb_spec in E.
    destruct (partition_point _ l) as [|n] eqn:Ep.
    + exists a. split; [done|]. unfold predecessor in *.
      rewrite filter_cons_True by (by apply leb_spec).
      apply last_None in IH. by rewrite IH.
    + destruct IH as (x & Hx & Hp). exists x. split; [done|].
      unfold predecessor in *. rewrite filter_cons_True by (by apply leb_spec).
      destruct (filter _ l); [done|]. by rewrite last_cons_cons.
  - apply leb_false in E. apply pred_above. intros x [->|Hx]%elem_of_cons; [done|].
    eapply clt_trans; [done|by apply Ha].
Qed.

(** Descent: [fences] holds the first element of every chunk. *)
Lemma descend {B} (fkey : B → K) (fences : list B) (chunks : list (list A)) t :
  sorted (concat chunks) →
  Forall2 (λ f c, ∃ x, head c = Some x ∧ fkey f = key x) fences chunks →
  match partition_point (λ f, leb (fkey f) t) fences with
  | 0 => pred t (concat chunks) = None
  | S n => ∃ c, chunks !! n = Some c ∧ pred t (concat chunks) = pred t c
  end.
Proof.
  intros Hs HF. induction HF as [|f c fences chunks (x & Hx & Hf) HF IH]; simpl; [done|].
  simpl in Hs. apply sorted_app in Hs as (Hc & Hcs & Hlt). specialize (IH Hcs).
  destruct c as [|y c]; [done|]. injection Hx as ->.
  destruct (leb (fkey f) t) eqn:E.
  - rewrite Hf in E. apply leb_spec in E.
    destruct (partition_point _ fences) as [|n] eqn:Ep.
    + exists (x :: c). split; [done|]. apply pred_app_l.
      intros z Hz. destruct HF as [|f' c' fences chunks (x' & Hx' & Hf') HF]; [set_solver|].
      simpl in Ep. destruct (leb (fkey f') t) eqn:E'; [done|].
      apply leb_false in E'. rewrite Hf' in E'. destruct c' as [|? c']; [done|].
      injection Hx' as ->. cbn [concat] in Hcs, Hz. apply sorted_app in Hcs as (Hc1 & _ & Hc2).
      apply elem_of_app in Hz as [Hz|Hz].
      * apply elem_of_cons in Hz as [->|Hz]; [done|].
        apply sorted_cons in Hc1 as [_ Hc1]. eapply clt_trans; [done|by apply Hc1].
      * eapply clt_trans; [done|]. apply Hc2; set_solver.
    + destruct IH as (c' & Hc' & Hp). exists c'. split; [done|]. rewrite <-Hp.
      destruct (pred t (concat chunks)) as [z|] eqn:Ez.
      * apply pred_Some in Ez as Hz. destruct Hz as [Hz1 Hz2].
        unfold predecessor in *. rewrite filter_app.
        destruct (filter (λ x0, leb (key x0) t = true) (concat chunks)) as [|w k] eqn:Ek; [done|].
        by rewrite last_app_cons.
      * exfalso. assert (∃ f', fences !! n = Some f' ∧ leb (fkey f') t = true) as (f' & Hf' & Ht').
        { clear -Ep. revert n Ep; induction fences as [|g l IHl]; intros n Ep; simpl in Ep; [done|].
          destruct (leb (fkey g) t) eqn:Eg; [|done]. injection Ep as Ep.
          destruct n as [|n]; [exists g; done|]. by apply IHl. }
        eapply Forall2_lookup_l in HF as (c'' & Hc'' & y & Hy & Hk); [|exact Hf'].
        rewrite Hc'' in Hc'. injection Hc' as ->. rewrite Hk in Ht'. apply leb_spec in Ht'.
        destruct c' as [|? c']; [done|]. injection Hy as ->.
        destruct (pred_is_Some (concat chunks) t y) as [? Hw]; [|done|congruence].
        apply elem_of_concat. exists (y :: c'). split; [set_solver|].
        by eapply list_elem_of_lookup_2.
  - apply leb_false in E. rewrite Hf in E. apply pred_above.
    intros z Hz. apply elem_of_app in Hz as [Hz|Hz].
    + apply elem_of_cons in Hz as [->|Hz]; [done|].
      apply sorted_cons in Hc as [_ Hc]. eapply clt_trans; [done|by apply Hc].
    + eapply clt_trans; [done|]. apply Hlt; set_solver.
Qed.

(** The first elements of the chunks of a sorted list are sorted. *)
Lemma heads_sorted {B} (fkey : B → K) (fences : list B) (chunks : list (list A)) :
  sorted (concat chunks) →
  Forall2 (λ f c, ∃ x, head c = Some x ∧ fkey f = key x) fences chunks →
  sorted_by fkey fences.
Proof.
  intros Hs HF. induction HF as [|f c fences chunks (x & Hx & Hf) HF IH]; [constructor|].
  cbn [concat] in Hs. apply sorted_app in Hs as (_ & Hs & Hlt).
  constructor; [by apply IH|]. apply Forall_forall. intros g Hg.
  apply list_elem_of_lookup_1 in Hg as [i Hi].
  destruct (Forall2_lookup_l _ _ _ _ _ HF Hi) as (d & Hd & y & Hy & Hg).
  rewrite Hf, Hg. destruct c as [|? c]; [done|]. destruct d as [|? d]; [done|].
  injection Hx as ->. injection Hy as ->. apply Hlt; [set_solver|].
  apply elem_of_concat. exists (y :: d). split; [set_solver|by eapply list_elem_of_lookup_2].
Qed.

End sorted.
