(* ===== verification/Externals.v ===== *)
(** * Third-party crates

    The code calls the [sha2], [sha3], [hex], [zstd], [ruzstd] and
    [serde_json] crates, whose sources are not part of the repository.  Each
    is a class of operations the model is parameterised by; what the code
    relies on is a separate class of laws.  [ToyCrates] instantiates every
    class by concrete functions, so that each hypothesis is inhabited and
    the examples compute. *)

From S2P Require Import Prelude Bytes.
From Stdlib Require Import Lia.

(** [Sha256::digest] and [Keccak256::digest].  No collision-freedom is assumed:
    the store refuses to overwrite an object with different bytes. *)
Class Sha256 := sha256_digest : bytes → Hash32.
Class Keccak256 := keccak256_digest : bytes → Hash32.

(** The code reserves the zero digest for "no object": no object has it. *)
Class Sha256Laws `{Sha256} : Prop := sha256_nonzero b : sha256_digest b ≠ zero_hash.

(** [hex::encode] and [hex::decode]. *)
Class Hex := {
  hex_encode : bytes → string;
  hex_decode : string → result bytes
}.
Class HexLaws `{Hex} : Prop := {
  (** [encode] writes two characters per byte, and [decode] reads them back. *)
  hex_round b : hex_decode (hex_encode b) = Ok b;
  hex_encode_length b : String.length (hex_encode b) = 2 * length b;
  (** [encode] uses the lowercase digits only. *)
  hex_encode_lower b :
    existsb is_ascii_uppercase (byte_string (hex_encode b)) = false;
  (** [decode] only accepts an even number of digits, two per byte. *)
  hex_decode_length s b : hex_decode s = Ok b → String.length s = 2 * length b
}.

(** The exact form: [encode] writes each byte as two lowercase digits, and what
    [decode] reads from digits without uppercase letters encodes to them. *)
Class HexCanon `{Hex} : Prop := {
  hex_encode_spec b : hex_encode b = lower_hex b;
  hex_decode_inv s b :
    hex_decode s = Ok b → existsb is_ascii_uppercase (byte_string s) = false → hex_encode b = s
}.

(** [zstd::Encoder] at level 3 with a window of [2^20], and the bytes obtained
    by reading at most [limit] bytes from [ruzstd]'s streaming decoder opened
    with a maximum window size. *)
Class Zstd := {
  zstd_encode : bytes → result bytes;
  ruzstd_read : N → N → bytes → result bytes
}.
Class ZstdLaws `{Zstd} : Prop := {
  (** A frame of at most [window] bytes decodes to what was encoded. *)
  zstd_round page compressed window limit :
    zstd_encode page = Ok compressed →
    (len page <= window)%N → (len page <= limit)%N →
    ruzstd_read window limit compressed = Ok page
}.
