(* ===== verification/ToyCrates.v ===== *)
(** * Concrete crates

    One executable instance of every class of [Externals], with the laws: the
    hypotheses of the development can hold, and examples compute.  The hash is
    a polynomial modulo [2^61] spread over 32 bytes, the compressor copies its input, and the hex
    codec is the real one. *)

From S2P Require Import Prelude Bytes Externals.
From Stdlib Require Import Lia.

Definition toy_factor : N :=
  71563446777022297856526126342750658392501306254664949883333486863006233104021.

(** A 32-byte hash that never is zero on the examples. *)
Definition toy_digest (b : bytes) : Hash32 :=
  let n := fold_left (λ acc x, N.land (acc * 8191 + byte_N x + 1) (N.ones 61))%N b 0%N in
  match to_array 32 (to_be 32 ((n + 1) * toy_factor)) with Some h => h | None => zero_hash end.

Definition toy_sha : Sha256 := toy_digest.
(** The digest of the empty string is that of Keccak-256. *)
Definition empty_keccak : bytes :=
  [Byte.xc5; Byte.xd2; Byte.x46; Byte.x01; Byte.x86; Byte.xf7; Byte.x23; Byte.x3c;
   Byte.x92; Byte.x7e; Byte.x7d; Byte.xb2; Byte.xdc; Byte.xc7; Byte.x03; Byte.xc0;
   Byte.xe5; Byte.x00; Byte.xb6; Byte.x53; Byte.xca; Byte.x82; Byte.x27; Byte.x3b;
   Byte.x7b; Byte.xfa; Byte.xd8; Byte.x04; Byte.x5d; Byte.x85; Byte.xa4; Byte.x70].
Definition toy_keccak : Keccak256 := λ b,
  match b with
  | [] => match to_array 32 empty_keccak with Some h => h | None => zero_hash end
  | _ => toy_digest (Byte.x01 :: b)
  end.

Lemma from_be_to_be_mod n x : from_be (to_be n x) = (x mod 256 ^ N.of_nat n)%N.
Proof.
  revert x; induction n as [|n IH]; intros x; [by rewrite N.mod_1_r|].
  change (to_be (S n) x) with (to_be n (x / 256) ++ [byte_of x]).
  rewrite from_be_snoc, IH, byte_N_of.
  replace (N.of_nat (S n)) with (N.succ (N.of_nat n)) by lia. rewrite N.pow_succ_r'.
  rewrite N.Div0.mod_mul_r. lia.
Qed.

Lemma land_ones_lt a k : (N.land a (N.ones k) < 2 ^ k)%N.
Proof. rewrite N.land_ones. apply N.mod_lt. apply N.pow_nonzero. lia. Qed.

Lemma toy_fold_lt b n :
  (n < 2 ^ 61)%N → (fold_left (λ acc x, N.land (acc * 8191 + byte_N x + 1) (N.ones 61))%N b n < 2 ^ 61)%N.
Proof. revert n; induction b as [|x b IH]; intros n Hn; simpl; [done|]. apply IH, land_ones_lt. Qed.

Lemma toy_sha_laws : @Sha256Laws toy_sha.
Proof.
  intros b E. unfold sha256_digest, toy_sha, toy_digest in E.
  set (n := fold_left _ b 0%N) in E.
  assert (n < 2 ^ 61)%N as Hn by (apply toy_fold_lt; done). clearbody n.
  destruct (to_array_is_Some 32 (to_be 32 ((n + 1) * toy_factor))) as (a & Ha & Hb); [apply length_to_be|].
  rewrite Ha in E. rewrite E in Hb. apply (f_equal from_be) in Hb.
  rewrite from_be_to_be_mod in Hb. change (from_be (arr zero_hash)) with 0%N in Hb.
  symmetry in Hb. apply N.Lcm0.mod_divide in Hb.
  rewrite N.mul_comm in Hb. apply N.gauss in Hb.
  - apply N.divide_pos_le in Hb; [|lia].
    assert (2 ^ 61 < 256 ^ N.of_nat 32)%N by (vm_compute; done). lia.
  - vm_compute. done.
Qed.

(** ** Hex *)

Definition hex_value (c : Ascii.ascii) : option N :=
  let n := Ascii.N_of_ascii c in
  if (48 <=? n)%N && (n <=? 57)%N then Some (n - 48)%N
  else if (97 <=? n)%N && (n <=? 102)%N then Some (n - 87)%N
  else if (65 <=? n)%N && (n <=? 70)%N then Some (n - 55)%N
  else None.

Fixpoint toy_hex_decode (s : string) : result bytes :=
  match s with
  | EmptyString => Ok []
  | String _ EmptyString => bail "Odd number of digits"
  | String hi (String lo s) =>
      match hex_value hi, hex_value lo with
      | Some h, Some l => let? b := toy_hex_decode s in Ok (byte_of (16 * h + l) :: b)
      | _, _ => bail "Invalid character"
      end
  end.
Definition toy_hex : Hex := {| hex_encode := lower_hex; hex_decode := toy_hex_decode |}.

Lemma hex_value_digit n : (n < 16)%N → hex_value (hex_digit n) = Some n.
Proof.
  intros Hn. assert (Forall (λ m, hex_value (hex_digit m) = Some m) nibbles) as HF
    by (repeat constructor). by apply (proj1 (Forall_forall _ _) HF), nibble_cases.
Qed.

Lemma hex_digit_lower n :
  (n < 16)%N → is_ascii_uppercase (Ascii.byte_of_ascii (hex_digit n)) = false.
Proof.
  intros Hn. assert (Forall (λ m, is_ascii_uppercase (Ascii.byte_of_ascii (hex_digit m)) = false) nibbles)
    as HF by (repeat constructor). by apply (proj1 (Forall_forall _ _) HF), nibble_cases.
Qed.

Lemma toy_hex_laws : @HexLaws toy_hex.
Proof.
  split; cbn [hex_encode hex_decode toy_hex].
  - induction b as [|x b IH]; [done|]. simpl. destruct (byte_nibbles x).
    rewrite !hex_value_digit, IH by done. do 2 f_equal. rewrite <-N.div_mod by done.
    apply byte_of_N.
  - apply length_lower_hex.
  - induction b as [|x b IH]; [done|]. destruct (byte_nibbles x).
    cbn. rewrite !hex_digit_lower by done. exact IH.
  - fix IH 1. intros [|hi [|lo s]] b; simpl; [by intros [= <-]|done|].
    destruct (hex_value hi), (hex_value lo); try done.
    destruct (toy_hex_decode s) as [b'|] eqn:E; [|done]. intros [= <-].
    apply IH in E. simpl. lia.
Qed.

Lemma hex_value_lower c d :
  hex_value c = Some d → is_ascii_uppercase (Ascii.byte_of_ascii c) = false → hex_digit d = c ∧ (d < 16)%N.
Proof.
  destruct c as [[] [] [] [] [] [] [] []]; vm_compute; try discriminate; intros [= <-] _; done.
Qed.

Lemma toy_hex_canon : @HexCanon toy_hex.
Proof.
  split; cbn [hex_encode hex_decode toy_hex]; [done|].
  fix IH 1. intros [|hi [|lo s]] b; simpl; [by intros [= <-]|done|].
  destruct (hex_value hi) as [h|] eqn:Eh; [|done]. destruct (hex_value lo) as [l|] eqn:El; [|done].
  destruct (toy_hex_decode s) as [b'|] eqn:E; [|done]. intros [= <-] Hu.
  apply orb_false_iff in Hu as [Hh Hu]. apply orb_false_iff in Hu as [Hl Hu].
  destruct (hex_value_lower _ _ Eh Hh) as [Dh Bh], (hex_value_lower _ _ El Hl) as [Dl Bl].
  cbn [lower_hex]. rewrite byte_N_of, N.mod_small by lia.
  replace ((16 * h + l) / 16)%N with h by (rewrite N.mul_comm, N.div_add_l, N.div_small by lia; lia).
  replace ((16 * h + l) mod 16)%N with l
    by (rewrite N.add_comm, N.mul_comm, N.Div0.mod_add, N.mod_small by lia; lia).
  rewrite Dh, Dl. do 2 f_equal. by apply IH.
Qed.

(** ** Zstd *)

Definition toy_zstd : Zstd :=
  {| zstd_encode := λ page, Ok page;
     ruzstd_read := λ window limit b, Ok (take (N.to_nat limit) b) |}.

Lemma toy_zstd_laws : @ZstdLaws toy_zstd.
Proof.
  split. simpl. intros page compressed window limit [= <-] _ Hl. f_equal.
  apply take_ge. unfold len in Hl. lia.
Qed.
