(* ===== verification/Json.v ===== *)
(** * [serde_json]

    [Value] is the tree of [serde_json::Value]; an object is the sorted
    association list behind its [BTreeMap].  Text is read and written by the
    crate, which is not part of the sources: [SerdeJson] is its interface, and
    [SerdeJsonLaws] what the code relies on. *)

From S2P Require Import Prelude Bytes Text.
From Stdlib Require Import Lia ZArith.

(** [serde_json::Number]; a float is kept as its bits. *)
Inductive Number := PosInt (n : N) | NegInt (z : Z) | Float (bits : N).

Inductive Value :=
| VNull
| VBool (b : bool)
| VNumber (n : Number)
| VString (s : string)
| VArray (l : list Value)
| VObject (l : list (string * Value)).

(** ** Accessors *)

Definition as_str (v : Value) : option string := match v with VString s => Some s | _ => None end.
Definition as_bool (v : Value) : option bool := match v with VBool b => Some b | _ => None end.
Definition as_array (v : Value) : option (list Value) := match v with VArray l => Some l | _ => None end.
Definition as_object (v : Value) : option (list (string * Value)) := match v with VObject l => Some l | _ => None end.
Definition as_u64 (v : Value) : option N := match v with VNumber (PosInt n) => Some n | _ => None end.
(** A positive number is an [i64] when it is below [2^63]. *)
Definition as_i64 (v : Value) : option Z :=
  match v with
  | VNumber (PosInt n) => if (n <? 2 ^ 63)%N then Some (Z.of_N n) else None
  | VNumber (NegInt z) => Some z
  | _ => None
  end.
Definition is_null (v : Value) : bool := match v with VNull => true | _ => false end.

(** [Map::get] *)
Fixpoint obj_get (key : string) (l : list (string * Value)) : option Value :=
  match l with
  | [] => None
  | (k, v) :: l => if bool_decide (k = key) then Some v else obj_get key l
  end.
Definition contains_key (key : string) (l : list (string * Value)) : bool :=
  match obj_get key l with Some _ => true | None => false end.
(** [value.get("key")] *)
Definition value_get (key : string) (v : Value) : option Value :=
  match v with VObject l => obj_get key l | _ => None end.
(** [value["key"]]: [Null] when there is no such field. *)
Definition value_index (v : Value) (key : string) : Value := default VNull (value_get key v).

(** The order of the keys is that of their bytes. *)
#[export] Instance string_cmp : Cmp string := λ a b, cmp (byte_string a) (byte_string b).

(** [Map::insert], and the object of a [json!] literal. *)
Fixpoint obj_insert (key : string) (v : Value) (l : list (string * Value)) : list (string * Value) :=
  match l with
  | [] => [(key, v)]
  | (k, w) :: l =>
      match cmp key k with
      | Lt => (key, v) :: (k, w) :: l
      | Eq => (key, v) :: l
      | Gt => (k, w) :: obj_insert key v l
      end
  end.
Definition json_object (fields : list (string * Value)) : Value :=
  VObject (fold_left (λ l p, obj_insert p.1 p.2 l) fields []).

(** ** The crate *)

(** [serde_json::from_slice::<Value>] and [serde_json::to_vec] / [to_writer]. *)
Class SerdeJson := {
  value_from_slice : bytes → result Value;
  value_to_vec : Value → bytes
}.

(** Values whose strings are plain ASCII and whose numbers are integers. *)
Definition plain_string (s : string) : Prop := plain (byte_string s).
Fixpoint plain_value (v : Value) : Prop :=
  match v with
  | VNull | VBool _ => True
  | VNumber (PosInt n) => (n <= u64_max)%N
  | VNumber _ => False
  | VString s => plain_string s
  | VArray l => fold_right (λ v P, plain_value v ∧ P) True l
  | VObject l => fold_right (λ p P, (plain_string p.1 ∧ plain_value p.2) ∧ P) True l
  end.

(** Parsed values: the keys of an object are sorted and integers fit. *)
Fixpoint sorted_keys (l : list (string * Value)) : bool :=
  match l with
  | p :: ((q :: _) as l') => match cmp p.1 q.1 with Lt => sorted_keys l' | _ => false end
  | _ => true
  end.
Fixpoint wf_value (v : Value) : bool :=
  match v with
  | VNumber (PosInt n) => (n <=? u64_max)%N
  | VArray l => forallb wf_value l
  | VObject l => sorted_keys l && forallb (λ p, wf_value p.2) l
  | _ => true
  end.

Class SerdeJsonLaws `{SerdeJson} : Prop := {
  (** The compact printer writes a plain value on one line of printable ASCII. *)
  value_plain v : plain_value v → plain (value_to_vec v) ∧ value_to_vec v ≠ [];
  (** The parser builds sorted maps and checks the range of integers. *)
  value_parsed_wf b v : value_from_slice b = Ok v → wf_value v = true
}.
