(* ===== verification/ToyValue.v ===== *)
(** * A concrete [serde_json] for values

    A value is encoded as a number and the number written bit by bit.  It
    satisfies the laws of [SerdeJson], so that they are inhabited. *)

From S2P Require Import Prelude Bytes Text Json.
From stdpp Require Import countable.
From Stdlib Require Import Lia ZArith.

(** Induction over the values inside arrays and objects. *)
Section value_ind.
Context (P : Value → Prop).
Context (Hnull : P VNull) (Hbool : ∀ b, P (VBool b)) (Hnumber : ∀ n, P (VNumber n)) (Hstring : ∀ s, P (VString s)).
Context (Harray : ∀ l, Forall P l → P (VArray l)) (Hobject : ∀ l, Forall (λ p, P p.2) l → P (VObject l)).
Fixpoint value_nested_ind (v : Value) : P v :=
  match v with
  | VNull => Hnull | VBool b => Hbool b | VNumber n => Hnumber n | VString s => Hstring s
  | VArray l => Harray l ((fix go l := match l return Forall P l with [] => Forall_nil_2 _ | v :: l => Forall_cons_2 _ _ _ (value_nested_ind v) (go l) end) l)
  | VObject l => Hobject l ((fix go l := match l return Forall (λ p, P p.2) l with
                              | [] => Forall_nil_2 _
                              | p :: l => Forall_cons_2 _ _ _ (value_nested_ind p.2) (go l) end) l)
  end.
End value_ind.

(** ** Values as trees *)

Abbreviation leaf := (unit + (bool + ((N + (Z + N)) + string)))%type.
Abbreviation vtree := (gen_tree leaf).
Definition leaf_str (s : string) : leaf := inr (inr (inr s)).
Definition leaf_number (n : Number) : leaf :=
  inr (inr (inl (match n with PosInt n => inl n | NegInt z => inr (inl z) | Float b => inr (inr b) end))).
Fixpoint t_value (v : Value) : vtree :=
  match v with
  | VNull => GenLeaf (inl tt)
  | VBool b => GenLeaf (inr (inl b))
  | VNumber n => GenLeaf (leaf_number n)
  | VString s => GenLeaf (leaf_str s)
  | VArray l => GenNode 0 (map t_value l)
  | VObject l => GenNode 1 (map (λ p, GenNode 2 [GenLeaf (leaf_str p.1); t_value p.2]) l)
  end.
Definition un_leaf (l : leaf) : Value :=
  match l with
  | inl _ => VNull
  | inr (inl b) => VBool b
  | inr (inr (inl (inl n))) => VNumber (PosInt n)
  | inr (inr (inl (inr (inl z)))) => VNumber (NegInt z)
  | inr (inr (inl (inr (inr b)))) => VNumber (Float b)
  | inr (inr (inr s)) => VString s
  end.
Fixpoint un_value (t : vtree) : Value :=
  match t with
  | GenLeaf l => un_leaf l
  | GenNode 0 ts => VArray (map un_value ts)
  | GenNode _ ts =>
      VObject (map (λ t, match t with
                         | GenNode _ [GenLeaf (inr (inr (inr k))); v] => (k, un_value v)
                         | _ => (EmptyString, VNull)
                         end) ts)
  end.
Lemma un_value_t v : un_value (t_value v) = v.
Proof.
  induction v as [| | [] | |l IH|l IH] using value_nested_ind; simpl; try done; f_equal; rewrite map_map.
  - induction IH as [|v l Hv _ IHl]; simpl; [done|]. by rewrite Hv, IHl.
  - induction IH as [|[k v] l Hv _ IHl]; simpl in *; [done|]. by rewrite Hv, IHl.
Qed.

(** ** Numbers as text *)

Fixpoint bits_text (p : positive) : bytes :=
  match p with
  | xH => [Byte.x31]
  | xO p => Byte.x32 :: bits_text p
  | xI p => Byte.x33 :: bits_text p
  end.
Fixpoint text_bits (b : bytes) : option positive :=
  match b with
  | [] => None
  | x :: b =>
      if bool_decide (x = Byte.x31) then Some xH
      else p ← text_bits b; Some (if bool_decide (x = Byte.x32) then xO p else xI p)
  end.
Lemma text_bits_text p : text_bits (bits_text p) = Some p.
Proof. induction p as [p IH|p IH|]; simpl; [by rewrite IH..|done]. Qed.
Lemma bits_text_plain p : plain (bits_text p).
Proof. induction p as [p IH|p IH|]; repeat constructor; try done; vm_compute; done. Qed.

Definition toy_to_vec (v : Value) : bytes := bits_text (encode (t_value v)).
Definition toy_from_slice (b : bytes) : result Value :=
  ok_or (p ← text_bits b; t ← decode p; Some (un_value t)) "invalid JSON".
Definition toy_parse (b : bytes) : result Value :=
  let? v := toy_from_slice b in if wf_value v then Ok v else bail "invalid JSON".
Definition toy_serde : SerdeJson := {| value_from_slice := toy_parse; value_to_vec := toy_to_vec |}.

Lemma toy_from_to v : toy_from_slice (toy_to_vec v) = Ok v.
Proof.
  unfold toy_from_slice, toy_to_vec. rewrite text_bits_text. cbn [mbind option_bind].
  rewrite decode_encode. cbn [mbind option_bind ok_or]. by rewrite un_value_t.
Qed.

Lemma toy_serde_laws : @SerdeJsonLaws toy_serde.
Proof.
  split.
  - intros v _. split; [apply bits_text_plain|]. cbn. unfold toy_to_vec. by destruct (encode _).
  - intros b v. cbn. unfold toy_parse. destruct (toy_from_slice b) as [w|]; [|done].
    destruct (wf_value w) eqn:E; [|done]. by intros [= <-].
Qed.
