(* ===== verification/Hash.v ===== *)
(** * [codec/src/hash.rs]: 32-byte hashes

    [Hash32::digest], the content-addressed object key, and the textual form
    ([Display], [FromStr]). *)

From S2P Require Import Prelude Bytes Externals.
From Stdlib Require Import Lia.

(** [str::strip_prefix] *)
Fixpoint strip_prefix (prefix s : string) : option string :=
  match prefix, s with
  | EmptyString, _ => Some s
  | String a prefix, String b s => if decide (a = b) then strip_prefix prefix s else None
  | String _ _, EmptyString => None
  end.

Section hash.
Context `{Sha256, Hex}.

(** [Hash32::digest] *)
Definition digest (b : bytes) : Hash32 := sha256_digest b.

(** [Hash32::object_key] *)
Definition object_key (h : Hash32) : string :=
  let hex := hex_encode (arr h) in
  "objects/sha256/" +:+ String.substring 0 2 hex +:+ "/" +:+ hex.

(** [impl Display for Hash32] *)
Definition hash_to_string (h : Hash32) : string := "0x" +:+ hex_encode (arr h).

(** [impl FromStr for Hash32] *)
Definition hash_from_str (value : string) : result Hash32 :=
  let? raw := ok_or (strip_prefix "0x" value) "fixed hex value must have a 0x prefix" in
  if negb (String.length raw =? 64)%nat || existsb is_ascii_uppercase (byte_string raw)
  then bail "expected exactly 32 lowercase hex bytes"
  else
    let? decoded := with_context "invalid hex" (hex_decode raw) in
    ok_or (to_array 32 decoded) "expected exactly 32 bytes".

End hash.

Lemma strip_prefix_app p s : strip_prefix p (p +:+ s) = Some s.
Proof. induction p as [|a p IH]; simpl; [by destruct s|]. by rewrite decide_True. Qed.

Lemma strip_prefix_Some p s r : strip_prefix p s = Some r → s = p +:+ r.
Proof.
  revert s; induction p as [|a p IH]; intros s; simpl; [by intros [= ->]|].
  destruct s as [|b s]; [done|]. case_decide as E; [|done]. subst. intros H%IH. by subst.
Qed.

Section hash_lemmas.
Context `{Sha256, Hex} {HL : HexLaws}.

Lemma hex_encode_inj a b : hex_encode a = hex_encode b → a = b.
Proof. intros E. pose proof (hex_round a) as Ha. rewrite E, hex_round in Ha. congruence. Qed.

(** Text and hash determine each other. *)
Lemma hash_string_round h : hash_from_str (hash_to_string h) = Ok h.
Proof.
  unfold hash_from_str, hash_to_string. rewrite strip_prefix_app. cbn [ok_or].
  rewrite hex_encode_length, length_arr, hex_encode_lower.
  change (negb (2 * 32 =? 64)%nat || false) with false. cbv iota.
  rewrite hex_round. cbn [with_context]. by rewrite to_array_arr.
Qed.

(** Distinct digests have distinct object keys. *)
Lemma object_key_inj a b : object_key a = object_key b → a = b.
Proof.
  unfold object_key. intros E. apply arr_inj, hex_encode_inj.
  pose proof (f_equal (fun s => strip_prefix "objects/sha256/" s) E) as E'.
  rewrite !strip_prefix_app in E'. injection E' as E'.
  pose proof (hex_encode_length (arr a)) as La. pose proof (hex_encode_length (arr b)) as Lb.
  rewrite length_arr in La, Lb.
  destruct (hex_encode (arr a)) as [|a1 [|a2 sa]]; [done..|].
  destruct (hex_encode (arr b)) as [|b1 [|b2 sb]]; [done..|].
  assert (∀ s, String.substring 0 0 s = EmptyString) as Hs by (by intros []).
  cbn in E'. rewrite !Hs in E'. cbv [String.append] in E'. congruence.
Qed.

End hash_lemmas.
