(* ===== verification/RunFormat.v ===== *)
(** * [codec/src/run.rs]: the bytes of a run

    Object references, records, fences, and the encodings of data pages,
    fence indexes and compressed pages: lines 16-62 and 477-885 of the file,
    less the builder's state machine ([RunBuilder]) and the readers
    ([RunReader]). *)

From S2P Require Import Prelude Bytes SortedLists Externals Hash.
From Stdlib Require Import Lia Sorting.Sorted.

Definition ROOT_MAGIC : bytes := byte_string "FTRT".
Definition INDEX_MAGIC : bytes := byte_string "FTIX".
Definition DATA_MAGIC : bytes := byte_string "FTDP".
Definition INTERNAL_MAGIC : bytes := byte_string "FTIR".
Definition COMPRESSED_MAGIC : bytes := byte_string "FTRZ".
Definition VERSION : byte := Byte.x01.
Definition PARTITIONS : nat := 16.
Definition MAX_PAGE_BYTES : N := 1024 * 1024.
Definition MAX_INDEX_BYTES : N := 512 * 1024.
Definition ROOT_BYTES : N := 4 + 1 + N.of_nat PARTITIONS * 36.
Definition REF_BYTES : N := 36.

(** An object reference: SHA-256 of the encoded bytes and their length. *)
Record ObjectRef := { ref_digest : Hash32; ref_length : N }.
#[export] Instance ObjectRef_eq_dec : EqDecision ObjectRef.
Proof. solve_decision. Defined.
Definition default_ref : ObjectRef := {| ref_digest := zero_hash; ref_length := 0 |}.

Record EncodedObject := { obj_reference : ObjectRef; obj_bytes : bytes }.

(** One state version: [run::Record]. *)
Record RunRecord := { rec_key : bytes; rec_block : N; rec_value : bytes }.
#[export] Instance RunRecord_eq_dec : EqDecision RunRecord.
Proof. solve_decision. Defined.

Record Fence := { fence_key : bytes; fence_block : N; fence_data : ObjectRef }.
#[export] Instance Fence_eq_dec : EqDecision Fence.
Proof. solve_decision. Defined.

(** The sort key [(key, block)] of records and fences. *)
Definition rec_version (r : RunRecord) : bytes * N := (rec_key r, rec_block r).
Definition fence_version (f : Fence) : bytes * N := (fence_key f, fence_block f).

(** [prior.is_some_and(|prior| prior >= next)] *)
Definition not_above {K} `{Cmp K} (prior : option K) (next : K) : bool :=
  match prior with Some p => leb next p | None => false end.

(** [validate_index_ref] *)
Definition validate_index_ref (reference : ObjectRef) : result unit :=
  if (ref_length reference =? 0)%N
     || (MAX_INDEX_BYTES <? ref_length reference)%N
     || bool_decide (ref_digest reference = zero_hash)
  then bail "run fence reference exceeds the 512 KiB pre-fetch bound"
  else Ok tt.

(** The data-page bound, checked before every page fetch. *)
Definition page_ref_invalid (reference : ObjectRef) : bool :=
  (ref_length reference =? 0)%N
  || (MAX_PAGE_BYTES <? ref_length reference)%N
  || bool_decide (ref_digest reference = zero_hash).

(** [read_u32], [read_u64]: the value and the advanced cursor. *)
Definition read_u32 (b : bytes) (cursor : N) : result (N * N) :=
  let? stop := ok_or (checked_add usize_max cursor 4) "run cursor overflow" in
  let? raw := ok_or (get_range b cursor stop) "truncated run u32" in
  Ok (from_be raw, stop).
Definition read_u64 (b : bytes) (cursor : N) : result (N * N) :=
  let? stop := ok_or (checked_add usize_max cursor 8) "run cursor overflow" in
  let? raw := ok_or (get_range b cursor stop) "truncated run u64" in
  Ok (from_be raw, stop).

(** [put_bytes], [put_ref]: what they append to [out]. *)
Definition put_bytes (b : bytes) : result bytes :=
  let? length := try_u32 (len b) "run key exceeds u32 length" in
  Ok (u32_be length ++ b).
Definition put_ref (r : ObjectRef) : bytes := arr (ref_digest r) ++ u32_be (ref_length r).

(** [read_ref] *)
Definition read_ref (b : bytes) (offset : N) : result ObjectRef :=
  let? stop := ok_or (checked_add usize_max offset REF_BYTES) "run ref offset overflow" in
  let? raw := ok_or (get_range b offset stop) "truncated run object ref" in
  let? d := unwrap (to_array 32 (take 32 raw)) in
  Ok {| ref_digest := d; ref_length := from_be (drop 32 raw) |}.

(** [data_page_start] *)
Definition data_page_start : bytes := DATA_MAGIC ++ [VERSION] ++ u32_be 0.

(** [encode_record] *)
Definition encode_record (r : RunRecord) : result bytes :=
  let? key_len := try_u32 (len (rec_key r)) "run key too long" in
  let? value_len := try_u32 (len (rec_value r)) "run value too long" in
  Ok (u32_be key_len ++ rec_key r ++ u64_be (rec_block r) ++ u32_be value_len ++ rec_value r).

(** [index_size] *)
Fixpoint index_size_from (size : N) (entries : list Fence) : result N :=
  match entries with
  | [] => Ok size
  | fence :: entries =>
      let? size := ok_or (checked_add usize_max size (4 + len (fence_key fence) + 8 + REF_BYTES))
                     "run index size overflow" in
      index_size_from size entries
  end.
Definition index_size (entries : list Fence) : result N := index_size_from 9 entries.

(** [encode_index]: the body of the loop over the entries. *)
Fixpoint encode_fences (entries : list Fence) : result bytes :=
  match entries with
  | [] => Ok []
  | fence :: entries =>
      let? key := put_bytes (fence_key fence) in
      let? rest := encode_fences entries in
      Ok (key ++ u64_be (fence_block fence) ++ put_ref (fence_data fence) ++ rest)
  end.
Definition encode_index (entries : list Fence) (magic : bytes) : result bytes :=
  let? size := index_size entries in
  if (MAX_INDEX_BYTES <? size)%N
  then bail "run fence index exceeds 512 KiB bound"
  else
    let? body := encode_fences entries in
    Ok (magic ++ [VERSION] ++ u32_be (as_u32 (len entries)) ++ body).

Section run_format.
Context `{Sha256, Zstd}.

(** [partition]: the high nibble of the key's digest. *)
Definition partition (key : bytes) : nat :=
  N.to_nat (N.shiftr (byte_N (hd Byte.x00 (arr (digest key)))) 4).

(** [make_object] *)
Definition make_object (b : bytes) : result EncodedObject :=
  let? length := try_u32 (len b) "run object exceeds u32 reference length" in
  Ok {| obj_reference := {| ref_digest := digest b; ref_length := length |}; obj_bytes := b |}.

(** [verify_object] *)
Definition verify_object (reference : ObjectRef) (b : bytes) : result unit :=
  if negb (ref_length reference =? len b)%N
     || negb (bool_decide (ref_digest reference = digest b))
  then bail "run object reference length or SHA-256 mismatch"
  else Ok tt.

(** [parse_data_payload]: the loop over [count] records. *)
Fixpoint parse_records (count : nat) (expected_partition : option nat) (b : bytes)
    (cursor : N) (records : list RunRecord) : result (N * list RunRecord) :=
  match count with
  | O => Ok (cursor, records)
  | S count =>
      let? (key_len, cursor) := read_u32 b cursor in
      let? key_end := ok_or (checked_add usize_max cursor key_len) "run key length overflow" in
      let? key := ok_or (get_range b cursor key_end) "truncated run key" in
      let? (block, cursor) := read_u64 b key_end in
      let? (value_len, cursor) := read_u32 b cursor in
      let? value_end := ok_or (checked_add usize_max cursor value_len) "run value length overflow" in
      let? value := ok_or (get_range b cursor value_end) "truncated run value" in
      let cursor := value_end in
      if bool_decide (key = [])
         || match expected_partition with
            | Some p => negb (partition key =? p)%nat
            | None => false
            end
      then bail "run page contains invalid or misrouted full key"
      else
        let record := {| rec_key := key; rec_block := block; rec_value := value |} in
        if not_above (rec_version <$> last records) (rec_version record)
        then bail "run data page records are not strictly sorted"
        else parse_records count expected_partition b cursor (records ++ [record])
  end.

Definition parse_data_payload (b : bytes) (expected_partition : option nat)
    : result (list RunRecord) :=
  if (len b <? 9)%N || negb (bool_decide (take 4 b = DATA_MAGIC))
     || negb (bool_decide (b !! 4 = Some VERSION))
  then bail "invalid run data page header"
  else
    let? raw := unwrap (get_range b 5 9) in
    let count := from_be raw in
    if ((len b - 9) / 17 <? count)%N
    then bail "run data page record count exceeds encoded payload bound"
    else
      let? (cursor, records) := parse_records (N.to_nat count) expected_partition b 9 [] in
      if negb (cursor =? len b)%N || bool_decide (records = [])
      then bail "run data page length or record count mismatch"
      else Ok records.

(** [decode_first_record] *)
Definition decode_first_record (page : bytes) : result RunRecord :=
  let? records := parse_data_payload page None in
  ok_or (head records) "run data page unexpectedly empty".

(** [decode_compressed] *)
Definition decode_compressed (reference : ObjectRef) (b : bytes) (maximum : N) : result bytes :=
  if (maximum <? len b)%N then bail "compressed run page exceeds encoded bound" else
  let? _ := verify_object reference b in
  if (maximum <? len b)%N || (len b <? 13)%N
     || negb (bool_decide (take 4 b = COMPRESSED_MAGIC))
     || negb (bool_decide (b !! 4 = Some VERSION))
  then bail "invalid or oversized compressed run page"
  else
    let? raw := unwrap (get_range b 5 9) in
    let decoded_len := from_be raw in
    let? raw := unwrap (get_range b 9 13) in
    let compressed_len := from_be raw in
    if (maximum <? decoded_len)%N || negb (compressed_len =? len b - 13)%N
    then bail "compressed run page length exceeds bound or mismatches header"
    else
      let? decoded := ruzstd_read maximum (maximum + 1) (drop 13 b) in
      if negb (len decoded =? decoded_len)%N
      then bail "compressed run page decoded length mismatch"
      else Ok decoded.

(** [decode_data_page] *)
Definition decode_data_page (reference : ObjectRef) (b : bytes) (shard : nat)
    : result (list RunRecord) :=
  let? decoded := decode_compressed reference b MAX_PAGE_BYTES in
  parse_data_payload decoded (Some shard).

(** [decode_index]: the loop over [count] fences. *)
Fixpoint parse_fences (count : nat) (shard : nat) (magic : bytes) (b : bytes)
    (cursor : N) (fences : list Fence) : result (N * list Fence) :=
  match count with
  | O => Ok (cursor, fences)
  | S count =>
      let? (key_len, cursor) := read_u32 b cursor in
      let? stop := ok_or (checked_add usize_max cursor key_len) "run fence key overflow" in
      let? key := ok_or (get_range b cursor stop) "truncated run fence key" in
      let? (block, cursor) := read_u64 b stop in
      let? data := read_ref b cursor in
      let cursor := (cursor + REF_BYTES)%N in
      if bool_decide (key = [])
         || negb (partition key =? shard)%nat
         || bool_decide (data = default_ref)
         || (ref_length data =? 0)%N
         || ((if bool_decide (magic = INTERNAL_MAGIC) then MAX_INDEX_BYTES else MAX_PAGE_BYTES)
               <? ref_length data)%N
         || bool_decide (ref_digest data = zero_hash)
      then bail "invalid run fence"
      else
        let fence := {| fence_key := key; fence_block := block; fence_data := data |} in
        if not_above (fence_version <$> last fences) (fence_version fence)
        then bail "run fences are not strictly sorted"
        else parse_fences count shard magic b cursor (fences ++ [fence])
  end.

Definition decode_index (reference : ObjectRef) (b : bytes) (shard : nat) (magic : bytes)
    : result (list Fence) :=
  if (MAX_INDEX_BYTES <? len b)%N then bail "run fence index exceeds 512 KiB pre-decode bound" else
  let? _ := verify_object reference b in
  if (MAX_INDEX_BYTES <? len b)%N || (len b <? 9)%N
     || negb (bool_decide (take 4 b = magic)) || negb (bool_decide (b !! 4 = Some VERSION))
  then bail "invalid or oversized run fence index"
  else
    let? raw := unwrap (get_range b 5 9) in
    let count := from_be raw in
    if ((len b - 9) / (4 + 1 + 8 + REF_BYTES) <? count)%N
    then bail "run fence count exceeds encoded index bound"
    else
      let? (cursor, fences) := parse_fences (N.to_nat count) shard magic b 9 [] in
      if negb (cursor =? len b)%N || bool_decide (fences = [])
      then bail "run fence index length or count mismatch"
      else Ok fences.

End run_format.
