(* ===== verification/RunFormatFacts.v ===== *)
(** * The run encodings are canonical

    Each decoder of [RunFormat] accepts exactly the encodings of well-formed
    values: parsing inverts encoding, and whatever parses is the encoding of
    its result.  The main lemmas are [parse_data_payload_iff],
    [decode_index_iff] and [decode_page_object]. *)

From S2P Require Import Prelude Bytes SortedLists Externals Hash RunFormat.
From Stdlib Require Import Lia Sorting.Sorted.

(** The bytes [encode_record] writes, when it succeeds. *)
Definition record_bytes (r : RunRecord) : bytes :=
  u32_be (len (rec_key r)) ++ rec_key r ++ u64_be (rec_block r)
    ++ u32_be (len (rec_value r)) ++ rec_value r.
Definition records_bytes (rs : list RunRecord) : bytes := concat (map record_bytes rs).
Definition page_payload (rs : list RunRecord) : bytes :=
  DATA_MAGIC ++ [VERSION] ++ u32_be (len rs) ++ records_bytes rs.

Definition fence_bytes (f : Fence) : bytes :=
  u32_be (len (fence_key f)) ++ fence_key f ++ u64_be (fence_block f) ++ put_ref (fence_data f).
Definition fences_bytes (fs : list Fence) : bytes := concat (map fence_bytes fs).
Definition index_payload (magic : bytes) (fs : list Fence) : bytes :=
  magic ++ [VERSION] ++ u32_be (len fs) ++ fences_bytes fs.

#[global] Arguments record_bytes : simpl never.
#[global] Arguments fence_bytes : simpl never.

(** The compressed page object around a zstd frame. *)
Definition page_object_bytes (page compressed : bytes) : bytes :=
  COMPRESSED_MAGIC ++ [VERSION] ++ u32_be (len page) ++ u32_be (len compressed) ++ compressed.

Record wf_record (r : RunRecord) : Prop := {
  wf_rec_key : rec_key r ≠ [];
  wf_rec_key_len : (len (rec_key r) <= u32_max)%N;
  wf_rec_block : (rec_block r <= u64_max)%N;
  wf_rec_value_len : (len (rec_value r) <= u32_max)%N
}.

Section facts.
Context `{Sha256, Zstd}.

Definition routed (expected : option nat) (key : bytes) : Prop :=
  match expected with Some p => partition key = p | None => True end.

Record wf_fence (shard : nat) (maximum : N) (f : Fence) : Prop := {
  wf_fence_key : fence_key f ≠ [];
  wf_fence_key_len : (len (fence_key f) <= u32_max)%N;
  wf_fence_block : (fence_block f <= u64_max)%N;
  wf_fence_routed : partition (fence_key f) = shard;
  wf_fence_nonzero : ref_length (fence_data f) ≠ 0%N;
  wf_fence_max : (ref_length (fence_data f) <= maximum)%N;
  wf_fence_u32 : (ref_length (fence_data f) <= u32_max)%N;
  wf_fence_digest : ref_digest (fence_data f) ≠ zero_hash
}.

(** ** Lengths *)

Lemma len_record_bytes r :
  len (record_bytes r) = (16 + len (rec_key r) + len (rec_value r))%N.
Proof. unfold record_bytes. len_lia. Qed.

Lemma len_put_ref r : len (put_ref r) = 36%N.
Proof. unfold put_ref. autorewrite with fossil_len. done. Qed.

Lemma len_fence_bytes f : len (fence_bytes f) = (48 + len (fence_key f))%N.
Proof. unfold fence_bytes. autorewrite with fossil_len. rewrite len_put_ref. lia. Qed.

Lemma records_bytes_cons r rs : records_bytes (r :: rs) = record_bytes r ++ records_bytes rs.
Proof. done. Qed.
Lemma records_bytes_snoc rs r : records_bytes (rs ++ [r]) = records_bytes rs ++ record_bytes r.
Proof. unfold records_bytes. rewrite map_app, concat_app. simpl. by rewrite app_nil_r. Qed.
Lemma fences_bytes_cons f fs : fences_bytes (f :: fs) = fence_bytes f ++ fences_bytes fs.
Proof. done. Qed.

Lemma len_key_pos (key : bytes) : key ≠ [] → (1 <= len key)%N.
Proof. destruct key; [done|]. intros _. len_lia. Qed.

Lemma len_records_bytes rs :
  Forall wf_record rs → (17 * len rs <= len (records_bytes rs))%N.
Proof.
  induction 1 as [|r rs Hr _ IH]; [done|].
  rewrite records_bytes_cons. autorewrite with fossil_len. rewrite len_record_bytes.
  pose proof (len_key_pos _ (wf_rec_key _ Hr)). lia.
Qed.

Lemma len_fences_bytes shard m fs :
  Forall (wf_fence shard m) fs → (49 * len fs <= len (fences_bytes fs))%N.
Proof.
  induction 1 as [|f fs Hf _ IH]; [done|].
  rewrite fences_bytes_cons. autorewrite with fossil_len. rewrite len_fence_bytes.
  pose proof (len_key_pos _ (wf_fence_key _ _ _ Hf)). lia.
Qed.

Lemma encode_record_ok r : wf_record r → encode_record r = Ok (record_bytes r).
Proof.
  intros []. unfold encode_record, try_u32, record_bytes.
  by rewrite !(proj2 (N.leb_le _ _)).
Qed.

Lemma encode_record_inv r b :
  encode_record r = Ok b →
  b = record_bytes r ∧ (len (rec_key r) <= u32_max)%N ∧ (len (rec_value r) <= u32_max)%N.
Proof.
  unfold encode_record, try_u32, record_bytes.
  destruct (len (rec_key r) <=? u32_max)%N eqn:E1; [|done].
  destruct (len (rec_value r) <=? u32_max)%N eqn:E2; [|done]. bool_prop. by intros [= <-].
Qed.

(** ** Cursor reads *)

(** A field that sits at the cursor is read. *)
Lemma get_at pre mid post c stop :
  c = len pre → stop = (c + len mid)%N → get_range (pre ++ mid ++ post) c stop = Some mid.
Proof. intros -> ->. by apply get_range_app. Qed.

Lemma checked_add_le m a b : (a + b <= m)%N → checked_add m a b = Some (a + b)%N.
Proof. intros Hab. unfold checked_add. by rewrite (proj2 (N.leb_le _ _)). Qed.
Lemma checked_add_Some m a b c : checked_add m a b = Some c → c = (a + b)%N ∧ (c <= m)%N.
Proof. unfold checked_add. destruct (_ <=? _)%N eqn:E; [|done]. bool_prop. intros [= <-]. done. Qed.

Lemma read_u32_at pre x post c :
  c = len pre → (x <= u32_max)%N → (len (pre ++ u32_be x ++ post) <= usize_max)%N →
  read_u32 (pre ++ u32_be x ++ post) c = Ok (x, (c + 4)%N).
Proof.
  intros -> Hx Hb. unfold read_u32. autorewrite with fossil_len in Hb.
  rewrite checked_add_le by lia. cbn [ok_or].
  rewrite get_at by (try done; len_lia). cbn [ok_or]. by rewrite u32_be_round.
Qed.

Lemma read_u64_at pre x post c :
  c = len pre → (x <= u64_max)%N → (len (pre ++ u64_be x ++ post) <= usize_max)%N →
  read_u64 (pre ++ u64_be x ++ post) c = Ok (x, (c + 8)%N).
Proof.
  intros -> Hx Hb. unfold read_u64. autorewrite with fossil_len in Hb.
  rewrite checked_add_le by lia. cbn [ok_or].
  rewrite get_at by (try done; len_lia). cbn [ok_or]. by rewrite u64_be_round.
Qed.

Lemma read_ref_at pre r post c :
  c = len pre → (ref_length r <= u32_max)%N → (len (pre ++ put_ref r ++ post) <= usize_max)%N →
  read_ref (pre ++ put_ref r ++ post) c = Ok r.
Proof.
  intros -> Hx Hb. unfold read_ref. rewrite !len_app, len_put_ref in Hb.
  rewrite checked_add_le by (unfold REF_BYTES; lia). cbn [ok_or].
  rewrite get_at by (try done; rewrite len_put_ref; done). cbn [ok_or].
  unfold put_ref.
  assert (length (arr (ref_digest r)) = 32) as Hl by apply length_arr.
  rewrite take_app_le by lia. rewrite take_ge by lia. rewrite to_array_arr. cbn [unwrap].
  rewrite drop_app_le by lia. rewrite drop_ge by lia. simpl. rewrite u32_be_round by done.
  by destruct r.
Qed.

Lemma read_u32_inv b c x c' :
  read_u32 b c = Ok (x, c') →
  c' = (c + 4)%N ∧ (c' <= usize_max)%N ∧ (x <= u32_max)%N ∧ get_range b c c' = Some (u32_be x).
Proof.
  unfold read_u32. destruct (checked_add usize_max c 4) as [stop|] eqn:E1; [|done]. cbn [ok_or].
  apply checked_add_Some in E1 as [-> Hm].
  destruct (get_range b c (c + 4)) as [raw|] eqn:E2; [|done]. cbn [ok_or]. intros [= <- <-].
  pose proof (get_range_Some _ _ _ _ E2) as (_ & _ & Hl & _).
  destruct (from_be_u32 raw) as [Hx Hr]; [unfold len in Hl; lia|].
  split_and!; try done. by rewrite Hr.
Qed.

Lemma read_u64_inv b c x c' :
  read_u64 b c = Ok (x, c') →
  c' = (c + 8)%N ∧ (c' <= usize_max)%N ∧ (x <= u64_max)%N ∧ get_range b c c' = Some (u64_be x).
Proof.
  unfold read_u64. destruct (checked_add usize_max c 8) as [stop|] eqn:E1; [|done]. cbn [ok_or].
  apply checked_add_Some in E1 as [-> Hm].
  destruct (get_range b c (c + 8)) as [raw|] eqn:E2; [|done]. cbn [ok_or]. intros [= <- <-].
  pose proof (get_range_Some _ _ _ _ E2) as (_ & _ & Hl & _).
  destruct (from_be_u64 raw) as [Hx Hr]; [unfold len in Hl; lia|].
  split_and!; try done. by rewrite Hr.
Qed.

Lemma read_ref_inv b c r :
  read_ref b c = Ok r →
  (c + 36 <= usize_max)%N ∧ (ref_length r <= u32_max)%N ∧
  get_range b c (c + 36) = Some (put_ref r).
Proof.
  unfold read_ref, REF_BYTES. destruct (checked_add usize_max c 36) as [stop|] eqn:E1; [|done].
  cbn [ok_or]. apply checked_add_Some in E1 as [-> Hm].
  destruct (get_range b c (c + 36)) as [raw|] eqn:E2; [|done]. cbn [ok_or].
  pose proof (get_range_Some _ _ _ _ E2) as (_ & _ & Hl & _).
  destruct (to_array 32 (take 32 raw)) as [d|] eqn:E3; [|done]. cbn [unwrap]. intros [= <-].
  apply to_array_Some in E3. assert (length raw = 36) as Hraw by (unfold len in Hl; lia).
  destruct (from_be_u32 (drop 32 raw)) as [Hx Hr]; [rewrite length_drop; lia|]. simpl.
  split_and!; [done..|]. unfold put_ref; simpl. by rewrite E3, Hr, take_drop.
Qed.

(** ** Data pages *)

Lemma not_above_false {K} `{CmpLaws K} (o : option K) (k : K) :
  not_above o k = false ↔ ∀ p, o = Some p → clt p k.
Proof.
  destruct o as [p|]; simpl; [|split; [by intros _ p|done]].
  rewrite leb_false. split; [by intros Hp q [= <-]|eauto].
Qed.

Lemma routed_test expected key :
  match expected with Some p => negb (partition key =? p)%nat | None => false end = false
  ↔ routed expected key.
Proof.
  destruct expected as [p|]; simpl; [|done].
  rewrite negb_false_iff. apply Nat.eqb_eq.
Qed.

Lemma sorted_last_lt {A K} `{CmpLaws K} (key : A → K) acc x rest :
  sorted_by key (acc ++ x :: rest) → ∀ p, key <$> last acc = Some p → clt p (key x).
Proof.
  intros (_ & _ & Hlt)%sorted_app p Hp. apply fmap_Some in Hp as (y & Hy & ->).
  apply Hlt; [by apply last_Some_elem_of|set_solver].
Qed.

Lemma parse_records_round expected rs pre post acc c :
  Forall wf_record rs → Forall (λ r, routed expected (rec_key r)) rs →
  sorted_by rec_version (acc ++ rs) → c = len pre →
  (len (pre ++ records_bytes rs ++ post) <= usize_max)%N →
  parse_records (length rs) expected (pre ++ records_bytes rs ++ post) c acc
  = Ok ((c + len (records_bytes rs))%N, acc ++ rs).
Proof.
  revert pre acc c; induction rs as [|r rs IH]; intros pre acc c Hwf Hr Hs Hc Hb.
  { simpl. rewrite app_nil_r. do 2 f_equal. change (len (records_bytes [])) with 0%N. lia. }
  invs Hwf. invs Hr. cbn [length parse_records]. rewrite records_bytes_cons in *.
  match goal with Hw : wf_record r |- _ => destruct Hw as [Hk Hkl Hbl Hvl] end.
  set (rest := records_bytes rs ++ post) in *.
  assert (∀ p : bytes, p ++ (record_bytes r ++ records_bytes rs) ++ post
    = p ++ u32_be (len (rec_key r)) ++ rec_key r ++ u64_be (rec_block r)
        ++ u32_be (len (rec_value r)) ++ rec_value r ++ rest) as Hshape.
  { intros p. unfold record_bytes. by rewrite <-!app_assoc. }
  rewrite Hshape in *.
  rewrite read_u32_at by done.
  pose proof Hb as Hb'. autorewrite with fossil_len in Hb'.
  rewrite checked_add_le by lia. cbn [ok_or].
  rewrite (app_assoc pre), get_at by len_lia. cbn [ok_or].
  rewrite (app_assoc _ (rec_key r)), read_u64_at by len_lia.
  rewrite (app_assoc _ (u64_be (rec_block r))), read_u32_at by len_lia.
  rewrite checked_add_le by lia. cbn [ok_or].
  rewrite (app_assoc _ (u32_be (len (rec_value r)))), get_at by len_lia. cbn [ok_or].
  rewrite bool_decide_eq_false_2 by done. cbn [orb].
  rewrite (proj2 (routed_test expected (rec_key r))) by done.
  rewrite (proj2 (not_above_false _ _)) by
    (destruct r; exact (sorted_last_lt rec_version _ _ _ Hs)).
  rewrite (app_assoc _ (rec_value r)). unfold rest.
  rewrite IH; [|done|done| | |].
  - rewrite <-app_assoc, len_app, len_record_bytes.
    replace {| rec_key := rec_key r; rec_block := rec_block r; rec_value := rec_value r |}
      with r by (by destruct r).
    do 2 f_equal. lia.
  - rewrite <-app_assoc. by destruct r.
  - len_lia.
  - unfold rest in Hb'. len_lia.
Qed.
(** What the loop accepts is the encoding of the records it appended. *)
Lemma parse_records_inv n expected b c acc c' rs :
  parse_records n expected b c acc = Ok (c', rs) → sorted_by rec_version acc → (c <= len b)%N →
  ∃ new, rs = acc ++ new ∧ length new = n ∧ get_range b c c' = Some (records_bytes new)
    ∧ Forall wf_record new ∧ Forall (λ r, routed expected (rec_key r)) new
    ∧ sorted_by rec_version rs ∧ ((c' <= usize_max)%N ∨ n = 0).
Proof.
  revert c acc; induction n as [|n IH]; intros c acc; cbn [parse_records].
  { intros [= <- <-] Hs Hc. exists []. rewrite app_nil_r. split_and!; try done; [|by right].
    unfold get_range. rewrite N.leb_refl, (proj2 (N.leb_le _ _)) by done.
    by rewrite N.sub_diag. }
  intros Hp Hs Hc.
  destruct (read_u32 b c) as [[kl c1]|] eqn:E1; [|done].
  apply read_u32_inv in E1 as (-> & _ & Hkl & G1).
  destruct (checked_add usize_max (c + 4) kl) as [ke|] eqn:E2; [|done]. cbn [ok_or] in Hp.
  apply checked_add_Some in E2 as [-> _].
  destruct (get_range b (c + 4) (c + 4 + kl)) as [key|] eqn:G2; [|done]. cbn [ok_or] in Hp.
  destruct (read_u64 b _) as [[bl c2]|] eqn:E3; [|done].
  apply read_u64_inv in E3 as (-> & _ & Hbl & G3).
  destruct (read_u32 b _) as [[vl c3]|] eqn:E4; [|done].
  apply read_u32_inv in E4 as (-> & _ & Hvl & G4).
  destruct (checked_add usize_max _ vl) as [ve|] eqn:E5; [|done]. cbn [ok_or] in Hp.
  apply checked_add_Some in E5 as [-> Hm].
  destruct (get_range b _ (c + 4 + kl + 8 + 4 + vl)) as [value|] eqn:G5; [|done].
  cbn [ok_or] in Hp. destruct (_ || _) eqn:E6; [done|]. apply orb_false_iff in E6 as [E6 E7].
  apply bool_decide_eq_false in E6. apply routed_test in E7.
  destruct (not_above _ _) eqn:E8; [done|]. rewrite not_above_false in E8.
  set (r := {| rec_key := key; rec_block := bl; rec_value := value |}) in *.
  pose proof (get_range_Some _ _ _ _ G2) as (_ & _ & Hk & _).
  pose proof (get_range_Some _ _ _ _ G5) as (_ & Hcb & Hv & _).
  replace kl with (len key) in * by lia. replace vl with (len value) in * by lia.
  apply IH in Hp as (new & -> & Hn & Hg & Hwf & Hr & Hsn & Hc'); [|  |done].
  - exists (r :: new). rewrite <-app_assoc in *. cbn [app] in *.
    split_and!; [done|simpl; by rewrite Hn| | | |done|].
    + rewrite records_bytes_cons. unfold record_bytes. simpl. rewrite <-!app_assoc.
      eapply get_range_join; [exact G1|]. eapply get_range_join; [exact G2|].
      eapply get_range_join; [exact G3|]. eapply get_range_join; [exact G4|].
      by eapply get_range_join.
    + constructor; [|done]. by constructor.
    + by constructor.
    + left. destruct Hc' as [Hc'|Hn0]; [done|].
      destruct n; [|done]. destruct new; [|done].
      pose proof (get_range_Some _ _ _ _ Hg) as (? & _ & Hl & _).
      change (records_bytes []) with (@nil byte) in Hl. rewrite len_nil in Hl. lia.
  - apply sorted_snoc; [done|]. intros x Hx. apply E8. by rewrite Hx.
Qed.

Lemma header_split b magic :
  (9 <= len b)%N → length magic = 4 → take 4 b = magic → b !! 4 = Some VERSION →
  b = magic ++ [VERSION] ++ take 4 (drop 5 b) ++ drop 9 b.
Proof.
  intros Hl Hm Ht Hv. rewrite <-(take_drop 4 b) at 1. rewrite Ht. f_equal.
  rewrite (drop_S b VERSION 4) by done. simpl. f_equal.
  rewrite <-(take_drop 4 (drop 5 b)) at 1. by rewrite drop_drop.
Qed.

Lemma header_fields magic x rest :
  length magic = 4 →
  let b := magic ++ [VERSION] ++ u32_be x ++ rest in
  take 4 b = magic ∧ b !! 4 = Some VERSION ∧ get_range b 5 9 = Some (u32_be x) ∧
  len b = (9 + len rest)%N.
Proof.
  intros Hm b. unfold b. split_and!.
  - rewrite take_app_le by lia. by rewrite take_ge by lia.
  - rewrite lookup_app_r by lia. by rewrite Hm.
  - rewrite app_assoc. apply get_at; [unfold len; rewrite length_app; simpl; lia|].
    by rewrite len_u32_be.
  - autorewrite with fossil_len. unfold len at 1. rewrite Hm. lia.
Qed.

(** A data page parses exactly when it is the encoding of a non-empty,
    strictly sorted list of well-formed records routed to the partition. *)
Lemma parse_data_payload_iff b expected rs :
  parse_data_payload b expected = Ok rs ↔
  b = page_payload rs ∧ rs ≠ [] ∧ (len b <= usize_max)%N ∧ (len rs <= u32_max)%N
  ∧ Forall wf_record rs ∧ Forall (λ r, routed expected (rec_key r)) rs
  ∧ sorted_by rec_version rs.
Proof.
  split.
  - unfold parse_data_payload. destruct (_ || _) eqn:E; [done|]. bool_prop.
    destruct (get_range b 5 9) as [raw|] eqn:G; [|done]. cbn [unwrap].
    pose proof (get_range_Some _ _ _ _ G) as (_ & _ & Hraw & Eraw).
    destruct (_ <? _)%N eqn:E2; [done|].
    destruct (parse_records _ _ _ _ _) as [[c rs']|] eqn:E3; [|done].
    destruct (_ || _) eqn:E4; [done|]. bool_prop. intros [= <-].
    apply parse_records_inv in E3 as (new & -> & Hn & Hg & Hwf & Hr & Hs & Hc);
      [|apply sorted_nil|done]. simpl in *.
    assert (len new = from_be raw) as Hlen by (unfold len; lia).
    destruct (from_be_u32 raw) as [Hx Hr2]; [unfold len in Hraw; lia|].
    assert (b = page_payload new) as Hb.
    { rewrite (header_split b DATA_MAGIC) by done. unfold page_payload. do 2 f_equal.
      rewrite Hlen, Hr2, Eraw. f_equal.
      apply get_range_Some in Hg as (_ & _ & _ & ->). subst c.
      rewrite take_ge; [done|]. rewrite length_drop. unfold len. lia. }
    split_and!; try done; [|lia].
    destruct Hc as [Hc|Hc]; [congruence|]. assert (length new = 0) as Hn0 by lia.
    destruct new; [done|simpl in Hn0; lia].
  - intros (-> & Hne & Hb & Hc & Hwf & Hr & Hs). unfold parse_data_payload, page_payload in *.
    destruct (header_fields DATA_MAGIC (len rs) (records_bytes rs)) as (H1 & H2 & H3 & H4); [done|].
    cbv zeta in H1, H2, H3, H4. rewrite H3, H4.
    pose proof (len_records_bytes rs Hwf) as Hl.
    assert (1 <= len rs)%N by (destruct rs; [done|len_lia]).
    rewrite (proj2 (N.ltb_ge _ _)) by lia. rewrite !bool_decide_eq_true_2 by done.
    cbn [orb negb unwrap]. rewrite u32_be_round by done.
    replace (9 + len (records_bytes rs) - 9)%N with (len (records_bytes rs)) by lia.
    rewrite (proj2 (N.ltb_ge _ _)) by (apply N.div_le_lower_bound; lia).
    rewrite len_length.
    pose proof (parse_records_round expected rs (DATA_MAGIC ++ [VERSION] ++ u32_be (len rs)) []
      [] 9 Hwf Hr Hs) as Hp.
    rewrite !app_nil_r in Hp. rewrite <-!app_assoc in Hp. rewrite Hp; [|done|done].
    replace (9 + len (records_bytes rs) =? 9 + len (records_bytes rs))%N with true
      by (symmetry; by apply N.eqb_eq).
    by rewrite bool_decide_eq_false_2.
Qed.

(** ** Fence indexes *)

(** The bound on what a fence may reference, by the magic of its index. *)
Definition fence_limit (magic : bytes) : N :=
  if bool_decide (magic = INTERNAL_MAGIC) then MAX_INDEX_BYTES else MAX_PAGE_BYTES.

Lemma fence_limit_u32 magic : (fence_limit magic <= u32_max)%N.
Proof. unfold fence_limit. case_bool_decide; done. Qed.

(** The validity test of the decoder's loop. *)
Lemma fence_test shard magic key bl (data : ObjectRef) :
  (bl <= u64_max)%N → (len key <= u32_max)%N → (ref_length data <= u32_max)%N →
  bool_decide (key = []) || negb (partition key =? shard)%nat
    || bool_decide (data = default_ref) || (ref_length data =? 0)%N
    || ((if bool_decide (magic = INTERNAL_MAGIC) then MAX_INDEX_BYTES else MAX_PAGE_BYTES)
          <? ref_length data)%N
    || bool_decide (ref_digest data = zero_hash) = false
  ↔ wf_fence shard (fence_limit magic) {| fence_key := key; fence_block := bl; fence_data := data |}.
Proof.
  intros Hb Hk Hd. fold (fence_limit magic). split.
  - intros E. bool_prop.
    match goal with Hp : (partition key =? shard)%nat = true |- _ => apply Nat.eqb_eq in Hp end.
    by constructor.
  - intros [??????? Hz]; simpl in *. rewrite !bool_decide_eq_false_2; [|done| |done].
    + rewrite (proj2 (Nat.eqb_eq _ _)) by done. rewrite (proj2 (N.eqb_neq _ _)) by done.
      by rewrite (proj2 (N.ltb_ge _ _)).
    + intros ->. by destruct Hz.
Qed.

Lemma parse_fences_round shard magic fs pre post acc c :
  Forall (wf_fence shard (fence_limit magic)) fs →
  sorted_by fence_version (acc ++ fs) → c = len pre →
  (len (pre ++ fences_bytes fs ++ post) <= usize_max)%N →
  parse_fences (length fs) shard magic (pre ++ fences_bytes fs ++ post) c acc
  = Ok ((c + len (fences_bytes fs))%N, acc ++ fs).
Proof.
  revert pre acc c; induction fs as [|f fs IH]; intros pre acc c Hwf Hs Hc Hb.
  { simpl. rewrite app_nil_r. do 2 f_equal. change (len (fences_bytes [])) with 0%N. lia. }
  invs Hwf. cbn [length parse_fences]. rewrite fences_bytes_cons in *.
  set (rest := fences_bytes fs ++ post) in *.
  assert (∀ p : bytes, p ++ (fence_bytes f ++ fences_bytes fs) ++ post
    = p ++ u32_be (len (fence_key f)) ++ fence_key f ++ u64_be (fence_block f)
        ++ put_ref (fence_data f) ++ rest) as Hshape.
  { intros p. unfold fence_bytes. by rewrite <-!app_assoc. }
  rewrite Hshape in *.
  match goal with Hw : wf_fence shard _ f |- _ => pose proof Hw as [Hk Hkl Hbl Hr Hnz Hmax Hu Hd] end.
  rewrite read_u32_at by done.
  pose proof Hb as Hb'. rewrite !len_app, len_put_ref in Hb'. autorewrite with fossil_len in Hb'.
  rewrite checked_add_le by lia. cbn [ok_or].
  rewrite (app_assoc pre), get_at by len_lia. cbn [ok_or].
  rewrite (app_assoc _ (fence_key f)), read_u64_at
    by (try done; rewrite ?len_app, ?len_put_ref; len_lia).
  rewrite (app_assoc _ (u64_be (fence_block f))), read_ref_at
    by (try done; rewrite ?len_app, ?len_put_ref; len_lia).
  rewrite (proj2 (fence_test shard magic _ (fence_block f) _ Hbl Hkl Hu)) by (by destruct f).
  rewrite (proj2 (not_above_false _ _)) by
    (destruct f; exact (sorted_last_lt fence_version _ _ _ Hs)).
  rewrite (app_assoc _ (put_ref (fence_data f))). unfold rest, REF_BYTES.
  replace {| fence_key := fence_key f; fence_block := fence_block f; fence_data := fence_data f |}
    with f by (by destruct f).
  rewrite IH; [|done| | |].
  - rewrite <-app_assoc, len_app, len_fence_bytes. do 2 f_equal. lia.
  - by rewrite <-app_assoc.
  - rewrite !len_app, len_put_ref. len_lia.
  - unfold rest in Hb'. rewrite !len_app, len_put_ref in *. len_lia.
Qed.

Lemma parse_fences_inv n shard magic b c acc c' fs :
  parse_fences n shard magic b c acc = Ok (c', fs) → sorted_by fence_version acc → (c <= len b)%N →
  ∃ new, fs = acc ++ new ∧ length new = n ∧ get_range b c c' = Some (fences_bytes new)
    ∧ Forall (wf_fence shard (fence_limit magic)) new ∧ sorted_by fence_version fs.
Proof.
  revert c acc; induction n as [|n IH]; intros c acc; cbn [parse_fences].
  { intros [= <- <-] Hs Hc. exists []. rewrite app_nil_r. split_and!; try done.
    unfold get_range. rewrite N.leb_refl, (proj2 (N.leb_le _ _)) by done.
    by rewrite N.sub_diag. }
  intros Hp Hs Hc.
  destruct (read_u32 b c) as [[kl c1]|] eqn:E1; [|done].
  apply read_u32_inv in E1 as (-> & _ & Hkl & G1).
  destruct (checked_add usize_max (c + 4) kl) as [ke|] eqn:E2; [|done]. cbn [ok_or] in Hp.
  apply checked_add_Some in E2 as [-> _].
  destruct (get_range b (c + 4) (c + 4 + kl)) as [key|] eqn:G2; [|done]. cbn [ok_or] in Hp.
  destruct (read_u64 b _) as [[bl c2]|] eqn:E3; [|done].
  apply read_u64_inv in E3 as (-> & _ & Hbl & G3).
  destruct (read_ref b _) as [data|] eqn:E4; [|done].
  apply read_ref_inv in E4 as (_ & Hu & G4).
  pose proof (get_range_Some _ _ _ _ G2) as (_ & _ & Hk & _).
  replace kl with (len key) in * by lia.
  destruct (bool_decide (key = []) || _ || _ || _ || _ || _) eqn:E6; [done|].
  apply (fence_test shard magic key bl data Hbl Hkl Hu) in E6.
  destruct (not_above _ _) eqn:E8; [done|]. rewrite not_above_false in E8.
  set (f := {| fence_key := key; fence_block := bl; fence_data := data |}) in *.
  pose proof (get_range_Some _ _ _ _ G4) as (_ & Hcb & _ & _).
  apply IH in Hp as (new & -> & Hn & Hg & Hwf & Hsn); [|  |done].
  - exists (f :: new). rewrite <-app_assoc in *. cbn [app] in *.
    split_and!; [done|simpl; by rewrite Hn| |by constructor|done].
    rewrite fences_bytes_cons. unfold fence_bytes. rewrite <-!app_assoc.
    eapply get_range_join; [exact G1|]. eapply get_range_join; [exact G2|].
    eapply get_range_join; [exact G3|]. by eapply get_range_join.
  - apply sorted_snoc; [done|]. intros x Hx. apply E8. by rewrite Hx.
Qed.

Lemma verify_object_ok reference b :
  verify_object reference b = Ok tt ↔ ref_length reference = len b ∧ ref_digest reference = digest b.
Proof.
  unfold verify_object. split.
  - destruct (_ || _) eqn:E; [done|]. by bool_prop.
  - intros [-> ->]. by rewrite N.eqb_refl, bool_decide_eq_true_2.
Qed.

(** A fence index decodes exactly when the bytes have the reference's length
    and digest and are the encoding of a non-empty, strictly sorted list of
    valid fences within the index bound. *)
Lemma decode_index_iff reference b shard magic fs :
  length magic = 4 →
  decode_index reference b shard magic = Ok fs ↔
  (ref_length reference = len b ∧ ref_digest reference = digest b)
  ∧ b = index_payload magic fs ∧ fs ≠ [] ∧ (len b <= MAX_INDEX_BYTES)%N
  ∧ Forall (wf_fence shard (fence_limit magic)) fs ∧ sorted_by fence_version fs.
Proof.
  intros Hmagic. split.
  - unfold decode_index. destruct (_ <? _)%N eqn:E0; [done|].
    destruct (verify_object reference b) as [[]|] eqn:Ev; [|done]. apply verify_object_ok in Ev.
    destruct (_ || _) eqn:E; [done|]. bool_prop.
    destruct (get_range b 5 9) as [raw|] eqn:G; [|done]. cbn [unwrap].
    pose proof (get_range_Some _ _ _ _ G) as (_ & _ & Hraw & Eraw).
    destruct (_ / _ <? _)%N eqn:E2; [done|].
    destruct (parse_fences _ _ _ _ _ _) as [[c fs']|] eqn:E3; [|done].
    destruct (_ || _) eqn:E4; [done|]. bool_prop. intros [= <-].
    apply parse_fences_inv in E3 as (new & -> & Hn & Hg & Hwf & Hs);
      [|apply sorted_nil|done]. simpl in *.
    assert (len new = from_be raw) as Hlen by (unfold len; lia).
    destruct (from_be_u32 raw) as [Hx Hr2]; [unfold len in Hraw; lia|].
    split_and!; try done; [apply Ev|apply Ev|].
    rewrite (header_split b magic) by done. unfold index_payload. do 2 f_equal.
    rewrite Hlen, Hr2, Eraw. f_equal.
    apply get_range_Some in Hg as (_ & _ & _ & ->). subst c.
    rewrite take_ge; [done|]. rewrite length_drop. unfold len. lia.
  - intros (Hv & -> & Hne & Hb & Hwf & Hs). unfold decode_index, index_payload in *.
    rewrite (proj2 (verify_object_ok _ _) Hv).
    destruct (header_fields magic (len fs) (fences_bytes fs)) as (H1 & H2 & H3 & H4); [done|].
    cbv zeta in H1, H2, H3, H4. rewrite H3, H4 in *.
    pose proof (len_fences_bytes _ _ _ Hwf) as Hl.
    assert (1 <= len fs)%N by (destruct fs; [done|len_lia]).
    assert (len fs <= u32_max)%N by (unfold MAX_INDEX_BYTES, u32_max in *; lia).
    rewrite (proj2 (N.ltb_ge _ _)) by lia. rewrite (proj2 (N.ltb_ge _ 9)) by lia.
    rewrite !bool_decide_eq_true_2 by done. cbn [orb negb unwrap]. rewrite u32_be_round by done.
    replace (9 + len (fences_bytes fs) - 9)%N with (len (fences_bytes fs)) by lia.
    rewrite (proj2 (N.ltb_ge _ _)) by (apply N.div_le_lower_bound; unfold REF_BYTES; lia).
    rewrite len_length.
    pose proof (parse_fences_round shard magic fs (magic ++ [VERSION] ++ u32_be (len fs)) []
      [] 9 Hwf Hs) as Hp.
    rewrite !app_nil_r in Hp. rewrite <-!app_assoc in Hp. rewrite Hp.
    + replace (9 + len (fences_bytes fs) =? 9 + len (fences_bytes fs))%N with true
        by (symmetry; by apply N.eqb_eq).
      by rewrite bool_decide_eq_false_2.
    + autorewrite with fossil_len. unfold len at 1. rewrite Hmagic. lia.
    + rewrite H4. unfold MAX_INDEX_BYTES, usize_max, u64_max in *. lia.
Qed.

(** ** What the encoders write *)

Lemma index_size_from_inv size fs n :
  index_size_from size fs = Ok n → n = (size + len (fences_bytes fs))%N.
Proof.
  revert size; induction fs as [|f fs IH]; intros size; simpl.
  { intros [= <-]. change (len (fences_bytes [])) with 0%N. lia. }
  destruct (checked_add usize_max size _) as [m|] eqn:E; [|done]. cbn [ok_or].
  apply checked_add_Some in E as [-> _]. intros ->%IH.
  rewrite fences_bytes_cons, len_app, len_fence_bytes. unfold REF_BYTES. lia.
Qed.

Lemma index_size_inv fs n : index_size fs = Ok n → n = (9 + len (fences_bytes fs))%N.
Proof. apply index_size_from_inv. Qed.

Lemma encode_fences_inv fs b :
  encode_fences fs = Ok b →
  b = fences_bytes fs ∧ Forall (λ f, (len (fence_key f) <= u32_max)%N) fs.
Proof.
  revert b; induction fs as [|f fs IH]; intros b; simpl; [by intros [= <-]|].
  unfold put_bytes, try_u32. destruct (_ <=? _)%N eqn:E; [|done].
  destruct (encode_fences fs) as [rest|]; [|done]. intros [= <-]. bool_prop.
  destruct (IH rest eq_refl) as [-> HF]. split; [|by constructor].
  rewrite fences_bytes_cons. unfold fence_bytes. by rewrite <-!app_assoc.
Qed.

Lemma len_fences_bytes_ge fs : (48 * len fs <= len (fences_bytes fs))%N.
Proof.
  induction fs as [|f fs IH]; [done|]. rewrite fences_bytes_cons, len_app, len_cons, len_fence_bytes. lia.
Qed.

Lemma encode_index_inv fs magic b :
  length magic = 4 → encode_index fs magic = Ok b →
  b = index_payload magic fs ∧ (len b <= MAX_INDEX_BYTES)%N
  ∧ Forall (λ f, (len (fence_key f) <= u32_max)%N) fs.
Proof.
  intros Hm. unfold encode_index. destruct (index_size fs) as [n|] eqn:E; [|done].
  apply index_size_inv in E as ->. destruct (_ <? _)%N eqn:E1; [done|]. bool_prop.
  destruct (encode_fences fs) as [body|] eqn:E2; [|done]. intros [= <-].
  apply encode_fences_inv in E2 as [-> HF]. pose proof (len_fences_bytes_ge fs).
  assert (as_u32 (len fs) = len fs) as ->.
  { unfold as_u32. apply N.mod_small. unfold MAX_INDEX_BYTES, u32_max in *. lia. }
  split_and!; [done| |done].
  destruct (header_fields magic (len fs) (fences_bytes fs) Hm) as (_ & _ & _ & H4).
  eapply N.le_trans; [apply N.eq_le_incl, H4|done].
Qed.

Lemma make_object_inv b o :
  make_object b = Ok o →
  o = {| obj_reference := {| ref_digest := digest b; ref_length := len b |}; obj_bytes := b |}
  ∧ (len b <= u32_max)%N.
Proof. unfold make_object, try_u32. destruct (_ <=? _)%N eqn:E; [|done]. bool_prop. by intros [= <-]. Qed.

(** A page object written around a zstd frame of [page] decodes to [page]. *)
Lemma decode_page_object `{!ZstdLaws} page compressed reference :
  zstd_encode page = Ok compressed →
  (len page <= MAX_PAGE_BYTES)%N →
  (len (page_object_bytes page compressed) <= MAX_PAGE_BYTES)%N →
  verify_object reference (page_object_bytes page compressed) = Ok tt →
  decode_compressed reference (page_object_bytes page compressed) MAX_PAGE_BYTES = Ok page.
Proof.
  intros Hz Hp Hb Hv. unfold decode_compressed. rewrite Hv.
  rewrite (proj2 (N.ltb_ge _ _)) by done. unfold page_object_bytes in *.
  destruct (header_fields COMPRESSED_MAGIC (len page) (u32_be (len compressed) ++ compressed))
    as (F1 & F2 & F3 & F4); [done|]. cbv zeta in F1, F2, F3, F4.
  rewrite F3, F4. rewrite !bool_decide_eq_true_2 by done.
  autorewrite with fossil_len in *. change (len COMPRESSED_MAGIC) with 4%N in Hb.
  rewrite (proj2 (N.ltb_ge _ 13)) by lia. cbn [orb negb unwrap].
  assert (get_range (COMPRESSED_MAGIC ++ [VERSION] ++ u32_be (len page)
    ++ u32_be (len compressed) ++ compressed) 9 13 = Some (u32_be (len compressed))) as ->.
  { rewrite (app_assoc _ [VERSION]), (app_assoc _ (u32_be (len page))).
    apply get_at; by autorewrite with fossil_len. }
  cbn [unwrap]. assert (MAX_PAGE_BYTES <= u32_max)%N by done.
  rewrite !u32_be_round by lia. rewrite (proj2 (N.ltb_ge _ (len page))) by lia.
  replace (9 + (4 + len compressed) - 13)%N with (len compressed) by lia. rewrite N.eqb_refl.
  cbn [orb negb].
  assert (drop 13 (COMPRESSED_MAGIC ++ [VERSION] ++ u32_be (len page)
    ++ u32_be (len compressed) ++ compressed) = compressed) as ->.
  { rewrite (app_assoc _ [VERSION]), (app_assoc _ (u32_be (len page))),
      (app_assoc _ (u32_be (len compressed))). apply drop_app_length'.
    pose proof (len_u32_be (len page)). pose proof (len_u32_be (len compressed)).
    unfold len in *. rewrite !length_app. simpl. lia. }
  rewrite (zstd_round page compressed) by (try done; lia). by rewrite N.eqb_refl.
Qed.

End facts.
