(* ===== verification/RunBuilder.v ===== *)
(** * [codec/src/run.rs]: [RunBuilder]

    The bounded streaming builder: lines 64-164 and 513-626.  The four arrays
    [pages], [counts], [leaves] and [parents], which the code indexes by one
    partition at a time, are one list of partition states.  [emit] is the
    caller's fallible sink: a step on a state of its own. *)

From S2P Require Import Prelude Bytes SortedLists Externals Hash RunFormat.
From Stdlib Require Import Lia.

(** Code that calls [emit]: a fallible step on the sink's state. *)
Definition eff (S A : Type) : Type := S → result A * S.

Definition eff_lift {S A} (r : result A) : eff S A := λ s, (r, s).
Definition eff_bind {S A B} (c : eff S A) (k : A → eff S B) : eff S B :=
  λ s, match c s with
       | (Ok a, s') => k a s'
       | (Err e, s') => (Err e, s')
       end.
Definition eff_context {S A} (message : string) (c : eff S A) : eff S A :=
  λ s, let '(r, s') := c s in (with_context message r, s').

Notation "'let^' x := c 'in' k" :=
  (eff_bind c (λ x, k))
  (at level 10, x pattern, c at level 100, k at level 200) : fossil_scope.
(** [?] on a pure result. *)
Notation "'let^?' x := c 'in' k" :=
  (eff_bind (eff_lift c) (λ x, k))
  (at level 10, x pattern, c at level 100, k at level 200) : fossil_scope.

(** [pages[p]], [counts[p]], [leaves[p]], [parents[p]] *)
Record PartitionState := {
  ps_page : bytes;
  ps_count : N;
  ps_leaves : list Fence;
  ps_parents : list Fence
}.

Definition partition_start : PartitionState :=
  {| ps_page := data_page_start; ps_count := 0; ps_leaves := []; ps_parents := [] |}.

Definition first_version (r : RunRecord) (data : ObjectRef) : Fence :=
  {| fence_key := rec_key r; fence_block := rec_block r; fence_data := data |}.

Section builder.
Context `{Sha256, Zstd} {S : Type} (emit : EncodedObject → eff S unit).

(** [emit_leaf] *)
Definition emit_leaf (ps : PartitionState) : eff S PartitionState :=
  match ps_leaves ps with
  | [] => eff_lift (Ok ps)
  | first :: _ =>
      let^? b := encode_index (ps_leaves ps) INDEX_MAGIC in
      let^? object := make_object b in
      let parent_entry := {| fence_key := fence_key first; fence_block := fence_block first;
                             fence_data := obj_reference object |} in
      if not_above (fence_version <$> last (ps_parents ps)) (fence_version parent_entry)
      then eff_lift (bail "run fence leaves are not strictly ordered")
      else
        let parents := ps_parents ps ++ [parent_entry] in
        let^? size := index_size parents in
        if (MAX_INDEX_BYTES <? size)%N
        then eff_lift (bail "run internal fence root exceeds 512 KiB bound")
        else
          let^ _ := eff_context "emit run fence leaf" (emit object) in
          eff_lift (Ok {| ps_page := ps_page ps; ps_count := ps_count ps;
                          ps_leaves := []; ps_parents := parents |})
  end.

(** [append_leaf_fence] *)
Definition append_leaf_fence (fence : Fence) (ps : PartitionState) : eff S PartitionState :=
  let pushed := ps_leaves ps ++ [fence] in
  let^? size := index_size pushed in
  if (size <=? MAX_INDEX_BYTES)%N
  then eff_lift (Ok {| ps_page := ps_page ps; ps_count := ps_count ps;
                       ps_leaves := pushed; ps_parents := ps_parents ps |})
  else if bool_decide (ps_leaves ps = [])
  then eff_lift (bail "single run fence exceeds 512 KiB leaf bound")
  else
    let^ ps := emit_leaf ps in
    let pushed := ps_leaves ps ++ [fence] in
    let^? size := index_size pushed in
    if (MAX_INDEX_BYTES <? size)%N
    then eff_lift (bail "single run fence exceeds 512 KiB leaf bound")
    else eff_lift (Ok {| ps_page := ps_page ps; ps_count := ps_count ps;
                         ps_leaves := pushed; ps_parents := ps_parents ps |}).

(** [flush_page] *)
Definition flush_page (ps : PartitionState) : eff S PartitionState :=
  if (ps_count ps =? 0)%N then eff_lift (Ok ps) else
  let page := take 5 (ps_page ps) ++ u32_be (ps_count ps) ++ drop 9 (ps_page ps) in
  let^? first := decode_first_record page in
  let^? compressed := zstd_encode page in
  let b := COMPRESSED_MAGIC ++ [VERSION] ++ u32_be (as_u32 (len page))
             ++ u32_be (as_u32 (len compressed)) ++ compressed in
  if (MAX_PAGE_BYTES <? len page)%N || (MAX_PAGE_BYTES <? len b)%N
  then eff_lift (bail "run data page exceeds 1 MiB encoded or decoded bound")
  else
    let^? object := make_object b in
    let^ _ := eff_context "emit run data page" (emit object) in
    let^ ps := append_leaf_fence (first_version first (obj_reference object)) ps in
    eff_lift (Ok {| ps_page := data_page_start; ps_count := 0;
                    ps_leaves := ps_leaves ps; ps_parents := ps_parents ps |}).

(** The body of the loop over the records, from [partition] on. *)
Definition push_record (record : RunRecord) (encoded : bytes) (ps : PartitionState)
    : eff S PartitionState :=
  let^ ps :=
    if (MAX_PAGE_BYTES <? len (ps_page ps) + len encoded)%N then
      if (ps_count ps =? 0)%N
      then eff_lift (bail "single run record exceeds 1 MiB data-page bound")
      else
        let^ ps := flush_page ps in
        if (MAX_PAGE_BYTES <? len (ps_page ps) + len encoded)%N
        then eff_lift (bail "single run record exceeds 1 MiB data-page bound")
        else eff_lift (Ok ps)
    else eff_lift (Ok ps) in
  eff_lift (Ok {| ps_page := ps_page ps ++ encoded; ps_count := as_u32 (ps_count ps + 1);
                  ps_leaves := ps_leaves ps; ps_parents := ps_parents ps |}).

(** The loop over the records of [build]. *)
Fixpoint build_records (records : list RunRecord) (previous : option (bytes * N))
    (parts : list PartitionState) : eff S (list PartitionState) :=
  match records with
  | [] => eff_lift (Ok parts)
  | record :: records =>
      if bool_decide (rec_key record = [])
      then eff_lift (bail "run record key must not be empty")
      else if not_above previous (rec_version record)
      then eff_lift (bail "run records must be strictly sorted by (key, block)")
      else
        let^? size := ok_or (checked_add usize_max (len (rec_key record)) (len (rec_value record)))
                        "run record length overflow" in
        let^? record_size := ok_or (checked_add usize_max size (16 + 9))
                               "run record length overflow" in
        if (MAX_PAGE_BYTES <? record_size)%N
        then eff_lift (bail "single run record exceeds 1 MiB data-page bound")
        else
          let p := partition (rec_key record) in
          let^? encoded := encode_record record in
          let^? ps := unwrap (parts !! p) in
          let^ ps := push_record record encoded ps in
          build_records records (Some (rec_version record)) (<[p := ps]> parts)
  end.

(** The loop over the partitions that flushes the last pages and leaves. *)
Fixpoint finish_partitions (parts : list PartitionState) : eff S (list PartitionState) :=
  match parts with
  | [] => eff_lift (Ok [])
  | ps :: parts =>
      let^ ps := if (ps_count ps =? 0)%N then eff_lift (Ok ps) else flush_page ps in
      let^ ps := if bool_decide (ps_leaves ps = []) then eff_lift (Ok ps) else emit_leaf ps in
      let^ parts := finish_partitions parts in
      eff_lift (Ok (ps :: parts))
  end.

(** The reference of one partition in the root. *)
Definition partition_root (entries : list Fence) : eff S ObjectRef :=
  match entries with
  | [] => eff_lift (Ok default_ref)
  | [only] => eff_lift (Ok (fence_data only))
  | _ =>
      let^? b := encode_index entries INTERNAL_MAGIC in
      let^? object := make_object b in
      let^ _ := eff_context "emit run internal fence root" (emit object) in
      eff_lift (Ok (obj_reference object))
  end.

Fixpoint partition_roots (parts : list PartitionState) : eff S (list ObjectRef) :=
  match parts with
  | [] => eff_lift (Ok [])
  | ps :: parts =>
      let^ reference := partition_root (ps_parents ps) in
      let^ references := partition_roots parts in
      eff_lift (Ok (reference :: references))
  end.

Definition root_payload (references : list ObjectRef) : bytes :=
  ROOT_MAGIC ++ [VERSION] ++ concat (map put_ref references).

(** [RunBuilder::build] *)
Definition build (records : list RunRecord) : eff S ObjectRef :=
  let^ parts := build_records records None (replicate PARTITIONS partition_start) in
  let^ parts := finish_partitions parts in
  let^ references := partition_roots parts in
  let^? root := make_object (root_payload references) in
  let^ _ := eff_context "emit run root" (emit root) in
  eff_lift (Ok (obj_reference root)).

End builder.

(** The sink of [write_sorted]: [objects.push(object); Ok(())]. *)
Definition collect_object (o : EncodedObject) : eff (list EncodedObject) unit :=
  λ objects, (Ok tt, objects ++ [o]).
