(* ===== verification/RunReader.v ===== *)
(** * [codec/src/run.rs]: [RunReader] and [RunScanner]

    Point lookup, the index walk and the ordered scan of a run: lines 166-475.
    The caller's [fetch] closure is the one request of these programs. *)

From S2P Require Import Prelude Bytes SortedLists Externals Hash RunFormat.
From Stdlib Require Import Lia.

Inductive fetchE : Type → Type :=
| Fetch (reference : ObjectRef) : fetchE (result bytes).

(** [fetch(reference).await.context(message)?] *)
Definition fetch_object (message : string) (reference : ObjectRef) : prog fetchE (result bytes) :=
  bind (request (Fetch reference)) (λ r, Ret (with_context message r)).

(** Answering every fetch from a function of the reference. *)
Definition fetch_from (f : ObjectRef → result bytes) : ∀ X, fetchE X → X :=
  λ X e, match e in fetchE X return X with Fetch r => f r end.

(** The same when every fetch succeeds; [None] when one fails. *)
Fixpoint run_ok {A} (f : ObjectRef → result bytes) (p : prog fetchE A) : option A :=
  match p with
  | Ret a => Some a
  | Vis e k =>
      match e in fetchE X return (X → option A) → option A with
      | Fetch r => λ kk, match f r with Ok b => kk (Ok b) | Err _ => None end
      end (λ x, run_ok f (k x))
  end.

(** [RunReader]: the fence reference of each partition. *)
Record RunReader := { reader_indexes : list ObjectRef }.

Section reader.
Context `{Sha256, Zstd}.

(** [RunReader::decode]: the loop over the partitions. *)
Fixpoint decode_indexes (b : bytes) (indexes : list nat) : result (list ObjectRef) :=
  match indexes with
  | [] => Ok []
  | index :: indexes =>
      let? slot := read_ref b (5 + N.of_nat index * REF_BYTES) in
      if negb (bool_decide (slot = default_ref))
         && ((ref_length slot =? 0)%N || bool_decide (ref_digest slot = zero_hash)
             || (MAX_INDEX_BYTES <? ref_length slot)%N)
      then bail "invalid run fence reference in root"
      else
        let? slots := decode_indexes b indexes in
        Ok (slot :: slots)
  end.

Definition RunReader_decode (reference : ObjectRef) (b : bytes) : result RunReader :=
  if negb (len b =? ROOT_BYTES)%N then bail "invalid run root length" else
  let? _ := verify_object reference b in
  if negb (len b =? ROOT_BYTES)%N || negb (bool_decide (take 4 b = ROOT_MAGIC))
     || negb (bool_decide (b !! 4 = Some VERSION))
  then bail "invalid run root"
  else
    let? indexes := decode_indexes b (seq 0 PARTITIONS) in
    Ok {| reader_indexes := indexes |}.

(** [RunReader::walk]: the leaves below an internal root. *)
Fixpoint walk_parents (shard : nat) (parents : list Fence) (refs : list ObjectRef)
    (leaves : list Fence) : prog fetchE (result (list ObjectRef * list Fence)) :=
  match parents with
  | [] => Ret (Ok (refs, leaves))
  | parent :: parents =>
      let!? _ := validate_index_ref (fence_data parent) in
      let! leaf := fetch_object "fetch run fence leaf" (fence_data parent) in
      let!? fences := decode_index (fence_data parent) leaf shard INDEX_MAGIC in
      walk_parents shard parents (refs ++ [fence_data parent]) (leaves ++ fences)
  end.

(** [RunReader::walk]: index objects, then data pages by partition. *)
Fixpoint walk_from (shard : nat) (indexes : list ObjectRef) (refs : list ObjectRef)
    (pages : list (list ObjectRef)) : prog fetchE (result (list ObjectRef * list (list ObjectRef))) :=
  match indexes with
  | [] => Ret (Ok (refs, pages))
  | root :: indexes =>
      if bool_decide (root = default_ref)
      then walk_from (S shard) indexes refs (pages ++ [[]])
      else
        let!? _ := validate_index_ref root in
        let refs := refs ++ [root] in
        let! b := fetch_object "fetch run fence root" root in
        let! (refs, leaves) :=
          if starts_with b INTERNAL_MAGIC
          then
            let!? parents := decode_index root b shard INTERNAL_MAGIC in
            walk_parents shard parents refs []
          else
            let!? leaves := decode_index root b shard INDEX_MAGIC in
            Ret (Ok (refs, leaves)) in
        walk_from (S shard) indexes refs (pages ++ [map fence_data leaves])
  end.
Definition walk (reader : RunReader) : prog fetchE (result (list ObjectRef * list (list ObjectRef))) :=
  walk_from 0 (reader_indexes reader) [] [].

(** [RunReader::object_refs] *)
Definition object_refs (reader : RunReader) : prog fetchE (result (list ObjectRef)) :=
  let! (refs, pages) := walk reader in
  Ret (Ok (refs ++ concat pages)).

(** [RunReader::data_pages] *)
Definition data_pages (reader : RunReader) : prog fetchE (result (list (list ObjectRef))) :=
  let! (_, pages) := walk reader in
  Ret (Ok pages).

(** [RunReader::lookup], from the fence leaf on. *)
Definition lookup_leaf (key : bytes) (block : N) (shard : nat) (leaf_ref : ObjectRef)
    (leaf_bytes : bytes) (expected_start : option (bytes * N))
    : prog fetchE (result (option bytes)) :=
  let!? fences := decode_index leaf_ref leaf_bytes shard INDEX_MAGIC in
  if match expected_start with
     | Some start => negb (bool_decide (fence_version <$> head fences = Some start))
     | None => false
     end
  then Ret (bail "run fence leaf does not match its parent entry")
  else
    match partition_point (λ fence, leb (fence_version fence) (key, block)) fences with
    | O => Ret (Ok None)
    | S position =>
        let!? fence := unwrap (fences !! position) in
        if page_ref_invalid (fence_data fence)
        then Ret (bail "run data reference exceeds the 1 MiB pre-fetch bound")
        else
          let! page_bytes := fetch_object "fetch run data page" (fence_data fence) in
          let!? records := decode_data_page (fence_data fence) page_bytes shard in
          if negb (bool_decide (rec_version <$> head records = Some (fence_version fence)))
          then Ret (bail "run data page does not match its exact fence")
          else
            match partition_point (λ record, leb (rec_version record) (key, block)) records with
            | O => Ret (Ok None)
            | S upper =>
                let!? candidate := unwrap (records !! upper) in
                if bool_decide (rec_key candidate = key)
                then Ret (Ok (Some (rec_value candidate)))
                else Ret (Ok None)
            end
    end.

(** [RunReader::lookup] *)
Definition RunReader_lookup (reader : RunReader) (key : bytes) (block : N)
    : prog fetchE (result (option bytes)) :=
  if bool_decide (key = []) then Ret (Ok None) else
  let shard := partition key in
  let!? root_ref := unwrap (reader_indexes reader !! shard) in
  if bool_decide (root_ref = default_ref) then Ret (Ok None) else
  let!? _ := validate_index_ref root_ref in
  let! root_bytes := fetch_object "fetch run fence root" root_ref in
  if starts_with root_bytes INTERNAL_MAGIC then
    let!? parents := decode_index root_ref root_bytes shard INTERNAL_MAGIC in
    match partition_point (λ entry, leb (fence_version entry) (key, block)) parents with
    | O => Ret (Ok None)
    | S position =>
        let!? entry := unwrap (parents !! position) in
        let!? _ := validate_index_ref (fence_data entry) in
        let! b := fetch_object "fetch run fence leaf" (fence_data entry) in
        lookup_leaf key block shard (fence_data entry) b (Some (fence_version entry))
    end
  else lookup_leaf key block shard root_ref root_bytes None.

(** ** [PartitionCursor] and [RunScanner] *)

Record PartitionCursor := {
  cur_root : ObjectRef;
  cur_initialized : bool;
  cur_parents : list Fence;
  cur_parent_pos : nat;
  cur_leaf : list Fence;
  cur_fence_pos : nat;
  cur_page : list RunRecord;
  cur_previous : option (bytes * N);
  cur_previous_fence : option (bytes * N)
}.

(** [PartitionCursor::new] *)
Definition PartitionCursor_new (root : ObjectRef) : PartitionCursor :=
  {| cur_root := root; cur_initialized := false; cur_parents := []; cur_parent_pos := 0;
     cur_leaf := []; cur_fence_pos := 0; cur_page := [];
     cur_previous := None; cur_previous_fence := None |}.

(** [ready], when [self.fence_pos == self.leaf.len()]: the next fence leaf.
    The flag is false when the parents are exhausted. *)
Definition load_leaf (shard : nat) (c : PartitionCursor)
    : prog fetchE (result (PartitionCursor * bool)) :=
  if (cur_fence_pos c =? length (cur_leaf c))%nat then
    match cur_parents c !! cur_parent_pos c with
    | None =>
        Ret (Ok ({| cur_root := cur_root c; cur_initialized := cur_initialized c;
                    cur_parents := cur_parents c; cur_parent_pos := cur_parent_pos c;
                    cur_leaf := []; cur_fence_pos := 0; cur_page := cur_page c;
                    cur_previous := cur_previous c;
                    cur_previous_fence := cur_previous_fence c |}, false))
    | Some parent =>
        let!? _ := validate_index_ref (fence_data parent) in
        let! b := fetch_object "fetch run fence leaf" (fence_data parent) in
        let!? leaf := decode_index (fence_data parent) b shard INDEX_MAGIC in
        if negb (bool_decide (fence_version <$> head leaf = Some (fence_version parent)))
        then Ret (bail "run fence leaf does not match its parent entry")
        else
          Ret (Ok ({| cur_root := cur_root c; cur_initialized := cur_initialized c;
                      cur_parents := cur_parents c; cur_parent_pos := S (cur_parent_pos c);
                      cur_leaf := leaf; cur_fence_pos := 0; cur_page := cur_page c;
                      cur_previous := cur_previous c;
                      cur_previous_fence := cur_previous_fence c |}, true))
    end
  else Ret (Ok (c, true)).

(** [ready], from [let fence = &self.leaf[self.fence_pos]]: the next page. *)
Definition load_page (shard : nat) (c : PartitionCursor) : prog fetchE (result PartitionCursor) :=
  let!? fence := match cur_leaf c !! cur_fence_pos c with
                 | Some fence => Ok fence
                 | None => Err (Panic "index out of bounds")
                 end in
  let start := fence_version fence in
  if not_above (cur_previous_fence c) start
  then Ret (bail "run fence pages are not strictly ordered")
  else if page_ref_invalid (fence_data fence)
  then Ret (bail "run data reference exceeds the 1 MiB pre-fetch bound")
  else
    let! b := fetch_object "fetch run data page" (fence_data fence) in
    let!? records := decode_data_page (fence_data fence) b shard in
    let!? first := match head records with
                   | Some first => Ok first
                   | None => Err (Panic "index out of bounds")
                   end in
    if negb (bool_decide (rec_version first = start))
    then Ret (bail "run data page does not match its exact fence")
    else if not_above (cur_previous c) start
    then Ret (bail "run data pages are not strictly ordered")
    else
      Ret (Ok {| cur_root := cur_root c; cur_initialized := cur_initialized c;
                 cur_parents := cur_parents c; cur_parent_pos := cur_parent_pos c;
                 cur_leaf := cur_leaf c; cur_fence_pos := S (cur_fence_pos c);
                 cur_page := records; cur_previous := cur_previous c;
                 cur_previous_fence := Some start |}).

(** The [loop] of [ready].  A loaded page is not empty, so the second turn
    returns and two turns are enough. *)
Fixpoint ready_loop (fuel : nat) (shard : nat) (c : PartitionCursor)
    : prog fetchE (result PartitionCursor) :=
  match fuel with
  | O => Ret (Err (Panic "out of fuel"))
  | S fuel =>
      if negb (bool_decide (cur_page c = [])) then Ret (Ok c) else
      let! (c, more) := load_leaf shard c in
      if negb more then Ret (Ok c) else
      let! c := load_page shard c in
      ready_loop fuel shard c
  end.

(** [PartitionCursor::ready], the [!self.initialized] branch. *)
Definition initialize_cursor (shard : nat) (c : PartitionCursor)
    : prog fetchE (result (PartitionCursor * bool)) :=
  if cur_initialized c then Ret (Ok (c, true)) else
  let initialized parents leaf :=
    {| cur_root := cur_root c; cur_initialized := true;
       cur_parents := parents; cur_parent_pos := cur_parent_pos c;
       cur_leaf := leaf; cur_fence_pos := cur_fence_pos c; cur_page := cur_page c;
       cur_previous := cur_previous c; cur_previous_fence := cur_previous_fence c |} in
  if bool_decide (cur_root c = default_ref)
  then Ret (Ok (initialized (cur_parents c) (cur_leaf c), false))
  else
    let!? _ := validate_index_ref (cur_root c) in
    let! b := fetch_object "fetch run fence root" (cur_root c) in
    if starts_with b INTERNAL_MAGIC then
      let!? parents := decode_index (cur_root c) b shard INTERNAL_MAGIC in
      Ret (Ok (initialized parents (cur_leaf c), true))
    else
      let!? leaf := decode_index (cur_root c) b shard INDEX_MAGIC in
      Ret (Ok (initialized (cur_parents c) leaf, true)).

(** [PartitionCursor::ready].  On an error the scanner is marked failed and
    never reads the cursor again, so the error carries no cursor. *)
Definition PartitionCursor_ready (shard : nat) (c : PartitionCursor)
    : prog fetchE (result PartitionCursor) :=
  let! (c, continue) := initialize_cursor shard c in
  if negb continue then Ret (Ok c) else ready_loop 2 shard c.

Record RunScanner := { scan_cursors : list PartitionCursor; scan_failed : bool }.

(** [RunReader::scanner] *)
Definition scanner (reader : RunReader) : RunScanner :=
  {| scan_cursors := map PartitionCursor_new (reader_indexes reader); scan_failed := false |}.

(** [next]: the loop that makes every cursor ready. *)
Fixpoint ready_all (shard : nat) (cursors : list PartitionCursor)
    : prog fetchE (result (list PartitionCursor)) :=
  match cursors with
  | [] => Ret (Ok [])
  | c :: cursors =>
      let! c := PartitionCursor_ready shard c in
      let! cursors := ready_all (S shard) cursors in
      Ret (Ok (c :: cursors))
  end.

(** [filter_map(front).min_by(cmp)]: the first cursor whose front record has
    the least [(key, block)]. *)
Fixpoint min_front (shard : nat) (cursors : list PartitionCursor) : option (nat * RunRecord) :=
  match cursors with
  | [] => None
  | c :: cursors =>
      match head (cur_page c), min_front (S shard) cursors with
      | None, best => best
      | Some r, None => Some (shard, r)
      | Some r, Some (i, s) =>
          if leb (rec_version r) (rec_version s) then Some (shard, r) else Some (i, s)
      end
  end.

(** [page.pop_front()] and the update of [previous]. *)
Definition pop_front (c : PartitionCursor) (record : RunRecord) : PartitionCursor :=
  {| cur_root := cur_root c; cur_initialized := cur_initialized c;
     cur_parents := cur_parents c; cur_parent_pos := cur_parent_pos c;
     cur_leaf := cur_leaf c; cur_fence_pos := cur_fence_pos c; cur_page := tail (cur_page c);
     cur_previous := Some (rec_version record); cur_previous_fence := cur_previous_fence c |}.

(** [RunScanner::next] *)
Definition RunScanner_next (s : RunScanner) : prog fetchE (RunScanner * result (option RunRecord)) :=
  if scan_failed s
  then Ret (s, bail "run scanner is invalid after a failed read")
  else
    let* ready := ready_all 0 (scan_cursors s) in
    match ready with
    | Err e => Ret ({| scan_cursors := scan_cursors s; scan_failed := true |}, Err e)
    | Ok cursors =>
        match min_front 0 cursors with
        | None => Ret ({| scan_cursors := cursors; scan_failed := false |}, Ok None)
        | Some (shard, record) =>
            Ret ({| scan_cursors := alter (λ c, pop_front c record) shard cursors;
                    scan_failed := false |}, Ok (Some record))
        end
    end.

End reader.

Lemma run_ok_bind {A B} f (p : prog fetchE A) (k : A → prog fetchE B) :
  run_ok f (bind p k) = match run_ok f p with Some a => run_ok f (k a) | None => None end.
Proof.
  induction p as [a|X e k' IH]; [done|]. destruct e as [r]. simpl. destruct (f r); [apply IH|done].
Qed.

Lemma run_ok_pure {A} f (p : prog fetchE A) a : run_ok f p = Some a → run_pure (fetch_from f) p = a.
Proof.
  induction p as [b|X e k IH]; [by intros [= ->]|]. destruct e as [r]. simpl.
  destruct (f r) as [b|]; [apply IH|done].
Qed.
