(* ===== verification/RunRep.v ===== *)
(** * What a run represents, and that the readers read it

    [part_rep f p ref rs]: with objects answered by [f], the fence tree below
    [ref] holds exactly the records [rs] of partition [p].  [run_rep] does the
    same for all partitions of a run.  Lookup and scan are proved against
    these relations; [RunBuild] establishes them for built runs. *)

From S2P Require Import Prelude Bytes SortedLists Externals Hash RunFormat RunFormatFacts RunReader.
From Stdlib Require Import Lia Sorting.Sorted.

(** The specification of a point lookup: the value of the newest version of
    [key] at or before [block]. *)
Definition state_at (rs : list RunRecord) (key : bytes) (block : N) : option bytes :=
  rec_value <$> last (filter (λ r, rec_key r = key ∧ (rec_block r <= block)%N) rs).

Section rep.
Context `{Sha256, Zstd} (f : ObjectRef → result bytes).

Definition page_rep (shard : nat) (reference : ObjectRef) (rs : list RunRecord) : Prop :=
  page_ref_invalid reference = false ∧
  ∃ b, f reference = Ok b ∧ decode_data_page reference b shard = Ok rs.

Definition fence_rep (shard : nat) (fence : Fence) (rs : list RunRecord) : Prop :=
  page_rep shard (fence_data fence) rs ∧ rec_version <$> head rs = Some (fence_version fence).

Definition leaf_bytes_rep (shard : nat) (reference : ObjectRef) (b : bytes)
    (chunks : list (list RunRecord)) : Prop :=
  ∃ fences, decode_index reference b shard INDEX_MAGIC = Ok fences ∧
    Forall2 (fence_rep shard) fences chunks.

Definition leaf_rep (shard : nat) (reference : ObjectRef) (chunks : list (list RunRecord)) : Prop :=
  validate_index_ref reference = Ok tt ∧
  ∃ b, f reference = Ok b ∧ starts_with b INTERNAL_MAGIC = false ∧ leaf_bytes_rep shard reference b chunks.

Definition parent_rep (shard : nat) (entry : Fence) (chunks : list (list RunRecord)) : Prop :=
  leaf_rep shard (fence_data entry) chunks ∧
  rec_version <$> head (concat chunks) = Some (fence_version entry).

Inductive part_rep (shard : nat) : ObjectRef → list RunRecord → Prop :=
| rep_empty : part_rep shard default_ref []
| rep_leaf reference chunks :
    leaf_rep shard reference chunks → sorted_by rec_version (concat chunks) →
    part_rep shard reference (concat chunks)
| rep_internal reference b parents leaves :
    validate_index_ref reference = Ok tt → f reference = Ok b →
    starts_with b INTERNAL_MAGIC = true →
    decode_index reference b shard INTERNAL_MAGIC = Ok parents →
    Forall2 (parent_rep shard) parents leaves →
    sorted_by rec_version (concat (concat leaves)) →
    part_rep shard reference (concat (concat leaves)).

(** The records routed to partition [p]. *)
Definition routed_to (p : nat) (rs : list RunRecord) : list RunRecord :=
  filter (λ r, partition (rec_key r) = p) rs.

Record run_rep (reader : RunReader) (rs : list RunRecord) : Prop := {
  rep_length : length (reader_indexes reader) = PARTITIONS;
  rep_sorted : sorted_by rec_version rs;
  rep_keys : Forall (λ r, rec_key r ≠ []) rs;
  rep_parts p reference :
    reader_indexes reader !! p = Some reference → part_rep p reference (routed_to p rs)
}.

(** ** Lookup *)

Lemma partition_lt key : partition key < PARTITIONS.
Proof.
  unfold partition, PARTITIONS. pose proof (byte_N_lt (hd Byte.x00 (arr (digest key)))) as Hb.
  rewrite N.shiftr_div_pow2. change (2 ^ 4)%N with 16%N.
  assert (byte_N (hd Byte.x00 (arr (digest key))) / 16 < 16)%N
    by (apply N.Div0.div_lt_upper_bound; lia). lia.
Qed.

(** Lookup by predecessor in the sorted list. *)
Definition predecessor_value (rs : list RunRecord) (key : bytes) (block : N) : option bytes :=
  match predecessor rec_version (key, block) rs with
  | Some r => if bool_decide (rec_key r = key) then Some (rec_value r) else None
  | None => None
  end.

Lemma version_le r key block :
  cle (rec_version r) (key, block) ↔
  clt (rec_key r) key ∨ (rec_key r = key ∧ (rec_block r <= block)%N).
Proof.
  rewrite <-N_cle. unfold cle, clt. change (cmp (rec_version r) (key, block))
    with (match cmp (rec_key r) key with Eq => cmp (rec_block r) block | c => c end).
  destruct (cmp (rec_key r) key) eqn:E.
  - apply cmp_eq in E. naive_solver.
  - naive_solver.
  - split; [done|]. intros [?|[E' _]]; [done|]. rewrite E', cmp_refl in E. done.
Qed.

(** In a sorted list the versions of [key] up to [block] are the last ones
    below [(key, block)]. *)
Lemma predecessor_state_at rs key block :
  sorted_by rec_version rs → predecessor_value rs key block = state_at rs key block.
Proof.
  intros Hs. unfold predecessor_value, state_at.
  induction rs as [|r rs IH] using rev_ind; [done|].
  apply sorted_app in Hs as (Hs & _ & Hlt). specialize (IH Hs).
  unfold predecessor in *.
  destruct (decide (cle (rec_version r) (key, block))) as [Hle|Hle].
  - rewrite (filter_snoc_True (λ x, leb (rec_version x) (key, block) = true))
      by (by apply leb_spec). rewrite last_snoc.
    destruct (decide (rec_key r = key)) as [Hk|Hk].
    + rewrite bool_decide_eq_true_2 by done.
      apply version_le in Hle as [Hle|[_ Hle]];
        [rewrite Hk in Hle; by apply clt_irrefl in Hle|].
      rewrite filter_snoc_True by done. by rewrite last_snoc.
    + rewrite bool_decide_eq_false_2 by done.
      rewrite filter_snoc_False by naive_solver. rewrite filter_none; [done|].
      intros x Hx [Hxk _]. apply version_le in Hle as [Hle|[? _]]; [|done].
      assert (clt (rec_version x) (rec_version r)) as Hxr by (apply Hlt; set_solver).
      apply clt_not_cle in Hxr. apply Hxr, version_le. left. by rewrite Hxk.
  - rewrite (filter_snoc_False (λ x, leb (rec_version x) (key, block) = true))
      by (by rewrite leb_spec).
    rewrite filter_snoc_False; [done|].
    intros Hx. apply Hle, version_le. by right.
Qed.

Lemma state_at_routed p rs key block :
  partition key = p → state_at (routed_to p rs) key block = state_at rs key block.
Proof.
  intros Hp. unfold state_at, routed_to. rewrite list_filter_filter. do 2 f_equal.
  apply list_filter_iff. intros r. split; [naive_solver|]. intros [Hk Hb]. by rewrite Hk.
Qed.

Lemma fence_rep_head shard fence chunk :
  fence_rep shard fence chunk →
  ∃ x, head chunk = Some x ∧ fence_version fence = rec_version x.
Proof. intros [_ Hh]. apply fmap_Some in Hh as (x & Hx & E). eauto. Qed.

Lemma fences_heads shard fences chunks :
  Forall2 (fence_rep shard) fences chunks →
  Forall2 (λ g c, ∃ x, head c = Some x ∧ fence_version g = rec_version x) fences chunks.
Proof. intros HF. eapply Forall2_impl; [exact HF|]. apply fence_rep_head. Qed.

Lemma decode_data_page_sorted reference b shard rs :
  decode_data_page reference b shard = Ok rs →
  sorted_by rec_version rs ∧ rs ≠ [] ∧ Forall wf_record rs ∧
  Forall (λ r, partition (rec_key r) = shard) rs.
Proof.
  unfold decode_data_page. destruct (decode_compressed _ _ _) as [page|]; [|done].
  intros (_ & ? & _ & _ & ? & ? & ?)%parse_data_payload_iff. done.
Qed.

(** The first version of a leaf's fences is that of its first chunk. *)
Lemma leaf_first shard reference b chunks fences :
  decode_index reference b shard INDEX_MAGIC = Ok fences →
  Forall2 (fence_rep shard) fences chunks →
  fence_version <$> head fences = rec_version <$> head (concat chunks).
Proof.
  intros (_ & _ & Hne & _)%decode_index_iff; [|done]. intros HF.
  destruct HF as [|g c fences chunks Hg HF]; [done|]. apply fence_rep_head in Hg as (x & Hx & E).
  destruct c; [done|]. injection Hx as ->. simpl. by rewrite E.
Qed.

Lemma lookup_leaf_rep key block shard reference b chunks start :
  leaf_bytes_rep shard reference b chunks → sorted_by rec_version (concat chunks) →
  (∀ v, start = Some v → rec_version <$> head (concat chunks) = Some v) →
  run_pure (fetch_from f) (lookup_leaf key block shard reference b start)
  = Ok (predecessor_value (concat chunks) key block).
Proof.
  intros (fences & Hd & HF) Hs Hstart. unfold lookup_leaf. rewrite Hd.
  pose proof (leaf_first _ _ _ _ _ Hd HF) as Hfirst.
  assert (match start with
    | Some v => negb (bool_decide (fence_version <$> head fences = Some v)) | None => false end
    = false) as ->.
  { destruct start as [v|]; [|done]. rewrite Hfirst, (Hstart v) by done.
    by rewrite bool_decide_eq_true_2. }
  pose proof (descend rec_version fence_version fences chunks (key, block) Hs
    (fences_heads _ _ _ HF)) as Hdesc. unfold predecessor_value.
  destruct (partition_point _ fences) as [|i] eqn:Ep; simpl; [by rewrite Hdesc|].
  destruct Hdesc as (chunk & Hc & ->).
  destruct (Forall2_lookup_r _ _ _ _ _ HF Hc) as (fence & Hfi & [[Hinv (pb & Hf & Hpd)] Hh]).
  rewrite Hfi. simpl. rewrite Hinv. simpl. rewrite Hf. simpl. rewrite Hpd.
  rewrite bool_decide_eq_true_2 by done. simpl.
  apply decode_data_page_sorted in Hpd as (Hcs & _).
  pose proof (partition_point_pred rec_version chunk (key, block) Hcs) as Hpp.
  destruct (partition_point _ chunk) as [|u]; [by rewrite Hpp|].
  destruct Hpp as (x & Hx & ->). rewrite Hx. simpl. by case_bool_decide.
Qed.

Lemma validate_not_default reference : validate_index_ref reference = Ok tt → reference ≠ default_ref.
Proof. intros Hv ->. done. Qed.

(** Lookup in a partition. *)
Lemma lookup_rep reader rs key block :
  run_rep reader rs →
  run_pure (fetch_from f) (RunReader_lookup reader key block) = Ok (state_at rs key block).
Proof.
  intros [Hlen Hs Hkeys Hparts]. unfold RunReader_lookup. case_bool_decide as Hk.
  { subst key. simpl. unfold state_at. rewrite filter_none; [done|].
    intros r Hr [Hrk _]. by apply (proj1 (Forall_forall _ _) Hkeys r Hr). }
  destruct (lookup_lt_is_Some_2 (reader_indexes reader) (partition key)) as [ref Href].
  { rewrite Hlen. apply partition_lt. }
  rewrite Href. cbn [unwrap]. specialize (Hparts _ _ Href).
  rewrite <-(state_at_routed (partition key)), <-predecessor_state_at
    by (try done; by apply sorted_filter).
  assert (sorted_by rec_version (routed_to (partition key) rs)) as Hsr by (by apply sorted_filter).
  destruct Hparts as [|ref chunks (Hv & b & Hf & Hm & Hb) Hsc
                      |ref b parents leaves Hv Hf Hm Hd HF Hsc].
  - by rewrite bool_decide_eq_true_2.
  - rewrite bool_decide_eq_false_2 by (by apply validate_not_default).
    rewrite Hv. simpl. rewrite Hf. simpl. rewrite Hm. by apply lookup_leaf_rep.
  - rewrite bool_decide_eq_false_2 by (by apply validate_not_default).
    rewrite Hv. simpl. rewrite Hf. simpl. rewrite Hm, Hd.
    rewrite concat_concat in Hsc |- *.
    pose proof (descend rec_version fence_version parents (map (@concat _) leaves) (key, block) Hsc)
      as Hdesc. ospecialize (Hdesc _).
    { apply Forall2_fmap_r. eapply Forall2_impl; [exact HF|].
      intros g c [_ Hh]. apply fmap_Some in Hh as (x & Hx & E). eauto. }
    unfold predecessor_value.
    destruct (partition_point _ parents) as [|i] eqn:Ep; simpl; [by rewrite Hdesc|].
    destruct Hdesc as (c & Hc & ->). apply list_lookup_fmap_Some in Hc as (chunks & -> & Hc).
    destruct (Forall2_lookup_r _ _ _ _ _ HF Hc) as (entry & He & [(Hve & lb & Hlf & _ & Hl) Hh]).
    rewrite He. simpl. rewrite Hve. simpl. rewrite Hlf. simpl.
    rewrite (lookup_leaf_rep _ _ _ _ _ chunks); [done|done| |by intros v [= <-]].
    rewrite <-concat_concat in Hsc. clear -Hsc Hc. apply list_elem_of_split_length in Hc as (l1 & l2 & -> & _).
    rewrite concat_app, concat_app in Hsc. apply sorted_app in Hsc as (_ & Hsc & _).
    simpl in Hsc. rewrite concat_app in Hsc. by apply sorted_app in Hsc as (Hsc & _).
Qed.

End rep.

(** A store that answers more keeps every run. *)
Section mono.
Context `{Sha256, Zstd} (f g : ObjectRef → result bytes).
Context (Hfg : ∀ r b, f r = Ok b → g r = Ok b).

Lemma fence_rep_mono shard fence rs : fence_rep f shard fence rs → fence_rep g shard fence rs.
Proof. intros [[Hi (b & Hf & Hd)] Hh]. split; [|done]. split; [done|]. eauto. Qed.
Lemma fences_rep_mono shard fences chunks :
  Forall2 (fence_rep f shard) fences chunks → Forall2 (fence_rep g shard) fences chunks.
Proof. intros HF. eapply Forall2_impl; [exact HF|]. apply fence_rep_mono. Qed.
Lemma leaf_rep_mono shard reference chunks : leaf_rep f shard reference chunks → leaf_rep g shard reference chunks.
Proof.
  intros (Hv & b & Hf & Hm & fences & Hd & HF). split; [done|]. exists b. split_and!; [eauto|done|].
  exists fences. split; [done|]. by apply fences_rep_mono.
Qed.
Lemma part_rep_mono shard reference rs : part_rep f shard reference rs → part_rep g shard reference rs.
Proof.
  intros [|ref chunks Hl Hs|ref b parents leaves Hv Hf Hm Hd HF Hs]; [constructor| |].
  - apply rep_leaf; [by apply leaf_rep_mono|done].
  - eapply rep_internal; eauto. eapply Forall2_impl; [exact HF|].
    intros entry chunks [Hl Hh]. split; [by apply leaf_rep_mono|done].
Qed.
Lemma run_rep_mono reader rs : run_rep f reader rs → run_rep g reader rs.
Proof. intros [Hl Hs Hk Hp]. split; try done. intros p r Hr. by apply part_rep_mono, Hp. Qed.

End mono.
