(* ===== verification/RunScan.v ===== *)
(** * The ordered scan of a run

    [RunScanner] keeps one cursor per partition.  [cursor_rep] says which
    records a cursor has yet to deliver; making a cursor ready loads its next
    page and changes no record, and [RunScanner_next] removes exactly the
    least record of all partitions. *)

From S2P Require Import Prelude Bytes SortedLists Externals Hash RunFormat RunFormatFacts RunReader RunRep.
From Stdlib Require Import Lia Sorting.Sorted.

(** The results of [n] calls of [next]. *)
Fixpoint scan_steps `{Sha256, Zstd} (n : nat) (s : RunScanner) : prog fetchE (list (result (option RunRecord))) :=
  match n with
  | O => Ret []
  | S n =>
      let* (s, r) := RunScanner_next s in
      let* rest := scan_steps n s in
      Ret (r :: rest)
  end.

Section scan.
Context `{Sha256, Zstd} (f : ObjectRef → result bytes).
Abbreviation run := (run_ok f).

(** ** Cursors *)

(** Every bound the cursor remembers lies below the records to come. *)
Definition below (v : option (bytes * N)) (rs : list RunRecord) : Prop :=
  ∀ p r, v = Some p → r ∈ rs → clt p (rec_version r).

(** An initialised cursor: its page, the unread fences of its leaf with the
    pages below them, and the unread parents with their leaves. *)
Record cursor_open (shard : nat) (c : PartitionCursor) (chunks : list (list RunRecord))
    (leaves : list (list (list RunRecord))) : Prop := {
  open_initialized : cur_initialized c = true;
  open_pos : cur_fence_pos c ≤ length (cur_leaf c);
  open_fences : Forall2 (fence_rep f shard) (drop (cur_fence_pos c) (cur_leaf c)) chunks;
  open_parents : Forall2 (parent_rep f shard) (drop (cur_parent_pos c) (cur_parents c)) leaves;
  open_sorted : sorted_by rec_version (cur_page c ++ concat chunks ++ concat (concat leaves));
  open_previous : below (cur_previous c) (cur_page c ++ concat chunks ++ concat (concat leaves));
  open_previous_fence : below (cur_previous_fence c) (concat chunks ++ concat (concat leaves))
}.

Definition cursor_opened (shard : nat) (c : PartitionCursor) (rs : list RunRecord) : Prop :=
  ∃ chunks leaves, cursor_open shard c chunks leaves ∧
    rs = cur_page c ++ concat chunks ++ concat (concat leaves).

Definition cursor_rep (shard : nat) (c : PartitionCursor) (rs : list RunRecord) : Prop :=
  cursor_opened shard c rs ∨
  (∃ root, c = PartitionCursor_new root ∧ part_rep f shard root rs).

(** A ready cursor shows its first record. *)
Definition cursor_ready (shard : nat) (c : PartitionCursor) (rs : list RunRecord) : Prop :=
  cursor_opened shard c rs ∧ head (cur_page c) = head rs.

Lemma not_above_below v rs r :
  below v rs → r ∈ rs → not_above v (rec_version r) = false.
Proof. intros Hb Hr. apply not_above_false. intros p Hp. by apply (Hb p r). Qed.

Lemma fence_chunk_head shard fence chunk :
  fence_rep f shard fence chunk → ∃ x rest, chunk = x :: rest ∧ fence_version fence = rec_version x.
Proof.
  intros (x & Hx & E)%fence_rep_head. destruct chunk as [|y rest]; [done|].
  injection Hx as ->. eauto.
Qed.

(** Loading the page of the next fence. *)
Lemma load_page_rep shard c chunk chunks leaves :
  cursor_open shard c (chunk :: chunks) leaves → cur_page c = [] →
  ∃ c', run (load_page shard c) = Some (Ok c') ∧ cursor_open shard c' chunks leaves ∧ cur_page c' = chunk
    ∧ chunk ≠ [].
Proof.
  intros [Hi Hpos HF HP Hs Hprev Hpf] Hpage. unfold load_page.
  inversion HF as [|fence ? fences ? Hf HF' Ed]; subst.
  assert (cur_leaf c !! cur_fence_pos c = Some fence) as Hl.
  { rewrite <-(Nat.add_0_r (cur_fence_pos c)), <-lookup_drop, <-Ed. done. }
  rewrite Hl. rewrite Hpage in *. simpl in Hs, Hprev, Hpf.
  destruct (fence_chunk_head _ _ _ Hf) as (x & rest & -> & Ex).
  destruct Hf as [[Hinv (b & Hfetch & Hd)] _].
  rewrite Ex, (not_above_below _ _ _ Hpf) by set_solver.
  rewrite Hinv. simpl. rewrite Hfetch. simpl. rewrite Hd. simpl.
  rewrite bool_decide_eq_true_2 by done. simpl.
  rewrite (not_above_below _ _ _ Hprev) by set_solver. simpl.
  eexists. split; [done|]. split_and!; [|done|done].
  split; simpl; try done.
  - by apply lookup_lt_Some in Hl.
  - assert (drop (S (cur_fence_pos c)) (cur_leaf c) = fences) as ->; [|done].
    rewrite (drop_S _ fence) in Ed by done. by injection Ed as <-.
  - by rewrite <-app_assoc in Hs.
  - by rewrite <-app_assoc in Hprev.
  - intros p r [= <-] Hr. rewrite <-app_assoc in Hs. cbn [app] in Hs.
    apply sorted_cons in Hs as [_ Hs]. apply Hs. set_solver.
Qed.

(** Loading the next leaf when the current one is used up. *)
Lemma load_leaf_rep shard c chunks leaves :
  cursor_open shard c chunks leaves → cur_page c = [] →
  ∃ c' more chunks' leaves', run (load_leaf shard c) = Some (Ok (c', more)) ∧
    cursor_open shard c' chunks' leaves' ∧ cur_page c' = [] ∧
    concat chunks' ++ concat (concat leaves') = concat chunks ++ concat (concat leaves) ∧
    (if more then chunks' ≠ [] else chunks' = [] ∧ leaves' = []).
Proof.
  intros Ho Hpage. pose proof Ho as [Hi Hpos HF HP Hs Hprev Hpf]. unfold load_leaf.
  destruct (_ =? _)%nat eqn:E.
  - apply Nat.eqb_eq in E. rewrite drop_ge in HF by lia. apply Forall2_nil_inv_l in HF as ->.
    destruct (cur_parents c !! cur_parent_pos c) as [parent|] eqn:Ep; simpl.
    + rewrite (drop_S _ parent) in HP by done.
      apply Forall2_cons_inv_l in HP as (chunks & leaves' & [(Hv & b & Hfetch & _ & fences & Hd & HF) Hh] & HP & ->).
      rewrite Hv. simpl. rewrite Hfetch. simpl. rewrite Hd. simpl.
      rewrite (leaf_first f _ _ _ _ _ Hd HF), Hh, bool_decide_eq_true_2 by done. simpl.
      eexists _, true, chunks, leaves'. split; [done|].
      cbn [concat] in *. rewrite concat_app in *. rewrite Hpage in *. simpl in *.
      split_and!; [|done|done|].
      * split; simpl; rewrite ?Hpage; try done. lia.
      * intros ->. apply decode_index_iff in Hd as (_ & _ & ? & _); [|done].
        by apply Forall2_nil_inv_r in HF.
    + apply lookup_ge_None in Ep. rewrite drop_ge in HP by done.
      apply Forall2_nil_inv_l in HP as ->.
      eexists _, false, [], []. split; [done|]. split_and!; try done.
      split; simpl; try done. by rewrite drop_ge.
  - apply Nat.eqb_neq in E. eexists c, true, chunks, leaves. split_and!; try done.
    intros ->. apply Forall2_nil_inv_r in HF. apply (f_equal length) in HF.
    rewrite length_drop in HF. simpl in HF. lia.
Qed.

(** The loop of [ready] reaches a record, or the end, in two turns. *)
Lemma ready_loop_rep shard c rs :
  cursor_opened shard c rs → ∃ c', run (ready_loop 2 shard c) = Some (Ok c') ∧ cursor_ready shard c' rs.
Proof.
  intros (chunks & leaves & Ho & ->). cbn [ready_loop].
  destruct (cur_page c) as [|r page] eqn:Epage; simpl.
  - destruct (load_leaf_rep _ _ _ _ Ho Epage) as (c1 & more & chunks1 & leaves1 & E1 & Ho1 & Hp1 & Hc1 & Hm).
    rewrite run_ok_bind, E1. destruct more; simpl.
    + destruct chunks1 as [|chunk chunks1]; [done|].
      destruct (load_page_rep _ _ _ _ _ Ho1 Hp1) as (c2 & E2 & Ho2 & Hp2 & Hne).
      rewrite run_ok_bind, E2, Hp2. rewrite bool_decide_eq_false_2 by done. simpl.
      eexists. split; [done|]. rewrite <-Hc1, <-Hp2. cbn [concat]. rewrite <-app_assoc.
      split; [by exists chunks1, leaves1|]. rewrite Hp2. by destruct chunk.
    + destruct Hm as [-> ->]. eexists. split; [done|]. rewrite <-Hc1. simpl.
      split; [|by rewrite Hp1]. exists [], []. split; [done|]. by rewrite Hp1.
  - eexists. split; [done|]. split; [|by rewrite Epage].
    exists chunks, leaves. split; [done|]. by rewrite Epage.
Qed.

#[local] Arguments ready_loop : simpl never.

Lemma opened_leaf shard (root : ObjectRef) fences chunks parents leaves :
  Forall2 (fence_rep f shard) fences chunks → Forall2 (parent_rep f shard) parents leaves →
  sorted_by rec_version (concat chunks ++ concat (concat leaves)) →
  cursor_opened shard
    {| cur_root := root; cur_initialized := true; cur_parents := parents; cur_parent_pos := 0;
       cur_leaf := fences; cur_fence_pos := 0; cur_page := [];
       cur_previous := None; cur_previous_fence := None |}
    (concat chunks ++ concat (concat leaves)).
Proof. intros. exists chunks, leaves. split; [|done]. split; simpl; try done. lia. Qed.

(** [ready] shows the first record of the partition and loses none. *)
Lemma ready_rep shard c rs :
  cursor_rep shard c rs →
  ∃ c', run (PartitionCursor_ready shard c) = Some (Ok c') ∧ cursor_ready shard c' rs.
Proof.
  unfold PartitionCursor_ready. intros [Ho|(root & -> & Hp)].
  { pose proof Ho as (chunks & leaves & [Hi _ _ _ _ _ _] & _). unfold initialize_cursor.
    rewrite Hi. simpl. by apply ready_loop_rep. }
  unfold initialize_cursor. simpl.
  destruct Hp as [|ref chunks (Hv & b & Hf & Hm & fences & Hd & HF) Hs
                  |ref b parents leaves Hv Hf Hm Hd HF Hs].
  - rewrite bool_decide_eq_true_2 by done. simpl. eexists. split; [done|].
    split; [|done]. apply (opened_leaf shard default_ref [] [] [] []); try done. constructor.
  - rewrite bool_decide_eq_false_2 by (by apply validate_not_default).
    rewrite Hv. simpl. rewrite Hf. simpl. rewrite Hm, Hd. cbn [bind negb].
    apply ready_loop_rep. rewrite <-(app_nil_r (concat chunks)).
    by apply (opened_leaf shard ref fences chunks [] []); simpl; rewrite ?app_nil_r.
  - rewrite bool_decide_eq_false_2 by (by apply validate_not_default).
    rewrite Hv. simpl. rewrite Hf. simpl. rewrite Hm, Hd. cbn [bind negb].
    apply ready_loop_rep. by apply (opened_leaf shard ref [] [] parents leaves).
Qed.

(** Popping the front record. *)
Lemma pop_front_rep shard c r rs :
  cursor_ready shard c (r :: rs) → cursor_rep shard (pop_front c r) rs.
Proof.
  intros [(chunks & leaves & [Hi Hpos HF HP Hs Hprev Hpf] & E) Hh]. left.
  destruct (cur_page c) as [|x page] eqn:Epage; [done|]. injection E as -> ->.
  exists chunks, leaves. split; [|by simpl; rewrite Epage].
  apply sorted_cons in Hs as [Hs Hlt].
  split; simpl; rewrite ?Epage; simpl; try done.
  intros p y [= <-] Hy. by apply Hlt.
Qed.

(** ** The scanner *)

Lemma ready_all_rep shard cursors rs :
  (∀ i c, cursors !! i = Some c → cursor_rep (shard + i) c (routed_to (shard + i) rs)) →
  ∃ cursors', run (ready_all shard cursors) = Some (Ok cursors') ∧ length cursors' = length cursors ∧
    ∀ i c, cursors' !! i = Some c → cursor_ready (shard + i) c (routed_to (shard + i) rs).
Proof.
  revert shard; induction cursors as [|c cursors IH]; intros shard Hc; simpl.
  { eexists. split_and!; done. }
  destruct (ready_rep (shard + 0) c (routed_to (shard + 0) rs)) as (c' & Ec & Hr); [by apply (Hc 0)|].
  destruct (IH (S shard)) as (cs & Ecs & Hl & Hcs).
  { intros i d Hd. rewrite Nat.add_succ_comm. by apply Hc. }
  rewrite Nat.add_0_r in Ec. rewrite run_ok_bind, Ec, run_ok_bind, Ecs.
  eexists. split; [done|]. split; [simpl; by rewrite Hl|]. intros [|i] d Hd.
  - by injection Hd as <-.
  - rewrite <-Nat.add_succ_comm. by apply Hcs.
Qed.

(** [min_front] returns the least front record. *)
Lemma min_front_spec shard cursors :
  match min_front shard cursors with
  | None => ∀ i c, cursors !! i = Some c → head (cur_page c) = None
  | Some (p, r) =>
      ∃ i c, p = shard + i ∧ cursors !! i = Some c ∧ head (cur_page c) = Some r ∧
        ∀ j d s, cursors !! j = Some d → head (cur_page d) = Some s →
          cle (rec_version r) (rec_version s)
  end.
Proof.
  revert shard; induction cursors as [|c cursors IH]; intros shard; simpl; [done|].
  specialize (IH (S shard)). destruct (head (cur_page c)) as [r|] eqn:Er.
  - destruct (min_front (S shard) cursors) as [[p s]|].
    + destruct IH as (i & d & -> & Hd & Hs & Hmin). destruct (leb _ _) eqn:El.
      * apply leb_spec in El. exists 0, c. split_and!; [lia|done|done|].
        intros [|j] e t He Ht; [injection He as <-; rewrite Er in Ht; injection Ht as <-; apply cle_refl|].
        eapply cle_trans; [done|]. by eapply (Hmin j).
      * apply leb_false in El. exists (S i), d. split_and!; [lia|done|done|].
        intros [|j] e t He Ht; [|by eapply (Hmin j)].
        injection He as <-. rewrite Er in Ht. injection Ht as <-. apply cle_lt_eq. by left.
    + exists 0, c. split_and!; [lia|done|done|]. intros [|j] e t He Ht.
      * injection He as <-. rewrite Er in Ht. injection Ht as <-. apply cle_refl.
      * specialize (IH j e He). congruence.
  - destruct (min_front (S shard) cursors) as [[p s]|].
    + destruct IH as (i & d & -> & Hd & Hs & Hmin). exists (S i), d. split_and!; [lia|done|done|].
      intros [|j] e t He Ht; [injection He as <-; congruence|]. by eapply (Hmin j).
    + intros [|i] d Hd; [by injection Hd as <-|by apply (IH i)].
Qed.

Record scanner_rep (s : RunScanner) (rs : list RunRecord) : Prop := {
  scan_rep_ok : scan_failed s = false;
  scan_rep_length : length (scan_cursors s) = PARTITIONS;
  scan_rep_sorted : sorted_by rec_version rs;
  scan_rep_cursors p c : scan_cursors s !! p = Some c → cursor_rep p c (routed_to p rs)
}.

Lemma scanner_start reader rs : run_rep f reader rs → scanner_rep (scanner reader) rs.
Proof.
  intros [Hl Hs _ Hp]. split; simpl; [done|by rewrite length_map|done|].
  intros p c Hc. apply list_lookup_fmap_Some in Hc as (root & -> & Hr).
  right. exists root. split; [done|]. by apply Hp.
Qed.

Lemma routed_to_cons p r rs :
  routed_to p (r :: rs) = if decide (partition (rec_key r) = p) then r :: routed_to p rs else routed_to p rs.
Proof. unfold routed_to. by rewrite filter_cons. Qed.

Lemma min_front_head cursors r rs :
  length cursors = PARTITIONS → sorted_by rec_version (r :: rs) →
  (∀ p c, cursors !! p = Some c → cursor_ready p c (routed_to p (r :: rs))) →
  min_front 0 cursors = Some (partition (rec_key r), r).
Proof.
  intros Hl Hs Hc. pose proof (min_front_spec 0 cursors) as Hm.
  assert (∃ c, cursors !! partition (rec_key r) = Some c) as [c Hcr].
  { apply lookup_lt_is_Some_2. rewrite Hl. apply partition_lt. }
  assert (head (cur_page c) = Some r) as Hhead.
  { destruct (Hc _ _ Hcr) as [_ ->]. rewrite routed_to_cons. by rewrite decide_True. }
  destruct (min_front 0 cursors) as [[p s]|].
  - destruct Hm as (i & d & -> & Hd & Hsd & Hmin). simpl.
    destruct (Hc _ _ Hd) as [_ Hhd]. rewrite Hsd in Hhd. symmetry in Hhd.
    assert (s ∈ routed_to i (r :: rs)) as Hin by (destruct (routed_to i _); [done|injection Hhd as ->; set_solver]).
    apply list_elem_of_filter in Hin as [Hps Hin].
    specialize (Hmin _ _ _ Hcr Hhead). apply sorted_cons in Hs as [_ Hlt].
    apply elem_of_cons in Hin as [->|Hin]; [by rewrite Hps|].
    by destruct (clt_not_cle _ _ (Hlt s Hin)).
  - rewrite (Hm _ _ Hcr) in Hhead. done.
Qed.

(** One call of [next]. *)
Lemma next_rep s rs :
  scanner_rep s rs →
  ∃ s', run (RunScanner_next s) = Some (s', Ok (head rs)) ∧ scanner_rep s' (tail rs).
Proof.
  intros [Hok Hl Hs Hc]. unfold RunScanner_next. rewrite Hok.
  destruct (ready_all_rep 0 (scan_cursors s) rs) as (cs & E & Hlc & Hcs); [done|].
  rewrite run_ok_bind, E. rewrite Hl in Hlc. simpl in Hcs. destruct rs as [|r rs].
  - pose proof (min_front_spec 0 cs) as Hm. destruct (min_front 0 cs) as [[p r]|].
    + destruct Hm as (i & c & _ & Hi & Hh & _). destruct (Hcs i c Hi) as [_ Hh']. by rewrite Hh in Hh'.
    + eexists. split; [done|]. split; simpl; try done.
      intros p c Hp. left. apply (Hcs p c Hp).
  - rewrite (min_front_head cs r rs) by done. eexists. split; [done|].
    split; simpl; [done|by rewrite length_alter|by apply sorted_cons in Hs as [? _]|].
    intros p c Hp. destruct (decide (partition (rec_key r) = p)) as [<-|Hne].
    + rewrite list_lookup_alter_eq in Hp. apply fmap_Some in Hp as (d & Hd & ->).
      apply pop_front_rep. specialize (Hcs _ _ Hd). rewrite routed_to_cons, decide_True in Hcs by done. done.
    + rewrite list_lookup_alter_ne in Hp by done. specialize (Hcs _ _ Hp).
      rewrite routed_to_cons, decide_False in Hcs by done. left. apply Hcs.
Qed.

(** Scanning delivers the records in order, then [None] for ever. *)
Lemma scan_steps_rep n s rs :
  scanner_rep s rs →
  run (scan_steps n s) = Some (take n (map (λ r, Ok (Some r)) rs ++ replicate n (Ok None))).
Proof.
  revert s rs; induction n as [|n IH]; intros s rs Hs; [done|]. cbn [scan_steps].
  destruct (next_rep s rs Hs) as (s' & E & Hs'). rewrite run_ok_bind, E.
  rewrite run_ok_bind, (IH _ _ Hs'). destruct rs as [|r rs]; cbn [map app head tail take replicate].
  - done.
  - change (Ok None :: replicate n (Ok None)) with (replicate (S n) (@Ok (option RunRecord) None)).
    simpl. f_equal. rewrite !take_app, !length_map.
    change (Ok None :: replicate n (Ok None)) with (replicate (S n) (@Ok (option RunRecord) None)).
    rewrite !take_replicate. do 3 f_equal. lia.
Qed.

End scan.

(** ** The objects of a run

    [RunReader::walk] visits the fence objects of a run and lists its data
    pages.  It lists every object a lookup or a scan will ever fetch: a store
    that keeps just those still holds the run. *)

Section walk.
Context `{Sha256, Zstd} (f : ObjectRef → result bytes).
Abbreviation run := (run_ok f).

(** [g] answers the references [refs] as [f] does. *)
Definition covers (g : ObjectRef → result bytes) (refs : list ObjectRef) : Prop :=
  ∀ r b, r ∈ refs → f r = Ok b → g r = Ok b.

(** A reference of the walk is fetched, and is not a root. *)
Definition fetched (r : ObjectRef) : Prop := ∃ b, f r = Ok b ∧ take 4 b ≠ ROOT_MAGIC.

Lemma index_not_root reference b shard magic fences :
  decode_index reference b shard magic = Ok fences → magic ≠ ROOT_MAGIC → take 4 b ≠ ROOT_MAGIC.
Proof.
  unfold decode_index. destruct (_ <? _)%N; [done|]. destruct (verify_object _ _); [|done].
  destruct (_ || _) eqn:E; [done|]. bool_prop. congruence.
Qed.
Lemma page_not_root reference b shard rs :
  decode_data_page reference b shard = Ok rs → take 4 b ≠ ROOT_MAGIC.
Proof.
  unfold decode_data_page, decode_compressed. destruct (_ <? _)%N; [done|]. destruct (verify_object _ _); [|done].
  destruct (_ || _) eqn:E; [done|]. bool_prop. intros _ Hr.
  match goal with Hm : take 4 b = COMPRESSED_MAGIC |- _ => rewrite Hm in Hr end. done.
Qed.

Lemma fences_covered g shard fences chunks :
  Forall2 (fence_rep f shard) fences chunks → covers g (map fence_data fences) →
  Forall2 (fence_rep g shard) fences chunks.
Proof.
  intros HF Hg. induction HF as [|x c fences chunks [[Hi (b & Hf & Hd)] Hh] HF IH]; constructor.
  - split; [|done]. split; [done|]. exists b. split; [|done]. apply Hg; [simpl; set_solver|done].
  - apply IH. intros r b' Hr. apply Hg. simpl. set_solver.
Qed.

Lemma fences_fetched shard fences chunks r :
  Forall2 (fence_rep f shard) fences chunks → r ∈ map fence_data fences → fetched r.
Proof.
  intros HF Hr. apply list_elem_of_fmap in Hr as (x & -> & Hx). apply list_elem_of_lookup_1 in Hx as [i Hi].
  destruct (Forall2_lookup_l _ _ _ _ _ HF Hi) as (c & _ & [_ (b & Hb & Hd)] & _).
  exists b. split; [done|]. by eapply page_not_root.
Qed.

(** The objects that the fences of a partition name, from its root down: an index of
    indexes names the fence leaves, and a leaf the data pages. *)
Inductive names_below (shard : nat) : ObjectRef → ObjectRef → Prop :=
| below_root root : root ≠ default_ref → names_below shard root root
| below_leaf root b parents parent r : root ≠ default_ref → f root = Ok b →
    decode_index root b shard INTERNAL_MAGIC = Ok parents → parent ∈ parents →
    names_below shard (fence_data parent) r → names_below shard root r
| below_page root b fences fence : root ≠ default_ref → f root = Ok b →
    decode_index root b shard INDEX_MAGIC = Ok fences → fence ∈ fences → names_below shard root (fence_data fence).
(** The objects of a run but its root. *)
Definition names (reader : RunReader) (r : ObjectRef) : Prop :=
  ∃ p root, reader_indexes reader !! p = Some root ∧ names_below p root r.

Lemma index_magic reference b shard magic fences : decode_index reference b shard magic = Ok fences → take 4 b = magic.
Proof.
  unfold decode_index. destruct (_ <? _)%N; [done|]. destruct (verify_object _ _); [|done].
  destruct (_ || _) eqn:E; [done|]. by bool_prop.
Qed.
Lemma leaf_below shard reference b fences :
  validate_index_ref reference = Ok tt → f reference = Ok b → decode_index reference b shard INDEX_MAGIC = Ok fences →
  ∀ r, names_below shard reference r ↔ r ∈ reference :: map fence_data fences.
Proof.
  intros Hv Hf Hd r. apply validate_not_default in Hv. rewrite elem_of_cons. split.
  - intros Hb. revert Hv Hf Hd.
    destruct Hb as [root _|root b' parents parent r' _ Hf' Hd' _ _|root b' fences' fence _ Hf' Hd' Hin]; intros Hv Hf Hd; [by left| |].
    + rewrite Hf in Hf'. injection Hf' as <-. apply index_magic in Hd, Hd'. by rewrite Hd in Hd'.
    + rewrite Hf in Hf'. injection Hf' as <-. rewrite Hd in Hd'. injection Hd' as <-. right. by apply list_elem_of_fmap_2.
  - intros [->|(fence & -> & Hin)%list_elem_of_fmap]; [by constructor|by eapply below_page].
Qed.
Lemma internal_below shard reference b parents :
  validate_index_ref reference = Ok tt → f reference = Ok b → decode_index reference b shard INTERNAL_MAGIC = Ok parents →
  ∀ r, names_below shard reference r ↔ r = reference ∨ ∃ parent, parent ∈ parents ∧ names_below shard (fence_data parent) r.
Proof.
  intros Hv Hf Hd r. apply validate_not_default in Hv. split.
  - intros Hb. revert Hv Hf Hd.
    destruct Hb as [root _|root b' parents' parent r' _ Hf' Hd' Hin Hb|root b' fences fence _ Hf' Hd' _]; intros Hv Hf Hd; [by left| |].
    + rewrite Hf in Hf'. injection Hf' as <-. rewrite Hd in Hd'. injection Hd' as <-. right. by exists parent.
    + rewrite Hf in Hf'. injection Hf' as <-. apply index_magic in Hd, Hd'. by rewrite Hd in Hd'.
  - intros [->|(parent & Hin & Hb)]; [by constructor|by eapply below_leaf].
Qed.

Lemma walk_parents_rep shard parents leaves refs acc :
  Forall2 (parent_rep f shard) parents leaves →
  ∃ fences, run (walk_parents shard parents refs acc)
      = Some (Ok (refs ++ map fence_data parents, acc ++ fences)) ∧
    Forall2 (fence_rep f shard) fences (concat leaves) ∧
    Forall fetched (map fence_data parents) ∧
    (∀ g, covers g (map fence_data parents ++ map fence_data fences) →
      Forall2 (parent_rep g shard) parents leaves) ∧
    ∀ r, r ∈ map fence_data parents ++ map fence_data fences ↔
      ∃ parent, parent ∈ parents ∧ names_below shard (fence_data parent) r.
Proof.
  intros HF; revert refs acc;
    induction HF as [|x chunks parents leaves [(Hv & b & Hf & Hm & fs & Hd & HFs) Hh] HF IH]; intros refs acc.
  { exists []. simpl. rewrite !app_nil_r. split_and!; try done; [constructor..|]. set_solver. }
  cbn [walk_parents]. rewrite Hv. simpl. rewrite Hf. simpl. rewrite Hd.
  destruct (IH (refs ++ [fence_data x]) (acc ++ fs)) as (fences & E & HFf & HFp & Hg & Hb).
  exists (fs ++ fences). rewrite E. split_and!.
  - by rewrite <-!app_assoc.
  - by apply Forall2_app.
  - constructor; [|done]. exists b. split; [done|]. by eapply index_not_root.
  - intros g Hcov. constructor.
    + split; [|done]. split; [done|]. exists b. split_and!; [|done|].
      * apply Hcov; [set_solver|done].
      * exists fs. split; [done|]. apply fences_covered; [done|]. intros r b' Hr. apply Hcov.
        rewrite map_app. set_solver.
    + apply Hg. intros r b' Hr. apply Hcov. rewrite map_app. simpl. set_solver.
  - intros r. pose proof (leaf_below shard _ b fs Hv Hf Hd r) as Hl. specialize (Hb r).
    rewrite map_app. cbn [map app]. rewrite elem_of_cons in Hl |- *. rewrite !elem_of_app in *.
    setoid_rewrite elem_of_cons. split.
    + intros [->|[?|[?|?]]]; [exists x; split; [by left|apply Hl; by left]| |exists x; split; [by left|apply Hl; by right]|].
      all: destruct (proj1 Hb ltac:(tauto)) as (parent & ? & ?); exists parent; tauto.
    + intros (parent & [->|Hin] & Hbe); [apply Hl in Hbe; tauto|].
      destruct (proj2 Hb (ex_intro _ parent (conj Hin Hbe))); tauto.
Qed.

(** What the walk adds for one partition. *)
Lemma walk_partition_rep shard root rs (indexes : list ObjectRef) refs pages :
  part_rep f shard root rs →
  ∃ more (fences : list Fence),
    run (walk_from shard (root :: indexes) refs pages)
      = run (walk_from (S shard) indexes (refs ++ more) (pages ++ [map fence_data fences])) ∧
    Forall fetched (more ++ map fence_data fences) ∧
    (∀ g, covers g (more ++ map fence_data fences) → part_rep g shard root rs) ∧
    ∀ r, r ∈ more ++ map fence_data fences ↔ names_below shard root r.
Proof.
  intros Hp. cbn [walk_from].
  destruct Hp as [|ref chunks (Hv & b & Hf & Hm & fences & Hd & HF) Hs
                  |ref b parents leaves Hv Hf Hm Hd HF Hs].
  - exists [], []. rewrite bool_decide_eq_true_2, app_nil_r by done. split; [done|]. split; [constructor|].
    split; [intros g _; constructor|]. intros r. split; [by intros ?%not_elem_of_nil|]. intros Hb. by inversion Hb.
  - exists [ref], fences. rewrite bool_decide_eq_false_2 by (by apply validate_not_default).
    rewrite Hv. simpl. rewrite Hf. simpl. rewrite Hm, Hd. simpl. split_and!; [done| | |].
    + constructor; [exists b; split; [done|by eapply index_not_root]|].
      apply Forall_forall. intros r Hr. by eapply fences_fetched.
    + intros g Hg. apply rep_leaf; [|done]. split; [done|]. exists b. split_and!; [|done|].
      * apply Hg; [set_solver|done].
      * exists fences. split; [done|]. apply fences_covered; [done|]. intros r b' Hr. apply Hg. set_solver.
    + intros r. by rewrite (leaf_below shard ref b fences Hv Hf Hd).
  - destruct (walk_parents_rep shard parents leaves (refs ++ [ref]) [] HF) as (fences & E & HFf & HFp & Hg & Hb).
    exists (ref :: map fence_data parents), fences.
    rewrite bool_decide_eq_false_2 by (by apply validate_not_default).
    rewrite Hv. simpl. rewrite Hf. simpl. rewrite Hm, Hd, run_ok_bind, E. simpl. split_and!.
    + by rewrite <-app_assoc.
    + constructor; [exists b; split; [done|by eapply index_not_root]|]. apply Forall_app. split; [done|].
      apply Forall_forall. intros r Hr. by eapply fences_fetched.
    + intros g Hcov. eapply rep_internal; try done.
      * apply Hcov; [set_solver|done].
      * apply Hg. intros r b' Hr. apply Hcov. set_solver.
    + intros r. rewrite (internal_below shard ref b parents Hv Hf Hd), <-Hb. simpl. by rewrite elem_of_cons.
Qed.

Lemma walk_from_rep shard indexes (rss : nat → list RunRecord) refs pages :
  (∀ i root, indexes !! i = Some root → part_rep f (shard + i) root (rss (shard + i))) →
  ∃ more lists, run (walk_from shard indexes refs pages) = Some (Ok (refs ++ more, pages ++ lists)) ∧
    Forall fetched (more ++ concat lists) ∧
    (∀ g, covers g (more ++ concat lists) →
      ∀ i root, indexes !! i = Some root → part_rep g (shard + i) root (rss (shard + i))) ∧
    ∀ r, r ∈ more ++ concat lists ↔ ∃ i root, indexes !! i = Some root ∧ names_below (shard + i) root r.
Proof.
  revert shard refs pages; induction indexes as [|root indexes IH]; intros shard refs pages Hp.
  { exists [], []. rewrite !app_nil_r. split_and!; [done|constructor|done|]. intros r.
    split; [by intros ?%not_elem_of_nil|]. by intros (i & root & Hi & _). }
  destruct (walk_partition_rep (shard + 0) root (rss (shard + 0)) indexes refs pages) as (m1 & fences & E1 & Hf1 & Hg1 & Hb1);
    [by apply (Hp 0)|]. rewrite Nat.add_0_r in *.
  destruct (IH (S shard) (refs ++ m1) (pages ++ [map fence_data fences])) as (m2 & lists & E2 & Hf2 & Hg2 & Hb2).
  { intros i r Hr. rewrite Nat.add_succ_comm. by apply Hp. }
  exists (m1 ++ m2), (map fence_data fences :: lists). rewrite E1, E2. split_and!.
  - by rewrite <-!app_assoc.
  - simpl. rewrite !Forall_app in *. tauto.
  - intros g Hcov [|i] r Hr.
    + injection Hr as <-. rewrite Nat.add_0_r. apply Hg1. intros x b Hx. apply Hcov. simpl. set_solver.
    + rewrite <-Nat.add_succ_comm. apply Hg2; [|done]. intros x b Hx. apply Hcov. simpl. set_solver.
  - intros r. specialize (Hb1 r). specialize (Hb2 r). simpl. rewrite !elem_of_app in *. split.
    + intros Hr. destruct (decide (r ∈ m1 ∨ r ∈ map fence_data fences)) as [H1|H1].
      * exists 0, root. rewrite Nat.add_0_r. split; [done|]. by apply Hb1.
      * destruct (proj1 Hb2 ltac:(tauto)) as (i & x & Hi & Hx). exists (S i), x. by rewrite <-Nat.add_succ_comm.
    + intros ([|i] & x & Hi & Hx).
      * injection Hi as <-. rewrite Nat.add_0_r in Hx. apply Hb1 in Hx. tauto.
      * rewrite <-Nat.add_succ_comm in Hx. destruct (proj2 Hb2 ltac:(by exists i, x)); tauto.
Qed.

Lemma walk_rep reader rs :
  run_rep f reader rs →
  ∃ refs lists, run (walk reader) = Some (Ok (refs, lists)) ∧
    Forall fetched (refs ++ concat lists) ∧
    (∀ g, covers g (refs ++ concat lists) → run_rep g reader rs) ∧
    ∀ r, r ∈ refs ++ concat lists ↔ names reader r.
Proof.
  intros [Hl Hs Hk Hp].
  destruct (walk_from_rep 0 (reader_indexes reader) (λ p, routed_to p rs) [] []) as (refs & lists & E & Hf & Hg & Hb).
  { intros i root Hr. by apply Hp. }
  exists refs, lists. split_and!; [done|done| |exact Hb]. intros g Hcov. split; try done.
  intros p root Hr. by apply (Hg g Hcov p root).
Qed.

(** [data_pages] lists pages that can all be fetched. *)
Lemma data_pages_rep reader rs :
  run_rep f reader rs →
  ∃ lists, run (data_pages reader) = Some (Ok lists) ∧ ∀ l r, l ∈ lists → r ∈ l → ∃ b, f r = Ok b.
Proof.
  intros (refs & lists & E & Hf & _)%walk_rep. exists lists. unfold data_pages.
  rewrite run_ok_bind, E. split; [done|]. intros l r Hl Hr. rewrite Forall_app in Hf. destruct Hf as [_ Hf].
  rewrite Forall_forall in Hf. destruct (Hf r) as (b & Hb & _); [apply elem_of_concat; eauto|]. eauto.
Qed.

(** [object_refs] lists all a store has to keep. *)
Lemma object_refs_rep reader rs :
  run_rep f reader rs →
  ∃ refs, run (object_refs reader) = Some (Ok refs) ∧ Forall fetched refs ∧
    (∀ g, covers g refs → run_rep g reader rs) ∧ ∀ r, r ∈ refs ↔ names reader r.
Proof.
  intros (refs & lists & E & Hf & Hg & Hb)%walk_rep. exists (refs ++ concat lists). unfold object_refs.
  rewrite run_ok_bind, E. by split.
Qed.

End walk.
