(* ===== verification/RunBuild.v ===== *)
(** * The builder writes the run it was given

    The invariant of [RunBuilder::build]: every partition holds its records
    split into finished leaves, finished pages of the current leaf, and the
    current page.  It gives [run_rep] for the finished run, so lookups and
    scans of a built run are those of the records it was built from. *)

From S2P Require Import Prelude Bytes SortedLists Externals Hash RunFormat RunFormatFacts RunBuilder RunReader RunRep.
From Stdlib Require Import Lia Sorting.Sorted.

(** ** Inverting effectful steps *)

Lemma eff_bind_ok {S A B} (c : eff S A) (k : A → eff S B) s b s'' :
  eff_bind c k s = (Ok b, s'') → ∃ a s', c s = (Ok a, s') ∧ k a s' = (Ok b, s'').
Proof. unfold eff_bind. destruct (c s) as [[a|e] s']; [eauto|done]. Qed.

Lemma eff_lift_ok {S A} (r : result A) (s s' : S) a :
  eff_lift r s = (Ok a, s') → r = Ok a ∧ s' = s.
Proof. unfold eff_lift. by intros [= -> ->]. Qed.

Lemma emit_ok m o (s s' : list EncodedObject) u :
  eff_context m (collect_object o) s = (Ok u, s') → s' = s ++ [o].
Proof. by intros [= _ <-]. Qed.

(** Split a successful effectful computation into its steps. *)
Ltac eff_step H :=
  lazymatch type of H with
  | eff_bind _ _ _ = (Ok _, _) =>
      let E := fresh "Es" in
      apply eff_bind_ok in H as (? & ? & E & H); cbv beta in H; eff_step E
  | eff_lift _ _ = (Ok _, _) => apply eff_lift_ok in H as [H ->];
      first [discriminate H | injection H as <- | idtac]
  | eff_context _ (collect_object _) _ = (Ok _, _) => apply emit_ok in H as ->
  | _ => idtac
  end.

(** The sink only grows. *)
Definition eff_mono {A} (c : eff (list EncodedObject) A) : Prop :=
  ∀ s, s `prefix_of` (c s).2.

Lemma mono_lift {A} (r : result A) : eff_mono (eff_lift r).
Proof. intros s. done. Qed.
Lemma mono_bind {A B} (c : eff _ A) (k : A → eff _ B) :
  eff_mono c → (∀ a, eff_mono (k a)) → eff_mono (eff_bind c k).
Proof.
  intros Hc Hk s. unfold eff_bind. specialize (Hc s). destruct (c s) as [[a|e] s']; [|done].
  etrans; [exact Hc|apply Hk].
Qed.
Lemma mono_emit m o : eff_mono (eff_context m (collect_object o)).
Proof. intros s. simpl. by apply prefix_app_r. Qed.
Lemma mono_ok {A} (c : eff _ A) s a s' : eff_mono c → c s = (Ok a, s') → s `prefix_of` s'.
Proof. intros Hc E. specialize (Hc s). by rewrite E in Hc. Qed.

#[export] Hint Resolve mono_lift mono_bind mono_emit : fossil.

(** Case analysis on the tests of a computation that has no recursion. *)
Ltac mono_solve :=
  repeat match goal with
  | |- eff_mono (eff_bind _ _) => apply mono_bind; [|intros ?]
  | |- eff_mono (eff_lift _) => apply mono_lift
  | |- eff_mono (eff_context _ (collect_object _)) => apply mono_emit
  | |- eff_mono (if ?c then _ else _) => destruct c
  | |- eff_mono (match ?c with _ => _ end) => destruct c
  | _ => solve [auto with fossil]
  end.

Section mono.
Context `{Sha256, Zstd}.

Lemma emit_leaf_mono ps : eff_mono (emit_leaf collect_object ps).
Proof. unfold emit_leaf. mono_solve. Qed.
#[local] Hint Resolve emit_leaf_mono : fossil.
Lemma append_leaf_fence_mono g ps : eff_mono (append_leaf_fence collect_object g ps).
Proof. unfold append_leaf_fence. mono_solve. Qed.
#[local] Hint Resolve append_leaf_fence_mono : fossil.
Lemma flush_page_mono ps : eff_mono (flush_page collect_object ps).
Proof. unfold flush_page. mono_solve. Qed.
#[local] Hint Resolve flush_page_mono : fossil.
Lemma push_record_mono r b ps : eff_mono (push_record collect_object r b ps).
Proof. unfold push_record. mono_solve. Qed.
#[local] Hint Resolve push_record_mono : fossil.
Lemma build_records_mono rs previous parts : eff_mono (build_records collect_object rs previous parts).
Proof. revert previous parts; induction rs; intros; simpl; mono_solve. Qed.
Lemma finish_partitions_mono parts : eff_mono (finish_partitions collect_object parts).
Proof. induction parts; simpl; mono_solve. Qed.
Lemma partition_root_mono fs : eff_mono (partition_root collect_object fs).
Proof. unfold partition_root. mono_solve. Qed.
#[local] Hint Resolve partition_root_mono : fossil.
Lemma partition_roots_mono parts : eff_mono (partition_roots collect_object parts).
Proof. induction parts; simpl; mono_solve. Qed.

End mono.
#[export] Hint Resolve emit_leaf_mono append_leaf_fence_mono flush_page_mono push_record_mono
  build_records_mono finish_partitions_mono partition_root_mono partition_roots_mono : fossil.

(** ** Index objects *)

Section index_objects.
Context `{Sha256, Zstd}.

Lemma starts_with_payload (magic magic' rest : bytes) :
  length magic = 4 → length magic' = 4 →
  starts_with (magic ++ rest) magic' = bool_decide (magic = magic').
Proof.
  intros Hm Hm'. unfold starts_with. rewrite Hm', take_app_le, take_ge by lia. done.
Qed.

(** An index object the builder makes passes every check of the readers. *)
Lemma index_object p magic fs b o :
  length magic = 4 → encode_index fs magic = Ok b → make_object b = Ok o → fs ≠ [] →
  Forall (wf_fence p (fence_limit magic)) fs → sorted_by fence_version fs →
  ref_digest (obj_reference o) ≠ zero_hash →
  obj_bytes o = index_payload magic fs ∧
  decode_index (obj_reference o) (obj_bytes o) p magic = Ok fs ∧
  validate_index_ref (obj_reference o) = Ok tt ∧
  ref_length (obj_reference o) ≠ 0%N ∧ (ref_length (obj_reference o) <= MAX_INDEX_BYTES)%N.
Proof.
  intros Hm He Ho Hne Hwf Hs Hz. apply encode_index_inv in He as (-> & Hb & _); [|done].
  apply make_object_inv in Ho as [-> _]. simpl in *.
  assert (len (index_payload magic fs) ≠ 0%N) as Hnz.
  { unfold index_payload. autorewrite with fossil_len. lia. }
  split_and!; [done| | |done|done].
  - apply decode_index_iff; [done|]. by split_and!.
  - unfold validate_index_ref; simpl. rewrite (proj2 (N.eqb_neq _ _)) by done.
    rewrite (proj2 (N.ltb_ge _ _)) by done. by rewrite bool_decide_eq_false_2.
Qed.

End index_objects.

(** ** The invariant of one partition *)

Section partition.
Context `{Sha256, Zstd, !ZstdLaws}.
(** A store that answers every object of [final], none with a zero digest. *)
Context (f : ObjectRef → result bytes) (final : list EncodedObject).
Context (Hstore : ∀ o, o ∈ final → f (obj_reference o) = Ok (obj_bytes o)).
Context (Hdigest : ∀ o, o ∈ final → ref_digest (obj_reference o) ≠ zero_hash).

(** The records [rs] of partition [p] as finished leaves [L], finished pages
    [K] of the current leaf and the records [C] of the current page. *)
Record part_open (p : nat) (ps : PartitionState) (rs : list RunRecord)
    (L : list (list (list RunRecord))) (K : list (list RunRecord)) (C : list RunRecord) : Prop := {
  po_records : rs = concat (concat L) ++ concat K ++ C;
  po_page : ps_page ps = data_page_start ++ records_bytes C;
  po_page_max : (len (ps_page ps) <= MAX_PAGE_BYTES)%N;
  po_count : ps_count ps = len C;
  po_leaves : Forall2 (fence_rep f p) (ps_leaves ps) K;
  po_parents : Forall2 (parent_rep f p) (ps_parents ps) L;
  po_leaves_wf : Forall (wf_fence p MAX_PAGE_BYTES) (ps_leaves ps);
  po_parents_wf : Forall (wf_fence p MAX_INDEX_BYTES) (ps_parents ps)
}.

(** What the builder has checked of the records of a partition. *)
Record part_records (p : nat) (rs : list RunRecord) : Prop := {
  pr_sorted : sorted_by rec_version rs;
  pr_wf : Forall wf_record rs;
  pr_routed : Forall (λ r, partition (rec_key r) = p) rs
}.

Lemma emitted (s : list EncodedObject) o :
  (s ++ [o]) `prefix_of` final →
  f (obj_reference o) = Ok (obj_bytes o) ∧ ref_digest (obj_reference o) ≠ zero_hash.
Proof.
  intros [k Hk]. assert (o ∈ final) by (rewrite Hk; set_solver). eauto.
Qed.

Lemma wf_fence_ref p m g data m' :
  wf_fence p m g → ref_length data ≠ 0%N → (ref_length data <= m')%N → (m' <= u32_max)%N →
  ref_digest data ≠ zero_hash →
  wf_fence p m' {| fence_key := fence_key g; fence_block := fence_block g; fence_data := data |}.
Proof. intros [] ????. split; simpl; try done. lia. Qed.

(** [emit_leaf] turns the pages of the current leaf into a finished leaf. *)
Lemma emit_leaf_inv p ps rs L K C s ps' s' :
  part_records p rs → part_open p ps rs L K C → ps_leaves ps ≠ [] →
  emit_leaf collect_object ps s = (Ok ps', s') → s' `prefix_of` final →
  part_open p ps' rs (L ++ [K]) [] C ∧ ps_leaves ps' = [] ∧
  ps_page ps' = ps_page ps ∧ ps_count ps' = ps_count ps.
Proof.
  intros [Hs _ _] [Hrs Hpage Hmax Hcount HK HL HKw HLw] Hne He Hfin. unfold emit_leaf in He.
  destruct (ps_leaves ps) as [|first fences] eqn:Efs; [done|]. rewrite <-Efs in *.
  eff_step He. eff_step He. destruct (not_above _ _); [by eff_step He|].
  eff_step He. destruct (_ <? _)%N; [by eff_step He|]. eff_step He. eff_step He.
  destruct (emitted _ _ Hfin) as [Hf Hz].
  assert (sorted_by rec_version (concat K)) as HsK.
  { rewrite Hrs in Hs. apply sorted_app in Hs as (_ & Hs & _). by apply sorted_app in Hs as (Hs & _). }
  destruct (index_object p INDEX_MAGIC _ _ _ eq_refl Es Es0) as (Hb & Hd & Hv & Hnz & Hle);
    [by rewrite Efs|done| |done|].
  { eapply (heads_sorted rec_version); [exact HsK|]. by apply fences_heads in HK. }
  split; [|done].
  assert (∃ fence0, head (ps_leaves ps) = Some fence0 ∧ fence0 = first) as (? & _ & ->)
    by (rewrite Efs; eauto).
  pose proof (leaf_first f _ _ _ _ _ Hd HK) as Hfirst. rewrite Efs in Hfirst. simpl in Hfirst.
  split; simpl; try done.
  - rewrite Hrs, !concat_app. simpl. by rewrite app_nil_r, <-app_assoc.
  - apply Forall2_app; [done|]. constructor; [|constructor].
    split; simpl; [|by rewrite <-Hfirst].
    split; [done|]. eexists. split; [done|]. split; [|by eexists].
    rewrite Hb. unfold index_payload. by rewrite starts_with_payload.
  - apply Forall_app; split; [done|]. constructor; [|constructor].
    eapply wf_fence_ref; try done. rewrite Efs in HKw. by inversion HKw.
Qed.

(** [flush_page] clears the page after the fence has been appended. *)
Definition reset_page (leaves parents : list Fence) : PartitionState :=
  {| ps_page := data_page_start; ps_count := 0; ps_leaves := leaves; ps_parents := parents |}.

Lemma part_open_append p ps rs L K C g :
  part_open p ps rs L K C → fence_rep f p g C → wf_fence p MAX_PAGE_BYTES g →
  part_open p (reset_page (ps_leaves ps ++ [g]) (ps_parents ps)) rs L (K ++ [C]) [].
Proof.
  intros [Hrs Hpage Hmax Hcount HK HL HKw HLw] Hg Hw. split; simpl; try done.
  - rewrite Hrs, concat_app. simpl. by rewrite !app_nil_r.
  - by apply Forall2_app; [|constructor].
  - by apply Forall_app; split; [|constructor].
Qed.

Lemma append_leaf_fence_inv p ps rs L K C g s ps' s' :
  part_records p rs → part_open p ps rs L K C → fence_rep f p g C → wf_fence p MAX_PAGE_BYTES g →
  append_leaf_fence collect_object g ps s = (Ok ps', s') → s' `prefix_of` final →
  ∃ L' K', part_open p (reset_page (ps_leaves ps') (ps_parents ps')) rs L' K' [].
Proof.
  intros Hpr Ho Hg Hw He Hfin. unfold append_leaf_fence in He. eff_step He.
  destruct (_ <=? _)%N; [eff_step He|].
  { exists L, (K ++ [C]). by apply (part_open_append p ps). }
  case_bool_decide as Hne; [by eff_step He|]. eff_step He. eff_step He.
  destruct (_ <? _)%N; [by eff_step He|]. eff_step He.
  eapply emit_leaf_inv in Es0 as (Ho' & Hl & _); [|done..].
  exists (L ++ [K]), ([] ++ [C]). by apply (part_open_append p x0 rs (L ++ [K]) []).
Qed.

Lemma page_payload_patch C :
  take 5 (data_page_start ++ records_bytes C) ++ u32_be (len C)
    ++ drop 9 (data_page_start ++ records_bytes C) = page_payload C.
Proof.
  unfold data_page_start, page_payload.
  rewrite <-!app_assoc. rewrite (app_assoc DATA_MAGIC).
  rewrite take_app_length' by done. rewrite <-app_assoc.
  by do 3 f_equal.
Qed.

Lemma len_page_start C : len (data_page_start ++ records_bytes C) = (9 + len (records_bytes C))%N.
Proof. unfold data_page_start. autorewrite with fossil_len. done. Qed.
Lemma len_page_payload C : len (page_payload C) = (9 + len (records_bytes C))%N.
Proof. unfold page_payload. autorewrite with fossil_len. change (len DATA_MAGIC) with 4%N. lia. Qed.

(** The records of the current page make a page the readers accept. *)
Lemma page_parses p C expected :
  part_records p C → C ≠ [] → (len (page_payload C) <= MAX_PAGE_BYTES)%N →
  (∀ r, r ∈ C → routed expected (rec_key r)) →
  parse_data_payload (page_payload C) expected = Ok C.
Proof.
  intros [Hs Hw Hr] Hne Hm He. apply parse_data_payload_iff. split_and!; try done.
  - unfold MAX_PAGE_BYTES, usize_max, u64_max in *. lia.
  - pose proof (len_records_bytes _ Hw). rewrite len_page_payload in Hm.
    unfold MAX_PAGE_BYTES, u32_max in *. lia.
  - by apply Forall_forall.
Qed.

Lemma part_records_suffix p l k : part_records p (l ++ k) → part_records p k.
Proof.
  intros [Hs Hw Hr]. apply sorted_app in Hs as (_ & Hs & _).
  apply Forall_app in Hw as [_ Hw]. apply Forall_app in Hr as [_ Hr]. by split.
Qed.

(** A flushed page: its object, fence and decoding. *)
Lemma page_object p C compressed o first :
  part_records p C → head C = Some first → (len (page_payload C) <= MAX_PAGE_BYTES)%N →
  zstd_encode (page_payload C) = Ok compressed →
  (len (page_object_bytes (page_payload C) compressed) <= MAX_PAGE_BYTES)%N →
  make_object (page_object_bytes (page_payload C) compressed) = Ok o →
  f (obj_reference o) = Ok (obj_bytes o) → ref_digest (obj_reference o) ≠ zero_hash →
  fence_rep f p (first_version first (obj_reference o)) C ∧
  wf_fence p MAX_PAGE_BYTES (first_version first (obj_reference o)).
Proof.
  intros Hpr Hh Hm Hz Hm' Ho Hf Hd. apply make_object_inv in Ho as [-> _]. simpl in *.
  set (b := page_object_bytes _ _) in *.
  assert (len b ≠ 0%N) as Hnz by (unfold b, page_object_bytes; autorewrite with fossil_len; lia).
  destruct C as [|x C]; [done|]. injection Hh as ->. split.
  - split; [|done]. split.
    + unfold page_ref_invalid; cbn [ref_length ref_digest]. rewrite (proj2 (N.eqb_neq _ _)) by done.
      rewrite (proj2 (N.ltb_ge _ _)) by done. by rewrite bool_decide_eq_false_2.
    + exists b. split; [done|]. unfold decode_data_page. unfold b.
      erewrite decode_page_object by (try done; by apply verify_object_ok).
      eapply page_parses; try done. intros r Hr. destruct Hpr as [_ _ Hr'].
      by apply (proj1 (Forall_forall _ _) Hr').
  - destruct Hpr as [_ Hw Hr]. inversion Hw as [|?? [] _]; inversion Hr; subst.
    split; simpl; try done. unfold MAX_PAGE_BYTES, u32_max in *. lia.
Qed.

(** [flush_page] moves the current page into the tree. *)
Lemma flush_page_inv p ps rs L K C s ps' s' :
  part_records p rs → part_open p ps rs L K C → C ≠ [] →
  flush_page collect_object ps s = (Ok ps', s') → s' `prefix_of` final →
  ∃ L' K', part_open p ps' rs L' K' [].
Proof.
  intros Hpr Ho HC He Hfin. pose proof Ho as [Hrs Hpage Hmax Hcount _ _ _ _].
  assert (part_records p C) as HprC.
  { rewrite Hrs in Hpr. by apply part_records_suffix, part_records_suffix in Hpr. }
  unfold flush_page in He. rewrite Hcount, Hpage, page_payload_patch in He.
  destruct (len C =? 0)%N eqn:E0; [bool_prop; destruct C; [done|len_lia]|].
  eff_step He. eff_step He. destruct (_ || _) eqn:Em; [by eff_step He|]. bool_prop.
  assert (len x0 <= MAX_PAGE_BYTES)%N as Hx0 by len_lia.
  rewrite !as_u32_small in * by (unfold MAX_PAGE_BYTES, u32_max in *; lia).
  eff_step He. eff_step He. eff_step He. eff_step He.
  assert (parse_data_payload (page_payload C) None = Ok C) as Hp by (by eapply page_parses).
  unfold decode_first_record in Es. rewrite Hp in Es.
  destruct (head C) as [first|] eqn:Hh; [|done]. injection Es as <-.
  assert ((s ++ [x1]) `prefix_of` final) as Hfin1.
  { etrans; [|exact Hfin]. eapply mono_ok; [|exact Es2]. auto with fossil. }
  destruct (emitted _ _ Hfin1) as [Hf Hz].
  destruct (page_object p C x0 x1 first) as [Hg Hw]; try done.
  by eapply append_leaf_fence_inv in Es2.
Qed.

Definition part_inv (p : nat) (ps : PartitionState) (rs : list RunRecord) : Prop :=
  part_records p rs ∧ ∃ L K C, part_open p ps rs L K C.

Lemma part_inv_start p : part_inv p partition_start [].
Proof.
  split; [split; constructor|]. exists [], [], []. split; simpl; try done; constructor.
Qed.

Lemma part_open_push p ps rs L K C r :
  part_open p ps rs L K C → part_records p (rs ++ [r]) →
  (len (ps_page ps) + len (record_bytes r) <= MAX_PAGE_BYTES)%N →
  part_open p {| ps_page := ps_page ps ++ record_bytes r; ps_count := as_u32 (ps_count ps + 1);
                 ps_leaves := ps_leaves ps; ps_parents := ps_parents ps |} (rs ++ [r]) L K (C ++ [r]).
Proof.
  intros [Hrs Hpage Hmax Hcount HK HL HKw HLw] [_ Hw _] Hm. split; simpl; try done.
  - by rewrite Hrs, !app_assoc.
  - by rewrite records_bytes_snoc, Hpage, app_assoc.
  - len_lia.
  - rewrite Hcount, Hrs in *. rewrite !Forall_app in Hw. destruct Hw as [(_ & _ & Hw) _].
    pose proof (len_records_bytes _ Hw). rewrite Hpage, len_page_start in Hm.
    rewrite as_u32_small by (unfold MAX_PAGE_BYTES, u32_max in *; lia). len_lia.
Qed.

Lemma part_open_page p ps rs L K : part_open p ps rs L K [] → len (ps_page ps) = 9%N.
Proof. intros [_ -> _ _ _ _ _ _]. by rewrite len_page_start. Qed.

(** Appending one record. *)
Lemma push_record_inv p ps rs r s ps' s' :
  part_inv p ps rs → part_records p (rs ++ [r]) →
  push_record collect_object r (record_bytes r) ps s = (Ok ps', s') → s' `prefix_of` final →
  part_inv p ps' (rs ++ [r]).
Proof.
  intros [Hpr (L & K & C & Ho)] Hpr' He Hfin. split; [done|].
  unfold push_record in He. apply eff_bind_ok in He as (ps1 & s1 & E1 & He). eff_step He.
  assert (∃ L K C, part_open p ps1 rs L K C ∧
    (len (ps_page ps1) + len (record_bytes r) <= MAX_PAGE_BYTES)%N) as (L1 & K1 & C1 & Ho1 & Hm).
  { destruct (MAX_PAGE_BYTES <? _)%N eqn:Em; [|eff_step E1; bool_prop; eauto 10].
    destruct (ps_count ps =? 0)%N eqn:E0; [by eff_step E1|]. eff_step E1.
    bool_prop; destruct (MAX_PAGE_BYTES <? _)%N eqn:Em1; [by eff_step E1|]. eff_step E1. bool_prop.
    assert (C ≠ []) as HC by (intros ->; destruct Ho as [_ _ _ Hc _ _ _ _]; by rewrite Hc in E0).
    destruct (flush_page_inv p ps rs L K C s x x0 Hpr Ho HC Es Hfin) as (L' & K' & Ho').
    by exists L', K', []. }
  eexists L1, K1, (C1 ++ [r]). by apply part_open_push.
Qed.

(** After the last flush, a partition is a list of finished leaves. *)
Definition part_done (p : nat) (ps : PartitionState) (rs : list RunRecord) : Prop :=
  part_records p rs ∧ Forall (wf_fence p MAX_INDEX_BYTES) (ps_parents ps) ∧
  ∃ L, Forall2 (parent_rep f p) (ps_parents ps) L ∧ rs = concat (concat L).

Lemma finish_partition_inv p ps rs s ps1 s1 ps2 s2 :
  part_inv p ps rs →
  (if (ps_count ps =? 0)%N then eff_lift (Ok ps) else flush_page collect_object ps) s = (Ok ps1, s1) →
  (if bool_decide (ps_leaves ps1 = []) then eff_lift (Ok ps1) else emit_leaf collect_object ps1) s1
    = (Ok ps2, s2) →
  s2 `prefix_of` final → part_done p ps2 rs.
Proof.
  intros [Hpr (L & K & C & Ho)] E1 E2 Hfin. split; [done|].
  assert (s1 `prefix_of` final) as Hfin1.
  { etrans; [|exact Hfin]. eapply mono_ok; [|exact E2]. case_bool_decide; auto with fossil. }
  assert (∃ L K, part_open p ps1 rs L K []) as (L1 & K1 & Ho1).
  { destruct (_ =? 0)%N eqn:E0.
    - eff_step E1. bool_prop. pose proof Ho as [_ _ _ Hc _ _ _ _]. rewrite Hc in E0.
      destruct C; [eauto|len_lia].
    - eapply flush_page_inv in E1; try done. intros ->. destruct Ho as [_ _ _ Hc _ _ _ _].
      by rewrite Hc in E0. }
  case_bool_decide as Hl.
  - eff_step E2. destruct Ho1 as [Hrs _ _ _ HK HL _ HLw]. rewrite Hl in HK.
    apply Forall2_nil_inv_l in HK as ->. split; [done|]. exists L1. split; [done|].
    simpl in Hrs. by rewrite app_nil_r in Hrs.
  - eapply emit_leaf_inv in E2 as (Ho2 & _); try done.
    destruct Ho2 as [Hrs _ _ _ _ HL _ HLw]. split; [done|]. exists (L1 ++ [K1]). split; [done|].
    simpl in Hrs. by rewrite app_nil_r in Hrs.
Qed.

(** The reference written in the root stands for the partition's records. *)
Lemma partition_root_inv p ps rs s ref s' :
  part_done p ps rs → partition_root collect_object (ps_parents ps) s = (Ok ref, s') →
  s' `prefix_of` final → part_rep f p ref rs.
Proof.
  intros ([Hs _ _] & Hw & L & HL & ->) He Hfin. unfold partition_root in He.
  destruct (ps_parents ps) as [|only [|g gs]] eqn:Eps.
  - eff_step He. apply Forall2_nil_inv_l in HL as ->. constructor.
  - eff_step He. apply Forall2_cons_inv_l in HL as (K & L' & [Hk _] & ->%Forall2_nil_inv_l & ->).
    cbn [concat] in *. rewrite app_nil_r in *. by apply rep_leaf.
  - rewrite <-Eps in *. eff_step He. eff_step He. eff_step He. eff_step He.
    destruct (emitted _ _ Hfin) as [Hf Hz].
    destruct (index_object p INTERNAL_MAGIC _ _ _ eq_refl Es Es0) as (Hb & Hd & Hv & _);
      [by rewrite Eps|done| |done|].
    { rewrite concat_concat in Hs. eapply (heads_sorted rec_version); [exact Hs|].
      apply Forall2_fmap_r. eapply Forall2_impl; [exact HL|].
      intros h c [_ Hh]. apply fmap_Some in Hh as (y & Hy & E). eauto. }
    eapply rep_internal; try done. rewrite Hb. unfold index_payload. by rewrite starts_with_payload.
Qed.

End partition.

(** ** The whole build *)

Section build.
Context `{Sha256, Zstd, !ZstdLaws}.
Context (f : ObjectRef → result bytes) (final : list EncodedObject).
Context (Hstore : ∀ o, o ∈ final → f (obj_reference o) = Ok (obj_bytes o)).
Context (Hdigest : ∀ o, o ∈ final → ref_digest (obj_reference o) ≠ zero_hash).

(** [done] has been distributed over the partitions. *)
Definition parts_inv (parts : list PartitionState) (processed : list RunRecord) : Prop :=
  length parts = PARTITIONS ∧ sorted_by rec_version processed ∧ Forall wf_record processed ∧
  ∀ p ps, parts !! p = Some ps → part_inv f p ps (routed_to p processed).

Lemma routed_to_snoc p rs r :
  routed_to p (rs ++ [r]) = if decide (partition (rec_key r) = p) then routed_to p rs ++ [r] else routed_to p rs.
Proof.
  unfold routed_to. destruct (decide _); [by apply filter_snoc_True|by apply filter_snoc_False].
Qed.

Lemma routed_records p rs : sorted_by rec_version rs → Forall wf_record rs → part_records p (routed_to p rs).
Proof.
  intros Hs Hw. split; [by apply sorted_filter| |].
  - apply Forall_forall. intros r [_ Hr]%list_elem_of_filter. by apply (proj1 (Forall_forall _ _) Hw).
  - apply Forall_forall. by intros r [Hr _]%list_elem_of_filter.
Qed.

Lemma build_records_inv rs processed parts s parts' s' :
  parts_inv parts processed → Forall (λ r, (rec_block r <= u64_max)%N) rs →
  build_records collect_object rs (rec_version <$> last processed) parts s = (Ok parts', s') →
  s' `prefix_of` final → parts_inv parts' (processed ++ rs).
Proof.
  revert processed parts s; induction rs as [|r rs IH]; intros processed parts s Hinv Hb He Hfin.
  { simpl in He. eff_step He. by rewrite app_nil_r. }
  inversion Hb as [|?? Hbr Hb']; subst. cbn [build_records] in He.
  case_bool_decide as Hk; [by eff_step He|]. destruct (not_above _ _) eqn:Ea; [by eff_step He|].
  eff_step He. eff_step He. destruct (_ <? _)%N; [by eff_step He|].
  eff_step He. eff_step He. apply eff_bind_ok in He as (ps' & s1 & Ep & He).
  apply encode_record_inv in Es1 as (-> & Hkl & Hvl).
  destruct Hinv as (Hl & Hs & Hw & Hparts).
  assert (sorted_by rec_version (processed ++ [r])) as Hs'.
  { apply sorted_snoc; [done|]. intros y Hy. rewrite not_above_false in Ea. apply Ea. by rewrite Hy. }
  assert (Forall wf_record (processed ++ [r])) as Hw'.
  { apply Forall_app; split; [done|]. constructor; [by split|constructor]. }
  destruct (parts !! partition (rec_key r)) as [ps|] eqn:Eps; [|done]. injection Es2 as <-.
  rewrite cons_middle, app_assoc.
  eapply (IH _ (<[partition (rec_key r):=ps']> parts)); [|done|rewrite last_snoc; exact He|done].
  split_and!; [by rewrite length_insert|done|done|].
  intros p ps1 Hp. rewrite routed_to_snoc. case_decide as Hd; subst.
  - rewrite list_lookup_insert_eq in Hp by (by eapply lookup_lt_Some). injection Hp as <-.
    eapply push_record_inv; [exact Hstore|exact Hdigest|by apply Hparts| |exact Ep|].
    + pose proof (routed_records (partition (rec_key r)) _ Hs' Hw') as Hpr.
      rewrite routed_to_snoc, decide_True in Hpr by done. done.
    + etrans; [|exact Hfin]. eapply mono_ok; [|exact He]. auto with fossil.
  - rewrite list_lookup_insert_ne in Hp by done. by apply Hparts.
Qed.

Lemma finish_partitions_inv parts p0 rs s parts' s' :
  (∀ i ps, parts !! i = Some ps → part_inv f (p0 + i) ps (routed_to (p0 + i) rs)) →
  finish_partitions collect_object parts s = (Ok parts', s') → s' `prefix_of` final →
  length parts' = length parts ∧
  ∀ i ps, parts' !! i = Some ps → part_done f (p0 + i) ps (routed_to (p0 + i) rs).
Proof.
  revert p0 s parts'; induction parts as [|ps parts IH]; intros p0 s parts' Hp He Hfin; simpl in He.
  { by eff_step He. }
  apply eff_bind_ok in He as (ps1 & s1 & E1 & He). apply eff_bind_ok in He as (ps2 & s2 & E2 & He).
  apply eff_bind_ok in He as (rest & s3 & E3 & He). eff_step He.
  destruct (IH (S p0) s2 rest) as [Hl Hd]; [|done|done|].
  { intros i ps' Hi. rewrite Nat.add_succ_comm. by apply Hp. }
  split; [simpl; by rewrite Hl|]. intros [|i] ps' Hi.
  - injection Hi as <-. eapply finish_partition_inv; try done; [by apply (Hp 0)|].
    etrans; [|exact Hfin]. eapply mono_ok; [|exact E3]. auto with fossil.
  - rewrite <-Nat.add_succ_comm. by apply Hd.
Qed.

Lemma partition_roots_inv parts p0 rs s refs s' :
  (∀ i ps, parts !! i = Some ps → part_done f (p0 + i) ps (routed_to (p0 + i) rs)) →
  partition_roots collect_object parts s = (Ok refs, s') → s' `prefix_of` final →
  length refs = length parts ∧
  ∀ i ref, refs !! i = Some ref → part_rep f (p0 + i) ref (routed_to (p0 + i) rs).
Proof.
  revert p0 s refs; induction parts as [|ps parts IH]; intros p0 s refs Hp He Hfin; simpl in He.
  { by eff_step He. }
  apply eff_bind_ok in He as (ref & s1 & E1 & He). apply eff_bind_ok in He as (rest & s2 & E2 & He).
  eff_step He.
  destruct (IH (S p0) s1 rest) as [Hl Hd]; [|done|done|].
  { intros i ps' Hi. rewrite Nat.add_succ_comm. by apply Hp. }
  split; [simpl; by rewrite Hl|]. intros [|i] ref' Hi.
  - injection Hi as <-. eapply partition_root_inv; try done; [by apply (Hp 0)|].
    etrans; [|exact Hfin]. eapply mono_ok; [|exact E2]. auto with fossil.
  - rewrite <-Nat.add_succ_comm. by apply Hd.
Qed.

End build.

(** ** The root *)

Section root.
Context `{Sha256, Zstd}.

(** A slot of the root: empty, or a reference the readers accept. *)
Definition slot_ok (r : ObjectRef) : Prop := r = default_ref ∨ validate_index_ref r = Ok tt.

Lemma part_rep_slot f p r rs : part_rep f p r rs → slot_ok r.
Proof. intros [|? ? (Hv & _) _|]; [by left|by right|by right]. Qed.

Lemma slot_test r :
  slot_ok r →
  negb (bool_decide (r = default_ref))
    && ((ref_length r =? 0)%N || bool_decide (ref_digest r = zero_hash)
        || (MAX_INDEX_BYTES <? ref_length r)%N) = false
  ∧ (ref_length r <= u32_max)%N.
Proof.
  intros [->|Hv]; [done|]. unfold validate_index_ref in Hv. destruct (_ || _) eqn:E; [done|].
  bool_prop. rewrite bool_decide_eq_false_2 by (by intros ->).
  rewrite (proj2 (N.eqb_neq _ _)), bool_decide_eq_false_2, (proj2 (N.ltb_ge _ _)) by done.
  split; [done|]. unfold MAX_INDEX_BYTES, u32_max in *. lia.
Qed.

Lemma len_put_refs refs : len (concat (map put_ref refs)) = (36 * len refs)%N.
Proof.
  induction refs as [|r refs IH]; [done|]. cbn [map concat].
  rewrite len_app, len_put_ref, IH, len_cons. lia.
Qed.

Lemma decode_indexes_round pre refs k :
  Forall slot_ok refs → len pre = (5 + N.of_nat k * 36)%N →
  (len (pre ++ concat (map put_ref refs)) <= usize_max)%N →
  decode_indexes (pre ++ concat (map put_ref refs)) (seq k (length refs)) = Ok refs.
Proof.
  intros Hs; revert pre k; induction Hs as [|r refs Hr Hs IH]; intros pre k Hp Hl; [done|].
  cbn [length seq map concat decode_indexes] in *. destruct (slot_test r Hr) as [Ht Hu].
  rewrite read_ref_at by (try done; unfold REF_BYTES; lia). rewrite Ht.
  rewrite app_assoc. rewrite IH; [done| |by rewrite <-app_assoc].
  rewrite len_app, len_put_ref. lia.
Qed.

Lemma len_root_payload refs : length refs = PARTITIONS → len (root_payload refs) = ROOT_BYTES.
Proof.
  intros Hl. unfold root_payload. rewrite !len_app, len_put_refs. unfold len at 3. by rewrite Hl.
Qed.

Lemma RunReader_decode_root refs o :
  length refs = PARTITIONS → Forall slot_ok refs → make_object (root_payload refs) = Ok o →
  obj_bytes o = root_payload refs ∧
  RunReader_decode (obj_reference o) (root_payload refs) = Ok {| reader_indexes := refs |}.
Proof.
  intros Hl Hs [-> _]%make_object_inv. split; [done|]. unfold RunReader_decode.
  assert (len (root_payload refs) = ROOT_BYTES) as Hlen by (by apply len_root_payload).
  rewrite Hlen, N.eqb_refl. cbn [negb].
  rewrite (proj2 (verify_object_ok _ _)) by done.
  rewrite (bool_decide_eq_true_2 (take 4 _ = _)) by done.
  rewrite (bool_decide_eq_true_2 (_ !! 4 = _)) by done. cbn [negb orb].
  rewrite <-Hl. unfold root_payload. rewrite app_assoc.
  rewrite decode_indexes_round; [done|done|done|].
  rewrite <-app_assoc. unfold root_payload in Hlen. rewrite Hlen. done.
Qed.

End root.

Section built.
Context `{Sha256, Zstd, !ZstdLaws}.

(** What a successful build gives a store that holds the emitted objects. *)
Lemma build_run records reference objects (f : ObjectRef → result bytes) :
  build collect_object records [] = (Ok reference, objects) →
  Forall (λ r, (rec_block r <= u64_max)%N) records →
  (∀ o, o ∈ objects → f (obj_reference o) = Ok (obj_bytes o)) →
  (∀ o, o ∈ objects → ref_digest (obj_reference o) ≠ zero_hash) →
  sorted_by rec_version records ∧ Forall wf_record records ∧
  ∃ b reader, f reference = Ok b ∧ RunReader_decode reference b = Ok reader ∧ run_rep f reader records.
Proof.
  intros He Hb Hst Hd. unfold build in He.
  apply eff_bind_ok in He as (parts & s1 & E1 & He).
  apply eff_bind_ok in He as (parts2 & s2 & E2 & He).
  apply eff_bind_ok in He as (refs & s3 & E3 & He).
  eff_step He. eff_step He. eff_step He.
  assert (s3 `prefix_of` s3 ++ [x]) as P3 by (by apply prefix_app_r).
  assert (s2 `prefix_of` s3 ++ [x]) as P2.
  { etrans; [|exact P3]. eapply mono_ok; [|exact E3]. auto with fossil. }
  assert (s1 `prefix_of` s3 ++ [x]) as P1.
  { etrans; [|exact P2]. eapply mono_ok; [|exact E2]. auto with fossil. }
  eapply (build_records_inv f _ Hst Hd _ []) in E1 as (Hl & Hs & Hw & Hp); [|  |done|done].
  2: { split_and!; [done|constructor|constructor|]. intros p ps [-> _]%lookup_replicate_1.
       apply part_inv_start. }
  simpl in Hs, Hw, Hp.
  eapply (finish_partitions_inv f _ Hst Hd _ 0) in E2 as [Hl2 Hp2]; [|done..].
  eapply (partition_roots_inv f _ Hst Hd _ 0) in E3 as [Hl3 Hp3]; [|done..]. simpl in Hp3.
  assert (length refs = PARTITIONS) as Hlr by congruence.
  split; [done|]. split; [done|].
  destruct (RunReader_decode_root refs x Hlr) as [Hbytes Hdec]; [|done|].
  { apply Forall_lookup. intros i r Hi. eapply part_rep_slot. by apply Hp3. }
  eexists _, _. split; [apply Hst; set_solver|]. rewrite Hbytes. split; [exact Hdec|].
  split; simpl; try done. eapply Forall_impl; [exact Hw|]. by intros r [].
Qed.

End built.
