(* ===== verification/RunEmission.v ===== *)
(** * The order in which a build emits objects

    Every prefix of the emission is closed under references: an index object
    only names objects emitted before it and the root comes last.  This is
    what lets a builder crash between any two uploads without leaving a
    dangling reference, and it bounds the size of every object. *)

From S2P Require Import Prelude Bytes SortedLists Externals Hash RunFormat RunFormatFacts RunBuilder RunReader RunBuild.
From Stdlib Require Import Lia.

(** A triple for effectful steps: [Q] after success, [E] after an error. *)
Definition triple {S A} (P : S → Prop) (c : eff S A) (Q : A → S → Prop) (E : S → Prop) : Prop :=
  ∀ s, P s → match c s with (Ok a, s') => Q a s' | (Err _, s') => E s' end.

Lemma triple_lift {S A} (P : S → Prop) (r : result A) (Q : A → S → Prop) (E : S → Prop) :
  (∀ s a, P s → r = Ok a → Q a s) → (∀ s, P s → E s) → triple P (eff_lift r) Q E.
Proof. intros HQ HE s Hs. unfold eff_lift. destruct r; eauto. Qed.

Lemma triple_bind {S A B} (P : S → Prop) (c : eff S A) (k : A → eff S B) R Q E :
  triple P c R E → (∀ a, triple (R a) (k a) Q E) → triple P (eff_bind c k) Q E.
Proof.
  intros Hc Hk s Hs. unfold eff_bind. specialize (Hc s Hs). destruct (c s) as [[a|e] s']; [|done].
  by apply Hk.
Qed.

(** The value of a pure step is remembered. *)
Lemma triple_pure {S A B} (P : S → Prop) (r : result A) (k : A → eff S B) Q E :
  (∀ s, P s → E s) → (∀ a, r = Ok a → triple P (k a) Q E) → triple P (eff_bind (eff_lift r) k) Q E.
Proof.
  intros HE Hk. eapply (triple_bind _ _ _ (λ a s, P s ∧ r = Ok a)).
  - by apply triple_lift; [|].
  - intros a s [Hs Hr]. by apply Hk.
Qed.

Lemma triple_weaken {S A} (P P' : S → Prop) (c : eff S A) Q Q' E :
  triple P c Q E → (∀ s, P' s → P s) → (∀ a s, Q a s → Q' a s) → triple P' c Q' E.
Proof. intros Hc HP HQ s Hs. specialize (Hc s (HP s Hs)). destruct (c s) as [[a|e] s']; eauto. Qed.

Section emission.
Context `{Sha256, Zstd}.

Definition in_refs (objs : list EncodedObject) (r : ObjectRef) : Prop :=
  ∃ o, o ∈ objs ∧ obj_reference o = r.

(** The kinds of objects, with their bounds and what they may refer to. *)
Inductive object_kind (earlier : list EncodedObject) (b : bytes) : Prop :=
| kind_page page compressed :
    b = page_object_bytes page compressed →
    (len page <= MAX_PAGE_BYTES)%N → (len b <= MAX_PAGE_BYTES)%N → object_kind earlier b
| kind_index magic fences :
    magic = INDEX_MAGIC ∨ magic = INTERNAL_MAGIC →
    b = index_payload magic fences → (len b <= MAX_INDEX_BYTES)%N →
    Forall (λ g, in_refs earlier (fence_data g)) fences → object_kind earlier b
| kind_root refs :
    b = root_payload refs → len b = ROOT_BYTES →
    Forall (λ r, r = default_ref ∨ in_refs earlier r) refs → object_kind earlier b.

Inductive emission : list EncodedObject → Prop :=
| emission_nil : emission []
| emission_snoc objs o :
    emission objs → make_object (obj_bytes o) = Ok o → object_kind objs (obj_bytes o) →
    emission (objs ++ [o]).

Definition refs_ok (objs : list EncodedObject) (fs : list Fence) : Prop :=
  Forall (λ g, in_refs objs (fence_data g)) fs.
Definition state_ok (objs : list EncodedObject) (ps : PartitionState) : Prop :=
  refs_ok objs (ps_leaves ps) ∧ refs_ok objs (ps_parents ps).

Lemma in_refs_snoc objs o r : in_refs objs r → in_refs (objs ++ [o]) r.
Proof. intros (x & Hx & E). exists x. set_solver. Qed.
Lemma in_refs_last objs o : in_refs (objs ++ [o]) (obj_reference o).
Proof. exists o. set_solver. Qed.
Lemma refs_ok_snoc objs o fs : refs_ok objs fs → refs_ok (objs ++ [o]) fs.
Proof. intros HF. eapply Forall_impl; [exact HF|]. intros g. apply in_refs_snoc. Qed.
Lemma make_object_bytes b o : make_object b = Ok o → obj_bytes o = b ∧ make_object (obj_bytes o) = Ok o.
Proof. intros Ho. pose proof Ho as [-> _]%make_object_inv. by split. Qed.

(** All fences held by a list of partitions, which stay valid as objects are
    added: [K] is any such property of the state that later objects keep. *)
Definition kept (K : list EncodedObject → Prop) : Prop := ∀ s o, K s → K (s ++ [o]).

Notation inv K Q := (λ s, emission s ∧ K s ∧ Q s).
Abbreviation good := (λ s : list EncodedObject, emission s).

Lemma kept_and K r : kept K → kept (λ s, K s ∧ in_refs s r).
Proof. intros HK s o [Hs Hr]. split; [by apply HK|by apply in_refs_snoc]. Qed.
Lemma kept_state K ps : kept K → kept (λ s, K s ∧ state_ok s ps).
Proof. intros HK s o [Hs [Hl Hp]]. split; [by apply HK|]. by split; apply refs_ok_snoc. Qed.
#[local] Hint Resolve kept_and kept_state : fossil.

(** The steps that only test or compute. *)
Ltac pure_step :=
  first
  [ apply triple_pure; [naive_solver|]; intros ? ?
  | apply triple_lift; [by intros; simplify_eq|naive_solver]
  | match goal with |- triple _ (if ?c then _ else _) _ _ => destruct c end ].

(** Emitting an object of a legal kind. *)
Lemma emit_triple K Q m b o :
  kept K → make_object b = Ok o → (∀ s, Q s → object_kind s b) →
  triple (inv K Q) (eff_context m (collect_object o)) (λ _, inv K (λ s, ∃ s0, s = s0 ++ [o] ∧ Q s0)) good.
Proof.
  intros HK Ho Hk s (He & HKs & HQ). destruct (make_object_bytes _ _ Ho) as [Hb Ho']. simpl. split_and!.
  - apply emission_snoc; [done|done|]. rewrite Hb. by apply Hk.
  - by apply HK.
  - eauto.
Qed.

Lemma emit_leaf_triple K ps :
  kept K →
  triple (inv K (λ s, state_ok s ps)) (emit_leaf collect_object ps)
    (λ ps', inv K (λ s, state_ok s ps')) good.
Proof.
  intros HK. unfold emit_leaf. destruct (ps_leaves ps) as [|first fences] eqn:Efs; [pure_step|].
  rewrite <-Efs. repeat pure_step.
  match goal with Eb : encode_index _ _ = Ok ?b, Eo : make_object ?b = Ok _ |- _ =>
    pose proof Eo as Ho; apply encode_index_inv in Eb as (-> & Hm & _); [|done] end.
  eapply triple_bind; [eapply (emit_triple K (λ s, state_ok s ps)); [done|exact Ho|]|].
  { intros s [Hl _]. by eapply (kind_index _ _ INDEX_MAGIC); [left| | |]. }
  intros ?. apply triple_lift; [|naive_solver].
  intros s ps' (He & HKs & s0 & -> & _ & Hp) [= <-]. split_and!; [done|done|].
  split; simpl; [constructor|]. apply Forall_app. split; [by apply refs_ok_snoc|].
  constructor; [apply in_refs_last|constructor].
Qed.

Lemma state_ok_push s ps g :
  state_ok s ps → in_refs s (fence_data g) → refs_ok s (ps_leaves ps ++ [g]).
Proof. intros [Hl _] Hg. apply Forall_app. split; [done|]. by constructor. Qed.

Lemma append_leaf_fence_triple K g ps :
  kept K →
  triple (inv (λ s, K s ∧ in_refs s (fence_data g)) (λ s, state_ok s ps))
    (append_leaf_fence collect_object g ps) (λ ps', inv K (λ s, state_ok s ps')) good.
Proof.
  intros HK. unfold append_leaf_fence. pure_step. pure_step.
  { apply triple_lift; [|naive_solver]. intros s ps' (He & [HKs Hg] & Hs) [= <-].
    split_and!; [done|done|]. split; simpl; [by apply state_ok_push|apply Hs]. }
  pure_step; [pure_step|].
  eapply triple_bind; [by apply emit_leaf_triple, kept_and|]. intros ps1. repeat pure_step.
  apply triple_lift; [|naive_solver]. intros s ps' (He & [HKs Hg] & Hs) [= <-].
  split_and!; [done|done|]. split; simpl; [by apply state_ok_push|apply Hs].
Qed.

Lemma flush_page_triple K ps :
  kept K →
  triple (inv K (λ s, state_ok s ps)) (flush_page collect_object ps)
    (λ ps', inv K (λ s, state_ok s ps')) good.
Proof.
  intros HK. unfold flush_page. pure_step; [pure_step|]. pure_step. pure_step.
  match goal with |- context [if ?c then _ else _] => destruct c eqn:Em end; [pure_step|]. bool_prop.
  rewrite !as_u32_small in * by (autorewrite with fossil_len in *; unfold MAX_PAGE_BYTES, u32_max in *; lia).
  pure_step. match goal with Eo : make_object _ = Ok _ |- _ =>
    eapply triple_bind; [eapply (emit_triple K (λ s, state_ok s ps)); [done|exact Eo|]|] end.
  { intros s _. by eapply kind_page. }
  intros ?. eapply triple_bind.
  - eapply triple_weaken; [by apply (append_leaf_fence_triple K)| |done].
    intros s (He & HKs & s0 & -> & [Hl Hp]). split; [done|].
    split; [split; [done|apply in_refs_last]|].
    by split; apply refs_ok_snoc.
  - intros ps'. apply triple_lift; [|naive_solver]. by intros s ps2 (He & HKs & Hs) [= <-].
Qed.

Lemma push_record_triple K r b ps :
  kept K →
  triple (inv K (λ s, state_ok s ps)) (push_record collect_object r b ps)
    (λ ps', inv K (λ s, state_ok s ps')) good.
Proof.
  intros HK. unfold push_record. eapply (triple_bind _ _ _ (λ ps', inv K (λ s, state_ok s ps'))).
  - pure_step; [|pure_step]. pure_step; [pure_step|].
    eapply triple_bind; [by apply flush_page_triple|]. intros ps'. by repeat pure_step.
  - intros ps'. apply triple_lift; [|naive_solver]. by intros s ps2 (He & HKs & Hs) [= <-].
Qed.

Definition states_ok (s : list EncodedObject) (parts : list PartitionState) : Prop :=
  Forall (state_ok s) parts.

Lemma kept_states K parts : kept K → kept (λ s, K s ∧ states_ok s parts).
Proof.
  intros HK s o [Hs HF]. split; [by apply HK|]. eapply Forall_impl; [exact HF|].
  intros ps [Hl Hp]. by split; apply refs_ok_snoc.
Qed.
Definition anything (s : list EncodedObject) : Prop := True.
Lemma kept_anything : kept anything.
Proof. done. Qed.

Lemma build_records_triple rs previous parts :
  triple (inv anything (λ s, states_ok s parts)) (build_records collect_object rs previous parts)
    (λ parts', inv anything (λ s, states_ok s parts')) good.
Proof.
  revert previous parts; induction rs as [|r rs IH]; intros previous parts; simpl; [pure_step|].
  repeat pure_step. destruct (parts !! _) as [ps|] eqn:Eps; [|done].
  match goal with Hu : unwrap (Some ps) = Ok _ |- _ => injection Hu as <- end.
  eapply triple_bind; [eapply triple_weaken; [eapply (push_record_triple (λ s, anything s ∧ states_ok s parts) _ _ ps)| |intros ? ? Hs; exact Hs]|].
  - by apply kept_states.
  - intros s (He & _ & HF). split_and!; [done|done|done|].
    by apply (proj1 (Forall_forall _ _) HF ps), (list_elem_of_lookup_2 _ _ _ Eps).
  - intros ps'. eapply triple_weaken; [apply IH| |done].
    intros s (He & (_ & HF) & Hs). split_and!; [done|done|]. by apply Forall_insert.
Qed.

Lemma finish_partitions_triple K parts :
  kept K →
  triple (inv K (λ s, states_ok s parts)) (finish_partitions collect_object parts)
    (λ parts', inv K (λ s, states_ok s parts')) good.
Proof.
  revert K; induction parts as [|ps parts IH]; intros K HK; simpl; [pure_step|].
  assert (kept (λ s, K s ∧ states_ok s parts)) as HK' by (by apply kept_states).
  eapply (triple_bind _ _ _ (λ ps', inv (λ s, K s ∧ states_ok s parts) (λ s, state_ok s ps'))).
  { eapply (triple_weaken (inv (λ s, K s ∧ states_ok s parts) (λ s, state_ok s ps))); [|  |intros ? ? Hs; exact Hs].
    - pure_step; [pure_step|]. by apply flush_page_triple.
    - by intros s (He & HKs & [? ?]%Forall_cons). }
  intros ps1.
  eapply (triple_bind _ _ _ (λ ps', inv (λ s, K s ∧ states_ok s parts) (λ s, state_ok s ps'))).
  { pure_step; [pure_step|]. by apply emit_leaf_triple. }
  intros ps2. eapply triple_bind.
  { eapply triple_weaken; [apply (IH (λ s, K s ∧ state_ok s ps2))| |intros ? ? Hs; exact Hs].
    - by apply kept_state.
    - by intros s (He & [HKs HF] & Hs). }
  intros parts'. apply triple_lift; [|naive_solver].
  intros s a (He & [HKs Hs] & HF) [= <-]. split_and!; [done|done|]. by constructor.
Qed.

Definition slots_ok (s : list EncodedObject) (refs : list ObjectRef) : Prop :=
  Forall (λ r, r = default_ref ∨ in_refs s r) refs.

Lemma kept_slot K r : kept K → kept (λ s, K s ∧ (r = default_ref ∨ in_refs s r)).
Proof. intros HK s o [Hs Hr]. split; [by apply HK|]. destruct Hr; [by left|right; by apply in_refs_snoc]. Qed.

Lemma partition_root_triple K fs :
  kept K →
  triple (inv K (λ s, refs_ok s fs)) (partition_root collect_object fs)
    (λ r, inv K (λ s, r = default_ref ∨ in_refs s r)) good.
Proof.
  intros HK. unfold partition_root. destruct fs as [|g [|g' fs]].
  - apply triple_lift; [|naive_solver]. intros s r (He & HKs & _) [= <-]. eauto.
  - apply triple_lift; [|naive_solver]. intros s r (He & HKs & [Hg _]%Forall_cons) [= <-]. eauto.
  - repeat pure_step.
    match goal with Eb : encode_index ?fs _ = Ok ?b, Eo : make_object ?b = Ok _ |- _ =>
      set (fs0 := fs) in *; pose proof Eo as Ho;
      apply encode_index_inv in Eb as (-> & Hm & _); [|done] end.
    eapply triple_bind; [eapply (emit_triple K (λ s, refs_ok s fs0)); [done|exact Ho|]|].
    { intros s Hr. by eapply (kind_index _ _ INTERNAL_MAGIC); [right| | |]. }
    intros ?. apply triple_lift; [|naive_solver].
    intros s r (He & HKs & s0 & -> & _) [= <-]. split_and!; [done|done|].
    right. apply in_refs_last.
Qed.

Lemma partition_roots_triple K parts :
  kept K →
  triple (inv K (λ s, states_ok s parts)) (partition_roots collect_object parts)
    (λ refs, inv K (λ s, slots_ok s refs ∧ length refs = length parts)) good.
Proof.
  revert K; induction parts as [|ps parts IH]; intros K HK; simpl.
  { apply triple_lift; [|naive_solver]. intros s refs (He & HKs & _) [= <-].
    split_and!; [done|done|constructor|done]. }
  eapply triple_bind.
  { eapply triple_weaken; [apply (partition_root_triple (λ s, K s ∧ states_ok s parts))| |intros ? ? Hs; exact Hs].
    - by apply kept_states.
    - intros s (He & HKs & [[_ Hp] HF]%Forall_cons). by split_and!. }
  intros r. eapply triple_bind.
  { eapply triple_weaken; [apply (IH (λ s, K s ∧ (r = default_ref ∨ in_refs s r)))| |intros ? ? Hs; exact Hs].
    - by apply kept_slot.
    - by intros s (He & [HKs HF] & Hr). }
  intros refs. apply triple_lift; [|naive_solver].
  intros s a (He & [HKs Hr] & HF & Hl) [= <-]. split_and!; [done|done|by constructor|simpl; by rewrite Hl].
Qed.

(** The parts keep their number. *)
Lemma build_records_length rs previous parts s parts' s' :
  build_records collect_object rs previous parts s = (Ok parts', s') → length parts' = length parts.
Proof.
  revert previous parts s; induction rs as [|r rs IH]; intros previous parts s He; simpl in He.
  { by eff_step He. }
  case_bool_decide; [by eff_step He|]. destruct (not_above _ _); [by eff_step He|].
  eff_step He. eff_step He. destruct (_ <? _)%N; [by eff_step He|]. do 3 eff_step He.
  apply IH in He. by rewrite length_insert in He.
Qed.

Lemma finish_partitions_length parts s parts' s' :
  finish_partitions collect_object parts s = (Ok parts', s') → length parts' = length parts.
Proof.
  revert s parts'; induction parts as [|ps parts IH]; intros s parts' He; simpl in He.
  { by eff_step He. }
  apply eff_bind_ok in He as (? & ? & _ & He). apply eff_bind_ok in He as (? & ? & _ & He).
  apply eff_bind_ok in He as (? & ? & E3 & He). eff_step He. simpl. f_equal. by eapply IH.
Qed.

Definition build_partitions (records : list RunRecord) : eff (list EncodedObject) (list PartitionState) :=
  let^ parts := build_records collect_object records None (replicate PARTITIONS partition_start) in
  finish_partitions collect_object parts.

Lemma build_partitions_triple records :
  triple (λ s, s = []) (build_partitions records)
    (λ parts, inv anything (λ s, states_ok s parts ∧ length parts = PARTITIONS)) good.
Proof.
  intros s ->. pose proof (build_records_triple records None (replicate PARTITIONS partition_start) []) as H1.
  ospecialize (H1 _).
  { split_and!; [constructor|done|]. apply Forall_replicate. by split; constructor. }
  unfold build_partitions, eff_bind.
  destruct (build_records _ _ _ _ []) as [[parts|e] s1] eqn:E1; [|done].
  pose proof (finish_partitions_triple anything parts kept_anything s1 H1) as H2.
  destruct (finish_partitions _ parts s1) as [[parts'|e] s2] eqn:E2; [|done].
  destruct H2 as (He & _ & Hs). split_and!; [done|done|done|].
  apply finish_partitions_length in E2. apply build_records_length in E1.
  by rewrite E2, E1.
Qed.

(** Whatever happens, what [build] has emitted is closed under references;
    when it succeeds the last object is the root it returns. *)
Lemma build_triple records :
  triple (λ s, s = []) (build collect_object records)
    (λ reference objects, emission objects ∧
       ∃ earlier refs root, objects = earlier ++ [root] ∧ obj_reference root = reference ∧
         obj_bytes root = root_payload refs ∧ length refs = PARTITIONS) good.
Proof.
  assert (∀ s, build collect_object records s = eff_bind (build_partitions records) (λ parts,
    let^ references := partition_roots collect_object parts in
    let^? root := make_object (root_payload references) in
    let^ _ := eff_context "emit run root" (collect_object root) in
    eff_lift (Ok (obj_reference root))) s) as Hb.
  { intros s. unfold build, build_partitions, eff_bind.
    by destruct (build_records _ _ _ _ s) as [[]]. }
  intros s Hs. rewrite Hb. revert s Hs.
  eapply triple_bind; [apply build_partitions_triple|]. intros parts.
  eapply triple_bind.
  { eapply triple_weaken; [apply (partition_roots_triple (λ _, length parts = PARTITIONS)); by intros ?|
      |intros ? ? Hs; exact Hs]. by intros s (He & _ & Hs & Hl). }
  intros refs. apply triple_pure; [naive_solver|]. intros root Eo.
  eapply triple_bind; [eapply triple_weaken; [eapply (emit_triple anything
    (λ s, slots_ok s refs ∧ length refs = PARTITIONS)); [done|exact Eo|]| |intros ? ? Hs; exact Hs]|].
  - intros s [Hs Hl]. apply (kind_root _ _ refs); [done|by apply len_root_payload|done].
  - intros s (He & Hl & Hs & Hlr). split_and!; [done|done|done|congruence].
  - intros ?. apply triple_lift; [|naive_solver].
    intros s reference (He & _ & s0 & -> & _ & Hl) [= <-]. split; [done|].
    exists s0, refs, root. split_and!; try done. by apply make_object_bytes in Eo as [? _].
Qed.

End emission.
