(* ===== verification/RunTheorems.v ===== *)
(** * What a run guarantees

    The theorems about [codec/src/run.rs] as its callers use them: a built run
    answers lookups and scans from the records it was built from, with a
    bounded number of bounded fetches, and never answers wrongly when the
    store returns altered objects. *)

From S2P Require Import Prelude Bytes SortedLists Externals ToyCrates Hash RunFormat RunFormatFacts RunBuilder RunReader RunRep RunScan RunBuild RunEmission.
From Stdlib Require Import Lia Sorting.Sorted.

(** A store as a list of objects. *)
Fixpoint fetch_objects (objects : list EncodedObject) (reference : ObjectRef) : result bytes :=
  match objects with
  | [] => bail "not found"
  | o :: objects =>
      if bool_decide (obj_reference o = reference) then Ok (obj_bytes o)
      else fetch_objects objects reference
  end.

(** [RunReader::decode] of the fetched root, then [lookup]. *)
Definition open_lookup `{Sha256, Zstd} (reference : ObjectRef) (key : bytes) (block : N)
    : prog fetchE (result (option bytes)) :=
  let! b := request (Fetch reference) in
  let!? reader := RunReader_decode reference b in
  RunReader_lookup reader key block.

(** [RunReader::decode] of the fetched root, then [n] records of the scan. *)
Definition open_scan `{Sha256, Zstd} (reference : ObjectRef) (n : nat)
    : prog fetchE (result (list (result (option RunRecord)))) :=
  let! b := request (Fetch reference) in
  let!? reader := RunReader_decode reference b in
  let* steps := scan_steps n (scanner reader) in
  Ret (Ok steps).

Section run_theorems.
Context `{Sha256, Zstd, !ZstdLaws}.

(** The store holds what the builder emitted, and no digest is zero. *)
Definition holds (f : ObjectRef → result bytes) (objects : list EncodedObject) : Prop :=
  Forall (λ o, f (obj_reference o) = Ok (obj_bytes o) ∧ ref_digest (obj_reference o) ≠ zero_hash) objects.

Lemma holds_run f records reference objects :
  build collect_object records [] = (Ok reference, objects) →
  Forall (λ r, (rec_block r <= u64_max)%N) records → holds f objects →
  ∃ b reader, f reference = Ok b ∧ RunReader_decode reference b = Ok reader ∧ run_rep f reader records.
Proof.
  intros Hb Hu Hh. unfold holds in Hh. rewrite Forall_forall in Hh.
  destruct (build_run records reference objects f) as (_ & _ & Hr); try done; intros o Ho; by apply Hh.
Qed.

(** C26: a run built from records answers every point lookup with the value of
    the newest version of the key at or before the block among those records,
    and with nothing when there is none. *)
Theorem built_run_lookup records reference objects f key block :
  build collect_object records [] = (Ok reference, objects) →
  Forall (λ r, (rec_block r <= u64_max)%N) records → holds f objects →
  run_pure (fetch_from f) (open_lookup reference key block) = Ok (state_at records key block).
Proof.
  intros Hb Hu Hh. destruct (holds_run f _ _ _ Hb Hu Hh) as (b & reader & Hf & Hd & Hr).
  simpl. rewrite Hf, Hd. by apply lookup_rep.
Qed.

(** C27: scanning a built run delivers exactly its records, in order, and then
    the end of the run for as long as it is asked. *)
Theorem built_run_scan records reference objects f n :
  build collect_object records [] = (Ok reference, objects) →
  Forall (λ r, (rec_block r <= u64_max)%N) records → holds f objects →
  run_pure (fetch_from f) (open_scan reference n)
  = Ok (take n (map (λ r, Ok (Some r)) records ++ replicate n (Ok None))).
Proof.
  intros Hb Hu Hh. destruct (holds_run f _ _ _ Hb Hu Hh) as (b & reader & Hf & Hd & Hr).
  simpl. rewrite Hf, Hd, run_pure_bind.
  rewrite (run_ok_pure _ _ _ (scan_steps_rep f n _ records (scanner_start f _ _ Hr))). done.
Qed.

(** ** Altered objects *)

(** Whatever [g] answers that passes the length and SHA-256 test is what the
    honest store [f] holds: no second preimage is served. *)
Definition authentic (f g : ObjectRef → result bytes) : Prop :=
  ∀ r b, g r = Ok b → verify_object r b = Ok tt → f r = Ok b.

Lemma decode_index_verified r b shard magic fs :
  decode_index r b shard magic = Ok fs → verify_object r b = Ok tt.
Proof.
  unfold decode_index. destruct (_ <? _)%N; [done|]. by destruct (verify_object r b) as [[]|].
Qed.
Lemma decode_data_page_verified r b shard rs :
  decode_data_page r b shard = Ok rs → verify_object r b = Ok tt.
Proof.
  unfold decode_data_page, decode_compressed. destruct (_ <? _)%N; [done|].
  by destruct (verify_object r b) as [[]|].
Qed.
Lemma RunReader_decode_verified r b reader :
  RunReader_decode r b = Ok reader → verify_object r b = Ok tt.
Proof.
  unfold RunReader_decode. destruct (negb _); [done|]. by destruct (verify_object r b) as [[]|].
Qed.

(** [p] answers the same from [f] whenever it answers from [g]. *)
Definition agrees {A} (f g : ObjectRef → result bytes) (p : prog fetchE (result A)) : Prop :=
  ∀ v, run_pure (fetch_from g) p = Ok v → run_pure (fetch_from f) p = Ok v.

Lemma agrees_fetch {A} f g m r (k : bytes → prog fetchE (result A)) :
  authentic f g →
  (∀ b v, g r = Ok b → run_pure (fetch_from g) (k b) = Ok v → verify_object r b = Ok tt) →
  (∀ b, agrees f g (k b)) → agrees f g (let! b := fetch_object m r in k b).
Proof.
  intros Ha Hv Hk v. simpl. destruct (g r) as [b|e] eqn:Eg; [|done]. simpl. intros Hr.
  rewrite (Ha r b Eg) by (by eapply Hv). by apply Hk.
Qed.

Lemma agrees_pure {A B} f g (c : result A) (k : A → prog fetchE (result B)) :
  (∀ a, c = Ok a → agrees f g (k a)) → agrees f g (let!? a := c in k a).
Proof. intros Hk. destruct c; [by apply Hk|done]. Qed.

(** Case analysis on tests and pure steps that read no object. *)
Ltac agrees_step :=
  match goal with
  | |- agrees _ _ (Ret _) => by intros ?
  | |- agrees _ _ (match ?c with Ok _ => _ | Err _ => Ret (Err _) end) => apply agrees_pure; intros ? ?
  | |- agrees _ _ (if ?c then _ else _) => destruct c
  | |- agrees _ _ (match ?c with O => _ | S _ => _ end) => destruct c
  end.

Lemma lookup_leaf_verified g key block shard r b start v :
  run_pure (fetch_from g) (lookup_leaf key block shard r b start) = Ok v → verify_object r b = Ok tt.
Proof.
  unfold lookup_leaf. destruct (decode_index r b shard INDEX_MAGIC) eqn:E; [|done].
  intros _. by eapply decode_index_verified.
Qed.

Lemma lookup_leaf_agrees f g key block shard r b start :
  authentic f g → agrees f g (lookup_leaf key block shard r b start).
Proof.
  intros Ha. unfold lookup_leaf. repeat agrees_step. apply agrees_fetch; [done| |].
  - intros b' v _ Hr. destruct (decode_data_page _ b' shard) eqn:E; [|done].
    by eapply decode_data_page_verified.
  - intros b'. by repeat agrees_step.
Qed.

Lemma lookup_agrees f g reader key block :
  authentic f g → agrees f g (RunReader_lookup reader key block).
Proof.
  intros Ha. unfold RunReader_lookup. repeat agrees_step. apply agrees_fetch; [done| |].
  - intros b v _ Hr. destruct (starts_with b INTERNAL_MAGIC); [|by eapply lookup_leaf_verified].
    destruct (decode_index _ b _ INTERNAL_MAGIC) eqn:E; [|done]. by eapply decode_index_verified.
  - intros b. repeat agrees_step; [|by apply lookup_leaf_agrees].
    apply agrees_fetch; [done| |].
    + intros b' v _ Hr. by eapply lookup_leaf_verified.
    + intros b'. by apply lookup_leaf_agrees.
Qed.

(** C28: a store that fails, or returns altered or misplaced objects, never
    makes a lookup of a built run answer wrongly: if the lookup returns, it
    returns what the records say (and otherwise it is an error). *)
Theorem built_run_integrity records reference objects f g key block v :
  build collect_object records [] = (Ok reference, objects) →
  Forall (λ r, (rec_block r <= u64_max)%N) records → holds f objects → authentic f g →
  run_pure (fetch_from g) (open_lookup reference key block) = Ok v →
  v = state_at records key block.
Proof.
  intros Hb Hu Hh Ha Hg. destruct (holds_run f _ _ _ Hb Hu Hh) as (b & reader & Hf & Hd & Hr).
  simpl in Hg. destruct (g reference) as [b'|] eqn:Eg; [|done].
  destruct (RunReader_decode reference b') as [reader'|] eqn:Ed; [|done].
  rewrite (Ha _ _ Eg) in Hf by (by eapply RunReader_decode_verified).
  injection Hf as ->. assert (reader' = reader) as -> by congruence.
  apply (lookup_agrees f g) in Hg; [|done]. rewrite (lookup_rep f _ _ _ _ Hr) in Hg. congruence.
Qed.

(** ** Bounded fetches *)

(** A fetch of an object of at most 1 MiB with a digest that is not zero. *)
Definition bounded_fetch (X : Type) (e : fetchE X) : Prop :=
  match e with
  | Fetch r => ref_length r ≠ 0%N ∧ (ref_length r <= MAX_PAGE_BYTES)%N ∧ ref_digest r ≠ zero_hash
  end.

Lemma validate_index_bounded r : validate_index_ref r = Ok tt → bounded_fetch _ (Fetch r).
Proof.
  unfold validate_index_ref. destruct (_ || _) eqn:E; [done|]. bool_prop. intros _.
  split_and!; [done| |done]. unfold MAX_INDEX_BYTES, MAX_PAGE_BYTES in *. lia.
Qed.
Lemma page_ref_bounded r : page_ref_invalid r = false → bounded_fetch _ (Fetch r).
Proof. unfold page_ref_invalid. intros E. by bool_prop. Qed.

Lemma bounded_fetch_object {A} n m r (k : bytes → prog fetchE (result A)) :
  bounded_fetch _ (Fetch r) → (∀ b, bounded bounded_fetch n (k b)) →
  bounded bounded_fetch (S n) (let! b := fetch_object m r in k b).
Proof. intros Hr Hk. constructor; [done|]. intros [b|e]; [apply Hk|constructor]. Qed.

Ltac bounded_step :=
  match goal with
  | |- bounded _ _ (Ret _) => constructor
  | |- bounded _ _ (if ?c then _ else _) => destruct c eqn:?
  | |- bounded _ _ (match ?c with _ => _ end) => destruct c eqn:?
  end.

Ltac validated :=
  match goal with
  | Hv : validate_index_ref ?r = Ok ?u |- bounded_fetch _ (Fetch ?r) =>
      destruct u; by apply validate_index_bounded
  end.

Lemma lookup_leaf_bounded key block shard r b start :
  bounded bounded_fetch 1 (lookup_leaf key block shard r b start).
Proof.
  unfold lookup_leaf. repeat bounded_step. apply bounded_fetch_object; [by apply page_ref_bounded|].
  intros b'. repeat bounded_step.
Qed.

(** C29: whatever the store answers, a lookup issues at most three fetches,
    and every one asks for a non-empty object of at most 1 MiB. *)
Theorem lookup_fetches_bounded reader key block :
  bounded bounded_fetch 3 (RunReader_lookup reader key block).
Proof.
  unfold RunReader_lookup. repeat bounded_step.
  apply bounded_fetch_object; [validated|].
  intros b. repeat bounded_step.
  - apply bounded_fetch_object; [validated|].
    intros b'. apply lookup_leaf_bounded.
  - eapply bounded_weaken; [apply lookup_leaf_bounded|lia].
Qed.

(** ** What the builder accepts and emits *)

Lemma build_records_accepts {S} (emit : EncodedObject → eff S unit) records previous parts s parts' s' :
  build_records emit records previous parts s = (Ok parts', s') →
  sorted_by rec_version records ∧ Forall (λ r, rec_key r ≠ []) records ∧
  Forall (λ r, 25 + len (rec_key r) + len (rec_value r) <= MAX_PAGE_BYTES)%N records ∧
  ∀ r p, r ∈ records → previous = Some p → clt p (rec_version r).
Proof.
  revert previous parts s; induction records as [|r records IH]; intros previous parts s He.
  { split_and!; [constructor..|]. intros r p. by intros ?%elem_of_nil. }
  cbn [build_records] in He. case_bool_decide as Hk; [by eff_step He|].
  destruct (not_above _ _) eqn:Ea; [by eff_step He|]. rewrite not_above_false in Ea.
  eff_step He. eff_step He. destruct (_ <? _)%N eqn:Em; [by eff_step He|]. do 2 eff_step He.
  apply eff_bind_ok in He as (ps & s1 & _ & He). apply IH in He as (Hs & Hks & Hms & Hlt).
  destruct (checked_add usize_max _ (len _)) as [n|] eqn:E1; [|done]. injection Es as <-.
  destruct (checked_add usize_max _ (16 + 9)) as [m|] eqn:E2; [|done]. injection Es0 as <-.
  apply checked_add_Some in E1 as [-> _]. apply checked_add_Some in E2 as [-> _]. bool_prop.
  split_and!; [|by constructor|constructor; [lia|done]|].
  - apply sorted_cons. split; [done|]. intros y Hy. by eapply Hlt.
  - intros y p [->|Hy]%elem_of_cons Hp; [by apply Ea|].
    eapply clt_trans; [by apply Ea|]. by eapply Hlt.
Qed.

(** C30: with any sink, the builder only accepts records strictly sorted by
    key and block, with non-empty keys, each fitting a 1 MiB page. *)
Theorem build_accepts_only_sorted {S} (emit : EncodedObject → eff S unit) records s reference s' :
  build emit records s = (Ok reference, s') →
  sorted_by rec_version records ∧ Forall (λ r, rec_key r ≠ []) records ∧
  Forall (λ r, 25 + len (rec_key r) + len (rec_value r) <= MAX_PAGE_BYTES)%N records.
Proof.
  unfold build. intros (parts & s1 & E1 & _)%eff_bind_ok.
  by apply build_records_accepts in E1 as (? & ? & ? & _).
Qed.

(** C40: at every moment, also after an error, the objects emitted by the
    builder are closed under references and within their size bounds, and a
    successful build emits the returned root last. *)
Theorem build_emits_in_dependency_order records :
  let '(r, objects) := build collect_object records [] in
  emission objects ∧
  ∀ reference, r = Ok reference →
    ∃ earlier refs root, objects = earlier ++ [root] ∧ obj_reference root = reference ∧
      obj_bytes root = root_payload refs ∧ length refs = PARTITIONS.
Proof.
  pose proof (build_triple records [] eq_refl) as Hb.
  destruct (build collect_object records []) as [[r|e] objects].
  - destruct Hb as [He Hroot]. split; [done|]. by intros reference [= <-].
  - by split.
Qed.

(** C31: the page decoder accepts exactly the canonical encodings of non-empty,
    strictly sorted, correctly routed records: decoding is the inverse of
    encoding, and no second byte string decodes to the same records. *)
Theorem data_page_canonical b shard records :
  parse_data_payload b (Some shard) = Ok records ↔
  b = page_payload records ∧ records ≠ [] ∧ (len b <= usize_max)%N ∧ (len records <= u32_max)%N
  ∧ Forall wf_record records ∧ Forall (λ r, partition (rec_key r) = shard) records
  ∧ sorted_by rec_version records.
Proof. apply (parse_data_payload_iff b (Some shard)). Qed.

(** The fence-index decoder accepts exactly the canonical encodings of
    non-empty, strictly sorted fences of the right partition whose references
    are bounded, in bytes with the length and SHA-256 of the reference. *)
Theorem fence_index_canonical reference b shard magic fences :
  length magic = 4 →
  decode_index reference b shard magic = Ok fences ↔
  (ref_length reference = len b ∧ ref_digest reference = digest b)
  ∧ b = index_payload magic fences ∧ fences ≠ [] ∧ (len b <= MAX_INDEX_BYTES)%N
  ∧ Forall (wf_fence shard (fence_limit magic)) fences ∧ sorted_by fence_version fences.
Proof. apply decode_index_iff. Qed.

End run_theorems.

(** ** A concrete run *)

Module RunExample.
#[local] Existing Instances toy_sha toy_zstd.

Definition record (key : string) (block : N) (value : string) : RunRecord :=
  {| rec_key := byte_string key; rec_block := block; rec_value := byte_string value |}.
Definition records : list RunRecord :=
  [record "alice" 3 "10"; record "alice" 7 "25"; record "bob" 5 "4"; record "carol" 1 "9"].
Definition built : result ObjectRef * list EncodedObject := build collect_object records [].
Definition reference : ObjectRef := match built.1 with Ok r => r | Err _ => default_ref end.
Definition objects : list EncodedObject := built.2.

Lemma built_ok : build collect_object records [] = (Ok reference, objects).
Proof. vm_compute. reflexivity. Qed.
Lemma blocks_ok : Forall (λ r, (rec_block r <= u64_max)%N) records.
Proof. repeat constructor; vm_compute; discriminate. Qed.
Definition holdsb : bool :=
  forallb (λ o, bool_decide (fetch_objects objects (obj_reference o) = Ok (obj_bytes o))
    && negb (bool_decide (ref_digest (obj_reference o) = zero_hash))) objects.
Lemma holds_ok : holds (fetch_objects objects) objects.
Proof.
  assert (holdsb = true) as Hb by (vm_compute; reflexivity).
  apply Forall_forall. intros o Ho. unfold holdsb in Hb. rewrite forallb_forall in Hb.
  specialize (Hb o). rewrite <-list_elem_of_In in Hb. specialize (Hb Ho).
  apply andb_true_iff in Hb as [H1 H2]. apply negb_true_iff in H2.
  split; [exact (bool_decide_eq_true_1 _ H1)|exact (bool_decide_eq_false_1 _ H2)].
Qed.

Lemma built_run_lookup_witness :
  run_pure (fetch_from (fetch_objects objects)) (open_lookup reference (byte_string "alice") 6)
  = Ok (Some (byte_string "10")).
Proof.
  exact (built_run_lookup (H1 := toy_zstd_laws) records reference objects (fetch_objects objects)
    (byte_string "alice") 6 built_ok blocks_ok holds_ok).
Defined.

Lemma built_run_scan_witness :
  run_pure (fetch_from (fetch_objects objects)) (open_scan reference 5)
  = Ok (map (λ r, Ok (Some r)) records ++ [Ok None]).
Proof.
  exact (built_run_scan (H1 := toy_zstd_laws) records reference objects (fetch_objects objects) 5
    built_ok blocks_ok holds_ok).
Defined.

(** The same store with its first object, a data page, overwritten. *)
Definition first_ref : ObjectRef :=
  match objects with o :: _ => obj_reference o | [] => default_ref end.
Definition overwritten (r : ObjectRef) : result bytes :=
  if bool_decide (r = first_ref) then Ok [Byte.x00] else fetch_objects objects r.

Lemma overwritten_authentic : authentic (fetch_objects objects) overwritten.
Proof.
  intros r b. unfold overwritten. case_bool_decide as Hr; [|done]. subst r.
  intros [= <-] Hv. vm_compute in Hv. discriminate Hv.
Qed.

Lemma built_run_integrity_witness :
  run_pure (fetch_from overwritten) (open_lookup reference (byte_string "bob") 9)
    = Ok (Some (byte_string "4")) ∧
  run_pure (fetch_from overwritten) (open_lookup reference (byte_string "alice") 9)
    = Err (Msg "run object reference length or SHA-256 mismatch") ∧
  Some (byte_string "4") = state_at records (byte_string "bob") 9.
Proof.
  split; [vm_compute; reflexivity|]. split; [vm_compute; reflexivity|].
  apply (built_run_integrity (H1 := toy_zstd_laws) records reference objects (fetch_objects objects)
    overwritten (byte_string "bob") 9 _ built_ok blocks_ok holds_ok overwritten_authentic).
  vm_compute. reflexivity.
Defined.

Lemma build_accepts_only_sorted_witness : Forall (λ r, rec_key r ≠ []) records.
Proof. exact (proj1 (proj2 (build_accepts_only_sorted collect_object records [] reference objects built_ok))). Defined.

(** The fence leaf of the first partition that has one. *)
Definition leaf_object : EncodedObject :=
  match filter (λ o, starts_with (obj_bytes o) INDEX_MAGIC = true) objects with
  | o :: _ => o
  | [] => {| obj_reference := default_ref; obj_bytes := [] |}
  end.
Definition leaf_shard : nat := partition (byte_string "alice").
Definition leaf_fences : list Fence :=
  match decode_index (obj_reference leaf_object) (obj_bytes leaf_object) leaf_shard INDEX_MAGIC with
  | Ok fences => fences
  | Err _ => []
  end.

Lemma fence_index_canonical_witness :
  obj_bytes leaf_object = index_payload INDEX_MAGIC leaf_fences ∧ leaf_fences ≠ [].
Proof.
  assert (decode_index (obj_reference leaf_object) (obj_bytes leaf_object) leaf_shard INDEX_MAGIC
    = Ok leaf_fences) as Hd by (vm_compute; reflexivity).
  apply (fence_index_canonical (obj_reference leaf_object) (obj_bytes leaf_object) leaf_shard
    INDEX_MAGIC leaf_fences eq_refl) in Hd as (_ & Hb & Hne & _).
  exact (conj Hb Hne).
Defined.
End RunExample.
