(* ===== verification/Head.v ===== *)
(** * [codec/src/head.rs]: the mutable head, the key layout, account states

    [Head_decode] is the validation every reader and writer applies to the
    head object.  [serde_json] is not part of the sources: it is the class
    [HeadJson], which only promises what the derived implementations do. *)

From S2P Require Import Prelude Bytes Externals Hash RunFormat.
From stdpp Require Import pretty.
From Stdlib Require Import Lia.

Definition L0_TRIGGER : N := 4.
Definition MAX_L0_BACKLOG : N := 16.
Definition FANOUT : N := 8.
Definition MAX_LEVELS : N := 8.
Definition MAX_HEAD : N := 256 * 1024.

(** [Ref], and the two conversions with [ObjectRef]. *)
Record Ref := { r_digest : Hash32; r_length : N }.
#[export] Instance Ref_eq_dec : EqDecision Ref.
Proof. solve_decision. Defined.
Definition ref_of_object (r : ObjectRef) : Ref :=
  {| r_digest := ref_digest r; r_length := ref_length r |}.
Definition object_of_ref (r : Ref) : ObjectRef :=
  {| ref_digest := r_digest r; ref_length := r_length r |}.

Record Run := {
  run_start : N;
  run_end : N;
  run_weight : N;
  run_keys : N;
  run_shards : N;
  run_root : Ref;
  run_root_bytes : string
}.
#[export] Instance Run_eq_dec : EqDecision Run.
Proof. solve_decision. Defined.

Record Head := {
  h_magic : string;
  h_chain_id : N;
  h_genesis : Hash32;
  h_number : N;
  h_hash : Hash32;
  h_state_root : Hash32;
  h_input_sha256 : Hash32;
  h_parent : option Ref;
  h_l0 : list Run;
  h_levels : list (option Run)
}.
#[export] Instance Head_eq_dec : EqDecision Head.
Proof. solve_decision. Defined.

(** The widths of the fields: [u64] and [u32]. *)
Record wf_run (r : Run) : Prop := {
  wf_run_start : (run_start r <= u64_max)%N;
  wf_run_end : (run_end r <= u64_max)%N;
  wf_run_weight : (run_weight r <= u64_max)%N;
  wf_run_keys : (run_keys r <= u64_max)%N;
  wf_run_shards : (run_shards r <= u32_max)%N;
  wf_run_root : (r_length (run_root r) <= u32_max)%N
}.
Record wf_head (h : Head) : Prop := {
  wf_chain_id : (h_chain_id h <= u64_max)%N;
  wf_number : (h_number h <= u64_max)%N;
  wf_parent : ∀ r, h_parent h = Some r → (r_length r <= u32_max)%N;
  wf_l0 : Forall wf_run (h_l0 h);
  wf_levels : ∀ r, Some r ∈ h_levels h → wf_run r
}.

(** [serde_json::to_vec] and [serde_json::from_slice] at [Head]. *)
Class HeadJson := {
  head_to_json : Head → result bytes;
  head_from_json : bytes → result Head
}.
Class HeadJsonLaws `{HeadJson} : Prop := {
  (** What is written is read back. *)
  head_json_round h b : head_to_json h = Ok b → wf_head h → head_from_json b = Ok h;
  (** A field that does not fit its integer type is a parse error. *)
  head_json_wf b h : head_from_json b = Ok h → wf_head h
}.

(** [Iterator::flatten] on options. *)
Fixpoint flatten {A} (l : list (option A)) : list A :=
  match l with
  | [] => []
  | Some x :: l => x :: flatten l
  | None :: l => flatten l
  end.

(** [Head::runs]: oldest first. *)
Definition runs (h : Head) : list Run := flatten (rev (h_levels h)) ++ h_l0 h.

(** [unit]; for the levels a head can have, the [u64] does not overflow. *)
Definition unit_of (level : nat) : N := (L0_TRIGGER * FANOUT ^ N.of_nat level)%N.

(** [u32::is_power_of_two] *)
Definition is_power_of_two (n : N) : bool := negb (n =? 0)%N && (N.land n (n - 1) =? 0)%N.

(** The loop over the levels. *)
Fixpoint check_levels (index : nat) (levels : list (option Run)) : result unit :=
  match levels with
  | [] => Ok tt
  | None :: levels => check_levels (S index) levels
  | Some run :: levels =>
      if (run_weight run =? 0)%N
         || negb (run_weight run mod unit_of index =? 0)%N
         || (unit_of index * FANOUT <=? run_weight run)%N
      then bail "invalid tiered level weight"
      else check_levels (S index) levels
  end.

Section head.
Context `{Sha256, Hex, HeadJson}.

(** [Run::input] *)
Definition Run_input (r : Run) : result (ObjectRef * bytes) :=
  let? root := hex_decode (run_root_bytes r) in
  Ok (object_of_ref (run_root r), root).

(** The loop over the runs: returns [(expected_start, count)]. *)
Fixpoint check_runs (expected_start count : N) (l : list Run) : result (N * N) :=
  match l with
  | [] => Ok (expected_start, count)
  | run :: l =>
      let? root := hex_decode (run_root_bytes run) in
      if negb (run_start run =? expected_start)%N
         || (run_end run <? run_start run)%N
         || negb (is_power_of_two (run_shards run))
         || negb (len root =? r_length (run_root run))%N
         || negb (bool_decide (digest root = r_digest (run_root run)))
      then bail "invalid tiered run interval, root or summary"
      else check_runs (wrapping_add64 (run_end run) 1) (count + 1) l
  end.

(** [Head::decode] *)
Definition Head_decode (b : bytes) : result Head :=
  let? head := head_from_json b in
  if negb (bool_decide (h_magic head = "FTVH1"))
     || (MAX_L0_BACKLOG <? len (h_l0 head))%N || (MAX_LEVELS <? len (h_levels head))%N
  then bail "invalid tiered head"
  else if existsb (λ run, negb (run_weight run =? 1)%N) (h_l0 head)
  then bail "invalid L0 run weight"
  else
    let? _ := check_levels 0 (h_levels head) in
    let? (expected_start, count) := check_runs 0 0 (runs head) in
    if (count =? 0)%N || negb (expected_start =? wrapping_add64 (h_number head) 1)%N
    then bail "tiered runs do not cover genesis through the head"
    else Ok head.

End head.

(** [head_key] *)
Definition head_key (chain_id : N) : string := "chains/" +:+ pretty chain_id +:+ "/heads/tiered-v1.json".

(** ** Keys of a run's records *)

Definition account_key (address : array 20) : bytes := Byte.x01 :: arr address.
Definition storage_key (address : array 20) (incarnation : N) (slot : array 32) : bytes :=
  Byte.x02 :: arr address ++ u64_be incarnation ++ arr slot.
Definition code_key (hash : array 32) : bytes := Byte.x03 :: arr hash.

(** [AccountState]: a post-state version; tombstones have zero fields. *)
Record AccountState := {
  acc_exists : bool;
  acc_incarnation : N;
  acc_nonce : N;
  acc_balance : array 32;
  acc_code_hash : array 32
}.
#[export] Instance AccountState_eq_dec : EqDecision AccountState.
Proof. solve_decision. Defined.

(** [AccountState::encode] *)
Definition AccountState_encode (s : AccountState) : bytes :=
  (if acc_exists s then Byte.x01 else Byte.x00)
    :: u64_be (acc_incarnation s) ++ u64_be (acc_nonce s) ++ arr (acc_balance s) ++ arr (acc_code_hash s).

(** [value[a..b].try_into()?] for a slice that is in range. *)
Definition field (n : nat) (value : bytes) (start : N) : result (array n) :=
  let? raw := unwrap (get_range value start (start + N.of_nat n)) in
  ok_or (to_array n raw) "could not convert slice to array".

(** [AccountState::decode] *)
Definition AccountState_decode (value : bytes) : result AccountState :=
  match value with
  | flag :: _ =>
      if negb (len value =? 81)%N || (1 <? byte_N flag)%N
      then bail "invalid full-key account poststate"
      else
        let? incarnation := field 8 value 1 in
        let? nonce := field 8 value 9 in
        let? balance := field 32 value 17 in
        let? code_hash := field 32 value 49 in
        let state := {| acc_exists := (byte_N flag =? 1)%N;
                        acc_incarnation := from_be (arr incarnation);
                        acc_nonce := from_be (arr nonce);
                        acc_balance := balance; acc_code_hash := code_hash |} in
        if negb (acc_exists state)
           && (negb (acc_nonce state =? 0)%N || negb (bool_decide (acc_balance state = zero_hash))
               || negb (bool_decide (acc_code_hash state = zero_hash)))
        then bail "invalid account tombstone"
        else Ok state
  | [] => bail "invalid full-key account poststate"
  end.

(** A state [encode] can write: [u64] fields, and a tombstone is all zero. *)
Record wf_account (s : AccountState) : Prop := {
  wf_acc_incarnation : (acc_incarnation s <= u64_max)%N;
  wf_acc_nonce : (acc_nonce s <= u64_max)%N;
  wf_acc_tombstone : acc_exists s = false →
    acc_nonce s = 0%N ∧ acc_balance s = zero_hash ∧ acc_code_hash s = zero_hash
}.
