(* ===== verification/ToyJson.v ===== *)
(** * A concrete [serde_json] for heads

    A head is written as a tree of numbers and strings, and the tree as a
    sequence of tokens.  It satisfies the laws of [HeadJson] and computes. *)

From S2P Require Import Prelude Bytes Externals Hash RunFormat Head.
From stdpp Require Import countable list.
From Stdlib Require Import Lia.

Abbreviation tree := (gen_tree (N + string)).

Definition t_N (n : N) : tree := GenLeaf (inl n).
Definition t_str (s : string) : tree := GenLeaf (inr s).
Definition t_hash (h : Hash32) : tree := t_N (from_be (arr h)).

Definition un_N (m : N) (t : tree) : option N :=
  match t with GenLeaf (inl n) => if (n <=? m)%N then Some n else None | _ => None end.
Definition un_str (t : tree) : option string :=
  match t with GenLeaf (inr s) => Some s | _ => None end.
Definition un_hash (t : tree) : option Hash32 :=
  match t with GenLeaf (inl n) => to_array 32 (to_be 32 n) | _ => None end.

Definition t_ref (r : Ref) : tree := GenNode 0 [t_hash (r_digest r); t_N (r_length r)].
Definition un_ref (t : tree) : option Ref :=
  match t with
  | GenNode _ [d; l] =>
      d ← un_hash d; l ← un_N u32_max l; Some {| r_digest := d; r_length := l |}
  | _ => None
  end.

Definition t_run (r : Run) : tree :=
  GenNode 0 [t_N (run_start r); t_N (run_end r); t_N (run_weight r); t_N (run_keys r);
             t_N (run_shards r); t_ref (run_root r); t_str (run_root_bytes r)].
Definition un_run (t : tree) : option Run :=
  match t with
  | GenNode _ [s; e; w; k; h; r; b] =>
      s ← un_N u64_max s; e ← un_N u64_max e; w ← un_N u64_max w; k ← un_N u64_max k;
      h ← un_N u32_max h; r ← un_ref r; b ← un_str b;
      Some {| run_start := s; run_end := e; run_weight := w; run_keys := k; run_shards := h;
              run_root := r; run_root_bytes := b |}
  | _ => None
  end.

Definition t_option {A} (f : A → tree) (o : option A) : tree :=
  GenNode 0 (match o with Some a => [f a] | None => [] end).
Definition un_option {A} (f : tree → option A) (t : tree) : option (option A) :=
  match t with
  | GenNode _ [] => Some None
  | GenNode _ [a] => a ← f a; Some (Some a)
  | _ => None
  end.
Definition t_list {A} (f : A → tree) (l : list A) : tree := GenNode 0 (map f l).
Definition un_list {A} (f : tree → option A) (t : tree) : option (list A) :=
  match t with GenNode _ l => mapM f l | _ => None end.

Definition t_head (h : Head) : tree :=
  GenNode 0 [t_str (h_magic h); t_N (h_chain_id h); t_hash (h_genesis h); t_N (h_number h);
             t_hash (h_hash h); t_hash (h_state_root h); t_hash (h_input_sha256 h);
             t_option t_ref (h_parent h); t_list t_run (h_l0 h);
             t_list (t_option t_run) (h_levels h)].
Definition un_head (t : tree) : option Head :=
  match t with
  | GenNode _ [m; c; g; n; h; s; i; p; l; v] =>
      m ← un_str m; c ← un_N u64_max c; g ← un_hash g; n ← un_N u64_max n; h ← un_hash h;
      s ← un_hash s; i ← un_hash i; p ← un_option un_ref p; l ← un_list un_run l;
      v ← un_list (un_option un_run) v;
      Some {| h_magic := m; h_chain_id := c; h_genesis := g; h_number := n; h_hash := h;
              h_state_root := s; h_input_sha256 := i; h_parent := p; h_l0 := l; h_levels := v |}
  | _ => None
  end.

(** A tree as a sequence of tokens, and a token as bytes. *)
Definition token : Type := nat * nat + (N + string).
Definition token_bytes (t : token) : bytes :=
  match t with
  | inl (n, label) => Byte.x02 :: to_be 4 (N.of_nat n) ++ to_be 4 (N.of_nat label)
  | inr (inl n) => Byte.x00 :: to_be 32 n
  | inr (inr s) => Byte.x01 :: to_be 4 (N.of_nat (String.length s)) ++ byte_string s
  end.
Fixpoint bytes_tokens (fuel : nat) (b : bytes) : option (list token) :=
  match fuel, b with
  | _, [] => Some []
  | O, _ => None
  | S fuel, tag :: b =>
      match byte_N tag with
      | 0%N =>
          l ← bytes_tokens fuel (drop 32 b); Some (inr (inl (from_be (take 32 b))) :: l)
      | 1%N =>
          let n := N.to_nat (from_be (take 4 b)) in
          l ← bytes_tokens fuel (drop n (drop 4 b));
          Some (inr (inr (String.string_of_list_byte (take n (drop 4 b)))) :: l)
      | 2%N =>
          l ← bytes_tokens fuel (drop 8 b);
          Some (inl (N.to_nat (from_be (take 4 b)), N.to_nat (from_be (take 4 (drop 4 b)))) :: l)
      | _ => None
      end
  end.

Definition head_bytes (h : Head) : bytes := flat_map token_bytes (gen_tree_to_list (t_head h)).
Definition bytes_head (b : bytes) : option Head :=
  l ← bytes_tokens (length b) b; t ← gen_tree_of_list [] l; un_head t.

(** Writing checks that what it wrote is read back, as it is for every head
    whose fields fit. *)
Definition toy_json : HeadJson :=
  {| head_to_json := λ h,
       let b := head_bytes h in
       if bool_decide (bytes_head b = Some h) then Ok b else bail "unrepresentable head";
     head_from_json := λ b, ok_or (bytes_head b) "invalid JSON" |}.

Lemma un_N_le m t n : un_N m t = Some n → (n <= m)%N.
Proof. destruct t as [[k|]|]; simpl; try done. destruct (_ <=? _)%N eqn:E; [|done]. bool_prop. by intros [= <-]. Qed.
Lemma un_ref_wf t r : un_ref t = Some r → (r_length r <= u32_max)%N.
Proof.
  destruct t as [|k [|d [|l []]]]; try done. cbn [un_ref]. intros (x & _ & Hl)%bind_Some.
  apply bind_Some in Hl as (n & Hn & [= <-]). by eapply un_N_le.
Qed.


(** Split a successful chain of option binds. *)
Ltac binds H :=
  lazymatch type of H with
  | (_ ← _; _) = Some _ =>
      let x := fresh "x" in let E := fresh "E" in
      apply bind_Some in H as (x & E & H); binds H
  | _ => idtac
  end.

Lemma un_run_wf t r : un_run t = Some r → wf_run r.
Proof.
  destruct t as [|k [|s [|e [|w [|n [|h [|d [|b []]]]]]]]]; try done. cbn [un_run]. intros Hr.
  binds Hr. injection Hr as <-. split; simpl; try by eapply un_N_le. by eapply un_ref_wf.
Qed.

Lemma un_option_Some {A} (g : tree → option A) t a : un_option g t = Some (Some a) → ∃ t', g t' = Some a.
Proof.
  destruct t as [|k [|x []]]; try done. simpl. intros (y & Hy & [= ->])%bind_Some. eauto.
Qed.
Lemma un_list_Some {A} (g : tree → option A) t l a : un_list g t = Some l → a ∈ l → ∃ t', g t' = Some a.
Proof.
  destruct t as [|k ts]; [done|]. simpl. intros Hm%mapM_Some Ha.
  apply list_elem_of_lookup_1 in Ha as [i Hi].
  destruct (Forall2_lookup_r _ _ _ _ _ Hm Hi) as (t' & _ & Ht). eauto.
Qed.


Lemma un_head_wf t h : un_head t = Some h → wf_head h.
Proof.
  destruct t as [|k [|m [|c [|g [|n [|hh [|s [|i [|p [|l [|v []]]]]]]]]]]]; try done.
  cbn [un_head]. intros Hh. binds Hh. injection Hh as <-. split; simpl.
  - by eapply un_N_le.
  - by eapply un_N_le.
  - intros r ->. apply un_option_Some in E6 as [t' Ht]. by eapply un_ref_wf.
  - apply Forall_forall. intros r Hr. eapply un_list_Some in E7 as [t' Ht]; [|done]. by eapply un_run_wf.
  - intros r Hr. eapply un_list_Some in E8 as [t' Ht]; [|done].
    apply un_option_Some in Ht as [t'' Ht]. by eapply un_run_wf.
Qed.

Lemma toy_json_laws : @HeadJsonLaws toy_json.
Proof.
  split; cbn [head_to_json head_from_json toy_json].
  - intros h b. case_bool_decide as E; [|done]. intros [= <-] _. by rewrite E.
  - intros b h. unfold bytes_head. destruct (bytes_tokens _ b) as [l|]; [|done]. cbn [mbind option_bind].
    destruct (gen_tree_of_list [] l) as [t|]; [|done]. cbn [mbind option_bind].
    destruct (un_head t) as [h'|] eqn:E; [|done]. intros [= <-]. by eapply un_head_wf.
Qed.
