(* ===== verification/HeadFacts.v ===== *)
(** * What a decoded head guarantees

    [Head_decode] accepts exactly the heads that satisfy [head_valid]; the
    intervals of a valid head partition the blocks from genesis to the head.
    The key layout is injective and account states round-trip. *)

From S2P Require Import Prelude Bytes Externals ToyCrates Hash RunFormat Head ToyJson.
From stdpp Require Import pretty list.
From Stdlib Require Import Lia.

(** ** Validity *)

(** The intervals follow each other from [start], modulo [2^64]; the next
    start is [stop]. *)
Fixpoint chained (start : N) (l : list Run) (stop : N) : Prop :=
  match l with
  | [] => start = stop
  | r :: l => run_start r = start ∧ (run_start r <= run_end r)%N ∧
              chained (wrapping_add64 (run_end r) 1) l stop
  end.

(** The same with unbounded integers. *)
Fixpoint contiguous (start : N) (l : list Run) (stop : N) : Prop :=
  match l with
  | [] => start = stop
  | r :: l => run_start r = start ∧ (run_start r <= run_end r)%N ∧ contiguous (run_end r + 1) l stop
  end.

Definition level_ok (index : nat) (r : Run) : Prop :=
  run_weight r ≠ 0%N ∧ (run_weight r mod unit_of index = 0)%N ∧
  (run_weight r < unit_of index * FANOUT)%N.

Section valid.
Context `{Sha256, Hex}.

(** The inline root is the object the run refers to. *)
Definition root_ok (r : Run) : Prop :=
  is_power_of_two (run_shards r) = true ∧
  ∃ root, hex_decode (run_root_bytes r) = Ok root ∧
    len root = r_length (run_root r) ∧ digest root = r_digest (run_root r).

Record head_valid (h : Head) : Prop := {
  valid_magic : h_magic h = "FTVH1";
  valid_l0 : (len (h_l0 h) <= MAX_L0_BACKLOG)%N;
  valid_levels : (len (h_levels h) <= MAX_LEVELS)%N;
  valid_l0_weight : Forall (λ r, run_weight r = 1%N) (h_l0 h);
  valid_level_weight i r : h_levels h !! i = Some (Some r) → level_ok i r;
  valid_roots : Forall root_ok (runs h);
  valid_nonempty : runs h ≠ [];
  valid_chained : chained 0 (runs h) (wrapping_add64 (h_number h) 1)
}.

Lemma check_levels_ok index levels :
  check_levels index levels = Ok tt ↔
  ∀ i r, levels !! i = Some (Some r) → level_ok (index + i) r.
Proof.
  revert index; induction levels as [|[r|] levels IH]; intros index; cbn [check_levels].
  - split; [by intros _ i r|done].
  - assert ((run_weight r =? 0)%N || negb (run_weight r mod unit_of index =? 0)%N
      || (unit_of index * FANOUT <=? run_weight r)%N = false ↔ level_ok index r) as Ht.
    { unfold level_ok. rewrite !orb_false_iff, negb_false_iff, N.eqb_neq, N.eqb_eq, N.leb_gt. tauto. }
    destruct (_ || _) eqn:E.
    + split; [done|]. intros Hl. specialize (Hl 0 r eq_refl). rewrite Nat.add_0_r in Hl.
      apply Ht in Hl. done.
    + rewrite IH. split.
      * intros Hl [|i] s Hs; [injection Hs as <-; rewrite Nat.add_0_r; by apply Ht|].
        rewrite <-Nat.add_succ_comm. by apply Hl.
      * intros Hl i s Hs. rewrite Nat.add_succ_comm. by apply (Hl (S i)).
  - rewrite IH. split.
    + intros Hl [|i] s Hs; [done|]. rewrite <-Nat.add_succ_comm. by apply Hl.
    + intros Hl i s Hs. rewrite Nat.add_succ_comm. by apply (Hl (S i)).
Qed.

Lemma check_runs_ok start count l stop n :
  check_runs start count l = Ok (stop, n) ↔
  chained start l stop ∧ Forall root_ok l ∧ n = (count + len l)%N.
Proof.
  revert start count; induction l as [|r l IH]; intros start count; cbn [check_runs chained].
  { split; [intros [= <- <-]|intros (-> & _ & ->)].
    - split_and!; [done|constructor|]. rewrite len_nil. lia.
    - rewrite len_nil. do 2 f_equal. lia. }
  rewrite Forall_cons, len_cons. unfold root_ok at 1.
  destruct (hex_decode (run_root_bytes r)) as [root|e] eqn:Eh.
  2: { split; [done|]. by intros (_ & [(_ & ? & ? & _) _] & _). }
  destruct (_ || _) eqn:E.
  - split; [done|]. intros ((Hs & Hle & _) & [(Hp & root' & [= <-] & Hl & Hd) _] & _).
    rewrite Hs, N.eqb_refl, Hp, Hl, N.eqb_refl, bool_decide_eq_true_2 in E by done.
    rewrite (proj2 (N.ltb_ge _ _)) in E by lia. done.
  - bool_prop. rewrite IH. split.
    + intros (Hc & HF & ->). split; [by split_and!|]. split; [|lia].
      split; [split; [done|]|done]. by exists root.
    + intros ((_ & _ & Hc) & [_ HF] & ->). split_and!; try done. lia.
Qed.

Lemma Head_decode_ok `{HeadJson} b h :
  Head_decode b = Ok h ↔ head_from_json b = Ok h ∧ head_valid h.
Proof.
  unfold Head_decode. destruct (head_from_json b) as [h'|e]; [|naive_solver].
  assert (∀ P, (Ok h' = Ok h ∧ P h ↔ h' = h ∧ P h')) as Hre by naive_solver.
  destruct (_ || _) eqn:E1.
  { split; [done|]. intros [[= ->] [Hm Hl Hv _ _ _ _ _]].
    rewrite bool_decide_eq_true_2, (proj2 (N.ltb_ge _ _)), (proj2 (N.ltb_ge _ _)) in E1 by done. done. }
  destruct (existsb _ _) eqn:E2.
  { split; [done|]. intros [[= ->] [_ _ _ Hw _ _ _ _]].
    apply existsb_exists in E2 as (r & Hr & Hb). apply list_elem_of_In in Hr.
    rewrite Forall_forall in Hw. rewrite (Hw r Hr) in Hb. done. }
  assert (Forall (λ r, run_weight r = 1%N) (h_l0 h')) as Hw.
  { apply Forall_forall. intros r Hr. destruct (decide (run_weight r = 1%N)) as [|Hn]; [done|].
    assert (existsb (λ run, negb (run_weight run =? 1)%N) (h_l0 h') = true) as Ht; [|congruence].
    apply existsb_exists. exists r. split; [by apply list_elem_of_In|].
    by apply negb_true_iff, N.eqb_neq. }
  destruct (check_levels 0 (h_levels h')) as [[]|] eqn:E3.
  2: { split; [done|]. intros [[= ->] [_ _ _ _ Hl _ _ _]].
       rewrite (proj2 (check_levels_ok 0 _)) in E3; done. }
  rewrite check_levels_ok in E3. bool_prop.
  destruct (check_runs 0 0 (runs h')) as [[stop n]|] eqn:E4.
  2: { split; [done|]. intros [[= ->] [_ _ _ _ _ Hr _ Hc]].
       assert (check_runs 0 0 (runs h) = Ok (wrapping_add64 (h_number h) 1, len (runs h))) as Ht;
         [by apply check_runs_ok|congruence]. }
  apply check_runs_ok in E4 as (Hc & Hr & ->).
  destruct (_ || _) eqn:E5.
  - split; [done|]. intros [[= ->] [_ _ _ _ _ _ Hne Hc']].
    destruct (runs h) as [|r l] eqn:Er; [done|]. rewrite len_cons in E5.
    assert (stop = wrapping_add64 (h_number h) 1) as ->.
    { clear -Hc Hc'. revert Hc Hc'. generalize 0%N. generalize (r :: l).
      intros l'. induction l' as [|x l' IH]; intros s; simpl; [congruence|naive_solver]. }
    rewrite N.eqb_refl in E5. destruct (0 + (1 + len l) =? 0)%N eqn:E6; [|done].
    apply N.eqb_eq in E6. lia.
  - bool_prop. split; [|by intros [[= ->] _]]. intros [= ->]. split; [done|].
    split; try done; [by intros Hn; rewrite Hn in *|by subst].
Qed.

End valid.

(** ** Coverage *)

Lemma wrapping_succ n : (n < u64_max)%N → wrapping_add64 n 1 = (n + 1)%N.
Proof. intros Hn. apply N.mod_small. lia. Qed.

Lemma chained_contiguous start l stop :
  Forall (λ r, (run_end r < u64_max)%N) l → chained start l stop → contiguous start l stop.
Proof.
  intros HF; revert start; induction HF as [|r l Hr HF IH]; intros start; simpl; [done|].
  rewrite wrapping_succ by done. naive_solver.
Qed.

(** In a contiguous list, a block between the ends is in exactly one run. *)
Lemma contiguous_cover start l stop :
  contiguous start l stop → (start <= stop)%N ∧
  ∀ n, (start <= n < stop)%N ↔
    ∃ i r, l !! i = Some r ∧ (run_start r <= n <= run_end r)%N.
Proof.
  revert start; induction l as [|r l IH]; intros start; simpl.
  { intros <-. split; [done|]. intros n. split; [lia|by intros (i & r & ? & _)]. }
  intros (Hs & Hle & Hc). destruct (IH _ Hc) as [Hstop Hn]. split; [lia|]. intros n. split.
  - intros Hb. destruct (decide (n <= run_end r)%N).
    + exists 0, r. split; [done|]. lia.
    + destruct (proj1 (Hn n)) as (i & s & Hi & Hr); [lia|]. by exists (S i), s.
  - intros ([|i] & s & Hi & Hr); simpl in Hi; [injection Hi as <-; lia|].
    assert (run_end r + 1 <= n < stop)%N; [|lia]. apply Hn. eauto.
Qed.

Lemma contiguous_unique start l stop i j r s n :
  contiguous start l stop → l !! i = Some r → l !! j = Some s →
  (run_start r <= n <= run_end r)%N → (run_start s <= n <= run_end s)%N → i = j.
Proof.
  revert start i j; induction l as [|x l IH]; intros start i j Hc Hi Hj Hr Hs; [done|].
  simpl in Hc. destruct Hc as (Hx & Hle & Hc). pose proof (contiguous_cover _ _ _ Hc) as [_ Hn].
  destruct i as [|i], j as [|j]; simpl in Hi, Hj; [done| | |].
  - injection Hi as <-. assert (run_end x + 1 <= n < stop)%N; [|lia]. apply Hn. eauto.
  - injection Hj as <-. assert (run_end x + 1 <= n < stop)%N; [|lia]. apply Hn. eauto.
  - f_equal. by eapply IH.
Qed.

Lemma contiguous_last start l stop r :
  contiguous start l stop → last l = Some r → stop = (run_end r + 1)%N.
Proof.
  revert start; induction l as [|x l IH]; intros start; [done|]. simpl. intros (_ & _ & Hc) Hl.
  destruct l as [|y l]; [injection Hl as <-; by rewrite Hc|]. by eapply IH.
Qed.

Lemma flatten_elem {A} (l : list (option A)) x : x ∈ flatten l ↔ Some x ∈ l.
Proof. induction l as [|[y|] l IH]; simpl; set_solver. Qed.

Lemma wf_runs h r : wf_head h → r ∈ runs h → wf_run r.
Proof.
  intros [_ _ _ Hl Hv] [Hr|Hr]%elem_of_app.
  - apply Hv. apply flatten_elem in Hr. rewrite !list_elem_of_In in *.
    by apply in_rev in Hr.
  - by apply (proj1 (Forall_forall _ _) Hl).
Qed.

(** The runs of a head that does not reach the last [u64] cover exactly the
    blocks from genesis to the head. *)
Lemma head_contiguous `{Sha256, Hex} h :
  head_valid h → wf_head h → Forall (λ r, (run_end r < u64_max)%N) (runs h) →
  contiguous 0 (runs h) (h_number h + 1).
Proof.
  intros Hv Hw HF. pose proof (valid_chained _ Hv) as Hc.
  pose proof (chained_contiguous _ _ _ HF Hc) as Hc'.
  destruct (last (runs h)) as [r|] eqn:El; [|apply last_None in El; by destruct (valid_nonempty _ Hv)].
  pose proof (contiguous_last _ _ _ _ Hc' El) as E. apply last_Some_elem_of in El.
  rewrite Forall_forall in HF. specialize (HF r El). destruct Hw as [_ Hn _ _ _].
  assert (h_number h ≠ u64_max) as Hne.
  { intros Hx. rewrite Hx in E. change (wrapping_add64 u64_max 1) with 0%N in E. lia. }
  rewrite wrapping_succ in Hc' by lia. done.
Qed.

(** ** Keys and accounts *)

Lemma to_array_field n value start :
  (start + N.of_nat n <= len value)%N →
  ∃ a, field n value start = Ok a ∧ get_range value start (start + N.of_nat n) = Some (arr a).
Proof.
  intros Hl. unfold field.
  destruct (get_range value start (start + N.of_nat n)) as [raw|] eqn:E.
  - simpl. apply get_range_Some in E as (_ & _ & Hr & _).
    destruct (to_array_is_Some n raw) as (a & Ha & <-); [unfold len in Hr; lia|].
    exists a. by rewrite Ha.
  - unfold get_range in E. rewrite (proj2 (N.leb_le start _)), (proj2 (N.leb_le _ (len value))) in E by lia.
    done.
Qed.

Lemma field_ok n value start a :
  get_range value start (start + N.of_nat n) = Some (arr a) → field n value start = Ok a.
Proof. intros Hr. unfold field. rewrite Hr. simpl. by rewrite to_array_arr. Qed.

Lemma AccountState_decode_encode s :
  wf_account s → AccountState_decode (AccountState_encode s) = Ok s.
Proof.
  intros [Hi Hn Ht]. unfold AccountState_decode, AccountState_encode.
  set (flag := if acc_exists s then Byte.x01 else Byte.x00).
  set (b := flag :: _). assert (len b = 81%N) as Hlen by (unfold b; autorewrite with fossil_len; done).
  destruct (to_array_is_Some 8 (u64_be (acc_incarnation s))) as (ai & _ & Hai); [apply (length_to_be 8)|].
  destruct (to_array_is_Some 8 (u64_be (acc_nonce s))) as (an & _ & Han); [apply (length_to_be 8)|].
  rewrite Hlen. cbn [N.eqb negb orb].
  assert ((1 <? byte_N flag)%N = false) as -> by (unfold flag; by destruct (acc_exists s)).
  rewrite (field_ok 8 b 1 ai).
  2: { rewrite Hai. apply (get_range_app [flag]); [done|]. by autorewrite with fossil_len. }
  rewrite (field_ok 8 b 9 an).
  2: { rewrite Han. unfold b. rewrite (app_comm_cons _ _ flag).
       apply get_range_app; autorewrite with fossil_len; done. }
  rewrite (field_ok 32 b 17 (acc_balance s)).
  2: { unfold b. rewrite (app_assoc (u64_be _)), (app_comm_cons _ _ flag).
       apply get_range_app; autorewrite with fossil_len; done. }
  rewrite (field_ok 32 b 49 (acc_code_hash s)).
  2: { unfold b. rewrite (app_assoc (u64_be _)), (app_assoc _ (arr (acc_balance s))), (app_comm_cons _ _ flag).
       rewrite <-(app_nil_r (arr (acc_code_hash s))) at 1.
       apply get_range_app; autorewrite with fossil_len; done. }
  cbn [acc_exists acc_nonce acc_balance acc_code_hash]. rewrite Hai, Han, !u64_be_round by done.
  assert ((byte_N flag =? 1)%N = acc_exists s) as -> by (unfold flag; by destruct (acc_exists s)).
  destruct s as [[] i n bal code]; [done|]. simpl in *.
  destruct Ht as (-> & -> & ->); [done|]. by rewrite bool_decide_eq_true_2.
Qed.

Lemma AccountState_encode_decode b s :
  AccountState_decode b = Ok s → AccountState_encode s = b ∧ wf_account s.
Proof.
  unfold AccountState_decode. destruct b as [|flag rest]; [done|]. set (b := flag :: rest).
  destruct (_ || _) eqn:E; [done|]. bool_prop.
  destruct (to_array_field 8 b 1) as (ai & -> & Gi); [lia|].
  destruct (to_array_field 8 b 9) as (an & -> & Gn); [lia|].
  destruct (to_array_field 32 b 17) as (ab & -> & Gb); [lia|].
  destruct (to_array_field 32 b 49) as (ac & -> & Gc); [lia|].
  cbn [acc_exists acc_nonce acc_balance acc_code_hash].
  destruct (from_be_u64 (arr ai) (length_arr ai)) as [Hi Ri].
  destruct (from_be_u64 (arr an) (length_arr an)) as [Hn Rn].
  destruct (_ && _) eqn:E2; [done|]. intros [= <-]. split.
  - unfold AccountState_encode; simpl. rewrite Ri, Rn.
    assert ((if (byte_N flag =? 1)%N then Byte.x01 else Byte.x00) = flag) as ->.
    { apply byte_N_inj. destruct (byte_N flag =? 1)%N eqn:Ef; bool_prop; [by rewrite Ef|].
      change (byte_N Byte.x00) with 0%N. lia. }
    unfold b. f_equal.
    assert (get_range b 0 1 = Some [flag]) as G0
      by (unfold get_range, b; rewrite len_cons; by destruct (1 <=? _)%N eqn:Ex; [|apply N.leb_gt in Ex; lia]).
    pose proof (get_range_join _ _ _ _ _ _ G0 (get_range_join _ _ _ _ _ _ Gi (get_range_join _ _ _ _ _ _ Gn
      (get_range_join _ _ _ _ _ _ Gb Gc)))) as G.
    apply get_range_0 in G. change (N.to_nat (49 + N.of_nat 32)) with 81 in G.
    rewrite take_ge in G by (unfold len in *; lia). unfold b in G. simpl in G. by injection G.
  - split; simpl; [done|done|]. intros Ef. rewrite Ef in E2. simpl in E2. bool_prop. done.
Qed.

(** The three kinds of keys. *)
Inductive StateKey :=
| KAccount (address : array 20)
| KStorage (address : array 20) (incarnation : N) (slot : array 32)
| KCode (hash : array 32).
Definition state_key (k : StateKey) : bytes :=
  match k with
  | KAccount a => account_key a
  | KStorage a i s => storage_key a i s
  | KCode h => code_key h
  end.
Definition wf_key (k : StateKey) : Prop :=
  match k with KStorage _ i _ => (i <= u64_max)%N | _ => True end.

Lemma app_inj_length {A} (l1 l2 k1 k2 : list A) :
  length l1 = length l2 → l1 ++ k1 = l2 ++ k2 → l1 = l2 ∧ k1 = k2.
Proof. intros Hl He. by apply app_inj_1 in He. Qed.

Lemma u64_be_inj x y : (x <= u64_max)%N → (y <= u64_max)%N → u64_be x = u64_be y → x = y.
Proof. intros Hx Hy E. rewrite <-(u64_be_round x), <-(u64_be_round y), E; done. Qed.

Lemma storage_key_inj a a' i i' s s' :
  (i <= u64_max)%N → (i' <= u64_max)%N → storage_key a i s = storage_key a' i' s' → a = a' ∧ i = i' ∧ s = s'.
Proof.
  intros Hi Hi' [= E]. apply app_inj_length in E as [Ea E]; [|by rewrite !length_arr].
  apply app_inj_length in E as [Ei Es]; [|by rewrite !(length_to_be 8)].
  split_and!; [by apply arr_inj|by apply u64_be_inj|by apply arr_inj].
Qed.

(** Each chain has its own head. *)
Lemma head_key_inj c c' : head_key c = head_key c' → c = c'.
Proof.
  unfold head_key. intros E. apply string_app_inj in E as [_ E]; [|done].
  pose proof (f_equal String.length E) as Hl. rewrite !string_length_app in Hl.
  apply string_app_inj in E as [E _]; [by apply (inj pretty)|lia].
Qed.

(** ** Theorems *)

(** C33: decoding a head accepts exactly the well-formed JSON heads that satisfy
    [head_valid]: the magic, at most 16 level-0 runs of weight one, at most 8
    levels with weights in their unit and below the next one, roots that match
    their digests, and intervals chained from block zero to the head. *)
Theorem head_decode_iff_valid `{Sha256, Hex, HeadJson} b h :
  Head_decode b = Ok h ↔ head_from_json b = Ok h ∧ head_valid h.
Proof. apply Head_decode_ok. Qed.

(** The runs of a decoded head partition its blocks: a block is at most
    the head's number exactly when it lies in one run, and then in only one.
    (No run ends at the last [u64]; see [head_decode_accepts_wrapped_runs].) *)
Theorem head_runs_partition_blocks `{Sha256, Hex, HeadJson, !HeadJsonLaws} b h :
  Head_decode b = Ok h → Forall (λ r, (run_end r < u64_max)%N) (runs h) →
  ∀ n, ((n <= h_number h)%N ↔
         ∃ i r, runs h !! i = Some r ∧ (run_start r <= n <= run_end r)%N) ∧
       ∀ i j r s, runs h !! i = Some r → runs h !! j = Some s →
         (run_start r <= n <= run_end r)%N → (run_start s <= n <= run_end s)%N → i = j.
Proof.
  intros [Hj Hv]%Head_decode_ok HF n. apply head_json_wf in Hj.
  pose proof (head_contiguous h Hv Hj HF) as Hc. split.
  - rewrite <-(proj2 (contiguous_cover _ _ _ Hc)). lia.
  - intros i j r s Hi Hr. by apply (contiguous_unique _ _ _ i j r s n Hc).
Qed.

(** Decoding an account post-state is the inverse of encoding: bytes
    decode to a state exactly when they are the encoding of that state and the
    state is well formed (a tombstone has zero nonce, balance and code hash). *)
Theorem account_state_roundtrip b s :
  AccountState_decode b = Ok s ↔ wf_account s ∧ AccountState_encode s = b.
Proof.
  split.
  - intros [He Hw]%AccountState_encode_decode. done.
  - intros [Hw <-]. by apply AccountState_decode_encode.
Qed.

(** Account, storage and code keys never collide, and each is injective
    in its address, incarnation, slot and hash. *)
Theorem state_keys_injective k1 k2 :
  wf_key k1 → wf_key k2 → state_key k1 = state_key k2 → k1 = k2.
Proof.
  destruct k1 as [a|a i s|h], k2 as [a'|a' i' s'|h']; simpl; try done; intros H1 H2 E.
  - f_equal. injection E as E. by apply arr_inj.
  - by destruct (storage_key_inj _ _ _ _ _ _ H1 H2 E) as (-> & -> & ->).
  - f_equal. injection E as E. by apply arr_inj.
Qed.

(** ** A concrete head *)

Module HeadExample.
#[local] Existing Instances toy_sha toy_hex toy_json.

Definition root : bytes := byte_string "root".
Definition run (start stop weight : N) : Run :=
  {| run_start := start; run_end := stop; run_weight := weight; run_keys := 1; run_shards := 1;
     run_root := {| r_digest := digest root; r_length := len root |};
     run_root_bytes := hex_encode root |}.
Definition head (number : N) (l0 : list Run) (levels : list (option Run)) : Head :=
  {| h_magic := "FTVH1"; h_chain_id := 1; h_genesis := zero_hash; h_number := number;
     h_hash := zero_hash; h_state_root := zero_hash; h_input_sha256 := zero_hash;
     h_parent := None; h_l0 := l0; h_levels := levels |}.
Definition json (h : Head) : bytes := match head_to_json h with Ok b => b | Err _ => [] end.

(** A level-0 run above a compacted one. *)
Definition two_runs : Head := head 5 [run 4 5 1] [Some (run 0 3 4)].

Lemma two_runs_decodes : Head_decode (json two_runs) = Ok two_runs.
Proof. vm_compute. reflexivity. Qed.

Lemma head_runs_partition_blocks_witness :
  ((3 <= h_number two_runs)%N ↔
     ∃ i r, runs two_runs !! i = Some r ∧ (run_start r <= 3 <= run_end r)%N) ∧
  ∀ i j r s, runs two_runs !! i = Some r → runs two_runs !! j = Some s →
    (run_start r <= 3 <= run_end r)%N → (run_start s <= 3 <= run_end s)%N → i = j.
Proof.
  apply (head_runs_partition_blocks (H2 := toy_json_laws) (json two_runs) two_runs two_runs_decodes).
  repeat constructor; vm_compute; reflexivity.
Defined.

Definition key1 : StateKey := KStorage (array_repeat 20 Byte.x07) 1 zero_hash.
Lemma state_keys_injective_witness : key1 = key1.
Proof. apply (state_keys_injective key1 key1); [vm_compute; discriminate..|reflexivity]. Defined.

(** The run ends wrap around: a run that ends at the last [u64] may be
    followed by runs that start again at zero. *)
Definition wrapped : Head := head 5 [run 0 u64_max 1; run 0 5 1] [].

(** The decoder of a release build accepts overlapping runs when one of
    them ends at the last [u64]: the sum [run.end + 1] wraps to zero. *)
Theorem head_decode_accepts_wrapped_runs :
  Head_decode (json wrapped) = Ok wrapped ∧
  ∃ r s, runs wrapped !! 0 = Some r ∧ runs wrapped !! 1 = Some s ∧
    (run_start r <= 3 <= run_end r)%N ∧ (run_start s <= 3 <= run_end s)%N.
Proof.
  split; [vm_compute; reflexivity|]. exists (run 0 u64_max 1), (run 0 5 1).
  split_and!; try reflexivity; vm_compute; discriminate.
Qed.
End HeadExample.
