(* ===== verification/Summary.v ===== *)
(** * [codec/src/summary.rs]: run membership summaries

    Address-routed Bloom shards and key-routed spill shards, the streaming
    builder and the decoder the reader probes.  Bit sets are the bytes the
    code keeps; [insert] and [contains] are only called on non-empty ones
    ([SummaryBuilder_new] allocates at least 128 bytes, [Shard_decode] rejects
    an empty bit set), so the remainder by the number of bits is defined. *)

From S2P Require Import Prelude Bytes Externals Hash.
From Stdlib Require Import Lia.

Definition SUMMARY_MAGIC : bytes := byte_string "FTSM".
Definition SUMMARY_VERSION : byte := Byte.x01.
Definition HEADER_BYTES : N := 4 + 1 + 32 + 1 + 4 + 4.
Definition SHARD_KEYS : N := 32 * 1024.
Definition BITS_PER_KEY : N := 16.
Definition HASHES : N := 11.
Definition HEAVY_GROUP : N := 4096.
Definition MAX_SHARD_BYTES : N := 1024 * 1024.

Inductive ShardKind := Address | Spill.
Definition kind_byte (k : ShardKind) : byte :=
  match k with Address => Byte.x00 | Spill => Byte.x01 end.

(** [group], [route], [marker] *)
Definition group (key : bytes) : bytes := take 21 key.
Definition route (group : bytes) : bytes := drop (1 `min` length group) group.
Definition marker (group : bytes) : bytes := Byte.xff :: group.

(** [n.div_ceil(d)], and its panic on a zero divisor. *)
Definition div_ceil (n d : N) : result N :=
  if (d =? 0)%N then Err (Panic "attempt to divide by zero")
  else Ok (n / d + (if (n mod d =? 0)%N then 0 else 1))%N.

(** [u64::next_power_of_two] *)
Definition next_power_of_two (n : N) : N := (2 ^ N.log2_up n)%N.

(** [shard_count] *)
Definition shard_count (keys : N) : N :=
  as_u32 (next_power_of_two (N.max (keys / SHARD_KEYS + (if (keys mod SHARD_KEYS =? 0)%N then 0 else 1)) 1)).

(** [hashes] *)
Definition hashes (digest : Hash32) : N * N :=
  (from_be (take 8 (arr digest)), N.lor (from_be (take 8 (drop 8 (arr digest)))) 1).

(** The bit of the [i]-th hash. *)
Definition bit_index (total : N) (h : N * N) (i : N) : N :=
  (wrapping_add64 h.1 (wrapping_mul64 i h.2) mod total)%N.

(** [bits[(bit / 8) as usize] |= 1 << (bit % 8)] *)
Definition set_bit (bits : bytes) (bit : N) : bytes :=
  alter (λ x, byte_of (N.lor (byte_N x) (N.shiftl 1 (bit mod 8)))) (N.to_nat (bit / 8)) bits.
(** [bits[(bit / 8) as usize] & (1 << (bit % 8)) != 0] *)
Definition test_bit (bits : bytes) (bit : N) : bool :=
  match bits !! N.to_nat (bit / 8) with
  | Some x => negb (N.land (byte_N x) (N.shiftl 1 (bit mod 8)) =? 0)%N
  | None => false
  end.

(** [0..HASHES] *)
Definition hash_range : list N := map N.of_nat (seq 0 (N.to_nat HASHES)).

(** [insert], [contains] *)
Definition bloom_insert (bits : bytes) (digest : Hash32) : bytes :=
  fold_left (λ bits i, set_bit bits (bit_index (len bits * 8) (hashes digest) i)) hash_range bits.
Definition bloom_contains (bits : bytes) (digest : Hash32) : bool :=
  forallb (λ i, test_bit bits (bit_index (len bits * 8) (hashes digest) i)) hash_range.

(** [spill_index] *)
Definition spill_index (digest : Hash32) (shards : N) : N :=
  N.land (from_be (take 4 (drop 16 (arr digest)))) (shards - 1).

(** [SummaryBuilder] *)
Record SummaryBuilder := {
  sb_shards : N;
  sb_address : list bytes;
  sb_spill : list bytes;
  sb_group : bytes;
  sb_pending : list Hash32;
  sb_heavy : bool;
  sb_keys : N
}.

(** [SummaryBuilder::new] *)
Definition SummaryBuilder_new (expected_keys : N) : result SummaryBuilder :=
  let shards := shard_count expected_keys in
  let? per_shard := div_ceil expected_keys shards in
  let per_shard := N.max per_shard 64 in
  let? n := div_ceil (wrapping_mul64 per_shard BITS_PER_KEY) 8 in
  if (MAX_SHARD_BYTES <? HEADER_BYTES + n + 32)%N
  then bail "summary shard exceeds the 1 MiB bound"
  else
    let empty := replicate (N.to_nat shards) (replicate (N.to_nat n) Byte.x00) in
    Ok {| sb_shards := shards; sb_address := empty; sb_spill := empty; sb_group := [];
          sb_pending := []; sb_heavy := false; sb_keys := 0 |}.

Section summary.
Context `{Sha256, Hex}.

(** [shard_index] *)
Definition shard_index (b : bytes) (shards : N) : N :=
  N.land (from_be (take 4 (arr (digest b)))) (shards - 1).

(** [shard_path] *)
Definition shard_path (run : Hash32) (shards : N) (kind : ShardKind) (index : N) : string :=
  "summaries/" +:+ hex_encode (arr run) +:+ "/" +:+ hex08 shards +:+ "/"
    +:+ (match kind with Address => "a" | Spill => "s" end) +:+ hex08 index.

(** [insert(&mut self.address[index], digest)] and the same for [spill]. *)
Definition address_insert (index : N) (d : Hash32) (b : SummaryBuilder) : SummaryBuilder :=
  {| sb_shards := sb_shards b;
     sb_address := alter (λ bits, bloom_insert bits d) (N.to_nat index) (sb_address b);
     sb_spill := sb_spill b; sb_group := sb_group b; sb_pending := sb_pending b;
     sb_heavy := sb_heavy b; sb_keys := sb_keys b |}.
Definition spill_insert (d : Hash32) (b : SummaryBuilder) : SummaryBuilder :=
  {| sb_shards := sb_shards b; sb_address := sb_address b;
     sb_spill := alter (λ bits, bloom_insert bits d) (N.to_nat (spill_index d (sb_shards b))) (sb_spill b);
     sb_group := sb_group b; sb_pending := sb_pending b;
     sb_heavy := sb_heavy b; sb_keys := sb_keys b |}.
Definition with_pending (pending : list Hash32) (heavy : bool) (b : SummaryBuilder) : SummaryBuilder :=
  {| sb_shards := sb_shards b; sb_address := sb_address b; sb_spill := sb_spill b;
     sb_group := sb_group b; sb_pending := pending; sb_heavy := heavy; sb_keys := sb_keys b |}.

(** [SummaryBuilder::flush] *)
Definition SummaryBuilder_flush (b : SummaryBuilder) : SummaryBuilder :=
  let b' :=
    if negb (sb_heavy b) && negb (bool_decide (sb_pending b = []))
    then
      let index := shard_index (route (sb_group b)) (sb_shards b) in
      fold_left (λ b d, address_insert index d b) (sb_pending b) b
    else b in
  with_pending [] false b'.

(** [SummaryBuilder::add] *)
Definition SummaryBuilder_add (b : SummaryBuilder) (key : bytes) : SummaryBuilder :=
  let b := {| sb_shards := sb_shards b; sb_address := sb_address b; sb_spill := sb_spill b;
              sb_group := sb_group b; sb_pending := sb_pending b; sb_heavy := sb_heavy b;
              sb_keys := wrapping_add64 (sb_keys b) 1 |} in
  let b :=
    if bool_decide (group key = sb_group b) then b
    else
      let b := SummaryBuilder_flush b in
      {| sb_shards := sb_shards b; sb_address := sb_address b; sb_spill := sb_spill b;
         sb_group := group key; sb_pending := sb_pending b; sb_heavy := sb_heavy b;
         sb_keys := sb_keys b |} in
  let d := digest key in
  if sb_heavy b then spill_insert d b
  else
    let b := with_pending (sb_pending b ++ [d]) (sb_heavy b) b in
    if (HEAVY_GROUP <? len (sb_pending b))%N
    then
      let pending := sb_pending b in
      let b := with_pending [] true b in
      let index := shard_index (route (sb_group b)) (sb_shards b) in
      let b := address_insert index (digest (marker (sb_group b))) b in
      fold_left (λ b d, spill_insert d b) pending b
    else b.

(** The closure [encode] of [finish]. *)
Definition encode_shard (run : Hash32) (shards : N) (kind : ShardKind) (index : N) (bits : bytes)
    : string * bytes :=
  let out := SUMMARY_MAGIC ++ [SUMMARY_VERSION] ++ arr run ++ [kind_byte kind]
               ++ u32_be index ++ u32_be shards ++ bits in
  (shard_path run shards kind index, out ++ arr (digest out)).

(** [SummaryBuilder::finish] *)
Definition SummaryBuilder_finish (b : SummaryBuilder) (run : Hash32) : list (string * bytes) :=
  let b := SummaryBuilder_flush b in
  imap (λ index bits, encode_shard run (sb_shards b) Address (as_u32 (N.of_nat index)) bits) (sb_address b)
  ++ imap (λ index bits, encode_shard run (sb_shards b) Spill (as_u32 (N.of_nat index)) bits) (sb_spill b).

(** [Shard] *)
Record Shard := { shard_bits : bytes }.

(** [Shard::decode] *)
Definition Shard_decode (run : Hash32) (kind : ShardKind) (index shards : N) (b : bytes) : result Shard :=
  if (len b <=? HEADER_BYTES + 32)%N || (MAX_SHARD_BYTES <? len b)%N
  then bail "invalid summary shard length"
  else
    let body := take (length b - 32) b in
    let check := drop (length b - 32) b in
    let slice a e := take (e - a) (drop a body) in
    if negb (bool_decide (arr (digest body) = check))
       || negb (bool_decide (take 4 body = SUMMARY_MAGIC))
       || negb (bool_decide (body !! 4 = Some SUMMARY_VERSION))
       || negb (bool_decide (slice 5 37 = arr run))
       || negb (bool_decide (body !! 37 = Some (kind_byte kind)))
       || negb (bool_decide (slice 38 42 = u32_be index))
       || negb (bool_decide (slice 42 46 = u32_be shards))
    then bail "summary shard does not match its run"
    else Ok {| shard_bits := drop (N.to_nat HEADER_BYTES) body |}.

(** [Shard::contains] *)
Definition Shard_contains (s : Shard) (item : bytes) : bool :=
  bloom_contains (shard_bits s) (digest item).

(** [Probe] and [Probe::new] *)
Record Probe := { p_address_index : N; p_spill_index : N; p_marker : bytes }.
Definition Probe_new (key : bytes) (shards : N) : Probe :=
  {| p_address_index := shard_index (route (group key)) shards;
     p_spill_index := spill_index (digest key) shards;
     p_marker := marker (group key) |}.

End summary.
