(* ===== verification/SummaryFacts.v ===== *)
(** * Summaries have no false negatives

    Whatever keys are added, in whatever order, the shards a finished summary
    encodes answer "maybe" for every one of them, in the way the reader asks:
    the key in its address shard, or the group's marker there and the key in
    its spill shard.  Every shard is within the reader's fetch bound. *)

From S2P Require Import Prelude Bytes Externals ToyCrates Hash Head Summary.
From Stdlib Require Import Lia.

Lemma is_power_of_two_pow k : is_power_of_two (2 ^ k) = true.
Proof.
  unfold is_power_of_two. assert (2 ^ k ≠ 0)%N as Hz by (apply N.pow_nonzero; lia).
  rewrite (proj2 (N.eqb_neq _ _)) by done. simpl. apply N.eqb_eq.
  replace (2 ^ k - 1)%N with (N.ones k) by (rewrite N.ones_equiv; lia).
  by rewrite N.land_ones, N.Div0.mod_same.
Qed.

(** ** Bits *)

Lemma land_shiftl x k : (N.land x (N.shiftl 1 k) =? 0)%N = negb (N.testbit x k).
Proof.
  rewrite N.shiftl_1_l. destruct (N.testbit x k) eqn:E; simpl.
  - apply N.eqb_neq. intros H0. assert (N.testbit (N.land x (2 ^ k)) k = true) as Ht.
    { by rewrite N.land_spec, E, N.pow2_bits_true. }
    by rewrite H0, N.bits_0 in Ht.
  - apply N.eqb_eq, N.bits_inj. intros i. rewrite N.land_spec, N.bits_0, N.pow2_bits_eqb.
    destruct (N.eqb_spec k i) as [<-|]; [by rewrite E|by rewrite andb_false_r].
Qed.

Lemma test_bit_spec bits n :
  test_bit bits n = true ↔
  ∃ x, bits !! N.to_nat (n / 8) = Some x ∧ N.testbit (byte_N x) (n mod 8) = true.
Proof.
  unfold test_bit. destruct (bits !! _) as [x|]; [|naive_solver].
  rewrite land_shiftl, negb_involutive. naive_solver.
Qed.

Lemma byte_of_bits n k : (k < 8)%N → N.testbit (byte_N (byte_of n)) k = N.testbit n k.
Proof. intros Hk. rewrite byte_N_of. change 256%N with (2 ^ 8)%N. by apply N.mod_pow2_bits_low. Qed.

Lemma len_set_bit bits n : len (set_bit bits n) = len bits.
Proof. unfold len, set_bit. by rewrite length_alter. Qed.

Lemma set_bit_mono bits n m : test_bit bits m = true → test_bit (set_bit bits n) m = true.
Proof.
  rewrite !test_bit_spec. intros (x & Hx & Ht). unfold set_bit.
  destruct (decide (N.to_nat (n / 8) = N.to_nat (m / 8))) as [E|E].
  - rewrite E, list_lookup_alter_eq, Hx. eexists. split; [done|].
    rewrite byte_of_bits by (apply N.mod_lt; done). by rewrite N.lor_spec, Ht.
  - rewrite list_lookup_alter_ne by done. eauto.
Qed.

Lemma set_bit_same bits n : (n < len bits * 8)%N → test_bit (set_bit bits n) n = true.
Proof.
  intros Hn. apply test_bit_spec. unfold set_bit. rewrite list_lookup_alter_eq.
  destruct (lookup_lt_is_Some_2 bits (N.to_nat (n / 8))) as [x ->].
  { assert (n / 8 < len bits)%N by (apply N.Div0.div_lt_upper_bound; lia). unfold len in *. lia. }
  eexists. split; [done|]. rewrite byte_of_bits by (apply N.mod_lt; done).
  by rewrite N.lor_spec, N.shiftl_1_l, N.pow2_bits_true, orb_true_r.
Qed.

(** ** Bloom filters *)

Lemma len_insert_range h js bits :
  len (fold_left (λ bits i, set_bit bits (bit_index (len bits * 8) h i)) js bits) = len bits.
Proof. revert bits; induction js as [|i js IH]; intros bits; simpl; [done|]. by rewrite IH, len_set_bit. Qed.

Lemma len_bloom_insert bits d : len (bloom_insert bits d) = len bits.
Proof. unfold bloom_insert. apply len_insert_range. Qed.

Lemma insert_range_mono h js bits m :
  test_bit bits m = true →
  test_bit (fold_left (λ bits i, set_bit bits (bit_index (len bits * 8) h i)) js bits) m = true.
Proof. revert bits; induction js as [|i js IH]; intros bits Hm; simpl; [done|]. by apply IH, set_bit_mono. Qed.

Lemma insert_range_same h js bits i :
  (0 < len bits)%N → i ∈ js →
  test_bit (fold_left (λ bits i, set_bit bits (bit_index (len bits * 8) h i)) js bits)
    (bit_index (len bits * 8) h i) = true.
Proof.
  revert bits; induction js as [|j js IH]; intros bits Hl Hi; simpl; [set_solver|].
  apply elem_of_cons in Hi as [->|Hi].
  - apply insert_range_mono, set_bit_same. apply N.mod_lt. lia.
  - specialize (IH (set_bit bits (bit_index (len bits * 8) h j))). rewrite len_set_bit in IH.
    by apply IH.
Qed.

Lemma contains_insert bits d : (0 < len bits)%N → bloom_contains (bloom_insert bits d) d = true.
Proof.
  intros Hl. apply forallb_forall. intros i Hi%list_elem_of_In.
  rewrite len_bloom_insert. unfold bloom_insert. by apply insert_range_same.
Qed.

Lemma contains_insert_mono bits d e : bloom_contains bits e = true → bloom_contains (bloom_insert bits d) e = true.
Proof.
  intros Hc. apply forallb_forall. intros i Hi.
  rewrite len_bloom_insert. unfold bloom_insert. apply insert_range_mono. unfold bloom_contains in Hc.
  rewrite forallb_forall in Hc. by apply Hc.
Qed.

#[local] Opaque hash_range.

(** ** The builder *)

Section builder.
Context `{Sha256}.
Implicit Types b : SummaryBuilder.

(** All bit sets have [size] bytes, and there are [sb_shards] of each kind. *)
Record sb_wf (size : N) b : Prop := {
  wf_size : (0 < size)%N;
  wf_shards : (0 < sb_shards b <= u32_max)%N;
  wf_address_len : len (sb_address b) = sb_shards b;
  wf_spill_len : len (sb_spill b) = sb_shards b;
  wf_address_size : Forall (λ bits, len bits = size) (sb_address b);
  wf_spill_size : Forall (λ bits, len bits = size) (sb_spill b)
}.

Definition has (shards : list bytes) (index : N) (d : Hash32) : Prop :=
  ∃ bits, shards !! N.to_nat index = Some bits ∧ bloom_contains bits d = true.

(** Nothing recorded is lost and the shape stays. *)
Record sb_le (size : N) b b' : Prop := {
  le_wf : sb_wf size b';
  le_shards : sb_shards b' = sb_shards b;
  le_address index d : has (sb_address b) index d → has (sb_address b') index d;
  le_spill index d : has (sb_spill b) index d → has (sb_spill b') index d
}.

Lemma sb_le_refl size b : sb_wf size b → sb_le size b b.
Proof. by split. Qed.
Lemma sb_le_trans size b1 b2 b3 : sb_le size b1 b2 → sb_le size b2 b3 → sb_le size b1 b3.
Proof. intros [] []. split; try done; [congruence|auto..]. Qed.

Lemma has_alter shards index index' d e :
  has shards index e → has (alter (λ bits, bloom_insert bits d) (N.to_nat index') shards) index e.
Proof.
  intros (bits & Hb & Hc). destruct (decide (N.to_nat index' = N.to_nat index)) as [E|E].
  - exists (bloom_insert bits d). rewrite E, list_lookup_alter_eq, Hb. split; [done|].
    by apply contains_insert_mono.
  - exists bits. by rewrite list_lookup_alter_ne.
Qed.

Lemma has_alter_same size shards index d :
  Forall (λ bits, len bits = size) shards → (0 < size)%N → (index < len shards)%N →
  has (alter (λ bits, bloom_insert bits d) (N.to_nat index) shards) index d.
Proof.
  intros HF Hs Hi. destruct (lookup_lt_is_Some_2 shards (N.to_nat index)) as [bits Hb]; [unfold len in Hi; lia|].
  exists (bloom_insert bits d). rewrite list_lookup_alter_eq, Hb. split; [done|].
  apply contains_insert. pose proof (proj1 (Forall_lookup _ _) HF _ _ Hb) as Hl. simpl in Hl. lia.
Qed.

Lemma alter_size size shards i d :
  Forall (λ bits, len bits = size) shards →
  Forall (λ bits, len bits = size) (alter (λ bits, bloom_insert bits d) i shards) ∧
  len (alter (λ bits, bloom_insert bits d) i shards) = len shards.
Proof.
  intros HF. split; [|unfold len; by rewrite length_alter].
  apply Forall_alter; [done|]. intros x _ Hx. by rewrite len_bloom_insert.
Qed.

Lemma mask_lt x n : (0 < n)%N → (N.land x (n - 1) < n)%N.
Proof.
  intros Hn. pose proof (N.land_le_r x (n - 1)). lia.
Qed.

Lemma address_insert_le size b index d : sb_wf size b → sb_le size b (address_insert index d b).
Proof.
  intros [H1 H2 H3 H4 H5 H6]. destruct (alter_size size (sb_address b) (N.to_nat index) d H5).
  split; simpl; [split; simpl; try done; congruence|done|intros; by apply has_alter|done].
Qed.

Lemma spill_insert_le size b d : sb_wf size b → sb_le size b (spill_insert d b).
Proof.
  intros [H1 H2 H3 H4 H5 H6].
  destruct (alter_size size (sb_spill b) (N.to_nat (spill_index d (sb_shards b))) d H6).
  split; simpl; [split; simpl; try done; congruence|done|done|intros; by apply has_alter].
Qed.

Lemma address_insert_has size b index d :
  sb_wf size b → (index < sb_shards b)%N → has (sb_address (address_insert index d b)) index d.
Proof. intros [H1 H2 H3 H4 H5 H6] Hi. simpl. eapply has_alter_same; [done|done|lia]. Qed.

Lemma spill_insert_has size b d :
  sb_wf size b → has (sb_spill (spill_insert d b)) (spill_index d (sb_shards b)) d.
Proof.
  intros [H1 H2 H3 H4 H5 H6]. simpl. eapply has_alter_same; [done|done|].
  rewrite H4. apply mask_lt. lia.
Qed.

(** Inserting a list of digests. *)
Lemma fold_insert size (ins : SummaryBuilder → Hash32 → SummaryBuilder) (Q : SummaryBuilder → Hash32 → Prop) ds b :
  (∀ b d, sb_wf size b → sb_le size b (ins b d)) →
  (∀ b d, sb_wf size b → Q (ins b d) d) →
  (∀ b b' d, sb_le size b b' → Q b d → Q b' d) →
  sb_wf size b →
  sb_le size b (fold_left ins ds b) ∧ ∀ d, d ∈ ds → Q (fold_left ins ds b) d.
Proof.
  intros Hle Hq Hmono. revert b; induction ds as [|d ds IH]; intros b Hb; simpl.
  { split; [by apply sb_le_refl|set_solver]. }
  pose proof (Hle b d Hb) as H1. destruct (IH _ (le_wf _ _ _ H1)) as [H2 H3].
  split; [by eapply sb_le_trans|]. intros e [->|He]%elem_of_cons; [|by apply H3].
  eapply Hmono; [exact H2|]. by apply Hq.
Qed.

Lemma with_pending_le size b p h : sb_wf size b → sb_le size b (with_pending p h b).
Proof. intros []. split; [by split|done..]. Qed.

(** ** The invariant *)

Definition address_of (b : SummaryBuilder) (key : bytes) : N := shard_index (route (group key)) (sb_shards b).

(** The reader will not rule the key out. *)
Definition recorded b (key : bytes) : Prop :=
  has (sb_address b) (address_of b key) (digest key) ∨
  (has (sb_address b) (address_of b key) (digest (marker (group key))) ∧
   has (sb_spill b) (spill_index (digest key) (sb_shards b)) (digest key)).

Definition pending b (key : bytes) : Prop :=
  sb_heavy b = false ∧ group key = sb_group b ∧ digest key ∈ sb_pending b.

Record sb_inv (size : N) b (keys : list bytes) : Prop := {
  inv_wf : sb_wf size b;
  inv_keys k : k ∈ keys → recorded b k ∨ pending b k;
  inv_pending d : d ∈ sb_pending b → ∃ k, digest k = d ∧ group k = sb_group b;
  inv_heavy : sb_heavy b = true →
    has (sb_address b) (shard_index (route (sb_group b)) (sb_shards b)) (digest (marker (sb_group b)))
}.

Lemma recorded_le size b b' k : sb_le size b b' → recorded b k → recorded b' k.
Proof.
  intros [_ Hs Ha Hp]. unfold recorded, address_of. rewrite Hs. intros [Hk|[Hm Hk]]; [left|right]; eauto.
Qed.

Lemma flush_inv size b keys :
  sb_inv size b keys →
  sb_le size b (SummaryBuilder_flush b) ∧ ∀ k, k ∈ keys → recorded (SummaryBuilder_flush b) k.
Proof.
  intros [Hw Hk Hp Hh]. unfold SummaryBuilder_flush. set (index := shard_index _ _).
  assert (index < sb_shards b)%N as Hi by (apply mask_lt, Hw).
  destruct (fold_insert size (λ b d, address_insert index d b)
    (λ b' d, sb_shards b' = sb_shards b → has (sb_address b') index d) (sb_pending b) b) as [Hle Hhas].
  - intros. by apply address_insert_le.
  - intros b' d Hb' E. eapply address_insert_has; [done|]. simpl in E. lia.
  - intros b1 b2 d Hle Hq E. apply Hle, Hq. destruct Hle. congruence.
  - done.
  - destruct (negb (sb_heavy b) && negb (bool_decide (sb_pending b = []))) eqn:E.
    + assert (sb_le size b (with_pending [] false (fold_left (λ b d, address_insert index d b) (sb_pending b) b)))
        as Hle' by (eapply sb_le_trans; [exact Hle|]; apply with_pending_le, Hle).
      split; [done|]. intros k [Hr|(_ & Hg & Hd)]%Hk; [by eapply recorded_le|].
      left. unfold address_of. rewrite (le_shards _ _ _ Hle'), Hg. apply Hhas; [done|apply Hle].
    + split; [by apply with_pending_le|]. intros k [Hr|(Hh' & _ & Hd)]%Hk.
      * by eapply recorded_le, Hr; apply with_pending_le.
      * rewrite Hh' in E. simpl in E. apply negb_false_iff, bool_decide_eq_true in E.
        rewrite E in Hd. set_solver.
Qed.

(** Entering the group of the next key. *)
Definition enter_group b (key : bytes) : SummaryBuilder :=
  if bool_decide (group key = sb_group b) then b
  else
    let b := SummaryBuilder_flush b in
    {| sb_shards := sb_shards b; sb_address := sb_address b; sb_spill := sb_spill b;
       sb_group := group key; sb_pending := sb_pending b; sb_heavy := sb_heavy b;
       sb_keys := sb_keys b |}.

Lemma enter_group_inv size b keys key :
  sb_inv size b keys →
  sb_inv size (enter_group b key) keys ∧ sb_group (enter_group b key) = group key ∧
  sb_shards (enter_group b key) = sb_shards b.
Proof.
  intros Hi. unfold enter_group. case_bool_decide as Hg; [done|].
  destruct (flush_inv _ _ _ Hi) as [Hle Hr]. split_and!; [|done|apply Hle].
  split; simpl.
  - destruct Hle as [[] _ _ _]. by split.
  - intros k Hk. left. by apply Hr.
  - intros d Hd. by apply elem_of_nil in Hd.
  - done.
Qed.

(** The last part of [add], in the key's group. *)
Definition add_in_group b (key : bytes) : SummaryBuilder :=
  let d := digest key in
  if sb_heavy b then spill_insert d b
  else
    let b := with_pending (sb_pending b ++ [d]) (sb_heavy b) b in
    if (HEAVY_GROUP <? len (sb_pending b))%N
    then
      let pending := sb_pending b in
      let b := with_pending [] true b in
      let index := shard_index (route (sb_group b)) (sb_shards b) in
      let b := address_insert index (digest (marker (sb_group b))) b in
      fold_left (λ b d, spill_insert d b) pending b
    else b.

(** A heavy group: the marker is set and its keys go to the spill shards. *)
Lemma spill_recorded b k :
  has (sb_address b) (shard_index (route (group k)) (sb_shards b)) (digest (marker (group k))) →
  has (sb_spill b) (spill_index (digest k) (sb_shards b)) (digest k) → recorded b k.
Proof. intros Hm Hs. by right. Qed.

Lemma spill_all_inv size b ds :
  sb_wf size b →
  let b' := fold_left (λ b d, spill_insert d b) ds b in
  sb_le size b b' ∧ ∀ d, d ∈ ds → has (sb_spill b') (spill_index d (sb_shards b')) d.
Proof.
  intros Hw. apply (fold_insert size (λ b d, spill_insert d b)
    (λ b' d, has (sb_spill b') (spill_index d (sb_shards b')) d)); [|  | |done].
  - intros. by apply spill_insert_le.
  - intros b' d Hb'. exact (spill_insert_has size b' d Hb').
  - intros b1 b2 d Hle Hq. rewrite (le_shards _ _ _ Hle). by apply Hle.
Qed.

Lemma fold_spill_fields ds b :
  let b' := fold_left (λ b d, spill_insert d b) ds b in
  sb_group b' = sb_group b ∧ sb_heavy b' = sb_heavy b ∧ sb_pending b' = sb_pending b ∧
  sb_shards b' = sb_shards b.
Proof. revert b; induction ds as [|d ds IH]; intros b; simpl; [done|]. apply (IH (spill_insert d b)). Qed.

Lemma add_in_group_shards b key : sb_shards (add_in_group b key) = sb_shards b.
Proof.
  unfold add_in_group. destruct (sb_heavy b); [reflexivity|]. destruct (_ <? _)%N; [|reflexivity].
  match goal with |- sb_shards (fold_left _ ?ds ?b1) = _ =>
    destruct (fold_spill_fields ds b1) as (_ & _ & _ & E) end. exact E.
Qed.

Lemma add_in_group_inv size b keys key :
  sb_inv size b keys → sb_group b = group key → sb_inv size (add_in_group b key) (key :: keys).
Proof.
  intros [Hw Hk Hp Hh] Hg. unfold add_in_group. destruct (sb_heavy b) eqn:Eh.
  - pose proof (spill_insert_le size b (digest key) Hw) as Hle. split; [apply Hle| | |].
    + intros k [->|Hin]%elem_of_cons; left.
      * apply spill_recorded; [|exact (spill_insert_has size b (digest key) Hw)]. simpl. rewrite <-Hg. by apply Hh.
      * destruct (Hk k Hin) as [Hr|(? & _)]; [|congruence]. by eapply recorded_le.
    + done.
    + intros _. by apply Hh.
  - set (b1 := with_pending (sb_pending b ++ [digest key]) false b).
    assert (sb_wf size b1) as Hw1 by (destruct Hw; by split).
    destruct (_ <? _)%N.
    2: { split; [done| | |done].
         - intros k [->|Hin]%elem_of_cons; [right; split_and!; [done|done|set_solver]|].
           destruct (Hk k Hin) as [Hr|(? & ? & ?)]; [by left|right]. split_and!; [done|done|set_solver].
         - intros d [Hd|Hd%list_elem_of_singleton]%elem_of_app; [by apply Hp|subst d; eauto]. }
    set (b2 := with_pending [] true b1). assert (sb_wf size b2) as Hw2 by (destruct Hw; by split).
    set (index := shard_index (route (sb_group b2)) (sb_shards b2)).
    set (b3 := address_insert index (digest (marker (sb_group b2))) b2).
    pose proof (address_insert_le size b2 index (digest (marker (sb_group b2))) Hw2) as Hle3. fold b3 in Hle3.
    assert (has (sb_address b3) index (digest (marker (sb_group b2)))) as Hm.
    { apply (address_insert_has size); [done|]. apply mask_lt, Hw. }
    destruct (spill_all_inv size b3 (sb_pending b1) (le_wf _ _ _ Hle3)) as [Hle4 Hs4].
    destruct (fold_spill_fields (sb_pending b1) b3) as (Fg & Fh & Fp & _).
    set (b4 := fold_left _ _ b3) in *.
    assert (sb_le size b b4) as Hle.
    { eapply sb_le_trans; [|exact Hle4]. destruct Hle3 as [? ? Ha Hsp]. by split. }
    assert (sb_shards b4 = sb_shards b) as Hsh by apply Hle.
    assert (∀ k, group k = sb_group b → digest k ∈ sb_pending b1 → recorded b4 k) as Hrec.
    { intros k Hgk Hd. apply spill_recorded; [|by apply Hs4].
      rewrite Hsh, Hgk. by apply Hle4. }
    split; [apply Hle4| | |].
    + intros k [->|Hin]%elem_of_cons; left.
      * apply Hrec; [done|]. simpl. set_solver.
      * destruct (Hk k Hin) as [Hr|(_ & Hgk & Hd)]; [by eapply recorded_le|].
        apply Hrec; [done|]. simpl. set_solver.
    + rewrite Fp. simpl. set_solver.
    + intros _. rewrite Fg, Hsh. by apply Hle4.
Qed.

Lemma add_inv size b keys key :
  sb_inv size b keys →
  sb_inv size (SummaryBuilder_add b key) (key :: keys) ∧
  sb_shards (SummaryBuilder_add b key) = sb_shards b.
Proof.
  intros Hi. set (b0 := {| sb_shards := sb_shards b; sb_address := sb_address b; sb_spill := sb_spill b;
    sb_group := sb_group b; sb_pending := sb_pending b; sb_heavy := sb_heavy b;
    sb_keys := wrapping_add64 (sb_keys b) 1 |}).
  assert (sb_inv size b0 keys) as Hi0.
  { destruct Hi as [Hw Hk Hp Hh]. split; [|exact Hk|exact Hp|exact Hh].
    destruct Hw as [W1 W2 W3 W4 W5 W6]. exact (Build_sb_wf size b0 W1 W2 W3 W4 W5 W6). }
  change (SummaryBuilder_add b key) with (add_in_group (enter_group b0 key) key).
  destruct (enter_group_inv _ _ _ key Hi0) as (Hi1 & Hg & Hs).
  pose proof (add_in_group_inv _ _ _ _ Hi1 Hg) as Hi2. split; [done|].
  rewrite add_in_group_shards. exact Hs.
Qed.

End builder.

(** ** Allocation *)

Lemma div_ceil_spec n d q : div_ceil n d = Ok q → (d ≠ 0)%N ∧ (n <= q * d)%N ∧ (q * d < n + d)%N.
Proof.
  unfold div_ceil. destruct (d =? 0)%N eqn:E; [done|]. bool_prop. intros [= <-].
  pose proof (N.div_mod n d E) as Hd. pose proof (N.mod_lt n d E).
  set (q := (n / d)%N) in *. set (r := (n mod d)%N) in *. clearbody q r.
  destruct (r =? 0)%N eqn:E2; bool_prop.
  - rewrite N.add_0_r. split_and!; [done|nia|nia].
  - split_and!; [done|nia|nia].
Qed.
Lemma div_ceil_ok n d : (d ≠ 0)%N → ∃ q, div_ceil n d = Ok q.
Proof. intros Hd. unfold div_ceil. rewrite (proj2 (N.eqb_neq _ _)) by done. eauto. Qed.

Lemma next_power_ge n : (1 <= n)%N → (n <= next_power_of_two n)%N.
Proof.
  intros Hn. unfold next_power_of_two. destruct (decide (n = 1)%N) as [->|]; [done|].
  pose proof (N.log2_up_spec n ltac:(lia)). lia.
Qed.
Lemma next_power_le n k : (n <= 2 ^ k)%N → (next_power_of_two n <= 2 ^ k)%N.
Proof.
  intros Hn. unfold next_power_of_two. apply N.pow_le_mono_r; [done|].
  destruct (decide (n <= 1)%N) as [H1|H1]; [rewrite N.log2_up_eqn0 by done; lia|].
  apply N.log2_up_le_pow2; lia.
Qed.

(** The most keys for which the shard count fits [u32]. *)
Definition MAX_SUMMARY_KEYS : N := 2 ^ 46.

Lemma shard_count_spec keys :
  (keys <= MAX_SUMMARY_KEYS)%N →
  ∃ k, shard_count keys = (2 ^ k)%N ∧ (k <= 31)%N ∧ (keys <= 2 ^ k * SHARD_KEYS)%N.
Proof.
  intros Hk. unfold shard_count. set (c := (keys / SHARD_KEYS + _)%N).
  assert (div_ceil keys SHARD_KEYS = Ok c) as Hc by done.
  apply div_ceil_spec in Hc as (_ & Hc1 & Hc2).
  assert (N.max c 1 <= 2 ^ 31)%N as Hm.
  { unfold MAX_SUMMARY_KEYS, SHARD_KEYS in *. change (2 ^ 31)%N with 2147483648%N.
    change (2 ^ 46)%N with 70368744177664%N in Hk. lia. }
  pose proof (next_power_le _ _ Hm) as Hle. pose proof (next_power_ge (N.max c 1) ltac:(lia)) as Hge.
  exists (N.log2_up (N.max c 1)). unfold as_u32. rewrite N.mod_small.
  - split; [done|]. unfold next_power_of_two in *. split.
    + apply (N.pow_le_mono_r_iff 2) in Hle; [done|lia].
    + nia.
  - change (2 ^ 31)%N with 2147483648%N in Hle. unfold u32_max. lia.
Qed.

(** Allocation fails beyond that: the count truncates to zero. *)
Lemma SummaryBuilder_new_bound keys b : SummaryBuilder_new keys = Ok b → (keys <= MAX_SUMMARY_KEYS)%N.
Proof.
  unfold SummaryBuilder_new. destruct (div_ceil keys (shard_count keys)) as [q|] eqn:Eq; [|done].
  intros _. apply div_ceil_spec in Eq as (Hz & _ & _). apply N.nlt_ge. intros Hk. apply Hz.
  unfold shard_count. set (c := (keys / SHARD_KEYS + _)%N).
  assert (div_ceil keys SHARD_KEYS = Ok c) as Hc by done.
  apply div_ceil_spec in Hc as (_ & Hc1 & _).
  assert (2 ^ 31 < N.max c 1)%N as Hm.
  { unfold MAX_SUMMARY_KEYS, SHARD_KEYS in *. change (2 ^ 31)%N with 2147483648%N.
    change (2 ^ 46)%N with 70368744177664%N in Hk. lia. }
  assert (32 <= N.log2_up (N.max c 1))%N as Hl.
  { assert (31 < N.log2_up (N.max c 1))%N; [|lia]. apply N.log2_up_lt_pow2; [lia|done]. }
  unfold next_power_of_two, as_u32.
  replace (N.log2_up (N.max c 1)) with (32 + (N.log2_up (N.max c 1) - 32))%N by lia.
  rewrite N.pow_add_r. change (u32_max + 1)%N with (2 ^ 32)%N. rewrite N.mul_comm. apply N.Div0.mod_mul.
Qed.

Lemma SummaryBuilder_new_ok keys :
  (keys <= MAX_SUMMARY_KEYS)%N →
  ∃ b size, SummaryBuilder_new keys = Ok b ∧ (128 <= size <= 65536)%N ∧
    sb_shards b = shard_count keys ∧ (∀ H : Sha256, sb_inv size b []).
Proof.
  intros Hk. destruct (shard_count_spec keys Hk) as (k & Hs & Hk31 & Hcap).
  assert (2 ^ k <= 2 ^ 31)%N as Hp by (apply N.pow_le_mono_r; lia).
  assert (2 ^ k ≠ 0)%N as Hz by (apply N.pow_nonzero; lia).
  change (2 ^ 31)%N with 2147483648%N in Hp.
  unfold SummaryBuilder_new. destruct (div_ceil_ok keys (shard_count keys)) as [q Hq]; [by rewrite Hs|].
  rewrite Hq. apply div_ceil_spec in Hq as (_ & _ & Hq). rewrite Hs in Hq |- *.
  assert (q <= SHARD_KEYS)%N as Hq' by (unfold SHARD_KEYS in *; nia). clear Hq.
  assert (wrapping_mul64 (N.max q 64) BITS_PER_KEY = N.max q 64 * 16)%N as ->.
  { apply N.mod_small. unfold BITS_PER_KEY, SHARD_KEYS, u64_max in *. lia. }
  destruct (div_ceil_ok (N.max q 64 * 16) 8) as [n Hn]; [done|]. rewrite Hn.
  apply div_ceil_spec in Hn as (_ & Hn1 & Hn2). unfold SHARD_KEYS in Hq'.
  assert (128 <= n <= 65536)%N as Hsize by lia.
  rewrite (proj2 (N.ltb_ge _ _)) by (unfold HEADER_BYTES, MAX_SHARD_BYTES; lia).
  eexists _, n. split; [done|]. split; [done|]. split; [done|]. intros H.
  split; simpl.
  - split; simpl; try (unfold u32_max; lia); rewrite ?len_replicate; try lia.
    + apply Forall_replicate. rewrite len_replicate. lia.
    + apply Forall_replicate. rewrite len_replicate. lia.
  - intros key Hkey. by apply elem_of_nil in Hkey.
  - intros d Hd. by apply elem_of_nil in Hd.
  - done.
Qed.

(** ** Encoded shards *)

Section encoded.
Context `{Sha256, Hex}.

Lemma len_encode_shard run shards kind index bits :
  len (encode_shard run shards kind index bits).2 = (78 + len bits)%N.
Proof. unfold encode_shard. simpl. autorewrite with fossil_len. change (len SUMMARY_MAGIC) with 4%N. lia. Qed.

(** [body[a..b]] of a concatenation. *)
Lemma slice_app (pre mid post : bytes) a n :
  length pre = a → length mid = n → take n (drop a (pre ++ mid ++ post)) = mid.
Proof. intros <- <-. by rewrite drop_app_length, take_app_length. Qed.

Lemma Shard_decode_encode run shards kind index bits :
  (0 < len bits)%N → (len bits <= 65536)%N →
  Shard_decode run kind index shards (encode_shard run shards kind index bits).2
  = Ok {| shard_bits := bits |}.
Proof.
  intros Hpos Hmax. unfold Shard_decode. rewrite len_encode_shard.
  rewrite (proj2 (N.leb_gt _ _)) by (unfold HEADER_BYTES; lia).
  rewrite (proj2 (N.ltb_ge _ _)) by (unfold MAX_SHARD_BYTES; lia). cbn [orb].
  unfold encode_shard. cbn [snd]. set (out := SUMMARY_MAGIC ++ _).
  assert (length (arr (digest out)) = 32) as H32 by apply length_arr.
  rewrite length_app, H32, Nat.add_sub, take_app_length, drop_app_length. cbv zeta.
  rewrite (bool_decide_eq_true_2 (arr (digest out) = arr (digest out))) by done.
  assert (length (arr run) = 32) as Hr by apply length_arr.
  assert (length (u32_be index) = 4) as Hi by apply (length_to_be 4).
  assert (length (u32_be shards) = 4) as Hs by apply (length_to_be 4).
  rewrite (bool_decide_eq_true_2 (take 4 out = _)) by done.
  rewrite (bool_decide_eq_true_2 (out !! 4 = _)) by done.
  rewrite (bool_decide_eq_true_2 (take (37 - 5) _ = _)) by
    (unfold out; rewrite (app_assoc SUMMARY_MAGIC); by apply slice_app).
  rewrite (bool_decide_eq_true_2 (out !! 37 = _)).
  2: { unfold out. rewrite (app_assoc SUMMARY_MAGIC), (app_assoc _ (arr run)).
       rewrite lookup_app_r by (rewrite length_app, Hr; simpl; lia).
       rewrite length_app, Hr. done. }
  rewrite (bool_decide_eq_true_2 (take (42 - 38) _ = _)).
  2: { unfold out. rewrite (app_assoc SUMMARY_MAGIC), (app_assoc _ (arr run)), (app_assoc _ [kind_byte kind]).
       apply slice_app; [rewrite !length_app, Hr; done|done]. }
  rewrite (bool_decide_eq_true_2 (take (46 - 42) _ = _)).
  2: { unfold out. rewrite (app_assoc SUMMARY_MAGIC), (app_assoc _ (arr run)), (app_assoc _ [kind_byte kind]), (app_assoc _ (u32_be index)).
       apply slice_app; [rewrite !length_app, Hr, Hi; done|done]. }
  cbn [negb orb]. do 2 f_equal. unfold out.
  rewrite (app_assoc SUMMARY_MAGIC), (app_assoc _ (arr run)), (app_assoc _ [kind_byte kind]), (app_assoc _ (u32_be index)), (app_assoc _ (u32_be shards)).
  apply drop_app_length'. rewrite !length_app, Hr, Hi, Hs. done.
Qed.

(** Adding keys to a builder. *)
Definition add_keys (b : SummaryBuilder) (keys : list bytes) : SummaryBuilder :=
  fold_left SummaryBuilder_add keys b.

Lemma add_keys_inv size b keys done :
  sb_inv size b done →
  sb_inv size (add_keys b keys) (rev keys ++ done) ∧ sb_shards (add_keys b keys) = sb_shards b.
Proof.
  revert b done; induction keys as [|k keys IH]; intros b done Hi; simpl; [done|].
  destruct (add_inv _ _ _ k Hi) as [Hi' Hs]. destruct (IH _ _ Hi') as [Hi'' Hs'].
  split; [by rewrite <-app_assoc|]. etrans; [exact Hs'|exact Hs].
Qed.

Definition shards_of (kind : ShardKind) (b : SummaryBuilder) : list bytes :=
  match kind with Address => sb_address b | Spill => sb_spill b end.

(** A shard that is in the finished list decodes to its bits. *)
Lemma finish_shard size kind b run index d :
  sb_wf size (SummaryBuilder_flush b) → (size <= 65536)%N →
  has (shards_of kind (SummaryBuilder_flush b)) index d →
  let shards := sb_shards (SummaryBuilder_flush b) in
  ∃ bytes shard, (shard_path run shards kind index, bytes) ∈ SummaryBuilder_finish b run ∧
    Shard_decode run kind index shards bytes = Ok shard ∧ bloom_contains (shard_bits shard) d = true.
Proof.
  intros [W1 W2 W3 W4 W5 W6] Hmax (bits & Hb & Hc) shards. set (b' := SummaryBuilder_flush b) in *.
  assert (len bits = size) as Hl by (destruct kind; [exact (proj1 (Forall_lookup _ _) W5 _ _ Hb)|
    exact (proj1 (Forall_lookup _ _) W6 _ _ Hb)]).
  assert (index < sb_shards b')%N as Hi.
  { apply lookup_lt_Some in Hb. unfold len in *. destruct kind; cbn [shards_of] in Hb; lia. }
  exists (encode_shard run shards kind index bits).2, {| shard_bits := bits |}. split_and!.
  - assert ((shard_path run shards kind index, (encode_shard run shards kind index bits).2)
      ∈ imap (λ i bits, encode_shard run shards kind (as_u32 (N.of_nat i)) bits) (shards_of kind b')) as Hin.
    { apply list_elem_of_lookup_2 with (N.to_nat index). rewrite list_lookup_imap, Hb. simpl.
      rewrite N2Nat.id, as_u32_small by lia. done. }
    unfold SummaryBuilder_finish. fold b'. apply elem_of_app. destruct kind; [by left|by right].
  - apply Shard_decode_encode; lia.
  - done.
Qed.

(** Every shard a reader can name is there and decodes. *)
Lemma finish_every_shard size kind b keys run index :
  sb_inv size b keys → (size <= 65536)%N → (index < sb_shards b)%N →
  ∃ bytes shard, (shard_path run (sb_shards b) kind index, bytes) ∈ SummaryBuilder_finish b run ∧
    Shard_decode run kind index (sb_shards b) bytes = Ok shard.
Proof.
  intros Hi Hmax Hlt. destruct (flush_inv _ _ _ Hi) as [Hle _].
  pose proof (le_wf _ _ _ Hle) as [W1 W2 W3 W4 W5 W6]. set (b' := SummaryBuilder_flush b) in *.
  assert (sb_shards b' = sb_shards b) as Hs by apply Hle. rewrite <-Hs in *.
  destruct (lookup_lt_is_Some_2 (shards_of kind b') (N.to_nat index)) as [bits Hb].
  { unfold len in *. destruct kind; cbn [shards_of]; lia. }
  assert (len bits = size) as Hl by (destruct kind; [exact (proj1 (Forall_lookup _ _) W5 _ _ Hb)|
    exact (proj1 (Forall_lookup _ _) W6 _ _ Hb)]).
  exists (encode_shard run (sb_shards b') kind index bits).2, {| shard_bits := bits |}. split.
  - assert ((shard_path run (sb_shards b') kind index, (encode_shard run (sb_shards b') kind index bits).2)
      ∈ imap (λ i bits, encode_shard run (sb_shards b') kind (as_u32 (N.of_nat i)) bits) (shards_of kind b')) as Hin.
    { apply list_elem_of_lookup_2 with (N.to_nat index). rewrite list_lookup_imap, Hb. simpl.
      rewrite N2Nat.id, as_u32_small by lia. done. }
    unfold SummaryBuilder_finish. fold b'. apply elem_of_app. destruct kind; [by left|by right].
  - apply Shard_decode_encode; lia.
Qed.

(** The reader's question about a key, from the shards of a finished summary:
    [address.contains(key) || (address.contains(marker) && spill.contains(key))]. *)
Definition answers (objects : list (string * bytes)) (run : Hash32) (shards : N) (key : bytes) : Prop :=
  let probe := Probe_new key shards in
  ∃ address_bytes address,
    (shard_path run shards Address (p_address_index probe), address_bytes) ∈ objects ∧
    Shard_decode run Address (p_address_index probe) shards address_bytes = Ok address ∧
    (Shard_contains address key = true ∨
     (Shard_contains address (p_marker probe) = true ∧
      ∃ spill_bytes spill,
        (shard_path run shards Spill (p_spill_index probe), spill_bytes) ∈ objects ∧
        Shard_decode run Spill (p_spill_index probe) shards spill_bytes = Ok spill ∧
        Shard_contains spill key = true)).

Lemma finish_answers size b keys run key :
  sb_inv size b keys → (size <= 65536)%N → key ∈ keys →
  answers (SummaryBuilder_finish b run) run (sb_shards b) key.
Proof.
  intros Hi Hmax Hk. destruct (flush_inv _ _ _ Hi) as [Hle Hr]. specialize (Hr key Hk).
  unfold answers. rewrite <-(le_shards _ _ _ Hle).
  destruct Hr as [Ha|[Hm Hs]].
  - destruct (finish_shard size Address b run _ _ (le_wf _ _ _ Hle) Hmax Ha) as (x & s & Hin & Hd & Hc).
    exists x, s. split_and!; [done|done|by left].
  - destruct (finish_shard size Address b run _ _ (le_wf _ _ _ Hle) Hmax Hm) as (x & s & Hin & Hd & Hc).
    destruct (finish_shard size Spill b run _ _ (le_wf _ _ _ Hle) Hmax Hs) as (y & t & Hin' & Hd' & Hc').
    exists x, s. split_and!; [done|done|right]. split; [done|]. by exists y, t.
Qed.

Lemma finish_lengths size b keys run path bytes :
  sb_inv size b keys → (path, bytes) ∈ SummaryBuilder_finish b run → len bytes = (78 + size)%N.
Proof.
  intros Hi Hin. destruct (flush_inv _ _ _ Hi) as [[[W1 W2 W3 W4 W5 W6] _ _ _] _].
  unfold SummaryBuilder_finish in Hin. apply elem_of_app in Hin.
  assert (∀ kind l, Forall (λ bits, len bits = size) l →
    (path, bytes) ∈ imap (λ i bits, encode_shard run (sb_shards (SummaryBuilder_flush b)) kind (as_u32 (N.of_nat i)) bits) l →
    len bytes = (78 + size)%N) as Hl.
  { intros kind l HF Hb. apply list_elem_of_lookup_1 in Hb as [i Hb].
    rewrite list_lookup_imap in Hb. apply fmap_Some in Hb as (bits & Hb & E).
    rewrite <-(proj1 (Forall_lookup _ _) HF _ _ Hb), <-(len_encode_shard run (sb_shards (SummaryBuilder_flush b)) kind (as_u32 (N.of_nat i)) bits).
    by rewrite <-E. }
  destruct Hin; eauto.
Qed.

(** ** Theorems *)

(** C34: a summary has no false negatives: whenever allocation succeeds,
    whatever keys are added (in any order, with
    duplicates, more than expected), the reader's question about an added key
    is answered positively by the encoded shards. *)
Theorem summary_no_false_negatives expected keys run b key :
  SummaryBuilder_new expected = Ok b → key ∈ keys →
  answers (SummaryBuilder_finish (add_keys b keys) run) run (sb_shards b) key.
Proof.
  intros Hb Hk. pose proof (SummaryBuilder_new_bound _ _ Hb) as He.
  destruct (SummaryBuilder_new_ok expected He) as (b' & size & Hb' & Hs & _ & Hi).
  assert (b' = b) as -> by congruence.
  destruct (add_keys_inv size b keys [] (Hi _)) as [Hi' Hsh]. rewrite <-Hsh.
  eapply finish_answers; [exact Hi'|lia|]. rewrite app_nil_r. apply list_elem_of_In. rewrite <-in_rev. by apply list_elem_of_In.
Qed.

(** Up to [2^46] expected keys, allocation succeeds with a power-of-two
    shard count that fits [u32], and every encoded shard is within the
    reader's 1 MiB fetch bound (in fact within 65,614 bytes). *)
Theorem summary_shards_bounded expected :
  (expected <= MAX_SUMMARY_KEYS)%N →
  ∃ b, SummaryBuilder_new expected = Ok b ∧ is_power_of_two (sb_shards b) = true ∧
    (sb_shards b <= u32_max)%N ∧
    ∀ keys run path bytes, (path, bytes) ∈ SummaryBuilder_finish (add_keys b keys) run →
      (len bytes <= 65614)%N ∧ (len bytes <= MAX_SHARD_BYTES)%N.
Proof.
  intros He. destruct (SummaryBuilder_new_ok expected He) as (b & size & Hb & Hs & Hsh & Hi).
  destruct (shard_count_spec expected He) as (k & Hk & Hk31 & _).
  exists b. split; [done|]. pose proof (wf_shards _ _ (inv_wf _ _ _ (Hi _))) as Hpos.
  split_and!; [|lia|].
  - rewrite Hsh, Hk. apply is_power_of_two_pow.
  - intros keys run path bytes Hin. destruct (add_keys_inv size b keys [] (Hi _)) as [Hi' _].
    rewrite (finish_lengths _ _ _ _ _ _ Hi' Hin). unfold MAX_SHARD_BYTES. lia.
Qed.

(** Paths determine what they name. *)
Lemma shard_path_inj `{!HexLaws} run run' shards shards' kind kind' index index' :
  (shards <= u32_max)%N → (shards' <= u32_max)%N → (index <= u32_max)%N → (index' <= u32_max)%N →
  shard_path run shards kind index = shard_path run' shards' kind' index' →
  run = run' ∧ shards = shards' ∧ kind = kind' ∧ index = index'.
Proof.
  intros Hs Hs' Hi Hi' E. unfold shard_path in E.
  apply string_app_inj in E as [_ E]; [|done].
  apply string_app_inj in E as [Er E]; [|by rewrite !hex_encode_length, !length_arr].
  apply string_app_inj in E as [_ E]; [|done].
  apply string_app_inj in E as [Es E]; [|by rewrite !length_hex08].
  apply string_app_inj in E as [_ E]; [|done].
  apply string_app_inj in E as [Ek E]; [|by destruct kind, kind'].
  split_and!; [by apply arr_inj, hex_encode_inj|by apply hex08_inj|by destruct kind, kind'|by apply hex08_inj].
Qed.

(** The paths of summary shards are distinct: two shards with the same
    path belong to the same run, shard count, kind and index, so create-only
    writes of different shards never meet. *)
Theorem shard_path_injective `{!HexLaws} run run' shards shards' kind kind' index index' :
  (shards <= u32_max)%N → (shards' <= u32_max)%N → (index <= u32_max)%N → (index' <= u32_max)%N →
  shard_path run shards kind index = shard_path run' shards' kind' index' →
  run = run' ∧ shards = shards' ∧ kind = kind' ∧ index = index'.
Proof. apply shard_path_inj. Qed.

End encoded.

(** ** A concrete summary *)

Module SummaryExample.
#[local] Existing Instances toy_sha toy_hex.

Definition keys : list bytes := [byte_string "alice"; byte_string "bob"; byte_string "alice"].
Definition builder : SummaryBuilder :=
  match SummaryBuilder_new 2 with Ok b => b | Err _ =>
    {| sb_shards := 0; sb_address := []; sb_spill := []; sb_group := []; sb_pending := [];
       sb_heavy := false; sb_keys := 0 |} end.

Lemma summary_no_false_negatives_witness :
  answers (SummaryBuilder_finish (add_keys builder keys) zero_hash) zero_hash 1 (byte_string "bob").
Proof.
  apply (summary_no_false_negatives 2 keys zero_hash builder (byte_string "bob")).
  - vm_compute. reflexivity.
  - apply list_elem_of_lookup_2 with 1. reflexivity.
Defined.

Lemma summary_shards_bounded_witness :
  ∃ b, SummaryBuilder_new 100 = Ok b ∧ is_power_of_two (sb_shards b) = true ∧
    (sb_shards b <= u32_max)%N ∧
    ∀ keys run path bytes, (path, bytes) ∈ SummaryBuilder_finish (add_keys b keys) run →
      (len bytes <= 65614)%N ∧ (len bytes <= MAX_SHARD_BYTES)%N.
Proof. apply (summary_shards_bounded 100). vm_compute. discriminate. Defined.

Lemma shard_path_injective_witness :
  zero_hash = zero_hash ∧ 4%N = 4%N ∧ Address = Address ∧ 3%N = 3%N.
Proof.
  apply (shard_path_injective (H1 := toy_hex_laws)); [vm_compute; discriminate..|reflexivity].
Defined.

(** Beyond [2^46] keys the count truncates to zero and allocation panics. *)
Lemma shard_count_truncates :
  shard_count (MAX_SUMMARY_KEYS + 1) = 0%N ∧
  SummaryBuilder_new (MAX_SUMMARY_KEYS + 1) = Err (Panic "attempt to divide by zero").
Proof. split; vm_compute; reflexivity. Qed.
End SummaryExample.
