(* ===== verification/Store.v ===== *)
(** * [src/store.rs]: the archive store

    [ArchiveStore] is the interface every other part of the program uses: a
    type of requests, so that a program over a store is a tree of requests.
    [MemoryArchiveStore] answers them from a map; [CountingStore] forwards them
    and counts reads.  Times are integers counted from the epoch, in any unit;
    [Now] is the process clock ([SystemTime::now], [Instant::now]).  [StoreContract]
    says what every back end promises; [FsStore] and [ObjectStore] are the other two. *)

From S2P Require Import Prelude Bytes.
From stdpp Require Import pretty list.
From Stdlib Require Import Lia.

Record VersionedBytes := { vb_bytes : bytes; vb_version : string }.
#[export] Instance VersionedBytes_eq_dec : EqDecision VersionedBytes.
Proof. solve_decision. Defined.

Record Listed := { l_key : string; l_size : N; l_modified : Z }.

(** [trait ArchiveStore], and the clock. *)
Inductive storeE : Type → Type :=
| SList (prefix : string) : storeE (result (list Listed))
| SDelete (key : string) : storeE (result unit)
| SModified (key : string) : storeE (result (option Z))
| SGet (key : string) : storeE (result bytes)
| SGetBounded (key : string) (maximum : N) : storeE (result bytes)
| SPutImmutable (key : string) (b : bytes) : storeE (result unit)
| SReadMutable (key : string) : storeE (result (option VersionedBytes))
| SReadMutableBounded (key : string) (maximum : N) : storeE (result (option VersionedBytes))
| SCompareAndSwap (key : string) (expected : option VersionedBytes) (b : bytes) : storeE (result unit)
| Now : storeE Z.

(** ** [MemoryArchiveStore] *)

Record MemoryEntry := { me_bytes : bytes; me_version : N }.
Record MemoryState := { ms_entries : gmap string MemoryEntry; ms_next_version : N }.
Definition memory_default : MemoryState := {| ms_entries := ∅; ms_next_version := 0 |}.

(** [MemoryState::insert] *)
Definition MemoryState_insert (key : string) (b : bytes) (s : MemoryState) : MemoryState :=
  let version := wrapping_add64 (ms_next_version s) 1 in
  {| ms_entries := <[key := {| me_bytes := b; me_version := version |}]> (ms_entries s);
     ms_next_version := version |}.

Definition versioned (e : MemoryEntry) : VersionedBytes :=
  {| vb_bytes := me_bytes e; vb_version := pretty (me_version e) |}.

Definition UNIX_EPOCH : Z := 0.

(** [list], [modified], [delete], [get], [get_bounded] *)
Definition mem_list (prefix : string) (s : MemoryState) : result (list Listed) :=
  Ok (map (λ '(key, entry),
         {| l_key := key; l_size := len (me_bytes entry); l_modified := UNIX_EPOCH |})
       (filter (λ p, String.prefix prefix p.1 = true) (map_to_list (ms_entries s)))).
Definition mem_modified (key : string) (s : MemoryState) : result (option Z) :=
  Ok (match ms_entries s !! key with Some _ => Some UNIX_EPOCH | None => None end).
Definition mem_delete (key : string) (s : MemoryState) : result unit * MemoryState :=
  (Ok tt, {| ms_entries := delete key (ms_entries s); ms_next_version := ms_next_version s |}).
Definition mem_get (key : string) (s : MemoryState) : result bytes :=
  match ms_entries s !! key with
  | Some entry => Ok (me_bytes entry)
  | None => bail ("object not found: " +:+ key)
  end.
Definition mem_get_bounded (key : string) (maximum : N) (s : MemoryState) : result bytes :=
  match ms_entries s !! key with
  | None => bail ("object not found: " +:+ key)
  | Some entry =>
      if (maximum <? len (me_bytes entry))%N
      then bail "object metadata length exceeds bounded GET limit"
      else Ok (me_bytes entry)
  end.

(** [put_immutable] *)
Definition mem_put_immutable (key : string) (b : bytes) (s : MemoryState) : result unit * MemoryState :=
  match ms_entries s !! key with
  | Some entry =>
      if bool_decide (me_bytes entry = b) then (Ok tt, s)
      else (bail ("immutable object collision at " +:+ key), s)
  | None => (Ok tt, MemoryState_insert key b s)
  end.

(** [read_mutable], [read_mutable_bounded] *)
Definition mem_read_mutable (key : string) (s : MemoryState) : result (option VersionedBytes) :=
  Ok (versioned <$> ms_entries s !! key).
Definition mem_read_mutable_bounded (key : string) (maximum : N) (s : MemoryState)
    : result (option VersionedBytes) :=
  match ms_entries s !! key with
  | None => Ok None
  | Some entry =>
      if (maximum <? len (me_bytes entry))%N
      then bail "mutable object exceeds bounded read limit"
      else Ok (Some (versioned entry))
  end.

(** [compare_and_swap] *)
Definition mem_compare_and_swap (key : string) (expected : option VersionedBytes) (b : bytes)
    (s : MemoryState) : result unit * MemoryState :=
  let matches :=
    match expected, ms_entries s !! key with
    | None, None => true
    | Some expected, Some current => bool_decide (vb_version expected = pretty (me_version current))
    | _, _ => false
    end in
  if negb matches then (bail "conditional head update failed", s)
  else (Ok tt, MemoryState_insert key b s).

(** [impl ArchiveStore for MemoryArchiveStore], under a clock that reads [now]. *)
Definition mem_handle (now : Z) : ∀ X, storeE X → MemoryState → X * MemoryState :=
  λ X e s,
    match e in storeE X return X * MemoryState with
    | SList prefix => (mem_list prefix s, s)
    | SDelete key => mem_delete key s
    | SModified key => (mem_modified key s, s)
    | SGet key => (mem_get key s, s)
    | SGetBounded key maximum => (mem_get_bounded key maximum s, s)
    | SPutImmutable key b => mem_put_immutable key b s
    | SReadMutable key => (mem_read_mutable key s, s)
    | SReadMutableBounded key maximum => (mem_read_mutable_bounded key maximum s, s)
    | SCompareAndSwap key expected b => mem_compare_and_swap key expected b s
    | Now => (now, s)
    end.

(** ** [CountingStore] *)

Record Counters := { c_gets : N; c_bytes : N }.
Definition counters_new : Counters := {| c_gets := 0; c_bytes := 0 |}.

(** [CountingStore::count] *)
Definition count_read (n : N) (c : Counters) : Counters :=
  {| c_gets := wrapping_add64 (c_gets c) 1; c_bytes := wrapping_add64 (c_bytes c) n |}.

(** [CountingStore::take] *)
Definition counters_take (c : Counters) : (N * N) * Counters := ((c_gets c, c_bytes c), counters_new).

(** [impl ArchiveStore for CountingStore] over an inner store. *)
Definition counting_handle {S} (inner : ∀ X, storeE X → S → X * S)
    : ∀ X, storeE X → S * Counters → X * (S * Counters) :=
  λ X e '(s, c),
    match e in storeE X return X * (S * Counters) with
    | SGet key =>
        let '(r, s) := inner _ (SGet key) s in
        (r, (s, match r with Ok b => count_read (len b) c | Err _ => c end))
    | SGetBounded key maximum =>
        let '(r, s) := inner _ (SGetBounded key maximum) s in
        (r, (s, count_read (match r with Ok b => len b | Err _ => 0 end) c))
    | SReadMutable key =>
        let '(r, s) := inner _ (SReadMutable key) s in (r, (s, count_read 0 c))
    | SReadMutableBounded key maximum =>
        let '(r, s) := inner _ (SReadMutableBounded key maximum) s in (r, (s, count_read 0 c))
    | e => let '(r, s) := inner _ e s in (r, (s, c))
    end.

(** ** Facts *)

Lemma prefix_app p s : String.prefix p (p +:+ s) = true.
Proof.
  induction p as [|c p IH]; [by destruct s|]. change (String c p +:+ s) with (String c (p +:+ s)).
  simpl. by destruct (Ascii.ascii_dec c c).
Qed.

(** Counting does not change what a program computes or does to the store. *)
Lemma counting_transparent {S A} (inner : ∀ X, storeE X → S → X * S) (p : prog storeE A) s c :
  ∃ c', run_prog (counting_handle inner) p (s, c) = ((run_prog inner p s).1, ((run_prog inner p s).2, c')).
Proof.
  revert s c; induction p as [a|X e k IH]; intros s c; [by exists c|]. cbn [run_prog].
  assert (∃ c1, counting_handle inner X e (s, c) = ((inner X e s).1, ((inner X e s).2, c1))) as [c1 ->].
  { destruct e; simpl; match goal with |- context [inner ?X ?e s] => destruct (inner X e s) end; eauto. }
  destruct (inner X e s) as [x s1]. simpl. apply IH.
Qed.

(** An object that is present is never changed by anything but a
    compare-and-swap of its key, or a deletion. *)
Definition touches (X : Type) (e : storeE X) (key : string) : Prop :=
  match e with
  | SDelete k => k = key
  | SCompareAndSwap k _ _ => k = key
  | _ => False
  end.

Lemma mem_entry_kept now X (e : storeE X) s key entry :
  ms_entries s !! key = Some entry → ¬ touches X e key →
  ms_entries (mem_handle now X e s).2 !! key = Some entry.
Proof.
  intros Hk Ht. destruct e as [| k | | | | k b | | | k expected b |]; simpl in *; try done.
  - by rewrite lookup_delete_ne.
  - unfold mem_put_immutable. destruct (ms_entries s !! k) as [e'|] eqn:E; [by case_bool_decide|].
    simpl. rewrite lookup_insert_ne; [done|]. intros ->. congruence.
  - unfold mem_compare_and_swap. destruct (negb _); [done|]. simpl. by rewrite lookup_insert_ne.
Qed.

(** A successful put leaves exactly those bytes at the key. *)
Lemma mem_put_ok key b s s' :
  mem_put_immutable key b s = (Ok tt, s') → ∃ entry, ms_entries s' !! key = Some entry ∧ me_bytes entry = b.
Proof.
  unfold mem_put_immutable. destruct (ms_entries s !! key) as [e|] eqn:E.
  - case_bool_decide; [|done]. intros [= <-]. eauto.
  - intros [= <-]. simpl. rewrite lookup_insert_eq. eauto.
Qed.
