(* ===== verification/StoreContract.v ===== *)
(** * What a back end of [ArchiveStore] promises

    The rest of the program sees a store through the trait [ArchiveStore].
    [store_spec] is what one request may answer and do to the objects, in one
    step; it allows any request to fail, and a failed write to have happened (the
    connection broke, a directory could not be flushed).  A back end
    [StoreImplements] the trait when every request, whatever the other processes
    do meanwhile within [rely], is that step at one of its own system calls and
    changes nothing at the others.  Then a client that runs alone can observe only
    what the specification allows ([client_alone]), and concurrent clients are
    linearizable ([clients_linearize]). *)

From stdpp Require Import relations pretty.
From S2P Require Import Prelude Bytes RelyGuarantee Store.
From Stdlib Require Import Lia Morphisms.

(** The objects of a store: bytes and, if the store has one, a version. *)
Abbreviation contents := (string → option (bytes * option string)).

#[export] Instance contents_equiv : Equiv contents := λ m m', ∀ k, m k = m' k.
#[export] Instance contents_equivalence : Equivalence (≡@{contents}).
Proof. split; [by intros m k|by intros m m' E k|intros m m' m'' E E' k; by rewrite E]. Qed.

(** [m'] is [m] with [v] at [k]. *)
Definition updated (k : string) (v : option (bytes * option string)) (m m' : contents) : Prop :=
  m' k = v ∧ ∀ k', k' ≠ k → m' k' = m k'.

(** What a compare-and-swap expects to find. *)
Definition agrees (expected : option VersionedBytes) (current : option (bytes * option string)) : Prop :=
  match expected, current with
  | None, None => True
  | Some v, Some (_, w) => w = Some (vb_version v)
  | _, _ => False
  end.

(** A listing of the objects whose keys start with [prefix]. *)
Definition listing (prefix : string) (m : contents) (l : list Listed) : Prop :=
  NoDup (map l_key l) ∧
  ∀ k n, (∃ x, x ∈ l ∧ l_key x = k ∧ l_size x = n) ↔
         String.prefix prefix k = true ∧ ∃ b w, m k = Some (b, w) ∧ n = len b.

(** The write of a [put_immutable]: a new object, or the same bytes again. *)
Definition put_written (k : string) (b : bytes) (m m' : contents) : Prop :=
  (∀ b' w, m k = Some (b', w) → b' = b) ∧ ∃ w, updated k (Some (b, w)) m m'.
Definition swap_written (k : string) (expected : option VersionedBytes) (b : bytes) (m m' : contents) : Prop :=
  agrees expected (m k) ∧ ∃ w, updated k (Some (b, w)) m m'.

Definition store_spec X (e : storeE X) : contents → X → contents → Prop :=
  match e in storeE X return contents → X → contents → Prop with
  | SList prefix => λ m r m', m' ≡ m ∧ match r with Ok l => listing prefix m l | Err _ => True end
  | SDelete k => λ m r m',
      match r with Ok _ => updated k None m m' | Err _ => m' ≡ m ∨ updated k None m m' end
  | SModified k => λ m r m',
      m' ≡ m ∧ match r with Ok t => is_Some (m k) ↔ is_Some t | Err _ => True end
  | SGet k => λ m r m',
      m' ≡ m ∧ match r with Ok b => ∃ w, m k = Some (b, w) | Err _ => True end
  | SGetBounded k maximum => λ m r m',
      m' ≡ m ∧ match r with Ok b => (∃ w, m k = Some (b, w)) ∧ (len b <= maximum)%N | Err _ => True end
  | SPutImmutable k b => λ m r m',
      match r with
      | Ok _ => (∃ w, m k = Some (b, w)) ∧ m' ≡ m ∨ put_written k b m m'
      | Err _ => m' ≡ m ∨ put_written k b m m'
      end
  | SReadMutable k => λ m r m',
      m' ≡ m ∧ match r with Ok v => m k = (λ v, (vb_bytes v, Some (vb_version v))) <$> v | Err _ => True end
  | SReadMutableBounded k maximum => λ m r m',
      m' ≡ m ∧ match r with
               | Ok v => m k = (λ v, (vb_bytes v, Some (vb_version v))) <$> v ∧
                         ∀ x, v = Some x → (len (vb_bytes x) <= maximum)%N
               | Err _ => True
               end
  | SCompareAndSwap k expected b => λ m r m',
      match r with Ok _ => swap_written k expected b m m' | Err _ => m' ≡ m ∨ swap_written k expected b m m' end
  | Now => λ m _ m', m' ≡ m
  end.

(** Executions of a client on the specification. *)
Inductive spec_run {A} : prog storeE A → contents → A → contents → Prop :=
| spec_ret a m m' : m' ≡ m → spec_run (Ret a) m a m'
| spec_vis {X} (e : storeE X) k m x m1 a m' :
    store_spec X e m x m1 → spec_run (k x) m1 a m' → spec_run (Vis e k) m a m'.

(** One of the steps of an operation is the step of the specification, and the
    others do not change any object. *)
Definition linearized {S} (abs : S → contents) {X} (e : storeE X) (x : X) (tr : list (S * S)) : Prop :=
  ∃ tr1 s1 s2 tr2, tr = tr1 ++ (s1, s2) :: tr2 ∧ store_spec X e (abs s1) x (abs s2) ∧
    Forall (λ t, abs t.2 ≡ abs t.1) (tr1 ++ tr2).

(** The step of the specification is the last one, or a read among reads. *)
Lemma linearized_last {S} (abs : S → contents) {X} (e : storeE X) x tr s1 s2 :
  Forall (λ t, abs t.2 ≡ abs t.1) tr → store_spec X e (abs s1) x (abs s2) → linearized abs e x (tr ++ [(s1, s2)]).
Proof. intros Hq Hx. exists tr, s1, s2, []. by rewrite app_nil_r. Qed.
Lemma linearized_quiet {S} (abs : S → contents) {X} (e : storeE X) x tr s1 s2 :
  Forall (λ t, abs t.2 ≡ abs t.1) tr → (s1, s2) ∈ tr → store_spec X e (abs s1) x (abs s2) → linearized abs e x tr.
Proof.
  intros Hq Hin Hx. apply list_elem_of_split in Hin as (tr1 & tr2 & ->). exists tr1, s1, s2, tr2.
  split; [done|]. split; [done|]. apply Forall_app in Hq as [Hq1 Hq2]. inversion Hq2. by apply Forall_app.
Qed.

Class StoreImplements {F : Type → Type} {S : Type} (step : ∀ X, F X → S → X → S → Prop)
    (rely guar : S → S → Prop) (inv : S → Prop) (abs : S → contents)
    (allowed : ∀ X, storeE X → Prop) (impl : ∀ X, storeE X → prog F X) : Prop := {
  rely_preorder :: PreOrder rely;
  rely_inv s s' : rely s s' → inv s → inv s';
  guar_inv s s' : guar s s' → inv s → inv s';
  impl_linearizes X (e : storeE X) s :
    allowed X e → inv s → rg step rely guar (λ tr x _, linearized abs e x tr) (impl X e) [] s
}.

(** ** Sequential clients *)

(** The steps of a program that runs alone follow each other. *)
Fixpoint chained {S} (s : S) (tr : list (S * S)) (s' : S) : Prop :=
  match tr with [] => s' = s | (s1, s2) :: tr => s1 = s ∧ chained s2 tr s' end.

Lemma trace_chained_app {S} (s : S) tr1 tr2 s' :
  chained s (tr1 ++ tr2) s' ↔ ∃ s1, chained s tr1 s1 ∧ chained s1 tr2 s'.
Proof.
  revert s; induction tr1 as [|[a b] tr1 IH]; intros s; simpl.
  - split; [eauto|]. intros (s1 & -> & H); done.
  - rewrite IH. split.
    + intros [-> (s1 & H1 & H2)]. eauto.
    + intros (s1 & [-> H1] & H2). eauto.
Qed.

Section sequential.
Context {F : Type → Type} {S : Type} (step : ∀ X, F X → S → X → S → Prop).

Lemma rg_chained {A} (rely : S → S → Prop) G Q (p : prog F A) tr s :
  Reflexive rely → rg step rely G Q p tr s →
  ∀ s0, chained s0 tr s → rg step eq G (λ tr a s', Q tr a s' ∧ chained s0 tr s') p tr s.
Proof.
  intros Hr. revert tr s; induction p as [a|X e k IH]; simpl; intros tr s H s0 Hc.
  - intros s' <-. split; [by apply H|done].
  - intros s1 x s2 <- Hx. destruct (H s x s2 (Hr s) Hx) as [Hg Hk]. split; [done|].
    apply IH; [done|]. apply trace_chained_app. exists s. done.
Qed.

Lemma linearized_alone (abs : S → contents) {X} (e : storeE X) x tr s s' :
  linearized abs e x tr → chained s tr s' → ∃ m m', abs s ≡ m ∧ store_spec X e m x m' ∧ abs s' ≡ m'.
Proof.
  intros (tr1 & s1 & s2 & tr2 & -> & Hx & Hs) Hc.
  assert (∀ tr a b, Forall (λ t, abs t.2 ≡ abs t.1) tr → chained a tr b → abs b ≡ abs a) as Hsame.
  { clear. induction tr as [|[a1 b1] tr IH]; simpl; intros a b Hs Hc; [by subst|].
    destruct Hc as [-> Hc]. inversion Hs; subst. etrans; [by apply IH|done]. }
  apply Forall_app in Hs as [H1 H2]. apply trace_chained_app in Hc as (s3 & Hc1 & -> & Hc2).
  exists (abs s3), (abs s2). split; [symmetry; eauto|]. split; [done|eauto].
Qed.

End sequential.

Lemma agrees_equiv expected (m n : contents) k : m ≡ n → agrees expected (m k) ↔ agrees expected (n k).
Proof. intros E. by rewrite (E k). Qed.

#[export] Instance updated_proper k v : Proper ((≡) ==> (≡) ==> iff) (updated k v).
Proof.
  intros m n E m' n' E'. unfold updated. rewrite (E' k). split; intros [H1 H2]; (split; [done|]);
    intros k' Hk; specialize (H2 k' Hk); [by rewrite <-(E' k'), <-(E k')|by rewrite (E' k'), (E k')].
Qed.

(** The specification does not distinguish equivalent stores. *)
#[export] Instance store_spec_proper X e : Proper ((≡) ==> eq ==> (≡) ==> iff) (store_spec X e).
Proof.
  assert (∀ (m n : contents) prefix l, m ≡ n → listing prefix m l → listing prefix n l) as Hlist.
  { intros m n prefix l E [Hd Hl]. split; [done|]. intros k x. rewrite Hl, (E k). done. }
  assert (∀ m n m' n' x, m ≡ n → m' ≡ n' → store_spec X e m x m' → store_spec X e n x n') as Himp.
  { intros m n m' n' x E E'. pose proof (E : ∀ k, m k = n k) as Ek.
    assert ((m' ≡ m) ↔ (n' ≡ n)) as Hs by (by rewrite E, E').
    assert (∀ k v, updated k v m m' ↔ updated k v n n') as Hu by (intros k v; by rewrite E, E').
    destruct e; simpl; try destruct x; unfold put_written, swap_written;
      rewrite ?Hs, ?Ek; setoid_rewrite Hu || idtac; try done.
    intros [? ?]; split; [done|]. by apply (Hlist m). }
  intros m n E x y <- m' n' E'. split; apply Himp; done.
Qed.

Section clients.
Context {F : Type → Type} {S : Type} {step : ∀ X, F X → S → X → S → Prop}
  {rely guar : S → S → Prop} {inv : S → Prop} {abs : S → contents}
  {allowed : ∀ X, storeE X → Prop} {impl : ∀ X, storeE X → prog F X}
  `{!StoreImplements step rely guar inv abs allowed impl}.

Lemma spec_run_proper {A} (p : prog storeE A) m n a m' n' :
  m ≡ n → m' ≡ n' → spec_run p m a m' → spec_run p n a n'.
Proof.
  intros E E' Hr. revert n n' E E'. induction Hr as [a m m' Hs|X e k m x m1 a m' Hx _ IH]; intros n n' E E'.
  - constructor. by rewrite <-E, <-E'.
  - econstructor; [by rewrite <-E|]. by apply IH.
Qed.

Lemma rg_inv {A} Q (p : prog F A) tr s :
  inv s → rg step rely guar Q p tr s → rg step rely guar (λ tr a s', Q tr a s' ∧ inv s') p tr s.
Proof.
  intros Hi. apply rg_invariant; [exact rely_inv|exact guar_inv|done].
Qed.

(** One request, run alone. *)
Lemma request_alone X (e : storeE X) s :
  allowed X e → inv s →
  rg step eq (λ _ _, True) (λ _ x s', store_spec X e (abs s) x (abs s') ∧ inv s') (impl X e) [] s.
Proof.
  intros Ha Hi. pose proof (rg_inv _ _ _ _ Hi (impl_linearizes X e s Ha Hi)) as H1.
  apply rg_chained with (s0 := s) in H1; [|apply _|done].
  eapply rg_weaken; [..|exact H1]; [done|].
  intros tr x s' [[Hl Hs] Hc]. split; [|done].
  destruct (linearized_alone _ _ _ _ _ _ Hl Hc) as (m & m' & Em & Hx & Em'). by rewrite Em, Em'.
Qed.

Lemma client_alone {A} (P : A → Prop) (p : prog storeE A) s tr :
  always allowed P p → inv s →
  rg step eq (λ _ _, True) (λ _ a s', spec_run p (abs s) a (abs s') ∧ inv s') (interp impl p) tr s.
Proof.
  intros Hp. revert s tr. induction Hp as [a Ha|X e k He _ IH]; intros s tr Hi; simpl.
  - intros s' <-. split; [by constructor|done].
  - apply rg_bind; [apply _|].
    rewrite <-(app_nil_r tr). apply rg_shift. eapply rg_weaken; [..|by apply request_alone]; [done|].
    intros tr' x s1 [Hx Hi1]. eapply rg_weaken; [..|by apply IH]; [done|].
    intros ? a s' [Hr Hi']. split; [by econstructor|done].
Qed.

(** What the system calls of a client amount to: requests of the specification
    in the order of the program, and steps that change no object. *)
Inductive marks {A} : prog storeE A → list (S * S) → A → Prop :=
| marks_ret a : marks (Ret a) [] a
| marks_quiet p t tr a : abs t.2 ≡ abs t.1 → marks p tr a → marks p (t :: tr) a
| marks_request {X} (e : storeE X) k x t tr a :
    store_spec X e (abs t.1) x (abs t.2) → marks (k x) tr a → marks (Vis e k) (t :: tr) a.

Lemma marks_quiet_app {A} (p : prog storeE A) tr1 tr a :
  Forall (λ t, abs t.2 ≡ abs t.1) tr1 → marks p tr a → marks p (tr1 ++ tr) a.
Proof. intros H Hm. induction H; simpl; [done|by constructor]. Qed.

Lemma client_marks {A} (P : A → Prop) (p : prog storeE A) s tr :
  always allowed P p → inv s →
  rg step rely guar (λ tr' a _, ∃ tr1, tr' = tr ++ tr1 ∧ marks p tr1 a) (interp impl p) tr s.
Proof.
  intros Hp. revert s tr. induction Hp as [a Ha|X e k He _ IH]; intros s tr Hi; simpl.
  - intros s' _. exists []. rewrite app_nil_r. split; [done|constructor].
  - apply rg_bind; [apply _|]. rewrite <-(app_nil_r tr) at 1. apply rg_shift.
    eapply rg_weaken; [done| |by apply rg_inv, impl_linearizes]. simpl.
    intros tr1 x s1 [(u1 & t1 & t2 & u2 & -> & Hx & Hq) Hi1].
    eapply rg_weaken; [done| |by apply IH]. simpl. intros tr' a s2 (tr2 & -> & Hm).
    eexists. split; [by rewrite <-app_assoc|]. apply Forall_app in Hq as [Hq1 Hq2].
    rewrite <-app_assoc. apply marks_quiet_app; [done|]. simpl. econstructor; [done|]. by apply marks_quiet_app.
Qed.

End clients.

(** ** Concurrent clients *)

(** Every step of [run'] is one of [run], seen through [abs]. *)
Definition run_through {S} (abs : S → contents) (run : list (nat * (S * S))) (run' : list (nat * (contents * contents))) : Prop :=
  Forall (λ t, ∃ u, u ∈ run ∧ t.2.1 ≡ abs u.2.1 ∧ t.2.2 ≡ abs u.2.2) run'.
Lemma run_through_cons {S} (abs : S → contents) u run run' : run_through abs run run' → run_through abs (u :: run) run'.
Proof. intros Hr. eapply Forall_impl; [exact Hr|]. intros t (v & Hv & E). exists v. split; [by right|done]. Qed.

(** If the steps of every program amount to requests of the specification, so
    does the whole run. *)
Lemma marks_pool {S A} (abs : S → contents) (run : list (nat * (S * S))) s s' (ps : list (prog storeE A)) (results : list A) m :
  chained s run.*2 s' → Forall (λ t, t.1 < length ps)%nat run → m ≡ abs s → length ps = length results →
  (∀ i p a, ps !! i = Some p → results !! i = Some a → marks (abs := abs) p (own i run) a) →
  ∃ m' run', pool (λ _, store_spec) (ps, m) run' (map Ret results, m') ∧ m' ≡ abs s' ∧ run_through abs run run'.
Proof.
  revert s ps m. induction run as [|[i [t1 t2]] run IH]; simpl; intros s ps m Hc Hi Em Hl Hm.
  - subst s'. exists m, []. split; [|split; [done|constructor]]. replace ps with (map (@Ret storeE A) results); [constructor|].
    apply list_eq. intros i. rewrite list_lookup_fmap. destruct (results !! i) as [a|] eqn:Ea; simpl.
    + destruct (ps !! i) as [p|] eqn:Ep; [|apply lookup_ge_None in Ep; apply lookup_lt_Some in Ea; lia].
      specialize (Hm i p a Ep Ea). inversion Hm; by subst.
    + symmetry. apply lookup_ge_None. apply lookup_ge_None in Ea. lia.
  - destruct Hc as [-> Hc]. inversion Hi as [|? ? Hlt Hi']; subst. simpl in Hlt.
    destruct (lookup_lt_is_Some_2 ps i Hlt) as [p Ep].
    destruct (lookup_lt_is_Some_2 results i ltac:(lia)) as [a Ea].
    pose proof (Hm i p a Ep Ea) as Hmi. unfold own in Hmi. rewrite filter_cons_True in Hmi by done. simpl in Hmi.
    assert (∀ j q b, j ≠ i → ps !! j = Some q → results !! j = Some b → marks (abs := abs) q (own j run) b) as Hother.
    { intros j q b Hj Hq Hb. specialize (Hm j q b Hq Hb). unfold own in Hm.
      by rewrite filter_cons_False in Hm by (simpl; congruence). }
    inversion Hmi as [|? ? ? ? Hq Hrest|X e k x ? ? ? Hx Hrest]; subst.
    + simpl in Hq. destruct (IH t2 ps m) as (m' & run' & Hp & E' & Hr); [done..|by rewrite Em, Hq|done| |].
      { intros j q b Hj Hb. destruct (decide (j = i)) as [->|]; [by simplify_eq|by apply Hother]. }
      exists m', run'. split_and!; [done|done|by apply run_through_cons].
    + simpl in Hx. destruct (IH t2 (<[i := k x]> ps) (abs t2)) as (m' & run' & Hp & E' & Hr);
        [done|by rewrite length_insert|done|by rewrite length_insert|..].
      { intros j q b Hj Hb. destruct (decide (j = i)) as [->|].
        - rewrite list_lookup_insert_eq in Hj by done. by simplify_eq.
        - rewrite list_lookup_insert_ne in Hj by done. by apply Hother. }
      eexists m', _. split; [|split; [done|]]; [econstructor; [|exact Hp]; econstructor; [done|]; by rewrite Em|].
      constructor; [|by apply run_through_cons]. simpl. exists (i, (s, t2)). split; [by left|done].
Qed.

Lemma pool_run_facts {E S A} (step : nat → ∀ X, E X → S → X → S → Prop) c run (c' : list (prog E A) * S) :
  pool step c run c' → chained c.2 run.*2 c'.2 ∧ Forall (λ t, t.1 < length c.1)%nat run ∧ length c'.1 = length c.1.
Proof.
  induction 1 as [c|c i c1 run c' Hs _ (IH1 & IH2 & IH3)]; [done|].
  destruct Hs as [ps i X e k s x s' Hi Hx]. simpl in *. rewrite length_insert in *.
  split_and!; try done. constructor; [|done]. by eapply lookup_lt_Some.
Qed.

Section concurrent.
Context {F : Type → Type} {S : Type} {step : nat → ∀ X, F X → S → X → S → Prop}
  {rely guar : nat → S → S → Prop} {inv : S → Prop} {abs : S → contents}
  {allowed : ∀ X, storeE X → Prop} {impl : ∀ X, storeE X → prog F X}
  {HI : ∀ i, StoreImplements (step i) (rely i) (guar i) inv abs allowed impl}.

(** Clients whose system calls interleave in any way obtain what clients whose
    requests are atomic can obtain, and leave the same objects. *)
Lemma clients_linearize_run {A} (P : A → Prop) (ps : list (prog storeE A)) s run results s' :
  (∀ i j s s', i ≠ j → guar i s s' → rely j s s') →
  Forall (always allowed P) ps → inv s →
  pool step (map (interp impl) ps, s) run (map Ret results, s') →
  ∃ m' run', pool (λ _, store_spec) (ps, abs s) run' (map Ret results, m') ∧ m' ≡ abs s' ∧ run_through abs run run'.
Proof.
  intros Hg Hps Hi Hrun. destruct (pool_run_facts _ _ _ _ Hrun) as (Hc & Hlt & Hlen).
  simpl in *. rewrite !length_map in *.
  eapply marks_pool; [done..|]. intros i p a Ep Ea.
  assert (∀ j q, map (interp impl) ps !! j = Some q →
    rg (step j) (rely j) (λ s s', ∀ k, k ≠ j → rely k s s')
      (λ tr a _, ∀ p, ps !! j = Some p → marks (abs := abs) p tr a) q [] s) as Hall.
  { intros j q Hq. rewrite list_lookup_fmap in Hq. destruct (ps !! j) as [p0|] eqn:Ej; simplify_eq/=.
    eapply rg_weaken; [..|eapply (client_marks P p0 s [])].
    - intros s1 s2 H k Hk. by apply (Hg j k).
    - intros tr b s2 (tr1 & -> & Hm) p1 ?. by simplify_eq.
    - by eapply Forall_lookup_1 in Hps.
    - done. }
  eapply (pool_finished step rely (λ j tr a _, ∀ p, ps !! j = Some p → marks (abs := abs) p tr a)
            _ s run _ i a Hrun Hall); [|done].
  simpl. by rewrite list_lookup_fmap, Ea.
Qed.
Lemma clients_linearize {A} (P : A → Prop) (ps : list (prog storeE A)) s run results s' :
  (∀ i j s s', i ≠ j → guar i s s' → rely j s s') →
  Forall (always allowed P) ps → inv s →
  pool step (map (interp impl) ps, s) run (map Ret results, s') →
  ∃ m' run', pool (λ _, store_spec) (ps, abs s) run' (map Ret results, m') ∧ m' ≡ abs s'.
Proof.
  intros Hg Hps Hi Hrun. destruct (clients_linearize_run P ps s run results s' Hg Hps Hi Hrun) as (m' & run' & Hp & E & _). eauto.
Qed.
End concurrent.

(** ** The in-memory store *)

(** The objects of the in-memory store. *)
Definition mem_contents (s : MemoryState) : contents :=
  λ k, (λ e, (me_bytes e, Some (pretty (me_version e)))) <$> ms_entries s !! k.

Lemma mem_put_contents k b s : updated k (Some (b, Some (pretty (wrapping_add64 (ms_next_version s) 1))))
  (mem_contents s) (mem_contents (MemoryState_insert k b s)).
Proof.
  unfold mem_contents, MemoryState_insert. split; simpl; [by rewrite lookup_insert_eq|].
  intros k' Hk. by rewrite lookup_insert_ne.
Qed.

Lemma mem_list_listing prefix s l : mem_list prefix s = Ok l → listing prefix (mem_contents s) l.
Proof.
  unfold mem_list. intros [= <-]. split.
  - rewrite map_map. erewrite map_ext; [apply NoDup_fmap_fst|]; [|by apply NoDup_filter, NoDup_map_to_list|by intros []].
    intros k e1 e2 [_ H1]%list_elem_of_filter [_ H2]%list_elem_of_filter.
    apply elem_of_map_to_list in H1, H2. congruence.
  - intros k n. unfold mem_contents. split.
    + intros (x & Hx & <- & <-). apply list_elem_of_fmap in Hx as ([k e] & -> & Hx).
      apply list_elem_of_filter in Hx as [Hp Hx%elem_of_map_to_list]. simpl in *. split; [done|].
      rewrite Hx. simpl. eauto.
    + intros (Hp & b & w & Hk & ->). destruct (ms_entries s !! k) as [e|] eqn:He; simplify_eq/=.
      exists {| l_key := k; l_size := len (me_bytes e); l_modified := UNIX_EPOCH |}. split; [|done].
      apply list_elem_of_fmap. exists (k, e). split; [done|].
      apply list_elem_of_filter. split; [done|]. by apply elem_of_map_to_list.
Qed.

(** Every answer of the in-memory store is one the specification allows. *)
Lemma mem_handle_spec now X (e : storeE X) s :
  store_spec X e (mem_contents s) (mem_handle now X e s).1 (mem_contents (mem_handle now X e s).2).
Proof.
  destruct e as [prefix|k|k|k|k maximum|k b|k|k maximum|k expected b|]; simpl; try done.
  - split; [done|]. by apply mem_list_listing.
  - unfold mem_contents. split; simpl; [by rewrite lookup_delete_eq|]. intros k' Hk. by rewrite lookup_delete_ne.
  - split; [done|]. unfold mem_contents. rewrite fmap_is_Some. destruct (ms_entries s !! k); naive_solver.
  - split; [done|]. unfold mem_get, mem_contents. destruct (ms_entries s !! k); simpl; eauto.
  - split; [done|]. unfold mem_get_bounded, mem_contents. destruct (ms_entries s !! k); simpl; [|done].
    destruct (_ <? _)%N eqn:Hm; [done|]. bool_prop. eauto.
  - unfold mem_put_immutable. destruct (ms_entries s !! k) as [e|] eqn:He.
    + case_bool_decide; simpl; [|by left]. left. split; [|done]. subst. exists (Some (pretty (me_version e))). unfold mem_contents. by rewrite He.
    + right. split; [unfold mem_contents; rewrite He; naive_solver|]. eexists. apply mem_put_contents.
  - split; [done|]. unfold mem_contents. by destruct (ms_entries s !! k).
  - split; [done|]. unfold mem_read_mutable_bounded, mem_contents. destruct (ms_entries s !! k); simpl; [|naive_solver].
    destruct (_ <? _)%N eqn:Hm; [done|]. bool_prop. naive_solver.
  - unfold mem_compare_and_swap. destruct (negb _) eqn:Em; simpl; [by left|]. bool_prop.
    split; [|eexists; apply mem_put_contents]. unfold mem_contents.
    destruct expected, (ms_entries s !! k); simpl; try done. bool_prop. by f_equal.
Qed.

(** A client of the in-memory store observes what the specification allows. *)
Lemma mem_client_spec {A} now (p : prog storeE A) s :
  spec_run p (mem_contents s) (run_prog (mem_handle now) p s).1 (mem_contents (run_prog (mem_handle now) p s).2).
Proof.
  revert s; induction p as [a|X e k IH]; intros s; simpl; [by constructor|].
  pose proof (mem_handle_spec now X e s) as He. destruct (mem_handle now X e s) as [x s1]. by econstructor.
Qed.
