(* ===== verification/ObjectStore.v ===== *)
(** * [src/store.rs]: the object-store back end

    [ObjectArchiveStore] implements the store on the [object_store] crate (S3 and
    its relatives).  A call of the crate is a request [objectE]; a body is the
    list of the chunks its stream yields.  The crate's [Path::from] and
    [GetResult::bytes] are parameters. *)

From stdpp Require Import pretty.
From S2P Require Import Prelude Bytes Text Externals Hash Store.
From Stdlib Require Import Lia ZArith Strings.Ascii.

(** ** [REFRESH_AFTER], [stale] *)

Definition REFRESH_AFTER : Z := 3600.
(** [elapsed] fails when the time is in the future. *)
Definition stale (now modified : Z) : bool := (modified <=? now)%Z && (REFRESH_AFTER <? now - modified)%Z.

(** ** The crate [object_store] *)

(** [object_store::Error]: the cases the code tells apart, each with its text. *)
Inductive os_error :=
| OsNotFound (message : string)
| OsAlreadyExists (message : string)
| OsPrecondition (message : string)
| OsOther (message : string).
Definition os_message (e : os_error) : string :=
  match e with OsNotFound m | OsAlreadyExists m | OsPrecondition m | OsOther m => m end.
Definition os_into (e : os_error) : error := Msg (os_message e).

Record ObjectMeta := {
  om_location : string;
  om_last_modified : Z;
  om_size : N;
  om_e_tag : option string
}.
Record GetResult := { gr_meta : ObjectMeta; gr_stream : list (bytes + os_error) }.

(** [PutMode]; [UpdateVersion]'s second field is never set by the code. *)
Inductive PutMode := PutOverwrite | PutCreate | PutUpdate (e_tag : option string).

Inductive objectE : Type → Type :=
| OGet (path : string) : objectE (GetResult + os_error)
| OHead (path : string) : objectE (ObjectMeta + os_error)
| ODelete (path : string) : objectE (unit + os_error)
| OList (prefix : string) : objectE (list (ObjectMeta + os_error))
| OPutOpts (path : string) (payload : bytes) (mode : PutMode) : objectE (unit + os_error)
| OClock : objectE Z.

Class ObjectCrate := {
  (** [Path::from] and [Path::to_string]. *)
  path_from : string → string;
  (** [GetResult::bytes]. *)
  result_bytes : GetResult → bytes + os_error
}.

(** ** [ObjectArchiveStore] *)

Record ObjectArchiveStore := { oa_prefix : string }.

Section ops.
Context `{ObjectCrate} (self : ObjectArchiveStore).

(** [ObjectArchiveStore::key] *)
Definition object_path (key : string) : string :=
  if bool_decide (oa_prefix self = "") then path_from key
  else path_from (oa_prefix self +:+ "/" +:+ key).

(** [?] on an answer of the crate. *)
Definition os_lift {A} (r : A + os_error) : result A :=
  match r with inl a => Ok a | inr e => Err (os_into e) end.

(** [collect_object_stream_bounded]: its loop, and the checks around it. *)
Fixpoint collect_object_chunks (maximum : N) (acc : bytes) (stream : list (bytes + os_error)) : result bytes :=
  match stream with
  | [] => Ok acc
  | chunk :: stream =>
      let? chunk := os_lift chunk in
      let? next := ok_or (checked_add usize_max (len acc) (len chunk)) "object stream length overflow" in
      if (maximum <? next)%N then bail "object stream exceeds bounded GET limit"
      else collect_object_chunks maximum (acc ++ chunk) stream
  end.
Definition collect_object_stream_bounded (r : GetResult) (maximum : N) : result bytes :=
  let advertised := om_size (gr_meta r) in
  if (maximum <? advertised)%N then bail "object metadata length exceeds bounded GET limit"
  else
    let? b := collect_object_chunks maximum [] (gr_stream r) in
    if negb (len b =? advertised)%N then bail "provider metadata/response length mismatch" else Ok b.

(** The loop of [list]. *)
Fixpoint object_list_loop (root prefix : string) (out : list Listed) (stream : list (ObjectMeta + os_error))
    : result (list Listed) :=
  match stream with
  | [] => Ok out
  | meta :: stream =>
      let? meta := os_lift meta in
      let key := om_location meta in
      let key := default key (strip_prefix root key) in
      let out := if String.prefix prefix key
                 then out ++ [{| l_key := key; l_size := om_size meta; l_modified := om_last_modified meta |}]
                 else out in
      object_list_loop root prefix out stream
  end.
Definition object_list (prefix : string) : prog objectE (result (list Listed)) :=
  let root := if bool_decide (oa_prefix self = "") then "" else oa_prefix self +:+ "/" in
  let* stream := request (OList (object_path prefix)) in
  Ret (object_list_loop root prefix [] stream).

Definition object_modified (key : string) : prog objectE (result (option Z)) :=
  let* r := request (OHead (object_path key)) in
  Ret match r with
      | inl meta => Ok (Some (om_last_modified meta))
      | inr (OsNotFound _) => Ok None
      | inr error => Err (os_into error)
      end.

Definition object_delete (key : string) : prog objectE (result unit) :=
  let* r := request (ODelete (object_path key)) in
  Ret match r with
      | inl _ | inr (OsNotFound _) => Ok tt
      | inr error => Err (os_into error)
      end.

Definition object_get (key : string) : prog objectE (result bytes) :=
  let* r := request (OGet (object_path key)) in
  Ret (let? r := os_lift r in os_lift (result_bytes r)).

Definition object_get_bounded (key : string) (maximum : N) : prog objectE (result bytes) :=
  let* r := request (OGet (object_path key)) in
  Ret (let? r := os_lift r in collect_object_stream_bounded r maximum).

(** [put_immutable] *)
Definition object_put_immutable (key : string) (b : bytes) : prog objectE (result unit) :=
  let path := object_path key in
  let* r := request (OPutOpts path b PutCreate) in
  match r with
  | inl _ => Ret (Ok tt)
  | inr (OsAlreadyExists _) =>
      let* found := request (OGet path) in
      let!? found := os_lift found in
      let modified := om_last_modified (gr_meta found) in
      let!? existing := collect_object_stream_bounded found (len b) in
      if bool_decide (existing ≠ b) then Ret (bail ("immutable object collision at " +:+ key))
      else
        let* now := request OClock in
        if stale now modified then
          let* r := request (OPutOpts path b PutOverwrite) in
          Ret (let? _ := os_lift r in Ok tt)
        else Ret (Ok tt)
  | inr error => Ret (Err (os_into error))
  end.

(** [read_mutable], [read_mutable_bounded]: [fetch] reads the body. *)
Definition object_versioned (r : GetResult) (fetch : GetResult → result bytes) : result (option VersionedBytes) :=
  let? version := ok_or (om_e_tag (gr_meta r)) "provider returned no ETag for mutable object" in
  let? b := fetch r in
  Ok (Some {| vb_bytes := b; vb_version := version |}).
Definition object_read_mutable (key : string) : prog objectE (result (option VersionedBytes)) :=
  let* r := request (OGet (object_path key)) in
  Ret match r with
      | inl r => object_versioned r (λ r, os_lift (result_bytes r))
      | inr (OsNotFound _) => Ok None
      | inr error => Err (os_into error)
      end.
Definition object_read_mutable_bounded (key : string) (maximum : N) : prog objectE (result (option VersionedBytes)) :=
  let* r := request (OGet (object_path key)) in
  Ret match r with
      | inl r => object_versioned r (λ r, collect_object_stream_bounded r maximum)
      | inr (OsNotFound _) => Ok None
      | inr error => Err (os_into error)
      end.

(** [compare_and_swap] *)
Definition object_compare_and_swap (key : string) (expected : option VersionedBytes) (b : bytes) : prog objectE (result unit) :=
  let mode := match expected with
              | None => PutCreate
              | Some expected => PutUpdate (Some (vb_version expected))
              end in
  let* r := request (OPutOpts (object_path key) b mode) in
  Ret (let? _ := with_context "conditional head update failed" (os_lift r) in Ok tt).

(** [impl ArchiveStore for ObjectArchiveStore], and the clock. *)
Definition object_impl : ∀ X, storeE X → prog objectE X :=
  λ X e,
    match e in storeE X return prog objectE X with
    | SList prefix => object_list prefix
    | SDelete key => object_delete key
    | SModified key => object_modified key
    | SGet key => object_get key
    | SGetBounded key maximum => object_get_bounded key maximum
    | SPutImmutable key b => object_put_immutable key b
    | SReadMutable key => object_read_mutable key
    | SReadMutableBounded key maximum => object_read_mutable_bounded key maximum
    | SCompareAndSwap key expected b => object_compare_and_swap key expected b
    | Now => request OClock
    end.

End ops.
