(* ===== verification/ObjectStoreFacts.v ===== *)
(** * The object-store back end implements the store

    [object_step] is a provider with the documented semantics of conditional
    writes: [Create] writes only a new object, [Update] only over the object with
    that entity tag; any call may fail, and a failed write may have happened.  Over
    such a provider the back end implements [store_spec], alone and under
    concurrent clients. *)

From stdpp Require Import pretty relations.
From S2P Require Import Prelude Bytes Text Externals Hash RelyGuarantee Store StoreContract ObjectStore.
From Stdlib Require Import Lia ZArith Strings.Ascii.

(** ** Keys *)

(** The keys of the program: nonempty parts of letters, digits, [-], [_] and [.],
    none of them a dot directory. *)
Definition key_char (c : ascii) : bool :=
  let n := Ascii.N_of_ascii c in
  ((48 <=? n)%N && (n <=? 57)%N) || ((65 <=? n)%N && (n <=? 90)%N) || ((97 <=? n)%N && (n <=? 122)%N)
  || (n =? 45)%N || (n =? 46)%N || (n =? 95)%N.
Definition good_part (part : string) : bool :=
  negb (bool_decide (part = "")) && negb (bool_decide (part = ".")) && negb (bool_decide (part = ".."))
  && forallb key_char (String.list_ascii_of_string part).
Definition good_key (key : string) : bool := forallb good_part (split_on "/" key).

Lemma good_key_app a b : good_key (a +:+ String "/" b) = good_key a && good_key b.
Proof. unfold good_key. by rewrite split_on_app, forallb_app. Qed.

(** ** The crate *)

(** The body of a stream without errors. *)
Fixpoint delivered (stream : list (bytes + os_error)) : option bytes :=
  match stream with
  | [] => Some []
  | inl chunk :: stream => app chunk <$> delivered stream
  | inr _ :: _ => None
  end.

Class ObjectCrateLaws `{ObjectCrate} : Prop := {
  (** A path keeps plain segments and drops empty ones. *)
  path_from_key key : good_key key = true → path_from key = key;
  path_from_slash key : good_key key = true → path_from (key +:+ "/") = key;
  path_from_empty : path_from "" = "";
  (** [bytes] collects the stream. *)
  result_bytes_delivered r b : result_bytes r = inl b → delivered (gr_stream r) = Some b
}.

(** ** The provider *)

Record ObjectEntry := { oe_bytes : bytes; oe_e_tag : option string; oe_modified : Z }.
Abbreviation ObjState := (gmap string ObjectEntry).

Definition meta_of (path : string) (o : ObjectEntry) : ObjectMeta :=
  {| om_location := path; om_last_modified := oe_modified o; om_size := len (oe_bytes o); om_e_tag := oe_e_tag o |}.

(** The objects under a prefix, by whole segments. *)
Definition under (prefix path : string) : Prop := prefix = "" ∨ ∃ rest, path = prefix +:+ String "/" rest.

Definition permitted (mode : PutMode) (current : option ObjectEntry) : Prop :=
  match mode with
  | PutOverwrite => True
  | PutCreate => current = None
  | PutUpdate tag => ∃ o, current = Some o ∧ oe_e_tag o = tag
  end.
Definition object_written (path : string) (b : bytes) (mode : PutMode) (s s' : ObjState) : Prop :=
  permitted mode (s !! path) ∧ ∃ tag t, s' = <[path := {| oe_bytes := b; oe_e_tag := tag; oe_modified := t |}]> s.

Definition object_step X (e : objectE X) : ObjState → X → ObjState → Prop :=
  match e in objectE X return ObjState → X → ObjState → Prop with
  | OGet path => λ s x s', s' = s ∧
      match x with
      | inl r => ∃ o, s !! path = Some o ∧ gr_meta r = meta_of path o ∧
                      ∀ b, delivered (gr_stream r) = Some b → b = oe_bytes o
      | inr (OsNotFound _) => s !! path = None
      | inr _ => True
      end
  | OHead path => λ s x s', s' = s ∧
      match x with
      | inl meta => ∃ o, s !! path = Some o ∧ meta = meta_of path o
      | inr (OsNotFound _) => s !! path = None
      | inr _ => True
      end
  | ODelete path => λ s x s',
      match x with
      | inl _ => s' = delete path s
      | inr (OsNotFound _) => s !! path = None ∧ s' = s
      | inr _ => s' = s ∨ s' = delete path s
      end
  | OList prefix => λ s x s', s' = s ∧
      (* every object under the prefix once, unless the listing breaks *)
      (Forall (λ r, ∃ meta : ObjectMeta, r = inl meta) x →
       NoDup (omap (λ r, match r with inl m => Some (om_location m) | inr _ => None end) x) ∧
       ∀ meta, inl meta ∈ x ↔ ∃ path o, s !! path = Some o ∧ meta = meta_of path o ∧ under prefix path)
  | OPutOpts path b mode => λ s x s',
      match x with
      | inl _ => object_written path b mode s s'
      | inr (OsOther _) => s' = s ∨ object_written path b mode s s'
      | inr _ => s' = s
      end
  | OClock => λ s _ s', s' = s
  end.

(** ** Bounded reads *)

(** Whatever the provider sends, a bounded read returns the whole stream, no
    longer than the bound and exactly as long as advertised, or fails. *)
Lemma collect_object_chunks_ok maximum acc stream b :
  (len acc <= maximum)%N → collect_object_chunks maximum acc stream = Ok b →
  (len b <= maximum)%N ∧ ∃ body, delivered stream = Some body ∧ b = acc ++ body.
Proof.
  revert acc; induction stream as [|[chunk|e] stream IH]; intros acc Ha; simpl; [|destruct (checked_add _ _ _) eqn:Ec|done].
  - intros [= <-]. split; [done|]. exists []. by rewrite app_nil_r.
  - simpl. case_match eqn:Hm; [done|]. intros Hb. bool_prop. unfold checked_add in Ec. case_match; [|done]. simplify_eq.
    destruct (IH (acc ++ chunk)) as (Hl & body & Hd & ->); [|done|].
    { unfold len in *. rewrite length_app. lia. }
    split; [done|]. exists (chunk ++ body). rewrite Hd. by rewrite app_assoc.
  - done.
Qed.

(** The loop fails only on an error of the stream or on a body that is too long. *)
Lemma collect_object_chunks_err maximum acc stream e body :
  collect_object_chunks maximum acc stream = Err e → delivered stream = Some body →
  (maximum < len (acc ++ body))%N ∨ (usize_max < len (acc ++ body))%N.
Proof.
  revert acc body; induction stream as [|[chunk|e'] stream IH]; intros acc body; simpl; [done| |done].
  intros Hc Hd. destruct (delivered stream) as [rest|] eqn:Hr; [|done]. simplify_eq/=.
  assert (len (acc ++ chunk) <= len (acc ++ chunk ++ rest))%N as Hle by (unfold len; rewrite !length_app; lia).
  assert (len (acc ++ chunk) = len acc + len chunk)%N as Hlen by (unfold len; rewrite length_app; lia).
  unfold checked_add in Hc. destruct (_ <=? _)%N eqn:Hu; bool_prop; simpl in Hc; [|right; lia].
  destruct (maximum <? _)%N eqn:Hm; bool_prop; [left; lia|]. rewrite app_assoc. by apply IH.
Qed.

(** Once the chunks so far pass the bound, the rest of the stream is not looked at. *)
Lemma collect_object_chunks_stop maximum acc pre body :
  (len acc <= maximum)%N → delivered pre = Some body → (maximum < len (acc ++ body))%N →
  ∃ m, ((len (acc ++ body) <= usize_max)%N → m = "object stream exceeds bounded GET limit") ∧
    ∀ rest, collect_object_chunks maximum acc (pre ++ rest) = bail m.
Proof.
  revert acc body; induction pre as [|[chunk|e'] pre IH]; intros acc body Ha; simpl; [| |done].
  { intros [= <-]. rewrite app_nil_r. lia. }
  intros Hd Hm. destruct (delivered pre) as [later|] eqn:Hr; [|done]. simplify_eq/=.
  assert (len (acc ++ chunk) <= len (acc ++ chunk ++ later))%N as Hle by (unfold len; rewrite !length_app; lia).
  assert (len (acc ++ chunk) = len acc + len chunk)%N as Hlen by (unfold len; rewrite length_app; lia).
  unfold checked_add. destruct (_ <=? usize_max)%N eqn:Hu; bool_prop; simpl.
  2:{ exists "object stream length overflow". split; [lia|done]. }
  destruct (maximum <? _)%N eqn:Hx; bool_prop; [by eexists|].
  rewrite app_assoc in Hm |- *. apply IH; [lia|done..].
Qed.

Lemma collect_stream_ok r maximum b :
  collect_object_stream_bounded r maximum = Ok b →
  delivered (gr_stream r) = Some b ∧ (len b <= maximum)%N ∧ len b = om_size (gr_meta r).
Proof.
  unfold collect_object_stream_bounded. case_match eqn:Hm; [done|]. intros H.
  step_ok H. destruct (negb _) eqn:Hn; [done|]. simplify_eq. bool_prop.
  apply collect_object_chunks_ok in E as (Hl & body & Hd & ->); [done|unfold len; simpl; lia].
Qed.

(** ** The objects of a store with a prefix *)

Section facts.
Context `{ObjectCrate} {OL : ObjectCrateLaws} (self : ObjectArchiveStore).
Context (Hprefix : oa_prefix self = "" ∨ good_key (oa_prefix self) = true).

Definition object_contents (s : ObjState) : contents :=
  λ k, if good_key k then (λ o, (oe_bytes o, oe_e_tag o)) <$> s !! object_path self k else None.

Lemma object_path_good k :
  good_key k = true →
  object_path self k = if bool_decide (oa_prefix self = "") then k else oa_prefix self +:+ String "/" k.
Proof.
  intros Hk. unfold object_path. case_bool_decide as E; [by apply path_from_key|].
  change ("/" +:+ k) with (String "/" k). apply path_from_key. rewrite good_key_app, Hk.
  destruct Hprefix as [|Hp]; [done|]. by rewrite Hp.
Qed.

Lemma object_path_inj k k' :
  good_key k = true → good_key k' = true → object_path self k = object_path self k' → k = k'.
Proof.
  intros Hk Hk'. rewrite !object_path_good by done. case_bool_decide; [done|]. intros E.
  apply (f_equal (strip_prefix (oa_prefix self +:+ "/"))) in E.
  assert (∀ p x, p +:+ String "/" x = (p +:+ "/") +:+ x) as Happ.
  { clear. induction p as [|c p IH]; intros x; [done|].
    change (String c p +:+ String "/" x) with (String c (p +:+ String "/" x)). by rewrite IH. }
  rewrite (Happ _ k), (Happ _ k'), !strip_prefix_app in E. by simplify_eq.
Qed.

Lemma contents_at k s :
  good_key k = true → object_contents s k = (λ o, (oe_bytes o, oe_e_tag o)) <$> s !! object_path self k.
Proof. intros Hk. unfold object_contents. by rewrite Hk. Qed.

(** A change at the path of a key is a change of that key. *)
Lemma contents_changed k s s' :
  good_key k = true → (∀ p, p ≠ object_path self k → s' !! p = s !! p) →
  updated k ((λ o, (oe_bytes o, oe_e_tag o)) <$> s' !! object_path self k) (object_contents s) (object_contents s').
Proof.
  intros Hk Hs. split; [by apply contents_at|]. intros k' Hne. unfold object_contents.
  destruct (good_key k') eqn:Hk'; [|done]. rewrite Hs; [done|]. intros E. apply Hne.
  by apply object_path_inj.
Qed.

Lemma contents_insert k b tag t s :
  good_key k = true →
  updated k (Some (b, tag)) (object_contents s)
    (object_contents (<[object_path self k := {| oe_bytes := b; oe_e_tag := tag; oe_modified := t |}]> s)).
Proof.
  intros Hk. pose proof (contents_changed k s (<[object_path self k := {| oe_bytes := b; oe_e_tag := tag; oe_modified := t |}]> s) Hk) as Hc.
  rewrite lookup_insert_eq in Hc. apply Hc. intros p Hp. by rewrite lookup_insert_ne.
Qed.
Lemma contents_delete k s :
  good_key k = true → updated k None (object_contents s) (object_contents (delete (object_path self k) s)).
Proof.
  intros Hk. pose proof (contents_changed k s (delete (object_path self k) s) Hk) as Hc.
  rewrite lookup_delete_eq in Hc. apply Hc. intros p Hp. by rewrite lookup_delete_ne.
Qed.

(** ** Requests *)

(** The requests to this back end, with keys it can store: [create] and [swap] say
    which immutable and which mutable objects are written. *)
Definition object_allowed (create swap : string → bytes → Prop) X (e : storeE X) : Prop :=
  match e with
  | SList _ => False
  | SDelete k | SModified k | SGet k | SGetBounded k _ | SReadMutable k | SReadMutableBounded k _ => good_key k = true
  | SPutImmutable k b => good_key k = true ∧ create k b
  | SCompareAndSwap k _ b => good_key k = true ∧ swap k b
  | Now => True
  end.

Section implements.
Context (rely guar : ObjState → ObjState → Prop) `{!PreOrder rely} (inv : ObjState → Prop).
Context (Hrely : ∀ s s', rely s s' → inv s → inv s') (Hguar : ∀ s s', guar s s' → inv s → inv s').

Context (create swap : string → bytes → Prop).
Context (Hsame : ∀ s, guar s s) (Hdelete : ∀ s k, good_key k = true → guar s (delete (object_path self k) s))
  (Hwrite : ∀ s k o, good_key k = true → create k (oe_bytes o) ∨ swap k (oe_bytes o) →
     guar s (<[object_path self k := o]> s)).
(** Nobody stores other bytes at the key of an immutable object. *)
Context (Hstays : ∀ s s' k b o o', create k b → good_key k = true → inv s → rely s s' →
  s !! object_path self k = Some o → oe_bytes o = b → s' !! object_path self k = Some o' → oe_bytes o' = b).

Lemma one_request X (e : objectE X) Y (r : storeE Y) (f : X → Y) s :
  inv s →
  (∀ s1 x s2, inv s1 → object_step X e s1 x s2 →
     guar s1 s2 ∧ store_spec Y r (object_contents s1) (f x) (object_contents s2)) →
  rg object_step rely guar (λ tr x _, linearized object_contents r x tr) (Vis e (λ x, Ret (f x))) [] s.
Proof.
  intros Hi H1 s1 x s2 Hs Hx. destruct (H1 s1 x s2) as [Hg Hr]; [by eapply Hrely|done|]. split; [done|].
  intros s' _. by exists [], s1, s2, [].
Qed.

(** A read of the body at a key. *)
Lemma object_body_read k s r b :
  good_key k = true → (∃ o, s !! object_path self k = Some o ∧ gr_meta r = meta_of (object_path self k) o ∧
    ∀ b, delivered (gr_stream r) = Some b → b = oe_bytes o) →
  delivered (gr_stream r) = Some b → object_contents s k = Some (b, om_e_tag (gr_meta r)).
Proof.
  intros Hk (o & Ho & Hm & Hb) Hd. rewrite contents_at, Ho by done. simpl.
  rewrite Hm, (Hb _ Hd). done.
Qed.

Lemma versioned_read k s r fetch v :
  good_key k = true → (∀ r b, fetch r = Ok b → delivered (gr_stream r) = Some b) →
  (∃ o, s !! object_path self k = Some o ∧ gr_meta r = meta_of (object_path self k) o ∧
    ∀ b, delivered (gr_stream r) = Some b → b = oe_bytes o) →
  object_versioned r fetch = Ok v →
  ∃ x, v = Some x ∧ fetch r = Ok (vb_bytes x) ∧ object_contents s k = Some (vb_bytes x, Some (vb_version x)).
Proof.
  intros Hk Hf Ho. unfold object_versioned, ok_or. destruct (om_e_tag (gr_meta r)) as [tag|] eqn:Et; [|done]. intros Hv.
  step_ok Hv. simplify_eq. eexists. split_and!; [done|done|]. simpl. rewrite <-Et. apply object_body_read; auto.
Qed.

Lemma result_lift_delivered r b : os_lift (result_bytes r) = Ok b → delivered (gr_stream r) = Some b.
Proof. destruct (result_bytes r) eqn:E; simpl; [|done]. intros [= ->]. by apply result_bytes_delivered. Qed.

Lemma written_spec k b mode s s' :
  good_key k = true → create k b ∨ swap k b → object_written (object_path self k) b mode s s' →
  guar s s' ∧ permitted mode (s !! object_path self k) ∧ ∃ w, updated k (Some (b, w)) (object_contents s) (object_contents s').
Proof.
  intros Hk Hb (Hp & tag & t & ->). split; [by apply Hwrite|]. split; [done|]. eexists. by apply contents_insert.
Qed.
Lemma create_spec k b s s' :
  good_key k = true → create k b ∨ swap k b → object_written (object_path self k) b PutCreate s s' →
  guar s s' ∧ object_contents s k = None ∧ ∃ w, updated k (Some (b, w)) (object_contents s) (object_contents s').
Proof.
  intros Hk Hb Hw. destruct (written_spec k b PutCreate s s' Hk Hb Hw) as (Hg & Hp & Hu). split_and!; [done| |done].
  simpl in Hp. by rewrite contents_at, Hp.
Qed.

(** What a [Create] that was or may have been carried out did. *)
Lemma put_created k b s s' :
  good_key k = true → create k b → object_written (object_path self k) b PutCreate s s' →
  guar s s' ∧ put_written k b (object_contents s) (object_contents s').
Proof.
  intros Hk Hb Hw. apply create_spec in Hw as (Hg & Hn & Hu); [|auto..]. split; [done|]. split; [|done]. congruence.
Qed.
(** Writing the bytes again that were found at the key. *)
Lemma put_refreshed k b s0 o s s' :
  good_key k = true → create k b → inv s0 → rely s0 s → s0 !! object_path self k = Some o → oe_bytes o = b →
  object_written (object_path self k) b PutOverwrite s s' →
  guar s s' ∧ put_written k b (object_contents s) (object_contents s').
Proof.
  intros Hk Hb Hi Hs Ho Hob Hw. apply written_spec in Hw as (Hg & _ & Hu); [|auto..]. split; [done|]. split; [|done].
  rewrite contents_at by done. intros b' w. destruct (s !! _) as [o'|] eqn:Eo; [|done]. intros [= <- _].
  by eapply (Hstays s0 s).
Qed.

(** The last request of a put: it is the step of the specification. *)
Lemma put_last k b mode (f : unit + os_error → result unit) tr s :
  (∀ s1 s2, rely s s1 → object_written (object_path self k) b mode s1 s2 →
     guar s1 s2 ∧ put_written k b (object_contents s1) (object_contents s2)) →
  (∀ x, f (inl x) = Ok tt) → (∀ e, ∃ e', f (inr e) = Err e') →
  Forall (λ t, object_contents t.2 ≡ object_contents t.1) tr →
  rg object_step rely guar (λ tr x _, linearized object_contents (SPutImmutable k b) x tr)
    (Vis (OPutOpts (object_path self k) b mode) (λ x, Ret (f x))) tr s.
Proof.
  intros Hw Hok Herr Hq s1 x s2 Hs Hx. specialize (Hw s1 s2 Hs).
  assert (guar s1 s2 ∧ store_spec _ (SPutImmutable k b) (object_contents s1) (f x) (object_contents s2)) as [Hg Hspec].
  { destruct x as [[]|e]; simpl in Hx.
    - rewrite Hok. destruct (Hw Hx). split; [done|]. by right.
    - destruct (Herr e) as [e' ->]. destruct e; subst; try (split; [done|by left]).
      destruct Hx as [->|Hx]; [split; [done|by left]|]. destruct (Hw Hx). split; [done|]. by right. }
  split; [done|]. intros s' _. by apply linearized_last.
Qed.

Lemma object_put_lin k b s :
  good_key k = true → create k b → inv s →
  rg object_step rely guar (λ tr x _, linearized object_contents (SPutImmutable k b) x tr)
    (object_put_immutable self k b) [] s.
Proof.
  intros Hk Hb Hi. unfold object_put_immutable.
  (* the first request decides alone unless the object exists *)
  assert (∀ s1 s2, rely s s1 → object_written (object_path self k) b PutCreate s1 s2 →
     guar s1 s2 ∧ put_written k b (object_contents s1) (object_contents s2)) as Hnew.
  { intros s1 s2 _. by apply put_created. }
  intros s1 x s1' Hs1 Hx.
  pose proof (put_last k b PutCreate (λ x, match x with inl _ => Ok tt | inr e => Err (os_into e) end) [] s
    Hnew ltac:(done) ltac:(eauto) ltac:(done) s1 x s1' Hs1 Hx) as Hfirst.
  destruct x as [[]|[m|m|m|m]]; try exact Hfirst. simpl in Hx. subst s1'. split; [done|].
  intros s2 x s2' Hs2 [-> Hx2]. split; [done|]. assert (inv s2) as Hi2 by eauto.
  assert (∀ e s', rg object_step rely guar (λ tr x _, linearized object_contents (SPutImmutable k b) x tr)
    (Ret (Err e)) [(s1, s1); (s2, s2)] s') as Herr.
  { intros e s' s'' _. apply (linearized_quiet _ _ _ _ s1 s1); [repeat constructor|set_solver|by left]. }
  destruct x as [found|e]; simpl; [|apply Herr].
  destruct (collect_object_stream_bounded found (len b)) as [existing|e] eqn:Ec; [|apply Herr].
  case_bool_decide as Hne; [apply Herr|]. subst existing. apply collect_stream_ok in Ec as (Hd & _ & _).
  intros s3 now s3' Hs3 ->. split; [done|]. destruct (stale now _).
  - apply put_last; [|by intros []|by intros e; eexists|repeat constructor].
    destruct Hx2 as (o & Ho & _ & Hob). intros s4 s4' Hs4. apply put_refreshed with (s0 := s2) (o := o); auto.
    + by etrans.
    + symmetry. by apply Hob.
  - intros s' _. apply (linearized_quiet _ _ _ _ s2 s2); [repeat constructor|set_solver|].
    left. split; [|done]. eexists. by eapply object_body_read.
Qed.

Lemma read_spec (A : Type) (m : contents) (P : A → Prop) (r : result A) :
  (∀ a, r = Ok a → P a) → m ≡ m ∧ match r with Ok a => P a | Err _ => True end.
Proof. intros HP. split; [done|]. destruct r; auto. Qed.

(** Every other request is one request to the provider. *)
Lemma object_request_lin X (e : storeE X) s :
  object_allowed create swap X e → inv s →
  rg object_step rely guar (λ tr x _, linearized object_contents e x tr) (object_impl self X e) [] s.
Proof.
  intros Ha Hi.
  destruct e as [prefix|k|k|k|k maximum|k b|k|k maximum|k expected b|]; simpl in Ha; [done|..].
  5: { destruct Ha. by apply object_put_lin. }
  all: simpl object_impl; apply one_request; [done|]; intros s1 x s2 Hi1 Hx; simpl in Hx.
  - destruct x as [[]|[m|m|m|m]]; simpl.
    + subst. split; [by apply Hdelete|]. by apply contents_delete.
    + destruct Hx as [Hn ->]. split; [done|]. split; [by rewrite contents_at, Hn|done].
    + destruct Hx as [->| ->]; (split; [eauto|]); [by left|right; by apply contents_delete].
    + destruct Hx as [->| ->]; (split; [eauto|]); [by left|right; by apply contents_delete].
    + destruct Hx as [->| ->]; (split; [eauto|]); [by left|right; by apply contents_delete].
  - destruct Hx as [-> Hx]. split; [done|]. split; [done|].
    destruct x as [meta|[m|m|m|m]]; try done; rewrite contents_at, fmap_is_Some by done.
    + destruct Hx as (o & Ho & _). rewrite Ho. split; eauto.
    + rewrite Hx. split; intros [? ?]; done.
  - destruct Hx as [-> Hx]. split; [done|]. apply read_spec. intros b Hb. destruct x as [r|]; [|done]. simpl in Hb.
    eexists. eapply object_body_read; [done..|]. by apply result_lift_delivered.
  - destruct Hx as [-> Hx]. split; [done|]. apply read_spec. intros b Hb. destruct x as [r|]; [|done]. simpl in Hb.
    apply collect_stream_ok in Hb as (Hd & Hl & _). split; [|done]. eexists. by eapply object_body_read.
  - destruct Hx as [-> Hx]. split; [done|]. apply read_spec. intros v Hv. destruct x as [r|[m|m|m|m]]; try done.
    + eapply versioned_read in Hv as (v' & -> & _ & Hc); eauto using result_lift_delivered.
    + simplify_eq. by rewrite contents_at, Hx.
  - destruct Hx as [-> Hx]. split; [done|]. apply read_spec. intros v Hv. destruct x as [r|[m|m|m|m]]; try done.
    + eapply versioned_read in Hv as (v' & -> & Hf & Hc); [|done| |done].
      * split; [done|]. intros y [= <-]. by apply collect_stream_ok in Hf as (_ & Hl & _).
      * intros r' b Hb. by apply collect_stream_ok in Hb as (Hd & _).
    + simplify_eq. rewrite contents_at, Hx by done. naive_solver.
  - destruct Ha as [Hk Hb].
    assert (∀ mode, mode = (match expected with None => PutCreate | Some v => PutUpdate (Some (vb_version v)) end) →
      object_written (object_path self k) b mode s1 s2 →
      guar s1 s2 ∧ swap_written k expected b (object_contents s1) (object_contents s2)) as Hw.
    { intros mode -> Hw. apply written_spec in Hw as (Hg & Hp & Hu); [|auto..]. split; [done|]. split; [|done].
      rewrite contents_at by done. destruct expected as [v|]; simpl in Hp; [|by rewrite Hp].
      destruct Hp as (o & -> & Ht). simpl. done. }
    destruct x as [[]|[m|m|m|m]]; simpl; try (subst; split; [done|by left]).
    + destruct (Hw _ eq_refl Hx). done.
    + destruct Hx as [->|Hx]; [split; [done|by left]|]. destruct (Hw _ eq_refl Hx). split; [done|by right].
  - by subst.
Qed.

Lemma object_implements :
  StoreImplements object_step rely guar inv object_contents (object_allowed create swap) (object_impl self).
Proof. split; [done|done|done|]. intros X e s. apply object_request_lin. Qed.

End implements.
End facts.
