(* ===== verification/ObjectStoreTheorems.v ===== *)
(** * The object-store back end: theorems

    A client that runs alone observes the specification, listings included
    ([object_client_refines]); concurrent clients are linearizable
    ([object_clients_linearize]); a bounded read never returns more than it was
    asked for, whatever the provider sends, and stops at the chunk that passes the
    bound ([object_bounded_read]).  A concrete
    provider, whose entity tags follow the content, shows that the hypotheses hold. *)

From stdpp Require Import pretty relations.
From S2P Require Import Prelude Bytes Text Externals Hash RelyGuarantee Store StoreContract ObjectStore ObjectStoreFacts.
From Stdlib Require Import Lia ZArith Strings.Ascii.

Section theorems.
Context `{ObjectCrate} {OL : ObjectCrateLaws} (self : ObjectArchiveStore).
Context (Hprefix : oa_prefix self = "" ∨ good_key (oa_prefix self) = true).

(** ** Alone *)

(** Under the prefix of the store there are only keys of the program. *)
Definition tidy (s : ObjState) : Prop :=
  ∀ path o, s !! path = Some o → under (oa_prefix self) path → ∃ k, good_key k = true ∧ path = object_path self k.

(** The prefixes that can be listed: all keys, or those of a directory. *)
Definition list_prefix (prefix : string) : Prop :=
  prefix = "" ∨ ∃ q, good_key q = true ∧ prefix = q +:+ String "/" "".

Definition object_allowed_alone X (e : storeE X) : Prop :=
  match e with
  | SList prefix => list_prefix prefix
  | e => object_allowed (λ _ _, True) (λ _ _, True) _ e
  end.

Lemma tidy_write s k o : good_key k = true → tidy s → tidy (<[object_path self k := o]> s).
Proof.
  intros Hk Ht path o' Ho Hu. destruct (decide (path = object_path self k)) as [->|Hne]; [by exists k|].
  rewrite lookup_insert_ne in Ho by done. by eapply Ht.
Qed.
Lemma tidy_delete s k : tidy s → tidy (delete (object_path self k) s).
Proof. intros Ht path o Ho Hu. apply lookup_delete_Some in Ho as [_ Ho]. by eapply Ht. Qed.

(** The answers the loop of [list] collects. *)
Definition listed_of (root prefix : string) (r : ObjectMeta + os_error) : option Listed :=
  match r with
  | inl meta =>
      let key := default (om_location meta) (strip_prefix root (om_location meta)) in
      if String.prefix prefix key
      then Some {| l_key := key; l_size := om_size meta; l_modified := om_last_modified meta |} else None
  | inr _ => None
  end.
Lemma object_list_loop_ok root prefix out stream l :
  object_list_loop root prefix out stream = Ok l →
  Forall (λ r, ∃ meta : ObjectMeta, r = inl meta) stream ∧ l = out ++ omap (listed_of root prefix) stream.
Proof.
  revert out; induction stream as [|[meta|e] stream IH]; intros out; simpl; [|intros Hl|done].
  - intros [= <-]. by rewrite app_nil_r.
  - apply IH in Hl as [Hf ->]. split; [by constructor; [eexists|]|].
    destruct (String.prefix prefix _); simpl; [by rewrite <-app_assoc|done].
Qed.

Definition root_of : string := if bool_decide (oa_prefix self = "") then "" else oa_prefix self +:+ "/".

Lemma strip_root k : good_key k = true → strip_prefix root_of (object_path self k) = Some k.
Proof.
  intros Hk. rewrite object_path_good by done. unfold root_of. case_bool_decide as E.
  - by destruct k.
  - rewrite (string_app_slash _ k). apply strip_prefix_app.
Qed.

(** A directory's prefix, inside the bucket. *)
Lemma list_path prefix : list_prefix prefix →
  (prefix = "" ∧ object_path self prefix = oa_prefix self) ∨
  ∃ q, good_key q = true ∧ prefix = q +:+ "/" ∧ object_path self prefix = object_path self q.
Proof.
  intros [->|(q & Hq & ->)].
  - left. split; [done|]. unfold object_path. case_bool_decide as E; [by rewrite path_from_empty|].
    change ("/" +:+ "") with "/". destruct Hprefix; [done|]. by apply path_from_slash.
  - right. exists q. split_and!; [done..|]. unfold object_path at 1. rewrite object_path_good by done.
    case_bool_decide as E; [by apply path_from_slash|].
    replace (oa_prefix self +:+ "/" +:+ (q +:+ "/")) with ((oa_prefix self +:+ String "/" q) +:+ "/").
    + apply path_from_slash. rewrite good_key_app, Hq. destruct Hprefix as [|Hp]; [done|]. by rewrite Hp.
    + by rewrite (string_app_slash _ q), !string_app_assoc.
Qed.

(** Listing by segments inside the bucket is listing by the prefix of the key. *)
Lemma under_prefix prefix k :
  list_prefix prefix → good_key k = true →
  (under (object_path self prefix) (object_path self k) ↔ String.prefix prefix k = true).
Proof.
  intros Hl Hk. rewrite prefix_strip. destruct (list_path prefix Hl) as [[-> ->]|(q & Hq & -> & ->)].
  - split; [eauto|]. intros _. unfold under. rewrite object_path_good by done. case_bool_decide; eauto.
  - unfold under. rewrite !object_path_good by done. split.
    + intros [He|(rest & Hr)].
      * exfalso. case_bool_decide as Hp; [by subst|]. by destruct (oa_prefix self).
      * exists rest. rewrite <-string_app_slash. case_bool_decide as Hp; [done|].
        rewrite (string_app_slash _ k), (string_app_slash _ q), !string_app_assoc in Hr.
        by do 2 apply string_app_cancel in Hr.
    + intros (rest & ->). right. exists rest. case_bool_decide as Hp; [by rewrite (string_app_slash q rest)|].
      by rewrite (string_app_slash _ (_ +:+ rest)), (string_app_slash _ rest), (string_app_slash _ q), !string_app_assoc.
Qed.

(** A listed object is an object of the store. *)
Lemma listed_key s prefix path o :
  tidy s → list_prefix prefix → s !! path = Some o → under (object_path self prefix) path →
  ∃ k, good_key k = true ∧ path = object_path self k ∧ String.prefix prefix k = true ∧
    listed_of root_of prefix (inl (meta_of path o)) =
      Some {| l_key := k; l_size := len (oe_bytes o); l_modified := oe_modified o |}.
Proof.
  intros Ht Hl Ho Hu. destruct (Ht path o Ho) as (k & Hk & ->).
  { destruct (list_path prefix Hl) as [[-> E]|(q & Hq & -> & E)]; [by rewrite <-E|].
    rewrite E, object_path_good in Hu by done. unfold under. case_bool_decide as Hp; [by left|right].
    destruct Hu as [Hu|(rest & ->)]; [by destruct (oa_prefix self)|]. eexists.
    by rewrite (string_app_slash _ q), (string_app_slash _ rest), !string_app_assoc. }
  exists k. apply under_prefix in Hu; [|done..]. split_and!; [done..|].
  unfold listed_of, meta_of. cbn [om_location om_size om_last_modified]. rewrite strip_root by done.
  cbn [default from_option]. unfold id. by rewrite Hu.
Qed.

Lemma object_list_spec prefix s stream l :
  tidy s → list_prefix prefix → object_step _ (OList (object_path self prefix)) s stream s →
  object_list_loop root_of prefix [] stream = Ok l → listing prefix (object_contents self s) l.
Proof.
  intros Ht Hl [_ Hstream] Hok. apply object_list_loop_ok in Hok as [Hall ->]. simpl.
  destruct (Hstream Hall) as [Hd Hin].
  assert (∀ x, x ∈ omap (listed_of root_of prefix) stream ↔ ∃ k o, good_key k = true ∧ String.prefix prefix k = true ∧
    s !! object_path self k = Some o ∧ x = {| l_key := k; l_size := len (oe_bytes o); l_modified := oe_modified o |}) as Hx.
  { intros x. rewrite list_elem_of_omap. split.
    - intros (r & Hr & Hm). destruct (proj1 (Forall_forall _ _) Hall r Hr) as [meta ->].
      apply Hin in Hr as (path & o & Ho & -> & Hu).
      destruct (listed_key s prefix path o) as (k & Hk & -> & Hp & E); [done..|]. rewrite E in Hm. simplify_eq. eauto 10.
    - intros (k & o & Hk & Hp & Ho & ->). assert (under (object_path self prefix) (object_path self k)) as Hu by (by apply under_prefix).
      destruct (listed_key s prefix (object_path self k) o) as (k' & Hk' & E & _ & Hm); [done..|].
      apply object_path_inj in E as <-; [|done..]. eexists. split; [|exact Hm]. apply Hin. eauto 10. }
  split.
  - eapply NoDup_omap_key; [|exact Hd]. intros r1 r2 x1 x2 Hr1 Hr2 E1 E2 Ek.
    assert (∀ r x, r ∈ stream → listed_of root_of prefix r = Some x →
      (match r with inl m => Some (om_location m) | inr _ => None end) = Some (object_path self (l_key x))) as Hloc.
    { intros r x Hr Hm. destruct (proj1 (Forall_forall _ _) Hall r Hr) as [meta ->].
      apply Hin in Hr as (path & o & Ho & -> & Hu).
      destruct (listed_key s prefix path o) as (k & Hk & -> & Hp & E); [done..|]. rewrite E in Hm. by simplify_eq. }
    cbv beta. rewrite (Hloc _ _ Hr1 E1), (Hloc _ _ Hr2 E2), Ek. eauto.
  - intros k n. setoid_rewrite Hx. split.
    + intros (x & (k' & o & Hk & Hp & Ho & ->) & <- & <-). split; [done|]. simpl. rewrite contents_at, Ho by done.
      simpl. eauto.
    + intros (Hp & b & w & Hc & ->). unfold object_contents in Hc. destruct (good_key k) eqn:Hk; [|done].
      destruct (s !! object_path self k) as [o|] eqn:Ho; [|done]. simplify_eq/=.
      eexists. split; [by exists k, o|done].
Qed.

Lemma object_implements_alone :
  StoreImplements object_step eq (λ s s', tidy s → tidy s') tidy (object_contents self) object_allowed_alone (object_impl self).
Proof.
  assert (StoreImplements object_step eq (λ s s', tidy s → tidy s') tidy (object_contents self)
    (object_allowed (λ _ _, True) (λ _ _, True)) (object_impl self)) as HI.
  { apply object_implements; try done; try apply _.
    - by intros s s' ->.
    - intros s k _. apply tidy_delete.
    - intros s k o Hk _. by apply tidy_write.
    - intros s s' k b o o' _ _ _ <- Ho Hb Ho'. by simplify_eq. }
  destruct HI as [Hpre Hr Hg Hl]. split; [done..|]. intros X e s Ha Hi.
  destruct e as [prefix| | | | | | | | |]; try by apply Hl. simpl in Ha.
  intros s1 stream s2 <- Hx. pose proof Hx as [-> _]. split; [done|]. intros s' _.
  apply (linearized_last _ _ _ [] s s); [done|]. split; [done|].
  change (if bool_decide (oa_prefix self = "") then "" else oa_prefix self +:+ "/") with root_of.
  destruct (object_list_loop root_of prefix [] stream) as [l|] eqn:El; [|done]. by eapply object_list_spec.
Qed.

(** ** Concurrent clients *)

(** Each immutable key is written with one content only, as content-addressed keys
    are: [designated key] is that content, and [None] for a mutable key. *)
Definition designated_inv (designated : string → option bytes) (s : ObjState) : Prop :=
  ∀ k b o, good_key k = true → designated k = Some b → s !! object_path self k = Some o → oe_bytes o = b.
Definition object_allowed_shared (designated : string → option bytes) : ∀ X, storeE X → Prop :=
  object_allowed (λ k b, designated k = Some b) (λ k _, designated k = None).

Lemma object_implements_shared designated :
  StoreImplements object_step (λ s s', designated_inv designated s → designated_inv designated s')
    (λ s s', designated_inv designated s → designated_inv designated s') (designated_inv designated)
    (object_contents self) (object_allowed_shared designated) (object_impl self).
Proof.
  apply object_implements; try done; [|auto|auto|..].
  - split; [by intros s|]. intros s1 s2 s3 H12 H23 Hi. auto.
  - intros s k Hk Hi k' b o Hk' Hd Ho. apply lookup_delete_Some in Ho as [_ Ho]. by eapply Hi.
  - intros s k o Hk Hb Hi k' b o' Hk' Hd Ho. destruct (decide (k' = k)) as [->|Hne].
    + rewrite lookup_insert_eq in Ho. simplify_eq. destruct Hb as [Hb|Hb]; congruence.
    + rewrite lookup_insert_ne in Ho; [by eapply Hi|]. intros E. by apply object_path_inj in E.
  - intros s s' k b o o' Hb Hk Hi Hs _ _ Ho'. by eapply Hs.
Qed.

(** A client that runs alone on the back end obtains only what the specification
    allows, and leaves the objects the specification says. *)
Lemma object_client_refines {A} (P : A → Prop) (p : prog storeE A) s tr a s' :
  always object_allowed_alone P p → tidy s →
  steps object_step eq (interp (object_impl self) p) s tr (Ret a) s' →
  spec_run p (object_contents self s) a (object_contents self s').
Proof.
  intros Hp Hi Hs. pose proof object_implements_alone as HI.
  pose proof (client_alone P p s [] Hp Hi) as Hrg.
  by destruct (steps_rg_ret _ _ _ _ _ _ _ _ _ Hs Hrg) as [_ [Hr _]].
Qed.

End theorems.

(** ** Bounded reads *)

(** C39: whatever a provider sends, a bounded read returns the whole body, which
    is no longer than the bound and as long as the provider advertised, or fails.  It
    fails on the advertised length alone before it reads the stream; and it fails at
    the chunk that takes the body past the bound: what follows that chunk, an error
    of the transport or any amount of data, does not change the result, so that it
    never holds more than its limit and one chunk. *)
Theorem object_bounded_read r maximum :
  let collect stream := collect_object_stream_bounded {| gr_meta := gr_meta r; gr_stream := stream |} maximum in
  match collect (gr_stream r) with
  | Ok b => delivered (gr_stream r) = Some b ∧ (len b <= maximum)%N ∧ len b = om_size (gr_meta r)
  | Err _ => (maximum < om_size (gr_meta r))%N ∨ ∀ b, delivered (gr_stream r) = Some b →
               (maximum < len b)%N ∨ (usize_max < len b)%N ∨ len b ≠ om_size (gr_meta r)
  end ∧
  ((maximum < om_size (gr_meta r))%N → ∀ stream,
     collect stream = bail "object metadata length exceeds bounded GET limit") ∧
  ((om_size (gr_meta r) <= maximum)%N → ∀ pre body, delivered pre = Some body → (maximum < len body)%N →
     ∃ m, ((len body <= usize_max)%N → m = "object stream exceeds bounded GET limit") ∧
       ∀ rest, collect (pre ++ rest) = bail m).
Proof.
  cbv zeta. unfold collect_object_stream_bounded; simpl. split_and!.
  - destruct (maximum <? _)%N eqn:Hm; bool_prop; [by left|].
    destruct (collect_object_chunks maximum [] (gr_stream r)) as [b|e'] eqn:Ec; simpl.
    + apply collect_object_chunks_ok in Ec as (Hl & body & Hd & ->); [|unfold len; simpl; lia]. simpl in *.
      destruct (negb _) eqn:Hn; bool_prop; [|done]. right. intros b Hb. simplify_eq. auto.
    + right. intros b Hb. eapply collect_object_chunks_err in Hb; [|done]. simpl in Hb. destruct Hb; auto.
  - intros Hm stream. apply N.ltb_lt in Hm. by rewrite Hm.
  - intros Hm pre body Hd Hl. rewrite (proj2 (N.ltb_ge _ _) Hm).
    destruct (collect_object_chunks_stop maximum [] pre body) as (m & Hmsg & Hrest); [unfold len; simpl; lia|done..|].
    exists m. split; [done|]. intros rest. by rewrite Hrest.
Qed.

(** ** A provider *)

Module ObjectExample.

Definition path_of (key : string) : string := join "/" (filter (λ part, part ≠ "") (split_on "/" key)).
Definition body_of (r : GetResult) : bytes + os_error :=
  match delivered (gr_stream r) with Some b => inl b | None => inr (OsOther "stream failed") end.
#[local] Instance toy_crate : ObjectCrate := {| path_from := path_of; result_bytes := body_of |}.

Lemma good_parts key : good_key key = true → filter (λ part, part ≠ "") (split_on "/" key) = split_on "/" key.
Proof.
  unfold good_key. induction (split_on "/" key) as [|part parts IH]; [done|]. simpl. intros [Hp Hk]%andb_true_iff.
  rewrite filter_cons_True, IH; [done..|]. intros ->. done.
Qed.
#[local] Instance toy_crate_laws : ObjectCrateLaws.
Proof.
  split; simpl; unfold path_of.
  - intros key Hk. rewrite good_parts by done. apply split_on_join.
  - intros key Hk. rewrite split_on_app, filter_app, good_parts by done. simpl.
    rewrite filter_cons_False by auto. rewrite app_nil_r. apply split_on_join.
  - done.
  - intros r b. unfold body_of. destruct (delivered (gr_stream r)); [|done]. by intros [= ->].
Qed.

(** One body per object, entity tags that depend on the content, a fixed clock. *)
Definition tag_of (b : bytes) : string := pretty (fold_right (λ x acc, 257 * acc + byte_N x + 1)%N 0%N b).
Definition put_object (now : Z) (path : string) (b : bytes) (s : ObjState) : ObjState :=
  <[path := {| oe_bytes := b; oe_e_tag := Some (tag_of b); oe_modified := now |}]> s.
Definition provider (now : Z) : ∀ X, objectE X → ObjState → X * ObjState :=
  λ X e s,
    match e in objectE X return X * ObjState with
    | OGet path =>
        (match s !! path with
         | Some o => inl {| gr_meta := meta_of path o; gr_stream := [inl (oe_bytes o)] |}
         | None => inr (OsNotFound "not found")
         end, s)
    | OHead path => (match s !! path with Some o => inl (meta_of path o) | None => inr (OsNotFound "not found") end, s)
    | ODelete path => (inl tt, delete path s)
    | OList prefix =>
        (map (λ '(path, o), inl (meta_of path o))
           (filter (λ p, (prefix = "" ∨ String.prefix (prefix +:+ "/") p.1 = true)) (map_to_list s)), s)
    | OPutOpts path b mode =>
        match mode, s !! path with
        | PutOverwrite, _ => (inl tt, put_object now path b s)
        | PutCreate, None => (inl tt, put_object now path b s)
        | PutCreate, Some _ => (inr (OsAlreadyExists "exists"), s)
        | PutUpdate tag, Some o =>
            if bool_decide (oe_e_tag o = tag) then (inl tt, put_object now path b s)
            else (inr (OsPrecondition "changed"), s)
        | PutUpdate _, None => (inr (OsPrecondition "missing"), s)
        end
    | OClock => (now, s)
    end.

Lemma provider_list prefix now s : object_step _ (OList prefix) s (provider now _ (OList prefix) s).1 s.
Proof.
  split; [done|]. intros _. cbn [provider fst].
  set (l := filter _ (map_to_list s)).
  assert (∀ path o, (path, o) ∈ l ↔ s !! path = Some o ∧ under prefix path) as Hl.
  { intros path o. unfold l, under. rewrite list_elem_of_filter, elem_of_map_to_list, prefix_strip. simpl.
    assert ((∃ rest, path = (prefix +:+ "/") +:+ rest) ↔ ∃ rest, path = prefix +:+ String "/" rest) as Hr.
    { split; intros (rest & Hr); exists rest; by rewrite (string_app_slash prefix rest) in *. }
    rewrite Hr. clear Hr. tauto. }
  split.
  - assert (omap (λ r : ObjectMeta + os_error, match r with inl m => Some (om_location m) | inr _ => None end)
      (map (λ '(path, o), inl (meta_of path o)) l) = l.*1) as ->.
    { clear. induction l as [|[path o] l IH]; [done|]. simpl. by f_equal. }
    apply NoDup_fmap_fst; [|by apply NoDup_filter, NoDup_map_to_list].
    intros path o1 o2 H1 H2. apply Hl in H1, H2. naive_solver.
  - intros meta. rewrite list_elem_of_fmap. split.
    + intros ([path o] & [= ->] & Hin). apply Hl in Hin as [Ho Hu]. eauto.
    + intros (path & o & Ho & -> & Hu). exists (path, o). split; [done|]. by apply Hl.
Qed.
Lemma provider_conforms now X (e : objectE X) s : object_step X e s (provider now X e s).1 (provider now X e s).2.
Proof.
  destruct e as [path|path|path|prefix|path b mode|]; try (by apply provider_list); simpl; try done.
  - split; [done|]. destruct (s !! path) as [o|]; [|done]. exists o. split_and!; [done..|].
    simpl. rewrite app_nil_r. by intros b [= ->].
  - split; [done|]. destruct (s !! path); eauto.
  - destruct mode as [| |tag]; destruct (s !! path) as [o|] eqn:Ho; simpl; try done; try case_bool_decide; simpl; try done;
      (split; [simpl; eauto|]); by do 2 eexists.
Qed.

(** Two clients create the same head at once, and one of them reads it. *)
Definition store : ObjectArchiveStore := {| oa_prefix := "archive" |}.
Definition racing (b : bytes) : prog storeE (result (option bytes)) :=
  let! _ := request (SCompareAndSwap "chains/1/head" None b) in
  let! read := request (SReadMutable "chains/1/head") in
  Ret (Ok (match read with Some v => Some (vb_bytes v) | None => None end)).
Definition racers : list (prog storeE (result (option bytes))) := [racing [Byte.x01]; racing [Byte.x02]].
Definition race : list (prog objectE (result (option bytes))) * ObjState :=
  run_pool (λ _ X e s, Some (provider 0 X e s)) [1; 0; 1; 0] (map (interp (object_impl store)) racers, ∅).
Definition lost : result (option bytes) := Err (Ctx "conditional head update failed" (Msg "exists")).

Lemma race_result : race.1 = map Ret [lost; Ok (Some [Byte.x02])].
Proof. vm_compute. reflexivity. Qed.


End ObjectExample.
