(* ===== verification/FsStore.v ===== *)
(** * [src/store.rs]: the file-system back end

    [FsArchiveStore] implements the store in a directory.  A call of [std::fs], of
    [tempfile] or of [fs2] is a request [fsE]; a path is its list of components
    from the root of the file system, an open file the number of its inode.
    Dropping a temporary file deletes it and dropping the lock file closes it:
    both are requests too. *)

From stdpp Require Import pretty.
From S2P Require Import Prelude Bytes Text Externals Hash Store ObjectStore.
From Stdlib Require Import Lia ZArith Strings.Ascii.

(** ** [std::path] *)

Abbreviation path := (list string).

(** [Path::components] of a path below the root: empty and [.] parts vanish. *)
Definition components (s : string) : path := filter (λ part, part ≠ "" ∧ part ≠ ".") (split_on "/" s).
(** [Path::join]: an absolute path replaces the base. *)
Definition path_join (base : path) (s : string) : path :=
  if starts_with_char "/" s then components s else base ++ components s.
Definition path_parent (p : path) : option path :=
  match p with [] => None | _ => Some (removelast p) end.
Definition file_name (p : path) : string := default "" (last p).
(** [Path::strip_prefix] *)
Fixpoint path_strip (prefix p : path) : option path :=
  match prefix, p with
  | [], _ => Some p
  | a :: prefix, b :: p => if bool_decide (a = b) then path_strip prefix p else None
  | _ :: _, [] => None
  end.
(** [Path::display] and [to_string_lossy] of a relative path. *)
Definition display (p : path) : string := String "/" (join "/" p).
Fixpoint replace_char (a b : ascii) (s : string) : string :=
  match s with
  | EmptyString => EmptyString
  | String c s => String (if bool_decide (c = a) then b else c) (replace_char a b s)
  end.

(** ** System calls *)

Inductive io_kind := KNotFound | KAlreadyExists | KOther.
Record io_error := { io_kind_of : io_kind; io_text : string }.
Abbreviation io A := (A + io_error)%type.
Definition io_into (e : io_error) : error := Msg (io_text e).
Definition io_lift {A} (r : io A) : result A := match r with inl a => Ok a | inr e => Err (io_into e) end.

Record Metadata := { md_len : N; md_modified : Z; md_is_dir : bool }.
Inductive handle := HFile (inode : nat) | HDir (p : path).
Record NamedTempFile := { nt_path : path; nt_inode : nat }.

Inductive fsE : Type → Type :=
| FExists (p : path) : fsE bool                                   (* Path::exists *)
| FMetadata (p : path) : fsE (io Metadata)                        (* fs::metadata, DirEntry::metadata *)
| FOpen (p : path) : fsE (io handle)                              (* File::open *)
| FOpenWrite (p : path) : fsE (io handle)                         (* File::options().write(true).open *)
| FOpenCreate (p : path) : fsE (io handle)                        (* .create(true).truncate(false) *)
| FReadToEnd (h : handle) (limit : option N) : fsE (io bytes)     (* read_to_end, through [take] *)
| FSetModified (h : handle) (t : Z) : fsE (io unit)               (* File::set_modified *)
| FSyncAll (h : handle) : fsE (io unit)                           (* File::sync_all *)
| FRemoveFile (p : path) : fsE (io unit)                          (* fs::remove_file *)
| FCreateDir (p : path) : fsE (io unit)                           (* fs::create_dir *)
| FCreateDirAll (p : path) : fsE (io unit)                        (* fs::create_dir_all *)
| FReadDir (p : path) : fsE (io (list (io path)))                 (* fs::read_dir, DirEntry::path *)
| FTempFile (directory : path) : fsE (io NamedTempFile)           (* NamedTempFile::new_in *)
| FWriteAll (h : handle) (b : bytes) : fsE (io unit)              (* Write::write_all *)
| FPersist (t : NamedTempFile) (p : path) : fsE (io unit)         (* NamedTempFile::persist *)
| FPersistNoclobber (t : NamedTempFile) (p : path) : fsE (io unit)
| FDropTemp (t : NamedTempFile) : fsE unit                        (* drop of a NamedTempFile *)
| FLockExclusive (h : handle) : fsE (io unit)                     (* FileExt::lock_exclusive *)
| FUnlock (h : handle) : fsE (io unit)                            (* FileExt::unlock *)
| FClose (h : handle) : fsE unit                                  (* drop of the lock file *)
| FClock : fsE Z.                                                 (* SystemTime::now *)

(** [?] on a system call. *)
Definition io_request {A} (e : fsE (io A)) : prog fsE (result A) := Vis e (λ r, Ret (io_lift r)).

(** [std::fs::read] *)
Definition fs_read (p : path) : prog fsE (io bytes) :=
  Vis (FOpen p) (λ r, match r with inl h => request (FReadToEnd h None) | inr e => Ret (inr e) end).

(** ** [read_file_bounded], [sync_directory], [create_synced_directory_tree] *)

Definition is_not_found (e : io_error) : bool := match io_kind_of e with KNotFound => true | _ => false end.
Definition is_already_exists (e : io_error) : bool := match io_kind_of e with KAlreadyExists => true | _ => false end.

Definition read_file_bounded (p : path) (maximum : N) : prog fsE (result (option bytes)) :=
  let* r := request (FOpen p) in
  match r with
  | inl file =>
      let!? limit := ok_or (checked_add usize_max maximum 1) "bounded read limit overflow" in
      let! b := io_request (FReadToEnd file (Some limit)) in
      if (maximum <? len b)%N then Ret (bail "object stream exceeds bounded read limit")
      else Ret (Ok (Some b))
  | inr error => if is_not_found error then Ret (Ok None) else Ret (Err (io_into error))
  end.

Definition sync_directory (p : path) : prog fsE (result unit) :=
  let* r := request (FOpen p) in
  let!? h := with_context ("open directory " +:+ display p +:+ " for fsync") (io_lift r) in
  let* r := request (FSyncAll h) in
  Ret (with_context ("fsync directory " +:+ display p) (io_lift r)).

(** The path is given from its last component to its first. *)
Fixpoint create_synced_tree_rev (reversed : path) : prog fsE (result unit) :=
  let p := rev reversed in
  let* exists_ := request (FExists p) in
  if exists_ : bool then sync_directory p
  else
    match reversed with
    | [] => Ret (bail "filesystem store path has no parent")
    | _ :: parent =>
        let! _ := create_synced_tree_rev parent in
        let* r := request (FCreateDir p) in
        let!? _ := match r with
                   | inl _ => Ok tt
                   | inr error => if is_already_exists error then Ok tt else Err (io_into error)
                   end in
        let! _ := sync_directory (rev parent) in
        sync_directory p
    end.
Definition create_synced_directory_tree (p : path) : prog fsE (result unit) := create_synced_tree_rev (rev p).

(** ** [FsArchiveStore] *)

Record FsArchiveStore := { fa_root : path }.

Section ops.
Context `{Sha256, Hex} (self : FsArchiveStore).

(** [FsArchiveStore::path] *)
Definition fs_path (key : string) : path := path_join (fa_root self) key.

(** [sync_path_directories]: its loop, and the whole. *)
Fixpoint sync_components (directory : path) (rest : path) : prog fsE (result unit) :=
  match rest with
  | [] => Ret (Ok tt)
  | component :: rest =>
      let directory := directory ++ [component] in
      let! _ := sync_directory directory in
      sync_components directory rest
  end.
Definition sync_path_directories (p : path) : prog fsE (result unit) :=
  let!? parent := ok_or (path_parent p) "path has no parent" in
  let!? relative := with_context "store path escaped root" (ok_or (path_strip (fa_root self) parent) "prefix not found") in
  let! _ := sync_directory (fa_root self) in
  sync_components (fa_root self) relative.

(** [create_parent_directories] *)
Definition create_parent_directories (p : path) : prog fsE (result unit) :=
  let!? parent := ok_or (path_parent p) "path has no parent" in
  let! _ := io_request (FCreateDirAll parent) in
  sync_path_directories p.

(** A failure while a temporary file is open deletes it. *)
Definition or_drop {A B} (t : NamedTempFile) (e : fsE (io A)) (k : A → prog fsE (result B)) : prog fsE (result B) :=
  Vis e (λ r, match r with
              | inl a => k a
              | inr error => let* _ := request (FDropTemp t) in Ret (Err (io_into error))
              end).
(** A flushed temporary file with these bytes, in [atomic_write] and [put_immutable]. *)
Definition write_temporary (p : path) (b : bytes) : prog fsE (result NamedTempFile) :=
  let! _ := create_parent_directories p in
  let!? parent := ok_or (path_parent p) "path has no parent" in
  let! temporary := io_request (FTempFile parent) in
  or_drop temporary (FWriteAll (HFile (nt_inode temporary)) b) (λ _,
  or_drop temporary (FSyncAll (HFile (nt_inode temporary))) (λ _, Ret (Ok temporary))).

(** [atomic_write] *)
Definition atomic_write (p : path) (b : bytes) : prog fsE (result unit) :=
  let! temporary := write_temporary p b in
  or_drop temporary (FPersist temporary p) (λ _,
    let! _ := sync_path_directories p in Ret (Ok tt)).

(** [list]: the loop over one directory, and the loop over the directories, which
    takes one unit of fuel for each. *)
Fixpoint list_entries (prefix : string) (entries : list (io path)) (pending : list path) (out : list Listed)
    : prog fsE (result (list path * list Listed)) :=
  match entries with
  | [] => Ret (Ok (pending, out))
  | entry :: entries =>
      let!? p := io_lift entry in
      let! metadata := io_request (FMetadata p) in
      if md_is_dir metadata then list_entries prefix entries (p :: pending) out
      else if String.prefix ".tmp" (file_name p) then list_entries prefix entries pending out
      else
        let!? relative := ok_or (path_strip (fa_root self) p) "prefix not found" in
        let key := replace_char "\" "/" (join "/" relative) in
        let out := if String.prefix prefix key
                   then out ++ [{| l_key := key; l_size := md_len metadata; l_modified := md_modified metadata |}]
                   else out in
        list_entries prefix entries pending out
  end.
Fixpoint list_directories (fuel : nat) (prefix : string) (pending : list path) (out : list Listed)
    : prog fsE (result (list Listed)) :=
  match pending, fuel with
  | [], _ => Ret (Ok out)
  | directory :: pending, S fuel =>
      let* r := request (FReadDir directory) in
      match r with
      | inl entries =>
          let! (pending, out) := list_entries prefix entries pending out in
          list_directories fuel prefix pending out
      | inr error =>
          if is_not_found error then list_directories fuel prefix pending out else Ret (Err (io_into error))
      end
  | _ :: _, O => Ret (Err (Panic "out of fuel"))
  end.
Definition fs_list (fuel : nat) (prefix : string) : prog fsE (result (list Listed)) :=
  list_directories fuel prefix [fa_root self] [].

(** [modified], [delete], [get], [get_bounded] *)
Definition fs_modified (key : string) : prog fsE (result (option Z)) :=
  let* r := request (FMetadata (fs_path key)) in
  Ret match r with
      | inl metadata => Ok (Some (md_modified metadata))
      | inr error => if is_not_found error then Ok None else Err (io_into error)
      end.
Definition fs_delete (key : string) : prog fsE (result unit) :=
  let* r := request (FRemoveFile (fs_path key)) in
  Ret match r with
      | inl _ => Ok tt
      | inr error => if negb (is_not_found error) then Err (io_into error) else Ok tt
      end.
Definition fs_get (key : string) : prog fsE (result bytes) :=
  let* r := fs_read (fs_path key) in
  Ret (with_context ("read object " +:+ key) (io_lift r)).
Definition fs_get_bounded (key : string) (maximum : N) : prog fsE (result bytes) :=
  let! b := read_file_bounded (fs_path key) maximum in
  Ret (ok_or b ("object not found: " +:+ key)).

(** [put_immutable] *)
Definition fs_put_immutable (key : string) (b : bytes) : prog fsE (result unit) :=
  let p := fs_path key in
  let* exists_ := request (FExists p) in
  if exists_ : bool then
    let! existing := fs_get_bounded key (len b) in
    if bool_decide (existing ≠ b) then Ret (bail ("immutable object collision at " +:+ key))
    else
      let! metadata := io_request (FMetadata p) in
      let* now := request FClock in
      if stale now (md_modified metadata) then
        let! file := io_request (FOpenWrite p) in
        let* now := request FClock in
        let! _ := io_request (FSetModified file now) in
        Ret (Ok tt)
      else Ret (Ok tt)
  else
    let! temporary := write_temporary p b in
    let* r := request (FPersistNoclobber temporary p) in
    match r with
    | inl _ => let! _ := sync_path_directories p in Ret (Ok tt)
    | inr error =>
        let* found := fs_read p in
        let* r := (if match found with inl existing => bool_decide (existing = b) | inr _ => false end
                   then let! _ := sync_path_directories p in Ret (Ok tt)
                   else Ret (Err (Ctx "create immutable object" (io_into error)))) in
        let* _ := request (FDropTemp temporary) in
        Ret r
    end.

(** [read_mutable], [read_mutable_bounded] *)
Definition fs_version (b : bytes) : VersionedBytes := {| vb_bytes := b; vb_version := hash_to_string (digest b) |}.
Definition fs_read_mutable (key : string) : prog fsE (result (option VersionedBytes)) :=
  let* r := fs_read (fs_path key) in
  Ret match r with
      | inl b => Ok (Some (fs_version b))
      | inr error => if is_not_found error then Ok None else Err (io_into error)
      end.
Definition fs_read_mutable_bounded (key : string) (maximum : N) : prog fsE (result (option VersionedBytes)) :=
  let! b := read_file_bounded (fs_path key) maximum in
  Ret (Ok (fs_version <$> b)).

(** [compare_and_swap]: what happens while the lock file is open, and the whole. *)
Definition lock_path : path := fa_root self ++ [".fossil-publish.lock"].
Definition swap_locked (lock : handle) (key : string) (expected : option VersionedBytes) (b : bytes) : prog fsE (result unit) :=
  let! _ := sync_directory (fa_root self) in
  let! _ := io_request (FLockExclusive lock) in
  let maximum := match expected with None => len b | Some v => N.max (len (vb_bytes v)) (len b) end in
  let! current := fs_read_mutable_bounded key maximum in
  let matches :=
    match expected, current with
    | None, None => true
    | Some expected, Some current => bool_decide (vb_version expected = vb_version current)
    | _, _ => false
    end in
  if negb matches then
    let! _ := io_request (FUnlock lock) in
    Ret (bail "conditional head update failed")
  else
    let! _ := atomic_write (fs_path key) b in
    let! _ := io_request (FUnlock lock) in
    Ret (Ok tt).
Definition fs_compare_and_swap (key : string) (expected : option VersionedBytes) (b : bytes) : prog fsE (result unit) :=
  let! lock := io_request (FOpenCreate lock_path) in
  let* r := swap_locked lock key expected b in
  let* _ := request (FClose lock) in
  Ret r.

(** [impl ArchiveStore for FsArchiveStore], and the clock. *)
Definition fs_impl (fuel : nat) : ∀ X, storeE X → prog fsE X :=
  λ X e,
    match e in storeE X return prog fsE X with
    | SList prefix => fs_list fuel prefix
    | SDelete key => fs_delete key
    | SModified key => fs_modified key
    | SGet key => fs_get key
    | SGetBounded key maximum => fs_get_bounded key maximum
    | SPutImmutable key b => fs_put_immutable key b
    | SReadMutable key => fs_read_mutable key
    | SReadMutableBounded key maximum => fs_read_mutable_bounded key maximum
    | SCompareAndSwap key expected b => fs_compare_and_swap key expected b
    | Now => request FClock
    end.

End ops.
