(* ===== verification/FsModel.v ===== *)
(** * The file system under [FsArchiveStore]

    [fs_step] is what the system calls of one process may answer and do, from the
    documentation of POSIX and of the crates: any call may fail, a failed write
    leaves anything in the file, a failed flush guarantees nothing, [rename] is
    atomic, a lock has one holder.  Beside the current entries of every directory
    the state keeps those they replaced since the directory was last flushed: after
    a crash ([crashed]) any of them may be found, and a file that was not flushed
    may hold anything. *)

From stdpp Require Import pretty relations gmap.
From S2P Require Import Prelude Bytes Text Externals Hash RelyGuarantee Store FsStore.
From Stdlib Require Import Lia ZArith Strings.Ascii.

Record Inode := { in_bytes : bytes; in_synced : bool; in_modified : Z }.

Record FsState := {
  fs_entries : gmap path nat;        (* files, by path *)
  fs_inodes : gmap nat Inode;
  fs_dirs : gset path;
  fs_pending : gmap path (list (option nat));  (* replaced since the last flush *)
  fs_durable_dirs : gset path;       (* directories whose own entry is flushed *)
  fs_temps : gmap nat nat;           (* temporary files, and the process that holds them *)
  fs_locks : gmap nat nat            (* locked files, and the holder *)
}.

(** The entry of a path becomes [v]. *)
Definition set_entry (p : path) (v : option nat) (s : FsState) : FsState :=
  {| fs_entries := partial_alter (λ _, v) p (fs_entries s); fs_inodes := fs_inodes s; fs_dirs := fs_dirs s;
     fs_pending := <[p := fs_entries s !! p :: default [] (fs_pending s !! p)]> (fs_pending s);
     fs_durable_dirs := fs_durable_dirs s; fs_temps := fs_temps s; fs_locks := fs_locks s |}.
Definition with_inodes (f : gmap nat Inode → gmap nat Inode) (s : FsState) : FsState :=
  {| fs_entries := fs_entries s; fs_inodes := f (fs_inodes s); fs_dirs := fs_dirs s; fs_pending := fs_pending s;
     fs_durable_dirs := fs_durable_dirs s; fs_temps := fs_temps s; fs_locks := fs_locks s |}.
Definition with_dirs (f : gset path → gset path) (s : FsState) : FsState :=
  {| fs_entries := fs_entries s; fs_inodes := fs_inodes s; fs_dirs := f (fs_dirs s); fs_pending := fs_pending s;
     fs_durable_dirs := fs_durable_dirs s; fs_temps := fs_temps s; fs_locks := fs_locks s |}.
Definition with_temps (f : gmap nat nat → gmap nat nat) (s : FsState) : FsState :=
  {| fs_entries := fs_entries s; fs_inodes := fs_inodes s; fs_dirs := fs_dirs s; fs_pending := fs_pending s;
     fs_durable_dirs := fs_durable_dirs s; fs_temps := f (fs_temps s); fs_locks := fs_locks s |}.
Definition with_locks (f : gmap nat nat → gmap nat nat) (s : FsState) : FsState :=
  {| fs_entries := fs_entries s; fs_inodes := fs_inodes s; fs_dirs := fs_dirs s; fs_pending := fs_pending s;
     fs_durable_dirs := fs_durable_dirs s; fs_temps := fs_temps s; fs_locks := f (fs_locks s) |}.

Definition visible (p : path) (s : FsState) : Prop := is_Some (fs_entries s !! p) ∨ p ∈ fs_dirs s.
Definition child_of (d q : path) (s : FsState) : Prop := path_parent q = Some d ∧ visible q s.

(** Flushing a directory: its entries survive a crash. *)
Definition flushed (d : path) (s : FsState) : FsState :=
  {| fs_entries := fs_entries s; fs_inodes := fs_inodes s; fs_dirs := fs_dirs s;
     fs_pending := filter (λ e, path_parent e.1 ≠ Some d) (fs_pending s);
     fs_durable_dirs := fs_durable_dirs s ∪ filter (λ q, path_parent q = Some d) (fs_dirs s);
     fs_temps := fs_temps s; fs_locks := fs_locks s |}.

(** The directories on the way to a path, the path included. *)
Definition ancestors (p : path) : gset path := list_to_set (map (λ n, take n p) (seq 0 (S (length p)))).

Definition release (me i : nat) (locks : gmap nat nat) : gmap nat nat :=
  if bool_decide (locks !! i = Some me) then delete i locks else locks.

(** A call that failed and did nothing. *)
Definition failed {A} (x : io A) (s s' : FsState) : Prop := (∃ e, x = inr e) ∧ s' = s.

Definition fs_step (me : nat) X (e : fsE X) : FsState → X → FsState → Prop :=
  match e in fsE X return FsState → X → FsState → Prop with
  | FExists p => λ s x s', s' = s ∧ (x = true → visible p s)
  | FMetadata p => λ s x s', s' = s ∧
      match x with
      | inl md =>
          (∃ i n, fs_entries s !! p = Some i ∧ fs_inodes s !! i = Some n ∧
             md = {| md_len := len (in_bytes n); md_modified := in_modified n; md_is_dir := false |}) ∨
          (p ∈ fs_dirs s ∧ md_is_dir md = true)
      | inr e => is_not_found e = true → ¬ visible p s
      end
  | FOpen p => λ s x s', s' = s ∧
      match x with
      | inl (HFile i) => fs_entries s !! p = Some i
      | inl (HDir q) => q = p ∧ p ∈ fs_dirs s
      | inr e => is_not_found e = true → ¬ visible p s
      end
  | FOpenWrite p => λ s x s', s' = s ∧
      match x with inl (HFile i) => fs_entries s !! p = Some i | inl (HDir _) => False | inr _ => True end
  | FOpenCreate p => λ s x s', failed x s s' ∨
      ∃ i, x = inl (HFile i) ∧
        (fs_entries s !! p = Some i ∧ s' = s ∨
         ¬ visible p s ∧ fs_inodes s !! i = None ∧
         ∃ t, s' = set_entry p (Some i) (with_inodes <[i := {| in_bytes := []; in_synced := false; in_modified := t |}]> s))
  | FReadToEnd h limit => λ s x s', s' = s ∧
      match x with
      | inl b => ∃ i n, h = HFile i ∧ fs_inodes s !! i = Some n ∧
                   b = match limit with None => in_bytes n | Some l => take (N.to_nat l) (in_bytes n) end
      | inr e => is_not_found e = false
      end
  | FSetModified h t => λ s x s', failed x s s' ∨
      x = inl tt ∧ ∃ i n, h = HFile i ∧ fs_inodes s !! i = Some n ∧
        s' = with_inodes <[i := {| in_bytes := in_bytes n; in_synced := in_synced n; in_modified := t |}]> s
  | FSyncAll h => λ s x s', failed x s s' ∨
      x = inl tt ∧
      match h with
      | HFile i => ∃ n, fs_inodes s !! i = Some n ∧
          s' = with_inodes <[i := {| in_bytes := in_bytes n; in_synced := true; in_modified := in_modified n |}]> s
      | HDir d => s' = flushed d s
      end
  | FRemoveFile p => λ s x s',
      match x with
      | inl _ => is_Some (fs_entries s !! p) ∧ s' = set_entry p None s
      | inr e => s' = s ∧ (is_not_found e = true → ¬ visible p s)
      end
  | FCreateDir p => λ s x s', failed x s s' ∨ x = inl tt ∧ ¬ visible p s ∧ s' = with_dirs ({[p]} ∪.) s
  | FCreateDirAll p => λ s x s',
      ∃ ds, ds ⊆ ancestors p ∧ s' = with_dirs (ds ∪.) s ∧ (x = inl tt → ancestors p ⊆ fs_dirs s') ∧
        (∀ q, q ∈ ds → fs_entries s !! q = None)
  | FReadDir d => λ s x s', s' = s ∧
      match x with
      | inl l => (∀ q, inl q ∈ l → child_of d q s) ∧
          (Forall (λ r, ∃ q : path, r = inl q) l →
             d ∈ fs_dirs s ∧ NoDup l ∧ ∀ q, child_of d q s → inl q ∈ l)
      | inr e => is_not_found e = true → d ∉ fs_dirs s
      end
  | FTempFile d => λ s x s', failed x s s' ∨
      ∃ t name time, x = inl t ∧ nt_path t = d ++ [name] ∧ String.prefix ".tmp" name = true ∧
        ¬ visible (nt_path t) s ∧ fs_inodes s !! nt_inode t = None ∧
        s' = with_temps <[nt_inode t := me]> (set_entry (nt_path t) (Some (nt_inode t))
               (with_inodes <[nt_inode t := {| in_bytes := []; in_synced := false; in_modified := time |}]> s))
  | FWriteAll h b => λ s x s', failed x s s' ∨
      ∃ i n n', h = HFile i ∧ fs_inodes s !! i = Some n ∧ s' = with_inodes <[i := n']> s ∧
        (x = inl tt → in_bytes n' = in_bytes n ++ b)
  | FPersist t p => λ s x s', failed x s s' ∨
      x = inl tt ∧ p ∉ fs_dirs s ∧ fs_entries s !! nt_path t = Some (nt_inode t) ∧
        s' = with_temps (delete (nt_inode t)) (set_entry p (Some (nt_inode t)) (set_entry (nt_path t) None s))
  | FPersistNoclobber t p => λ s x s', failed x s s' ∨
      x = inl tt ∧ ¬ visible p s ∧ fs_entries s !! nt_path t = Some (nt_inode t) ∧
        s' = with_temps (delete (nt_inode t)) (set_entry p (Some (nt_inode t)) (set_entry (nt_path t) None s))
  | FDropTemp t => λ s _ s',
      s' = with_temps (delete (nt_inode t)) (set_entry (nt_path t) None s) ∨
      s' = s (* the file could not be deleted and stays behind *)
  | FLockExclusive h => λ s x s', failed x s s' ∨
      x = inl tt ∧ ∃ i, h = HFile i ∧ fs_locks s !! i = None ∧ s' = with_locks <[i := me]> s
  | FUnlock h => λ s x s', failed x s s' ∨ x = inl tt ∧
      match h with HFile i => s' = with_locks (release me i) s | HDir _ => s' = s end
  | FClose h => λ s _ s', match h with HFile i => s' = with_locks (release me i) s | HDir _ => s' = s end
  | FClock => λ s _ s', s' = s
  end.

(** ** Crashes *)

(** What may be found at a path after a crash. *)
Definition possible (p : path) (s : FsState) (v : option nat) : Prop :=
  v = fs_entries s !! p ∨ v ∈ default [] (fs_pending s !! p).

Record crashed (s s' : FsState) : Prop := {
  cr_entries p : possible p s (fs_entries s' !! p);
  cr_inodes i n : fs_inodes s !! i = Some n → in_synced n = true →
    ∃ n', fs_inodes s' !! i = Some n' ∧ in_bytes n' = in_bytes n;
  cr_dirs : fs_durable_dirs s ⊆ fs_dirs s'
}.
