(* ===== verification/FsFacts.v ===== *)
(** * What the processes of a file-system store do to each other

    [fs_inv]: every object that can be found, now or after a crash, is a complete
    and flushed file.  [fs_rely me]: what process [me] may assume of a step of the
    others: they keep the invariant, the content of published files, the temporary
    files and the lock of [me], and while [me] holds the lock they do not touch the
    mutable objects. *)

From stdpp Require Import pretty relations gmap.
From S2P Require Import Prelude Bytes Text Externals Hash RelyGuarantee Store StoreContract ObjectStore ObjectStoreFacts FsStore FsModel.
From Stdlib Require Import Lia ZArith Strings.Ascii.

(** ** Keys and paths *)

Definition is_tmp (p : path) : bool := String.prefix ".tmp" (file_name p).
Definition fs_key (k : string) : bool :=
  good_key k && negb (is_tmp (split_on "/" k)) && negb (bool_decide (k = ".fossil-publish.lock")).

Lemma components_good k : good_key k = true → components k = split_on "/" k.
Proof.
  unfold good_key, components. induction (split_on "/" k) as [|part parts IH]; [done|]. simpl.
  intros [Hp Hk]%andb_true_iff. rewrite filter_cons_True, IH; [done..|].
  unfold good_part in Hp. bool_prop. done.
Qed.

Lemma file_name_app a b : b ≠ [] → file_name (a ++ b) = file_name b.
Proof.
  intros Hb. unfold file_name. destruct b as [|x b] using rev_ind; [done|]. by rewrite app_assoc, !last_snoc.
Qed.

(** The objects of a store: [mutable] are swapped, [immutable] are put, and no key
    is a directory of another. *)
Class FsKeys (mutable immutable : string → bool) : Prop := {
  keys_ok k : mutable k || immutable k = true → fs_key k = true;
  keys_disjoint k : mutable k = true → immutable k = false;
  keys_leaves k k' rest : mutable k || immutable k = true → mutable k' || immutable k' = true →
    split_on "/" k' = split_on "/" k ++ rest → rest = []
}.

Section facts.
Context `{Sha256, Hex} (self : FsArchiveStore) (mutable immutable : string → bool) {HK : FsKeys mutable immutable}.

Definition is_key (k : string) : Prop := mutable k || immutable k = true.
#[local] Instance is_key_dec k : Decision (is_key k) := _.

Lemma fs_path_key k : is_key k → fs_path self k = fa_root self ++ split_on "/" k.
Proof.
  intros Hk%keys_ok. unfold fs_key in Hk. bool_prop. unfold fs_path, path_join. rewrite components_good by done.
  destruct k as [|c k]; [done|]. unfold starts_with_char. case_bool_decide as E; [|done]. exfalso. subst.
  match goal with Hg : good_key _ = true |- _ => revert Hg end. unfold good_key. simpl.
  destruct (split_on_join "/" k) as [Hne _]. by destruct (split_on "/" k).
Qed.

Lemma fs_path_inj k k' : is_key k → is_key k' → fs_path self k = fs_path self k' → k = k'.
Proof. intros Hk Hk'. rewrite !fs_path_key by done. intros E. apply app_inv_head in E. by eapply split_on_inj. Qed.

Lemma fs_path_not_tmp k : is_key k → is_tmp (fs_path self k) = false.
Proof.
  intros Hk. rewrite fs_path_key by done. apply keys_ok in Hk. unfold fs_key in Hk. bool_prop.
  unfold is_tmp in *. rewrite file_name_app; [done|]. apply split_on_join.
Qed.

Lemma fs_path_not_lock k : is_key k → fs_path self k ≠ lock_path self.
Proof.
  intros Hk E. rewrite fs_path_key in E by done. unfold lock_path in E. apply app_inv_head in E.
  apply keys_ok in Hk. unfold fs_key in Hk. bool_prop.
  match goal with Hn : k ≠ _ |- _ => apply Hn end. by apply (split_on_inj "/").
Qed.
Lemma lock_not_tmp : is_tmp (lock_path self) = false.
Proof. unfold is_tmp, lock_path. by rewrite file_name_app by done. Qed.

(** No key is a directory on the way to another. *)
Lemma key_not_ancestor k k' parent :
  is_key k → is_key k' → path_parent (fs_path self k') = Some parent → fs_path self k ∉ ancestors parent.
Proof.
  intros Hk Hk' Hp Hin. unfold ancestors in Hin. apply elem_of_list_to_set, list_elem_of_fmap in Hin as (n & E & Hn).
  rewrite fs_path_key in E, Hp by done.
  destruct (split_on_join "/" k') as [Hne _]. destruct (split_on "/" k') as [|x l _] eqn:Es using rev_ind; [done|].
  rewrite app_assoc in Hp. unfold path_parent in Hp. rewrite removelast_last in Hp.
  assert (parent = fa_root self ++ l) as -> by (destruct ((fa_root self ++ l) ++ [x]) eqn:E'; [by destruct (fa_root self ++ l)|by simplify_eq]).
  clear Hp Hn. destruct (split_on_join "/" k) as [Hne' _].
  assert (∃ m, split_on "/" k = take m l) as [m Em].
  { rewrite take_app in E. exists (n - length (fa_root self)).
    destruct (decide (length (fa_root self) ≤ n)) as [Hle|Hlt].
    - rewrite take_ge in E by done. by apply app_inv_head in E.
    - exfalso.
      apply (f_equal length) in E. rewrite !length_app, length_take in E.
      replace (n - length (fa_root self)) with 0 in E by lia. rewrite take_0 in E. simpl in E.
      destruct (split_on "/" k); [done|]. simpl in E. lia. }
  assert (drop m l ++ [x] = []) as Hnil.
  { apply (keys_leaves k k'); [done..|]. by rewrite Em, Es, app_assoc, take_drop. }
  by destruct (drop m l).
Qed.

(** ** Objects and the invariant *)

Definition file_at (p : path) (s : FsState) : option Inode := fs_entries s !! p ≫= λ i, fs_inodes s !! i.
Definition fs_contents (s : FsState) : contents :=
  λ k, if decide (is_key k)
       then (λ n, (in_bytes n, Some (hash_to_string (digest (in_bytes n))))) <$> file_at (fs_path self k) s
       else None.

Record fs_inv (s : FsState) : Prop := {
  iv_objects k i : is_key k → possible (fs_path self k) s (Some i) →
    ∃ n, fs_inodes s !! i = Some n ∧ in_synced n = true ∧ fs_temps s !! i = None;
  iv_lock i : fs_entries s !! lock_path self = Some i → is_Some (fs_inodes s !! i) ∧ fs_temps s !! i = None;
  iv_temps i j : fs_temps s !! i = Some j → is_Some (fs_inodes s !! i);
  iv_dirs k : is_key k → fs_path self k ∉ fs_dirs s;
  iv_disjoint p : p ∈ fs_dirs s → fs_entries s !! p = None;
  iv_root : fa_root self ∈ fs_dirs s
}.

Record fs_rely (me : nat) (s s' : FsState) : Prop := {
  rl_inv : fs_inv s → fs_inv s';
  rl_files i n : fs_inodes s !! i = Some n → fs_temps s !! i = None →
    ∃ n', fs_inodes s' !! i = Some n' ∧ in_bytes n' = in_bytes n ∧ (in_synced n = true → in_synced n' = true) ∧
      fs_temps s' !! i = None;
  rl_temps i : fs_temps s !! i = Some me → fs_temps s' !! i = Some me ∧ fs_inodes s' !! i = fs_inodes s !! i;
  rl_locks l : fs_locks s !! l = Some me → fs_locks s' !! l = Some me;
  rl_lock_file l : fs_entries s !! lock_path self = Some l → fs_entries s' !! lock_path self = Some l;
  rl_dirs : fs_dirs s ⊆ fs_dirs s';
  rl_mutable l k : mutable k = true → fs_entries s !! lock_path self = Some l → fs_locks s !! l = Some me →
    fs_entries s' !! fs_path self k = fs_entries s !! fs_path self k
}.

#[export] Instance fs_rely_preorder me : PreOrder (fs_rely me).
Proof.
  split.
  - intros s. split; eauto.
  - intros s1 s2 s3 [I1 F1 T1 L1 E1 D1 M1] [I2 F2 T2 L2 E2 D2 M2]. split; auto.
    + intros i n Hn Ht. destruct (F1 i n Hn Ht) as (n2 & Hn2 & Hb2 & Hs2 & Ht2).
      destruct (F2 i n2 Hn2 Ht2) as (n3 & Hn3 & Hb3 & Hs3 & Ht3). exists n3. split_and!; auto. congruence.
    + intros i Ht. destruct (T1 i Ht) as [Ht2 Hn2]. destruct (T2 i Ht2) as [Ht3 Hn3]. split; congruence.
    + by etrans.
    + intros l k Hk Hl Hm. rewrite (M2 l k) by eauto. eauto.
Qed.

(** What the process [me] does to the others. *)
Definition fs_guar (me : nat) (s s' : FsState) : Prop := ∀ j, j ≠ me → fs_rely j s s'.
(** A step that the process itself may take for a step of the others. *)
Definition neutral (s s' : FsState) : Prop := ∀ j, fs_rely j s s'.

Lemma neutral_guar me s s' : neutral s s' → fs_guar me s s'.
Proof. intros Hn j _. apply Hn. Qed.

Lemma contents_at_key k s : is_key k → fs_contents s k =
  (λ n, (in_bytes n, Some (hash_to_string (digest (in_bytes n))))) <$> file_at (fs_path self k) s.
Proof. intros Hk. unfold fs_contents. by rewrite decide_True. Qed.

(** The inode of an object. *)
Lemma file_at_key k s i : fs_inv s → is_key k → fs_entries s !! fs_path self k = Some i →
  ∃ n, fs_inodes s !! i = Some n ∧ in_synced n = true ∧ fs_temps s !! i = None ∧ file_at (fs_path self k) s = Some n.
Proof.
  intros Hi Hk He. destruct (iv_objects s Hi k i Hk) as (n & Hn & Hs & Ht); [by left|].
  exists n. split_and!; [done..|]. unfold file_at. by rewrite He.
Qed.

(** Objects whose entries do not change do not change. *)
Lemma same_contents j s s' :
  fs_inv s → fs_rely j s s' →
  (∀ k, is_key k → fs_entries s' !! fs_path self k = fs_entries s !! fs_path self k) → fs_contents s' ≡ fs_contents s.
Proof.
  intros Hi Hr He k. unfold fs_contents. case_decide as Hk; [|done].
  destruct (fs_entries s !! fs_path self k) as [i|] eqn:Ei.
  - destruct (file_at_key k s i Hi Hk Ei) as (n & Hn & Hs & Ht & ->).
    destruct (rl_files _ _ _ Hr i n Hn Ht) as (n' & Hn' & Hb & _). unfold file_at. rewrite He, Ei by done. simpl.
    rewrite Hn'. simpl. by rewrite Hb.
  - unfold file_at. by rewrite He, Ei by done.
Qed.

(** ** Effects *)

Lemma set_entry_eq p v s : fs_entries (set_entry p v s) !! p = v.
Proof. apply lookup_partial_alter_eq. Qed.
Lemma set_entry_ne p v s q : q ≠ p → fs_entries (set_entry p v s) !! q = fs_entries s !! q.
Proof. intros Hq. by apply lookup_partial_alter_ne. Qed.
Lemma possible_set_ne p v s q w : q ≠ p → possible q (set_entry p v s) w ↔ possible q s w.
Proof. intros Hq. unfold possible. rewrite set_entry_ne by done. simpl. by rewrite lookup_insert_ne. Qed.
Lemma possible_set_eq p v s w : possible p (set_entry p v s) w → w = v ∨ possible p s w.
Proof.
  unfold possible. rewrite set_entry_eq. simpl. rewrite lookup_insert_eq. simpl. rewrite elem_of_cons. tauto.
Qed.

Lemma key_ne_tmp k p : is_key k → is_tmp p = true → fs_path self k ≠ p.
Proof. intros Hk Hp E. apply fs_path_not_tmp in Hk. congruence. Qed.
Lemma lock_ne_tmp p : is_tmp p = true → lock_path self ≠ p.
Proof. intros Hp E. pose proof lock_not_tmp. congruence. Qed.

Lemma neutral_refl s : neutral s s.
Proof. intros j. reflexivity. Qed.

Lemma dirs_neutral ds s :
  (∀ k, is_key k → fs_path self k ∉ ds) → (∀ p, p ∈ ds → fs_entries s !! p = None) → neutral s (with_dirs (ds ∪.) s).
Proof.
  intros Hd He j. split; simpl; eauto; [|set_solver].
  intros [Io Il It Id Ix Ir]. split; simpl; eauto; [|set_solver..]. intros k Hk. rewrite not_elem_of_union. eauto.
Qed.

Lemma flush_neutral d s : neutral s (flushed d s).
Proof.
  intros j. split; simpl; eauto.
  intros [Io Il It Id Ix Ir]. split; simpl; eauto. intros k i Hk [Hp|Hp].
  - apply (Io k); [done|]. by left.
  - apply (Io k); [done|]. right. simpl in Hp. destruct (filter _ _ !! _) as [l|] eqn:El; simpl in Hp.
    + apply map_lookup_filter_Some in El as [El _]. by rewrite El.
    + by apply not_elem_of_nil in Hp.
Qed.

Lemma lock_neutral me i s : fs_locks s !! i = None → neutral s (with_locks <[i := me]> s).
Proof.
  intros Hl j. split; simpl; eauto.
  - intros [Io Il It Id Ix Ir]. by split.
  - intros l Hj. rewrite lookup_insert_ne; [done|]. congruence.
Qed.

Lemma release_guar me i s : fs_guar me s (with_locks (release me i) s).
Proof.
  intros j Hj. split; simpl; eauto.
  - intros [Io Il It Id Ix Ir]. by split.
  - intros l Hl. unfold release. case_bool_decide; [|done]. rewrite lookup_delete_ne; [done|]. congruence.
Qed.

Lemma release_entries me i s p : fs_entries (with_locks (release me i) s) !! p = fs_entries s !! p.
Proof. done. Qed.

(** The time of a file. *)
Lemma touch_neutral i n t s :
  fs_inodes s !! i = Some n → fs_temps s !! i = None →
  neutral s (with_inodes <[i := {| in_bytes := in_bytes n; in_synced := in_synced n; in_modified := t |}]> s).
Proof.
  intros Hn Ht j. split; simpl; eauto.
  - intros [Io Il It Id Ix Ir]. split; simpl; eauto.
    + intros k i' Hk Hp. destruct (Io k i' Hk Hp) as (n' & Hn' & Hs & Ht'). destruct (decide (i' = i)) as [->|].
      * rewrite lookup_insert_eq. simplify_eq. eauto.
      * rewrite lookup_insert_ne by done. eauto.
    + intros i' He. destruct (Il i' He). split; [|done]. by apply lookup_insert_is_Some'; right.
    + intros i' j' He. apply lookup_insert_is_Some'; right. eauto.
  - intros i' n' Hn' Ht'. destruct (decide (i' = i)) as [->|].
    + rewrite lookup_insert_eq. simplify_eq. eauto.
    + rewrite lookup_insert_ne by done. eauto.
  - intros i' Ht'. split; [done|]. rewrite lookup_insert_ne; [done|]. congruence.
Qed.

(** The content of a temporary file of [me]. *)
Lemma temp_inode_guar me i n' s :
  fs_temps s !! i = Some me → fs_guar me s (with_inodes <[i := n']> s).
Proof.
  intros Ht j Hj. split; simpl; eauto.
  - intros [Io Il It Id Ix Ir]. split; simpl; eauto.
    + intros k i' Hk Hp. destruct (Io k i' Hk Hp) as (m & Hm & Hs & Ht'). rewrite lookup_insert_ne by congruence. eauto.
    + intros i' He. destruct (Il i' He). split; [|done]. by apply lookup_insert_is_Some'; right.
    + intros i' j' He. apply lookup_insert_is_Some'; right. eauto.
  - intros i' m Hm Ht'. rewrite lookup_insert_ne by congruence. eauto.
  - intros i' Ht'. split; [done|]. rewrite lookup_insert_ne; [done|]. congruence.
Qed.

(** A new file, at the lock's path or under a temporary name. *)
Lemma new_inode_inv i n s : fs_inodes s !! i = None → fs_inv s → fs_inv (with_inodes <[i := n]> s).
Proof.
  intros Hn [Io Il It Id Ix Ir]. split; simpl; eauto.
  - intros k i' Hk Hp. destruct (Io k i' Hk Hp) as (m & Hm & Hs & Ht). rewrite lookup_insert_ne by congruence. eauto.
  - intros i' He. destruct (Il i' He). split; [|done]. by apply lookup_insert_is_Some'; right.
  - intros i' j' He. apply lookup_insert_is_Some'; right. eauto.
Qed.

Lemma new_inode_other i n s i' (n' : Inode) :
  fs_inodes s !! i = None → fs_inodes s !! i' = Some n' → <[i := n]> (fs_inodes s) !! i' = Some n'.
Proof. intros Hi Hi'. rewrite lookup_insert_ne; [done|]. congruence. Qed.

Lemma create_lock_neutral i n s :
  fs_inv s → ¬ visible (lock_path self) s → fs_inodes s !! i = None →
  neutral s (set_entry (lock_path self) (Some i) (with_inodes <[i := n]> s)).
Proof.
  intros Hinv Hv Hi j.
  assert (fs_entries s !! lock_path self = None) as Hnone.
  { apply eq_None_not_Some. intros Hs. apply Hv. by left. }
  assert (fs_temps s !! i = None) as Htemp.
  { apply eq_None_not_Some. intros [j' Hj]. destruct (iv_temps _ Hinv i j' Hj). congruence. }
  split.
  - intros _. pose proof (new_inode_inv i n s Hi Hinv) as [Io Il It Id Ix Ir]. split; [|simpl..]; eauto.
    + intros k i' Hk Hp. apply possible_set_ne in Hp; [|by apply fs_path_not_lock]. by apply (Io k).
    + intros i' He. rewrite lookup_partial_alter_eq in He. simplify_eq. rewrite lookup_insert_eq. eauto.
    + intros p Hp. rewrite lookup_partial_alter_ne; [by apply Ix|]. intros <-. apply Hv. by right.
  - simpl. intros i' n' Hn' Ht'. rewrite (new_inode_other _ _ _ _ n') by done. eauto.
  - simpl. intros i' Ht'. split; [done|]. destruct (iv_temps _ Hinv _ _ Ht') as [m Hm].
    rewrite (new_inode_other _ _ _ _ m) by done. done.
  - done.
  - intros l Hl. congruence.
  - done.
  - intros l k _ Hl. congruence.
Qed.

Lemma new_temp_neutral me i p n s :
  fs_inv s → is_tmp p = true → ¬ visible p s → fs_inodes s !! i = None →
  neutral s (with_temps <[i := me]> (set_entry p (Some i) (with_inodes <[i := n]> s))).
Proof.
  intros Hinv Hp Hv Hi j.
  assert (∀ i' j', fs_temps s !! i' = Some j' → i' ≠ i) as Hne.
  { intros i' j' Hj ->. destruct (iv_temps _ Hinv i j' Hj). congruence. }
  assert (fs_temps s !! i = None) as Htemp.
  { apply eq_None_not_Some. intros [j' Hj]. by eapply Hne. }
  split.
  - intros _. pose proof (new_inode_inv i n s Hi Hinv) as [Io Il It Id Ix Ir]. split.
    + intros k i' Hk Hq. simpl. change (possible (fs_path self k) (set_entry p (Some i) (with_inodes <[i:=n]> s)) (Some i')) in Hq.
      apply possible_set_ne in Hq; [|by apply key_ne_tmp].
      destruct (iv_objects _ Hinv k i' Hk Hq) as (m & Hm & Hs & Ht).
      rewrite (new_inode_other _ _ _ _ m) by done. rewrite lookup_insert_ne by congruence. eauto.
    + simpl. intros i' He. rewrite lookup_partial_alter_ne in He by (apply not_eq_sym; by apply lock_ne_tmp).
      destruct (Il i' He) as [Hs Ht]. split; [done|]. destruct (iv_lock _ Hinv i' He) as [[m Hm] _].
      rewrite lookup_insert_ne by congruence. done.
    + simpl. intros i' j' He. destruct (decide (i' = i)) as [->|]; [rewrite lookup_insert_eq; eauto|].
      rewrite lookup_insert_ne in He by done. eauto.
    + simpl. eauto.
    + simpl. intros q Hq. rewrite lookup_partial_alter_ne; [by apply Ix|]. intros <-. apply Hv. by right.
    + done.
  - simpl. intros i' n' Hn' Ht'. rewrite (new_inode_other _ _ _ _ n') by done. rewrite lookup_insert_ne by congruence. eauto.
  - simpl. intros i' Ht'. pose proof (Hne _ _ Ht'). rewrite !lookup_insert_ne by done. done.
  - done.
  - simpl. intros l Hl. rewrite lookup_partial_alter_ne; [done|]. apply not_eq_sym. by apply lock_ne_tmp.
  - done.
  - simpl. intros l k Hk _ _. rewrite lookup_partial_alter_ne; [done|]. apply not_eq_sym.
    apply key_ne_tmp; [|done]. unfold is_key. by rewrite Hk.
Qed.

(** The end of a temporary file of [me]: it is dropped, or it becomes [p]. *)
Lemma temp_gone_inv i s :
  (∀ k, is_key k → possible (fs_path self k) s (Some i) → ∃ n, fs_inodes s !! i = Some n ∧ in_synced n = true) →
  (∀ k i', is_key k → i' ≠ i → possible (fs_path self k) s (Some i') →
     ∃ n, fs_inodes s !! i' = Some n ∧ in_synced n = true ∧ fs_temps s !! i' = None) →
  (∀ i', fs_entries s !! lock_path self = Some i' → is_Some (fs_inodes s !! i') ∧ (i' = i ∨ fs_temps s !! i' = None)) →
  (∀ i' j, fs_temps s !! i' = Some j → is_Some (fs_inodes s !! i')) →
  (∀ k, is_key k → fs_path self k ∉ fs_dirs s) → (∀ p, p ∈ fs_dirs s → fs_entries s !! p = None) →
  fa_root self ∈ fs_dirs s → fs_inv (with_temps (delete i) s).
Proof.
  intros Hi Ho Hl Ht Hd Hx Hr. split; simpl; try done.
  - intros k i' Hk Hp. destruct (decide (i' = i)) as [->|Hne].
    + destruct (Hi k Hk Hp) as (n & Hn & Hs). rewrite lookup_delete_eq. eauto.
    + destruct (Ho k i' Hk Hne Hp) as (n & Hn & Hs & Hz). rewrite lookup_delete_ne by done. eauto.
  - intros i' He. destruct (Hl i' He) as [Hs [->|Hz]]; (split; [done|]); [by rewrite lookup_delete_eq|].
    destruct (decide (i' = i)) as [->|]; [by rewrite lookup_delete_eq|by rewrite lookup_delete_ne].
  - intros i' j Hj. apply lookup_delete_Some in Hj as [_ Hj]. eauto.
Qed.

Lemma drop_temp_guar me t s :
  fs_temps s !! nt_inode t = Some me → is_tmp (nt_path t) = true →
  fs_guar me s (with_temps (delete (nt_inode t)) (set_entry (nt_path t) None s)).
Proof.
  intros Ht Hp j Hj. split.
  - intros Hinv. apply temp_gone_inv.
    + intros k Hk Hq. apply possible_set_ne in Hq; [|by apply key_ne_tmp].
      destruct (iv_objects _ Hinv k _ Hk Hq) as (n & Hn & Hs & Hz). congruence.
    + intros k i' Hk Hne Hq. apply possible_set_ne in Hq; [|by apply key_ne_tmp]. by apply (iv_objects _ Hinv k).
    + simpl. intros i' He. rewrite lookup_partial_alter_ne in He by (apply not_eq_sym; by apply lock_ne_tmp).
      destruct (iv_lock _ Hinv i' He). eauto.
    + simpl. apply (iv_temps _ Hinv).
    + simpl. apply (iv_dirs _ Hinv).
    + intros p Hq. destruct (decide (p = nt_path t)) as [->|]; [apply set_entry_eq|].
      rewrite set_entry_ne by done. by apply (iv_disjoint _ Hinv).
    + apply (iv_root _ Hinv).
  - simpl. intros i' n Hn Hz. rewrite lookup_delete_ne by congruence. eauto.
  - simpl. intros i' Hz. rewrite lookup_delete_ne by congruence. done.
  - done.
  - simpl. intros l Hl. rewrite lookup_partial_alter_ne; [done|]. apply not_eq_sym. by apply lock_ne_tmp.
  - done.
  - simpl. intros l k Hk _ _. rewrite lookup_partial_alter_ne; [done|]. apply not_eq_sym.
    apply key_ne_tmp; [|done]. unfold is_key. by rewrite Hk.
Qed.

(** [me] may replace the object at [k]: it is immutable, or [me] holds the lock. *)
Definition may_write (me : nat) (k : string) (s : FsState) : Prop :=
  immutable k = true ∨ ∃ l, fs_entries s !! lock_path self = Some l ∧ fs_locks s !! l = Some me.

Lemma may_write_other me k k' l j s :
  is_key k → may_write me k s → j ≠ me → mutable k' = true →
  fs_entries s !! lock_path self = Some l → fs_locks s !! l = Some j → fs_path self k' ≠ fs_path self k.
Proof.
  intros Hk [Hi|(l' & Hl' & Hm)] Hj Hk' Hl Hlj E; [|congruence].
  apply fs_path_inj in E as ->; [|unfold is_key; by rewrite Hk'|done]. apply keys_disjoint in Hk'. congruence.
Qed.

Definition persisted (t : NamedTempFile) (p : path) (s : FsState) : FsState :=
  with_temps (delete (nt_inode t)) (set_entry p (Some (nt_inode t)) (set_entry (nt_path t) None s)).

Lemma persisted_entries t k s q :
  q ≠ nt_path t → fs_entries (persisted t (fs_path self k) s) !! q =
    if decide (q = fs_path self k) then Some (nt_inode t) else fs_entries s !! q.
Proof.
  intros Hq. unfold persisted. cbn [with_temps fs_entries]. case_decide as E; [subst; apply set_entry_eq|].
  by rewrite !set_entry_ne.
Qed.

Lemma persist_guar me t k n s :
  is_key k → may_write me k s → is_tmp (nt_path t) = true → fs_temps s !! nt_inode t = Some me →
  fs_inodes s !! nt_inode t = Some n → in_synced n = true → fs_guar me s (persisted t (fs_path self k) s).
Proof.
  intros Hk Hw Hp Ht Hn Hs j Hj.
  assert (∀ q, is_tmp q = false → q ≠ nt_path t) as Htmp by (intros q Hq ->; congruence).
  assert (∀ k' i', is_key k' → possible (fs_path self k') (set_entry (fs_path self k) (Some (nt_inode t)) (set_entry (nt_path t) None s)) (Some i') →
    i' = nt_inode t ∨ possible (fs_path self k') s (Some i')) as Hposs.
  { intros k' i' Hk' Hq. destruct (decide (fs_path self k' = fs_path self k)) as [E|E].
    - rewrite E in *. apply possible_set_eq in Hq as [[= ->]|Hq]; [by left|right].
      apply possible_set_ne in Hq; [done|by apply key_ne_tmp].
    - right. apply possible_set_ne in Hq; [|done]. apply possible_set_ne in Hq; [done|by apply key_ne_tmp]. }
  split.
  - intros Hinv. apply temp_gone_inv.
    + intros k' Hk' _. simpl. eauto.
    + intros k' i' Hk' Hne Hq. destruct (Hposs k' i' Hk' Hq) as [|Hq']; [done|]. by apply (iv_objects _ Hinv k').
    + intros i' He. rewrite set_entry_ne in He by (apply not_eq_sym; by apply fs_path_not_lock).
      rewrite set_entry_ne in He by (by apply lock_ne_tmp). destruct (iv_lock _ Hinv i' He). eauto.
    + simpl. apply (iv_temps _ Hinv).
    + simpl. apply (iv_dirs _ Hinv).
    + intros p Hq. rewrite set_entry_ne by (intros ->; by apply (iv_dirs _ Hinv k Hk)).
      destruct (decide (p = nt_path t)) as [->|]; [apply set_entry_eq|].
      rewrite set_entry_ne by done. by apply (iv_disjoint _ Hinv).
    + apply (iv_root _ Hinv).
  - simpl. intros i' n' Hn' Hz. rewrite lookup_delete_ne by congruence. eauto.
  - simpl. intros i' Hz. rewrite lookup_delete_ne by congruence. done.
  - done.
  - intros l Hl. rewrite persisted_entries by (by apply lock_ne_tmp). rewrite decide_False; [done|].
    apply not_eq_sym. by apply fs_path_not_lock.
  - done.
  - intros l k' Hk' Hl Hlj. assert (is_key k') as Hkey by (unfold is_key; by rewrite Hk').
    rewrite persisted_entries by (by apply key_ne_tmp). rewrite decide_False; [done|].
    by eapply may_write_other.
Qed.

Lemma persist_contents t k n s :
  fs_inv s → is_key k → is_tmp (nt_path t) = true → fs_inodes s !! nt_inode t = Some n →
  updated k (Some (in_bytes n, Some (hash_to_string (digest (in_bytes n))))) (fs_contents s)
    (fs_contents (persisted t (fs_path self k) s)).
Proof.
  intros Hinv Hk Hp Hn. split.
  - rewrite contents_at_key by done. unfold file_at. rewrite persisted_entries by (by apply key_ne_tmp).
    rewrite decide_True by done. simpl. by rewrite Hn.
  - intros k' Hne. unfold fs_contents. case_decide as Hk'; [|done]. unfold file_at.
    rewrite persisted_entries by (by apply key_ne_tmp). rewrite decide_False; [done|].
    intros E. by apply fs_path_inj in E.
Qed.

Lemma remove_neutral k s : immutable k = true → neutral s (set_entry (fs_path self k) None s).
Proof.
  intros Hk j. assert (is_key k) as Hkey by (unfold is_key; rewrite Hk; apply orb_true_r).
  split; [|simpl; by eauto| simpl; by eauto|done| |done|].
  - intros Hinv. pose proof Hinv as [Io Il It Id Ix Ir]. split; [| |done|done| |done].
    + intros k' i Hk' Hp. destruct (decide (fs_path self k' = fs_path self k)) as [E|E].
      * rewrite E in Hp. apply possible_set_eq in Hp as [|Hp]; [done|]. by apply (Io k).
      * apply possible_set_ne in Hp; [|done]. by apply (Io k').
    + intros i He. rewrite set_entry_ne in He by (apply not_eq_sym; by apply fs_path_not_lock). by apply Il.
    + intros p Hp. rewrite set_entry_ne; [by apply Ix|]. intros ->. by eapply Id.
  - intros l Hl. rewrite set_entry_ne; [done|]. apply not_eq_sym. by apply fs_path_not_lock.
  - intros l k' Hk' _ _. rewrite set_entry_ne; [done|]. intros E.
    apply fs_path_inj in E as ->; [|unfold is_key; by rewrite Hk'|done]. apply keys_disjoint in Hk'. congruence.
Qed.
Lemma remove_contents k s : is_key k → updated k None (fs_contents s) (fs_contents (set_entry (fs_path self k) None s)).
Proof.
  intros Hk. split.
  - rewrite contents_at_key by done. unfold file_at. by rewrite set_entry_eq.
  - intros k' Hne. unfold fs_contents. case_decide as Hk'; [|done]. unfold file_at. rewrite set_entry_ne; [done|].
    intros E. by apply fs_path_inj in E.
Qed.
End facts.
