(* ===== verification/FsLinear.v ===== *)
(** * The file-system back end implements the store

    [calm P p R]: from a state that satisfies [P], whatever the other processes do,
    the program [p] changes no object, keeps its guarantees, and ends in [R] (which
    may look at the steps that were made).  All of a store operation but the
    renaming of a file and the deletion of one is such a program. *)

From stdpp Require Import pretty relations gmap.
From S2P Require Import Prelude Bytes Text Externals Hash RelyGuarantee Store StoreContract ObjectStore ObjectStoreFacts FsStore FsModel FsFacts.
From Stdlib Require Import Lia ZArith Strings.Ascii.

Section linear.
Context `{Sha256, Hex} (self : FsArchiveStore) (mutable immutable : string → bool) {HK : FsKeys mutable immutable} (me : nat).

Abbreviation contents_of := (fs_contents self mutable immutable).
Abbreviation inv := (fs_inv self mutable immutable).
Abbreviation rely := (fs_rely self mutable immutable me).
Abbreviation guar := (fs_guar self mutable immutable me).
Abbreviation key := (is_key mutable immutable).
Abbreviation trace := (list (FsState * FsState)).

Definition still (tr : trace) : Prop := Forall (λ t, contents_of t.2 ≡ contents_of t.1) tr.
Definition stable (P : FsState → Prop) : Prop := ∀ s s', inv s → P s → rely s s' → P s'.

Definition calm {A} (P : FsState → Prop) (p : prog fsE A) (R : trace → A → FsState → Prop) : Prop :=
  ∀ tr s, inv s → P s →
    rg (fs_step me) rely guar (λ tr' a s', ∃ tr1, tr' = tr ++ tr1 ∧ still tr1 ∧ inv s' ∧ R tr1 a s') p tr s.

Lemma guar_keeps_inv s s' : guar s s' → inv s → inv s'.
Proof. intros Hg. apply (rl_inv _ _ _ (S me) s s'). apply Hg. lia. Qed.

Lemma calm_ret {A} (a : A) P R : stable P → (∀ s, P s → R [] a s) → calm P (Ret a) R.
Proof.
  intros Hp Hr tr s Hi Hs s' Hrely. exists []. rewrite app_nil_r. split_and!; [done|constructor|by eapply rl_inv|].
  apply Hr. by eapply Hp.
Qed.

Lemma calm_bind {A B} (p : prog fsE A) (f : A → prog fsE B) P R T :
  calm P p R → (∀ a tr1, calm (R tr1 a) (f a) (λ tr2, T (tr1 ++ tr2))) → calm P (bind p f) T.
Proof.
  intros Hp Hf tr s Hi Hs. apply rg_bind; [apply _|]. eapply rg_weaken; [done| |by apply Hp].
  intros tr' a s' (tr1 & -> & Hq & Hi' & Hr). eapply rg_weaken; [done| |by apply Hf].
  intros tr'' b s'' (tr2 & -> & Hq2 & Hi2 & Ht). exists (tr1 ++ tr2). rewrite app_assoc.
  split_and!; [done|by apply Forall_app|done|done].
Qed.

Lemma calm_vis {A X} (e : fsE X) (k : X → prog fsE A) P R (T : FsState → FsState → X → FsState → Prop) :
  stable P →
  (∀ s x s', inv s → P s → fs_step me X e s x s' → guar s s' ∧ contents_of s' ≡ contents_of s ∧ T s s' x s') →
  (∀ x s1 s2, calm (T s1 s2 x) (k x) (λ tr, R ((s1, s2) :: tr))) → calm P (Vis e k) R.
Proof.
  intros Hp He Hk tr s Hi Hs s1 x s2 Hr Hx.
  assert (inv s1) as Hi1 by (by eapply rl_inv). destruct (He s1 x s2) as (Hg & Hc & Ht); [done|by apply (Hp s s1)|done|].
  split; [done|]. eapply rg_weaken; [done| |by apply (Hk x s1 s2); [by eapply guar_keeps_inv|]].
  intros tr' a s' (tr1 & -> & Hq & Hi' & Hra). exists ((s1, s2) :: tr1). rewrite <-app_assoc.
  split_and!; [done|by constructor|done|done].
Qed.

Lemma calm_weaken {A} (p : prog fsE A) (P P' : FsState → Prop) (R R' : trace → A → FsState → Prop) :
  calm P p R → (∀ s, P' s → P s) → (∀ tr a s, R tr a s → R' tr a s) → calm P' p R'.
Proof.
  intros Hp HP HR tr s Hi Hs. eapply rg_weaken; [done| |by apply Hp; auto].
  intros tr' a s' (tr1 & -> & Hq & Hi' & Hr). exists tr1. eauto.
Qed.

(** A call that the process may take for a step of the others. *)
Lemma calm_neutral {A X} (e : fsE X) (k : X → prog fsE A) (P : FsState → Prop) (R : trace → A → FsState → Prop)
    (T : FsState → FsState → X → FsState → Prop) :
  stable P →
  (∀ s x s', inv s → P s → fs_step me X e s x s' → neutral self mutable immutable s s' ∧
     (∀ k, key k → fs_entries s' !! fs_path self k = fs_entries s !! fs_path self k) ∧ T s s' x s') →
  (∀ x s1 s2, calm (λ s, P s ∧ T s1 s2 x s) (k x) (λ tr, R ((s1, s2) :: tr))) → calm P (Vis e k) R.
Proof.
  intros Hp He Hk. eapply calm_vis; [done| |exact Hk]. intros s x s' Hi Hs Hx.
  destruct (He s x s' Hi Hs Hx) as (Hn & Hent & Ht).
  split; [by apply neutral_guar|]. split; [by eapply (same_contents _ _ _ me)|]. split; [|done].
  eapply Hp; [exact Hi|done|apply Hn].
Qed.

(** A call that only reads. *)
Lemma calm_read {A X} (e : fsE X) (k : X → prog fsE A) (P : FsState → Prop) (R : trace → A → FsState → Prop)
    (T : FsState → X → FsState → Prop) :
  stable P →
  (∀ s x s', inv s → P s → fs_step me X e s x s' → s' = s ∧ T s x s) →
  (∀ x s1, calm (λ s, P s ∧ T s1 x s) (k x) (λ tr, R ((s1, s1) :: tr))) → calm P (Vis e k) R.
Proof.
  intros Hp He Hk. eapply (calm_neutral e k P R (λ s s' x s'', s' = s ∧ T s x s'')); [done| |].
  - intros s x s' Hi Hs Hx. destruct (He s x s' Hi Hs Hx) as [-> Ht]. split; [apply neutral_refl|done].
  - intros x s1 s2 tr s Hi (Hs & -> & Ht). by apply Hk.
Qed.

Lemma stable_and P Q : stable P → stable Q → stable (λ s, P s ∧ Q s).
Proof. intros Hp Hq s s' Hi [H1 H2] Hr. split; eauto. Qed.
Lemma stable_true : stable (λ _, True).
Proof. by intros s s'. Qed.
Lemma stable_pure (φ : Prop) : stable (λ _, φ).
Proof. by intros s s'. Qed.
Lemma stable_dir d : stable (λ s, d ∈ fs_dirs s).
Proof. intros s s' _ Hd Hr. by apply (rl_dirs _ _ _ _ _ _ Hr). Qed.
#[local] Hint Resolve stable_and stable_true stable_pure stable_dir : core.

(** [let!] in a program that keeps [P]. *)
Lemma calm_try {A B} (p : prog fsE (result A)) (f : A → prog fsE (result B)) (P : FsState → Prop) (R : trace → result A → FsState → Prop)
    (T : trace → result B → FsState → Prop) :
  calm P p R → (∀ a tr1, calm (R tr1 (Ok a)) (f a) (λ tr2, T (tr1 ++ tr2))) →
  (∀ e tr1, stable (R tr1 (Err e))) → (∀ e tr1 s, R tr1 (Err e) s → T tr1 (Err e) s) →
  calm P (let! x := p in f x) T.
Proof.
  intros Hp Hf Hs He. eapply calm_bind; [done|]. intros [a|e] tr1; [apply Hf|].
  apply calm_ret; [done|]. intros s Hr. rewrite app_nil_r. by apply He.
Qed.

Lemma calm_keep_try {A B} (p : prog fsE (result A)) (f : A → prog fsE (result B)) (P : FsState → Prop) :
  stable P → calm P p (λ _ _, P) → (∀ a, calm P (f a) (λ _ _, P)) → calm P (let! x := p in f x) (λ _ _, P).
Proof. intros Hs Hp Hf. eapply calm_try; [exact Hp|by intros; apply Hf|done|done]. Qed.

(** ** Flushing and creating directories *)

Lemma sync_directory_calm d P : stable P → (∀ s, P s → d ∈ fs_dirs s) → calm P (sync_directory d) (λ _ _, P).
Proof.
  intros Hs Hd. unfold sync_directory.
  eapply (calm_read _ _ _ _ (λ _ x _, x = inl (HDir d) ∨ ∃ e, x = inr e)); [done| |].
  { intros s x s' Hi Hp [-> Hx]. split; [done|]. destruct x as [[i|q]|e]; [|destruct Hx as [-> _]; by left|by right; eexists].
    specialize (iv_disjoint _ _ _ _ Hi d (Hd s Hp)). congruence. }
  intros x s1. assert (stable (λ s, P s ∧ (x = inl (HDir d) ∨ ∃ e, x = inr e))) as Hs' by auto.
  destruct x as [[i|q]|e]; simpl.
  - intros tr s _ [_ [?|[? ?]]]; done.
  - eapply (calm_neutral _ _ _ _ (λ _ _ _ _, True)); [done| |].
    + intros s x s' Hi [Hp [[= ->]|[? ?]]] Hx; [|done]. destruct Hx as [[_ ->]|[_ ->]].
      * split; [apply neutral_refl|done].
      * split; [apply flush_neutral|done].
    + intros x s2 s3. apply calm_ret; [auto|]. by intros s [[? _] _].
  - apply calm_ret; [auto|]. by intros s [? _].
Qed.

Lemma sync_components_calm d rest P :
  stable P → (∀ s n, P s → d ++ take n rest ∈ fs_dirs s) → calm P (sync_components d rest) (λ _ _, P).
Proof.
  intros Hs. revert d. induction rest as [|c rest IH]; intros d Hd; cbn [sync_components]; [by apply calm_ret|].
  apply calm_keep_try; [done| |].
  - apply sync_directory_calm; [done|]. intros s Hp. specialize (Hd s 1 Hp). simpl in Hd. by rewrite take_0 in Hd.
  - intros _. apply IH. intros s n Hp. rewrite <-app_assoc. apply (Hd s (S n) Hp).
Qed.

(** The directories on the way to the object of a key. *)
Definition dirs_ready (k : string) (s : FsState) : Prop :=
  ∀ parent, path_parent (fs_path self k) = Some parent → ancestors parent ⊆ fs_dirs s.
Lemma stable_dirs_ready k : stable (dirs_ready k).
Proof. intros s s' _ Hd Hr parent Hp. etrans; [by apply Hd|]. by eapply rl_dirs. Qed.
#[local] Hint Resolve stable_dirs_ready : core.

Lemma ancestors_take n p : take n p ∈ ancestors p.
Proof.
  unfold ancestors. apply elem_of_list_to_set, list_elem_of_fmap. destruct (decide (n ≤ length p)).
  - exists n. split; [done|]. apply elem_of_seq. lia.
  - exists (length p). rewrite !take_ge by lia. split; [done|]. apply elem_of_seq. lia.
Qed.

(** The parent of an object, below the root. *)
Lemma parent_of_key k : key k → ∃ relative, path_parent (fs_path self k) = Some (fa_root self ++ relative).
Proof.
  intros Hk. rewrite (fs_path_key self mutable immutable) by done. destruct (split_on_join "/" k) as [Hne _].
  destruct (split_on "/" k) as [|x l _] using rev_ind; [done|]. exists l. rewrite app_assoc. unfold path_parent.
  rewrite removelast_last. by destruct ((fa_root self ++ l) ++ [x]) eqn:E; [destruct (fa_root self ++ l)|].
Qed.
Lemma path_strip_app a b : path_strip a (a ++ b) = Some b.
Proof. induction a as [|x a IH]; [done|]. simpl. by rewrite bool_decide_eq_true_2. Qed.

Lemma sync_path_calm k P :
  key k → stable P → (∀ s, P s → dirs_ready k s) → calm P (sync_path_directories self (fs_path self k)) (λ _ _, P).
Proof.
  intros Hk Hs Hd. unfold sync_path_directories. destruct (parent_of_key k Hk) as [relative Hp]. rewrite Hp. cbn [ok_or].
  rewrite path_strip_app. cbn [ok_or with_context].
  assert (∀ s n, P s → fa_root self ++ take n relative ∈ fs_dirs s) as Hin.
  { intros s n HP. apply (Hd s HP _ Hp).
    replace (fa_root self ++ take n relative) with (take (length (fa_root self) + n) (fa_root self ++ relative)).
    - apply ancestors_take.
    - rewrite take_app. f_equal; [by apply take_ge; lia|]. f_equal. lia. }
  apply calm_keep_try; [done| |by intros _; apply sync_components_calm].
  apply sync_directory_calm; [done|]. intros s HP. specialize (Hin s 0 HP). by rewrite take_0, app_nil_r in Hin.
Qed.

Lemma create_parent_calm k P :
  key k → stable P → calm P (create_parent_directories self (fs_path self k))
    (λ _ r s, P s ∧ (r = Ok tt → dirs_ready k s)).
Proof.
  intros Hk Hs. unfold create_parent_directories. destruct (parent_of_key k Hk) as [relative Hp]. rewrite Hp. cbn [ok_or].
  eapply (calm_neutral _ _ _ _ (λ _ _ x s, x = inl tt → dirs_ready k s)); [done| |].
  - intros s x s' Hi HP (ds & Hds & -> & Hx & He). split; [|split; [done|]].
    + apply (dirs_neutral self mutable immutable); [|exact He]. intros k' Hk' Hin.
      by apply (key_not_ancestor self _ _ k' k _ Hk' Hk Hp), Hds.
    + intros Hok parent Hpar. rewrite Hp in Hpar. simplify_eq. auto.
  - intros x s1 s2. assert (stable (λ s, P s ∧ (x = inl tt → dirs_ready k s))) as Hs'.
    { apply stable_and; [done|]. intros s s' Hi Hd Hr Hx. by eapply stable_dirs_ready; eauto. }
    destruct x as [[]|e]; cbn [io_lift bind].
    + eapply calm_weaken; [apply (sync_path_calm k (λ s, P s ∧ dirs_ready k s)); [done|auto|by intros s [_ ?]]|..].
      * intros s [? Hd]. auto.
      * intros _ r s [? ?]. auto.
    + apply calm_ret; [done|]. by intros s [? ?].
Qed.

(** ** Temporary files *)

(** Only temporary files change. *)
Record temp_change (s s' : FsState) : Prop := {
  tc_locks : fs_locks s' = fs_locks s;
  tc_dirs : fs_dirs s' = fs_dirs s;
  tc_entries p : is_tmp p = false → fs_entries s' !! p = fs_entries s !! p;
  tc_files i n : fs_inodes s !! i = Some n → fs_temps s !! i = None → fs_inodes s' !! i = Some n ∧ fs_temps s' !! i = None
}.
Definition insensitive (P : FsState → Prop) : Prop := ∀ s s', P s → temp_change s s' → P s'.

(** A temporary file of this process whose content satisfies [Φ]. *)
Definition holds_temp (t : NamedTempFile) (Φ : Inode → Prop) (s : FsState) : Prop :=
  is_tmp (nt_path t) = true ∧ fs_temps s !! nt_inode t = Some me ∧ ∃ n, fs_inodes s !! nt_inode t = Some n ∧ Φ n.
Lemma stable_holds t Φ : stable (holds_temp t Φ).
Proof.
  intros s s' _ (Hp & Ht & n & Hn & Hf) Hr. destruct (rl_temps _ _ _ _ _ _ Hr _ Ht) as [Ht' Hn'].
  split; [done|]. split; [done|]. exists n. by rewrite Hn', Hn.
Qed.
#[local] Hint Resolve stable_holds : core.

Lemma tmp_entries_same s s' :
  (∀ p, is_tmp p = false → fs_entries s' !! p = fs_entries s !! p) →
  ∀ k, key k → fs_entries s' !! fs_path self k = fs_entries s !! fs_path self k.
Proof. intros He k Hk. apply He. by eapply fs_path_not_tmp. Qed.

(** A call on a temporary file of this process. *)
Lemma calm_temp {A X} t (e : fsE X) (k : X → prog fsE A) (P : FsState → Prop) Φ (R : trace → A → FsState → Prop)
    (T : X → FsState → Prop) :
  stable P → insensitive P →
  (∀ s x s', inv s → holds_temp t Φ s → fs_step me X e s x s' → temp_change s s' ∧ guar s s' ∧ T x s') →
  (∀ x s1 s2, calm (λ s, P s ∧ T x s) (k x) (λ tr, R ((s1, s2) :: tr))) →
  calm (λ s, P s ∧ holds_temp t Φ s) (Vis e k) R.
Proof.
  intros Hs Hin He Hk. eapply (calm_vis _ _ _ _ (λ _ _ x s, P s ∧ T x s)); [auto| |by intros; apply Hk].
  intros s x s' Hi [HP Ht] Hx. destruct (He s x s' Hi Ht Hx) as (Hc & Hg & HT). split; [done|]. split.
  - eapply (same_contents _ _ _ (S me)); [done|apply Hg; lia|apply tmp_entries_same, Hc].
  - split; [by eapply Hin|done].
Qed.

(** Dropping the file. *)
Lemma drop_calm {A} t (a : A) P Φ :
  stable P → insensitive P → calm (λ s, P s ∧ holds_temp t Φ s) (Vis (FDropTemp t) (λ _, Ret a)) (λ _ r s, r = a ∧ P s).
Proof.
  intros Hs Hin. eapply (calm_temp t _ _ P Φ _ (λ _ _, True)); [done|done| |].
  - intros s x s' Hi (Hp & Ht & n & Hn & _) [->| ->].
    + split_and!; [|by apply drop_temp_guar|done]. split; [done|done| |].
      * intros p Hne. cbn [with_temps fs_entries]. apply set_entry_ne. congruence.
      * intros i m Hm Hz. split; [done|]. simpl. rewrite lookup_delete_ne; [done|]. congruence.
    + split_and!; [by split|apply neutral_guar, neutral_refl|done].
  - intros x s1 s2. apply calm_ret; [auto|]. by intros s [? _].
Qed.

Lemma temp_inode_step t Φ n' s :
  holds_temp t Φ s → guar s (with_inodes <[nt_inode t := n']> s) ∧ temp_change s (with_inodes <[nt_inode t := n']> s) ∧
    ∀ Ψ : Inode → Prop, Ψ n' → holds_temp t Ψ (with_inodes <[nt_inode t := n']> s).
Proof.
  intros (Hp & Ht & n & Hn & _). split; [by apply temp_inode_guar|]. split.
  { split; try done. intros i m Hm Hz. split; [|done]. simpl. rewrite lookup_insert_ne; [done|]. congruence. }
  intros Ψ HΨ. split; [done|]. split; [done|].
  simpl. rewrite lookup_insert_eq. eauto.
Qed.

(** [or_drop] on a call that gives the file the content [Ψ]. *)
Lemma or_drop_calm {B} t (e : fsE (io unit)) (k : unit → prog fsE (result B)) P Φ (Ψ : Inode → Prop) (T : result B → FsState → Prop) :
  stable P → insensitive P →
  (∀ s x s', fs_step me _ e s x s' → holds_temp t Φ s → s' = s ∧ (∃ e, x = inr e) ∨
     ∃ n', s' = with_inodes <[nt_inode t := n']> s ∧ (x = inl tt → Ψ n')) →
  (∀ e, ∀ s, P s → T (Err e) s) →
  calm (λ s, P s ∧ holds_temp t Ψ s) (k tt) (λ _, T) →
  calm (λ s, P s ∧ holds_temp t Φ s) (or_drop t e k) (λ _, T).
Proof.
  intros Hs Hin He Herr Hk. unfold or_drop.
  eapply (calm_temp t _ _ P Φ _ (λ x s, holds_temp t (λ n, x = inl tt → Ψ n) s)); [done|done| |].
  - intros s x s' Hi Ht Hx. destruct (He s x s' Hx Ht) as [[-> [e' ->]]|(n' & -> & HΨ)].
    + split_and!; [by split|apply neutral_guar, neutral_refl|].
      destruct Ht as (Hp & Ht & n & Hn & _). split; [done|]. split; [done|]. by exists n.
    + destruct (temp_inode_step t Φ n' s Ht) as (Hg & Hc & Hh). split_and!; [done..|auto].
  - intros [[]|e'] s1 s2.
    + eapply calm_weaken; [exact Hk| |done]. intros s [HP (Hp & Ht & n & Hn & Hx)]. split; [done|].
      split; [done|]. split; [done|]. exists n. auto.
    + eapply calm_weaken; [by apply (drop_calm t (Err (io_into e')) P (λ n, inr e' = inl tt → Ψ n))|done|].
      intros tr r s [-> HP]. by apply Herr.
Qed.

Definition flushed_with (b : bytes) (n : Inode) : Prop := in_bytes n = b ∧ in_synced n = true.

Lemma write_temporary_calm k b P :
  key k → stable P → insensitive P →
  calm P (write_temporary self (fs_path self k) b)
    (λ _ r s, P s ∧ ∀ t, r = Ok t → dirs_ready k s ∧ holds_temp t (flushed_with b) s).
Proof.
  intros Hk Hs Hin. unfold write_temporary.
  eapply calm_try; [by apply (create_parent_calm k P)| | |by intros e tr s [? _]].
  2: { intros e tr1. apply stable_and; [done|]. intros s s' _ _ _. done. }
  intros [] tr1. destruct (parent_of_key k Hk) as [relative Hp]. rewrite Hp. cbn [ok_or].
  assert (stable (λ s, P s ∧ dirs_ready k s)) as Hs' by auto.
  assert (insensitive (λ s, P s ∧ dirs_ready k s)) as Hin'.
  { intros s s' [HP Hd] Hc. split; [by eapply Hin|]. intros parent Hpar. rewrite (tc_dirs _ _ Hc). by apply Hd. }
  eapply (calm_weaken _ (λ s, P s ∧ dirs_ready k s)); [| |exact (λ _ _ _ H, H)]; [|intros s [HP Hd]; auto].
  eapply (calm_neutral _ _ _ _ (λ _ _ x s, ∀ t, x = inl t → holds_temp t (λ n, in_bytes n = []) s)); [done| |].
  - intros s x s' Hi HP [[[e ->] ->]|(t & name & time & -> & Hpath & Hname & Hv & Hinode & ->)].
    + split; [apply neutral_refl|]. split; [done|]. done.
    + assert (is_tmp (nt_path t) = true) as Htmp by (unfold is_tmp; by rewrite Hpath, file_name_app).
      split; [by apply new_temp_neutral|]. split.
      * intros k' Hk'. cbn [with_temps fs_entries]. rewrite set_entry_ne; [done|]. by eapply key_ne_tmp.
      * intros t' [= <-]. split; [done|]. cbn [with_temps set_entry with_inodes fs_temps fs_inodes].
        rewrite !lookup_insert_eq. split; [done|]. eauto.
  - intros [t|e] s1 s2; cbn [io_lift bind].
    + eapply (calm_weaken _ (λ s, (P s ∧ dirs_ready k s) ∧ holds_temp t (λ n, in_bytes n = []) s));
        [|intros s [? Ht]; auto|exact (λ _ _ _ H, H)].
      eapply (or_drop_calm t _ _ _ _ (λ n, in_bytes n = b)); [done|done| |intros e s [? _]; by split|].
      * intros s x s' [[[e ->] ->]|(i & n & n' & [= <-] & Hn & -> & Hx)] (_ & _ & m & Hm & Hb); [left; eauto|right].
        exists n'. split; [done|]. intros Hok. rewrite Hx by done. simplify_eq. by rewrite Hb.
      * eapply (or_drop_calm t _ _ _ _ (flushed_with b)); [done|done| |intros e s [? _]; by split|].
        -- intros s x s' [[[e ->] ->]|[-> (n & Hn & ->)]] (_ & _ & m & Hm & Hb); [left; eauto|right].
           simplify_eq. eexists. split; [done|]. done.
        -- apply calm_ret; [auto|]. intros s [[? ?] ?]. split; [done|]. intros t' [= <-]. done.
    + apply calm_ret; [|by intros s [[? _] _]]. apply stable_and; [done|]. intros s s' _ _ _. done.
Qed.

(** ** Reading *)

Definition version_of (b : bytes) : bytes * option string := (b, Some (hash_to_string (digest b))).
(** One of the steps found [o] at [k]. *)
Definition saw (k : string) (tr : trace) (o : option (bytes * option string)) : Prop :=
  ∃ s, (s, s) ∈ tr ∧ contents_of s k = o.
Definition file_is (i : nat) (b : bytes) (s : FsState) : Prop :=
  ∃ n, fs_inodes s !! i = Some n ∧ in_bytes n = b ∧ fs_temps s !! i = None.
Lemma stable_file i b : stable (file_is i b).
Proof.
  intros s s' _ (n & Hn & Hb & Ht) Hr. destruct (rl_files _ _ _ _ _ _ Hr i n Hn Ht) as (n' & Hn' & Hb' & _ & Ht').
  exists n'. split_and!; [done|congruence|done].
Qed.
#[local] Hint Resolve stable_file : core.

Lemma saw_here k s tr o : contents_of s k = o → saw k ((s, s) :: tr) o.
Proof. intros Ho. exists s. split; [by left|done]. Qed.

(** What opening the file of a key says; [Q] is what [P] says of the entry. *)
Definition opened (k : string) (P : FsState → Prop) (Q : option nat → FsState → Prop) (s1 : FsState) (x : io handle) (s : FsState) : Prop :=
  match x with
  | inl (HFile i) => Q (Some i) s ∧ ∃ b, contents_of s1 k = Some (version_of b) ∧ file_is i b s
  | inl (HDir _) => False
  | inr e => if is_not_found e then Q None s ∧ contents_of s1 k = None else P s
  end.

Lemma open_key_calm {A} k (f : io handle → prog fsE A) P Q R :
  key k → stable P → (∀ s, P s → Q (fs_entries s !! fs_path self k) s) →
  (∀ x s1, calm (λ s, P s ∧ opened k P Q s1 x s) (f x) (λ tr, R ((s1, s1) :: tr))) →
  calm P (Vis (FOpen (fs_path self k)) f) R.
Proof.
  intros Hk Hs HQ Hf. eapply (calm_read _ _ _ _ (opened k P Q)); [done| |done].
  intros s x s' Hi HP [-> Hx]. split; [done|]. specialize (HQ s HP). destruct x as [[i|q]|e]; simpl.
  - destruct (file_at_key _ _ _ k s i Hi Hk Hx) as (n & Hn & _ & Ht & Hf'). rewrite Hx in HQ. split; [done|].
    exists (in_bytes n). split; [|by exists n]. rewrite contents_at_key, Hf' by done. done.
  - destruct Hx as [_ Hd]. by apply (iv_dirs _ _ _ _ Hi k Hk).
  - destruct (is_not_found e); [|done].
    assert (fs_entries s !! fs_path self k = None) as Hn.
    { apply eq_None_not_Some. intros He. apply Hx; [done|]. by left. }
    rewrite Hn in HQ. split; [done|]. rewrite contents_at_key by done. unfold file_at. by rewrite Hn.
Qed.

Lemma read_handle_calm {A} i b limit (f : io bytes → prog fsE A) P R :
  stable P →
  (∀ x, (x = inl (match limit with None => b | Some l => take (N.to_nat l) b end) ∨ ∃ e, x = inr e ∧ is_not_found e = false) →
     ∀ s1, calm (λ s, P s ∧ file_is i b s) (f x) (λ tr, R ((s1, s1) :: tr))) →
  calm (λ s, P s ∧ file_is i b s) (Vis (FReadToEnd (HFile i) limit) f) R.
Proof.
  intros Hs Hf. eapply (calm_read _ _ _ _ (λ _ x _, x = inl (match limit with None => b | Some l => take (N.to_nat l) b end) ∨
    ∃ e, x = inr e ∧ is_not_found e = false)); [auto| |].
  - intros s x s' Hi [HP (n & Hn & Hb & _)] [-> Hx]. split; [done|]. destruct x as [b'|e]; [left|right; eauto].
    destruct Hx as (i' & n' & [= <-] & Hn' & ->). simplify_eq. done.
  - intros x s1 tr s Hi [HP Hx]. by apply Hf.
Qed.

(** The answer of a bounded read. *)
Definition read_answer (k : string) (maximum : N) (P : FsState → Prop) (Q : option nat → FsState → Prop)
    (tr : trace) (r : result (option bytes)) (s : FsState) : Prop :=
  P s ∧ tr ≠ [] ∧
  match r with
  | Ok None => Q None s ∧ saw k tr None
  | Ok (Some b) => (len b <= maximum)%N ∧ saw k tr (Some (version_of b)) ∧ ∃ i, Q (Some i) s ∧ file_is i b s
  | Err _ => True
  end.
Lemma stable_answer k maximum P Q tr r : stable P → (∀ o, stable (Q o)) → stable (read_answer k maximum P Q tr r).
Proof.
  intros HP HQ. apply stable_and; [done|]. apply stable_and; [auto|]. destruct r as [[b|]|]; auto.
  apply stable_and; [auto|]. apply stable_and; [auto|]. intros s s' Hi (i & Hq & Hf) Hr. exists i.
  split; [by eapply HQ|by eapply stable_file].
Qed.

Lemma read_file_bounded_calm k maximum P Q :
  key k → stable P → (∀ o, stable (Q o)) → (∀ s, P s → Q (fs_entries s !! fs_path self k) s) →
  calm P (read_file_bounded (fs_path self k) maximum) (read_answer k maximum P Q).
Proof.
  intros Hk HP HQ HPQ. unfold read_file_bounded. eapply open_key_calm; [done|done|done|].
  intros [[i|q]|e] s1; cbn [opened].
  - unfold ok_or, checked_add. destruct (_ <=? _)%N.
    2: { apply calm_ret; [|by intros s [? _]]. apply stable_and; [done|]. apply stable_and; [auto|].
         intros s s' Hi (b & Hc & Hf) Hr. exists b. split; [done|]. by eapply stable_file. }
    intros tr s Hi (Hs & Hq & b & Hc & Hf). revert tr s Hi Hs Hq Hf.
    assert (calm (λ s, (P s ∧ Q (Some i) s) ∧ file_is i b s)
      (let! b := io_request (FReadToEnd (HFile i) (Some (maximum + 1)%N)) in
       if (maximum <? len b)%N then Ret (bail "object stream exceeds bounded read limit") else Ret (Ok (Some b)))
      (λ tr, read_answer k maximum P Q ((s1, s1) :: tr))) as Hread.
    { eapply read_handle_calm; [auto|]. intros x Hx s2.
      assert (stable (λ s, (P s ∧ Q (Some i) s) ∧ file_is i b s)) as Hst by auto.
      destruct x as [b'|e]; cbn [io_lift bind].
      - destruct Hx as [[= ->]|(e & [=] & _)]. destruct (maximum <? _)%N eqn:Hm; bool_prop.
        + apply calm_ret; [done|]. by intros s [[? ?] ?].
        + apply calm_ret; [done|]. intros s [[? ?] Hfile].
          assert (take (N.to_nat (maximum + 1)) b = b) as Htake.
          { apply take_ge. unfold len in Hm. rewrite length_take in Hm. lia. }
          rewrite Htake in *. split; [done|]. split; [done|]. split; [done|]. split; [by apply saw_here|]. eauto.
      - apply calm_ret; [done|]. by intros s [[? ?] ?]. }
    intros tr s Hi Hs Hq Hf. by apply Hread.
  - intros tr s Hi [_ []].
  - destruct (is_not_found e).
    + apply calm_ret; [auto|]. intros s (Hs & Hq & Hc). split; [done|]. split; [done|]. split; [done|]. by apply saw_here.
    + apply calm_ret; [auto|]. by intros s (Hs & _).
Qed.

Lemma fs_read_calm k P :
  key k → stable P →
  calm P (fs_read (fs_path self k)) (λ tr r s, P s ∧ tr ≠ [] ∧
    match r with
    | inl b => saw k tr (Some (version_of b))
    | inr e => is_not_found e = true → saw k tr None
    end).
Proof.
  intros Hk HP. unfold fs_read. eapply (open_key_calm k _ P (λ _, P)); [done|done|done|].
  intros [[i|q]|e] s1; cbn [opened].
  - intros tr s Hi (Hs & Hq & b & Hc & Hf). revert tr s Hi Hs Hq Hf.
    assert (calm (λ s, P s ∧ file_is i b s) (request (FReadToEnd (HFile i) None)) (λ tr r s, P s ∧ (s1, s1) :: tr ≠ [] ∧
      match r with
      | inl b => saw k ((s1, s1) :: tr) (Some (version_of b))
      | inr e => is_not_found e = true → saw k ((s1, s1) :: tr) None
      end)) as Hread.
    { eapply read_handle_calm; [done|]. intros x Hx s2. apply calm_ret; [auto|]. intros s [? ?].
      split; [done|]. split; [done|]. destruct Hx as [->|(e & -> & Hne)]; cbv beta iota; [by apply saw_here|]. congruence. }
    intros tr s Hi Hs Hq Hf. by apply Hread.
  - intros tr s Hi [_ []].
  - apply calm_ret.
    + destruct (is_not_found e); auto.
    + intros s [Hs Ho]. split; [done|]. split; [done|]. intros Hn. rewrite Hn in Ho. apply saw_here, Ho.
Qed.
End linear.
