(* ===== verification/FsRefinement.v ===== *)
(** * The file-system back end: every request is linearizable

    The linearization points: opening the file, for a read, a refused swap and a
    put that finds the object; the renaming of the temporary file, for a put or a
    swap that writes; [unlink], for a deletion. *)

From stdpp Require Import pretty relations gmap.
From S2P Require Import Prelude Bytes Text Externals Hash RelyGuarantee Store StoreContract ObjectStore ObjectStoreFacts FsStore FsModel FsFacts FsLinear.
From Stdlib Require Import Lia ZArith Strings.Ascii.

Section refinement.
Context `{Sha256, Hex} (self : FsArchiveStore) (mutable immutable : string → bool) {HK : FsKeys mutable immutable} (me : nat).

Abbreviation contents_of := (fs_contents self mutable immutable).
Abbreviation inv := (fs_inv self mutable immutable).
Abbreviation rely := (fs_rely self mutable immutable me).
Abbreviation guar := (fs_guar self mutable immutable me).
Abbreviation key := (is_key mutable immutable).
Abbreviation trace := (list (FsState * FsState)).
Abbreviation still := (still self mutable immutable).
Abbreviation stable := (stable self mutable immutable me).
Abbreviation calm := (calm self mutable immutable me).
Abbreviation saw := (saw self mutable immutable).
Abbreviation holds_temp := (holds_temp me).
Abbreviation dirs_ready := (dirs_ready self).
Abbreviation fs_rg := (rg (fs_step me) rely guar).

#[local] Hint Resolve stable_and stable_true stable_pure stable_dir stable_dirs_ready stable_holds stable_file : core.

(** ** From [calm] to the specification *)

Lemma still_app tr1 tr2 : still (tr1 ++ tr2) ↔ still tr1 ∧ still tr2.
Proof. apply Forall_app. Qed.
Lemma still_in tr s1 s2 : still tr → (s1, s2) ∈ tr → contents_of s2 ≡ contents_of s1.
Proof. intros Ht Hin. exact (proj1 (Forall_forall _ _) Ht _ Hin). Qed.

Lemma linearized_still X (e : storeE X) x tr tr' :
  linearized contents_of e x tr → still tr' → linearized contents_of e x (tr ++ tr').
Proof.
  intros (u1 & s1 & s2 & u2 & -> & Hx & Hq) Ht. exists u1, s1, s2, (u2 ++ tr'). split; [by rewrite <-app_assoc|].
  split; [done|]. rewrite app_assoc. by apply still_app.
Qed.

(** A failed request that changed nothing. *)
Lemma linearized_failed A (e : storeE (result A)) er tr :
  (∀ m m' : contents, m' ≡ m → store_spec _ e m (Err er) m') → still tr → tr ≠ [] → linearized contents_of e (Err er) tr.
Proof.
  intros He Ht Hne. destruct tr as [|[s1 s2] tr]; [done|]. apply (linearized_quiet _ _ _ _ s1 s2); [done|by left|].
  apply He. eapply still_in; [done|by left].
Qed.

(** A request that saw [o] at its key. *)
Lemma linearized_saw X (e : storeE X) x k o tr :
  still tr → saw k tr o → (∀ m m' : contents, m k = o → m' ≡ m → store_spec _ e m x m') → linearized contents_of e x tr.
Proof.
  intros Ht (s & Hin & Ho) He. apply (linearized_quiet _ _ _ _ s s); [done|done|]. by apply He.
Qed.

Lemma calm_linearized X (e : storeE X) p P R s :
  calm P p R → inv s → P s → (∀ tr x s, still tr → R tr x s → linearized contents_of e x tr) →
  fs_rg (λ tr x _, linearized contents_of e x tr) p [] s.
Proof.
  intros Hp Hi Hs HR. eapply rg_weaken; [done| |by apply Hp]. intros tr x s' (tr1 & -> & Ht & _ & Hr). by eapply HR.
Qed.

(** [calm] programs as parts of others. *)
Lemma calm_then {A B} (p : prog fsE A) (f : A → prog fsE B) P R (Q : trace → B → FsState → Prop) tr s :
  calm P p R → inv s → P s → still tr →
  (∀ tr1 a s1, still (tr ++ tr1) → inv s1 → R tr1 a s1 → fs_rg Q (f a) (tr ++ tr1) s1) → fs_rg Q (bind p f) tr s.
Proof.
  intros Hp Hi Hs Ht Hf. apply rg_bind; [apply _|]. eapply rg_weaken; [done| |by apply Hp].
  intros tr' a s' (tr1 & -> & Ht1 & Hi' & Hr). apply Hf; [|done|done]. by apply still_app.
Qed.
Lemma calm_after {A} (p : prog fsE A) P R (Q : trace → A → FsState → Prop) tr s :
  calm P p R → inv s → P s → (∀ tr1 a s', still tr1 → inv s' → R tr1 a s' → Q (tr ++ tr1) a s') → fs_rg Q p tr s.
Proof.
  intros Hp Hi Hs HQ. eapply rg_weaken; [done| |by apply Hp]. intros tr' a s' (tr1 & -> & Ht & Hi' & Hr). by apply HQ.
Qed.

(** ** Reads, [modified] and [delete] *)

Lemma fs_get_lin k s : key k → inv s →
  fs_rg (λ tr x _, linearized contents_of (SGet k) x tr) (fs_get self k) [] s.
Proof.
  intros Hk Hi. unfold fs_get. eapply calm_then; [by apply (fs_read_calm self _ _ me k (λ _, True)); auto|done|done|constructor|].
  intros tr r s1 Ht Hi1 (_ & Hne & Hr) s2 _. simpl in *. destruct r as [b|e]; simpl.
  - eapply linearized_saw; [done..|]. intros m m' Hm E. split; [done|]. eauto.
  - by apply linearized_failed.
Qed.

Lemma fs_get_bounded_calm k maximum P : key k → stable P →
  calm P (fs_get_bounded self k maximum) (λ tr r s, P s ∧ tr ≠ [] ∧
    ∀ b, r = Ok b → (len b <= maximum)%N ∧ saw k tr (Some (version_of b))).
Proof.
  intros Hk HP. unfold fs_get_bounded.
  eapply calm_try; [by apply (read_file_bounded_calm self _ _ me k maximum P (λ _, P)); auto| |by intros; apply stable_answer|].
  - intros o tr1. apply calm_ret; [by apply stable_answer|]. intros s (Hs & Hne & Ho).
    rewrite app_nil_r. split; [done|]. split; [done|]. intros b Hb. destruct o; simplify_eq/=. by destruct Ho as (? & ? & _).
  - intros e tr1 s (Hs & Hne & _). split; [done|]. by split.
Qed.

Lemma fs_get_bounded_lin k maximum s : key k → inv s →
  fs_rg (λ tr x _, linearized contents_of (SGetBounded k maximum) x tr) (fs_get_bounded self k maximum) [] s.
Proof.
  intros Hk Hi. eapply calm_linearized; [by apply (fs_get_bounded_calm k maximum (λ _, True)); auto|done|done|].
  intros tr [b|e] s1 Ht (_ & Hne & Hr); [|by apply linearized_failed].
  destruct (Hr b eq_refl) as [Hl Hsaw]. eapply linearized_saw; [done..|]. intros m m' Hm E. split; [done|]. eauto.
Qed.

Lemma fs_read_mutable_lin k s : key k → inv s →
  fs_rg (λ tr x _, linearized contents_of (SReadMutable k) x tr) (fs_read_mutable self k) [] s.
Proof.
  intros Hk Hi. unfold fs_read_mutable.
  eapply calm_then; [by apply (fs_read_calm self _ _ me k (λ _, True)); auto|done|done|constructor|].
  intros tr r s1 Ht Hi1 (_ & Hne & Hr) s2 _. simpl in *. destruct r as [b|e].
  - eapply linearized_saw; [done..|]. intros m m' Hm E. split; [done|]. simpl. by rewrite Hm.
  - destruct (is_not_found e); [|by apply linearized_failed].
    eapply linearized_saw; [done|by apply Hr|]. intros m m' Hm E. split; [done|]. simpl. by rewrite Hm.
Qed.

(** [read_mutable_bounded], where [Q] says more of the entry that was read. *)
Definition mutable_answer k maximum P (Q : option nat → FsState → Prop) (tr : trace) (r : result (option VersionedBytes)) (s : FsState) : Prop :=
  P s ∧ tr ≠ [] ∧
  match r with
  | Ok None => Q None s ∧ saw k tr None
  | Ok (Some v) => (len (vb_bytes v) <= maximum)%N ∧ v = fs_version (vb_bytes v) ∧ saw k tr (Some (version_of (vb_bytes v))) ∧
      ∃ i, Q (Some i) s ∧ file_is i (vb_bytes v) s
  | Err _ => True
  end.
Lemma read_mutable_bounded_calm k maximum P (Q : option nat → FsState → Prop) :
  key k → stable P → (∀ o, stable (Q o)) → (∀ s, P s → Q (fs_entries s !! fs_path self k) s) →
  calm P (fs_read_mutable_bounded self k maximum) (mutable_answer k maximum P Q).
Proof.
  intros Hk HP HQ HPQ. unfold fs_read_mutable_bounded.
  eapply calm_try; [by apply (read_file_bounded_calm self _ _ me k maximum P Q)| |by intros; apply stable_answer|].
  - intros o tr1. apply calm_ret; [by apply stable_answer|]. intros s (Hs & Hne & Ho).
    rewrite app_nil_r. split; [done|]. split; [done|]. destruct o as [b|]; simpl; [|done]. by destruct Ho as (? & ? & ?).
  - intros e tr1 s (Hs & Hne & _). by split.
Qed.
Lemma fs_read_mutable_bounded_lin k maximum s : key k → inv s →
  fs_rg (λ tr x _, linearized contents_of (SReadMutableBounded k maximum) x tr) (fs_read_mutable_bounded self k maximum) [] s.
Proof.
  intros Hk Hi. eapply calm_linearized; [by apply (read_mutable_bounded_calm k maximum (λ _, True) (λ _ _, True)); auto|done|done|].
  intros tr r s1 Ht (_ & Hne & Hr). destruct r as [[v|]|e]; [| |by apply linearized_failed].
  - destruct Hr as (Hl & Hv & Hsaw & _). eapply linearized_saw; [done..|]. intros m m' Hm E. split; [done|].
    split; [|by intros x [= <-]]. apply (f_equal vb_version) in Hv. simpl in *. rewrite Hm, Hv. done.
  - destruct Hr as [_ Hsaw]. eapply linearized_saw; [done..|]. intros m m' Hm E. split; [done|]. split; [by rewrite Hm|done].
Qed.

Lemma fs_modified_lin k s : key k → inv s →
  fs_rg (λ tr x _, linearized contents_of (SModified k) x tr) (fs_modified self k) [] s.
Proof.
  intros Hk Hi s1 x s2 Hr [-> Hx]. assert (inv s1) as Hi1 by (by eapply rl_inv).
  split; [apply neutral_guar, neutral_refl|]. intros s' _.
  apply (linearized_last _ _ _ [] s1 s1); [constructor|]. split; [done|].
  destruct x as [md|e]; simpl.
  - rewrite contents_at_key, fmap_is_Some by done. destruct Hx as [(i & n & He & Hn & ->)|[Hd _]]; [|by destruct (iv_dirs _ _ _ _ Hi1 k Hk)].
    unfold file_at. rewrite He. simpl. rewrite Hn. split; eauto.
  - destruct (is_not_found e); [|done]. rewrite contents_at_key, fmap_is_Some by done. unfold file_at.
    destruct (fs_entries s1 !! fs_path self k) eqn:He.
    + destruct Hx; [done|]. left. by rewrite He.
    + simpl. split; intros [? ?]; done.
Qed.

Lemma fs_delete_lin k s : immutable k = true → inv s →
  fs_rg (λ tr x _, linearized contents_of (SDelete k) x tr) (fs_delete self k) [] s.
Proof.
  intros Hm Hi s1 x s2 Hr Hx. assert (key k) as Hk by (unfold is_key; rewrite Hm; apply orb_true_r).
  assert (inv s1) as Hi1 by (by eapply rl_inv). destruct x as [[]|e]; simpl in Hx |- *.
  - destruct Hx as [_ ->]. split; [by apply neutral_guar, remove_neutral|]. intros s' _.
    apply (linearized_last _ _ _ [] s1 _); [constructor|]. by apply remove_contents.
  - destruct Hx as [-> Hx]. split; [apply neutral_guar, neutral_refl|]. intros s' _.
    apply (linearized_last _ _ _ [] s1 s1); [constructor|]. destruct (is_not_found e); [|by left].
    split; [|done]. rewrite contents_at_key by done. unfold file_at.
    destruct (fs_entries s1 !! fs_path self k) eqn:He; [|done]. destruct Hx; [done|]. left. by rewrite He.
Qed.

(** ** [put_immutable] *)

Lemma put_failed k b er (m m' : contents) : m' ≡ m → store_spec _ (SPutImmutable k b) m (Err er) m'.
Proof. intros E. by left. Qed.
Lemma put_found k b tr x : still tr → saw k tr (Some (version_of b)) → linearized contents_of (SPutImmutable k b) x tr.
Proof.
  intros Ht Hs. eapply linearized_saw; [done..|]. intros m m' Hm E. destruct x; [left; split; [|done]; eauto|by left].
Qed.

(** The object exists: it is compared, and touched when it is stale. *)
Lemma put_existing_calm k b :
  key k →
  calm (λ _, True)
    (let! existing := fs_get_bounded self k (len b) in
     if bool_decide (existing ≠ b) then Ret (bail ("immutable object collision at " +:+ k))
     else
       let! metadata := io_request (FMetadata (fs_path self k)) in
       let* now := request FClock in
       if stale now (md_modified metadata) then
         let! file := io_request (FOpenWrite (fs_path self k)) in
         let* now := request FClock in
         let! _ := io_request (FSetModified file now) in
         Ret (Ok tt)
       else Ret (Ok tt))
    (λ tr r _, tr ≠ [] ∧ (r = Ok tt → saw k tr (Some (version_of b)))).
Proof.
  intros Hk. eapply calm_try; [by apply (fs_get_bounded_calm k (len b) (λ _, True)); auto| |by intros e tr1 s s' _ Hs _|].
  2: { intros e tr1 s (_ & Hne & _). done. }
  intros existing tr1. case_bool_decide as Hb.
  { apply calm_ret; [auto|]. intros s (_ & Hne & _). by rewrite app_nil_r. }
  intros tr s Hi (_ & Hne & Hsaw). destruct (Hsaw existing eq_refl) as [_ Hs]. clear Hsaw. subst existing.
  revert tr s Hi. assert (calm (λ _, True) (let! metadata := io_request (FMetadata (fs_path self k)) in
       let* now := request FClock in
       if stale now (md_modified metadata) then
         let! file := io_request (FOpenWrite (fs_path self k)) in
         let* now := request FClock in
         let! _ := io_request (FSetModified file now) in
         Ret (Ok tt)
       else Ret (Ok tt)) (λ _ _ _, True)) as Htouch.
  { eapply (calm_read _ _ _ _ _ _ _ _ (λ _ _ _, True)); [auto|by intros s x s' _ _ [-> _]|].
    intros [md|e] s1; cbn [io_lift bind]; [|by apply calm_ret; auto].
    eapply (calm_read _ _ _ _ _ _ _ _ (λ _ _ _, True)); [auto|by intros s x s' _ _ ->|].
    intros now s2. destruct (stale now _); [|by apply calm_ret; auto].
    eapply (calm_read _ _ _ _ _ _ _ _ (λ s x s', match x with inl (HFile i) => ∃ b, file_is i b s' | inl (HDir _) => False | inr _ => True end)).
    - auto.
    - intros s x s' Hi _ [-> Hx]. split; [done|]. destruct x as [[i|q]|e]; try done.
      destruct (file_at_key _ _ _ k s i Hi Hk Hx) as (n & Hn & _ & Ht & _). exists (in_bytes n). by exists n.
    - intros [[i|q]|e] s3; cbn [io_lift bind]; [|by intros tr s Hi [_ []]|by apply calm_ret; auto].
      assert (stable (λ s, ∃ b, file_is i b s)) as Hst.
      { intros s s' Hi [b' Hf] Hr. exists b'. by eapply stable_file. }
      eapply (calm_read _ _ _ _ _ _ _ _ (λ _ _ _, True)); [auto|by intros s x s' _ _ ->|].
      intros now' s4. eapply (calm_neutral _ _ _ _ _ _ _ _ (λ _ _ _ _, True)); [auto| |].
      + intros s x s' Hi [[_ (b' & n & Hn & _ & Ht)] _] [[_ ->]|(_ & i' & n' & [= <-] & Hn' & ->)].
        * split; [apply neutral_refl|done].
        * simplify_eq. split; [by apply touch_neutral|done].
      + intros x s5 s6. destruct x; cbn [io_lift bind]; by apply calm_ret; auto. }
  intros tr s Hi. eapply rg_weaken; [done| |by apply Htouch].
  intros tr' r s' (tr2 & -> & Hq & Hi' & _). exists tr2. split; [done|]. split; [done|]. split; [done|]. split; [by destruct tr1|].
  intros _. destruct Hs as (s0 & Hin & Hc). exists s0. split; [|done]. apply elem_of_app. by left.
Qed.

(** The renaming fails: the object another process created is compared. *)
Lemma put_lost_calm k b error t :
  key k →
  calm (λ s, dirs_ready k s ∧ holds_temp t (flushed_with b) s)
    (let* found := fs_read (fs_path self k) in
     let* r := (if match found with inl existing => bool_decide (existing = b) | inr _ => false end
                then let! _ := sync_path_directories self (fs_path self k) in Ret (Ok tt)
                else Ret (Err (Ctx "create immutable object" (io_into error)))) in
     let* _ := request (FDropTemp t) in
     Ret r)
    (λ tr r _, r = Ok tt → saw k tr (Some (version_of b))).
Proof.
  intros Hk. set (P := λ s, dirs_ready k s ∧ holds_temp t (flushed_with b) s).
  assert (stable P) as HP by (unfold P; auto).
  assert (insensitive (λ s, dirs_ready k s)) as Hin.
  { intros s s' Hd Hc parent Hp. rewrite (tc_dirs _ _ Hc). by apply Hd. }
  eapply calm_bind; [by apply (fs_read_calm self _ _ me k P)|]. intros found tr1.
  eapply calm_bind with (R := λ _ r s, P s ∧ (r = Ok tt → saw k tr1 (Some (version_of b)))).
  - destruct found as [existing|e]; [case_bool_decide as Hb|].
    + subst. eapply calm_weaken.
      * apply (calm_keep_try _ _ _ _ _ _ (λ s, P s ∧ saw k tr1 (Some (version_of b)))); [auto| |].
        -- apply (sync_path_calm self mutable immutable me); [done|auto|]. by intros s [[? _] _].
        -- intros _. apply calm_ret; auto.
      * intros s (Hs & _ & Hsaw). done.
      * by intros tr r s [? ?].
    + apply calm_ret; [auto|]. by intros s (? & _).
    + apply calm_ret; [auto|]. by intros s (? & _).
  - intros r tr2. intros tr s Hi [[Hd Ht] Hr]. revert tr s Hi Hd Ht.
    pose proof (drop_calm self mutable immutable me t r (λ s, dirs_ready k s) (flushed_with b) ltac:(auto) Hin) as Hdrop.
    intros tr s Hi Hd Ht. eapply rg_weaken; [done| |by apply Hdrop].
    intros tr' r' s' (tr3 & -> & Hq & Hi' & -> & _). exists tr3. split; [done|]. split; [done|]. split; [done|].
    intros Hok. destruct (Hr Hok) as (s0 & Hs0 & Hc). exists s0. split; [|done]. apply elem_of_app. by left.
Qed.

Lemma fs_put_lin k b s : immutable k = true → inv s →
  fs_rg (λ tr x _, linearized contents_of (SPutImmutable k b) x tr) (fs_put_immutable self k b) [] s.
Proof.
  intros Him Hi. assert (key k) as Hk by (unfold is_key; rewrite Him; apply orb_true_r).
  unfold fs_put_immutable. intros s1 x s1' Hs1 [-> _]. assert (inv s1) as Hi1 by (by eapply rl_inv).
  split; [apply neutral_guar, neutral_refl|]. assert (still [(s1, s1)]) as Ht1 by (by repeat constructor). cbn [bind app].
  destruct x.
  { eapply calm_after; [by apply put_existing_calm|done|done|]. intros tr [[]|e] s2 Ht Hi2 [Hne Hsaw].
    - apply put_found; [by apply still_app|]. destruct (Hsaw eq_refl) as (s0 & Hin & Hc).
      exists s0. split; [|done]. apply elem_of_app. by right.
    - apply linearized_failed; [intros; by apply put_failed|by apply still_app|done]. }
  eapply calm_then; [by apply (write_temporary_calm self _ _ me k b (λ _, True)); auto|done|done|done|].
  intros tr1 r s2 Ht Hi2 [_ Hr]. destruct r as [t|e]; [|intros s' _; apply linearized_failed; [intros; by apply put_failed|done..]].
  destruct (Hr t eq_refl) as [Hd Hh]. clear Hr.
  intros s3 x s4 Hs3 Hx. assert (inv s3) as Hi3 by (by eapply rl_inv).
  assert (dirs_ready k s3 ∧ holds_temp t (flushed_with b) s3) as [Hd3 Hh3].
  { split; [exact (stable_dirs_ready self _ _ me k s2 s3 Hi2 Hd Hs3)|exact (stable_holds self _ _ me t _ s2 s3 Hi2 Hh Hs3)]. }
  destruct Hx as [[[e ->] ->]|(-> & Hv & Hent & ->)].
  - split; [apply neutral_guar, neutral_refl|].
    eapply calm_after; [by apply (put_lost_calm k b e t)|done|done|].
    intros tr2 r s' Ht2 Hi' Hr.
    assert (still (((s1, s1) :: tr1) ++ [(s3, s3)] ++ tr2)) as Hall.
    { apply still_app. split; [done|]. apply still_app. split; [by repeat constructor|done]. }
    rewrite <-app_assoc. destruct r as [[]|e'].
    + apply put_found; [done|]. destruct (Hr eq_refl) as (s0 & Hin & Hc). exists s0. split; [|done].
      rewrite !elem_of_app. auto.
    + apply linearized_failed; [intros; by apply put_failed|done|by destruct tr1].
  - destruct Hh3 as (Htmp & Htemp & n & Hn & Hb & Hsync).
    assert (guar s3 (persisted t (fs_path self k) s3)) as Hg by (eapply persist_guar; eauto; by left).
    split; [done|]. eapply calm_after.
    + apply (calm_keep_try _ _ _ _ _ _ (dirs_ready k)); [auto|by apply (sync_path_calm self mutable immutable me); auto|intros _; apply calm_ret; auto].
    + by eapply guar_keeps_inv.
    + exact Hd3.
    + intros tr2 r s' Ht2 Hi' _. exists ((s1, s1) :: tr1), s3, (persisted t (fs_path self k) s3), tr2.
      split; [by rewrite <-app_assoc|]. split; [|by apply still_app].
      assert (put_written k b (contents_of s3) (contents_of (persisted t (fs_path self k) s3))) as Hw.
      { split; [|eexists; rewrite <-Hb; by apply persist_contents].
        rewrite contents_at_key by done. unfold file_at. intros b' w. destruct (fs_entries s3 !! fs_path self k) eqn:He; [|done].
        exfalso. apply Hv. left. by rewrite He. }
      destruct r; by right.
Qed.

(** ** [compare_and_swap] *)

Lemma insensitive_file i b : insensitive (file_is i b).
Proof. intros s s' (n & Hn & Hb & Ht) Hc. destruct (tc_files _ _ Hc i n Hn Ht). by exists n. Qed.

Definition lock_is (l : nat) (s : FsState) : Prop := fs_entries s !! lock_path self = Some l ∧ fa_root self ∈ fs_dirs s.
Definition locked (l : nat) (s : FsState) : Prop := lock_is l s ∧ fs_locks s !! l = Some me.
(** The lock is held and the entry of [k] is [o]. *)
Definition locked_at (k : string) (l : nat) (o : option nat) (s : FsState) : Prop :=
  locked l s ∧ fs_entries s !! fs_path self k = o.

Lemma stable_lock_is l : stable (lock_is l).
Proof. intros s s' _ [Hl Hd] Hr. split; [by eapply rl_lock_file|]. by eapply rl_dirs. Qed.
Lemma stable_locked l : stable (locked l).
Proof. intros s s' Hi [Hl Hm] Hr. split; [by apply (stable_lock_is l s)|]. by eapply rl_locks. Qed.
Lemma stable_locked_at k l o : mutable k = true → stable (locked_at k l o).
Proof.
  intros Hk s s' Hi [Hl He] Hr. split; [by apply (stable_locked l s)|]. destruct Hl as [[Hf _] Hm].
  by rewrite (rl_mutable _ _ _ _ _ _ Hr l k).
Qed.
Lemma insensitive_locked_at k l o : key k → insensitive (locked_at k l o).
Proof.
  intros Hk s s' [[[Hf Hd] Hm] He] [Hl Hdirs Hent _]. split; [split; [split|]|].
  - rewrite Hent; [done|]. apply lock_not_tmp.
  - by rewrite Hdirs.
  - by rewrite Hl.
  - rewrite Hent; [done|]. by eapply fs_path_not_tmp.
Qed.
#[local] Hint Resolve stable_lock_is stable_locked stable_locked_at insensitive_locked_at : core.

Lemma swap_failed k expected b er (m m' : contents) : m' ≡ m → store_spec _ (SCompareAndSwap k expected b) m (Err er) m'.
Proof. intros E. by left. Qed.

(** Opening the lock file, and taking and releasing the lock, change no object. *)
Lemma open_lock_calm :
  calm (λ _, True) (io_request (FOpenCreate (lock_path self)))
    (λ tr r s, tr ≠ [] ∧ match r with Ok h => ∃ l, h = HFile l ∧ lock_is l s | Err _ => True end).
Proof.
  eapply (calm_neutral _ _ _ _ _ _ _ _ (λ _ _ x s, match x with inl h => ∃ l, h = HFile l ∧ lock_is l s | inr _ => True end)); [auto| |].
  - intros s x s' Hi _ [[[e ->] ->]|(i & -> & [[He ->]|(Hv & Hn & t & ->)])].
    + split; [apply neutral_refl|done].
    + split; [apply neutral_refl|]. split; [done|]. exists i. split; [done|]. split; [done|]. apply (iv_root _ _ _ _ Hi).
    + split; [by apply create_lock_neutral|]. split.
      * intros k Hk. rewrite set_entry_ne; [done|]. by eapply fs_path_not_lock.
      * exists i. split; [done|]. split; [apply set_entry_eq|]. apply (iv_root _ _ _ _ Hi).
  - intros [h|e] s1 s2; (apply calm_ret; [|by intros s [_ ?]]); [|auto].
    apply stable_and; [auto|]. intros s s' Hi (l & -> & Hl) Hr. exists l. split; [done|]. by apply (stable_lock_is l s).
Qed.

Lemma take_lock_calm l :
  calm (lock_is l) (io_request (FLockExclusive (HFile l))) (λ _ r s, r = Ok tt → locked l s).
Proof.
  eapply (calm_neutral _ _ _ _ _ _ _ _ (λ _ _ x s, x = inl tt → fs_locks s !! l = Some me)); [auto| |].
  - intros s x s' Hi Hl [[[e ->] ->]|(-> & i & [= <-] & Hn & ->)].
    + split; [apply neutral_refl|]. split; [done|]. done.
    + split; [by apply lock_neutral|]. split; [done|]. intros _. simpl. apply lookup_insert_eq.
  - intros x s1 s2. apply calm_ret.
    + apply stable_and; [auto|]. intros s s' Hi Hx Hr Hok. eapply rl_locks; eauto.
    + intros s [Hl Hx] Hok. split; [done|]. apply Hx. by destruct x as [[]|e].
Qed.

Lemma release_calm {A} X (e : fsE X) (f : X → prog fsE A) (P : FsState → Prop) (R : trace → A → FsState → Prop) :
  (∀ s x s', fs_step me X e s x s' → s' = s ∨ ∃ i, s' = with_locks (release me i) s) →
  (∀ x s1 s2, calm (λ _, True) (f x) (λ tr, R ((s1, s2) :: tr))) → calm P (Vis e f) R.
Proof.
  intros He Hf tr s Hi Hs.
  assert (calm (λ _, True) (Vis e f) R) as Hc; [|by apply Hc].
  eapply (calm_vis _ _ _ _ _ _ _ _ (λ _ _ _ _, True)); [auto| |by intros; apply Hf].
  intros s1 x s2 Hi1 _ Hx. destruct (He s1 x s2 Hx) as [->|[i ->]].
  - split; [apply neutral_guar, neutral_refl|done].
  - assert (guar s1 (with_locks (release me i) s1)) as Hg by apply release_guar.
    split; [done|]. split; [|done]. eapply (same_contents _ _ _ (S me)); [done|apply Hg; lia|done].
Qed.
Lemma unlock_calm h (r : result unit) P :
  calm P (let! _ := io_request (FUnlock h) in Ret r) (λ _ r' _, r' = r ∨ ∃ e, r' = Err e).
Proof.
  apply release_calm.
  - intros s x s' [[_ ->]|[_ Hx]]; [by left|]. destruct h; [right; eauto|by left].
  - intros [[]|e] s1 s2; cbn [io_lift bind]; apply calm_ret; eauto.
Qed.
Lemma close_calm h (r : result unit) P : calm P (Vis (FClose h) (λ _, Ret r)) (λ _ r' _, r' = r).
Proof.
  apply release_calm; [|by intros; apply calm_ret; auto]. intros s x s' Hx. simpl in Hx. destruct h; [right; eauto|by left].
Qed.

(** What the lock holder read is what it replaces. *)
Lemma locked_agrees k l o s expected current :
  key k → locked_at k l o s →
  match current with
  | None => o = None
  | Some v => v = fs_version (vb_bytes v) ∧ ∃ i, o = Some i ∧ file_is i (vb_bytes v) s
  end →
  match expected, current with
  | None, None => true
  | Some expected, Some current => bool_decide (vb_version expected = vb_version current)
  | _, _ => false
  end = true → agrees expected (contents_of s k).
Proof.
  intros Hk [_ He] Hc Hm. rewrite contents_at_key by done. unfold file_at. rewrite He.
  destruct expected as [v|], current as [c|]; try done.
  - destruct Hc as (Hv & i & -> & n & Hn & Hb & _). simpl. rewrite Hn. simpl. bool_prop. rewrite Hb.
    apply (f_equal vb_version) in Hv. simpl in Hv. by rewrite Hm, Hv.
  - by rewrite Hc.
Qed.

(** The renaming under the lock, and what follows it. *)
Lemma swap_persist k l o expected b t tr s :
  mutable k = true → inv s → still tr → tr ≠ [] →
  locked_at k l o s → dirs_ready k s → holds_temp t (flushed_with b) s →
  (∀ s', locked_at k l o s' → inv s' → rely s s' → agrees expected (contents_of s' k)) →
  fs_rg (λ tr x _, linearized contents_of (SCompareAndSwap k expected b) x tr)
    (let! _ := or_drop t (FPersist t (fs_path self k)) (λ _,
                 let! _ := sync_path_directories self (fs_path self k) in Ret (Ok tt)) in
     let! _ := io_request (FUnlock (HFile l)) in Ret (Ok tt)) tr s.
Proof.
  intros Hm Hi Ht Hne Hl Hd Hh Hstays. assert (key k) as Hk by (unfold is_key; by rewrite Hm).
  intros s1 x s2 Hs1 Hx. assert (inv s1) as Hi1 by (by eapply rl_inv).
  assert (locked_at k l o s1) as Hl1 by (by apply (stable_locked_at k l o Hm s)).
  assert (holds_temp t (flushed_with b) s1) as Hh1 by (exact (stable_holds self _ _ me t _ s s1 Hi Hh Hs1)).
  assert (dirs_ready k s1) as Hd1 by (exact (stable_dirs_ready self _ _ me k s s1 Hi Hd Hs1)).
  destruct Hx as [[[e ->] ->]|(-> & Hnd & Hent & ->)]; cbn [bind].
  - split; [apply neutral_guar, neutral_refl|].
    eapply (calm_after _ (λ s, locked_at k l o s ∧ holds_temp t (flushed_with b) s) (λ _ r _, ∃ e, r = Err e)); [|done|done|].
    + eapply calm_bind; [apply (drop_calm self mutable immutable me t (Err (io_into e))); auto|].
      intros r tr1. eapply (calm_weaken _ _ _ _ _ (λ s, r = Err (io_into e) ∧ locked_at k l o s) _ (λ _ r' _, ∃ e, r' = Err e));
        [|by intros s' [-> ?]|exact (λ _ _ _ H, H)].
      destruct r as [[]|e']; [by intros tr' s' Hi' [? _]|]. apply calm_ret; [auto|]. eauto.
    + intros tr1 r s' Ht1 Hi' [e' ->]. apply linearized_failed; [intros; by apply swap_failed| |by destruct tr].
      apply still_app. split; [|done]. apply still_app. split; [done|by repeat constructor].
  - destruct Hh1 as (Htmp & Htemp & n & Hn & Hb & Hsync).
    assert (guar s1 (persisted t (fs_path self k) s1)) as Hg.
    { eapply persist_guar; eauto. right. destruct Hl1 as [[[? _] ?] _]. eauto. }
    split; [done|]. eapply (calm_after _ (dirs_ready k) (λ _ _ _, True)).
    + eapply (calm_bind self mutable immutable me _ _ _ (λ _ _, dirs_ready k)); [|intros r tr1; destruct r as [[]|e];
        [eapply calm_weaken; [apply unlock_calm|exact (λ s H, H)|done]|by apply calm_ret; auto]].
      apply (calm_keep_try _ _ _ _ _ _ (dirs_ready k)); [auto|by apply (sync_path_calm self mutable immutable me); auto|intros _; apply calm_ret; auto].
    + by eapply guar_keeps_inv.
    + exact Hd1.
    + intros tr2 r s' Ht2 Hi' _. exists tr, s1, (persisted t (fs_path self k) s1), tr2.
      split; [by rewrite <-app_assoc|]. split; [|by apply still_app].
      assert (swap_written k expected b (contents_of s1) (contents_of (persisted t (fs_path self k) s1))) as Hw.
      { split; [by apply Hstays|]. eexists. rewrite <-Hb. by apply persist_contents. }
      destruct r; [done|by right].
Qed.

Lemma swap_locked_lin k expected b l tr s :
  mutable k = true → inv s → still tr → tr ≠ [] → lock_is l s →
  fs_rg (λ tr x _, linearized contents_of (SCompareAndSwap k expected b) x tr) (swap_locked self (HFile l) k expected b) tr s.
Proof.
  intros Hm Hi Ht Hne Hl. assert (key k) as Hk by (unfold is_key; by rewrite Hm). unfold swap_locked.
  assert (∀ er tr1 s', still (tr ++ tr1) → fs_rg (λ tr x _, linearized contents_of (SCompareAndSwap k expected b) x tr)
    (Ret (Err er)) (tr ++ tr1) s') as Herr.
  { intros er tr1 s' Ht' s'' _. apply linearized_failed; [intros; by apply swap_failed|done|by destruct tr]. }
  eapply calm_then; [by apply (sync_directory_calm self _ _ me (fa_root self) (lock_is l)); [auto|by intros s' [_ ?]]|done|done|done|].
  intros tr1 [[]|er] s1 Ht1 Hi1 Hl1; [|by apply Herr].
  eapply calm_then; [apply (take_lock_calm l)|done|exact Hl1|done|].
  intros tr2 [[]|er] s2 Ht2 Hi2 Hl2; [|rewrite <-app_assoc in *; by apply Herr]. specialize (Hl2 eq_refl).
  rewrite <-app_assoc in *.
  eapply calm_then; [apply (read_mutable_bounded_calm k _ (locked l) (locked_at k l)); auto|done|done|done|].
  { by intros s' ?. }
  intros tr3 r s3 Ht3 Hi3 Hr. rewrite <-!app_assoc in *. destruct r as [current|er]; [|by apply Herr].
  assert (∃ o, locked_at k l o s3 ∧ match current with
    | None => o = None
    | Some v => v = fs_version (vb_bytes v) ∧ ∃ i, o = Some i ∧ file_is i (vb_bytes v) s3 end) as (o & Ho & Hcur).
  { destruct Hr as (_ & _ & Hr). destruct current as [v|].
    - destruct Hr as (_ & Hv & _ & i & Hq & Hf). exists (Some i). eauto 6.
    - destruct Hr as [Hq _]. by exists None. }
  clear Hr. destruct (match expected with None => _ | Some _ => _ end) eqn:Hmatch; cbn [negb].
  2: { eapply (calm_after _ (λ _, True)); [apply unlock_calm|done|done|].
       intros tr4 r s4 Ht4 Hi4 Hr. destruct Hr as [->|[e ->]];
         (apply linearized_failed; [intros; by apply swap_failed|by apply still_app|by destruct tr]). }
  set (tr' := tr ++ tr1 ++ tr2 ++ tr3) in *.
  (* what was read stays there while the lock is held *)
  set (P := λ s, locked_at k l o s ∧ match current with
    | None => o = None
    | Some v => v = fs_version (vb_bytes v) ∧ ∃ i, o = Some i ∧ file_is i (vb_bytes v) s end).
  assert (stable P) as HP.
  { apply stable_and; [by apply stable_locked_at|]. destruct current as [v|]; [|auto]. apply stable_and; [auto|].
    intros s' s'' Hi' (i & Ho' & Hf) Hr. exists i. split; [done|]. by apply (stable_file self mutable immutable me i _ s'). }
  assert (insensitive P) as Hin.
  { intros s' s'' [Hl' Hc'] Hch. split; [by apply (insensitive_locked_at k l o Hk s')|]. destruct current as [v|]; [|done].
    destruct Hc' as (Hv & i & Ho' & Hf). split; [done|]. exists i. split; [done|]. by apply (insensitive_file i _ s'). }
  unfold atomic_write. apply rg_bind; [apply _|].
  eapply calm_then; [by apply (write_temporary_calm self _ _ me k b P)|done|done|done|].
  intros tr4 r s4 Ht4 Hi4 [HP4 Hr]. apply rg_bind_inv; [apply _|].
  assert (tr' ++ tr4 ≠ []) as Hne4 by (unfold tr'; by destruct tr).
  destruct r as [t|er].
  - destruct (Hr t eq_refl) as [Hd Hh]. apply (swap_persist k l o); try done; [apply HP4|].
    intros s' Hl' Hi' Hs'. eapply locked_agrees; [done|done| |exact Hmatch]. by apply (HP s4 s' Hi4 HP4).
  - intros s' _. apply linearized_failed; [intros; by apply swap_failed|done|done].
Qed.

Lemma fs_swap_lin k expected b s : mutable k = true → inv s →
  fs_rg (λ tr x _, linearized contents_of (SCompareAndSwap k expected b) x tr) (fs_compare_and_swap self k expected b) [] s.
Proof.
  intros Hm Hi. unfold fs_compare_and_swap.
  eapply calm_then; [apply open_lock_calm|done|done|constructor|].
  intros tr1 r s1 Ht1 Hi1 [Hne Hr]. simpl app in *. destruct r as [h|er].
  2: { intros s' _. apply linearized_failed; [intros; by apply swap_failed|done|done]. }
  destruct Hr as (l & -> & Hl). apply rg_bind; [apply _|].
  eapply rg_weaken; [exact (λ _ _ H, H)| |eapply (rg_invariant _ _ inv); [| |done|by apply (swap_locked_lin k expected b l)]].
  - intros tr2 r s2 [Hlin Hi2]. eapply (calm_after _ (λ _, True)); [apply close_calm|done|done|].
    intros tr3 r' s' Ht3 _ ->. by apply linearized_still.
  - intros s2 s3. apply rl_inv.
  - intros s2 s3. by apply guar_keeps_inv.
Qed.

(** ** Every request *)

(** The requests to this back end; a listing is not one step. *)
Definition fs_allowed X (e : storeE X) : Prop :=
  match e with
  | SList _ => False
  | SModified k | SGet k | SGetBounded k _ | SReadMutable k | SReadMutableBounded k _ => is_key mutable immutable k
  | SDelete k | SPutImmutable k _ => immutable k = true
  | SCompareAndSwap k _ _ => mutable k = true
  | Now => True
  end.

Lemma fs_implements fuel :
  StoreImplements (fs_step me) rely guar inv contents_of fs_allowed (fs_impl self fuel).
Proof.
  split; [apply _|intros s s'; apply rl_inv|intros s s'; by apply guar_keeps_inv|].
  intros X e s Ha Hi. destruct e; simpl in Ha |- *; [done|..].
  - by apply fs_delete_lin.
  - by apply fs_modified_lin.
  - by apply fs_get_lin.
  - by apply fs_get_bounded_lin.
  - by apply fs_put_lin.
  - by apply fs_read_mutable_lin.
  - by apply fs_read_mutable_bounded_lin.
  - by apply fs_swap_lin.
  - intros s1 x s2 _ ->. split; [apply neutral_guar, neutral_refl|]. intros s' _.
    by apply (linearized_last _ _ _ [] s1 s1).
Qed.
End refinement.
