(* ===== verification/FsTheorems.v ===== *)
(** * The file-system back end: theorems

    [fs_clients_linearize]: clients whose system calls interleave in any way behave
    as clients with atomic requests.  [fs_crash_complete]: whenever the machine
    stops, an object that is found is one that was published, in full.
    [fs_write_durable]: what a write that succeeded has left survives a crash, then
    or later, whatever others do meanwhile that keeps their guarantees and leaves
    this object alone. *)

From stdpp Require Import pretty relations gmap.
From S2P Require Import Prelude Bytes RelyGuarantee Text Externals Hash Store StoreContract ObjectStore ObjectStoreFacts FsStore FsModel FsFacts FsLinear FsRefinement.
From Stdlib Require Import Lia ZArith Strings.Ascii.

(** ** What a system call adds to what a crash may show *)

Lemma possible_set p v s q w : possible q (set_entry p v s) w → possible q s w ∨ w = fs_entries (set_entry p v s) !! q.
Proof.
  intros Hp. destruct (decide (q = p)) as [->|Hne].
  - rewrite set_entry_eq. apply possible_set_eq in Hp as [->|Hp]; auto.
  - left. by apply possible_set_ne in Hp.
Qed.

Lemma fs_step_possible me X (e : fsE X) s x s' q i :
  fs_step me X e s x s' → possible q s' (Some i) → possible q s (Some i) ∨ fs_entries s' !! q = Some i.
Proof.
  assert (∀ s0, fs_entries s0 = fs_entries s → fs_pending s0 = fs_pending s → possible q s0 (Some i) → possible q s (Some i)) as Hsame.
  { intros s0 He Hp. unfold possible. by rewrite He, Hp. }
  assert (∀ p v s0, fs_entries s0 = fs_entries s → fs_pending s0 = fs_pending s →
    possible q (set_entry p v s0) (Some i) → possible q s (Some i) ∨ fs_entries (set_entry p v s0) !! q = Some i) as Hset.
  { intros p v s0 He Hp Hq. destruct (possible_set _ _ _ _ _ Hq); [left; by apply (Hsame s0)|by right]. }
  assert (∀ t p, possible q (persisted t p s) (Some i) → possible q s (Some i) ∨ fs_entries (persisted t p s) !! q = Some i) as Hren.
  { intros t p Hq. unfold persisted in *. cbn [with_temps fs_entries].
    change (possible q (set_entry p (Some (nt_inode t)) (set_entry (nt_path t) None s)) (Some i)) in Hq.
    apply possible_set in Hq as [Hq|Hq]; [|by right].
    destruct (decide (q = nt_path t)) as [->|Hne].
    - apply possible_set_eq in Hq as [?|Hq]; [done|by left].
    - apply possible_set_ne in Hq; [by left|done]. }
  intros Hx Hq. destruct e; simpl in Hx; unfold failed in Hx;
    repeat match goal with
    | Hz : _ ∨ _ |- _ => destruct Hz as [Hz|Hz]
    | Hz : _ ∧ _ |- _ => destruct Hz
    | Hz : ∃ _, _ |- _ => destruct Hz
    end; subst; try (by left); try (left; by eapply Hsame); try (by eapply Hset); try (by eapply (Hset _ _ (with_inodes _ s)));
    try (by eapply Hren).
  - destruct h as [j|d]; [destruct H0 as (n & _ & ->); left; by eapply Hsame|]. subst s'. left.
    destruct Hq as [Hq|Hq]; [by left|right]. simpl in Hq.
    destruct (filter _ _ !! q) as [l|] eqn:El; simpl in Hq; [|by apply not_elem_of_nil in Hq].
    apply map_lookup_filter_Some in El as [El _]. by rewrite El.
  - destruct x as [?|?]; destruct Hx as [? Hx]; subst; [by eapply Hset|by left].
  - destruct h; subst; left; by eapply Hsame.
  - destruct h; subst; left; by eapply Hsame.
Qed.

Section theorems.
Context `{Sha256, Hex} (self : FsArchiveStore) (mutable immutable : string → bool) {HK : FsKeys mutable immutable}.

Abbreviation contents_of := (fs_contents self mutable immutable).
Abbreviation inv := (fs_inv self mutable immutable).
Abbreviation key := (is_key mutable immutable).

(** ** Concurrent clients *)

Lemma fs_clients_linearize_run {A} (P : A → Prop) (ps : list (prog storeE A)) fuel s run results s' :
  Forall (always (fs_allowed mutable immutable) P) ps → inv s →
  pool fs_step (map (interp (fs_impl self fuel)) ps, s) run (map Ret results, s') →
  ∃ m' run', pool (λ _, store_spec) (ps, contents_of s) run' (map Ret results, m') ∧ m' ≡ contents_of s' ∧
    run_through contents_of run run'.
Proof.
  intros Hps Hi Hrun. eapply (clients_linearize_run (HI := λ i, fs_implements self mutable immutable i fuel)); [|done..].
  intros i j s1 s2 Hne Hg. by apply Hg.
Qed.


(** Every step of every client keeps its guarantee. *)
Lemma fs_pool_guarantees {A} (P : A → Prop) (ps : list (prog storeE A)) fuel s run c' :
  Forall (always (fs_allowed mutable immutable) P) ps → inv s →
  pool fs_step (map (interp (fs_impl self fuel)) ps, s) run c' →
  Forall (λ t, fs_guar self mutable immutable t.1 t.2.1 t.2.2) run.
Proof.
  intros Hps Hi Hrun.
  destruct (pool_rg fs_step (fs_rely self mutable immutable) (λ _ _ _ _, True) _ _ _ Hrun (λ _, [])) as [Hg _].
  - intros i p Hp. simpl in *. rewrite list_lookup_fmap in Hp. destruct (ps !! i) as [q|] eqn:Eq; simplify_eq/=.
    pose proof (fs_implements self mutable immutable i fuel) as HI.
    eapply rg_weaken; [..|eapply (client_marks P q s [])]; [| |by eapply Forall_lookup_1 in Hps|done].
    + intros s1 s2 Hg j Hj. by apply Hg.
    + done.
  - eapply Forall_impl; [exact Hg|]. intros t Ht j Hj. by apply Ht.
Qed.

(** ** Crashes *)

(** Whatever a crash in [s] may show at a key was there in one of the states [vis]. *)
Definition remembered (vis : list FsState) (s : FsState) : Prop :=
  ∀ k i, key k → possible (fs_path self k) s (Some i) →
    ∃ t n, t ∈ vis ∧ fs_inodes s !! i = Some n ∧ contents_of t k = Some (version_of (in_bytes n)).

Lemma remembered_step me X (e : fsE X) x vis s s' :
  inv s → fs_step me X e s x s' → fs_guar self mutable immutable me s s' → remembered vis s → remembered (vis ++ [s']) s'.
Proof.
  intros Hi Hx Hg Hr k i Hk Hp.
  assert (fs_rely self mutable immutable (S me) s s') as Hrel by (apply Hg; lia).
  assert (inv s') as Hi' by (by apply (rl_inv _ _ _ _ _ _ Hrel)).
  destruct (fs_step_possible _ _ _ _ _ _ _ _ Hx Hp) as [Hold|Hnow].
  - destruct (Hr k i Hk Hold) as (t & n & Hin & Hn & Hc).
    destruct (iv_objects _ _ _ _ Hi k i Hk Hold) as (n' & Hn' & _ & Ht). simplify_eq.
    destruct (rl_files _ _ _ _ _ _ Hrel i n Hn Ht) as (n'' & Hn'' & Hb & _).
    exists t, n''. split; [apply elem_of_app; by left|]. split; [done|]. by rewrite Hb.
  - destruct (file_at_key _ _ _ k s' i Hi' Hk Hnow) as (n & Hn & _ & _ & Hf).
    exists s', n. split; [apply elem_of_app; right; by left|]. split; [done|]. by rewrite contents_at_key, Hf by done.
Qed.

Lemma remembered_pool {A} (c : list (prog fsE A) * FsState) run c' vis :
  pool fs_step c run c' → Forall (λ t, fs_guar self mutable immutable t.1 t.2.1 t.2.2) run →
  inv c.2 → remembered vis c.2 → remembered (vis ++ map (λ t, t.2.2) run) c'.2 ∧ inv c'.2.
Proof.
  intros Hp. revert vis. induction Hp as [c|c i c1 run c' Hs _ IH]; intros vis Hg Hi Hr.
  - by rewrite app_nil_r.
  - inversion Hg as [|? ? Hg1 Hg2]; subst. destruct Hs as [ps i X e k s x s' Hl Hx]. simpl in *.
    destruct (IH (vis ++ [s'])) as [Hend Hinv]; [done| | |by rewrite <-app_assoc in Hend].
    + apply (rl_inv _ _ _ _ _ _ (Hg1 (S i) ltac:(lia)) Hi).
    + by eapply remembered_step.
Qed.

(** C12: wherever clients are interrupted, in the middle of any system calls, an
    object that is found after a crash is one that a state of the run showed at
    that key, with exactly those bytes: no part of a write is ever visible. *)
Theorem fs_crash_complete {A} (P : A → Prop) (ps : list (prog storeE A)) fuel s run c' s' k n :
  Forall (always (fs_allowed mutable immutable) P) ps → inv s → fs_pending s = ∅ →
  pool fs_step (map (interp (fs_impl self fuel)) ps, s) run c' → crashed c'.2 s' →
  key k → file_at (fs_path self k) s' = Some n →
  ∃ t, t ∈ s :: map (λ t, t.2.2) run ∧ contents_of t k = Some (version_of (in_bytes n)).
Proof.
  intros Hps Hi Hpend Hrun Hcr Hk Hf.
  assert (remembered [s] s) as Hinit.
  { intros k' i Hk' [Hp|Hp]; [|rewrite Hpend in Hp; by apply not_elem_of_nil in Hp]. symmetry in Hp.
    destruct (file_at_key _ _ _ k' s i Hi Hk' Hp) as (m & Hm & _ & _ & Hfile).
    exists s, m. split; [by left|]. split; [done|]. by rewrite contents_at_key, Hfile by done. }
  destruct (remembered_pool _ _ _ [s] Hrun) as [Hr Hi']; [by eapply fs_pool_guarantees|done|done|].
  unfold file_at in Hf. destruct (fs_entries s' !! fs_path self k) as [i|] eqn:He; [|done]. simpl in Hf.
  pose proof (cr_entries _ _ Hcr (fs_path self k)) as Hposs. rewrite He in Hposs.
  destruct (Hr k i Hk Hposs) as (t & m & Hin & Hm & Hc).
  destruct (iv_objects _ _ _ _ Hi' k i Hk Hposs) as (m' & Hm' & Hsync & _). simplify_eq.
  destruct (cr_inodes _ _ Hcr i m Hm Hsync) as (n' & Hn' & Hb). simplify_eq. exists t. split; [done|]. by rewrite Hb.
Qed.
End theorems.

(** ** The file-system back end: what was written survives a crash

    A put that did not find its object, and a swap, that return success have
    flushed the file, its entry and the entries of the directories on the way from
    the root of the store, whatever the system calls of other processes in between:
    whatever a crash loses, then or later, the object is found with its bytes. *)

(** The calls that take away or replace the entry of a path. *)
Definition replaces (p : path) X (e : fsE X) : Prop :=
  match e with
  | FRemoveFile q => q = p
  | FPersist t q => q = p ∨ nt_path t = p
  | FPersistNoclobber t _ | FDropTemp t => nt_path t = p
  | _ => False
  end.

(** What the other calls leave of it: an entry stays, and once flushed it stays flushed. *)
Record entry_kept (p : path) (s s' : FsState) : Prop := {
  ek_entry j : fs_entries s !! p = Some j → fs_entries s' !! p = Some j;
  ek_pending : is_Some (fs_entries s !! p) → fs_pending s !! p = None → fs_pending s' !! p = None;
  ek_durable : fs_durable_dirs s ⊆ fs_durable_dirs s'
}.
#[export] Instance entry_kept_preorder p : PreOrder (entry_kept p).
Proof.
  split; [intros s; split; eauto; done|]. intros s1 s2 s3 [E1 P1 D1] [E2 P2 D2]. split; [eauto| |by etrans].
  intros [j Hj] Hp. apply P2; [exists j; by apply E1|]. apply P1; [by exists j|done].
Qed.
Lemma entry_kept_same p s s' :
  fs_entries s' = fs_entries s → fs_pending s' = fs_pending s → fs_durable_dirs s' = fs_durable_dirs s → entry_kept p s s'.
Proof. intros E1 E2 E3. split; by rewrite ?E1, ?E2, ?E3. Qed.
Lemma entry_kept_set p q v s : (is_Some (fs_entries s !! p) → q ≠ p) → entry_kept p s (set_entry q v s).
Proof.
  intros Hq. split; [| |done].
  - intros j Hj. rewrite set_entry_ne; [done|]. apply not_eq_sym, Hq. by exists j.
  - intros Hs Hp. simpl. rewrite lookup_insert_ne; [done|]. by apply Hq.
Qed.
Lemma entry_kept_flushed p d s : entry_kept p s (flushed d s).
Proof.
  split; [done| |simpl; set_solver]. intros _ Hp. simpl. apply map_lookup_filter_None. by left.
Qed.

(** The states a call passes through, each by one change. *)
Lemma step_entry_kept me X (e : fsE X) p s x s' : fs_step me X e s x s' → ¬ replaces p X e → entry_kept p s s'.
Proof.
  assert (∀ q v s0, fs_entries s0 = fs_entries s → fs_pending s0 = fs_pending s → fs_durable_dirs s0 = fs_durable_dirs s →
    (is_Some (fs_entries s !! p) → q ≠ p) → entry_kept p s (set_entry q v s0)) as Hset.
  { intros q v s0 E1 E2 E3 Hq. etrans; [by apply (entry_kept_same p s s0)|]. apply entry_kept_set. by rewrite E1. }
  assert (∀ q, ¬ visible q s → is_Some (fs_entries s !! p) → q ≠ p) as Hnew by (intros q Hq Hs ->; apply Hq; by left).
  assert (∀ t q, nt_path t ≠ p → (is_Some (fs_entries s !! p) → q ≠ p) → entry_kept p s (persisted t q s)) as Hren.
  { intros t q Ht Hq. etrans; [apply (entry_kept_set p (nt_path t) None); auto|].
    etrans; [apply (entry_kept_set p q (Some (nt_inode t)))|by apply entry_kept_same].
    intros Hs. apply Hq. rewrite set_entry_ne in Hs by (by apply not_eq_sym). done. }
  intros Hx Hrep. destruct e; simpl in Hx, Hrep; unfold failed in Hx;
    repeat match goal with
    | Hz : _ ∨ _ |- _ => destruct Hz as [Hz|Hz]
    | Hz : _ ∧ _ |- _ => destruct Hz
    | Hz : ∃ _, _ |- _ => destruct Hz
    end; subst; try reflexivity; try (by apply entry_kept_same); eauto.
  all: try (by apply Hren; auto).
  all: try match goal with |- entry_kept _ _ (with_temps _ ?s1) => trans s1; [apply Hset; auto|by apply entry_kept_same] end.
  - destruct h; [destruct H0 as (n & _ & ->); by apply entry_kept_same|subst; apply entry_kept_flushed].
  - destruct x; destruct Hx as [? Hx]; subst; [apply Hset; auto|reflexivity].
  - destruct h; subst; [by apply entry_kept_same|reflexivity].
  - destruct h; subst; [by apply entry_kept_same|reflexivity].
Qed.

(** Any result of a program, when it holds whatever is still to come. *)
Lemma rg_whatever {E S A} (step : ∀ X, E X → S → X → S → Prop) rely (Q : list (S * S) → A → S → Prop) (p : prog E A) tr s :
  (∀ tr' a s', Q (tr ++ tr') a s') → rg step rely (λ _ _, True) Q p tr s.
Proof.
  revert tr s. induction p as [a|X e k IH]; intros tr s Hq; simpl.
  - intros s' _. rewrite <-(app_nil_r tr). apply Hq.
  - intros s1 x s2 _ _. split; [done|]. apply IH. intros tr' a s'. rewrite <-app_assoc. apply Hq.
Qed.

Section durable.
Context `{Sha256, Hex} (self : FsArchiveStore) (mutable immutable : string → bool) {HK : FsKeys mutable immutable} (me : nat).

Abbreviation contents_of := (fs_contents self mutable immutable).
Abbreviation inv := (fs_inv self mutable immutable).
Abbreviation key := (is_key mutable immutable).
Abbreviation trace := (list (FsState * FsState)).

(** The calls of the other processes, or of all of them, which keep their guarantee
    and do not take away or replace what is at a path. *)
Definition call_of (j : nat) (p : path) (s s' : FsState) : Prop :=
  ∃ X (e : fsE X) x, fs_step j X e s x s' ∧ fs_guar self mutable immutable j s s' ∧ ¬ replaces p X e.
Definition others (p : path) : FsState → FsState → Prop := rtc (λ s s', ∃ j, j ≠ me ∧ call_of j p s s').
Definition anyone (p : path) : FsState → FsState → Prop := rtc (λ s s', ∃ j, call_of j p s s').

Definition undisturbed (i : nat) (p : path) (s s' : FsState) : Prop :=
  fs_rely self mutable immutable i s s' ∧ entry_kept p s s'.
#[local] Instance undisturbed_preorder i p : PreOrder (undisturbed i p).
Proof. split; [intros s; by split|]. intros s1 s2 s3 [] []. split; by etrans. Qed.
Lemma call_undisturbed i j p s s' : i ≠ j → call_of j p s s' → undisturbed i p s s'.
Proof. intros Hij (X & e & x & Hx & Hg & Hr). split; [by apply Hg|by eapply step_entry_kept]. Qed.
Lemma others_undisturbed p s s' : others p s s' → undisturbed me p s s'.
Proof.
  induction 1 as [s|s1 s2 s3 (j & Hj & Hc) _ IH]; [reflexivity|]. etrans; [|exact IH]. by eapply call_undisturbed.
Qed.

(** ** An object that a crash cannot take away *)

Context (k : string) (Hk : key k).
Abbreviation place := (fs_path self k).

(** On the way from the root to the object. *)
Definition on_way (d : path) : Prop :=
  ∃ parent, path_parent place = Some parent ∧ d ∈ ancestors parent ∧ length (fa_root self) < length d.
Definition stored (b : bytes) (s : FsState) : Prop :=
  inv s ∧ dirs_ready self k s ∧ ∃ i n, fs_entries s !! place = Some i ∧ fs_inodes s !! i = Some n ∧ in_bytes n = b.
(** What the flush of a directory makes durable on that way. *)
Definition synced (d : path) (s : FsState) : Prop :=
  (path_parent place = Some d → fs_pending s !! place = None) ∧
  (∀ q, on_way q → path_parent q = Some d → q ∈ fs_durable_dirs s).
Definition entry_flushed (s : FsState) : Prop :=
  fs_pending s !! place = None ∧ ∀ d, on_way d → d ∈ fs_durable_dirs s.

Lemma stored_kept i b s s' : undisturbed i place s s' → stored b s → stored b s'.
Proof.
  intros [Hr He] (Hi & Hd & j & n & Hj & Hn & Hb). split; [by apply (rl_inv _ _ _ _ _ _ Hr)|].
  split; [intros parent Hp; etrans; [by apply Hd|]; by eapply rl_dirs|].
  destruct (file_at_key _ _ _ k s j Hi Hk Hj) as (n' & Hn' & _ & Ht & _). simplify_eq.
  destruct (rl_files _ _ _ _ _ _ Hr j n Hn Ht) as (n2 & Hn2 & Hb & _). exists j, n2.
  split; [by apply (ek_entry _ _ _ He)|by rewrite Hb].
Qed.
Lemma stored_flushed b d s : stored b s → stored b (flushed d s).
Proof. apply (stored_kept 0). split; [apply flush_neutral|apply entry_kept_flushed]. Qed.
Lemma synced_kept i b d s s' : undisturbed i place s s' → stored b s → synced d s → synced d s'.
Proof.
  intros [Hr He] (_ & _ & j & n & Hj & _) [Hp Hd]. split.
  - intros E. apply (ek_pending _ _ _ He); [by exists j|auto].
  - intros q Hq E. apply (ek_durable _ _ _ He). auto.
Qed.
Lemma flushed_synced d s : dirs_ready self k s → synced d (flushed d s).
Proof.
  intros Hr. split.
  - intros E. simpl. apply map_lookup_filter_None. right. by intros x _ [].
  - intros q (parent & Hp & Ha & _) E. simpl. apply elem_of_union_r, elem_of_filter. split; [done|]. by apply (Hr parent).
Qed.
Lemma entry_flushed_kept i b s s' : undisturbed i place s s' → stored b s → entry_flushed s → entry_flushed s'.
Proof.
  intros [Hr He] (_ & _ & j & n & Hj & _) [Hp Hd]. split.
  - apply (ek_pending _ _ _ He); [by exists j|done].
  - intros d Hw. apply (ek_durable _ _ _ He). auto.
Qed.

(** Whatever a crash loses, the object is there with its bytes, and so are its
    directories. *)
Definition survives (b : bytes) (s : FsState) : Prop :=
  ∀ s', crashed s s' → (∃ n, file_at place s' = Some n ∧ in_bytes n = b) ∧ ∀ d, on_way d → d ∈ fs_dirs s'.
Lemma flushed_survives b s : stored b s → entry_flushed s → survives b s.
Proof.
  intros (Hi & _ & i & n & He & Hn & Hb) [Hp Hd] s' Hcr. split.
  - destruct (file_at_key _ _ _ k s i Hi Hk He) as (m & Hm & Hs & _). simplify_eq.
    destruct (cr_inodes _ _ Hcr i n Hn Hs) as (n' & Hn' & Hb). exists n'. split; [|done].
    unfold file_at. destruct (cr_entries _ _ Hcr place) as [E|E].
    + rewrite E, He. done.
    + rewrite Hp in E. by apply not_elem_of_nil in E.
  - intros d Hw. apply (cr_dirs _ _ Hcr). auto.
Qed.
Definition durable (b : bytes) (s : FsState) : Prop := stored b s ∧ entry_flushed s.
Lemma durable_kept i b s s' : undisturbed i place s s' → durable b s → durable b s'.
Proof. intros Hu [Hs Hf]. split; [by eapply stored_kept|by eapply entry_flushed_kept]. Qed.
Lemma durable_survives b s s' : durable b s → anyone place s s' → survives b s'.
Proof.
  intros Hd Ha. cut (durable b s'); [intros []; by apply flushed_survives|].
  induction Ha as [s|s1 s2 s3 (j & Hc) _ IH]; [done|]. apply IH. eapply durable_kept; [|done].
  eapply (call_undisturbed (S j)); [|exact Hc]. lia.
Qed.

(** ** Programs under the interference of the others *)

Abbreviation rg_here := (rg (fs_step me) (undisturbed me place) (λ _ _, True)).

Lemma here_bind {A B} (q : prog fsE A) (f : A → prog fsE B) (Q : trace → A → FsState → Prop) R tr s :
  rg_here Q q tr s → (∀ tr a s, Q tr a s → rg_here R (f a) tr s) → rg_here R (bind q f) tr s.
Proof. intros Hq Hf. apply rg_bind; [apply _|]. by eapply rg_weaken. Qed.
Lemma calm_here {A} (q : prog fsE A) P R tr s :
  calm self mutable immutable me P q R → inv s → P s → rg_here (λ _ a s', inv s' ∧ ∃ tr1, R tr1 a s') q tr s.
Proof.
  intros Hq Hi Hs. apply (rg_rely _ (fs_rely self mutable immutable me)); [by intros s1 s2 []|].
  eapply rg_weaken; [done| |by apply Hq]. intros tr' a s' (tr1 & -> & _ & Hi' & Hr). eauto.
Qed.

(** A fact of the process about its own files or its lock. *)
Definition mine (P : FsState → Prop) : Prop :=
  (∀ s s', inv s → P s → fs_rely self mutable immutable me s s' → P s').

Section flushing.
Context (b : bytes) (P : FsState → Prop) (HP : mine P).
Definition progress (ds : list path) (s : FsState) : Prop := stored b s ∧ P s ∧ ∀ d, d ∈ ds → synced d s.

Lemma progress_kept ds s s' : undisturbed me place s s' → progress ds s → progress ds s'.
Proof.
  intros Hu (Hs & HPs & Hd). split; [by eapply stored_kept|]. split; [by apply (HP s); [apply Hs|done|apply Hu]|].
  intros d Hin. eapply synced_kept; eauto.
Qed.
Lemma progress_flushed d ds s : progress ds s → progress (d :: ds) (flushed d s).
Proof.
  intros Hp. pose proof Hp as (Hs & _ & _).
  assert (progress ds (flushed d s)) as (Hs' & HPs' & Hd').
  { eapply progress_kept; [|done]. split; [apply flush_neutral|apply entry_kept_flushed]. }
  split; [done|]. split; [done|]. intros d' [->|Hin]%elem_of_cons; [|auto]. apply flushed_synced, Hs.
Qed.

Lemma sync_directory_here d ds tr s :
  (∀ s, dirs_ready self k s → d ∈ fs_dirs s) → progress ds s →
  rg_here (λ _ r s', r = Ok tt → progress (d :: ds) s') (sync_directory d) tr s.
Proof.
  intros Hdir Hs s1 x s2 Hu [-> Hx]. split; [done|]. apply (progress_kept _ _ _ Hu) in Hs. clear Hu s.
  destruct x as [[i|q]|e]; cbn [io_lift with_context bind].
  - destruct Hs as [(Hi & Hd & _) _]. rewrite (iv_disjoint _ _ _ _ Hi d (Hdir _ Hd)) in Hx. done.
  - destruct Hx as [-> _]. intros s3 y s4 Hu Hy. split; [done|]. apply (progress_kept _ _ _ Hu) in Hs. clear Hu.
    intros s' Hu Hok. apply (progress_kept _ _ _ Hu). destruct Hy as [[[e ->] _]|[_ ->]]; [done|]. by apply progress_flushed.
  - intros s' Hu Hok. done.
Qed.

Fixpoint flush_list (d : path) (rest : path) : list path :=
  match rest with [] => [] | c :: rest => (d ++ [c]) :: flush_list (d ++ [c]) rest end.
Lemma flush_list_in d rest n : n < length rest → d ++ take (S n) rest ∈ flush_list d rest.
Proof.
  revert d n; induction rest as [|c rest IH]; intros d n Hn; simpl in *; [lia|]. destruct n as [|n]; simpl.
  - rewrite take_0. by left.
  - right. change (c :: take (S n) rest) with ([c] ++ take (S n) rest). rewrite app_assoc. apply IH. lia.
Qed.
Lemma progress_weaken ds ds' s : (∀ d, d ∈ ds' → d ∈ ds) → progress ds s → progress ds' s.
Proof. intros Hin (Hs & HPs & Hd). split; [done|]. split; [done|]. auto. Qed.
Lemma sync_components_here d rest ds tr s :
  (∀ s n, dirs_ready self k s → d ++ take n rest ∈ fs_dirs s) → progress ds s →
  rg_here (λ _ r s', r = Ok tt → progress (flush_list d rest ++ ds) s') (sync_components d rest) tr s.
Proof.
  revert d ds tr s; induction rest as [|c rest IH]; intros d ds tr s Hd Hs; cbn [sync_components].
  - intros s' Hu _. by eapply progress_kept.
  - eapply here_bind; [apply sync_directory_here; [|exact Hs]; intros s0 Hr; specialize (Hd s0 1 Hr); simpl in Hd; by rewrite take_0 in Hd|].
    intros tr1 [[]|e] s1 Hs1; [|intros s' Hu Hok; done].
    eapply rg_weaken; [done| |apply IH; [|by apply Hs1]].
    + intros tr2 r s2 Hs2 Hok. eapply progress_weaken; [|by apply Hs2]. simpl. set_solver.
    + intros s0 n Hr. rewrite <-app_assoc. apply (Hd s0 (S n) Hr).
Qed.

Lemma sync_path_here tr s :
  stored b s → P s → rg_here (λ _ r s', r = Ok tt → durable b s' ∧ P s') (sync_path_directories self place) tr s.
Proof.
  intros Hs HPs. unfold sync_path_directories. destruct (parent_of_key self mutable immutable k Hk) as [relative Hp].
  rewrite Hp. cbn [ok_or]. rewrite path_strip_app. cbn [ok_or with_context].
  assert (∀ s n, dirs_ready self k s → fa_root self ++ take n relative ∈ fs_dirs s) as Hin.
  { intros s0 n Hd. apply (Hd _ Hp).
    replace (fa_root self ++ take n relative) with (take (length (fa_root self) + n) (fa_root self ++ relative)).
    - apply ancestors_take.
    - rewrite take_app. f_equal; [by apply take_ge; lia|]. f_equal. lia. }
  assert (progress [] s) as Hnone by (split; [done|]; split; [done|]; by intros d ?%not_elem_of_nil).
  eapply here_bind; [apply sync_directory_here; [|exact Hnone]; intros s0 Hd; specialize (Hin s0 0 Hd); by rewrite take_0, app_nil_r in Hin|].
  intros tr1 [[]|e] s1 Hs1; [|intros s' Hu Hok; done].
  eapply rg_weaken; [done| |apply sync_components_here; [exact Hin|by apply Hs1]].
  intros tr2 r s2 Hs2 Hok. destruct (Hs2 Hok) as (Hst & HPs2 & Hsync). split; [|done]. split; [done|].
  assert (∀ n, n ≤ length relative → synced (fa_root self ++ take n relative) s2) as Hall.
  { intros n Hn. apply Hsync, elem_of_app. destruct n as [|n]; [right; rewrite take_0, app_nil_r; by left|left; by apply flush_list_in]. }
  split.
  - specialize (Hall (length relative) ltac:(lia)). rewrite take_ge in Hall by lia. by apply Hall.
  - intros d Hw. pose proof Hw as (parent & Hpar & Hanc & Hlen). rewrite Hp in Hpar. simplify_eq. unfold ancestors in Hanc.
    apply elem_of_list_to_set, list_elem_of_fmap in Hanc as (n & -> & Hn%elem_of_seq). rewrite length_app in Hn.
    rewrite length_take, length_app in Hlen. rewrite take_app, take_ge in Hw |- * by lia.
    remember (n - length (fa_root self)) as m eqn:Em. destruct m as [|m]; [lia|].
    apply (Hall m ltac:(lia)); [done|]. destruct (lookup_lt_is_Some_2 relative m ltac:(lia)) as [c Hc].
    rewrite (take_S_r _ _ _ Hc), app_assoc. unfold path_parent. rewrite removelast_last.
    by destruct ((fa_root self ++ take m relative) ++ [c]) eqn:E; [destruct (fa_root self ++ take m relative)|].
Qed.
End flushing.

(** ** The operations *)

Abbreviation durable_if_ok b := (λ (_ : trace) (r : result unit) s, r = Ok tt → durable b s).

Lemma mine_true : mine (λ _, True).
Proof. by intros s s'. Qed.
Lemma here_err b e tr s : rg_here (durable_if_ok b) (Ret (Err e)) tr s.
Proof. intros s' Hu Hok. done. Qed.
Lemma here_ok b tr s : durable b s → rg_here (durable_if_ok b) (Ret (Ok tt)) tr s.
Proof. intros Hd s' Hu _. by eapply durable_kept. Qed.
Lemma sync_ok_here b P tr s :
  mine P → stored b s → P s →
  rg_here (λ _ r s', r = Ok tt → durable b s' ∧ P s') (let! _ := sync_path_directories self place in Ret (Ok tt)) tr s.
Proof.
  intros HP Hs HPs. eapply here_bind; [by apply sync_path_here|]. intros tr1 [[]|e] s1 Hs1 s' Hu Hok; [|done].
  destruct (Hs1 eq_refl) as [Hd HPs1]. split; [by eapply durable_kept|]. apply (HP s1); [apply Hd|done|apply Hu].
Qed.

(** Renaming a flushed temporary file to the object stores it. *)
Lemma persisted_stored b t s :
  may_write self immutable me k s → inv s → dirs_ready self k s → holds_temp me t (flushed_with b) s →
  stored b (persisted t place s).
Proof.
  intros Hw Hi Hd (Htmp & Htemp & n & Hn & Hb & Hsync).
  assert (fs_guar self mutable immutable me s (persisted t place s)) as Hg by (by eapply persist_guar).
  split; [by eapply guar_keeps_inv|]. split; [intros parent Hp; apply (Hd parent Hp)|].
  exists (nt_inode t), n. split; [|done]. rewrite persisted_entries by (by apply (key_ne_tmp self mutable immutable)).
  by rewrite decide_True.
Qed.

(** Dropping the temporary file, and releasing the lock, keep the object durable. *)
Lemma drop_durable b t s :
  holds_temp me t (flushed_with b) s → durable b s →
  durable b (with_temps (delete (nt_inode t)) (set_entry (nt_path t) None s)).
Proof.
  intros (Htmp & Htemp & _) Hd. apply (durable_kept (S me) b s); [|done]. split.
  - apply (drop_temp_guar self mutable immutable me t s Htemp Htmp). lia.
  - trans (set_entry (nt_path t) None s); [|by apply entry_kept_same]. apply entry_kept_set. intros _. apply not_eq_sym.
    by apply (key_ne_tmp self mutable immutable).
Qed.
Lemma release_durable b i s : durable b s → durable b (with_locks (release me i) s).
Proof.
  apply (durable_kept (S me)). split; [apply (release_guar self mutable immutable me i s); lia|by apply entry_kept_same].
Qed.
Lemma unlock_here b h tr s :
  durable b s → rg_here (durable_if_ok b) (let! _ := io_request (FUnlock h) in Ret (Ok tt)) tr s.
Proof.
  intros Hd s1 x s2 Hu Hx. split; [done|]. destruct x as [[]|e]; cbn [io_lift bind]; [|apply here_err].
  apply (durable_kept _ _ _ _ Hu) in Hd. apply here_ok.
  destruct Hx as [[[? ?] _]|[_ Hx]]; [done|]. destruct h; subst; [by apply release_durable|done].
Qed.

(** What [fs_read] finds is stored, as long as nobody takes it away. *)
Lemma read_here b tr s :
  inv s → dirs_ready self k s → rg_here (λ _ r s', r = inl b → stored b s') (fs_read place) tr s.
Proof.
  intros Hi Hd s1 x s2 [Hr _] [-> Hx]. split; [done|].
  assert (inv s1) as Hi1 by (by apply (rl_inv _ _ _ _ _ _ Hr)).
  assert (dirs_ready self k s1) as Hd1 by (intros parent Hp; etrans; [by apply Hd|]; by eapply rl_dirs).
  clear s Hi Hd Hr. destruct x as [[i|q]|e].
  - assert (∃ b', stored b' s1) as [b' Hs].
    { destruct (file_at_key _ _ _ k s1 i Hi1 Hk Hx) as (n & Hn & _). exists (in_bytes n). split; [done|]. split; [done|].
      by exists i, n. }
    intros s3 y s4 Hu [-> Hy]. split; [done|]. apply (stored_kept _ _ _ _ Hu) in Hs.
    intros s' Hu' ->. apply (stored_kept _ _ _ _ Hu'). destruct Hs as (Hi3 & Hd3 & j & n & Hj & Hn & Hb).
    split; [done|]. split; [done|]. exists j, n. split; [done|]. split; [done|].
    destruct Hu as [_ He]. apply (ek_entry _ _ _ He) in Hx. destruct Hy as (j' & n' & [= ->] & Hn' & ->).
    rewrite Hj in Hx. by simplify_eq.
  - destruct Hx as [-> Hx]. by destruct (iv_dirs _ _ _ _ Hi1 k Hk).
  - by intros s' _.
Qed.

Lemma put_here b tr s :
  immutable k = true → inv s →
  rg_here (λ tr' r s', r = Ok tt →
     (∃ t tr1, tr' = tr ++ t :: tr1 ∧ contents_of t.1 k ≠ None) ∨ durable b s') (fs_put_immutable self k b) tr s.
Proof.
  intros Him Hi. unfold fs_put_immutable. intros s1 x s2 [Hr _] [-> Hx]. split; [done|]. cbn [bind].
  apply (rl_inv _ _ _ _ _ _ Hr) in Hi. clear Hr s. rename s1 into s. destruct x.
  { apply rg_whatever. intros tr' r s' _. left. exists (s, s), tr'. rewrite <-app_assoc. split; [done|].
    destruct (Hx eq_refl) as [[i He]|Hd]; [|by destruct (iv_dirs _ _ _ _ Hi k Hk)].
    destruct (file_at_key _ _ _ k s i Hi Hk He) as (n & _ & _ & _ & Hf). simpl. by rewrite contents_at_key, Hf by done. }
  eapply rg_weaken with (Q := durable_if_ok b); [done|by intros tr' r s' Hd Hok; right; apply Hd|].
  eapply here_bind.
  { eapply calm_here; [by apply (write_temporary_calm self mutable immutable me k b (λ _, True)); auto using stable_true|done|done]. }
  intros tr1 r s3 (Hi3 & tr2 & _ & Hr). destruct r as [t|e]; [|apply here_err].
  destruct (Hr t eq_refl) as [Hd Ht]. clear Hr.
  assert (mine (holds_temp me t (flushed_with b))) as Hmine by (intros ??; apply (stable_holds self mutable immutable me)).
  intros s4 x s5 [Hr He] Hx'.
  assert (dirs_ready self k s4) as Hd4 by (intros parent Hp; etrans; [by apply Hd|]; by eapply rl_dirs).
  apply (λ Hm, Hmine _ s4 Hi3 Hm Hr) in Ht. apply (rl_inv _ _ _ _ _ _ Hr) in Hi3. clear Hd Hr He s3. split; [done|].
  destruct Hx' as [[[e ->] ->]|(-> & Hv & Hent & ->)]; cbn [bind].
  - eapply here_bind with (Q := λ _ r s', (r = inl b → stored b s') ∧ holds_temp me t (flushed_with b) s').
    { eapply rg_weaken; [done| |apply rg_and; [by apply (read_here b)|]].
      2: { eapply calm_here; [by apply (fs_read_calm self mutable immutable me k (holds_temp me t (flushed_with b)))|done|done]. }
      intros tr' r s' [Hst (_ & tr4 & Ht' & _)]. by split. }
    intros tr3 found s6 [Hst Ht6].
    eapply here_bind with (Q := λ _ r s', r = Ok tt → durable b s' ∧ holds_temp me t (flushed_with b) s').
    { destruct found as [existing|e']; [case_bool_decide; [subst existing; by apply sync_ok_here; auto|]|]; by intros s' _. }
    intros tr5 r s7 Hr7 s8 y s9 Hu Hy. split; [done|]. intros s' Hu' Hok. destruct (Hr7 Hok) as [Hd7 Ht7].
    apply (durable_kept _ _ _ _ Hu'). pose proof (durable_kept _ _ _ _ Hu Hd7) as Hd8.
    destruct Hy as [->| ->]; [|done]. apply drop_durable; [|done]. apply (Hmine s7); [apply Hd7|done|apply Hu].
  - eapply rg_weaken; [done| |apply (sync_ok_here b (λ _, True)); [apply mine_true|apply persisted_stored; auto; by left|done]].
    intros tr' r s' Hd Hok. by apply Hd.
Qed.

Lemma atomic_write_here b l tr s :
  mutable k = true → inv s → locked self me l s →
  rg_here (durable_if_ok b) (atomic_write self place b) tr s.
Proof.
  intros Hm Hi Hl. unfold atomic_write. eapply here_bind.
  { eapply calm_here; [apply (write_temporary_calm self mutable immutable me k b (locked_at self me k l (fs_entries s !! place)))|done|done];
      [done|by apply stable_locked_at|by eapply insensitive_locked_at]. }
  intros tr1 r s3 (Hi3 & tr2 & Hl3 & Hr). destruct r as [t|e]; [|apply here_err].
  destruct (Hr t eq_refl) as [Hd Ht]. intros s4 x s5 [Hrel _] Hx'. split; [done|].
  destruct Hx' as [[[e ->] ->]|(-> & Hv & Hent & ->)].
  - intros s6 y s7 _ _. split; [done|]. apply here_err.
  - eapply rg_weaken; [done| |apply (sync_ok_here b (λ _, True)); [apply mine_true|apply persisted_stored|done]].
    + intros tr' r s' Hdur Hok. by apply Hdur.
    + destruct Hl3 as [Hl3 _]. right. exists l. destruct Hl3 as [[Hf Hdir] Hlk].
      split; [by apply (rl_lock_file _ _ _ _ _ _ Hrel)|by apply (rl_locks _ _ _ _ _ _ Hrel)].
    + by apply (rl_inv _ _ _ _ _ _ Hrel).
    + intros parent Hp. etrans; [by apply Hd|]. by eapply rl_dirs.
    + by apply (stable_holds self mutable immutable me _ _ s3 s4).
Qed.

Lemma swap_here expected b tr s :
  mutable k = true → inv s → rg_here (durable_if_ok b) (fs_compare_and_swap self k expected b) tr s.
Proof.
  intros Hm Hi. unfold fs_compare_and_swap.
  eapply here_bind; [eapply calm_here; [apply (open_lock_calm self mutable immutable me)|done|done]|].
  intros tr1 r s1 (Hi1 & tr2 & _ & Hr). destruct r as [h|e]; [|apply here_err]. destruct Hr as (l & -> & Hl).
  eapply here_bind with (Q := durable_if_ok b).
  2: { intros tr3 r s2 Hs2 s3 x s4 Hu Hx. split; [done|]. intros s' Hu' Hok. simpl in Hx. subst s4.
       apply (durable_kept _ _ _ _ Hu'), release_durable, (durable_kept _ _ _ _ Hu). auto. }
  unfold swap_locked. eapply here_bind.
  { eapply calm_here; [apply (sync_directory_calm self mutable immutable me (fa_root self) (lock_is self l))|done|done];
      [apply stable_lock_is|by intros s' [_ ?]]. }
  intros tr3 r s2 (Hi2 & _ & Hl2). destruct r as [[]|e]; [|apply here_err].
  eapply here_bind; [eapply calm_here; [apply (take_lock_calm self mutable immutable me l)|done|done]|].
  intros tr4 r s3 (Hi3 & _ & Hl3). destruct r as [[]|e]; [|apply here_err]. specialize (Hl3 eq_refl).
  eapply here_bind.
  { eapply calm_here; [apply (read_mutable_bounded_calm self mutable immutable me k _ (locked self me l) (λ _, locked self me l))|done|done];
      [done|apply stable_locked|intros; apply stable_locked|done]. }
  intros tr5 r s4 (Hi4 & _ & Hl4 & _). destruct r as [current|e]; [|apply here_err].
  destruct (negb _).
  - intros s5 x s6 _ _. split; [done|]. destruct x as [[]|e]; apply here_err.
  - eapply here_bind; [by apply (atomic_write_here b l)|]. intros tr6 [[]|e] s5 Hs5; [|apply here_err].
    apply unlock_here. auto.
Qed.

(** ** Theorems *)

(** C13: a put of a new object, and a compare-and-swap, that return success leave an
    object that a crash cannot lose, then or at any later moment [s''].  Meanwhile
    and later the other processes may make any system calls, with any failures, as
    long as they keep their guarantees and do not delete or replace this object; so
    after a crash it is found with its bytes, and so are its directories.  A put is
    of a new object unless its first call saw one ([t] is the state of that call);
    then nothing is flushed. *)
Theorem fs_write_durable b expected s tr s' s'' :
  inv s → anyone place s' s'' →
  (immutable k = true → steps (fs_step me) (others place) (fs_put_immutable self k b) s tr (Ret (Ok tt)) s' →
     (∃ t, head tr = Some t ∧ contents_of t.1 k ≠ None) ∨ survives b s'') ∧
  (mutable k = true → steps (fs_step me) (others place) (fs_compare_and_swap self k expected b) s tr (Ret (Ok tt)) s' →
     survives b s'').
Proof.
  intros Hi Hlater. split.
  - intros Him Hs. assert (PreOrder (others place)) by (unfold others; apply _).
    pose proof (rg_rely _ _ (others place) _ _ _ _ _ (others_undisturbed place) (put_here b [] s Him Hi)) as Hrg.
    destruct (steps_rg_ret _ _ _ _ _ _ _ _ _ Hs Hrg) as [_ Hq].
    destruct (Hq eq_refl) as [(t & tr1 & -> & Ht)|Hd]; [left; by exists t|right; by eapply durable_survives].
  - intros Hm Hs. assert (PreOrder (others place)) by (unfold others; apply _).
    pose proof (rg_rely _ _ (others place) _ _ _ _ _ (others_undisturbed place) (swap_here expected b [] s Hm Hi)) as Hrg.
    destruct (steps_rg_ret _ _ _ _ _ _ _ _ _ Hs Hrg) as [_ Hq]. eapply durable_survives; [by apply Hq|done].
Qed.
End durable.
