(* ===== verification/FsListing.v ===== *)
(** * The file-system back end: listings

    [list] walks the directories below the root with a stack.  Alone on a tree where
    every file is an object, a temporary file or the lock, it returns exactly the
    objects whose keys start with the prefix or the error of one of its own system
    calls ([fs_list_exact]); one unit of fuel for
    each directory is enough. *)

From stdpp Require Import pretty relations gmap.
From S2P Require Import Prelude Bytes Text Externals Hash RelyGuarantee Store StoreContract ObjectStore ObjectStoreFacts FsStore FsModel FsFacts FsLinear FsRefinement FsTheorems.
From Stdlib Require Import Lia ZArith Strings.Ascii.

(** ** Paths below a directory *)

Definition below (d q : path) : Prop := ∃ rest, q = d ++ rest.
#[export] Instance below_dec d q : Decision (below d q).
Proof.
  refine (cast_if (decide (take (length d) q = d))).
  - exists (drop (length d) q). transitivity (take (length d) q ++ drop (length d) q); [symmetry; apply take_drop|].
    f_equal. done.
  - intros (rest & ->). by rewrite take_app_length in *.
Defined.

Lemma below_refl d : below d d.
Proof. exists []. by rewrite app_nil_r. Qed.
Lemma below_trans a b c : below a b → below b c → below a c.
Proof. intros (r1 & ->) (r2 & ->). exists (r1 ++ r2). by rewrite app_assoc. Qed.
Lemma parent_child q d : path_parent q = Some d ↔ ∃ c, q = d ++ [c].
Proof.
  split.
  - destruct q as [|x q _] using rev_ind; [done|]. unfold path_parent. rewrite removelast_last.
    intros E. exists x. f_equal. destruct (q ++ [x]) eqn:Eq; [done|by simplify_eq].
  - intros (c & ->). unfold path_parent. rewrite removelast_last. by destruct d.
Qed.
(** Two directories above one path are one above the other. *)
Lemma below_linear a b q : below a q → below b q → below a b ∨ below b a.
Proof.
  intros (r & ->). revert b. induction a as [|x a IH]; intros b (r' & E); [left; by exists b|].
  destruct b as [|y b]; [right; by exists (x :: a)|]. simpl in E. simplify_eq.
  destruct (IH b) as [(u & ->)|(u & ->)]; [by exists r'|left|right]; by exists u.
Qed.
Lemma below_child d c p : below p (d ++ [c]) → p = d ++ [c] ∨ below p d.
Proof.
  intros (rest & E). destruct rest as [|x rest _] using rev_ind; [left; by rewrite app_nil_r in E|right].
  rewrite app_assoc in E. apply app_inj_tail in E as [-> _]. by exists rest.
Qed.
Lemma below_strict d q : below d q → q = d ∨ ∃ c rest, q = d ++ c :: rest.
Proof. intros ([|c rest] & ->); [left; apply app_nil_r|right; eauto]. Qed.

Definition below_any (ds : list path) (q : path) : Prop := ∃ d, d ∈ ds ∧ below d q.
#[export] Instance below_any_dec ds q : Decision (below_any ds q).
Proof.
  refine (cast_if (decide (Exists (λ d, below d q) ds))).
  - unfold below_any. by apply Exists_exists.
  - unfold below_any. by rewrite <-Exists_exists.
Defined.

Lemma filter_split {A} (P Q R : A → Prop) `{∀ x, Decision (P x), ∀ x, Decision (Q x), ∀ x, Decision (R x)} (l : list A) :
  (∀ x, x ∈ l → P x ↔ Q x ∨ R x) → (∀ x, x ∈ l → Q x → R x → False) → filter P l ≡ₚ filter Q l ++ filter R l.
Proof.
  induction l as [|x l IH]; intros Hpq Hd; [done|]. rewrite !filter_cons.
  assert (filter P l ≡ₚ filter Q l ++ filter R l) as E by (apply IH; set_solver).
  specialize (Hpq x ltac:(by left)). specialize (Hd x ltac:(by left)).
  repeat case_decide; try tauto; rewrite E; solve [done|by rewrite Permutation_middle].
Qed.

(** A key of plain characters is its own path. *)
Lemma replace_char_absent a b k : contains_char a k = false → replace_char a b k = k.
Proof.
  induction k as [|c k IH]; [done|]. simpl. intros [Hc Hk]%orb_false_iff. rewrite IH by done.
  by rewrite Hc.
Qed.
Lemma good_part_plain part : forallb key_char (String.list_ascii_of_string part) = true → contains_char "\" part = false.
Proof.
  induction part as [|c part IH]; [done|]. simpl. intros [Hc Hk]%andb_true_iff. rewrite IH, orb_false_r by done.
  apply bool_decide_eq_false. intros ->. done.
Qed.
Lemma replace_char_good k : good_key k = true → replace_char "\" "/" k = k.
Proof.
  intros Hk. apply replace_char_absent. unfold good_key in Hk. destruct (split_on_join "/" k) as [_ <-].
  induction (split_on "/" k) as [|part parts IH]; [done|]. simpl in Hk. apply andb_true_iff in Hk as [Hp Hk].
  unfold good_part in Hp. bool_prop. destruct parts as [|p parts]; [by apply good_part_plain|].
  change (join "/" (part :: p :: parts)) with (part +:+ String "/" (join "/" (p :: parts))).
  rewrite contains_char_app, good_part_plain by done. simpl contains_char at 1. by apply IH.
Qed.
Lemma omap_some_id {A} (l : list A) : omap Some l = l.
Proof. induction l as [|x l IH]; [done|]. change (x :: omap Some l = x :: l). by rewrite IH. Qed.

Section listing.
Context `{Sha256, Hex} (self : FsArchiveStore) (mutable immutable : string → bool) {HK : FsKeys mutable immutable} (me : nat).

Abbreviation contents_of := (fs_contents self mutable immutable).
Abbreviation inv := (fs_inv self mutable immutable).
Abbreviation key := (is_key mutable immutable).

(** The errors that the answer of a system call reports, and the calls that report
    nothing but [fails]. *)
Definition reports X (e : fsE X) : X → io_error → Prop :=
  match e in fsE X return X → io_error → Prop with
  | FExists _ | FDropTemp _ | FClose _ | FClock => λ _ _, False
  | FReadDir _ => λ x err, x = inr err ∨ ∃ entries, x = inl entries ∧ inr err ∈ entries
  | FMetadata _ => λ x err, x = inr err
  | FOpen _ | FOpenWrite _ | FOpenCreate _ => λ x err, x = inr err
  | FReadToEnd _ _ => λ x err, x = inr err
  | FTempFile _ => λ x err, x = inr err
  | FSetModified _ _ | FSyncAll _ | FRemoveFile _ | FCreateDir _ | FCreateDirAll _ | FWriteAll _ _
  | FPersist _ _ | FPersistNoclobber _ _ | FLockExclusive _ | FUnlock _ => λ x err, x = inr err
  end.
Definition step_reporting (fails : io_error → Prop) X (e : fsE X) (s : FsState) (x : X) (s' : FsState) : Prop :=
  fs_step me X e s x s' ∧ ∀ err, reports X e x err → fails err.
Context (fails : io_error → Prop).
Definition failure (e : error) : Prop := ∃ err, fails err ∧ e = io_into err.

Abbreviation alone := (rg (step_reporting fails) eq (λ _ _, True)).
Abbreviation root := (fa_root self).

(** The tree below the root: parents are directories, and every file is an object,
    a temporary file or the lock. *)
Record fs_tree (s : FsState) : Prop := {
  ft_closed q d : visible q s → path_parent q = Some d → below root d → d ∈ fs_dirs s;
  ft_files q i : fs_entries s !! q = Some i → below root q →
    is_tmp q = true ∨ q = lock_path self ∨ ∃ k, key k ∧ q = fs_path self k
}.

Section tree.
Context (s : FsState) (Hinv : inv s) (Htree : fs_tree s) (prefix : string).

(** What a file contributes to the listing. *)
Definition listed_as (q : path) : option Listed :=
  if is_tmp q then None
  else
    match path_strip root q, file_at q s with
    | Some relative, Some n =>
        let k := replace_char "\" "/" (join "/" relative) in
        if String.prefix prefix k
        then Some {| l_key := k; l_size := len (in_bytes n); l_modified := in_modified n |} else None
    | _, _ => None
    end.

Definition is_dir (q : path) : Prop := q ∈ fs_dirs s.

Lemma list_entries_alone entries pending out tr :
  (∀ q, inl q ∈ entries → below root q) → (∀ err, inr err ∈ entries → fails err) →
  alone (λ _ r s', s' = s ∧
      match r with
      | Ok (pending', out') => ∃ l, entries = map inl l ∧ (∀ q, q ∈ l → visible q s) ∧
          pending' = rev (filter is_dir l) ++ pending ∧ out' = out ++ omap listed_as (filter (λ q, ¬ is_dir q) l)
      | Err e => failure e
      end) (list_entries self prefix entries pending out) tr s.
Proof.
  revert pending out tr; induction entries as [|entry entries IH]; intros pending out tr Hbelow Hfails; cbn [list_entries].
  { intros s' <-. split; [done|]. exists []. rewrite app_nil_r. split_and!; try done. by intros q ?%not_elem_of_nil. }
  specialize (λ pending out tr, IH pending out tr (λ q Hq, Hbelow q (list_elem_of_further _ _ _ Hq))
    (λ err He, Hfails err (list_elem_of_further _ _ _ He))).
  destruct entry as [q|e]; cbn [io_lift]; [|intros s' <-; split; [done|]; exists e; split; [apply Hfails; by left|done]].
  intros s1 x s2 <- [[-> Hx] Hrep]. split; [done|]. destruct x as [md|e]; cbn [io_lift bind].
  2:{ intros s' <-. split; [done|]. exists e. split; [by apply Hrep|done]. }
  assert ((is_dir q ∧ md_is_dir md = true) ∨ (¬ is_dir q ∧ ∃ n, md_is_dir md = false ∧ file_at q s = Some n ∧
    md_len md = len (in_bytes n) ∧ md_modified md = in_modified n)) as Hmd.
  { destruct Hx as [(i & n & He & Hn & ->)|[Hd Hb]]; [right|by left]. split.
    - intros Hd. rewrite (iv_disjoint _ _ _ _ Hinv q Hd) in He. done.
    - exists n. split_and!; try done. unfold file_at. by rewrite He. }
  assert (visible q s) as Hv.
  { destruct Hmd as [[Hd _]|(_ & n & _ & Hf & _)]; [by right|left]. unfold file_at in Hf. by destruct (fs_entries s !! q). }
  destruct Hmd as [[Hd ->]|(Hd & n & -> & Hf & Hlen & Hmod)].
  - eapply rg_weaken; [done| |apply IH]. intros tr' r s' [-> Hr]. split; [done|]. destruct r as [[pending' out']|]; [|done].
    destruct Hr as (l & -> & Hvl & -> & ->). exists (q :: l). rewrite filter_cons_True, filter_cons_False by tauto.
    split_and!; [done|set_solver| |done]. simpl. by rewrite <-app_assoc.
  - destruct (String.prefix ".tmp" (file_name q)) eqn:Htmp.
    + eapply rg_weaken; [done| |apply IH]. intros tr' r s' [-> Hr]. split; [done|]. destruct r as [[pending' out']|]; [|done].
      destruct Hr as (l & -> & Hvl & -> & ->). exists (q :: l). rewrite filter_cons_False, filter_cons_True by tauto.
      split_and!; [done|set_solver|done|]. simpl. unfold listed_as at 2. unfold is_tmp. by rewrite Htmp.
    + destruct (Hbelow q ltac:(by left)) as [relative Hq].
      assert (path_strip root q = Some relative) as Es by (rewrite Hq; apply path_strip_app). rewrite Es. cbn [ok_or].
      eapply rg_weaken; [done| |apply IH]. intros tr' r s' [-> Hr]. split; [done|]. destruct r as [[pending' out']|]; [|done].
      destruct Hr as (l & -> & Hvl & -> & ->). exists (q :: l). rewrite filter_cons_False, filter_cons_True by tauto.
      split_and!; [done|set_solver|done|]. simpl. unfold listed_as at 2, is_tmp. rewrite Htmp, Es, Hf, Hlen, Hmod.
      destruct (String.prefix prefix _); [by rewrite <-app_assoc|done].
Qed.

(** The files still to be listed, and the directories still to be visited. *)
Definition files : list path := filter (below root) (map_to_list (fs_entries s)).*1.
Definition done_files (pending : list path) : list path := filter (λ q, ¬ below_any pending q) files.
Definition todo (pending : list path) : gset path := filter (below_any pending) (fs_dirs s).

(** The stack: directories below the root, none above another. *)
Definition stack_ok (pending : list path) : Prop :=
  NoDup pending ∧ (∀ p, p ∈ pending → is_dir p ∧ below root p) ∧
  ∀ p p', p ∈ pending → p' ∈ pending → below p p' → p = p'.

Lemma files_nodup : NoDup files.
Proof. apply NoDup_filter, NoDup_fst_map_to_list. Qed.
Lemma elem_files q : q ∈ files ↔ is_Some (fs_entries s !! q) ∧ below root q.
Proof.
  unfold files. rewrite list_elem_of_filter, list_elem_of_fmap. split.
  - intros [Hb ([q' i] & -> & Hq)]. apply elem_of_map_to_list in Hq. eauto.
  - intros [[i Hi] Hb]. split; [done|]. exists (q, i). split; [done|]. by apply elem_of_map_to_list.
Qed.
Lemma file_not_dir q : q ∈ files → ¬ is_dir q.
Proof. intros [[i Hi] _]%elem_files Hd. rewrite (iv_disjoint _ _ _ _ Hinv q Hd) in Hi. done. Qed.

(** Everything above a visible path is a directory. *)
Lemma above_visible x rest : rest ≠ [] → below root x → visible (x ++ rest) s → is_dir x.
Proof.
  induction rest as [|y rest IH] using rev_ind; [done|]. intros _ Hb Hv.
  assert (is_dir (x ++ rest)) as Hd.
  { apply (ft_closed _ Htree _ _ Hv); [apply parent_child; exists y; by rewrite app_assoc|].
    eapply below_trans; [exact Hb|by exists rest]. }
  destruct rest as [|z rest]; [by rewrite app_nil_r in Hd|]. apply IH; [done..|by right].
Qed.

Section visit.
Context (d : path) (rest l : list path) (Hstack : stack_ok (d :: rest)) (Hnodup : NoDup l) (Hchild : ∀ q, q ∈ l ↔ child_of d q s).

Definition pushed : list path := rev (filter is_dir l) ++ rest.

Lemma elem_pushed p : p ∈ pushed ↔ (is_dir p ∧ path_parent p = Some d) ∨ p ∈ rest.
Proof.
  unfold pushed. rewrite elem_of_app, list_elem_of_In, <-in_rev, <-list_elem_of_In, list_elem_of_filter, Hchild.
  unfold child_of, visible, is_dir. tauto.
Qed.

Lemma root_d : below root d.
Proof. destruct Hstack as (_ & Hd & _). apply Hd. by left. Qed.

Lemma not_above_rest p : p ∈ rest → ¬ below d p ∧ ¬ below p d.
Proof.
  destruct Hstack as (Hn & _ & Ha). inversion Hn as [|? ? Hnin]; subst. intros Hp. split; intros Hb; apply Hnin.
  - rewrite (Ha d p); [done|by left|by right|done].
  - rewrite <-(Ha p d); [done|by right|by left|done].
Qed.

Lemma pushed_ok : stack_ok pushed.
Proof.
  pose proof Hstack as (Hn & Hd & Ha). inversion Hn as [|? ? Hnin Hrest]; subst.
  assert (∀ p p', is_dir p → path_parent p = Some d → p' ∈ rest → ¬ below p p' ∧ ¬ below p' p) as Hcross.
  { intros p p' Hpd Hpp Hp'. apply parent_child in Hpp as (c & ->). destruct (not_above_rest p' Hp') as [N1 N2]. split; intros Hb.
    - apply N1. eapply below_trans; [|exact Hb]. by exists [c].
    - apply below_child in Hb as [->|Hb]; [|done]. apply N1. by exists [c]. }
  split; [|split].
  - unfold pushed. apply NoDup_app. split_and!.
    + apply NoDup_ListNoDup, NoDup_rev, NoDup_ListNoDup. by apply NoDup_filter.
    + intros p Hp Hp'. rewrite list_elem_of_In, <-in_rev, <-list_elem_of_In, list_elem_of_filter, Hchild in Hp.
      destruct Hp as [Hpd [Hpp _]]. destruct (Hcross p p Hpd Hpp Hp') as [Hb _]. by apply Hb, below_refl.
    + done.
  - intros p [[Hpd Hpp]|Hp]%elem_pushed; [|apply Hd; by right]. split; [done|].
    apply parent_child in Hpp as (c & ->). eapply below_trans; [apply root_d|by exists [c]].
  - intros p p' [[Hpd Hpp]|Hp]%elem_pushed [[Hpd' Hpp']|Hp']%elem_pushed Hb.
    + apply parent_child in Hpp as (c & ->), Hpp' as (c' & ->). apply below_child in Hb as [->|Hb]; [done|].
      exfalso. destruct Hb as (r & Hb). apply (f_equal length) in Hb. rewrite !length_app in Hb. simpl in Hb. lia.
    + destruct (Hcross p p' Hpd Hpp Hp') as [N _]. done.
    + destruct (Hcross p' p Hpd' Hpp' Hp) as [_ N]. done.
    + apply Ha; [by right|by right|done].
Qed.

Lemma visited q : q ∈ files →
  ((¬ below_any pushed q ↔ ¬ below_any (d :: rest) q ∨ path_parent q = Some d) ∧
   (¬ below_any (d :: rest) q → path_parent q = Some d → False)).
Proof.
  intros Hq. pose proof (file_not_dir q Hq) as Hnd. pose proof Hstack as (_ & Hd & _).
  assert (path_parent q = Some d → below d q) as Hbelow by (intros (c & ->)%parent_child; by exists [c]).
  split; [split|].
  - intros Hn. destruct (decide (below d q)) as [Hb|Hb].
    + right. apply below_strict in Hb as [->|(c & r & ->)]; [by destruct Hnd; apply Hd; left|].
      destruct r as [|c' r]; [by apply parent_child; exists c|]. exfalso. apply Hn. exists (d ++ [c]). split.
      * apply elem_pushed. left. split; [|by apply parent_child; exists c].
        apply elem_files in Hq as [Hi _]. apply (above_visible _ (c' :: r)); [done| |by left; rewrite <-app_assoc].
        eapply below_trans; [apply root_d|by exists [c]].
      * exists (c' :: r). by rewrite <-app_assoc.
    + left. intros (p & [->|Hp]%elem_of_cons & Hb'); [done|]. apply Hn. exists p. split; [|done]. apply elem_pushed. by right.
  - intros [Hn|Hp] (p & [[Hpd Hpp]|Hp']%elem_pushed & Hb).
    + apply Hn. exists d. split; [by left|]. apply parent_child in Hpp as (c & ->). eapply below_trans; [|exact Hb]. by exists [c].
    + apply Hn. exists p. split; [by right|done].
    + apply parent_child in Hpp as (c & ->), Hp as (c' & ->). apply below_child in Hb as [E|Hb]; [by rewrite E in Hpd|].
      destruct Hb as (r & Hb). apply (f_equal length) in Hb. rewrite !length_app in Hb. simpl in Hb. lia.
    + destruct (not_above_rest p Hp') as [N1 N2]. apply parent_child in Hp as (c & ->). apply below_child in Hb as [->|Hb]; [|done].
      apply N1. by exists [c].
  - intros Hn Hp. apply Hn. exists d. split; [by left|auto].
Qed.

Lemma visit_files :
  done_files pushed ≡ₚ done_files (d :: rest) ++ filter (λ q, ¬ is_dir q) l.
Proof.
  unfold done_files. rewrite (filter_split _ (λ q, ¬ below_any (d :: rest) q) (λ q, path_parent q = Some d)).
  - f_equiv. apply NoDup_Permutation; [by apply NoDup_filter, files_nodup|by apply NoDup_filter|].
    intros q. rewrite !list_elem_of_filter, elem_files, Hchild. unfold child_of, visible, is_dir. split.
    + intros [Hp [Hi Hb]]. split; [|auto]. apply file_not_dir, elem_files. auto.
    + intros [Hd [Hp [Hi|?]]]; [|done]. split; [done|]. split; [done|].
      apply parent_child in Hp as (c & ->). eapply below_trans; [apply root_d|by exists [c]].
  - intros q Hq. by apply visited.
  - intros q Hq. by apply visited.
Qed.

Lemma visit_fewer : size (todo pushed) < size (todo (d :: rest)).
Proof.
  apply subset_size. split.
  - intros q [Hq Hd]%elem_of_filter. apply elem_of_filter. split; [|done].
    destruct Hq as (p & [[Hpd Hpp]|Hp]%elem_pushed & Hb).
    + exists d. split; [by left|]. apply parent_child in Hpp as (c & ->). eapply below_trans; [|exact Hb]. by exists [c].
    + exists p. split; [by right|done].
  - intros Hsub. pose proof Hstack as (_ & Hd & _).
    assert (d ∈ todo pushed) as Hin.
    { apply Hsub, elem_of_filter. split; [exists d; split; [by left|apply below_refl]|apply Hd; by left]. }
    apply elem_of_filter in Hin as [(p & [[Hpd Hpp]|Hp]%elem_pushed & Hb) _].
    + apply parent_child in Hpp as (c & ->). destruct Hb as (r & Hb). apply (f_equal length) in Hb.
      rewrite !length_app in Hb. simpl in Hb. lia.
    + by destruct (not_above_rest p Hp).
Qed.
End visit.

Lemma done_files_nil : done_files [] = files.
Proof.
  unfold done_files. induction files as [|q l IH]; [done|]. rewrite filter_cons_True, IH; [done|].
  intros (p & Hp & _). by apply not_elem_of_nil in Hp.
Qed.

Lemma list_directories_alone fuel pending out tr :
  stack_ok pending → size (todo pending) ≤ fuel → out ≡ₚ omap listed_as (done_files pending) →
  alone (λ _ r s', s' = s ∧
      match r with Ok out' => out' ≡ₚ omap listed_as files | Err e => failure e end)
    (list_directories self fuel prefix pending out) tr s.
Proof.
  revert pending out tr; induction fuel as [|fuel IH]; intros [|d rest] out tr Hs Hf Ho; cbn [list_directories].
  1, 3: intros s' <-; split; [done|]; by rewrite Ho, done_files_nil.
  - exfalso. assert (d ∈ todo (d :: rest)) as Hin.
    { destruct Hs as (_ & Hd & _). apply elem_of_filter. split; [|apply Hd; by left].
      exists d. split; [by left|apply below_refl]. }
    assert (size (todo (d :: rest)) = 0) as Hz by lia. apply size_empty_inv in Hz. set_solver.
  - pose proof Hs as (_ & Hd & _). destruct (Hd d ltac:(by left)) as [Hdir Hbelow].
    intros s1 x s2 <- [[-> Hx] Hrep]. split; [done|]. destruct x as [entries|e]; cbn [bind].
    + destruct Hx as [Hsub Hx]. eapply rg_bind, rg_weaken; [apply _|done| |apply list_entries_alone].
      * intros tr1 [[pending' out']|e] s3 [-> Hr]; [|intros s' <-; done].
        destruct Hr as (l & -> & _ & -> & ->). destruct Hx as (_ & Hn & Hc); [by apply Forall_fmap, Forall_forall; eauto|].
        apply NoDup_fmap_1 in Hn. assert (∀ q, q ∈ l ↔ child_of d q s) as Hchild.
        { intros q. split; [intros Hq; apply Hsub, list_elem_of_fmap; eauto|].
          intros Hq%Hc. apply list_elem_of_fmap in Hq as (q' & [= <-] & Hq). done. }
        change (rev (filter is_dir l) ++ rest) with (pushed rest l).
        apply IH; [by eapply pushed_ok|pose proof (visit_fewer d rest l Hs Hchild); lia|].
        rewrite (visit_files d rest l Hs Hn Hchild), omap_app, Ho. done.
      * intros q [(c & ->)%parent_child _]%Hsub. eapply below_trans; [exact Hbelow|by exists [c]].
      * intros err He. apply Hrep. right. eauto.
    + destruct (is_not_found e) eqn:En; [by destruct (Hx eq_refl)|]. intros s' <-. split; [done|].
      exists e. split; [apply Hrep; by left|done].
Qed.

(** What the keys contribute. *)
Lemma root_stack : stack_ok [root] ∧ done_files [root] = [].
Proof.
  split.
  - split_and!.
    + apply NoDup_singleton.
    + intros p ->%list_elem_of_singleton. split; [apply (iv_root _ _ _ _ Hinv)|apply below_refl].
    + by intros p p' ->%list_elem_of_singleton ->%list_elem_of_singleton.
  - unfold done_files, files. induction ((map_to_list (fs_entries s)).*1) as [|q l IH]; [done|].
    rewrite filter_cons. case_decide as Hb; [|done]. rewrite filter_cons_False, IH; [done|].
    intros Hn. apply Hn. exists root. split; [by left|done].
Qed.

Definition entry_of (k : string) (n : Inode) : Listed :=
  {| l_key := k; l_size := len (in_bytes n); l_modified := in_modified n |}.
Lemma fs_listed_key k : key k →
  listed_as (fs_path self k) = if String.prefix prefix k then entry_of k <$> file_at (fs_path self k) s else None.
Proof.
  intros Hk. unfold listed_as. rewrite (fs_path_not_tmp self mutable immutable) by done.
  rewrite (fs_path_key self mutable immutable) by done. rewrite path_strip_app.
  destruct (split_on_join "/" k) as [_ Hj]. rewrite Hj. rewrite replace_char_good.
  - by destruct (String.prefix prefix k), (file_at _ s).
  - apply keys_ok in Hk. unfold fs_key in Hk. by bool_prop.
Qed.
Hypothesis Hlock : String.prefix prefix ".fossil-publish.lock" = false.
Lemma listed_some q x : q ∈ files → listed_as q = Some x →
  ∃ k n, key k ∧ q = fs_path self k ∧ file_at q s = Some n ∧ String.prefix prefix k = true ∧ x = entry_of k n.
Proof.
  intros [[i Hi] Hb]%elem_files Hx. destruct (ft_files _ Htree q i Hi Hb) as [Ht|[->|(k & Hk & ->)]].
  - unfold listed_as in Hx. by rewrite Ht in Hx.
  - unfold listed_as in Hx. rewrite lock_not_tmp in Hx. unfold lock_path in Hx at 1. rewrite path_strip_app in Hx.
    destruct (file_at _ s); [|done]. change (replace_char "\" "/" _) with ".fossil-publish.lock" in Hx. by rewrite Hlock in Hx.
  - rewrite fs_listed_key in Hx by done. destruct (String.prefix prefix k) eqn:Ep; [|done].
    destruct (file_at (fs_path self k) s) as [n|] eqn:Ef; [|done]. simpl in Hx. simplify_eq. eauto 8.
Qed.

Lemma listing_files : listing prefix (contents_of s) (omap listed_as files).
Proof.
  split.
  - apply (NoDup_omap_key _ _ Some); [|rewrite (omap_some_id files); apply files_nodup].
    intros q q' x x' Hq Hq' Hx Hx' E. split; [by eexists|].
    destruct (listed_some q x Hq Hx) as (k & n & _ & -> & _ & _ & ->).
    destruct (listed_some q' x' Hq' Hx') as (k' & n' & _ & -> & _ & _ & ->). simpl in E. by subst.
  - intros k size. split.
    + intros (x & Hx & <- & <-). apply list_elem_of_omap in Hx as (q & Hq & Hx).
      destruct (listed_some q x Hq Hx) as (k & n & Hk & -> & Hf & Hp & ->). simpl. split; [done|].
      exists (in_bytes n). rewrite contents_at_key, Hf by done. simpl. eauto.
    + intros (Hp & b & w & Hc & ->). unfold fs_contents in Hc. case_decide as Hk; [|done].
      destruct (file_at (fs_path self k) s) as [n|] eqn:Ef; [|done]. simpl in Hc. simplify_eq.
      exists (entry_of k n). split; [|done]. apply list_elem_of_omap. exists (fs_path self k). split.
      * apply elem_files. unfold file_at in Ef. destruct (fs_entries s !! fs_path self k); [|done].
        split; [by eexists|]. rewrite (fs_path_key self mutable immutable) by done. by eexists.
      * rewrite fs_listed_key by done. by rewrite Hp, Ef.
Qed.
End tree.

Lemma listing_perm prefix m l l' : l ≡ₚ l' → listing prefix m l' → listing prefix m l.
Proof.
  intros Hp [Hn Hl]. split; [by rewrite Hp|]. intros k n. rewrite <-Hl. split; intros (x & Hx & E); exists x; by rewrite Hp in *.
Qed.

End listing.
