(* ===== verification/OpenStore.v ===== *)
(** * [src/store.rs]: [open_store]

    The back end is chosen by the form of the URI.  What a process asks of its
    surroundings is a request [envE]: the calls of the file system and of the
    object store that the two back ends make, the memory store that lives in the
    process, and the calls of the command line.  [store_impl] is the dynamic
    dispatch of [Arc<dyn ArchiveStore>].  [Url::parse] and its accessors are
    parameters. *)

From stdpp Require Import pretty relations gmap.
From S2P Require Import Prelude Bytes Text Externals Hash RelyGuarantee Store StoreContract ObjectStore ObjectStoreFacts FsStore FsModel FsFacts FsLinear FsTheorems.
From Stdlib Require Import Lia ZArith Strings.Ascii.

Class UrlCrate := {
  Url : Type;
  url_parse : string → Url + string;
  host_str : Url → option string;
  url_path : Url → string
}.

(** The calls of [AmazonS3Builder] after [from_env], in order. *)
Inductive S3Setting :=
| WithBucketName (bucket : string)
| WithConditionalPutETagMatch
| WithEndpoint (endpoint : string)
| WithAllowHttp (allow : bool)
| WithRegion (region : string).

Inductive envE : Type → Type :=
| EFs {X} (e : fsE X) : envE X
| EObject {X} (e : objectE X) : envE X
| EMemory {X} (e : storeE X) : envE X
| ECurrentDir : envE (io path)                                  (* env::current_dir *)
| EBuildS3 (settings : list S3Setting) : envE (unit + os_error) (* AmazonS3Builder::build *)
| EReadFile (p : string) : envE (io bytes)                      (* fs::read, relative to the current directory *)
| EWriteFile (p : string) (b : bytes) : envE (io unit)          (* fs::write *)
| EBind (listen : string) : envE (io unit)                      (* TcpListener::bind *)
| EPrintln (line : bytes) : envE unit                           (* println! *)
| ESleep (seconds : N) : envE unit.                             (* tokio::time::sleep *)

(** [str::trim_matches] of one character. *)
Fixpoint trim_start_matches (c : ascii) (s : string) : string :=
  match s with String x rest => if bool_decide (x = c) then trim_start_matches c rest else s | EmptyString => s end.
Fixpoint trim_end_matches (c : ascii) (s : string) : string :=
  match s with
  | EmptyString => EmptyString
  | String x rest =>
      match trim_end_matches c rest with
      | EmptyString => if bool_decide (x = c) then EmptyString else String x EmptyString
      | rest => String x rest
      end
  end.
Definition trim_matches (c : ascii) (s : string) : string := trim_end_matches c (trim_start_matches c s).

(** [Arc<dyn ArchiveStore>] *)
Inductive Opened := OpenedS3 (self : ObjectArchiveStore) | OpenedMemory | OpenedFs (self : FsArchiveStore).

Definition on_fs {A} (p : prog fsE A) : prog envE A := interp (λ X e, request (EFs e)) p.
Definition on_object {A} (p : prog objectE A) : prog envE A := interp (λ X e, request (EObject e)) p.

Section open.
Context `{Sha256, Hex, ObjectCrate, UrlCrate}.

Definition s3_settings (bucket : string) (s3_endpoint s3_region : option string) : list S3Setting :=
  [WithBucketName bucket; WithConditionalPutETagMatch]
  ++ match s3_endpoint with
     | Some endpoint =>
         WithEndpoint endpoint :: (if String.prefix "http://" endpoint then [WithAllowHttp true] else [])
     | None => []
     end
  ++ match s3_region with Some region => [WithRegion region] | None => [] end.

(** The root of a file-system store. *)
Definition store_root (p : string) : prog envE (result path) :=
  if starts_with_char "/" p then Ret (Ok (components p))
  else
    let* r := request ECurrentDir in
    let!? current := io_lift r in
    Ret (Ok (path_join current p)).

(** [open_store] *)
Definition open_store (uri : string) (s3_endpoint s3_region : option string) : prog envE (result Opened) :=
  if String.prefix "s3://" uri then
    let!? parsed := with_context "invalid S3 store URI" (match url_parse uri with inl u => Ok u | inr e => Err (Msg e) end) in
    let!? bucket := ok_or (host_str parsed) "S3 URI must include a bucket" in
    let prefix := trim_matches "/" (url_path parsed) in
    let* r := request (EBuildS3 (s3_settings bucket s3_endpoint s3_region)) in
    let!? _ := with_context "create S3 object store" (os_lift r) in
    Ret (Ok (OpenedS3 {| oa_prefix := prefix |}))
  else if bool_decide (uri = "memory://") || bool_decide (uri = "memory:") then Ret (Ok OpenedMemory)
  else
    let p := default uri (strip_prefix "file://" uri) in
    let! root := store_root p in
    let* r := on_fs (create_synced_directory_tree root) in
    let!? _ := with_context "create filesystem store" r in
    Ret (Ok (OpenedFs {| fa_root := root |})).

(** The calls of the opened store; [fuel] bounds the directories of a listing. *)
Definition store_impl (fuel : nat) (store : Opened) : ∀ X, storeE X → prog envE X :=
  λ X e,
    match store with
    | OpenedS3 self => on_object (object_impl self X e)
    | OpenedMemory => request (EMemory e)
    | OpenedFs self => on_fs (fs_impl self fuel X e)
    end.
Definition with_store {A} (fuel : nat) (store : Opened) (p : prog storeE A) : prog envE A :=
  interp (store_impl fuel store) p.
End open.
