(* ===== verification/FsExample.v ===== *)
(** * A file system, and the store on it

    [fs_machine] runs the system calls; it never fails a call that can succeed.
    The theorems on the file-system back end are applied to runs of it. *)

From stdpp Require Import pretty relations gmap.
From S2P Require Import Prelude Bytes Text Externals ToyCrates Hash RelyGuarantee Store StoreContract ObjectStore ObjectStoreFacts FsStore FsModel FsFacts FsLinear FsRefinement FsTheorems FsListing.
From Stdlib Require Import Lia ZArith Strings.Ascii.

Definition io_fail {A} (kind : io_kind) (text : string) : io A := inr {| io_kind_of := kind; io_text := text |}.
Definition not_found {A} : io A := io_fail KNotFound "No such file or directory".
Definition visible_b (p : path) (s : FsState) : bool :=
  match fs_entries s !! p with Some _ => true | None => bool_decide (p ∈ fs_dirs s) end.
Lemma visible_b_spec p s : visible_b p s = true ↔ visible p s.
Proof.
  unfold visible_b, visible. destruct (fs_entries s !! p) eqn:E; [split; [eauto|done]|].
  rewrite bool_decide_eq_true. split; [auto|]. intros [[? ?]|?]; done.
Qed.
Lemma not_visible_b p s : visible_b p s = false → ¬ visible p s.
Proof. intros E Hv%visible_b_spec. congruence. Qed.

Definition empty_file (now : Z) : Inode := {| in_bytes := []; in_synced := false; in_modified := now |}.

Definition fs_machine (now : Z) (me : nat) : ∀ X, fsE X → FsState → option (X * FsState) :=
  λ X e s,
    match e in fsE X return option (X * FsState) with
    | FExists p => Some (visible_b p s, s)
    | FMetadata p => Some (
        match fs_entries s !! p with
        | Some i =>
            match fs_inodes s !! i with
            | Some n => inl {| md_len := len (in_bytes n); md_modified := in_modified n; md_is_dir := false |}
            | None => io_fail KOther "stale"
            end
        | None => if bool_decide (p ∈ fs_dirs s) then inl {| md_len := 0; md_modified := now; md_is_dir := true |} else not_found
        end, s)
    | FOpen p => Some (
        match fs_entries s !! p with
        | Some i => inl (HFile i)
        | None => if bool_decide (p ∈ fs_dirs s) then inl (HDir p) else not_found
        end, s)
    | FOpenWrite p => Some (match fs_entries s !! p with Some i => inl (HFile i) | None => not_found end, s)
    | FOpenCreate p => Some
        match fs_entries s !! p with
        | Some i => (inl (HFile i), s)
        | None =>
            if visible_b p s then (io_fail KOther "is a directory", s)
            else let i := fresh (dom (fs_inodes s)) in
                 (inl (HFile i), set_entry p (Some i) (with_inodes <[i := empty_file now]> s))
        end
    | FReadToEnd h limit => Some (
        match h with
        | HFile i =>
            match fs_inodes s !! i with
            | Some n => inl (match limit with None => in_bytes n | Some l => take (N.to_nat l) (in_bytes n) end)
            | None => io_fail KOther "stale"
            end
        | HDir _ => io_fail KOther "is a directory"
        end, s)
    | FSetModified h t => Some
        match h with
        | HFile i =>
            match fs_inodes s !! i with
            | Some n => (inl tt, with_inodes <[i := {| in_bytes := in_bytes n; in_synced := in_synced n; in_modified := t |}]> s)
            | None => (io_fail KOther "stale", s)
            end
        | HDir _ => (io_fail KOther "is a directory", s)
        end
    | FSyncAll h => Some
        match h with
        | HFile i =>
            match fs_inodes s !! i with
            | Some n => (inl tt, with_inodes <[i := {| in_bytes := in_bytes n; in_synced := true; in_modified := in_modified n |}]> s)
            | None => (io_fail KOther "stale", s)
            end
        | HDir d => (inl tt, flushed d s)
        end
    | FRemoveFile p => Some
        match fs_entries s !! p with
        | Some _ => (inl tt, set_entry p None s)
        | None => if bool_decide (p ∈ fs_dirs s) then (io_fail KOther "is a directory", s) else (not_found, s)
        end
    | FCreateDir p => Some
        (if visible_b p s then (io_fail KAlreadyExists "File exists", s) else (inl tt, with_dirs ({[p]} ∪.) s))
    | FCreateDirAll p => Some
        (if bool_decide (set_Forall (λ q, fs_entries s !! q = None) (ancestors p)) then (inl tt, with_dirs (ancestors p ∪.) s)
         else (io_fail KOther "not a directory", s))
    | FReadDir d => Some
        (if bool_decide (d ∈ fs_dirs s)
         then inl (map inl (elements (filter (λ q, path_parent q = Some d) (dom (fs_entries s) ∪ fs_dirs s))))
         else not_found, s)
    | FTempFile d => Some
        (let i := fresh (dom (fs_inodes s)) in
         let p := d ++ [".tmp" +:+ pretty i] in
         if visible_b p s then (io_fail KAlreadyExists "File exists", s)
         else (inl {| nt_path := p; nt_inode := i |},
               with_temps <[i := me]> (set_entry p (Some i) (with_inodes <[i := empty_file now]> s))))
    | FWriteAll h b => Some
        match h with
        | HFile i =>
            match fs_inodes s !! i with
            | Some n => (inl tt, with_inodes <[i := {| in_bytes := in_bytes n ++ b; in_synced := false; in_modified := now |}]> s)
            | None => (io_fail KOther "stale", s)
            end
        | HDir _ => (io_fail KOther "is a directory", s)
        end
    | FPersist t p => Some
        (if negb (bool_decide (p ∈ fs_dirs s)) && bool_decide (fs_entries s !! nt_path t = Some (nt_inode t))
         then (inl tt, persisted t p s) else (io_fail KOther "rename failed", s))
    | FPersistNoclobber t p => Some
        (if negb (visible_b p s) && bool_decide (fs_entries s !! nt_path t = Some (nt_inode t))
         then (inl tt, persisted t p s) else (io_fail KAlreadyExists "File exists", s))
    | FDropTemp t => Some (tt, with_temps (delete (nt_inode t)) (set_entry (nt_path t) None s))
    | FLockExclusive h =>
        match h with
        | HFile i => match fs_locks s !! i with
                     | None => Some (inl tt, with_locks <[i := me]> s)
                     | Some _ => None
                     end
        | HDir _ => Some (io_fail KOther "cannot lock", s)
        end
    | FUnlock h => Some (inl tt, match h with HFile i => with_locks (release me i) s | HDir _ => s end)
    | FClose h => Some (tt, match h with HFile i => with_locks (release me i) s | HDir _ => s end)
    | FClock => Some (now, s)
    end.

Lemma fresh_inode s : fs_inodes s !! fresh (dom (fs_inodes s)) = None.
Proof. apply not_elem_of_dom. apply is_fresh. Qed.
Lemma no_entry_visible p s : fs_entries s !! p = None → p ∉ fs_dirs s → ¬ visible p s.
Proof. intros He Hd [[? ?]|?]; [congruence|done]. Qed.
Lemma read_dir_spec d s :
  d ∈ fs_dirs s →
  fs_step 0 _ (FReadDir d) s
    (inl (map inl (elements (filter (λ q, path_parent q = Some d) (dom (fs_entries s) ∪ fs_dirs s))))) s.
Proof.
  intros Hd. split; [done|]. assert (∀ q : path, (inl q : io path) ∈ map inl (elements (filter (λ q, path_parent q = Some d)
    (dom (fs_entries s) ∪ fs_dirs s))) ↔ child_of d q s) as Hc.
  { intros q. unfold child_of, visible. rewrite list_elem_of_fmap. split.
    - intros (q' & [= <-] & Hq). apply elem_of_elements, elem_of_filter in Hq as [Hp Hq].
      rewrite elem_of_union, elem_of_dom in Hq. done.
    - intros [Hp Hq]. exists q. split; [done|]. apply elem_of_elements, elem_of_filter.
      rewrite elem_of_union, elem_of_dom. done. }
  split; [intros q; apply Hc|]. intros _. split_and!; [done| |intros q; apply Hc].
  apply NoDup_fmap_2; [by intros ? ? [= ->]|]. apply NoDup_elements.
Qed.

Lemma failed_here {A} (e : io_error) s : failed (inr e : io A) s s.
Proof. split; eauto. Qed.

Ltac answer := match goal with Hx : Some _ = Some _ |- _ => injection Hx as <- <- | Hx : None = Some _ |- _ => discriminate Hx end.

(** Every answer of the machine is one the file system may give. *)
Lemma fs_machine_conforms now me X (e : fsE X) s x s' :
  fs_machine now me X e s = Some (x, s') → fs_step me X e s x s'.
Proof.
  pose proof (fresh_inode s) as Hfresh.
  destruct e; cbn [fs_machine]; unfold not_found, io_fail; intros Hx.
  - answer. split; [done|]. apply visible_b_spec.
  - destruct (fs_entries s !! p) as [i|] eqn:Hi; [destruct (fs_inodes s !! i) as [n|] eqn:Hn|case_bool_decide];
      answer; (split; [done|]); [left; eauto|done|by right|]. intros _. by apply no_entry_visible.
  - destruct (fs_entries s !! p) as [i|] eqn:Hi; [|case_bool_decide]; answer; (split; [done|]); [done|done|].
    intros _. by apply no_entry_visible.
  - destruct (fs_entries s !! p) as [i|] eqn:Hi; answer; by split.
  - destruct (fs_entries s !! p) as [i|] eqn:Hi; [answer; right; eauto|].
    destruct (visible_b p s) eqn:Hv; answer; [left; apply failed_here|right].
    exists (fresh (dom (fs_inodes s))). split; [done|]. right. split; [by apply not_visible_b|]. split; [done|]. by exists now.
  - answer. split; [done|]. destruct h as [i|]; [|done]. destruct (fs_inodes s !! i) eqn:Hn; [|done]. eauto.
  - destruct h as [i|]; [|answer; left; apply failed_here]. destruct (fs_inodes s !! i) eqn:Hn; answer; [right; eauto 8|left; apply failed_here].
  - destruct h as [i|]; [|answer; right; done]. destruct (fs_inodes s !! i) eqn:Hn; answer; [right; eauto 8|left; apply failed_here].
  - destruct (fs_entries s !! p) as [i|] eqn:Hi; [answer; split; [by rewrite Hi|done]|].
    case_bool_decide; answer; (split; [done|]); [done|]. intros _. by apply no_entry_visible.
  - destruct (visible_b p s) eqn:Hv; answer; [left; apply failed_here|right].
    split; [done|]. split; [by apply not_visible_b|done].
  - case_bool_decide as Ha; answer.
    + exists (ancestors p). split_and!; [done|done|intros _; simpl; set_solver|done].
    + exists ∅. split_and!; [set_solver| |done|set_solver]. destruct s; unfold with_dirs; simpl. f_equal. by rewrite (left_id_L ∅ (∪)).
  - case_bool_decide; answer; [by apply read_dir_spec|by split].
  - destruct (visible_b _ s) eqn:Hv; answer; [left; apply failed_here|right].
    set (i := fresh (dom (fs_inodes s))) in *.
    exists {| nt_path := directory ++ [".tmp" +:+ pretty i]; nt_inode := i |}, (".tmp" +:+ pretty i), now.
    split; [done|]. simpl. split; [done|]. split; [apply prefix_app|].
    split; [by apply not_visible_b|]. split; [done|]. done.
  - destruct h as [i|]; [|answer; left; apply failed_here]. destruct (fs_inodes s !! i) as [n|] eqn:Hn; answer; [right|left; apply failed_here].
    exists i, n. eexists. split_and!; [done..|]. done.
  - destruct (negb _ && _) eqn:Hb; answer; [right|left; apply failed_here]. bool_prop. done.
  - destruct (negb _ && _) eqn:Hb; answer; [right|left; apply failed_here]. bool_prop.
    split; [done|]. split; [by apply not_visible_b|done].
  - answer. by left.
  - destruct h as [i|]; [|answer; left; apply failed_here]. destruct (fs_locks s !! i) eqn:Hl; answer. right. eauto.
  - answer. right. split; [done|]. by destruct h.
  - answer. by destruct h.
  - by answer.
Qed.

(** ** A store with one head and one object *)

Module Example.
#[local] Existing Instances toy_sha toy_hex.

Definition head : string := "chains/1/head".
Definition object : string := "objects/sha256/ab".
Definition is_head (k : string) : bool := bool_decide (k = head).
Definition is_object (k : string) : bool := bool_decide (k = object).

#[local] Instance example_keys : FsKeys is_head is_object.
Proof.
  assert (∀ k, is_head k || is_object k = true → k = head ∨ k = object) as Hk.
  { intros k. unfold is_head, is_object. rewrite orb_true_iff, !bool_decide_eq_true. done. }
  split.
  - intros k [->| ->]%Hk; reflexivity.
  - intros k. unfold is_head, is_object. rewrite bool_decide_eq_true, bool_decide_eq_false. by intros ->.
  - intros k k' rest Hk1 Hk2. apply Hk in Hk1 as [->| ->], Hk2 as [->| ->]; simpl; intros E; congruence.
Qed.

Definition store : FsArchiveStore := {| fa_root := ["archive"] |}.
Definition start : FsState :=
  {| fs_entries := ∅; fs_inodes := ∅; fs_dirs := {[ []; ["archive"] ]}; fs_pending := ∅;
     fs_durable_dirs := {[ []; ["archive"] ]}; fs_temps := ∅; fs_locks := ∅ |}.

Lemma start_inv_any mutable immutable `{!FsKeys mutable immutable} : fs_inv store mutable immutable start.
Proof.
  split; simpl; try done.
  - intros k i _ [Hp|Hp]; [done|]. by apply not_elem_of_nil in Hp.
  - intros k Hk Hin. rewrite (fs_path_key store mutable immutable) in Hin by done. simpl in Hin.
    assert (length ("archive" :: split_on "/" k) ≤ 1) as Hlen.
    { apply elem_of_union in Hin as [E|E]; apply elem_of_singleton in E; rewrite E; simpl; lia. }
    destruct (split_on_join "/" k) as [Hne _]. destruct (split_on "/" k); simpl in *; [done|lia].
Qed.
Lemma start_empty mutable immutable k : fs_contents store mutable immutable start k = None.
Proof. unfold fs_contents. destruct (decide _); reflexivity. Qed.
Lemma start_inv : fs_inv store is_head is_object start.
Proof. apply start_inv_any, _. Qed.

(** Two clients create the head at once; then both read it. *)
Definition racing (b : bytes) : prog storeE (result (option bytes)) :=
  let! _ := request (SCompareAndSwap head None b) in
  let! read := request (SReadMutable head) in
  Ret (Ok (match read with Some v => Some (vb_bytes v) | None => None end)).
Definition racers : list (prog storeE (result (option bytes))) := [racing [Byte.x01]; racing [Byte.x02]].
Definition machine (i : nat) := fs_machine 0 i.
Definition race (schedule : list nat) : list (prog fsE (result (option bytes))) * FsState :=
  run_pool machine schedule (map (interp (fs_impl store 0)) racers, start).
(** Both run in turns; one waits for the lock. *)
Definition turns : list nat := concat (repeat [0; 1] 40).
Definition refused : result (option bytes) := Err (Msg "conditional head update failed").

Lemma fs_race_result : (race turns).1 = map Ret [Ok (Some [Byte.x01]); refused].
Proof. vm_compute. reflexivity. Qed.
Lemma race_pool schedule : ∃ run, pool fs_step (map (interp (fs_impl store 0)) racers, start) run (race schedule).
Proof. apply run_pool_pool. intros i X e s x s'. apply fs_machine_conforms. Qed.

Lemma racers_allowed : Forall (always (fs_allowed is_head is_object) (λ _, True)) racers.
Proof.
  repeat constructor; simpl; try done; intros []; simpl; repeat constructor; simpl; try done; intros []; repeat constructor.
Qed.


(** The machine stops when the head has been renamed and not flushed. *)
Abbreviation interrupted := ((race (repeat 0 20)).2).
Definition crash_of (s : FsState) : FsState :=
  {| fs_entries := fs_entries s; fs_inodes := fs_inodes s; fs_dirs := fs_dirs s; fs_pending := ∅;
     fs_durable_dirs := fs_dirs s; fs_temps := ∅; fs_locks := ∅ |}.
Lemma crash_of_crashed s : bool_decide (fs_durable_dirs s ⊆ fs_dirs s) = true → crashed s (crash_of s).
Proof.
  rewrite bool_decide_eq_true. intros Hd. split; [by intros p; left| |done]. intros i n Hn _. eauto.
Qed.
Lemma fs_crash_complete_witness :
  ∃ (run : list (nat * (FsState * FsState))) n, file_at (fs_path store head) (crash_of interrupted) = Some n ∧
    ∃ t, t ∈ start :: map (λ t, t.2.2) run ∧
      fs_contents store is_head is_object t head = Some (version_of (in_bytes n)).
Proof.
  destruct (race_pool (repeat 0 20)) as [run Hrun]. exists run.
  destruct (file_at (fs_path store head) (crash_of interrupted)) as [n|] eqn:Hn;
    [|vm_compute in Hn; discriminate Hn].
  exists n. split; [done|].
  apply (fs_crash_complete store is_head is_object (λ _, True) racers 0 start run (race (repeat 0 20)) (crash_of interrupted) head n).
  - apply racers_allowed.
  - apply start_inv.
  - reflexivity.
  - exact Hrun.
  - apply crash_of_crashed. vm_compute. reflexivity.
  - reflexivity.
  - exact Hn.
Defined.

(** One request alone. *)
Definition put_object := fs_put_immutable store object [Byte.x61].
Definition swap_head := fs_compare_and_swap store head None [Byte.x62].
Definition after {A} (p : prog fsE A) (s : FsState) : FsState :=
  match run_alone (machine 0) p s with Some (_, s') => s' | None => s end.
Lemma after_steps {A} (p : prog fsE A) s a :
  fst <$> run_alone (machine 0) p s = Some a → ∃ tr, steps (fs_step 0) eq p s tr (Ret a) (after p s).
Proof.
  intros Hr. unfold after. destruct (run_alone (machine 0) p s) as [[a' s']|] eqn:E; [|done]. simplify_eq/=.
  eapply run_alone_steps; [|exact E]. intros X e s1 x s2. apply fs_machine_conforms.
Qed.

(** Another process flushes the root before the request, and again after it. *)
Abbreviation meanwhile := (flushed ["archive"]).
Lemma flush_call j p d s : d ∈ fs_dirs s → call_of store is_head is_object j p s (flushed d s).
Proof.
  intros Hd. exists _, (FSyncAll (HDir d)), (inl tt). split; [by right|]. split; [|by intros []].
  apply neutral_guar, flush_neutral.
Qed.
Lemma steps_beside {A} (p : prog fsE A) a q :
  fst <$> run_alone (machine 0) p (meanwhile start) = Some a →
  ∃ tr, steps (fs_step 0) (others store is_head is_object 0 q) p start tr (Ret a) (after p (meanwhile start)) ∧
    ∀ t, hd_error tr = Some t → t.1 = meanwhile start.
Proof.
  intros Hr. destruct (after_steps p (meanwhile start) a Hr) as [tr Htr]. exists tr. split; [|by eapply steps_eq_head].
  apply (steps_env _ _ _ _ (meanwhile start)).
  - apply rtc_once. exists 1. split; [done|]. apply flush_call. vm_compute. reflexivity.
  - eapply steps_rely; [|exact Htr]. intros s s' ->. apply rtc_refl.
Qed.
Lemma later_flush p s : bool_decide (["archive"] ∈ fs_dirs s) = true → anyone store is_head is_object p s (meanwhile s).
Proof. rewrite bool_decide_eq_true. intros Hd. apply rtc_once. exists 1. by apply flush_call. Qed.

Lemma fs_write_durable_witness :
  survives store object [Byte.x61] (meanwhile (after put_object (meanwhile start))) ∧
  survives store head [Byte.x62] (meanwhile (after swap_head (meanwhile start))).
Proof.
  destruct (steps_beside put_object (Ok tt) (fs_path store object) ltac:(vm_compute; reflexivity)) as (tr1 & H1 & Hfirst).
  destruct (steps_beside swap_head (Ok tt) (fs_path store head) ltac:(vm_compute; reflexivity)) as (tr2 & H2 & _).
  split.
  - destruct (proj1 (fs_write_durable store is_head is_object 0 object eq_refl [Byte.x61] None start tr1 _ _ start_inv
      (later_flush _ (after put_object (meanwhile start)) ltac:(vm_compute; reflexivity))) eq_refl H1) as [(t & Ht & Hc)|Hs]; [|exact Hs].
    rewrite (Hfirst t Ht) in Hc. destruct Hc. vm_compute. reflexivity.
  - exact (proj2 (fs_write_durable store is_head is_object 0 head eq_refl [Byte.x62] None start tr2 _ _ start_inv
      (later_flush _ (after swap_head (meanwhile start)) ltac:(vm_compute; reflexivity))) eq_refl H2).
Defined.

(** A store that holds the object. *)
Definition holding : FsState :=
  {| fs_entries := {[ fs_path store object := 0 ]};
     fs_inodes := {[ 0 := {| in_bytes := [Byte.x61]; in_synced := true; in_modified := 0 |} ]};
     fs_dirs := {[ []; ["archive"]; ["archive"; "objects"]; ["archive"; "objects"; "sha256"] ]}; fs_pending := ∅;
     fs_durable_dirs := {[ []; ["archive"]; ["archive"; "objects"]; ["archive"; "objects"; "sha256"] ]};
     fs_temps := ∅; fs_locks := ∅ |}.
Lemma elem_holding q : q ∈ fs_dirs holding ↔ q ∈ [[]; ["archive"]; ["archive"; "objects"]; ["archive"; "objects"; "sha256"]].
Proof. simpl. rewrite !elem_of_union, !elem_of_singleton, !elem_of_cons, elem_of_nil. tauto. Qed.
Lemma holding_entry q i : fs_entries holding !! q = Some i → q = fs_path store object ∧ i = 0.
Proof. simpl. intros [<- <-]%lookup_singleton_Some. done. Qed.

Lemma holding_inv : fs_inv store is_head is_object holding.
Proof.
  split.
  - intros k i _ [Hp|Hp]; [|by apply not_elem_of_nil in Hp]. symmetry in Hp. apply holding_entry in Hp as [_ ->].
    eexists. split; [reflexivity|]. done.
  - by intros i [E _]%holding_entry.
  - done.
  - intros k Hk Hin%elem_holding. unfold is_key in Hk. apply orb_prop in Hk.
    destruct Hk as [E%bool_decide_eq_true|E%bool_decide_eq_true]; subst k; revert Hin; vm_compute; intros Hin;
      repeat (apply elem_of_cons in Hin as [Hin|Hin]; [discriminate Hin|]); by apply not_elem_of_nil in Hin.
  - intros p Hp%elem_holding. destruct (fs_entries holding !! p) as [i|] eqn:E; [|done]. apply holding_entry in E as [-> _].
    revert Hp. vm_compute. intros Hin. repeat (apply elem_of_cons in Hin as [Hin|Hin]; [discriminate Hin|]). by apply not_elem_of_nil in Hin.
  - apply elem_holding. right. left.
Qed.
Lemma holding_tree : fs_tree store is_head is_object holding.
Proof.
  split.
  - intros q d [[i [-> _]%holding_entry]|Hq%elem_holding] Hp _.
    + vm_compute in Hp. simplify_eq. apply elem_holding. do 3 right. left.
    + assert (d ∈ [[]; ["archive"]; ["archive"; "objects"]]) as Hd; [|apply elem_holding; set_solver].
      repeat (apply elem_of_cons in Hq; destruct Hq as [->|Hq]; [simpl in Hp; simplify_eq; set_solver|]).
      by apply not_elem_of_nil in Hq.
  - intros q i [-> _]%holding_entry _. right; right. by exists object.
Qed.

(** The calls of a listing, as long as none of them reports an error. *)
Definition quiet X (e : fsE X) : X → bool :=
  match e in fsE X return X → bool with
  | FMetadata _ => λ x, match x with inl _ => true | inr _ => false end
  | FReadDir _ => λ x,
      match x with inl l => forallb (λ r, match r with inl _ => true | inr _ => false end) l | inr _ => false end
  | _ => λ _, false
  end.
Definition quiet_machine X (e : fsE X) (s : FsState) : option (X * FsState) :=
  match machine 0 X e s with Some (x, s') => if quiet X e x then Some (x, s') else None | None => None end.
Lemma quiet_machine_conforms X (e : fsE X) s x s' :
  quiet_machine X e s = Some (x, s') → step_reporting 0 (λ _, False) X e s x s'.
Proof.
  unfold quiet_machine. destruct (machine 0 X e s) as [[y s1]|] eqn:E; [|done]. destruct (quiet X e y) eqn:Eq; [|done].
  intros [= <- <-]. split; [by eapply fs_machine_conforms|]. destruct e; try discriminate Eq; simpl; intros err.
  - intros ->. discriminate Eq.
  - intros [->|(entries & -> & Hin)]; [discriminate Eq|]. simpl in Eq. rewrite forallb_forall in Eq.
    apply list_elem_of_In, Eq in Hin. discriminate Hin.
Qed.


(** ** A put of an object that another process has not flushed yet *)

(** Process 0 is killed after it renamed the object and before it flushed the
    directory; process 1 puts the same object and publishes a head. *)
Definition publisher : prog storeE (result unit) :=
  let! _ := request (SPutImmutable object [Byte.x61]) in
  request (SCompareAndSwap head None [Byte.x62]).
Definition killed : list (prog fsE (result unit)) * FsState :=
  run_pool machine (repeat 0 14 ++ repeat 1 60) (map (interp (fs_impl store 0)) [publisher; publisher], start).
Definition lose (p : path) (s : FsState) : FsState :=
  {| fs_entries := delete p (fs_entries s); fs_inodes := fs_inodes s; fs_dirs := fs_dirs s; fs_pending := ∅;
     fs_durable_dirs := fs_dirs s; fs_temps := ∅; fs_locks := ∅ |}.

Lemma lose_crashed p s :
  bool_decide (None ∈ default [] (fs_pending s !! p)) = true → bool_decide (fs_durable_dirs s ⊆ fs_dirs s) = true →
  crashed s (lose p s).
Proof.
  rewrite !bool_decide_eq_true. intros Hp Hd. split; [|by intros i n Hn _; exists n|done].
  intros q. simpl. destruct (decide (q = p)) as [->|Hne].
  - right. by rewrite lookup_delete_eq.
  - left. by rewrite lookup_delete_ne.
Qed.

(** A put that finds the object returns success without flushing the directory
    entry that another process created: here a process is killed between renaming
    an object and flushing its directory, a second one puts the same object and
    publishes a head, both with success, and a crash keeps the head and loses the
    object. *)
Lemma existing_object_can_be_lost :
  ∃ run ps s s', pool fs_step (map (interp (fs_impl store 0)) [publisher; publisher], start) run (ps, s) ∧
    ps !! 1 = Some (Ret (Ok tt)) ∧ crashed s s' ∧
    in_bytes <$> file_at (fs_path store head) s' = Some [Byte.x62] ∧ file_at (fs_path store object) s' = None.
Proof.
  destruct (run_pool_pool machine fs_step (repeat 0 14 ++ repeat 1 60)
    (map (interp (fs_impl store 0)) [publisher; publisher], start)) as [run Hrun].
  { intros i X e s x s'. apply fs_machine_conforms. }
  exists run, killed.1, killed.2, (lose (fs_path store object) killed.2).
  split; [rewrite <-surjective_pairing; exact Hrun|]. split; [vm_compute; reflexivity|].
  split; [apply lose_crashed; vm_compute; reflexivity|]. split; vm_compute; reflexivity.
Qed.

(** ** A listing beside a writer *)

Definition lister : prog storeE (result nat) := let! l := request (SList "objects/") in Ret (Ok (length l)).
Definition writer : prog storeE (result nat) := let! _ := request (SPutImmutable object [Byte.x61]) in Ret (Ok 0).
Definition beside : list (prog fsE (result nat)) * FsState :=
  run_pool machine (repeat 1 11 ++ repeat 0 5 ++ repeat 1 20 ++ repeat 0 20) (map (interp (fs_impl store 10)) [lister; writer], start).

(** The listing reads the metadata of every entry before it skips the temporary
    files, so it fails when a writer renames its file in between, although no
    system call failed that could succeed. *)
Lemma listing_can_fail_beside_a_writer :
  ∃ run s e, pool fs_step (map (interp (fs_impl store 10)) [lister; writer], start) run (map Ret [Err e; Ok 0], s).
Proof.
  destruct (run_pool_pool machine fs_step (repeat 1 11 ++ repeat 0 5 ++ repeat 1 20 ++ repeat 0 20)
    (map (interp (fs_impl store 10)) [lister; writer], start)) as [run Hrun].
  { intros i X e s x s'. apply fs_machine_conforms. }
  exists run, beside.2, (Msg "No such file or directory").
  assert (beside.1 = map Ret [Err (Msg "No such file or directory"); Ok 0]) as E by (vm_compute; reflexivity).
  rewrite <-E, <-surjective_pairing. exact Hrun.
Qed.
End Example.
