(* ===== verification/OpenTheorems.v ===== *)
(** * What [open_store] establishes

    A file-system store that is opened on a directory of its own starts empty, in
    the state its clients' theorems assume, and its root survives a crash
    ([open_store_fresh]); an S3 store always has conditional puts, and a prefix
    without slashes at its ends ([open_store_s3]). *)

From stdpp Require Import pretty relations gmap.
From S2P Require Import Prelude Bytes Text Externals ToyCrates Hash RelyGuarantee Store StoreContract ObjectStore ObjectStoreFacts FsStore FsModel FsFacts FsLinear FsTheorems FsListing OpenStore FsExample.
From Stdlib Require Import Lia ZArith Strings.Ascii.

(** ** The surroundings of a process *)

(** The current directory is [cwd]; nothing but a file-system call changes the files. *)
Definition env_step (cwd : path) (me : nat) X (e : envE X) : FsState → X → FsState → Prop :=
  match e in envE X return FsState → X → FsState → Prop with
  | EFs e => fs_step me _ e
  | ECurrentDir => λ s x s', s' = s ∧ match x with inl d => d = cwd | inr _ => True end
  | _ => λ s _ s', s' = s
  end.

Lemma rg_on_fs {A} cwd me rely G Q (p : prog fsE A) tr s :
  rg (fs_step me) rely G Q p tr s → rg (env_step cwd me) rely G Q (on_fs p) tr s.
Proof.
  revert tr s; induction p as [a|X e k IH]; intros tr s; [done|]. intros Hp s1 x s2 Hr Hx.
  destruct (Hp s1 x s2 Hr Hx) as [Hg Hk]. split; [done|]. by apply IH.
Qed.

(** ** [create_synced_directory_tree] *)

Section tree.
Context (me : nat) (root : path).
Abbreviation alone := (rg (fs_step me) eq (λ _ _, True)).

(** No file is in the way to the root. *)
Definition way_clear (s : FsState) : Prop := ∀ d, below d root → fs_entries s !! d = None.

(** What creating a directory does: only directories above the root are added,
    and they are flushed; when it succeeds, [d] is there. *)
Record grown (s s' : FsState) : Prop := {
  gw_entries : fs_entries s' = fs_entries s;
  gw_inodes : fs_inodes s' = fs_inodes s;
  gw_pending p : fs_pending s !! p = None → fs_pending s' !! p = None;
  gw_temps : fs_temps s' = fs_temps s;
  gw_dirs q : q ∈ fs_dirs s' → q ∈ fs_dirs s ∨ below q root;
  gw_mono : fs_dirs s ⊆ fs_dirs s';
  gw_durable : fs_durable_dirs s ⊆ fs_durable_dirs s'
}.
#[local] Instance grown_preorder : PreOrder grown.
Proof.
  split; [by split; auto|]. intros s1 s2 s3 [E1 I1 P1 T1 D1 M1 U1] [E2 I2 P2 T2 D2 M2 U2].
  split; try congruence; auto; try (by etrans).
  intros q Hq. destruct (D2 q Hq); auto.
Qed.
Lemma grown_clear s s' : grown s s' → way_clear s → way_clear s'.
Proof. intros Hg Hw d Hd. rewrite (gw_entries _ _ Hg). by apply Hw. Qed.

(** Flushing a directory on the way. *)
Definition flushed_at (d : path) (s : FsState) (r : result unit) (s' : FsState) : Prop :=
  grown s s' ∧ fs_dirs s' = fs_dirs s ∧
  (r = Ok tt → d ∈ fs_dirs s' ∧ ∀ q, q ∈ fs_dirs s → path_parent q = Some d → q ∈ fs_durable_dirs s').
Lemma sync_directory_grown d tr s :
  below d root → way_clear s → alone (λ _, flushed_at d s) (sync_directory d) tr s.
Proof.
  intros Hb Hw s1 x s2 <- [-> Hx]. split; [done|]. destruct x as [[i|q]|e]; cbn [io_lift with_context bind].
  - by rewrite (Hw d Hb) in Hx.
  - destruct Hx as [-> Hd]. intros s3 y s4 <- Hy. split; [done|]. intros s' <-.
    destruct Hy as [[[e ->] ->]|[-> ->]]; [by split_and!|].
    split; [|split; [done|]].
    + split; try done; simpl; [|auto|set_solver].
      intros p Hp. apply map_lookup_filter_None. by left.
    + intros _. split; [done|]. intros q Hq Hqp. simpl. apply elem_of_union_r, elem_of_filter. done.
  - intros s' <-. by split_and!.
Qed.

(** The directory [d] exists, and those that are new are flushed. *)
Definition tree_made (s : FsState) (d : path) (r : result unit) (s' : FsState) : Prop :=
  grown s s' ∧
  (r = Ok tt → d ∈ fs_dirs s' ∧ ∀ q, q ∈ fs_dirs s' → q ∈ fs_dirs s ∨ q ∈ fs_durable_dirs s').
Lemma sync_tree_made d tr s :
  below d root → way_clear s → alone (λ _, tree_made s d) (sync_directory d) tr s.
Proof.
  intros Hb Hw. eapply rg_weaken; [done| |by apply sync_directory_grown].
  intros _ r s' (Hg & Hd & Hr). split; [done|]. intros Hok. split; [by apply Hr|]. rewrite Hd. auto.
Qed.
Lemma tree_bind s {A} (p : prog fsE (result A)) (f : A → prog fsE (result unit)) d (Q : result A → FsState → Prop) tr s1 :
  alone (λ _, Q) p tr s1 → (∀ r s', Q r s' → grown s s') →
  (∀ a tr s', Q (Ok a) s' → alone (λ _, tree_made s d) (f a) tr s') →
  alone (λ _, tree_made s d) (let! a := p in f a) tr s1.
Proof.
  intros Hp Hg Hf. apply rg_bind; [apply _|]. eapply rg_weaken; [done| |exact Hp].
  intros tr1 [a|e] s' Hq; [by apply Hf|]. intros s2 <-. split; [by eapply Hg|done].
Qed.

(** After the creation of a directory, or an error that says it exists. *)
Lemma created_made c parent s s1 s2 tr :
  below (rev (c :: parent)) root → way_clear s → tree_made s (rev parent) (Ok tt) s1 →
  grown s1 s2 → (∀ q, q ∈ fs_dirs s2 → q ∈ fs_dirs s1 ∨ q = rev (c :: parent)) →
  alone (λ _, tree_made s (rev (c :: parent)))
    (let! _ := sync_directory (rev parent) in sync_directory (rev (c :: parent))) tr s2.
Proof.
  intros Hb Hw [Hg Hr] Hg2 Hd2. destruct (Hr eq_refl) as [Hp Hnew]. clear Hr.
  assert (grown s s2) as Hs2 by (by etrans).
  assert (below (rev parent) root) as Hbp by (eapply below_trans; [|exact Hb]; by exists [c]).
  eapply tree_bind; [apply sync_directory_grown; [done|by eapply grown_clear]| |].
  { intros r s' (Hg' & _). by etrans. }
  intros [] tr1 s3 (Hg3 & Hd3 & Hr3). destruct (Hr3 eq_refl) as [_ Hfl].
  eapply rg_weaken; [done| |apply sync_directory_grown; [done|]]; [|eapply grown_clear; [etrans; [exact Hs2|exact Hg3]|done]].
  intros _ r s4 (Hg4 & Hd4 & Hr4). split; [etrans; [exact Hs2|etrans; [exact Hg3|exact Hg4]]|]. intros Hok. split; [by apply Hr4|].
  intros q Hq. rewrite Hd4, Hd3 in Hq. destruct (Hd2 q Hq) as [Hq1| ->].
  - destruct (Hnew q Hq1) as [|Hdur]; [by left|right]. apply (gw_durable _ _ Hg4), (gw_durable _ _ Hg3), (gw_durable _ _ Hg2), Hdur.
  - right. apply (gw_durable _ _ Hg4), Hfl; [done|]. apply parent_child. by exists c.
Qed.

Lemma create_tree_made reversed tr s :
  below (rev reversed) root → way_clear s →
  alone (λ _, tree_made s (rev reversed)) (create_synced_tree_rev reversed) tr s.
Proof.
  revert tr s; induction reversed as [|c parent IH]; intros tr s Hb Hw; cbn [create_synced_tree_rev];
    intros s1 x s2 <- [-> Hx]; (split; [done|]); cbn [bind]; destruct x; try (by apply sync_tree_made).
  { intros s' <-. by split. }
  assert (below (rev parent) root) as Hbp by (eapply below_trans; [|exact Hb]; by exists [c]).
  eapply tree_bind; [by apply IH|by intros r s' [Hg _]|]. intros [] tr1 s1 Hmade.
  pose proof Hmade as [Hg _].
  intros s2 x s3 <- Hx'. split; [done|]. cbn [bind]. destruct Hx' as [[[e ->] ->]|(-> & Hnv & ->)].
  - destruct (is_already_exists e); [|intros s' <-; by split]. cbn iota.
    eapply created_made; [done..|auto].
  - eapply created_made; [done|done|done| |].
    + split; try done; simpl; [|set_solver]. intros q [->%elem_of_singleton|]%elem_of_union; auto.
    + intros q [->%elem_of_singleton|]%elem_of_union; auto.
Qed.
End tree.

(** ** Opening *)

(** A directory of the file system where nothing was stored yet: no file stands in
    its way, nothing is below it, and the directories that exist are flushed. *)
Record fs_ready (root : path) (s : FsState) : Prop := {
  rd_disjoint p : p ∈ fs_dirs s → fs_entries s !! p = None;
  rd_temps i j : fs_temps s !! i = Some j → is_Some (fs_inodes s !! i);
  rd_clear : way_clear root s;
  rd_durable : fs_dirs s ⊆ fs_durable_dirs s;
  rd_empty q : below root q → q ≠ root → fs_entries s !! q = None ∧ fs_pending s !! q = None ∧ q ∉ fs_dirs s
}.

Section open.
Context `{Sha256, Hex, ObjectCrate, UrlCrate}.

Lemma open_fs_made cwd me uri s3_endpoint s3_region self s :
  way_clear (fa_root self) s →
  rg (env_step cwd me) eq (λ _ _, True)
    (λ _ r s', r = Ok (OpenedFs self) → tree_made (fa_root self) s (fa_root self) (Ok tt) s')
    (open_store uri s3_endpoint s3_region) [] s.
Proof.
  intros Hc. unfold open_store. destruct (String.prefix "s3://" uri).
  { destruct (with_context _ _); [|by intros s' <-]. destruct (ok_or _ _); [|by intros s' <-].
    intros s1 x s2 <- Hx. cbn in Hx. subst s2. split; [done|]. cbn [bind]. destruct (with_context _ _); by intros s' <-. }
  destruct (_ || _); [by intros s' <-|]. apply rg_bind; [apply _|].
  assert (∀ root tr, rg (env_step cwd me) eq (λ _ _, True)
    (λ _ r s', r = Ok (OpenedFs self) → tree_made (fa_root self) s (fa_root self) (Ok tt) s')
    (let* r := on_fs (create_synced_directory_tree root) in
     let!? _ := with_context "create filesystem store" r in
     Ret (Ok (OpenedFs {| fa_root := root |}))) tr s) as Hroot.
  { intros root tr. apply rg_bind; [apply _|]. destruct (decide (root = fa_root self)) as [->|Hne].
    - apply rg_on_fs. eapply rg_weaken; [done| |apply (create_tree_made me (fa_root self) (rev (fa_root self)))].
      + rewrite rev_involutive. intros tr1 [[]|e] s1 Hm; intros s2 <-; [done|done].
      + rewrite rev_involutive. apply below_refl.
      + done.
    - apply rg_on_fs. eapply rg_weaken; [done| |by apply (rg_whatever _ _ (λ _ _ _, True))].
      intros tr1 [[]|e] s1 _ s2 <-; [|done]. intros [= Hs]. destruct Hne. by rewrite <-Hs. }
  unfold store_root. destruct (starts_with_char "/" _); [intros s' <-; apply Hroot|].
  intros s1 x s2 <- [-> _]. split; [done|]. destruct x as [d|e]; cbn [io_lift bind]; intros s' <-; [apply Hroot|].
  by intros s'' <-.
Qed.

(** *** S3 *)

Fixpoint slashes (n : nat) : string := match n with O => EmptyString | S n => String "/" (slashes n) end.
Lemma trim_start_slashes n s : starts_with_char "/" s = false → trim_start_matches "/" (slashes n +:+ s) = s.
Proof.
  intros Hs. induction n as [|n IH].
  - change (slashes 0 +:+ s) with s. destruct s as [|c s]; [done|]. simpl in *. by rewrite Hs.
  - change (slashes (S n) +:+ s) with (String "/" (slashes n +:+ s)). exact IH.
Qed.
Lemma trim_end_slashes n : trim_end_matches "/" (slashes n) = "".
Proof. induction n as [|n IH]; [done|]. simpl. by rewrite IH. Qed.
Lemma trim_end_app s n : ends_with_char "/" s = false → trim_end_matches "/" (s +:+ slashes n) = s.
Proof.
  induction s as [|c s IH]; intros He; [apply trim_end_slashes|].
  change (String c s +:+ slashes n) with (String c (s +:+ slashes n)). cbn [trim_end_matches].
  destruct s as [|c' s].
  - change ("" +:+ slashes n) with (slashes n). rewrite trim_end_slashes. simpl in He. by rewrite He.
  - rewrite IH by done. done.
Qed.

(** A plain key neither starts nor ends with a slash. *)
Lemma ends_with_last c s : ends_with_char c s = true → last (split_on c s) = Some "".
Proof.
  induction s as [|x s IH]; [done|]. destruct s as [|y s].
  - simpl. intros ->. done.
  - intros He. specialize (IH He). destruct (split_on_join c (String y s)) as [Hne Hj].
    change (split_on c (String x (String y s))) with
      (match split_on c (String y s) with
       | part :: parts => if bool_decide (x = c) then "" :: part :: parts else String x part :: parts
       | [] => [] end).
    destruct (split_on c (String y s)) as [|part parts]; [done|].
    destruct parts as [|p parts]; [simpl in IH, Hj; simplify_eq|]. case_bool_decide; done.
Qed.
Lemma good_key_ends k : good_key k = true → starts_with_char "/" k = false ∧ ends_with_char "/" k = false.
Proof.
  unfold good_key. intros Hg. split.
  - destruct k as [|c k]; [done|]. simpl. apply bool_decide_eq_false. intros ->. simpl in Hg.
    destruct (split_on_join "/" k) as [Hne _]. by destruct (split_on "/" k).
  - destruct (ends_with_char "/" k) eqn:E; [|done]. apply ends_with_last in E. rewrite forallb_forall in Hg.
    assert ("" ∈ split_on "/" k) as Hin by (by apply last_Some_elem_of). apply list_elem_of_In, Hg in Hin. done.
Qed.
Lemma trim_key k n : k = "" ∨ good_key k = true → trim_matches "/" ("/" +:+ k +:+ slashes n) = k.
Proof.
  intros Hk. unfold trim_matches. change ("/" +:+ ?s) with (slashes 1 +:+ s). destruct Hk as [->|Hk].
  - change (slashes 1 +:+ ("" +:+ slashes n)) with (slashes (S n)). replace (slashes (S n)) with (slashes (S n) +:+ "").
    + rewrite trim_start_slashes; done.
    + induction (S n) as [|m IH]; [done|]. change (slashes (S m) +:+ "") with (String "/" (slashes m +:+ "")). by rewrite IH.
  - destruct (good_key_ends k Hk) as [Hs He]. rewrite trim_start_slashes; [by apply trim_end_app|].
    destruct k as [|c k]; [done|]. done.
Qed.

(** An S3 URI opens the bucket it names with conditional puts, whatever the
    environment says; plain HTTP is only allowed for an endpoint that asks for it,
    and the prefix is the path without the slashes around it, as the store needs it. *)
Theorem open_store_s3 uri s3_endpoint s3_region u bucket k n :
  String.prefix "s3://" uri = true → url_parse uri = inl u → host_str u = Some bucket →
  url_path u = "/" +:+ k +:+ slashes n → k = "" ∨ good_key k = true →
  ∃ f settings, open_store uri s3_endpoint s3_region = Vis (EBuildS3 settings) f ∧
    (∀ r, f r = Ret (match r with
                     | inl _ => Ok (OpenedS3 {| oa_prefix := k |})
                     | inr e => Err (Ctx "create S3 object store" (os_into e))
                     end)) ∧
    WithBucketName bucket ∈ settings ∧ WithConditionalPutETagMatch ∈ settings ∧
    ∀ allow, WithAllowHttp allow ∈ settings → ∃ endpoint, s3_endpoint = Some endpoint ∧ String.prefix "http://" endpoint = true.
Proof.
  intros Hu Hp Hh Hpath Hk. unfold open_store. rewrite Hu, Hp. cbn [with_context]. rewrite Hh. cbn [ok_or].
  rewrite Hpath, trim_key by done. eexists _, _. split; [reflexivity|]. split; [by intros [[]|e]|].
  unfold s3_settings. split; [by left|]. split; [by right; left|]. intros allow Hin.
  apply elem_of_app in Hin as [Hin|Hin]; [by repeat (apply elem_of_cons in Hin as [?|Hin]; [done|]); apply not_elem_of_nil in Hin|].
  apply elem_of_app in Hin as [Hin|Hin].
  - destruct s3_endpoint as [endpoint|]; [|by apply not_elem_of_nil in Hin]. exists endpoint. split; [done|].
    apply elem_of_cons in Hin as [?|Hin]; [done|]. destruct (String.prefix "http://" endpoint); [done|by apply not_elem_of_nil in Hin].
  - destruct s3_region; [|by apply not_elem_of_nil in Hin]. by apply list_elem_of_singleton in Hin.
Qed.

(** *** The file system *)

Context (mutable immutable : string → bool) {HK : FsKeys mutable immutable}.

(** A key is strictly below the root. *)
Lemma key_below self k : is_key mutable immutable k → below (fa_root self) (fs_path self k) ∧ fs_path self k ≠ fa_root self.
Proof.
  intros Hk. rewrite (fs_path_key self mutable immutable) by done. split; [by eexists|].
  intros E. rewrite <-(app_nil_r (fa_root self)) in E at 2. apply app_inv_head in E. by destruct (split_on_join "/" k).
Qed.

(** C36: a file-system store opened where nothing was stored starts empty, in a
    state in which its clients are linearizable, and a crash then does not lose
    its root: every directory that had to be created is flushed. *)
Theorem open_store_fresh cwd me uri s3_endpoint s3_region self s tr s' :
  fs_ready (fa_root self) s →
  steps (env_step cwd me) eq (open_store uri s3_endpoint s3_region) s tr (Ret (Ok (OpenedFs self))) s' →
  fs_inv self mutable immutable s' ∧ fs_contents self mutable immutable s' ≡ (λ _, None) ∧
  ∀ s'', crashed s' s'' → fa_root self ∈ fs_dirs s''.
Proof.
  intros Hr Hs.
  destruct (steps_rg_ret _ _ _ _ _ _ _ _ _ Hs (open_fs_made cwd me uri s3_endpoint s3_region self s (rd_clear _ _ Hr)))
    as [_ Hm]. destruct (Hm eq_refl) as [Hg Hd]. destruct (Hd eq_refl) as [Hroot Hnew]. clear Hm Hd.
  assert (∀ k, is_key mutable immutable k → fs_entries s' !! fs_path self k = None ∧ fs_pending s' !! fs_path self k = None
    ∧ fs_path self k ∉ fs_dirs s') as Hkey.
  { intros k Hk. destruct (key_below self k Hk) as [Hb Hne]. destruct (rd_empty _ _ Hr _ Hb Hne) as (He & Hp & Hd).
    split; [by rewrite (gw_entries _ _ _ Hg)|]. split; [by apply (gw_pending _ _ _ Hg)|].
    intros [?|Hab]%(gw_dirs _ _ _ Hg); [done|]. apply Hne. destruct Hb as (r1 & E1), Hab as (r2 & E2).
    rewrite E1 in E2. rewrite <-app_assoc in E2. symmetry in E2. rewrite <-(app_nil_r (fa_root self)) in E2 at 2.
    apply app_inv_head in E2. apply app_eq_nil in E2 as [-> _]. by rewrite app_nil_r in E1. }
  split; [|split].
  - split.
    + intros k i Hk [Hp|Hp]; destruct (Hkey k Hk) as (He & Hpd & _); [congruence|]. rewrite Hpd in Hp. by apply not_elem_of_nil in Hp.
    + intros i Hi. rewrite (gw_entries _ _ _ Hg) in Hi.
      destruct (rd_empty _ _ Hr (lock_path self)) as (He & _); [by eexists| |by rewrite He in Hi].
      unfold lock_path. intros E. apply (f_equal length) in E. rewrite length_app in E. simpl in E. lia.
    + intros i j. rewrite (gw_temps _ _ _ Hg), (gw_inodes _ _ _ Hg). apply (rd_temps _ _ Hr).
    + intros k Hk. by apply Hkey.
    + intros p [Hp|Hp]%(gw_dirs _ _ _ Hg); rewrite (gw_entries _ _ _ Hg); [by apply (rd_disjoint _ _ Hr)|by apply (rd_clear _ _ Hr)].
    + done.
  - intros k. unfold fs_contents. case_decide as Hk; [|done]. unfold file_at. by destruct (Hkey k Hk) as (-> & _).
  - intros s'' Hcr. apply (cr_dirs _ _ Hcr). destruct (Hnew _ Hroot) as [Hold|]; [|done].
    apply (gw_durable _ _ _ Hg), (rd_durable _ _ Hr), Hold.
Qed.
End open.

(** ** Examples *)

Module OpenExample.
#[local] Existing Instances toy_sha toy_hex Example.example_keys.
#[local] Instance toy_objects : ObjectCrate := {| path_from key := key; result_bytes _ := inr (OsOther "no body") |}.
(** "s3://bucket/path" *)
#[local] Instance toy_url : UrlCrate := {|
  Url := string * string;
  url_parse uri :=
    match split_on "/" uri with
    | "s3:" :: "" :: bucket :: rest => inl (bucket, String "/" (join "/" rest))
    | _ => inr "relative URL without a base"
    end;
  host_str u := Some u.1;
  url_path u := u.2
|}.

Lemma open_store_s3_witness :
  ∃ f settings, open_store "s3://archive/chains/base/" (Some "http://localhost") None = Vis (EBuildS3 settings) f ∧
    (∀ r, f r = Ret (match r with
                     | inl _ => Ok (OpenedS3 {| oa_prefix := "chains/base" |})
                     | inr e => Err (Ctx "create S3 object store" (os_into e))
                     end)) ∧
    WithBucketName "archive" ∈ settings ∧ WithConditionalPutETagMatch ∈ settings ∧
    ∀ allow, WithAllowHttp allow ∈ settings →
      ∃ endpoint, Some "http://localhost" = Some endpoint ∧ String.prefix "http://" endpoint = true.
Proof.
  eapply (open_store_s3 "s3://archive/chains/base/" (Some "http://localhost") None _ "archive" "chains/base" 1);
    [reflexivity..|]. right. vm_compute. reflexivity.
Defined.

(** A relative path, opened in an empty home directory. *)
Definition home : FsState :=
  {| fs_entries := ∅; fs_inodes := ∅; fs_dirs := {[ []; ["home"] ]}; fs_pending := ∅;
     fs_durable_dirs := {[ []; ["home"] ]}; fs_temps := ∅; fs_locks := ∅ |}.
Definition env_machine (me : nat) : ∀ X, envE X → FsState → option (X * FsState) :=
  λ X e s,
    match e in envE X return option (X * FsState) with
    | EFs e => fs_machine 0 me _ e s
    | ECurrentDir => Some (inl ["home"], s)
    | _ => None
    end.
Lemma env_machine_conforms me X (e : envE X) s x s' : env_machine me X e s = Some (x, s') → env_step ["home"] me X e s x s'.
Proof. destruct e; simpl; try done; [apply fs_machine_conforms|]. by intros [= <- <-]. Qed.

Definition opened : FsArchiveStore := {| fa_root := ["home"; "data"; "archive"] |}.
Definition after_open : FsState :=
  match run_alone (env_machine 0) (open_store "data/./archive" None None) home with Some (_, s) => s | None => home end.
Lemma home_ready : fs_ready (fa_root opened) home.
Proof.
  assert (∀ q, q ∈ fs_dirs home → q = [] ∨ q = ["home"]) as Hd.
  { intros q Hq. simpl in Hq. rewrite elem_of_union, !elem_of_singleton in Hq. done. }
  split; try done. intros q (rest & ->) Hne. split; [done|]. split; [done|]. by intros [?|?]%Hd.
Qed.
Lemma open_store_fresh_witness :
  fs_inv opened Example.is_head Example.is_object after_open ∧
  fs_contents opened Example.is_head Example.is_object after_open ≡ (λ _, None) ∧
  ∀ s'', crashed after_open s'' → fa_root opened ∈ fs_dirs s''.
Proof.
  assert (∃ s', run_alone (env_machine 0) (open_store "data/./archive" None None) home = Some (Ok (OpenedFs opened), s') ∧ s' = after_open)
    as (s' & Hrun & ->).
  { exists after_open. split; [|done]. unfold after_open.
    assert (fst <$> run_alone (env_machine 0) (open_store "data/./archive" None None) home = Some (Ok (OpenedFs opened))) as E
      by (vm_compute; reflexivity).
    destruct (run_alone _ _ _) as [[r s']|]; [|done]. by simplify_eq/=. }
  destruct (run_alone_steps (env_machine 0) (env_step ["home"] 0) _ _ _ _ (env_machine_conforms 0) Hrun) as [tr Htr].
  exact (open_store_fresh Example.is_head Example.is_object ["home"] 0 "data/./archive" None None opened home tr after_open home_ready Htr).
Defined.
End OpenExample.
