(* ===== verification/Compact.v ===== *)
(** * [src/compact.rs]: writing and merging runs

    [write_sorted] builds a run and its summary from records in memory;
    [merge_runs] merges the scans of adjacent runs into a new one.

    The code overlaps uploads with the build, and the build with the merge,
    through bounded channels.  The model performs the same requests in program
    order: the producer reads immutable objects, the uploads write new ones, and
    every task runs to its end before the results are looked at.  When several
    tasks fail together (a closed channel fails its other end) the error reported
    here may not be the one the program reports; that the operation fails is.
    Each loop over
    an unknown number of records takes [fuel]; [merge_loop_enough] says how much
    is enough. *)

From S2P Require Import Prelude Bytes SortedLists Externals Hash RunFormat RunBuilder RunReader Summary Store.
From Stdlib Require Import Lia.

Definition PAGE_LIMIT : N := 1024 * 1024.
Definition READ_AHEAD : nat := 8.

(** [BuiltRun] *)
Record BuiltRun := {
  built_root : ObjectRef;
  built_root_bytes : bytes;
  built_keys : N;
  built_shards : N
}.

(** The keys that start a group of records with the same key:
    [index == 0 || records[index - 1].key != record.key]. *)
Fixpoint distinct_keys (previous : option bytes) (records : list RunRecord) : list bytes :=
  match records with
  | [] => []
  | record :: records =>
      if bool_decide (previous = Some (rec_key record))
      then distinct_keys (Some (rec_key record)) records
      else rec_key record :: distinct_keys (Some (rec_key record)) records
  end.

(** [ready: Mutex<HashMap<Hash32, Vec<u8>>>]: an association list without
    duplicate keys. *)
Abbreviation Ready := (list (Hash32 * bytes)).
Definition ready_drop (d : Hash32) (r : Ready) : Ready :=
  filter (λ p, p.1 ≠ d) r.
Fixpoint ready_find (d : Hash32) (r : Ready) : option bytes :=
  match r with
  | [] => None
  | (e, b) :: r => if bool_decide (e = d) then Some b else ready_find d r
  end.
Definition ready_extend (r : Ready) (l : list (Hash32 * bytes)) : Ready :=
  fold_left (λ r p, p :: ready_drop p.1 r) l r.

Section compact.
Context `{Sha256, Hex, Zstd}.

(** [EncodedObject::object_key] *)
Definition EncodedObject_key (o : EncodedObject) : string := object_key (ref_digest (obj_reference o)).

(** [fetch] *)
Definition fetch (reference : ObjectRef) : prog storeE (result bytes) :=
  let limit := ref_length reference in
  if (limit =? 0)%N || (PAGE_LIMIT <? limit)%N || bool_decide (ref_digest reference = zero_hash)
  then Ret (bail "invalid run object reference")
  else
    let! b := request (SGetBounded (object_key (ref_digest reference)) limit) in
    if negb (len b =? limit)%N || negb (bool_decide (digest b = ref_digest reference))
    then Ret (bail "run object digest or length mismatch")
    else Ret (Ok b).

(** The closure [|reference| fetch(store, reference)]. *)
Definition fetch_handler : ∀ X, fetchE X → prog storeE X :=
  λ X e, match e in fetchE X return prog storeE X with Fetch r => fetch r end.

(** [put_all] *)
Fixpoint put_all (objects : list (string * bytes)) : prog storeE (result unit) :=
  match objects with
  | [] => Ret (Ok tt)
  | (key, b) :: objects =>
      let! _ := request (SPutImmutable key b) in
      put_all objects
  end.

Definition keyed (objects : list EncodedObject) : list (string * bytes) :=
  map (λ o, (EncodedObject_key o, obj_bytes o)) objects.

(** [write_sorted] *)
Definition write_sorted (records : list RunRecord) : prog storeE (result BuiltRun) :=
  let keys := distinct_keys None records in
  let!? summary := SummaryBuilder_new (len keys) in
  let summary := fold_left SummaryBuilder_add keys summary in
  let '(built, objects) := build collect_object records [] in
  let!? root := built in
  let!? last_object := unwrap (last objects) in
  let! _ := put_all (keyed objects) in
  let! _ := put_all (SummaryBuilder_finish summary (ref_digest root)) in
  Ret (Ok {| built_root := root; built_root_bytes := obj_bytes last_object;
             built_keys := sb_keys summary; built_shards := sb_shards summary |}).

(** ** [ReadAhead] *)

(** [ReadAhead::new]: the data pages of every partition of every reader. *)
Fixpoint page_lists (readers : list RunReader) : prog storeE (result (list (list ObjectRef))) :=
  match readers with
  | [] => Ret (Ok [])
  | reader :: readers =>
      let! pages := interp fetch_handler (data_pages reader) in
      let! rest := page_lists readers in
      Ret (Ok (pages ++ rest))
  end.

(** [order]: the first page with a digest, then the batch
    [lists[list][position..].take(READ_AHEAD)]. *)
Fixpoint pages_from (d : Hash32) (pages : list ObjectRef) : option (list ObjectRef) :=
  match pages with
  | [] => None
  | page :: rest => if bool_decide (ref_digest page = d) then Some pages else pages_from d rest
  end.
Fixpoint batch_from (d : Hash32) (lists : list (list ObjectRef)) : option (list ObjectRef) :=
  match lists with
  | [] => None
  | pages :: lists =>
      match pages_from d pages with
      | Some pages => Some (take READ_AHEAD pages)
      | None => batch_from d lists
      end
  end.

(** [try_join_all(batch.map(fetch))] *)
Fixpoint fetch_batch (batch : list ObjectRef) : prog storeE (result (list (Hash32 * bytes))) :=
  match batch with
  | [] => Ret (Ok [])
  | page :: batch =>
      let! b := fetch page in
      let! rest := fetch_batch batch in
      Ret (Ok ((ref_digest page, b) :: rest))
  end.

(** [ReadAhead::get] *)
Definition read_ahead_get (lists : list (list ObjectRef)) (reference : ObjectRef) (ready : Ready)
    : prog storeE (result bytes * Ready) :=
  match ready_find (ref_digest reference) ready with
  | Some b => Ret (Ok b, ready_drop (ref_digest reference) ready)
  | None =>
      match batch_from (ref_digest reference) lists with
      | None => let* r := fetch reference in Ret (r, ready)
      | Some batch =>
          let* fetched := fetch_batch batch in
          match fetched with
          | Err e => Ret (Err e, ready)
          | Ok [] => Ret (Err (Panic "batch starts with the request"), ready)
          | Ok ((_, first) :: rest) => Ret (Ok first, ready_extend ready rest)
          end
      end
  end.

Definition read_ahead_handler (lists : list (list ObjectRef)) : ∀ X, fetchE X → Ready → prog storeE (X * Ready) :=
  λ X e, match e in fetchE X return Ready → prog storeE (X * Ready) with
         | Fetch r => read_ahead_get lists r
         end.

(** ** [merge_runs] *)

(** The choice of the next record: the least front record. *)
Fixpoint choose_head (index : nat) (heads : list (option RunRecord)) (chosen : option (nat * RunRecord))
    : result (option (nat * RunRecord)) :=
  match heads with
  | [] => Ok chosen
  | None :: heads => choose_head (S index) heads chosen
  | Some record :: heads =>
      match chosen with
      | None => choose_head (S index) heads (Some (index, record))
      | Some (best, current) =>
          match cmp (rec_version record) (rec_version current) with
          | Eq => bail "duplicate (key, block) across merged runs"
          | Lt => choose_head (S index) heads (Some (index, record))
          | Gt => choose_head (S index) heads (Some (best, current))
          end
      end
  end.

(** The producer's mutable state. *)
Record Producer := {
  pr_scanners : list RunScanner;
  pr_heads : list (option RunRecord);
  pr_ready : Ready;
  pr_summary : SummaryBuilder;
  pr_last_key : option bytes;
  pr_sent : list RunRecord
}.

(** [scanner.next(|page| read_ahead.get(page))] *)
Definition next_ahead (lists : list (list ObjectRef)) (s : RunScanner) (ready : Ready)
    : prog storeE (RunScanner * result (option RunRecord) * Ready) :=
  interp_st (read_ahead_handler lists) (RunScanner_next s) ready.

(** The loop that reads the first record of every scanner. *)
Fixpoint first_heads (lists : list (list ObjectRef)) (scanners : list RunScanner) (ready : Ready)
    : prog storeE (result (list RunScanner * list (option RunRecord) * Ready)) :=
  match scanners with
  | [] => Ret (Ok ([], [], ready))
  | s :: scanners =>
      let* (s, r, ready) := next_ahead lists s ready in
      match r with
      | Err e => Ret (Err e)
      | Ok head =>
          let! (scanners, heads, ready) := first_heads lists scanners ready in
          Ret (Ok (s :: scanners, head :: heads, ready))
      end
  end.

(** The producer's loop; the records sent to the builder are returned also
    when it fails, since the builder then finishes with what it received. *)
Fixpoint merge_loop (fuel : nat) (lists : list (list ObjectRef)) (p : Producer)
    : prog storeE (result SummaryBuilder * list RunRecord) :=
  match fuel with
  | O => Ret (Err (Panic "out of fuel"), pr_sent p)
  | S fuel =>
      match choose_head 0 (pr_heads p) None with
      | Err e => Ret (Err e, pr_sent p)
      | Ok None => Ret (Ok (pr_summary p), pr_sent p)
      | Ok (Some (index, record)) =>
          match pr_scanners p !! index with
          | None => Ret (Err (Panic "index out of bounds"), pr_sent p)
          | Some scanner =>
              let* (scanner, r, ready) := next_ahead lists scanner (pr_ready p) in
              match r with
              | Err e => Ret (Err e, pr_sent p)
              | Ok head =>
                  let fresh := negb (bool_decide (pr_last_key p = Some (rec_key record))) in
                  merge_loop fuel lists
                    {| pr_scanners := <[index := scanner]> (pr_scanners p);
                       pr_heads := <[index := head]> (pr_heads p);
                       pr_ready := ready;
                       pr_summary := if fresh then SummaryBuilder_add (pr_summary p) (rec_key record)
                                     else pr_summary p;
                       pr_last_key := if fresh then Some (rec_key record) else pr_last_key p;
                       pr_sent := pr_sent p ++ [record] |}
              end
          end
      end
  end.

(** The task [producer]. *)
Definition producer (fuel : nat) (lists : list (list ObjectRef)) (readers : list RunReader) (expected_keys : N)
    : prog storeE (result SummaryBuilder * list RunRecord) :=
  match SummaryBuilder_new expected_keys with
  | Err e => Ret (Err e, [])
  | Ok summary =>
      let* first := first_heads lists (map scanner readers) [] in
      match first with
      | Err e => Ret (Err e, [])
      | Ok (scanners, heads, ready) =>
          merge_loop fuel lists
            {| pr_scanners := scanners; pr_heads := heads; pr_ready := ready;
               pr_summary := summary; pr_last_key := None; pr_sent := [] |}
      end
  end.

(** The root bytes the builder task keeps: the last object below 4096 bytes. *)
Definition small_last (objects : list EncodedObject) : bytes :=
  match last (filter (λ o, (len (obj_bytes o) <? 4096)%N = true) objects) with
  | Some o => obj_bytes o
  | None => []
  end.

(** [merge_runs] *)
Definition merge_runs (fuel : nat) (inputs : list (ObjectRef * bytes)) (expected_keys : N)
    : prog storeE (result BuiltRun) :=
  let!? readers := collect (λ p, RunReader_decode p.1 p.2) inputs in
  let! lists := page_lists readers in
  let* (produced, records) := producer fuel lists readers expected_keys in
  let '(built, objects) := build collect_object records [] in
  let* uploaded := put_all (keyed objects) in
  let!? summary := produced in
  let!? root := built in
  let!? _ := uploaded in
  let! _ := put_all (SummaryBuilder_finish summary (ref_digest root)) in
  Ret (Ok {| built_root := root; built_root_bytes := small_last objects;
             built_keys := sb_keys summary; built_shards := sb_shards summary |}).

End compact.
