(* ===== verification/CompactFacts.v ===== *)
(** * Written runs are stored

    What [put_all] and [write_sorted] leave in a memory store: a run that every
    later state of the store represents, with its summary. *)

From S2P Require Import Prelude Bytes SortedLists Externals Hash RunFormat RunFormatFacts RunBuilder RunReader RunRep RunBuild RunEmission Head HeadFacts Summary SummaryFacts Store Compact.
From Stdlib Require Import Lia Sorting.Sorted.

Section facts.
Context `{Sha256, Hex, Zstd}.
Context (now : Z).
Abbreviation exec := (run_prog (mem_handle now)).

(** ** Fetching *)

(** What [fetch] answers in a given state. *)
Definition mem_fetch (s : MemoryState) (r : ObjectRef) : result bytes :=
  if (ref_length r =? 0)%N || (PAGE_LIMIT <? ref_length r)%N || bool_decide (ref_digest r = zero_hash)
  then bail "invalid run object reference"
  else
    let? b := mem_get_bounded (object_key (ref_digest r)) (ref_length r) s in
    if negb (len b =? ref_length r)%N || negb (bool_decide (digest b = ref_digest r))
    then bail "run object digest or length mismatch"
    else Ok b.

Lemma run_fetch r s : exec (fetch r) s = (mem_fetch s r, s).
Proof.
  unfold fetch, mem_fetch. destruct (_ || _); [done|]. simpl.
  destruct (mem_get_bounded _ _ s) as [b|]; [|done]. by destruct (_ || _).
Qed.

(** A program that only fetches leaves the store alone. *)
Lemma run_interp_fetch {A} (p : prog fetchE A) s :
  exec (interp fetch_handler p) s = (run_pure (fetch_from (mem_fetch s)) p, s).
Proof.
  induction p as [a|X e k IH]; [done|]. destruct e as [r]. cbn [interp fetch_handler run_pure fetch_from].
  rewrite run_prog_bind, run_fetch. apply IH.
Qed.

(** ** States that only grow *)

Definition extends (s s' : MemoryState) : Prop := ms_entries s ⊆ ms_entries s'.
#[global] Instance extends_preorder : PreOrder extends.
Proof. split; [intros s; unfold extends; done|intros a b c; unfold extends; intros; by etrans]. Qed.

Lemma extends_lookup s s' key e :
  extends s s' → ms_entries s !! key = Some e → ms_entries s' !! key = Some e.
Proof. intros Hs Hk. by apply (lookup_weaken _ _ _ _ Hk). Qed.

(** Bytes present at a key. *)
Definition stored (s : MemoryState) (key : string) (b : bytes) : Prop :=
  ∃ e, ms_entries s !! key = Some e ∧ me_bytes e = b.

Lemma stored_mono s s' key b : extends s s' → stored s key b → stored s' key b.
Proof. intros Hs (e & He & Hb). exists e. split; [|done]. by eapply extends_lookup. Qed.

Lemma stored_get s key b m : stored s key b → (len b <= m)%N → mem_get_bounded key m s = Ok b.
Proof.
  intros (e & He & <-) Hl. unfold mem_get_bounded. rewrite He.
  by rewrite (proj2 (N.ltb_ge _ _)).
Qed.

(** The content-addressed objects and the summary shards. *)
Definition immutable_key (key : string) : bool :=
  String.prefix "objects/" key || String.prefix "summaries/" key.

(** Every immutable object of [s] is still in [s'], with the same bytes; the
    heads may differ. *)
Definition keeps (s s' : MemoryState) : Prop :=
  ∀ key b, immutable_key key = true → stored s key b → stored s' key b.
#[global] Instance keeps_preorder : PreOrder keeps.
Proof. split; [by intros s key b _|]. intros a b c Hab Hbc key x Hk Hx. by apply Hbc, Hab. Qed.

Lemma extends_keeps s s' : extends s s' → keeps s s'.
Proof. intros Hs key b _. by apply stored_mono. Qed.

Lemma object_key_immutable h : immutable_key (object_key h) = true.
Proof. reflexivity. Qed.
Lemma shard_path_immutable run shards kind index : immutable_key (shard_path run shards kind index) = true.
Proof. unfold immutable_key, shard_path. by rewrite (prefix_app "summaries/"), orb_true_r. Qed.

Lemma mem_get_bounded_mono s s' key m b :
  keeps s s' → immutable_key key = true → mem_get_bounded key m s = Ok b → mem_get_bounded key m s' = Ok b.
Proof.
  intros Hs Hk. unfold mem_get_bounded at 1. destruct (ms_entries s !! key) as [e|] eqn:E; [|done].
  destruct (_ <? _)%N eqn:El; [done|]. intros [= <-]. bool_prop. apply stored_get; [|done].
  apply Hs; [done|]. by exists e.
Qed.

Lemma mem_fetch_mono s s' r b : keeps s s' → mem_fetch s r = Ok b → mem_fetch s' r = Ok b.
Proof.
  intros Hs. unfold mem_fetch. destruct (_ || _); [done|].
  destruct (mem_get_bounded _ _ s) as [b'|] eqn:E; [|done].
  by rewrite (mem_get_bounded_mono _ _ _ _ _ Hs (object_key_immutable _) E).
Qed.

Lemma insert_extends key b s : ms_entries s !! key = None → extends s (MemoryState_insert key b s).
Proof. intros Hn. unfold extends. simpl. by apply insert_subseteq. Qed.

Lemma put_extends key b s : extends s (mem_put_immutable key b s).2.
Proof.
  unfold mem_put_immutable. destruct (ms_entries s !! key) eqn:E; [by case_bool_decide|].
  by apply insert_extends.
Qed.

Lemma put_all_extends objects s : extends s (exec (put_all objects) s).2.
Proof.
  revert s; induction objects as [|[key b] objects IH]; intros s; [done|]. cbn [put_all].
  rewrite run_prog_bind. simpl. pose proof (put_extends key b s) as Hp.
  destruct (mem_put_immutable key b s) as [[[]|e] s1]; simpl in *; [|done]. etrans; [exact Hp|apply IH].
Qed.

Lemma put_all_ok objects s s' :
  exec (put_all objects) s = (Ok tt, s') → Forall (λ o, stored s' o.1 o.2) objects.
Proof.
  revert s; induction objects as [|[key b] objects IH]; intros s; [constructor|]. cbn [put_all].
  rewrite run_prog_bind. simpl. destruct (mem_put_immutable key b s) as [[[]|e] s1] eqn:Ep; [|done].
  simpl. intros Hr. constructor; [|by eapply IH].
  apply (stored_mono s1); [|by eapply mem_put_ok].
  pose proof (put_all_extends objects s1) as He. by rewrite Hr in He.
Qed.

(** ** Objects of a build *)

Lemma emission_objects objs o :
  emission objs → o ∈ objs →
  make_object (obj_bytes o) = Ok o ∧ (0 < len (obj_bytes o) <= MAX_PAGE_BYTES)%N.
Proof.
  induction 1 as [|objs x He IH Ho Hk]; [set_solver|].
  intros [Hin|Hin%list_elem_of_singleton]%elem_of_app; [by apply IH|]. subst x. split; [done|].
  destruct Hk as [page c Hb Hp Hl|magic fs Hm Hb Hl HF|refs Hb Hl HF].
  - split; [|done]. rewrite Hb. unfold page_object_bytes. autorewrite with fossil_len. lia.
  - split; [|unfold MAX_INDEX_BYTES, MAX_PAGE_BYTES in *; lia]. rewrite Hb. unfold index_payload.
    autorewrite with fossil_len. lia.
  - rewrite Hl. vm_compute. done.
Qed.

Lemma object_fetched `{!Sha256Laws} s o :
  make_object (obj_bytes o) = Ok o → (0 < len (obj_bytes o) <= MAX_PAGE_BYTES)%N →
  stored s (EncodedObject_key o) (obj_bytes o) → mem_fetch s (obj_reference o) = Ok (obj_bytes o).
Proof.
  intros Ho Hl Hs. destruct (make_object_inv _ _ Ho) as [Eo _]. unfold EncodedObject_key in Hs.
  rewrite Eo in Hs |- *. simpl in *. unfold mem_fetch. cbn [ref_length ref_digest].
  rewrite (proj2 (N.eqb_neq _ _)) by lia.
  rewrite (proj2 (N.ltb_ge _ _)) by (unfold PAGE_LIMIT, MAX_PAGE_BYTES in *; lia).
  rewrite bool_decide_eq_false_2 by apply sha256_nonzero. cbn [orb].
  rewrite (stored_get s _ (obj_bytes o)) by (done || lia).
  by rewrite N.eqb_refl, bool_decide_eq_true_2.
Qed.

(** ** Summaries in the store *)

Definition shard_in (s : MemoryState) (run : Hash32) (shards : N) (kind : ShardKind) (index : N)
    (shard : Shard) : Prop :=
  ∃ b, mem_get_bounded (shard_path run shards kind index) MAX_SHARD_BYTES s = Ok b ∧
    Shard_decode run kind index shards b = Ok shard.

Record summary_stored (s : MemoryState) (run : Hash32) (shards : N) (keys : list bytes) : Prop := {
  ss_power : is_power_of_two shards = true;
  ss_u32 : (shards <= u32_max)%N;
  ss_shards kind index : (index < shards)%N → ∃ shard, shard_in s run shards kind index shard;
  ss_keys key : key ∈ keys →
    let probe := Probe_new key shards in
    ∃ address, shard_in s run shards Address (p_address_index probe) address ∧
      (Shard_contains address key = true ∨
       (Shard_contains address (p_marker probe) = true ∧
        ∃ spill, shard_in s run shards Spill (p_spill_index probe) spill ∧
          Shard_contains spill key = true))
}.

Lemma shard_in_mono s s' run shards kind index shard :
  keeps s s' → shard_in s run shards kind index shard → shard_in s' run shards kind index shard.
Proof. intros Hs (b & Hb & Hd). exists b. split; [|done]. by apply (mem_get_bounded_mono _ _ _ _ _ Hs (shard_path_immutable _ _ _ _)). Qed.

Lemma summary_stored_mono s s' run shards keys :
  keeps s s' → summary_stored s run shards keys → summary_stored s' run shards keys.
Proof.
  intros Hs [Hp Hu Hsh Hk]. split; [done|done| |].
  - intros kind index Hi. destruct (Hsh kind index Hi) as [shard Hin]. exists shard. by eapply shard_in_mono.
  - intros key Hkey. destruct (Hk key Hkey) as (a & Ha & Hc). exists a. split; [by eapply shard_in_mono|].
    destruct Hc as [Hc|(Hm & sp & Hsp & Hc)]; [by left|right]. split; [done|].
    exists sp. split; [by eapply shard_in_mono|done].
Qed.

Lemma summary_put expected b keys run s :
  SummaryBuilder_new expected = Ok b →
  Forall (λ o, stored s o.1 o.2) (SummaryBuilder_finish (add_keys b keys) run) →
  summary_stored s run (sb_shards (add_keys b keys)) keys.
Proof.
  intros Hb Hput. rewrite Forall_forall in Hput.
  pose proof (SummaryBuilder_new_bound _ _ Hb) as Hmax.
  destruct (SummaryBuilder_new_ok expected Hmax) as (b' & size & Hb' & Hsize & Hcount & Hi).
  assert (b' = b) as -> by congruence.
  destruct (shard_count_spec expected Hmax) as (k & Hk & Hk31 & _).
  destruct (add_keys_inv size b keys [] (Hi _)) as [Hi' Hsh]. rewrite app_nil_r in Hi'.
  assert (∀ kind index bytes shard,
    (shard_path run (sb_shards (add_keys b keys)) kind index, bytes) ∈ SummaryBuilder_finish (add_keys b keys) run →
    Shard_decode run kind index (sb_shards (add_keys b keys)) bytes = Ok shard →
    shard_in s run (sb_shards (add_keys b keys)) kind index shard) as Hin.
  { intros kind index bytes shard Hin Hd. exists bytes. split; [|done].
    pose proof (finish_lengths _ _ _ _ _ _ Hi' Hin) as Hl.
    apply stored_get; [by apply (Hput _ Hin)|]. unfold MAX_SHARD_BYTES. lia. }
  split.
  - rewrite Hsh, Hcount, Hk. apply is_power_of_two_pow.
  - pose proof (wf_shards _ _ (inv_wf _ _ _ Hi')). lia.
  - intros kind index Hlt. destruct (finish_every_shard size kind _ _ run index Hi') as (bs & shard & Hb1 & Hb2);
      [lia|done|]. exists shard. by eapply Hin.
  - intros key Hkey probe. destruct (finish_answers size _ _ run key Hi') as (ab & a & Ha1 & Ha2 & Hc); [lia| |].
    { apply list_elem_of_In. rewrite <-in_rev. by apply list_elem_of_In. }
    exists a. split; [by eapply Hin|]. destruct Hc as [Hc|(Hm & sb & sp & Hs1 & Hs2 & Hc)]; [by left|right].
    split; [done|]. exists sp. split; [by eapply Hin|done].
Qed.

(** ** Written runs *)

Record built_stored (s : MemoryState) (built : BuiltRun) (records : list RunRecord) : Prop := {
  bs_length : len (built_root_bytes built) = ref_length (built_root built);
  bs_digest : digest (built_root_bytes built) = ref_digest (built_root built);
  bs_u32 : (ref_length (built_root built) <= u32_max)%N;
  bs_run : ∃ reader, RunReader_decode (built_root built) (built_root_bytes built) = Ok reader ∧
    run_rep (mem_fetch s) reader records;
  bs_summary : summary_stored s (ref_digest (built_root built)) (built_shards built) (map rec_key records);
  bs_keys : (built_keys built <= u64_max)%N;
  bs_root : stored s (object_key (ref_digest (built_root built))) (built_root_bytes built)
}.

Lemma distinct_keys_all previous records r :
  r ∈ records → rec_key r ∈ distinct_keys previous records ∨ previous = Some (rec_key r).
Proof.
  revert previous; induction records as [|x records IH]; intros previous Hr; [set_solver|].
  cbn [distinct_keys]. apply elem_of_cons in Hr as [->|Hr].
  - case_bool_decide; [by right|left; set_solver].
  - destruct (IH (Some (rec_key x)) Hr) as [Hk|[= Hk]]; case_bool_decide as E.
    + by left.
    + left. set_solver.
    + right. by rewrite E, Hk.
    + left. rewrite Hk. set_solver.
Qed.

Lemma summary_stored_weaken s run shards keys keys' :
  (∀ k, k ∈ keys' → k ∈ keys) → summary_stored s run shards keys → summary_stored s run shards keys'.
Proof. intros Hk [Hp Hu Hsh Hkeys]. split; try done. intros key Hkey. by apply Hkeys, Hk. Qed.

Lemma keyed_stored `{!Sha256Laws} s records reference objects :
  build collect_object records [] = (Ok reference, objects) →
  Forall (λ o, stored s o.1 o.2) (keyed objects) →
  (∀ o, o ∈ objects → mem_fetch s (obj_reference o) = Ok (obj_bytes o)) ∧
  (∀ o, o ∈ objects → ref_digest (obj_reference o) ≠ zero_hash) ∧
  ∃ earlier root, objects = earlier ++ [root] ∧ obj_reference root = reference ∧
    make_object (obj_bytes root) = Ok root ∧ len (obj_bytes root) = ROOT_BYTES.
Proof.
  intros Hb Hput. pose proof (build_triple records [] eq_refl) as Ht. rewrite Hb in Ht.
  destruct Ht as (He & earlier & refs & root & -> & Hr & Hrb & Hlr).
  rewrite Forall_forall in Hput.
  assert (∀ o, o ∈ earlier ++ [root] → make_object (obj_bytes o) = Ok o ∧ (0 < len (obj_bytes o) <= MAX_PAGE_BYTES)%N)
    as Hobj by (intros o Ho; by apply (emission_objects (earlier ++ [root]))).
  split_and!.
  - intros o Ho. destruct (Hobj o Ho) as [Hm Hl]. apply object_fetched; [done|done|].
    apply (Hput (EncodedObject_key o, obj_bytes o)).
    apply list_elem_of_fmap. eauto.
  - intros o Ho. destruct (Hobj o Ho) as [Hm _]. apply make_object_inv in Hm as [-> _]. apply sha256_nonzero.
  - exists earlier, root. split_and!; [done|done|apply Hobj; set_solver|].
    rewrite Hrb. by apply len_root_payload.
Qed.

(** The common end of [write_sorted] and [merge_runs]. *)
Lemma stored_built `{!Sha256Laws, !ZstdLaws} s records reference objects expected b keys root_bytes :
  build collect_object records [] = (Ok reference, objects) →
  Forall (λ r, (rec_block r <= u64_max)%N) records →
  Forall (λ o, stored s o.1 o.2) (keyed objects) →
  (∀ root, last objects = Some root → obj_bytes root = root_bytes) →
  SummaryBuilder_new expected = Ok b →
  (∀ r, r ∈ records → rec_key r ∈ keys) →
  (sb_keys (add_keys b keys) <= u64_max)%N →
  Forall (λ o, stored s o.1 o.2) (SummaryBuilder_finish (add_keys b keys) (ref_digest reference)) →
  built_stored s {| built_root := reference; built_root_bytes := root_bytes;
    built_keys := sb_keys (add_keys b keys); built_shards := sb_shards (add_keys b keys) |} records.
Proof.
  intros Hb Hu Hput Hroot Hnew Hkeys Hk64 Hsum.
  destruct (keyed_stored s records reference objects Hb Hput) as (Hf & Hz & earlier & root & -> & Hr & Hm & Hl).
  destruct (build_run records reference _ (mem_fetch s) Hb Hu Hf Hz) as (_ & _ & rb & reader & Hrb & Hdec & Hrep).
  specialize (Hroot root). rewrite last_snoc in Hroot. specialize (Hroot eq_refl). subst root_bytes.
  assert (rb = obj_bytes root) as ->.
  { rewrite <-Hr, (Hf root) in Hrb by set_solver. congruence. }
  apply make_object_inv in Hm as [Hm Hm32].
  assert (ref_length reference = len (obj_bytes root) ∧ ref_digest reference = digest (obj_bytes root)) as [E1 E2]
    by (rewrite <-Hr, Hm; done).
  split; simpl; try done; [by rewrite E1|eauto| |].
  - eapply summary_stored_weaken; [|by eapply summary_put].
    intros k Hk. apply list_elem_of_fmap in Hk as (r & -> & Hin). by apply Hkeys.
  - rewrite Forall_forall in Hput. rewrite <-Hr. apply (Hput (EncodedObject_key root, obj_bytes root)).
    apply list_elem_of_fmap. exists root. split; [done|]. apply elem_of_app. right. by apply list_elem_of_singleton.
Qed.

Lemma add_keys_count b keys : (sb_keys b <= u64_max)%N → (sb_keys (add_keys b keys) <= u64_max)%N.
Proof.
  revert b; induction keys as [|k keys IH]; intros b Hb; [done|]. apply IH.
  assert (∀ ds b, sb_keys (fold_left (λ b d, spill_insert d b) ds b) = sb_keys b) as F1
    by (induction ds as [|d ds IHd]; intros b0; simpl; [done|by rewrite IHd]).
  assert (∀ i ds b, sb_keys (fold_left (λ b d, address_insert i d b) ds b) = sb_keys b) as F2
    by (induction ds as [|d ds IHd]; intros b0; simpl; [done|by rewrite IHd]).
  assert (sb_keys (SummaryBuilder_add b k) = wrapping_add64 (sb_keys b) 1) as ->.
  { unfold SummaryBuilder_add. set (b0 := {| sb_shards := _ |}).
    assert (∀ b1, sb_keys b1 = wrapping_add64 (sb_keys b) 1 →
      sb_keys (add_in_group b1 k) = wrapping_add64 (sb_keys b) 1) as F3.
    { intros b1 E. unfold add_in_group. destruct (sb_heavy b1); [done|]. destruct (_ <? _)%N; [|done].
      by rewrite F1. }
    apply F3. case_bool_decide; [done|]. simpl. destruct (_ && _); [|done]. by rewrite F2. }
  unfold wrapping_add64. pose proof (N.mod_lt (sb_keys b + 1) (u64_max + 1)). lia.
Qed.

Lemma write_sorted_extends records s : extends s (exec (write_sorted records) s).2.
Proof.
  unfold write_sorted. destruct (SummaryBuilder_new _) as [b|]; [|done].
  destruct (build collect_object records []) as [[root|e] objects]; [|done].
  destruct (last objects) as [o|]; [|done]. cbn [unwrap].
  rewrite run_prog_bind. pose proof (put_all_extends (keyed objects) s) as H2.
  destruct (exec (put_all (keyed objects)) s) as [[[]|e] s1]; [|done]. simpl in H2.
  rewrite run_prog_bind. match goal with |- context [exec (put_all ?l) s1] =>
    pose proof (put_all_extends l s1) as H3; destruct (exec (put_all l) s1) as [[[]|e] s2] end;
  simpl in *; by etrans.
Qed.

Lemma write_sorted_ok `{!Sha256Laws, !ZstdLaws} records s built s' :
  exec (write_sorted records) s = (Ok built, s') →
  Forall (λ r, (rec_block r <= u64_max)%N) records →
  extends s s' ∧ built_stored s' built records.
Proof.
  intros He Hu. split; [pose proof (write_sorted_extends records s) as Hx; by rewrite He in Hx|].
  unfold write_sorted in He. destruct (SummaryBuilder_new _) as [b|] eqn:Enew; [|done].
  destruct (build collect_object records []) as [[root|e] objects] eqn:Eb; [|done].
  destruct (last objects) as [o|] eqn:El; [|done]. cbn [unwrap] in He.
  rewrite run_prog_bind in He. destruct (exec (put_all (keyed objects)) s) as [[[]|e] s1] eqn:E1; [|done].
  rewrite run_prog_bind in He.
  match type of He with context [exec (put_all ?l) s1] =>
    destruct (exec (put_all l) s1) as [[[]|e] s2] eqn:E2 end; [|done].
  injection He as <- <-.
  assert (extends s1 s2) as Hx.
  { match type of E2 with exec (put_all ?l) s1 = _ => pose proof (put_all_extends l s1) as Hx end.
    by rewrite E2 in Hx. }
  apply put_all_ok in E1, E2.
  eapply (stored_built s2 records root objects (len (distinct_keys None records)) b (distinct_keys None records));
    try done.
  - eapply Forall_impl; [exact E1|]. intros x Hxs. by eapply stored_mono.
  - intros root' Hr. rewrite El in Hr. congruence.
  - intros r Hr. by destruct (distinct_keys_all None records r Hr).
  - apply add_keys_count. unfold SummaryBuilder_new in Enew.
    destruct (div_ceil _ (shard_count _)); [|done]. destruct (div_ceil _ 8); [|done].
    destruct (_ <? _)%N; [done|]. by injection Enew as <-.
Qed.

End facts.
