(* ===== verification/MergeFacts.v ===== *)
(** * Merging runs keeps their records

    [merge_runs] on runs with disjoint versions builds the sorted list of all
    their records: read-ahead answers what a plain fetch would, the loop sends
    the least record of all scanners each time, and it ends. *)

From S2P Require Import Prelude Bytes SortedLists Externals Hash RunFormat RunFormatFacts RunBuilder RunReader RunRep RunScan RunBuild RunEmission Head HeadFacts Summary SummaryFacts Store Compact CompactFacts.
From Stdlib Require Import Lia Sorting.Sorted.

Section merge.
Context `{Sha256, Hex, Zstd}.
Context (now : Z) (s : MemoryState).
Abbreviation exec := (run_prog (mem_handle now)).
Abbreviation f := (mem_fetch s).

(** ** Read-ahead *)

Lemma mem_fetch_stored r b : f r = Ok b → stored s (object_key (ref_digest r)) b.
Proof.
  unfold mem_fetch. destruct (_ || _); [done|].
  destruct (mem_get_bounded _ _ s) as [b'|] eqn:E; [|done]. destruct (_ || _); [done|]. intros [= <-].
  unfold mem_get_bounded in E. destruct (ms_entries s !! _) as [e|] eqn:Ee; [|done].
  destruct (_ <? _)%N; [done|]. injection E as <-. by exists e.
Qed.

Lemma stored_inj key b b' : stored s key b → stored s key b' → b = b'.
Proof. intros (e & He & <-) (e' & He' & <-). congruence. Qed.

(** Read-ahead only holds bytes of the store. *)
Definition ready_ok (ready : Ready) : Prop :=
  ∀ d b, ready_find d ready = Some b → stored s (object_key d) b.

Definition fetchable (lists : list (list ObjectRef)) : Prop :=
  ∀ l r, l ∈ lists → r ∈ l → ∃ b, f r = Ok b.

Lemma ready_find_dropped d ready : ready_find d (ready_drop d ready) = None.
Proof.
  induction ready as [|[x y] ready IH]; [done|]. unfold ready_drop. rewrite filter_cons.
  case_decide as E; simpl in *; [|done]. by rewrite bool_decide_eq_false_2.
Qed.

Lemma ready_find_drop d e ready b : ready_find d (ready_drop e ready) = Some b → ready_find d ready = Some b.
Proof.
  induction ready as [|[x y] ready IH]; [done|]. unfold ready_drop. rewrite filter_cons.
  case_decide as E; simpl in *; [by case_bool_decide|]. intros Hd.
  case_bool_decide as Ex; [|by apply IH]. subst x.
  destruct (decide (d = e)) as [->|]; [|done]. pose proof (ready_find_dropped e ready) as Hn.
  unfold ready_drop in Hn. congruence.
Qed.

Lemma ready_ok_drop d ready : ready_ok ready → ready_ok (ready_drop d ready).
Proof. intros Hr e b Hf. by eapply Hr, ready_find_drop. Qed.

Lemma ready_ok_extend ready l :
  ready_ok ready → Forall (λ p, stored s (object_key p.1) p.2) l → ready_ok (ready_extend ready l).
Proof.
  intros Hr HF; revert ready Hr; induction HF as [|[d b] l Hd HF IH]; intros ready Hr; [done|].
  apply IH. intros e b' He. simpl in He. case_bool_decide as E; [subst e; by injection He as <-|].
  by eapply ready_ok_drop.
Qed.

Lemma pages_from_spec d pages batch :
  pages_from d pages = Some batch →
  ∃ page rest, batch = page :: rest ∧ ref_digest page = d ∧ ∀ r, r ∈ batch → r ∈ pages.
Proof.
  induction pages as [|page pages IH]; simpl; [done|]. case_bool_decide as E.
  - intros [= <-]. exists page, pages. done.
  - intros (p & rest & -> & Hd & Hin)%IH. exists p, rest. set_solver.
Qed.

Lemma batch_from_spec d lists batch :
  batch_from d lists = Some batch →
  ∃ page rest, batch = page :: rest ∧ ref_digest page = d ∧ ∃ l, l ∈ lists ∧ ∀ r, r ∈ batch → r ∈ l.
Proof.
  induction lists as [|pages lists IH]; simpl; [done|].
  destruct (pages_from d pages) as [l|] eqn:E.
  - intros [= <-]. apply pages_from_spec in E as (page & rest & -> & Hd & Hin).
    exists page, (take 7 rest). split_and!; [done|done|]. exists pages. split; [set_solver|].
    intros r Hr. apply Hin. apply elem_of_cons in Hr as [->|Hr]; [set_solver|].
    apply elem_of_cons. right. rewrite <-(take_drop 7 rest). set_solver.
  - intros (page & rest & -> & Hd & l & Hl & Hin)%IH. exists page, rest. split_and!; [done|done|].
    exists l. set_solver.
Qed.

Lemma fetch_batch_ok batch :
  (∀ r, r ∈ batch → ∃ b, f r = Ok b) →
  ∃ fetched, exec (fetch_batch batch) s = (Ok fetched, s) ∧
    map fst fetched = map ref_digest batch ∧ Forall (λ p, stored s (object_key p.1) p.2) fetched.
Proof.
  induction batch as [|r batch IH]; intros Hf.
  { exists []. split_and!; [done|done|constructor]. }
  destruct (Hf r) as [b Hb]; [set_solver|]. destruct IH as (l & E & Hm & HF); [set_solver|].
  exists ((ref_digest r, b) :: l). cbn [fetch_batch]. rewrite run_prog_bind, run_fetch, Hb.
  rewrite run_prog_bind, E. split_and!; [done|simpl; by rewrite Hm|].
  constructor; [|done]. by apply mem_fetch_stored.
Qed.

Lemma read_ahead_get_ok lists r ready b :
  fetchable lists → ready_ok ready → f r = Ok b →
  ∃ ready', exec (read_ahead_get lists r ready) s = ((Ok b, ready'), s) ∧ ready_ok ready'.
Proof.
  intros Hl Hr Hb. pose proof (mem_fetch_stored _ _ Hb) as Hs. unfold read_ahead_get.
  destruct (ready_find (ref_digest r) ready) as [b'|] eqn:Ef.
  { rewrite (stored_inj _ _ _ (Hr _ _ Ef) Hs). eexists. split; [done|]. by apply ready_ok_drop. }
  destruct (batch_from (ref_digest r) lists) as [batch|] eqn:Eb.
  - apply batch_from_spec in Eb as (page & rest & -> & Hd & l & Hin & Hsub).
    destruct (fetch_batch_ok (page :: rest)) as (fetched & E & Hm & HF).
    { intros x Hx. eapply Hl; [exact Hin|by apply Hsub]. }
    rewrite run_prog_bind, E. destruct fetched as [|[d first] fetched]; [done|].
    injection Hm as Hm1 _. apply Forall_cons in HF as [Hfirst HF]. simpl in *. subst d. rewrite Hd in Hfirst.
    rewrite (stored_inj _ _ _ Hfirst Hs). eexists. split; [done|]. by apply ready_ok_extend.
  - rewrite run_prog_bind, run_fetch, Hb. by exists ready.
Qed.

(** A computation all of whose fetches succeed runs the same with read-ahead. *)
Lemma run_ahead {A} (p : prog fetchE A) lists ready a :
  fetchable lists → ready_ok ready → run_ok f p = Some a →
  ∃ ready', exec (interp_st (read_ahead_handler lists) p ready) s = ((a, ready'), s) ∧ ready_ok ready'.
Proof.
  intros Hl; revert ready; induction p as [x|X e k IH]; intros ready Hr Hp.
  { injection Hp as ->. by exists ready. }
  destruct e as [r]. simpl in Hp. destruct (f r) as [b|] eqn:Eb; [|done].
  cbn [interp_st read_ahead_handler].
  destruct (read_ahead_get_ok lists r ready b Hl Hr Eb) as (ready1 & E & Hr1).
  rewrite run_prog_bind, E. by apply IH.
Qed.

Lemma page_lists_ok readers rss :
  Forall2 (run_rep f) readers rss →
  ∃ lists, exec (page_lists readers) s = (Ok lists, s) ∧ fetchable lists.
Proof.
  induction 1 as [|reader rs readers rss Hr HF (lists & E & Hf)].
  { exists []. split; [done|]. intros l r Hl. by apply elem_of_nil in Hl. }
  destruct (data_pages_rep f reader rs Hr) as (pages & Ep & Hp). cbn [page_lists].
  rewrite run_prog_bind, run_interp_fetch, (run_ok_pure _ _ _ Ep), run_prog_bind, E.
  exists (pages ++ lists). split; [done|]. intros l r [Hl|Hl]%elem_of_app Hr'; eauto.
Qed.

(** ** Choosing the next record *)

Definition head_versions (heads : list (option RunRecord)) (r : RunRecord) : Prop := Some r ∈ heads.

Lemma choose_head_spec index heads chosen :
  (∀ i j r t, (heads !! i = Some (Some r) → heads !! j = Some (Some t) →
     rec_version r = rec_version t → i = j)) →
  (∀ b c r, chosen = Some (b, c) → Some r ∈ heads → rec_version r ≠ rec_version c) →
  ∃ best, choose_head index heads chosen = Ok best ∧
    match best with
    | None => chosen = None ∧ ∀ r, Some r ∈ heads → False
    | Some (i, r) =>
        ((chosen = Some (i, r)) ∨ ∃ k, i = index + k ∧ heads !! k = Some (Some r)) ∧
        (∀ t, Some t ∈ heads → cle (rec_version r) (rec_version t)) ∧
        (∀ b c, chosen = Some (b, c) → cle (rec_version r) (rec_version c))
    end.
Proof.
  revert index chosen; induction heads as [|[x|] heads IH]; intros index chosen Hd Hc; cbn [choose_head].
  - exists chosen. split; [done|]. destruct chosen as [[i r]|].
    + split_and!; [by left|set_solver|]. intros b c [= -> ->]. apply cle_refl.
    + split; [done|]. set_solver.
  - assert (∀ i j r t, (heads !! i = Some (Some r) → heads !! j = Some (Some t) →
      rec_version r = rec_version t → i = j)) as Hd'.
    { intros i j r t Hi Hj E. specialize (Hd (S i) (S j) r t Hi Hj E). lia. }
    assert (∀ r, Some r ∈ heads → rec_version r ≠ rec_version x) as Hx.
    { intros r [j Hj]%list_elem_of_lookup_1 E. specialize (Hd (S j) 0 r x Hj eq_refl E). lia. }
    assert (∀ i r, ((Some (index, x) = Some (i, r)) ∨ ∃ k, i = S index + k ∧ heads !! k = Some (Some r)) →
      ∃ k, i = index + k ∧ (Some x :: heads) !! k = Some (Some r)) as Hpos.
    { intros i r [[= <- <-]|(k & -> & Hk)]; [exists 0; split; [lia|done]|exists (S k); split; [lia|done]]. }
    destruct chosen as [[b c]|].
    + destruct (cmp (rec_version x) (rec_version c)) eqn:E.
      * apply cmp_eq in E. exfalso. by apply (Hc b c x); [|set_solver|].
      * destruct (IH (S index) (Some (index, x)) Hd') as (best & -> & Hb); [by intros b' c' r [= <- <-]; apply Hx|].
        exists best. split; [done|]. destruct best as [[i r]|]; [|by destruct Hb].
        destruct Hb as (B1 & B2 & B3). specialize (B3 _ _ eq_refl). split_and!; [right; by apply Hpos| |].
        -- intros t [[= ->]|Ht]%elem_of_cons; [done|by apply B2].
        -- intros b' c' [= -> ->]. eapply cle_trans; [done|]. apply cle_lt_eq. by left.
      * destruct (IH (S index) (Some (b, c)) Hd') as (best & -> & Hb); [intros; eapply Hc; [done|set_solver]|].
        exists best. split; [done|]. destruct best as [[i r]|]; [|by destruct Hb].
        destruct Hb as (B1 & B2 & B3). specialize (B3 _ _ eq_refl). split_and!.
        -- destruct B1 as [B1|(k & -> & Hk)]; [by left|right]. exists (S k). split; [lia|done].
        -- intros t [[= ->]|Ht]%elem_of_cons; [|by apply B2].
           eapply cle_trans; [done|]. apply cle_lt_eq. left. unfold clt. by rewrite (cmp_opp (rec_version x)), E.
        -- by intros b' c' [= -> ->].
    + destruct (IH (S index) (Some (index, x)) Hd') as (best & -> & Hb); [by intros b' c' r [= <- <-]; apply Hx|].
      exists best. split; [done|]. destruct best as [[i r]|]; [|by destruct Hb].
      destruct Hb as (B1 & B2 & B3). specialize (B3 _ _ eq_refl). split_and!; [right; by apply Hpos| |done].
      intros t [[= ->]|Ht]%elem_of_cons; [done|by apply B2].
  - destruct (IH (S index) chosen) as (best & -> & Hb).
    { intros i j r t Hi Hj E. specialize (Hd (S i) (S j) r t Hi Hj E). lia. }
    { intros b c r E Hr. eapply Hc; [done|set_solver]. }
    exists best. split; [done|]. destruct best as [[i r]|].
    + destruct Hb as (B1 & B2 & B3). split_and!; [|set_solver|done].
      destruct B1 as [B1|(k & -> & Hk)]; [by left|right]. exists (S k). split; [lia|done].
    + destruct Hb as [? Hb]. split; [done|]. set_solver.
Qed.
(** ** The loop *)

Record merge_inv (p : Producer) (rems : list (list RunRecord)) (b0 : SummaryBuilder)
    (all : list RunRecord) : Prop := {
  mi_heads : pr_heads p = map head rems;
  mi_scanners : Forall2 (λ sc rem, scanner_rep f sc (tail rem)) (pr_scanners p) rems;
  mi_ready : ready_ok (pr_ready p);
  mi_sorted : sorted_by rec_version (pr_sent p);
  mi_below x y : x ∈ pr_sent p → y ∈ concat rems → clt (rec_version x) (rec_version y);
  mi_perm : pr_sent p ++ concat rems ≡ₚ all;
  mi_rems : Forall (sorted_by rec_version) rems;
  mi_distinct : NoDup (map rec_version (concat rems));
  mi_summary : ∃ ks, pr_summary p = add_keys b0 ks ∧
    (∀ r, r ∈ pr_sent p → rec_key r ∈ ks) ∧ (∀ k, pr_last_key p = Some k → k ∈ ks)
}.

Lemma concat_take_out {A} (rems : list (list A)) i r rest :
  rems !! i = Some (r :: rest) → concat rems ≡ₚ r :: concat (<[i := rest]> rems).
Proof.
  revert i; induction rems as [|l rems IH]; intros [|i] Hi; simpl in *; [done|done| |].
  - injection Hi as ->. done.
  - rewrite (IH i Hi). apply symmetry, Permutation_middle.
Qed.

Lemma heads_distinct rems i j r t :
  NoDup (map rec_version (concat rems)) →
  head <$> rems !! i = Some (Some r) → head <$> rems !! j = Some (Some t) →
  rec_version r = rec_version t → i = j.
Proof.
  revert i j; induction rems as [|l rems IH]; intros i j Hn Hi Hj E; [done|].
  cbn [concat] in Hn. rewrite map_app in Hn. apply NoDup_app in Hn as (_ & Hd & Hn).
  assert (∀ k x, head <$> rems !! k = Some (Some x) → rec_version x ∈ map rec_version (concat rems)) as Hin.
  { intros k x Hk. apply fmap_Some in Hk as (l' & Hl' & Hx). destruct l' as [|y l']; [done|].
    injection Hx as <-. apply list_elem_of_fmap. exists x. split; [done|]. apply elem_of_concat.
    exists (x :: l'). split; [set_solver|]. by eapply list_elem_of_lookup_2. }
  assert (∀ x, head l = Some x → rec_version x ∈ map rec_version l) as Hl.
  { intros x Hx. destruct l; [done|]. injection Hx as ->. simpl. set_solver. }
  destruct i as [|i], j as [|j]; simpl in Hi, Hj; [done| | |].
  - injection Hi as Hi. exfalso. eapply Hd; [by apply Hl|]. rewrite E. by eapply Hin.
  - injection Hj as Hj. exfalso. eapply Hd; [by apply Hl|]. rewrite <-E. by eapply Hin.
  - f_equal. by apply IH.
Qed.

Lemma chosen_least rems i r y :
  Forall (sorted_by rec_version) rems →
  rems !! i = Some r → (∀ t, Some t ∈ map head rems → ∃ x, head r = Some x ∧ cle (rec_version x) (rec_version t)) →
  y ∈ concat rems → ∃ x, head r = Some x ∧ cle (rec_version x) (rec_version y).
Proof.
  intros Hs Hi Hmin Hy. apply elem_of_concat in Hy as (l & Hyl & Hl).
  destruct l as [|t l]; [set_solver|]. destruct (Hmin t) as (x & Hx & Hxt).
  { apply list_elem_of_fmap. by exists (t :: l). }
  exists x. split; [done|]. apply elem_of_cons in Hyl as [->|Hyl]; [done|].
  rewrite Forall_forall in Hs. specialize (Hs _ Hl). apply sorted_cons in Hs as [_ Hs].
  eapply cle_trans; [done|]. apply cle_lt_eq. left. by apply Hs.
Qed.

(** One turn of the loop. *)
Lemma merge_step p rems b0 all i r rest scanner lists scanner' ready' :
  merge_inv p rems b0 all → rems !! i = Some (r :: rest) → pr_scanners p !! i = Some scanner →
  (∀ t, Some t ∈ map head rems → cle (rec_version r) (rec_version t)) →
  fetchable lists → scanner_rep f scanner' (tail rest) → ready_ok ready' →
  merge_inv
    {| pr_scanners := <[i := scanner']> (pr_scanners p); pr_heads := <[i := head rest]> (pr_heads p);
       pr_ready := ready';
       pr_summary := if negb (bool_decide (pr_last_key p = Some (rec_key r)))
                     then SummaryBuilder_add (pr_summary p) (rec_key r) else pr_summary p;
       pr_last_key := if negb (bool_decide (pr_last_key p = Some (rec_key r)))
                      then Some (rec_key r) else pr_last_key p;
       pr_sent := pr_sent p ++ [r] |}
    (<[i := rest]> rems) b0 all.
Proof.
  intros [Mh Ms Mr Mso Mb Mp Mre Md (ks & Mk1 & Mk2 & Mk3)] Hi Hsc Hmin Hl Hsc' Hr'.
  pose proof (concat_take_out rems i r rest Hi) as Hout.
  assert (r ∈ concat rems) as Hrin by (rewrite Hout; set_solver).
  assert (∀ y, y ∈ concat (<[i := rest]> rems) → y ∈ concat rems) as Hsub by (intros y Hy; rewrite Hout; set_solver).
  assert (NoDup (rec_version r :: map rec_version (concat (<[i := rest]> rems)))) as Hnd.
  { eapply NoDup_Permutation_proper; [|exact Md]. symmetry. by apply (fmap_Permutation rec_version) in Hout. }
  apply NoDup_cons in Hnd as [Hnin Hnd].
  split; simpl.
  - rewrite Mh. by rewrite list_fmap_insert.
  - by apply Forall2_insert.
  - done.
  - apply sorted_snoc; [done|]. intros x Hx. apply Mb; [by apply last_Some_elem_of|done].
  - intros x y [Hx|Hx]%elem_of_app Hy; [apply Mb; auto|]. apply list_elem_of_singleton in Hx as ->.
    destruct (chosen_least rems i (r :: rest) y Mre Hi) as (z & Hz & Hle); [|by apply Hsub|].
    { intros t Ht. exists r. split; [done|by apply Hmin]. }
    injection Hz as <-. apply cle_lt_eq in Hle as [Hlt|E]; [done|].
    exfalso. apply Hnin. rewrite E. apply list_elem_of_fmap. eauto.
  - rewrite <-Mp, Hout, <-app_assoc. done.
  - apply Forall_insert; [done|]. rewrite Forall_forall in Mre.
    specialize (Mre _ (list_elem_of_lookup_2 _ _ _ Hi)). by apply sorted_cons in Mre as [? _].
  - done.
  - case_bool_decide as Ek; simpl.
    + exists ks. split_and!; [done| |done]. intros x [Hx|Hx]%elem_of_app; [by apply Mk2|].
      apply list_elem_of_singleton in Hx as ->. by apply Mk3.
    + exists (ks ++ [rec_key r]). split_and!.
      * rewrite Mk1. unfold add_keys. by rewrite fold_left_app.
      * intros x [Hx|Hx]%elem_of_app; [apply elem_of_app; left; by apply Mk2|].
        apply list_elem_of_singleton in Hx as ->. set_solver.
      * intros k [= <-]. set_solver.
Qed.

Lemma heads_None (rems : list (list RunRecord)) :
  (∀ r, Some r ∈ map head rems → False) → concat rems = [].
Proof.
  induction rems as [|l rems IH]; intros Hn; [done|]. destruct l as [|x l].
  - simpl. apply IH. intros r Hr. apply (Hn r). simpl. set_solver.
  - exfalso. apply (Hn x). simpl. set_solver.
Qed.

(** The loop ends with the sorted list of all records. *)
Lemma merge_loop_enough fuel lists p rems b0 all :
  merge_inv p rems b0 all → fetchable lists → length (concat rems) < fuel →
  ∃ ks out, exec (merge_loop fuel lists p) s = ((Ok (add_keys b0 ks), out), s) ∧
    sorted_by rec_version out ∧ out ≡ₚ all ∧ ∀ r, r ∈ out → rec_key r ∈ ks.
Proof.
  revert p rems; induction fuel as [|fuel IH]; intros p rems Hi Hl Hfuel; [lia|].
  pose proof Hi as [Mh Ms Mr Mso Mb Mp Mre Md (ks & Mk1 & Mk2 & Mk3)]. cbn [merge_loop].
  destruct (choose_head_spec 0 (pr_heads p) None) as (best & Eb & Hb).
  { intros i j r t Hri Htj E. rewrite Mh in Hri, Htj. rewrite !list_lookup_fmap in Hri, Htj.
    by apply (heads_distinct rems i j r t). }
  { done. }
  rewrite Eb. destruct best as [[i r]|].
  - destruct Hb as ([Hb|(k & -> & Hk)] & Hmin & _); [done|]. simpl.
    rewrite Mh, list_lookup_fmap in Hk. apply fmap_Some in Hk as (rem & Hrem & Hhd).
    destruct rem as [|r' rest]; [done|]. injection Hhd as ->.
    destruct (Forall2_lookup_r _ _ _ _ _ Ms Hrem) as (sc & Hsc & Hrep). rewrite Hsc. simpl in Hrep.
    destruct (next_rep f sc rest Hrep) as (sc' & En & Hrep').
    destruct (run_ahead (RunScanner_next sc) lists (pr_ready p) _ Hl Mr En) as (ready' & Er & Hr').
    rewrite run_prog_bind. unfold next_ahead. rewrite Er.
    eapply IH; [|done|].
    + eapply (merge_step p rems b0 all k r' rest sc lists sc' ready'); try done. by rewrite <-Mh.
    + pose proof (concat_take_out rems k r' rest Hrem) as Hout. apply Permutation_length in Hout.
      simpl in Hout. lia.
  - destruct Hb as [_ Hb]. rewrite Mh in Hb. rewrite (heads_None _ Hb) in Mp. rewrite app_nil_r in Mp.
    exists ks, (pr_sent p). rewrite Mk1. split_and!; done.
Qed.

Lemma first_heads_ok lists scanners rss ready :
  fetchable lists → ready_ok ready → Forall2 (scanner_rep f) scanners rss →
  ∃ scanners' ready', exec (first_heads lists scanners ready) s = (Ok (scanners', map head rss, ready'), s) ∧
    Forall2 (λ sc rem, scanner_rep f sc (tail rem)) scanners' rss ∧ ready_ok ready'.
Proof.
  intros Hl Hr HF; revert ready Hr; induction HF as [|sc rs scanners rss Hs HF IH]; intros ready Hr.
  { exists [], ready. split_and!; [done|constructor|done]. }
  destruct (next_rep f sc rs Hs) as (sc' & En & Hrep').
  destruct (run_ahead (RunScanner_next sc) lists ready _ Hl Hr En) as (ready1 & E1 & Hr1).
  destruct (IH ready1 Hr1) as (scs & ready2 & E2 & HF2 & Hr2).
  cbn [first_heads]. rewrite run_prog_bind. unfold next_ahead. rewrite E1.
  rewrite run_prog_bind, E2. exists (sc' :: scs), ready2. split_and!; [done|by constructor|done].
Qed.

(** [producer] on represented runs with distinct versions. *)
Lemma producer_ok fuel lists readers rss expected b0 :
  SummaryBuilder_new expected = Ok b0 → Forall2 (run_rep f) readers rss →
  NoDup (map rec_version (concat rss)) → fetchable lists → length (concat rss) < fuel →
  ∃ ks out, exec (producer fuel lists readers expected) s = ((Ok (add_keys b0 ks), out), s) ∧
    sorted_by rec_version out ∧ out ≡ₚ concat rss ∧ ∀ r, r ∈ out → rec_key r ∈ ks.
Proof.
  intros Hb HF Hn Hl Hfuel. unfold producer. rewrite Hb.
  destruct (first_heads_ok lists (map scanner readers) rss []) as (scs & ready & E & Hs & Hr); [done|done| |].
  { apply Forall2_fmap_l. eapply Forall2_impl; [exact HF|]. intros reader rs. apply scanner_start. }
  rewrite run_prog_bind, E. apply (merge_loop_enough _ _ _ rss); [|done|done].
  split; simpl; try done.
  - constructor.
  - intros x y Hx. by apply elem_of_nil in Hx.
  - clear -HF. induction HF as [|reader rs readers rss Hr HF IH]; constructor; [apply Hr|done].
  - exists []. split_and!; [done| |done]. intros r Hr'. by apply elem_of_nil in Hr'.
Qed.

End merge.

Section merge_runs.
Context `{Sha256, Hex, Zstd, !Sha256Laws, !ZstdLaws}.
Context (now : Z).
Abbreviation exec := (run_prog (mem_handle now)).

Lemma small_last_root objects earlier root :
  objects = earlier ++ [root] → (len (obj_bytes root) < 4096)%N → small_last objects = obj_bytes root.
Proof.
  intros -> Hl. unfold small_last.
  rewrite (filter_snoc_True (λ o, (len (obj_bytes o) <? 4096)%N = true)) by (by apply N.ltb_lt).
  by rewrite last_snoc.
Qed.

(** The runs to merge, as the store holds them. *)
Definition inputs_stored (s : MemoryState) (inputs : list (ObjectRef * bytes)) (rss : list (list RunRecord)) : Prop :=
  Forall2 (λ input rs, ∃ reader, RunReader_decode input.1 input.2 = Ok reader ∧ run_rep (mem_fetch s) reader rs)
    inputs rss.

Lemma inputs_readers s inputs rss :
  inputs_stored s inputs rss →
  ∃ readers, collect (λ p, RunReader_decode p.1 p.2) inputs = Ok readers ∧ Forall2 (run_rep (mem_fetch s)) readers rss.
Proof.
  induction 1 as [|input rs inputs rss (reader & Hd & Hr) HF (readers & E & HFr)]; simpl.
  { exists []. split; [done|constructor]. }
  rewrite Hd, E. exists (reader :: readers). split; [done|by constructor].
Qed.

Lemma merge_runs_extends fuel inputs expected s rss :
  inputs_stored s inputs rss → NoDup (map rec_version (concat rss)) → length (concat rss) < fuel →
  extends s (exec (merge_runs fuel inputs expected) s).2.
Proof.
  intros Hin Hn Hf. destruct (inputs_readers _ _ _ Hin) as (readers & Er & HF).
  unfold merge_runs. rewrite Er. destruct (page_lists_ok now s readers rss HF) as (lists & El & Hl).
  rewrite run_prog_bind, El, run_prog_bind.
  assert (∃ r out, exec (producer fuel lists readers expected) s = ((r, out), s)) as (r & out & ->).
  { destruct (SummaryBuilder_new expected) as [b0|e] eqn:Eb.
    - destruct (producer_ok now s fuel lists readers rss expected b0) as (ks & out & -> & _); [done..|]. eauto.
    - unfold producer. rewrite Eb. simpl. eauto. }
  cbn iota. destruct (build collect_object out []) as [built objects].
  rewrite run_prog_bind. pose proof (put_all_extends now (keyed objects) s) as Hput.
  destruct (exec (put_all (keyed objects)) s) as [u s1]. simpl in Hput.
  destruct r as [b|]; [|done]. destruct built as [root|]; [|done]. destruct u as [[]|]; [|done].
  rewrite run_prog_bind. match goal with |- context [exec (put_all ?l) s1] =>
    pose proof (put_all_extends now l s1) as Hput2; destruct (exec (put_all l) s1) as [[[]|e] s2] end;
  simpl in *; by etrans.
Qed.

(** A successful merge stores a run with exactly the records of its inputs. *)
Lemma merge_runs_ok fuel inputs expected s rss built s' :
  inputs_stored s inputs rss → NoDup (map rec_version (concat rss)) → length (concat rss) < fuel →
  Forall (λ r, (rec_block r <= u64_max)%N) (concat rss) →
  exec (merge_runs fuel inputs expected) s = (Ok built, s') →
  extends s s' ∧ ∃ out, sorted_by rec_version out ∧ out ≡ₚ concat rss ∧ built_stored s' built out.
Proof.
  intros Hin Hn Hf Hu He. split.
  { pose proof (merge_runs_extends fuel inputs expected s rss Hin Hn Hf) as Hx. by rewrite He in Hx. }
  destruct (inputs_readers _ _ _ Hin) as (readers & Er & HF).
  unfold merge_runs in He. rewrite Er in He. destruct (page_lists_ok now s readers rss HF) as (lists & El & Hl).
  rewrite run_prog_bind, El, run_prog_bind in He.
  destruct (SummaryBuilder_new expected) as [b0|e] eqn:Eb.
  2: { assert (exec (producer fuel lists readers expected) s = ((Err e, []), s)) as Ep
         by (unfold producer; rewrite Eb; reflexivity).
       rewrite Ep in He. destruct (build collect_object [] []) as [? objects]. rewrite run_prog_bind in He.
       by destruct (exec (put_all (keyed objects)) s) as [u s1]. }
  destruct (producer_ok now s fuel lists readers rss expected b0) as (ks & out & Ep & Hs & Hp & Hk); [done..|].
  rewrite Ep in He. exists out. split; [done|]. split; [done|].
  destruct (build collect_object out []) as [[root|e] objects] eqn:Ebuild.
  2: { rewrite run_prog_bind in He. by destruct (exec (put_all (keyed objects)) s) as [u s1]. }
  rewrite run_prog_bind in He. destruct (exec (put_all (keyed objects)) s) as [[[]|e] s1] eqn:E1; [|done].
  cbn iota in He. rewrite run_prog_bind in He.
  match type of He with context [exec (put_all ?l) s1] =>
    destruct (exec (put_all l) s1) as [[[]|e] s2] eqn:E2 end; [|done].
  injection He as <- <-.
  assert (extends s1 s2) as Hx.
  { match type of E2 with exec (put_all ?l) s1 = _ => pose proof (put_all_extends now l s1) as Hx end.
    by rewrite E2 in Hx. }
  apply put_all_ok in E1, E2.
  eapply (stored_built s2 out root objects expected b0 ks); try done.
  - by rewrite Hp.
  - eapply Forall_impl; [exact E1|]. intros x Hxs. by eapply stored_mono.
  - intros root' Hr. destruct (keyed_stored s1 out root objects Ebuild E1) as (_ & _ & earlier & root'' & -> & _ & _ & Hlen).
    rewrite last_snoc in Hr. injection Hr as ->. symmetry. eapply small_last_root; [done|].
    rewrite Hlen. vm_compute. done.
  - apply add_keys_count. unfold SummaryBuilder_new in Eb.
    destruct (div_ceil _ (shard_count _)); [|done]. destruct (div_ceil _ 8); [|done].
    destruct (_ <? _)%N; [done|]. by injection Eb as <-.
Qed.

(** More fuel does not change a merge that ended well. *)
Lemma merge_loop_more fuel fuel' lists p b out s s' :
  exec (merge_loop fuel lists p) s = ((Ok b, out), s') → fuel ≤ fuel' →
  exec (merge_loop fuel' lists p) s = ((Ok b, out), s').
Proof.
  revert fuel' p s; induction fuel as [|fuel IH]; intros fuel' p s He Hf; [done|].
  destruct fuel' as [|fuel']; [lia|]. cbn [merge_loop] in *.
  destruct (choose_head _ _ _) as [[[index record]|]|e]; [|done..].
  destruct (pr_scanners p !! index) as [scanner|]; [|done]. rewrite run_prog_bind in *.
  destruct (exec (next_ahead lists scanner (pr_ready p)) s) as [[[sc [h|e]] ready] s1]; [|done].
  apply IH; [done|lia].
Qed.
Lemma producer_more fuel fuel' lists readers expected b out s s' :
  exec (producer fuel lists readers expected) s = ((Ok b, out), s') → fuel ≤ fuel' →
  exec (producer fuel' lists readers expected) s = ((Ok b, out), s').
Proof.
  intros He Hf. unfold producer in *. destruct (SummaryBuilder_new expected); [|done]. rewrite run_prog_bind in *.
  destruct (exec (first_heads _ _ _) s) as [[[[scanners heads] ready]|e] s1]; [|done]. by eapply merge_loop_more.
Qed.
Lemma merge_runs_more fuel fuel' inputs expected built s s' :
  exec (merge_runs fuel inputs expected) s = (Ok built, s') → fuel ≤ fuel' →
  exec (merge_runs fuel' inputs expected) s = (Ok built, s').
Proof.
  intros He Hf. unfold merge_runs in *. destruct (collect _ inputs) as [readers|]; [|done]. rewrite run_prog_bind in *.
  destruct (exec (page_lists readers) s) as [[lists|e] s1]; [|done]. rewrite run_prog_bind in *.
  destruct (exec (producer fuel lists readers expected) s1) as [[[b|e] out] s2] eqn:Ep.
  - by rewrite (producer_more _ _ _ _ _ _ _ _ _ Ep Hf).
  - exfalso. destruct (build collect_object out []) as [r objects]. rewrite run_prog_bind in He.
    by destruct (exec (put_all (keyed objects)) s2).
Qed.

End merge_runs.

(** C32: merging streams the sorted union.  Over stored runs with distinct
    versions, and given one unit of fuel more than there are records, the
    producer of [merge_runs] never fails: it sends the builder exactly the
    records of the inputs, sorted by key and block, its summary has been given
    every key, and it leaves the store alone, with pages read ahead or not. *)
Theorem merge_streams_sorted_union `{Sha256, Hex, Zstd} now s fuel lists readers rss expected b0 :
  SummaryBuilder_new expected = Ok b0 → Forall2 (run_rep (mem_fetch s)) readers rss →
  NoDup (map rec_version (concat rss)) →
  run_prog (mem_handle now) (page_lists readers) s = (Ok lists, s) → length (concat rss) < fuel →
  ∃ keys out, run_prog (mem_handle now) (producer fuel lists readers expected) s = ((Ok (add_keys b0 keys), out), s) ∧
    sorted_by rec_version out ∧ out ≡ₚ concat rss ∧ ∀ r, r ∈ out → rec_key r ∈ keys.
Proof.
  intros Hb HF Hn Hl Hf. destruct (page_lists_ok now s readers rss HF) as (lists' & El & Hfetch).
  assert (lists' = lists) as -> by congruence. by apply producer_ok.
Qed.
