(* ===== verification/Format.v ===== *)
(** * [src/format.rs]: the normalized segment and its textual encodings

    The records of a segment, and the hexadecimal quantities and data of the
    export and of the RPC.  [u64::from_str_radix] accepts a leading plus sign,
    as the standard library documents. *)

From stdpp Require Import pretty.
From Stdlib Require Import Strings.Ascii.
From S2P Require Import Prelude Bytes Externals Hash.
From Stdlib Require Import Lia.

Definition SCHEMA : string := "fossil-export/1".
Definition SEGMENT_SCHEMA : string := "fossil-segment/1".

(** [struct Address(pub [u8; 20])] *)
Definition Address20 : Type := array 20.

Record BlockMeta := {
  bm_number : N;
  bm_hash : Hash32;
  bm_parent_hash : Hash32;
  bm_state_root : Hash32;
  bm_timestamp : N
}.
Record AccountEvent := {
  ae_block : N;
  ae_address : Address20;
  ae_exists : bool;
  ae_incarnation : N;
  ae_nonce : N;
  ae_balance : array 32;
  ae_code_hash : Hash32
}.
Record StorageEvent := {
  se_block : N;
  se_address : Address20;
  se_incarnation : N;
  se_slot : Hash32;
  se_value : array 32
}.
Record CodeBlob := { cb_first_seen_block : N; cb_code_hash : Hash32; cb_bytes : bytes }.
Record Segment := {
  sg_schema : string;
  sg_chain_id : N;
  sg_genesis_hash : Hash32;
  sg_start_block : N;
  sg_end_block : N;
  sg_blocks : list BlockMeta;
  sg_accounts : list AccountEvent;
  sg_storage : list StorageEvent;
  sg_code : list CodeBlob
}.

(** ** Strings *)

Definition has_uppercase (s : string) : bool := existsb is_ascii_uppercase (byte_string s).
Definition starts_with_zero (s : string) : bool :=
  match s with String c _ => bool_decide (c = "0"%char) | EmptyString => false end.
Fixpoint trim_start_zeros (s : string) : string :=
  match s with
  | String c rest => if bool_decide (c = "0"%char) then trim_start_zeros rest else s
  | EmptyString => EmptyString
  end.

(** The value of a digit in base 16. *)
Definition digit_value (c : Ascii.ascii) : option N :=
  let n := Ascii.N_of_ascii c in
  if (48 <=? n)%N && (n <=? 57)%N then Some (n - 48)%N
  else if (97 <=? n)%N && (n <=? 102)%N then Some (n - 87)%N
  else if (65 <=? n)%N && (n <=? 70)%N then Some (n - 55)%N
  else None.

(** [u64::from_str_radix(s, 16)]: an optional plus sign, then digits. *)
Fixpoint radix_digits (acc : N) (s : string) : option N :=
  match s with
  | EmptyString => Some acc
  | String c s =>
      match digit_value c with
      | Some d => let acc := (acc * 16 + d)%N in
                  if (acc <=? u64_max)%N then radix_digits acc s else None
      | None => None
      end
  end.
Definition u64_from_str_radix16 (s : string) : option N :=
  match s with
  | EmptyString => None
  | String "+" EmptyString => None
  | String "+" s => radix_digits 0 s
  | s => radix_digits 0 s
  end.

(** [format!("{value:x}")]: sixteen digits hold a [u64]. *)
Fixpoint hex_digits (fuel : nat) (n : N) (acc : string) : string :=
  match fuel with
  | O => acc
  | S fuel =>
      let acc := String (hex_digit (n mod 16)) acc in
      if (n / 16 =? 0)%N then acc else hex_digits fuel (n / 16) acc
  end.
Definition format_x (n : N) : string := hex_digits 16 n "".

(** [format!("{raw:0>64}")] *)
Fixpoint zeros (n : nat) : string := match n with O => EmptyString | S n => String "0" (zeros n) end.
(** Padding counts characters: bytes that do not continue a UTF-8 sequence. *)
Fixpoint char_count (s : string) : nat :=
  match s with
  | EmptyString => 0
  | String c s =>
      let n := Ascii.N_of_ascii c in
      if (128 <=? n)%N && (n <=? 191)%N then char_count s else S (char_count s)
  end.
Definition pad64 (raw : string) : string := zeros (64 - char_count raw) +:+ raw.

(** ** Encodings *)

(** [parse_quantity] *)
Definition parse_quantity (value : string) : result N :=
  let? raw := ok_or (strip_prefix "0x" value) "quantity must have a 0x prefix" in
  if bool_decide (raw = "")
     || ((1 <? String.length raw)%nat && starts_with_zero raw)
     || has_uppercase raw
  then bail "quantity is not canonical"
  else ok_or (u64_from_str_radix16 raw) "quantity exceeds u64".

(** [quantity] *)
Definition quantity (value : N) : string := "0x" +:+ format_x value.

Section format.
Context `{Hex}.

(** [impl Display for Address] *)
Definition address_to_string (a : Address20) : string := "0x" +:+ hex_encode (arr a).

(** [parse_fixed_raw], [parse_fixed] *)
Definition parse_fixed_raw (n : nat) (raw : string) : result (array n) :=
  if negb (String.length raw =? n * 2)%nat || has_uppercase raw
  then bail ("expected exactly " +:+ pretty n +:+ " lowercase hex bytes")
  else
    let? decoded := with_context "invalid hex" (hex_decode raw) in
    ok_or (to_array n decoded) ("expected exactly " +:+ pretty n +:+ " bytes").
Definition parse_fixed (n : nat) (value : string) : result (array n) :=
  let? raw := ok_or (strip_prefix "0x" value) "fixed hex value must have a 0x prefix" in
  parse_fixed_raw n raw.

(** [impl FromStr for Address] *)
Definition address_from_str (s : string) : result Address20 := parse_fixed 20 s.

(** [parse_data] *)
Definition parse_data (value : string) : result bytes :=
  let? raw := ok_or (strip_prefix "0x" value) "hex data must have a 0x prefix" in
  if negb (String.length raw mod 2 =? 0)%nat || has_uppercase raw
  then bail "hex data must be lowercase and have an even number of digits"
  else with_context "invalid hex data" (hex_decode raw).

(** [parse_u256] *)
Definition parse_u256 (value : string) : result (array 32) :=
  let? raw := ok_or (strip_prefix "0x" value) "quantity must have a 0x prefix" in
  if bool_decide (raw = "") || (64 <? String.length raw)%nat
     || ((1 <? String.length raw)%nat && starts_with_zero raw)
     || has_uppercase raw
  then bail "invalid canonical U256 quantity"
  else parse_fixed_raw 32 (pad64 raw).

(** [value.iter().position(|byte| *byte != 0)] and the rest of the value. *)
Fixpoint from_first_nonzero (b : bytes) : option bytes :=
  match b with
  | [] => None
  | x :: rest => if bool_decide (x = Byte.x00) then from_first_nonzero rest else Some b
  end.

(** [quantity_u256] *)
Definition quantity_u256 (value : array 32) : string :=
  match from_first_nonzero (arr value) with
  | None => "0x0"
  | Some rest => "0x" +:+ trim_start_zeros (hex_encode rest)
  end.

(** [data32] *)
Definition data32 (value : array 32) : string := "0x" +:+ hex_encode (arr value).

End format.
