(* ===== verification/Tiered.v ===== *)
(** * [src/tiered.rs]: publication, compaction, reading and collection

    Every operation is a program over the store's requests, so that it can be
    run against one store or interleaved with others.  A pinned [Reader] keeps a
    per-request budget and a cache of summary shards; the eviction policy of the
    cache belongs to the [moka] crate and is a parameter. *)

From S2P Require Import Prelude Bytes SortedLists Externals Hash RunFormat RunReader Head Summary Store Compact Format.
From Stdlib Require Import Lia ZArith.

(** ** [normalized.rs]: packages *)

Inductive Mode := Anchor | Delta.
Record Package := {
  pk_mode : Mode;
  pk_preceding_number : option N;
  pk_preceding_hash : option Hash32;
  pk_input_sha256 : Hash32;
  pk_segment : Segment
}.

Inductive PublicationGate :=
| Finalized (number : N) (hash : Hash32)
| FixedOffset (observed_number : N) (observed_hash : Hash32) (offset : N).

Definition MAX_STAGED : N := 256 * 1024 * 1024.
Definition MAX_CODE : N := 1024 * 1024.
Definition CAS_ATTEMPTS : nat := 32.
Definition MAX_REQUEST_GETS : N := 192.
Definition MAX_REQUEST_BYTES : N := 128 * 1024 * 1024.

(** The clock's unit is the second here. *)
Definition GC_MIN_AGE : Z := 3 * 3600.
Definition MERGE_DEADLINE : Z := 2 * 3600.

(** [account_value] *)
Definition account_value (event : AccountEvent) : bytes :=
  AccountState_encode
    {| acc_exists := ae_exists event; acc_incarnation := ae_incarnation event;
       acc_nonce := ae_nonce event; acc_balance := ae_balance event;
       acc_code_hash := ae_code_hash event |}.

(** [sort_unstable_by] on [(key, block)] (and stable sorts by other keys):
    insertion after the elements that are not greater. *)
Fixpoint insert_by {A K} `{Cmp K} (key : A → K) (x : A) (l : list A) : list A :=
  match l with
  | [] => [x]
  | y :: l => if ltb (key x) (key y) then x :: y :: l else y :: insert_by key x l
  end.
Definition sort_by {A K} `{Cmp K} (key : A → K) (l : list A) : list A :=
  fold_left (λ acc x, insert_by key x acc) l [].

(** The closure [add] of [package_records]. *)
Definition add_record (first last : N) (key : bytes) (block : N) (value : bytes)
    (acc : list RunRecord * N) : result (list RunRecord * N) :=
  let '(records, input_bytes) := acc in
  if negb ((first <=? block)%N && (block <=? last)%N)
  then bail "event outside package interval"
  else
    let? input_bytes := ok_or (checked_add usize_max input_bytes (len key + len value + 32))
                          "input byte overflow" in
    if (MAX_STAGED <? input_bytes)%N
    then bail "tiered in-memory input exceeds 256 MiB"
    else Ok (records ++ [{| rec_key := key; rec_block := block; rec_value := value |}], input_bytes).

(** [for x in list { add(..)? }] *)
Fixpoint try_fold {A B} (step : A → B → result B) (l : list A) (acc : B) : result B :=
  match l with
  | [] => Ok acc
  | x :: l => let? acc := step x acc in try_fold step l acc
  end.

Section tiered.
Context `{Sha256, Keccak256, Hex, Zstd, HeadJson}.

Definition keccak (b : bytes) : Hash32 := keccak256_digest b.

(** [new_run] *)
Definition new_run (start stop weight : N) (built : BuiltRun) : Run :=
  {| run_start := start; run_end := stop; run_weight := weight; run_keys := built_keys built;
     run_shards := built_shards built; run_root := ref_of_object (built_root built);
     run_root_bytes := hex_encode (built_root_bytes built) |}.

(** [package_records] *)
Definition package_records (package : Package) : result (list RunRecord) :=
  let segment := pk_segment package in
  let? first := ok_or (head (sg_blocks segment)) "empty package" in
  let? last := unwrap (last (sg_blocks segment)) in
  let add := add_record (bm_number first) (bm_number last) in
  let? acc := try_fold (λ event, add (account_key (ae_address event)) (ae_block event) (account_value event))
                (sg_accounts segment) ([], 0%N) in
  let? acc := try_fold (λ event,
                  add (storage_key (se_address event) (se_incarnation event) (se_slot event))
                    (se_block event) (arr (se_value event)))
                (sg_storage segment) acc in
  let? acc := try_fold (λ blob acc,
                  if (MAX_CODE <? len (cb_bytes blob))%N
                     || negb (bool_decide (keccak (cb_bytes blob) = cb_code_hash blob))
                  then bail "invalid or oversized code blob"
                  else add (code_key (cb_code_hash blob)) (cb_first_seen_block blob) (cb_bytes blob) acc)
                (sg_code segment) acc in
  Ok (sort_by rec_version acc.1).

(** [validate_lifecycle]: the newest account record of the address at or
    before the block. *)
Definition account_at (accounts : list AccountEvent) (address : Address20) (block : N) : option AccountEvent :=
  List.find (λ account, (ae_block account <=? block)%N)
    (rev (sort_by ae_block (filter (λ account, ae_address account = address) accounts))).

Definition storage_event_ok (anchor : bool) (accounts : list AccountEvent) (event : StorageEvent) : bool :=
  match account_at accounts (se_address event) (se_block event) with
  | Some account =>
      (ae_exists account && (ae_incarnation account =? se_incarnation event)%N)
      || (negb (ae_exists account) && bool_decide (se_value event = zero_hash))
  | None => negb anchor
  end.

Definition validate_lifecycle (package : Package) : result unit :=
  let segment := pk_segment package in
  let anchor := match pk_mode package with Anchor => true | Delta => false end in
  if negb (forallb (storage_event_ok anchor (sg_accounts segment)) (sg_storage segment))
  then bail "storage record does not match its account incarnation"
  else if anchor && existsb (λ account,
            ae_exists account && negb (bool_decide (ae_code_hash account = keccak []))
            && negb (bool_decide (ae_code_hash account ∈ map cb_code_hash (sg_code segment))))
          (sg_accounts segment)
  then bail "anchor account references code absent from the package"
  else Ok tt.

(** ** The head *)

(** [stage] *)
Definition stage (b : bytes) : prog storeE (result Ref) :=
  let!? length := try_u32 (len b) "out of range integral type conversion attempted" in
  let reference := {| r_digest := digest b; r_length := length |} in
  let! _ := request (SPutImmutable (object_key (r_digest reference)) b) in
  Ret (Ok reference).

(** [read_head] *)
Definition read_head (chain_id : N) : prog storeE (result (option (VersionedBytes * Head))) :=
  let! read := request (SReadMutableBounded (head_key chain_id) MAX_HEAD) in
  match read with
  | None => Ret (Ok None)
  | Some b =>
      let!? head := Head_decode (vb_bytes b) in
      if negb (h_chain_id head =? chain_id)%N
      then Ret (bail "tiered head chain mismatch")
      else Ret (Ok (Some (b, head)))
  end.

(** [next.parent = parent] *)
Definition with_parent (parent : option Ref) (h : Head) : Head :=
  {| h_magic := h_magic h; h_chain_id := h_chain_id h; h_genesis := h_genesis h;
     h_number := h_number h; h_hash := h_hash h; h_state_root := h_state_root h;
     h_input_sha256 := h_input_sha256 h; h_parent := parent; h_l0 := h_l0 h; h_levels := h_levels h |}.

(** [swap] *)
Definition swap (previous : option VersionedBytes) (next : Head) : prog storeE (result unit) :=
  let! parent := match previous with
                 | Some previous => let! r := stage (vb_bytes previous) in Ret (Ok (Some r))
                 | None => Ret (Ok None)
                 end in
  let next := with_parent parent next in
  let!? b := head_to_json next in
  if (MAX_HEAD <? len b)%N
  then Ret (bail "tiered head exceeds its size bound")
  else request (SCompareAndSwap (head_key (h_chain_id next)) previous b).

(** ** [publish] *)

(** [is_published] *)
Definition is_published (h : Head) (package : Package) : bool :=
  let segment := pk_segment package in
  match last (sg_blocks segment) with
  | Some last =>
      (h_chain_id h =? sg_chain_id segment)%N
      && bool_decide (h_genesis h = sg_genesis_hash segment)
      && (h_number h =? bm_number last)%N
      && bool_decide (h_hash h = bm_hash last)
      && bool_decide (h_input_sha256 h = pk_input_sha256 package)
  | None => false
  end.

(** The checks of the package's block interval. *)
Definition interval_invalid (segment : Segment) (first last : BlockMeta) : bool :=
  negb (sg_start_block segment =? bm_number first)%N
  || negb (sg_end_block segment =? bm_number last)%N
  || (1000 <? len (sg_blocks segment))%N
  || windows2_any (λ a b,
       negb (bool_decide (checked_add u64_max (bm_number a) 1 = Some (bm_number b)))
       || negb (bool_decide (bm_hash a = bm_parent_hash b))) (sg_blocks segment).

Definition gate_open (gate : PublicationGate) (last : BlockMeta) : bool :=
  match gate with
  | Finalized number hash => (number =? bm_number last)%N && bool_decide (hash = bm_hash last)
  | FixedOffset number hash offset =>
      (offset =? 0)%N && (number =? bm_number last)%N && bool_decide (hash = bm_hash last)
  end.

(** The chain, genesis and parent checks against the current head. *)
Definition transition_ok (package : Package) (first : BlockMeta) (previous : option Head) : bool :=
  let segment := pk_segment package in
  match pk_mode package, previous with
  | Anchor, None =>
      (bm_number first =? 0)%N && bool_decide (bm_hash first = sg_genesis_hash segment)
      && bool_decide (bm_parent_hash first = zero_hash)
  | Delta, Some h =>
      bool_decide (h_genesis h = sg_genesis_hash segment)
      && bool_decide (checked_add u64_max (h_number h) 1 = Some (bm_number first))
      && bool_decide (pk_preceding_number package = Some (h_number h))
      && bool_decide (pk_preceding_hash package = Some (h_hash h))
      && bool_decide (bm_parent_hash first = h_hash h)
  | _, _ => false
  end.

(** The head that appends [run] to [previous]. *)
Definition next_head (package : Package) (first last : BlockMeta) (run : Run) (previous : option Head) : Head :=
  let segment := pk_segment package in
  match previous with
  | Some h =>
      {| h_magic := h_magic h; h_chain_id := h_chain_id h; h_genesis := h_genesis h;
         h_number := bm_number last; h_hash := bm_hash last; h_state_root := bm_state_root last;
         h_input_sha256 := pk_input_sha256 package; h_parent := h_parent h;
         h_l0 := h_l0 h ++ [run]; h_levels := h_levels h |}
  | None =>
      {| h_magic := "FTVH1"; h_chain_id := sg_chain_id segment; h_genesis := sg_genesis_hash segment;
         h_number := bm_number last; h_hash := bm_hash last; h_state_root := bm_state_root last;
         h_input_sha256 := pk_input_sha256 package; h_parent := None; h_l0 := [run]; h_levels := [] |}
  end.

(** The compare-and-swap loop of [publish]. *)
Fixpoint publish_loop (attempts : nat) (package : Package) (first last : BlockMeta) (run : Run)
    (previous : option (VersionedBytes * Head)) : prog storeE (result unit) :=
  match attempts with
  | O => Ret (bail "tiered publication lost too many CAS races")
  | S attempts =>
      let* swapped := swap (fst <$> previous) (next_head package first last run (snd <$> previous)) in
      match swapped with
      | Ok _ => Ret (Ok tt)
      | Err error =>
          let! current := read_head (sg_chain_id (pk_segment package)) in
          match current, previous with
          | Some (_, now), _ =>
              if is_published now package then Ret (Ok tt)
              else
                match previous with
                | Some (_, before) =>
                    if (h_number now =? h_number before)%N && bool_decide (h_hash now = h_hash before)
                    then publish_loop attempts package first last run current
                    else Ret (Err error)
                | None => Ret (Err error)
                end
          | None, _ => Ret (Err error)
          end
      end
  end.

(** [publish] *)
Definition publish (package : Package) (gate : PublicationGate) : prog storeE (result unit) :=
  let segment := pk_segment package in
  let!? first := ok_or (head (sg_blocks segment)) "empty package" in
  let!? last := unwrap (last (sg_blocks segment)) in
  if interval_invalid segment first last then Ret (bail "invalid package block interval") else
  if negb (gate_open gate last)
  then Ret (bail "tiered publication gate is not canonical at the package end") else
  let! previous := read_head (sg_chain_id segment) in
  if match previous with Some (_, h) => is_published h package | None => false end
  then Ret (Ok tt)
  else if negb (transition_ok package first (snd <$> previous))
  then Ret (bail "tiered chain/genesis/parent transition invalid")
  else if match previous with Some (_, h) => (MAX_L0_BACKLOG <=? len (h_l0 h))%N | None => false end
  then Ret (bail "tiered L0 compaction backlog is full")
  else
    let!? _ := validate_lifecycle package in
    let!? records := package_records package in
    let! built := write_sorted records in
    publish_loop CAS_ATTEMPTS package first last (new_run (bm_number first) (bm_number last) 1 built) previous.

(** ** [compact_once] *)

(** The loop that picks the target level: [levels], [weight], [deeper] and
    [target] as the code threads them.  At most [MAX_LEVELS] turns continue. *)
Fixpoint plan_levels (fuel : nat) (levels : list (option Run)) (weight : N) (deeper : list Run) (target : nat)
    : result (list (option Run) * N * list Run * nat) :=
  match fuel with
  | O => Err (Panic "out of fuel")
  | S fuel =>
      if (MAX_LEVELS <=? N.of_nat target)%N
      then bail "tiered history exceeds the bounded level count"
      else
        let levels := if (length levels =? target)%nat then levels ++ [None] else levels in
        let taken := match levels !! target with Some (Some run) => Some run | _ => None end in
        let levels := <[target := None]> levels in
        let weight := match taken with Some run => wrapping_add64 weight (run_weight run) | None => weight end in
        let deeper := match taken with Some run => deeper ++ [run] | None => deeper end in
        if (weight <? unit_of target * FANOUT)%N then Ok (levels, weight, deeper, target)
        else if negb (weight =? unit_of target * FANOUT)%N
        then bail "tiered level capacity exceeded"
        else plan_levels fuel levels weight deeper (S target)
  end.

(** [while levels.last().is_some_and(Option::is_none) { levels.pop(); }] *)
Fixpoint drop_trailing_none (levels : list (option Run)) : list (option Run) :=
  match levels with
  | [] => []
  | x :: levels =>
      match drop_trailing_none levels, x with
      | [], None => []
      | rest, _ => x :: rest
      end
  end.

Definition noncontiguous (inputs : list Run) : bool :=
  windows2_any (λ a b, negb (bool_decide (checked_add u64_max (run_end a) 1 = Some (run_start b)))) inputs.

(** [current.l0.starts_with(&planned.l0[..L0_TRIGGER])] and the levels test. *)
Definition compatible (planned current : Head) : bool :=
  bool_decide (h_levels current = h_levels planned)
  && starts_with (h_l0 current) (take (N.to_nat L0_TRIGGER) (h_l0 planned)).

Definition compacted_head (levels : list (option Run)) (current : Head) : Head :=
  {| h_magic := h_magic current; h_chain_id := h_chain_id current; h_genesis := h_genesis current;
     h_number := h_number current; h_hash := h_hash current; h_state_root := h_state_root current;
     h_input_sha256 := h_input_sha256 current; h_parent := h_parent current;
     h_l0 := drop (N.to_nat L0_TRIGGER) (h_l0 current); h_levels := levels |}.

(** The compare-and-swap loop of [compact_once]. *)
Fixpoint compact_loop (attempts : nat) (chain_id : N) (planned : Head) (levels : list (option Run))
    : prog storeE (result bool) :=
  match attempts with
  | O => Ret (bail "tiered compaction lost too many CAS races")
  | S attempts =>
      let! read := read_head chain_id in
      let!? (b, current) := ok_or read "tiered head vanished" in
      if negb (compatible planned current)
      then Ret (bail "tiered head changed incompatibly during compaction")
      else
        let* swapped := swap (Some b) (compacted_head levels current) in
        match swapped with
        | Ok _ => Ret (Ok true)
        | Err _ => compact_loop attempts chain_id planned levels
        end
  end.

Definition sum_keys (inputs : list Run) : N := fold_left (λ acc run, wrapping_add64 acc (run_keys run)) inputs 0%N.

(** [compact_once]; [fuel] bounds the merge loop. *)
Definition compact_once (fuel : nat) (chain_id : N) : prog storeE (result bool) :=
  let! read := read_head chain_id in
  match read with
  | None => Ret (Ok false)
  | Some (_, planned) =>
      if (len (h_l0 planned) <? L0_TRIGGER)%N then Ret (Ok false) else
      let!? (levels, weight, deeper, target) :=
        plan_levels (S (N.to_nat MAX_LEVELS)) (h_levels planned) L0_TRIGGER [] 0 in
      let inputs := rev deeper ++ take (N.to_nat L0_TRIGGER) (h_l0 planned) in
      if noncontiguous inputs then Ret (bail "noncontiguous tiered compaction inputs") else
      let!? refs := collect Run_input inputs in
      let* started := request Now in
      let! built := merge_runs fuel refs (sum_keys inputs) in
      let* finished := request Now in
      if (MERGE_DEADLINE <? finished - started)%Z
      then Ret (bail "compaction exceeded its deadline; its output is left for garbage collection")
      else
        let!? first := unwrap (head inputs) in
        let!? last := unwrap (last inputs) in
        let run := new_run (run_start first) (run_end last) weight built in
        let levels := drop_trailing_none (<[target := Some run]> levels) in
        compact_loop CAS_ATTEMPTS chain_id planned levels
  end.

End tiered.
