(* ===== verification/Normalized.v ===== *)
(** * [src/normalized.rs]: the input packages

    [parse_package] reads a package from lines of JSON: a header, the blocks
    with their events, and a trailer.  The deserializer that [serde] derives for
    [Record] is generated code: it is the class [RecordJson]. *)

From S2P Require Import Prelude Bytes Text Externals Hash Json Format Tiered.
From stdpp Require Import pretty.
From Stdlib Require Import Lia.

(** ** [Record] *)

Inductive InputRecord :=
| InHeader (schema chain_id : string) (genesis_hash : Hash32) (mode : string)
    (anchor_number : option string) (anchor_hash : option Hash32)
    (preceding_number : option string) (preceding_hash : option Hash32)
| InBlock (number : string) (hash parent_hash state_root : Hash32) (timestamp : string)
| InAccount (block : string) (address : Address20) (exists_ : bool) (incarnation : string)
    (nonce balance : option string) (code_hash : option Hash32)
| InStorage (block : string) (address : Address20) (incarnation : string) (slot value : Hash32)
| InCode (code_hash : Hash32) (b : string)
| InBlockEnd (number event_count : string)
| InTrailer (end_number : string) (end_hash : Hash32) (block_count : string).

(** [serde_json::from_str::<Record>] *)
Class RecordJson := record_from_str : bytes → result InputRecord.

(** The object a record is written as: its tag and its fields, without the
    options that are absent. *)
Definition opt_field {A} (key : string) (f : A → Value) (o : option A) : list (string * Value) :=
  match o with Some a => [(key, f a)] | None => [] end.
Section record_value.
Context `{Hex}.
Definition VHash (h : Hash32) : Value := VString (hash_to_string h).
Definition VAddress (a : Address20) : Value := VString (address_to_string a).
Definition record_value (r : InputRecord) : Value :=
  json_object
    match r with
    | InHeader schema chain_id genesis_hash mode anchor_number anchor_hash preceding_number preceding_hash =>
        [("type", VString "header"); ("schema", VString schema); ("chain_id", VString chain_id);
         ("genesis_hash", VHash genesis_hash); ("mode", VString mode)]
        ++ opt_field "anchor_number" VString anchor_number ++ opt_field "anchor_hash" VHash anchor_hash
        ++ opt_field "preceding_number" VString preceding_number
        ++ opt_field "preceding_hash" VHash preceding_hash
    | InBlock number hash parent_hash state_root timestamp =>
        [("type", VString "block"); ("number", VString number); ("hash", VHash hash);
         ("parent_hash", VHash parent_hash); ("state_root", VHash state_root); ("timestamp", VString timestamp)]
    | InAccount block address exists_ incarnation nonce balance code_hash =>
        [("type", VString "account"); ("block", VString block); ("address", VAddress address);
         ("exists", VBool exists_); ("incarnation", VString incarnation)]
        ++ opt_field "nonce" VString nonce ++ opt_field "balance" VString balance
        ++ opt_field "code_hash" VHash code_hash
    | InStorage block address incarnation slot value =>
        [("type", VString "storage"); ("block", VString block); ("address", VAddress address);
         ("incarnation", VString incarnation); ("slot", VHash slot); ("value", VHash value)]
    | InCode code_hash b => [("type", VString "code"); ("code_hash", VHash code_hash); ("bytes", VString b)]
    | InBlockEnd number event_count =>
        [("type", VString "block_end"); ("number", VString number); ("event_count", VString event_count)]
    | InTrailer end_number end_hash block_count =>
        [("type", VString "trailer"); ("end_number", VString end_number); ("end_hash", VHash end_hash);
         ("block_count", VString block_count)]
    end.
End record_value.

(** A record that was written as its object is read back. *)
Class RecordJsonLaws `{Hex, SerdeJson, RecordJson} : Prop :=
  record_round r : plain_value (record_value r) → record_from_str (value_to_vec (record_value r)) = Ok r.

(** [zstd::Decoder::new(input)], and the bytes read from it up to a limit. *)
Class ZstdStream := {
  zstd_open : bytes → result unit;
  zstd_read : N → bytes → result bytes
}.

(** ** The parser's state *)

Definition storage_order : Type := (Address20 * N * Hash32)%type.

Record PackageHeader := {
  ph_chain_id : N;
  ph_genesis_hash : Hash32;
  ph_mode : Mode;
  ph_anchor_number : option N;
  ph_anchor_hash : option Hash32;
  ph_preceding_number : option N;
  ph_preceding_hash : option Hash32
}.

Record ParserState := {
  ps_blocks : list BlockMeta;
  ps_accounts : list AccountEvent;
  ps_storage : list StorageEvent;
  ps_code : list CodeBlob;
  ps_current : option BlockMeta;
  ps_event_count : N;
  ps_last_account : option Address20;
  ps_last_storage : option storage_order;
  ps_account_keys : list Address20;
  ps_storage_keys : list storage_order;
  ps_code_hashes : list Hash32;
  ps_trailer : option (N * Hash32 * N)
}.
Definition parser_start : ParserState :=
  {| ps_blocks := []; ps_accounts := []; ps_storage := []; ps_code := []; ps_current := None;
     ps_event_count := 0; ps_last_account := None; ps_last_storage := None;
     ps_account_keys := []; ps_storage_keys := []; ps_code_hashes := []; ps_trailer := None |}.

(** What a record does to the state. *)
Definition open_block (b : BlockMeta) (st : ParserState) : ParserState :=
  {| ps_blocks := ps_blocks st; ps_accounts := ps_accounts st; ps_storage := ps_storage st;
     ps_code := ps_code st; ps_current := Some b; ps_event_count := 0; ps_last_account := None;
     ps_last_storage := None; ps_account_keys := []; ps_storage_keys := []; ps_code_hashes := ps_code_hashes st;
     ps_trailer := ps_trailer st |}.
Definition push_account (e : AccountEvent) (st : ParserState) : ParserState :=
  {| ps_blocks := ps_blocks st; ps_accounts := ps_accounts st ++ [e]; ps_storage := ps_storage st;
     ps_code := ps_code st; ps_current := ps_current st; ps_event_count := wrapping_add64 (ps_event_count st) 1;
     ps_last_account := Some (ae_address e); ps_last_storage := ps_last_storage st;
     ps_account_keys := ae_address e :: ps_account_keys st; ps_storage_keys := ps_storage_keys st;
     ps_code_hashes := ps_code_hashes st; ps_trailer := ps_trailer st |}.
Definition storage_key_of (e : StorageEvent) : storage_order := (se_address e, se_incarnation e, se_slot e).
Definition push_storage (e : StorageEvent) (st : ParserState) : ParserState :=
  {| ps_blocks := ps_blocks st; ps_accounts := ps_accounts st; ps_storage := ps_storage st ++ [e];
     ps_code := ps_code st; ps_current := ps_current st; ps_event_count := wrapping_add64 (ps_event_count st) 1;
     ps_last_account := ps_last_account st; ps_last_storage := Some (storage_key_of e);
     ps_account_keys := ps_account_keys st; ps_storage_keys := storage_key_of e :: ps_storage_keys st;
     ps_code_hashes := ps_code_hashes st; ps_trailer := ps_trailer st |}.
Definition push_code (c : CodeBlob) (st : ParserState) : ParserState :=
  {| ps_blocks := ps_blocks st; ps_accounts := ps_accounts st; ps_storage := ps_storage st;
     ps_code := ps_code st ++ [c]; ps_current := ps_current st;
     ps_event_count := wrapping_add64 (ps_event_count st) 1; ps_last_account := ps_last_account st;
     ps_last_storage := ps_last_storage st; ps_account_keys := ps_account_keys st;
     ps_storage_keys := ps_storage_keys st; ps_code_hashes := cb_code_hash c :: ps_code_hashes st;
     ps_trailer := ps_trailer st |}.
Definition close_block (b : BlockMeta) (st : ParserState) : ParserState :=
  {| ps_blocks := ps_blocks st ++ [b]; ps_accounts := ps_accounts st; ps_storage := ps_storage st;
     ps_code := ps_code st; ps_current := None; ps_event_count := ps_event_count st;
     ps_last_account := ps_last_account st; ps_last_storage := ps_last_storage st;
     ps_account_keys := ps_account_keys st; ps_storage_keys := ps_storage_keys st;
     ps_code_hashes := ps_code_hashes st; ps_trailer := ps_trailer st |}.
Definition set_trailer (t : N * Hash32 * N) (st : ParserState) : ParserState :=
  {| ps_blocks := ps_blocks st; ps_accounts := ps_accounts st; ps_storage := ps_storage st;
     ps_code := ps_code st; ps_current := ps_current st; ps_event_count := ps_event_count st;
     ps_last_account := ps_last_account st; ps_last_storage := ps_last_storage st;
     ps_account_keys := ps_account_keys st; ps_storage_keys := ps_storage_keys st;
     ps_code_hashes := ps_code_hashes st; ps_trailer := Some t |}.

(** [checked_current] *)
Definition checked_current (current : option BlockMeta) (value : string) : result N :=
  let? number := parse_quantity value in
  if negb (bool_decide (bm_number <$> current = Some number))
  then bail ("event block " +:+ pretty number +:+ " does not match current block")
  else Ok number.

(** [option.map(|n| parse_quantity(&n)).transpose()] *)
Definition parse_optional (o : option string) : result (option N) :=
  match o with None => Ok None | Some s => let? n := parse_quantity s in Ok (Some n) end.

Section normalized.
Context `{Sha256, Keccak256, Hex, RecordJson, ZstdStream}.

(** [Record::Header]: the first record. *)
Definition parse_header (record : InputRecord) : result PackageHeader :=
  match record with
  | InHeader schema chain_id genesis_hash mode anchor_number anchor_hash preceding_number preceding_hash =>
      if negb (bool_decide (schema = SCHEMA)) then bail ("unsupported input schema " +:+ schema) else
      let? mode :=
        if bool_decide (mode = "anchor") then Ok Anchor
        else if bool_decide (mode = "delta") then Ok Delta
        else bail "mode must be anchor or delta" in
      let? chain_id := parse_quantity chain_id in
      let? anchor_number := parse_optional anchor_number in
      let? preceding_number := parse_optional preceding_number in
      Ok {| ph_chain_id := chain_id; ph_genesis_hash := genesis_hash; ph_mode := mode;
            ph_anchor_number := anchor_number; ph_anchor_hash := anchor_hash;
            ph_preceding_number := preceding_number; ph_preceding_hash := preceding_hash |}
  | _ => bail "first record must be a header"
  end.

(** The fields a header must have for its mode. *)
Definition header_ok (h : PackageHeader) : result unit :=
  match ph_mode h with
  | Anchor =>
      if bool_decide (ph_anchor_number h = None) || bool_decide (ph_anchor_hash h = None)
      then bail "anchor header requires anchor_number and anchor_hash" else Ok tt
  | Delta =>
      if bool_decide (ph_preceding_number h = None) || bool_decide (ph_preceding_hash h = None)
      then bail "delta header requires preceding_number and preceding_hash" else Ok tt
  end.

(** [Record::Block] *)
Definition parse_block (h : PackageHeader) (number : string) (hash parent_hash state_root : Hash32)
    (timestamp : string) (st : ParserState) : result ParserState :=
  if bool_decide (is_Some (ps_current st)) then bail "block_end is required before the next block" else
  let? number := parse_quantity number in
  let? _ :=
    match last (ps_blocks st) with
    | Some previous =>
        if negb (bool_decide (checked_add u64_max (bm_number previous) 1 = Some number))
        then bail ("noncontiguous block " +:+ pretty number +:+ " after " +:+ pretty (bm_number previous))
        else if negb (bool_decide (parent_hash = bm_hash previous))
        then bail ("parent hash mismatch at block " +:+ pretty number)
        else Ok tt
    | None =>
        if match ph_mode h with Delta => true | Anchor => false end
           && negb (bool_decide (parent_hash = default zero_hash (ph_preceding_hash h)))
        then bail "first delta parent does not match preceding_hash"
        else Ok tt
    end in
  let? timestamp := parse_quantity timestamp in
  Ok (open_block {| bm_number := number; bm_hash := hash; bm_parent_hash := parent_hash;
                    bm_state_root := state_root; bm_timestamp := timestamp |} st).

(** The values of a live account, or of a tombstone. *)
Definition account_fields (exists_ : bool) (nonce balance : option string) (code_hash : option Hash32)
    : result (N * array 32 * Hash32) :=
  if exists_ then
    let? nonce := ok_or nonce "live account missing nonce" in
    let? nonce := parse_quantity nonce in
    let? balance := ok_or balance "live account missing balance" in
    let? balance := parse_u256 balance in
    let? code_hash := ok_or code_hash "live account missing code_hash" in
    Ok (nonce, balance, code_hash)
  else if bool_decide (is_Some nonce) || bool_decide (is_Some balance) || bool_decide (is_Some code_hash)
  then bail "account tombstone must omit nonce, balance, and code_hash"
  else Ok (0%N, zero_hash, zero_hash).

(** [Record::Account] *)
Definition parse_account (block : string) (address : Address20) (exists_ : bool) (incarnation : string)
    (nonce balance : option string) (code_hash : option Hash32) (st : ParserState) : result ParserState :=
  let? block := checked_current (ps_current st) block in
  if match ps_last_account st with Some last => Bytes.leb address last | None => false end
  then bail ("account records are not strictly address-sorted in block " +:+ pretty block) else
  if bool_decide (address ∈ ps_account_keys st)
  then bail ("duplicate account record in block " +:+ pretty block) else
  let? (nonce, balance, code_hash) := account_fields exists_ nonce balance code_hash in
  let? incarnation := parse_quantity incarnation in
  Ok (push_account {| ae_block := block; ae_address := address; ae_exists := exists_; ae_incarnation := incarnation;
                      ae_nonce := nonce; ae_balance := balance; ae_code_hash := code_hash |} st).

(** [Record::Storage] *)
Definition parse_storage (block : string) (address : Address20) (incarnation : string) (slot value : Hash32)
    (st : ParserState) : result ParserState :=
  let? block := checked_current (ps_current st) block in
  let? incarnation := parse_quantity incarnation in
  let key : storage_order := (address, incarnation, slot) in
  if match ps_last_storage st with Some last => Bytes.leb key last | None => false end
  then bail ("storage records are not strictly key-sorted in block " +:+ pretty block) else
  if bool_decide (key ∈ ps_storage_keys st)
  then bail ("duplicate storage record in block " +:+ pretty block) else
  Ok (push_storage {| se_block := block; se_address := address; se_incarnation := incarnation;
                      se_slot := slot; se_value := value |} st).

(** [Record::Code] *)
Definition parse_code (code_hash : Hash32) (b : string) (st : ParserState) : result ParserState :=
  let? block := ok_or (ps_current st) "code record before first block" in
  let? b := parse_data b in
  if negb (bool_decide (keccak b = code_hash))
  then bail ("bytecode does not match code_hash " +:+ hash_to_string code_hash) else
  if bool_decide (code_hash ∈ ps_code_hashes st)
  then bail ("duplicate code blob " +:+ hash_to_string code_hash) else
  Ok (push_code {| cb_first_seen_block := bm_number block; cb_code_hash := code_hash; cb_bytes := b |} st).

(** [Record::BlockEnd] *)
Definition parse_block_end (number expected : string) (st : ParserState) : result ParserState :=
  let? number := checked_current (ps_current st) number in
  let? expected := parse_quantity expected in
  if negb (expected =? ps_event_count st)%N
  then bail ("event_count mismatch at block " +:+ pretty number) else
  let? block := ok_or (ps_current st) "block_end without open block" in
  Ok (close_block block st).

(** [Record::Trailer] *)
Definition parse_trailer (end_number : string) (end_hash : Hash32) (block_count : string) (st : ParserState)
    : result ParserState :=
  if bool_decide (is_Some (ps_current st)) then bail "block_end is required before the trailer" else
  let? end_number := parse_quantity end_number in
  let? block_count := parse_quantity block_count in
  Ok (set_trailer (end_number, end_hash, block_count) st).

(** One turn of the loop over the records. *)
Definition parse_record (h : PackageHeader) (record : InputRecord) (st : ParserState) : result ParserState :=
  if bool_decide (is_Some (ps_trailer st)) then bail "trailer must be the final record" else
  match record with
  | InBlock number hash parent_hash state_root timestamp =>
      parse_block h number hash parent_hash state_root timestamp st
  | InAccount block address exists_ incarnation nonce balance code_hash =>
      parse_account block address exists_ incarnation nonce balance code_hash st
  | InStorage block address incarnation slot value => parse_storage block address incarnation slot value st
  | InCode code_hash b => parse_code code_hash b st
  | InBlockEnd number expected => parse_block_end number expected st
  | InTrailer end_number end_hash block_count => parse_trailer end_number end_hash block_count st
  | InHeader _ _ _ _ _ _ _ _ => bail "header may only appear once"
  end.

(** The checks after the loop, and the package. *)
Definition finish_package (h : PackageHeader) (input_sha256 : Hash32) (st : ParserState) : result Package :=
  let? (trailer_number, trailer_hash, block_count) := ok_or (ps_trailer st) "missing trailer" in
  let? first := ok_or (head (ps_blocks st)) "package has no blocks" in
  let? last := unwrap (last (ps_blocks st)) in
  let anchor := match ph_mode h with Anchor => true | Delta => false end in
  if negb (trailer_number =? bm_number last)%N || negb (bool_decide (trailer_hash = bm_hash last))
     || negb (block_count =? len (ps_blocks st))%N
  then bail "trailer does not match package blocks" else
  if anchor && (negb (bool_decide (ph_anchor_number h = Some (bm_number first)))
                || negb (bool_decide (ph_anchor_hash h = Some (bm_hash first))))
  then bail "anchor header does not match first block" else
  if (bm_number first =? 0)%N && negb (bool_decide (bm_hash first = ph_genesis_hash h))
  then bail "genesis block hash does not match genesis_hash" else
  if negb anchor
     && negb (bool_decide (match ph_preceding_number h with
                           | Some number => checked_add u64_max number 1
                           | None => None end = Some (bm_number first)))
  then bail "delta does not immediately follow preceding_number" else
  Ok {| pk_mode := ph_mode h; pk_preceding_number := ph_preceding_number h;
        pk_preceding_hash := ph_preceding_hash h; pk_input_sha256 := input_sha256;
        pk_segment :=
          {| sg_schema := SEGMENT_SCHEMA; sg_chain_id := ph_chain_id h; sg_genesis_hash := ph_genesis_hash h;
             sg_start_block := bm_number first; sg_end_block := bm_number last;
             sg_blocks := ps_blocks st; sg_accounts := ps_accounts st; sg_storage := ps_storage st;
             sg_code := ps_code st |} |}.

(** The records of a package. *)
Definition parse_records (records : list InputRecord) (input_sha256 : Hash32) : result Package :=
  if (len records <? 3)%N then bail "package requires header, block records, and trailer" else
  match records with
  | [] => Err (Panic "removal index (is 0) should be < len (is 0)")
  | first :: records =>
      let? h := parse_header first in
      let? _ := header_ok h in
      let? st := try_fold (parse_record h) records parser_start in
      finish_package h input_sha256 st
  end.

(** The loop over the lines, numbered from one in errors. *)
Fixpoint parse_lines (index : N) (l : list bytes) : result (list InputRecord) :=
  match l with
  | [] => Ok []
  | line :: l =>
      if is_blank line then parse_lines (index + 1) l
      else
        let? record := with_context ("invalid JSONL record on line " +:+ pretty (index + 1)%N) (record_from_str line) in
        let? records := parse_lines (index + 1) l in
        Ok (record :: records)
  end.

(** [parse_package] *)
Definition parse_package (decoded : bytes) (input_sha256 : Hash32) : result Package :=
  let? text := with_context "input is not UTF-8 JSONL" (from_utf8 decoded) in
  let? records := parse_lines 0 (lines text) in
  parse_records records input_sha256.

(** [read_package] *)
Definition ZSTD_MAGIC : bytes := [Byte.x28; Byte.xb5; Byte.x2f; Byte.xfd].
Definition read_package (b : bytes) : result Package :=
  let? decoded :=
    if starts_with b ZSTD_MAGIC then
      let? _ := with_context "open zstd input" (zstd_open b) in
      with_context "decode zstd input" (zstd_read (2 ^ 30) b)
    else Ok b in
  parse_package decoded (digest b).

End normalized.
