(* ===== verification/Bootstrap.v ===== *)
(** * [src/bootstrap.rs]: the anchor package of a genesis allocation

    [genesis_anchor] reads a genesis file and the header of block zero, writes a
    package with every account, slot and code of the allocation, and reads it
    back before it returns it. *)

From S2P Require Import Prelude Bytes Text Externals Hash Json Format Tiered Normalized.
From Stdlib Require Import Lia.

Section bootstrap.
Context `{Sha256, Keccak256, Hex, SerdeJson, RecordJson, ZstdStream}.

(** [parse_hash] *)
Definition parse_hash (value : Value) : result Hash32 :=
  let? s := ok_or (as_str value) "expected 32-byte hex hash" in hash_from_str s.

(** [append] *)
Definition append_line (out : bytes) (value : Value) : bytes := out ++ value_to_vec value ++ [newline].

(** The accounts, slots and codes gathered from the allocation; the codes are
    a [BTreeMap] from the hash to the text. *)
Record Allocation := {
  al_accounts : list (Address20 * string * string * Hash32);
  al_storage : list (Address20 * Hash32 * Hash32);
  al_codes : list (Hash32 * string)
}.
Definition allocation_start : Allocation := {| al_accounts := []; al_storage := []; al_codes := [] |}.

(** [BTreeMap::insert]: the map, and the value that was there. *)
Fixpoint codes_insert (h : Hash32) (code : string) (l : list (Hash32 * string)) : list (Hash32 * string) * option string :=
  match l with
  | [] => ([(h, code)], None)
  | (k, old) :: l =>
      match cmp h k with
      | Lt => ((h, code) :: (k, old) :: l, None)
      | Eq => ((k, code) :: l, Some old)
      | Gt => let '(l, o) := codes_insert h code l in ((k, old) :: l, o)
      end
  end.

(** [state.get(key).and_then(Value::as_str).unwrap_or(d)] *)
Definition str_field (state : Value) (key d : string) : string :=
  default d (v ← value_get key state; as_str v).

(** The loop over the slots of an account. *)
Definition add_slot (address : Address20) (slot : string * Value) (storage : list (Address20 * Hash32 * Hash32))
    : result (list (Address20 * Hash32 * Hash32)) :=
  let? key := hash_from_str slot.1 in
  let? value := parse_hash slot.2 in
  Ok (if bool_decide (value = zero_hash) then storage else storage ++ [(address, key, value)]).

(** One entry of the allocation. *)
Definition add_account (entry : string * Value) (al : Allocation) : result Allocation :=
  let '(raw_address, state) := entry in
  let? address := address_from_str ("0x" +:+ raw_address) in
  let nonce := str_field state "nonce" "0x0" in
  let balance := str_field state "balance" "0x0" in
  let? nonce := parse_quantity nonce in
  let nonce := quantity nonce in
  let? balance := parse_u256 balance in
  let balance := quantity_u256 balance in
  let code := str_field state "code" "0x" in
  let? code_bytes := parse_data code in
  let? (code_hash, codes) :=
    if bool_decide (code_bytes = []) then Ok (keccak [], al_codes al)
    else
      let '(codes, old) := codes_insert (keccak code_bytes) code (al_codes al) in
      if match old with Some old => negb (bool_decide (old = code)) | None => false end
      then bail "distinct genesis bytecode shares a code hash"
      else Ok (keccak code_bytes, codes) in
  let? storage :=
    match value_get "storage" state with
    | None => Ok (al_storage al)
    | Some slots =>
        let? slots := ok_or (as_object slots) "genesis account storage is not an object" in
        try_fold (add_slot address) slots (al_storage al)
    end in
  Ok {| al_accounts := al_accounts al ++ [(address, nonce, balance, code_hash)];
        al_storage := storage; al_codes := codes |}.

(** The header of block zero, and the allocation. *)
Record Genesis := {
  gn_chain_id : N;
  gn_hash : Hash32;
  gn_parent : Hash32;
  gn_root : Hash32;
  gn_timestamp : N;
  gn_alloc : list (string * Value);
  gn_allocation : Allocation
}.

(** Everything that is read from the two inputs. *)
Definition read_genesis (genesis_bytes block_bytes : bytes) : result Genesis :=
  let? genesis := with_context "parse genesis allocation" (value_from_slice genesis_bytes) in
  let? block_response := with_context "parse block zero" (value_from_slice block_bytes) in
  let block := default block_response (value_get "result" block_response) in
  let? chain_id := ok_or (as_u64 (value_index (value_index genesis "config") "chainId"))
                     "genesis config.chainId is missing" in
  if negb (bool_decide (as_str (value_index block "number") = Some "0x0"))
  then bail "anchor block must be block zero" else
  let? hash := parse_hash (value_index block "hash") in
  let? parent := parse_hash (value_index block "parentHash") in
  if negb (bool_decide (parent = zero_hash)) then bail "genesis block must have a zero parent hash" else
  let? root := parse_hash (value_index block "stateRoot") in
  let? timestamp := ok_or (as_str (value_index block "timestamp")) "genesis block missing timestamp" in
  let? timestamp := parse_quantity timestamp in
  let? alloc := ok_or (as_object (value_index genesis "alloc")) "genesis allocation is missing" in
  if bool_decide (alloc = []) then bail "genesis allocation must not be empty" else
  let? al := try_fold add_account alloc allocation_start in
  Ok {| gn_chain_id := chain_id; gn_hash := hash; gn_parent := parent; gn_root := root;
        gn_timestamp := timestamp; gn_alloc := alloc; gn_allocation := al |}.

(** The lines of the package. *)
Definition genesis_values (g : Genesis) : list Value :=
  let al := gn_allocation g in
  let accounts := sort_by (λ a, a.1.1.1) (al_accounts al) in
  let storage := sort_by (λ s, s.1) (al_storage al) in
  let event_count := (len accounts + len storage + len (al_codes al))%N in
  [json_object [("type", VString "header"); ("schema", VString "fossil-export/1");
                ("chain_id", VString (quantity (gn_chain_id g))); ("genesis_hash", VHash (gn_hash g));
                ("mode", VString "anchor"); ("anchor_number", VString "0x0"); ("anchor_hash", VHash (gn_hash g))];
   json_object [("type", VString "block"); ("number", VString "0x0"); ("hash", VHash (gn_hash g));
                ("parent_hash", VHash (gn_parent g)); ("state_root", VHash (gn_root g));
                ("timestamp", VString (quantity (gn_timestamp g)))]]
  ++ map (λ '(address, nonce, balance, code_hash),
            json_object [("type", VString "account"); ("block", VString "0x0"); ("address", VAddress address);
                         ("exists", VBool true); ("incarnation", VString "0x0"); ("nonce", VString nonce);
                         ("balance", VString balance); ("code_hash", VHash code_hash)]) accounts
  ++ map (λ '(address, slot, value),
            json_object [("type", VString "storage"); ("block", VString "0x0"); ("address", VAddress address);
                         ("incarnation", VString "0x0"); ("slot", VHash slot); ("value", VHash value)]) storage
  ++ map (λ '(code_hash, code),
            json_object [("type", VString "code"); ("code_hash", VHash code_hash); ("bytes", VString code)]) (al_codes al)
  ++ [json_object [("type", VString "block_end"); ("number", VString "0x0");
                   ("event_count", VString (quantity event_count))];
      json_object [("type", VString "trailer"); ("end_number", VString "0x0"); ("end_hash", VHash (gn_hash g));
                   ("block_count", VString "0x1")]].

(** [genesis_anchor] *)
Definition genesis_anchor (genesis_bytes block_bytes : bytes) : result bytes :=
  let? g := read_genesis genesis_bytes block_bytes in
  let output := fold_left append_line (genesis_values g) [] in
  let? parsed := read_package output in
  if negb (match pk_mode parsed with Anchor => true | Delta => false end)
     || negb (len (sg_accounts (pk_segment parsed)) =? len (gn_alloc g))%N
  then bail "generated genesis package did not retain every account"
  else Ok output.

End bootstrap.
