(* ===== verification/TieredReader.v ===== *)
(** * [src/tiered.rs]: the pinned reader and its request budget

    [Reader] is a snapshot of the head: every operation is a program over the
    store that also threads the budget of the request and the reader's cache of
    summary shards.  The cache is [moka::sync::Cache], which is not part of the
    sources: [ShardCache] is its interface, and [ShardCacheLaws] says that a hit
    returns what was last inserted at the key. *)

From S2P Require Import Prelude Bytes SortedLists Externals Hash RunFormat RunReader Head Summary Store Compact Format Tiered.
From Stdlib Require Import Lia ZArith.

Definition SHARD_CACHE_BYTES : N := 256 * 1024 * 1024.

(** ** The cache *)

Class ShardCache := {
  SC : Type;
  (** [Cache::builder().weigher(w).max_capacity(c).build()] *)
  sc_new : (string → Shard → N) → N → SC;
  (** the value [get] returns, and the recency it records *)
  sc_get : SC → string → option Shard;
  sc_touch : SC → string → SC;
  sc_insert : SC → string → Shard → SC
}.
Class ShardCacheLaws `{ShardCache} : Prop := {
  sc_get_new w c k : sc_get (sc_new w c) k = None;
  sc_get_touch c k k' v : sc_get (sc_touch c k) k' = Some v → sc_get c k' = Some v;
  sc_get_insert c k v k' v' :
    sc_get (sc_insert c k v) k' = Some v' → (k' = k ∧ v' = v) ∨ (k' ≠ k ∧ sc_get c k' = Some v')
}.

(** ** [Budget] *)

Record Budget := { b_gets : N; b_bytes : N }.
Definition budget_default : Budget := {| b_gets := 0; b_bytes := 0 |}.

(** [AtomicU32::fetch_add(1) + 1] *)
Definition wrapping_add32 (a b : N) : N := ((a + b) mod (u32_max + 1))%N.

(** [Budget::charge] *)
Definition charge (maximum : N) (b : Budget) : result unit * Budget :=
  let gets := wrapping_add32 (b_gets b) 1 in
  let total := wrapping_add64 (b_bytes b) maximum in
  (if (MAX_REQUEST_GETS <? gets)%N || (MAX_REQUEST_BYTES <? total)%N
   then bail "tiered read exceeds its per-request GET or byte budget"
   else Ok tt,
   {| b_gets := gets; b_bytes := total |}).

(** ** Reads

    A read threads the budget and the cache through its requests. *)

Section reads.
Context `{ShardCache}.

Definition RState : Type := Budget * SC.
Definition reading (A : Type) : Type := RState → prog storeE (result A * RState).

Definition reading_ret {A} (r : result A) : reading A := λ st, Ret (r, st).
Definition reading_bind {A B} (p : reading A) (k : A → reading B) : reading B :=
  λ st, bind (p st) (λ '(r, st), match r with Ok a => k a st | Err e => Ret (Err e, st) end).
(** A request to the store. *)
Definition reading_store {A} (p : prog storeE (result A)) : reading A :=
  λ st, bind p (λ r, Ret (r, st)).
(** [budget.charge(maximum)?] *)
Definition reading_charge (maximum : N) : reading unit :=
  λ '(b, c), let '(r, b) := charge maximum b in Ret (r, (b, c)).

End reads.

Notation "'let^' x := c 'in' k" :=
  (reading_bind c (λ x, k)) (at level 10, x pattern, c at level 100, k at level 200) : fossil_scope.
(** [?] on a pure result inside a read. *)
Notation "'let^?' x := c 'in' k" :=
  (match c with Ok x => k | Err e => reading_ret (Err e) end)
  (at level 10, x pattern, c at level 100, k at level 200) : fossil_scope.

(** [shard.len() as u32] *)
Definition shard_weight (_ : string) (shard : Shard) : N := as_u32 (len (shard_bits shard)).

(** The [Reader]: the store and the cache are threaded. *)
Record Reader := {
  rd_head : Head;
  rd_head_digest : Hash32;
  rd_runs : list (Run * RunReader)
}.

Section reader.
Context `{Sha256, Keccak256, Hex, Zstd, HeadJson, ShardCache}.

(** [Reader::open]: the loop over the runs. *)
Fixpoint open_runs (l : list Run) : result (list (Run * RunReader)) :=
  match l with
  | [] => Ok []
  | run :: l =>
      let? (reference, b) := Run_input run in
      let? reader := RunReader_decode reference b in
      let? rest := open_runs l in
      Ok ((run, reader) :: rest)
  end.

Definition Reader_open (chain_id : N) : prog storeE (result (Reader * SC)) :=
  let! read := read_head chain_id in
  let!? (b, head) := ok_or read "missing tiered head" in
  let!? rs := open_runs (runs head) in
  Ret (Ok ({| rd_head := head; rd_head_digest := digest (vb_bytes b); rd_runs := rs |},
           sc_new shard_weight SHARD_CACHE_BYTES)).

(** [latest_block], [run_count], [l0_count], [chain_id], [head_digest] *)
Definition Reader_latest_block (r : Reader) : N := h_number (rd_head r).
Definition Reader_run_count (r : Reader) : N := len (rd_runs r).
Definition Reader_l0_count (r : Reader) : N := len (h_l0 (rd_head r)).
Definition Reader_chain_id (r : Reader) : N := h_chain_id (rd_head r).
Definition Reader_head_digest (r : Reader) : Hash32 := rd_head_digest r.

(** [Reader::shard] *)
Definition Reader_shard (run : Run) (kind : ShardKind) (index : N) : reading Shard :=
  λ '(b, c),
    let path := shard_path (r_digest (run_root run)) (run_shards run) kind index in
    match sc_get c path with
    | Some shard => Ret (Ok shard, (b, sc_touch c path))
    | None =>
        (let^ _ := reading_charge MAX_SHARD_BYTES in
         let^ b := reading_store (request (SGetBounded path MAX_SHARD_BYTES)) in
         let^? shard := Shard_decode (r_digest (run_root run)) kind index (run_shards run) b in
         λ '(b, c), Ret (Ok shard, (b, sc_insert c path shard))) (b, sc_touch c path)
    end.

(** [Reader::may_contain] *)
Definition Reader_may_contain (run : Run) (key : bytes) : reading bool :=
  let probe := Probe_new key (run_shards run) in
  let^ address := Reader_shard run Address (p_address_index probe) in
  if Shard_contains address key then reading_ret (Ok true)
  else if negb (Shard_contains address (p_marker probe)) then reading_ret (Ok false)
  else
    let^ spill := Reader_shard run Spill (p_spill_index probe) in
    reading_ret (Ok (Shard_contains spill key)).

(** The closure that charges a fetch before it is issued. *)
Definition charged_fetch : ∀ X, fetchE X → RState → prog storeE (X * RState) :=
  λ X e, match e in fetchE X return RState → prog storeE (X * RState) with
         | Fetch reference =>
             let^ _ := reading_charge (ref_length reference) in
             reading_store (fetch reference)
         end.

(** [Reader::lookup]: the loop over the runs, newest first. *)
Fixpoint lookup_runs (l : list (Run * RunReader)) (key : bytes) (block : N) : reading (option bytes) :=
  match l with
  | [] => reading_ret (Ok None)
  | (run, reader) :: l =>
      if (block <? run_start run)%N then lookup_runs l key block
      else
        let^ may := Reader_may_contain run key in
        if negb may then lookup_runs l key block
        else
          let^ value := interp_st charged_fetch (RunReader_lookup reader key (N.min block (run_end run))) in
          match value with
          | Some _ => reading_ret (Ok value)
          | None => lookup_runs l key block
          end
  end.

Definition Reader_lookup (r : Reader) (key : bytes) (block : N) : reading (option bytes) :=
  if (h_number (rd_head r) <? block)%N
  then reading_ret (bail "block outside pinned tiered history")
  else lookup_runs (rev (rd_runs r)) key block.

(** [Reader::account_in] *)
Definition Reader_account_in (r : Reader) (address : Address20) (block : N) : reading (option AccountEvent) :=
  let^ value := Reader_lookup r (account_key address) block in
  match value with
  | None => reading_ret (Ok None)
  | Some value =>
      let^? state := AccountState_decode value in
      reading_ret (Ok (Some
        {| ae_block := block; ae_address := address; ae_exists := acc_exists state;
           ae_incarnation := acc_incarnation state; ae_nonce := acc_nonce state;
           ae_balance := acc_balance state; ae_code_hash := acc_code_hash state |}))
  end.

(** [Reader::account], [storage] and [code] each start a new budget. *)
Definition Reader_account (r : Reader) (address : Address20) (block : N) (c : SC)
    : prog storeE (result (option AccountEvent) * RState) :=
  Reader_account_in r address block (budget_default, c).

Definition Reader_storage (r : Reader) (address : Address20) (slot : Hash32) (block : N) (c : SC)
    : prog storeE (result (array 32) * RState) :=
  (let^ account := Reader_account_in r address block in
   match account with
   | None => reading_ret (Ok zero_hash)
   | Some account =>
       if negb (ae_exists account) then reading_ret (Ok zero_hash)
       else
         let^ value := Reader_lookup r (storage_key address (ae_incarnation account) slot) block in
         match value with
         | Some value => reading_ret (ok_or (to_array 32 value) "invalid full-key storage poststate")
         | None => reading_ret (Ok zero_hash)
         end
   end) (budget_default, c).

Definition Reader_code (r : Reader) (address : Address20) (block : N) (c : SC)
    : prog storeE (result bytes * RState) :=
  (let^ account := Reader_account_in r address block in
   match account with
   | None => reading_ret (Ok [])
   | Some account =>
       if negb (ae_exists account) then reading_ret (Ok [])
       else if bool_decide (ae_code_hash account = keccak []) then reading_ret (Ok [])
       else
         let^ value := Reader_lookup r (code_key (ae_code_hash account)) block in
         let^? b := ok_or value "missing account code blob" in
         if (MAX_CODE <? len b)%N || negb (bool_decide (keccak b = ae_code_hash account))
         then reading_ret (bail "invalid code poststate")
         else reading_ret (Ok b)
   end) (budget_default, c).

End reader.
