(* ===== verification/ReaderFacts.v ===== *)
(** * The pinned reader refines the state of a history

    [run_stored] says that a store holds a run and its summary; the reads of a
    pinned reader over stored runs return the state of the concatenated records,
    unless the request budget runs out, which it cannot for few enough runs. *)

From S2P Require Import Prelude Bytes SortedLists Externals Hash RunFormat RunReader RunRep Head HeadFacts Summary SummaryFacts Store Compact CompactFacts Format Tiered TieredReader.
From Stdlib Require Import Lia.

(** ** [state_at] over several runs *)

Lemma state_at_app l k key block :
  state_at (l ++ k) key block =
  match state_at k key block with Some v => Some v | None => state_at l key block end.
Proof.
  unfold state_at. rewrite filter_app, last_app. by destruct (last (filter _ k)).
Qed.

Lemma state_at_none l key block :
  (∀ r, r ∈ l → rec_key r = key → (block < rec_block r)%N) → state_at l key block = None.
Proof.
  intros Hl. unfold state_at. rewrite filter_none; [done|].
  intros r Hr [Hk Hb]. specialize (Hl r Hr Hk). lia.
Qed.

Lemma state_at_min l key block stop :
  Forall (λ r, (rec_block r <= stop)%N) l → state_at l key (N.min block stop) = state_at l key block.
Proof.
  intros HF. unfold state_at. do 2 f_equal. induction HF as [|r l Hr HF IH]; [done|].
  rewrite !filter_cons, IH. destruct (decide _) as [Hd|Hd], (decide _) as [Hd'|Hd']; try done.
  - destruct Hd'. split; [apply Hd|lia].
  - destruct Hd. split; [apply Hd'|lia].
Qed.

(** ** Stored runs *)

Section stored.
Context `{Sha256, Hex, Zstd}.

Record run_stored (s : MemoryState) (r : Run) (rs : list RunRecord) : Prop := {
  st_reader : ∃ root reader, hex_decode (run_root_bytes r) = Ok root ∧
    RunReader_decode (object_of_ref (run_root r)) root = Ok reader ∧ run_rep (mem_fetch s) reader rs ∧
    stored s (object_key (r_digest (run_root r))) root;
  st_summary : summary_stored s (r_digest (run_root r)) (run_shards r) (map rec_key rs);
  st_blocks : Forall (λ x, (run_start r <= rec_block x <= run_end r)%N) rs
}.

Lemma run_stored_mono s s' r rs : keeps s s' → run_stored s r rs → run_stored s' r rs.
Proof.
  intros Hs [(root & reader & Hh & Hd & Hr & Hst) Hsum Hb]. split; [|by eapply summary_stored_mono|done].
  exists root, reader. split_and!; [done|done| |by apply Hs]. eapply run_rep_mono; [|exact Hr].
  intros x b. by apply mem_fetch_mono.
Qed.

(** A run opened by the reader. *)
Record run_open (s : MemoryState) (p : Run * RunReader) (rs : list RunRecord) : Prop := {
  op_rep : run_rep (mem_fetch s) p.2 rs;
  op_summary : summary_stored s (r_digest (run_root p.1)) (run_shards p.1) (map rec_key rs);
  op_blocks : Forall (λ x, (run_start p.1 <= rec_block x <= run_end p.1)%N) rs
}.

Lemma open_runs_ok s l rss :
  Forall2 (run_stored s) l rss →
  ∃ ps, open_runs l = Ok ps ∧ Forall2 (run_open s) ps rss ∧ length ps = length l.
Proof.
  induction 1 as [|r rs l rss [(root & reader & Hh & Hd & Hr & _) Hsum Hb] HF (ps & E & HFp & Hl)]; simpl.
  { exists []. split_and!; [done|constructor|done]. }
  unfold Run_input. rewrite Hh, Hd, E. exists ((r, reader) :: ps).
  split_and!; [done|by constructor|by rewrite <-Hl].
Qed.

End stored.

(** ** What a read does *)

Definition budget_message : string := "tiered read exceeds its per-request GET or byte budget".

(** The innermost cause of an error. *)
Fixpoint root_cause (e : error) : error :=
  match e with Ctx _ e => root_cause e | e => e end.
Definition over_budget {A} (r : result A) : Prop :=
  ∃ e, r = Err e ∧ root_cause e = Msg budget_message.

Definition in_budget (b : Budget) : Prop :=
  (b_gets b <= MAX_REQUEST_GETS)%N ∧ (b_bytes b <= MAX_REQUEST_BYTES)%N.
(** [gets] more requests of [total] more bytes fit. *)
Definition affords (b : Budget) (gets total : N) : Prop :=
  (b_gets b + gets <= MAX_REQUEST_GETS)%N ∧ (b_bytes b + total <= MAX_REQUEST_BYTES)%N.
Definition spent (b : Budget) (gets total : N) (b' : Budget) : Prop :=
  (b_gets b' <= b_gets b + gets)%N ∧ (b_bytes b' <= b_bytes b + total)%N.

Section reads_facts.
Context `{Sha256, Hex, ShardCache, !HexLaws, !ShardCacheLaws}.
Context (now : Z) (s : MemoryState).
Abbreviation exec := (run_prog (mem_handle now)).

(** Every cached shard is the one the store holds at its path. *)
Definition cache_ok (c : SC) : Prop :=
  ∀ run shards kind index shard,
    (shards <= u32_max)%N → (index <= u32_max)%N →
    sc_get c (shard_path run shards kind index) = Some shard → shard_in s run shards kind index shard.

(** [p] leaves the store alone, costs at most [gets] and [total], and returns
    [r] or runs out of budget. *)
Definition reads {A} (gets total : N) (p : reading A) (r : result A) : Prop :=
  ∀ b c, in_budget b → cache_ok c →
  ∃ r' b' c', exec (p (b, c)) s = ((r', (b', c')), s) ∧ cache_ok c' ∧
    ((r' = r ∧ in_budget b' ∧ spent b gets total b') ∨ (over_budget r' ∧ ¬ affords b gets total)).

Lemma reads_ret {A} gets total (r : result A) : reads gets total (reading_ret r) r.
Proof.
  intros b c Hb Hc. exists r, b, c. split_and!; [done|done|]. left. split_and!; [done|apply Hb..|]. split; lia.
Qed.

Lemma reads_weaken {A} g m g' m' (p : reading A) r :
  reads g m p r → (g <= g')%N → (m <= m')%N → reads g' m' p r.
Proof.
  intros Hp Hg Hm b c Hb Hc. destruct (Hp b c Hb Hc) as (r' & b' & c' & E & Hc' & Hr).
  exists r', b', c'. split_and!; [done|done|]. unfold spent, affords in *.
  destruct Hr as [(-> & ? & ? & ?)|[? Hn]]; [left|right].
  - split_and!; [done|done|lia|lia].
  - split; [done|]. intros [??]. apply Hn. lia.
Qed.

Lemma reads_bind {A B} g m g' m' (p : reading A) (k : A → reading B) a r :
  reads g m p (Ok a) → reads g' m' (k a) r → reads (g + g') (m + m') (reading_bind p k) r.
Proof.
  intros Hp Hk b c Hb Hc. destruct (Hp b c Hb Hc) as (r1 & b1 & c1 & E1 & Hc1 & Hr1).
  unfold reading_bind. rewrite run_prog_bind, E1. unfold spent, affords in *.
  destruct Hr1 as [(-> & Hb1 & Hg1 & Hm1)|[(e & -> & He) Hn]].
  - destruct (Hk b1 c1 Hb1 Hc1) as (r2 & b2 & c2 & E2 & Hc2 & Hr2). exists r2, b2, c2. rewrite E2.
    split_and!; [done|done|]. unfold spent, affords in *.
    destruct Hr2 as [(-> & Hb2 & Hg2 & Hm2)|[Ho Hn]]; [left|right].
    + split_and!; [done|done|lia|lia].
    + split; [done|]. intros [??]. apply Hn. lia.
  - exists (Err e), b1, c1. split_and!; [done|done|]. right. split; [by exists e|].
    intros [??]. apply Hn. lia.
Qed.

Lemma reads_bind_err {A B} g m (p : reading A) (k : A → reading B) e :
  reads g m p (Err e) → reads g m (reading_bind p k) (Err e).
Proof.
  intros Hp b c Hb Hc. destruct (Hp b c Hb Hc) as (r1 & b1 & c1 & E1 & Hc1 & Hr1).
  unfold reading_bind. rewrite run_prog_bind, E1.
  destruct Hr1 as [(-> & Hb1 & Hs1)|[(e' & -> & He) Hn]].
  - exists (Err e), b1, c1. split_and!; [done|done|]. by left.
  - exists (Err e'), b1, c1. split_and!; [done|done|]. right. split; [by exists e'|done].
Qed.

Lemma wrap32 n : (n <= u32_max)%N → (n mod (u32_max + 1) = n)%N.
Proof. intros Hn. apply N.mod_small. lia. Qed.
Lemma wrap64 n : (n <= u64_max)%N → (n mod (u64_max + 1) = n)%N.
Proof. intros Hn. apply N.mod_small. lia. Qed.

Lemma reads_charge m : (m <= u32_max)%N → reads 1 m (reading_charge m) (Ok tt).
Proof.
  intros Hm b c [Hg Hb] Hc. unfold reading_charge, charge.
  unfold wrapping_add32, wrapping_add64. unfold MAX_REQUEST_GETS, MAX_REQUEST_BYTES in *.
  rewrite wrap32, wrap64 by (unfold u32_max, u64_max in *; lia).
  unfold in_budget, spent, affords, MAX_REQUEST_GETS, MAX_REQUEST_BYTES.
  destruct (_ || _) eqn:E; eexists _, _, _; (split_and!; [reflexivity|done|]); simpl.
  - right. split; [eexists; by split|]. apply orb_true_iff in E as [E%N.ltb_lt|E%N.ltb_lt]; lia.
  - left. bool_prop. split_and!; [done|lia..].
Qed.

Lemma reads_store {A} (p : prog storeE (result A)) r :
  exec p s = (r, s) → reads 0 0 (reading_store p) r.
Proof.
  intros Hp b c Hb Hc. unfold reading_store. rewrite run_prog_bind, Hp. exists r, b, c.
  split_and!; [done|done|]. left. split_and!; [done|apply Hb..|]. split; lia.
Qed.

(** ** Charged fetches *)

Inductive cost {A} : N → N → prog fetchE (result A) → Prop :=
| cost_ret g m r : cost g m (Ret r)
| cost_fetch g m l reference k :
    (ref_length reference <= l)%N → (l <= u32_max)%N →
    (∀ b, cost g m (k (Ok b))) →
    (∀ e, ∃ message, k (Err e) = Ret (Err (Ctx message e))) →
    cost (1 + g) (l + m) (Vis (Fetch reference) k).

Lemma charged_cost {A} g m (p : prog fetchE (result A)) :
  cost g m p →
  reads g m (interp_st charged_fetch p) (run_pure (fetch_from (mem_fetch s)) p).
Proof.
  induction 1 as [g m r|g m l reference k Hl Hu Hk IH He]; [apply reads_ret|].
  intros b c Hb Hc. cbn [interp_st charged_fetch run_pure fetch_from].
  destruct (reads_charge (ref_length reference)) with (b := b) (c := c) as (r1 & b1 & c1 & E1 & Hc1 & Hr1);
    [lia|done|done|].
  unfold reading_bind at 1. rewrite !run_prog_bind, E1. unfold spent, affords in *.
  destruct Hr1 as [(-> & Hb1 & Hg1 & Hm1)|[(e & -> & Hee) Hn]].
  - unfold reading_store. rewrite run_prog_bind, run_fetch.
    destruct (mem_fetch s reference) as [bs|e] eqn:Ef; cbn [run_prog].
    + destruct (IH bs b1 c1 Hb1 Hc1) as (r2 & b2 & c2 & E2 & Hc2 & Hr2). exists r2, b2, c2. rewrite E2.
      split_and!; [done|done|]. unfold spent, affords in *.
      destruct Hr2 as [(-> & Hb2 & Hg2 & Hm2)|[Ho Hn]]; [left|right].
      * split_and!; [done|done|lia|lia].
      * split; [done|]. intros [??]. apply Hn. lia.
    + destruct (He e) as [message ->]. cbn [interp_st run_prog run_pure]. exists (Err (Ctx message e)), b1, c1.
      split_and!; [done|done|]. left. unfold spent. split_and!; [done|done|lia|lia].
  - cbn [run_prog]. destruct (He e) as [message Hm]. rewrite Hm. cbn [interp_st run_prog].
    exists (Err (Ctx message e)), b1, c1. split_and!; [done|done|]. right. split; [by eexists|].
    intros [??]. apply Hn. lia.
Qed.

Lemma cost_weaken {A} g m g' m' (p : prog fetchE (result A)) :
  cost g m p → (g <= g')%N → (m <= m')%N → cost g' m' p.
Proof.
  intros Hp; revert g' m'; induction Hp as [g m r|g m l reference k Hl Hu Hk IH He]; intros g' m' Hg Hm;
    [constructor|].
  replace g' with (1 + (g' - 1))%N by lia. replace m' with (l + (m' - l))%N by lia.
  constructor; [done|done| |done]. intros b. apply IH; lia.
Qed.

Lemma cost_fetch_object {A} g m l message reference (k : bytes → prog fetchE (result A)) :
  (ref_length reference <= l)%N → (l <= u32_max)%N → (∀ b, cost g m (k b)) →
  cost (1 + g) (l + m) (let! b := fetch_object message reference in k b).
Proof.
  intros Hl Hu Hk. unfold fetch_object. simpl. constructor; [done|done|exact Hk|].
  intros e. by exists message.
Qed.

End reads_facts.

Ltac cost_step :=
  match goal with
  | |- cost _ _ (Ret _) => constructor
  | |- cost _ _ (if ?c then _ else _) => destruct c eqn:?
  | |- cost _ _ (match ?c with _ => _ end) => destruct c eqn:?
  end.

Definition MiB : N := 1024 * 1024.

Section lookup_facts.
Context `{Sha256, Keccak256, Hex, Zstd, ShardCache, !HexLaws, !ShardCacheLaws}.
Context (now : Z) (s : MemoryState).
Abbreviation exec := (run_prog (mem_handle now)).

Lemma validated_length r u : validate_index_ref r = Ok u → (ref_length r <= 512 * 1024)%N.
Proof. unfold validate_index_ref. destruct (_ || _) eqn:E; [done|]. bool_prop. done. Qed.
Lemma page_length r : page_ref_invalid r = false → (ref_length r <= MiB)%N.
Proof. unfold page_ref_invalid. intros E. bool_prop. done. Qed.

Lemma lookup_leaf_cost key block shard reference b start :
  cost 1 MiB (lookup_leaf key block shard reference b start).
Proof.
  unfold lookup_leaf. repeat cost_step.
  apply (cost_fetch_object 0 0 MiB); [by apply page_length|done|].
  intros b'. repeat cost_step.
Qed.

(** A lookup costs three fetches: two fences of 512 KiB and a page of 1 MiB. *)
Lemma lookup_cost reader key block : cost 3 (2 * MiB) (RunReader_lookup reader key block).
Proof.
  unfold RunReader_lookup. repeat cost_step.
  apply (cost_fetch_object 2 (512 * 1024 + MiB) (512 * 1024)); [by eapply validated_length|done|].
  intros b'. repeat cost_step.
  - apply (cost_fetch_object 1 MiB (512 * 1024)); [by eapply validated_length|done|].
    intros b''. apply lookup_leaf_cost.
  - eapply cost_weaken; [apply lookup_leaf_cost|vm_compute; discriminate..].
Qed.

(** ** Summaries *)

Lemma shard_in_inj run shards kind index shard shard' :
  shard_in s run shards kind index shard → shard_in s run shards kind index shard' → shard = shard'.
Proof. intros (b & Hb & Hd) (b' & Hb' & Hd'). congruence. Qed.

Lemma reads_shard run kind index shard :
  (run_shards run <= u32_max)%N → (index <= u32_max)%N →
  shard_in s (r_digest (run_root run)) (run_shards run) kind index shard →
  reads now s 1 MiB (Reader_shard run kind index) (Ok shard).
Proof.
  intros Hsh Hi Hin b c Hb Hc. unfold Reader_shard.
  set (path := shard_path _ _ _ _).
  assert (cache_ok s (sc_touch c path)) as Hct.
  { intros r n k i x Hn Hi' Hx. by apply Hc, sc_get_touch with (k := path). }
  destruct (sc_get c path) as [shard'|] eqn:E.
  { exists (Ok shard'), b, (sc_touch c path). split_and!; [done|done|]. left.
    split_and!; [|apply Hb..|unfold spent; split; lia]. f_equal.
    eapply shard_in_inj; [|exact Hin]. by apply Hc. }
  destruct (reads_charge now s MAX_SHARD_BYTES) with (b := b) (c := sc_touch c path)
    as (r1 & b1 & c1 & E1 & Hc1 & Hr1); [vm_compute; discriminate|done|done|].
  unfold reading_bind at 1. rewrite run_prog_bind, E1.
  destruct Hr1 as [(-> & Hb1 & Hs1)|[(e & -> & Hee) Hn]].
  - destruct Hin as (bs & Hbs & Hd). unfold reading_bind, reading_store. simpl. fold path in Hbs. rewrite Hbs, Hd. simpl.
    exists (Ok shard), b1, (sc_insert c1 path shard). split_and!; [done| |by left].
    intros r n k i x Hn Hi' [[Ep ->]|[_ Hx]]%sc_get_insert; [|by apply Hc1].
    apply shard_path_inj in Ep as (-> & -> & -> & ->); [by exists bs|done..].
  - exists (Err e), b1, c1. split_and!; [done|done|]. right. split; [by exists e|done].
Qed.

Lemma power_of_two_land n m : is_power_of_two n = true → (N.land m (n - 1) < n)%N.
Proof.
  unfold is_power_of_two. intros Hn. bool_prop.
  assert (N.land m (n - 1) <= n - 1)%N; [|lia].
  apply N.ldiff_le, N.bits_inj_0. intros i.
  rewrite N.ldiff_spec, N.land_spec. destruct (N.testbit m i), (N.testbit (n - 1) i); done.
Qed.

(** The shards a probe needs are stored, and never miss a key of the run. *)
Lemma probe_shards run keys key :
  summary_stored s (r_digest (run_root run)) (run_shards run) keys →
  let probe := Probe_new key (run_shards run) in
  let stored_shard := shard_in s (r_digest (run_root run)) (run_shards run) in
  (run_shards run <= u32_max)%N ∧ (p_address_index probe <= u32_max)%N ∧ (p_spill_index probe <= u32_max)%N ∧
  ∃ a sp, stored_shard Address (p_address_index probe) a ∧ stored_shard Spill (p_spill_index probe) sp ∧
    (key ∈ keys → Shard_contains a key || (Shard_contains a (p_marker probe) && Shard_contains sp key) = true).
Proof.
  intros [Hp Hu Hsh Hk]. set (probe := Probe_new key (run_shards run)).
  assert (p_address_index probe < run_shards run)%N as Ha by (by apply power_of_two_land).
  assert (p_spill_index probe < run_shards run)%N as Hs by (by apply power_of_two_land).
  destruct (Hsh Address _ Ha) as (a & Hina). destruct (Hsh Spill _ Hs) as (sp & Hinsp).
  split_and!; [done|lia|lia|]. exists a, sp. split_and!; [done|done|].
  intros Hkey. destruct (Hk key Hkey) as (a' & Ha' & Hc). rewrite (shard_in_inj _ _ _ _ _ _ Hina Ha').
  destruct Hc as [->|(Hm & sp' & Hsp' & Hc)]; [done|].
  fold probe in Hm. rewrite Hm, (shard_in_inj _ _ _ _ _ _ Hinsp Hsp'), Hc. by rewrite orb_true_r.
Qed.

(** The probe of a run. *)
Lemma reads_may_contain run keys key :
  summary_stored s (r_digest (run_root run)) (run_shards run) keys →
  ∃ may, reads now s 2 (2 * MiB) (Reader_may_contain run key) (Ok may) ∧ (key ∈ keys → may = true).
Proof.
  intros Hsum. destruct (probe_shards run keys key Hsum) as (Hu & Ha & Hs & a & sp & Hina & Hinsp & Hin).
  unfold Reader_may_contain. set (probe := Probe_new key (run_shards run)) in *.
  assert (reads now s 1 MiB (Reader_shard run Address (p_address_index probe)) (Ok a)) as Hra by (by apply reads_shard).
  assert (reads now s 1 MiB (Reader_shard run Spill (p_spill_index probe)) (Ok sp)) as Hrs by (by apply reads_shard).
  eexists. split; [|exact Hin].
  change 2%N with (1 + 1)%N at 1. change (2 * MiB)%N with (MiB + MiB)%N. eapply reads_bind; [exact Hra|].
  destruct (Shard_contains a key); [apply reads_ret|].
  destruct (Shard_contains a (p_marker probe)); [|apply reads_ret].
  change 1%N with (1 + 0)%N. replace MiB with (MiB + 0)%N by lia. eapply reads_bind; [exact Hrs|]. apply reads_ret.
Qed.

(** ** Lookups over the runs, newest first *)

Lemma reads_lookup_runs ps rss key block :
  Forall2 (run_open s) ps rss →
  reads now s (5 * len ps) (4 * MiB * len ps) (lookup_runs ps key block)
    (Ok (state_at (concat (rev rss)) key block)).
Proof.
  induction 1 as [|[run reader] rs ps rss Ho HF IH]; [apply reads_ret|].
  destruct Ho as [Hrep Hsum Hblk]. simpl in Hrep, Hsum, Hblk.
  cbn [lookup_runs rev]. rewrite concat_app, state_at_app. cbn [concat]. rewrite app_nil_r, len_cons.
  assert (reads now s (5 * (1 + len ps)) (4 * MiB * (1 + len ps)) (lookup_runs ps key block)
    (Ok (state_at (concat (rev rss)) key block))) as IH1.
  { eapply reads_weaken; [exact IH|lia|unfold MiB; lia]. }
  destruct (block <? run_start run)%N eqn:Eb; bool_prop.
  { rewrite (state_at_none rs); [done|]. intros r Hr _. rewrite Forall_forall in Hblk.
    specialize (Hblk r Hr). lia. }
  destruct (reads_may_contain run (map rec_key rs) key Hsum) as (may & Hmay & Hin).
  replace (5 * (1 + len ps))%N with (2 + (3 + 5 * len ps))%N by lia.
  replace (4 * MiB * (1 + len ps))%N with (2 * MiB + (2 * MiB + 4 * MiB * len ps))%N by lia.
  eapply reads_bind; [exact Hmay|]. destruct may; cbn [negb].
  - eapply reads_bind with (a := state_at rs key block).
    + pose proof (charged_cost now s _ _ _ (lookup_cost reader key (N.min block (run_end run)))) as Hc.
      rewrite (lookup_rep _ _ rs), state_at_min in Hc; [exact Hc| |done].
      eapply Forall_impl; [exact Hblk|]. simpl. lia.
    + destruct (state_at rs key block) as [v|]; [apply reads_ret|exact IH].
  - rewrite (state_at_none rs).
    + eapply reads_weaken; [exact IH|lia..].
    + intros r Hr Hk. specialize (Hin ltac:(rewrite <-Hk; by apply list_elem_of_fmap_2)). done.
Qed.

End lookup_facts.
