(* ===== verification/ReaderTheorems.v ===== *)
(** * What a pinned reader answers

    The abstract specification of a read is a function of the history, the
    concatenated records of the runs.  A pinned reader refines it in every later
    state of the store that still holds the runs, whatever its cache evicts. *)

From S2P Require Import Prelude Bytes SortedLists Externals Hash RunFormat RunReader RunRep Head HeadFacts Summary SummaryFacts Store Compact CompactFacts Format Tiered TieredReader ReaderFacts.
From Stdlib Require Import Lia Sorting.Sorted.

(** ** The abstract specification *)

Definition lookup_spec (hist : list RunRecord) (number : N) (key : bytes) (block : N) : result (option bytes) :=
  if (number <? block)%N then bail "block outside pinned tiered history"
  else Ok (state_at hist key block).

Definition account_spec (hist : list RunRecord) (number : N) (address : Address20) (block : N)
    : result (option AccountEvent) :=
  let? value := lookup_spec hist number (account_key address) block in
  match value with
  | None => Ok None
  | Some value =>
      let? state := AccountState_decode value in
      Ok (Some {| ae_block := block; ae_address := address; ae_exists := acc_exists state;
                  ae_incarnation := acc_incarnation state; ae_nonce := acc_nonce state;
                  ae_balance := acc_balance state; ae_code_hash := acc_code_hash state |})
  end.

(** The slot in the account's current incarnation; zero when the account or
    the slot is absent. *)
Definition storage_spec (hist : list RunRecord) (number : N) (address : Address20) (slot : Hash32) (block : N)
    : result (array 32) :=
  let? account := account_spec hist number address block in
  match account with
  | None => Ok zero_hash
  | Some account =>
      if ae_exists account then
        match state_at hist (storage_key address (ae_incarnation account) slot) block with
        | Some value => ok_or (to_array 32 value) "invalid full-key storage poststate"
        | None => Ok zero_hash
        end
      else Ok zero_hash
  end.

Definition code_spec `{Keccak256} (hist : list RunRecord) (number : N) (address : Address20) (block : N)
    : result bytes :=
  let? account := account_spec hist number address block in
  match account with
  | None => Ok []
  | Some account =>
      if negb (ae_exists account) || bool_decide (ae_code_hash account = keccak []) then Ok []
      else
        let? b := ok_or (state_at hist (code_key (ae_code_hash account)) block) "missing account code blob" in
        if (MAX_CODE <? len b)%N || negb (bool_decide (keccak b = ae_code_hash account))
        then bail "invalid code poststate" else Ok b
  end.

(** One request of a client. *)
Inductive Query :=
| QAccount (address : Address20) (block : N)
| QStorage (address : Address20) (slot : Hash32) (block : N)
| QCode (address : Address20) (block : N).
Inductive Answer :=
| AAccount (account : option AccountEvent)
| AStorage (value : array 32)
| ACode (code : bytes).
Definition result_map {A B} (f : A → B) (r : result A) : result B := let? a := r in Ok (f a).
Definition query_spec `{Keccak256} (hist : list RunRecord) (number : N) (q : Query) : result Answer :=
  match q with
  | QAccount address block => result_map AAccount (account_spec hist number address block)
  | QStorage address slot block => result_map AStorage (storage_spec hist number address slot block)
  | QCode address block => result_map ACode (code_spec hist number address block)
  end.

Section theorems.
Context `{Sha256, Keccak256, Hex, Zstd, HeadJson, ShardCache}.

(** A client's request to a pinned reader: the answer and the cache after it. *)
Definition ask (r : Reader) (q : Query) (c : SC) : prog storeE (result Answer * SC) :=
  match q with
  | QAccount address block =>
      let* (a, st) := Reader_account r address block c in Ret (result_map AAccount a, st.2)
  | QStorage address slot block =>
      let* (a, st) := Reader_storage r address slot block c in Ret (result_map AStorage a, st.2)
  | QCode address block =>
      let* (a, st) := Reader_code r address block c in Ret (result_map ACode a, st.2)
  end.

(** Requests made one after the other, each when the store is in a given state. *)
Fixpoint session (now : Z) (r : Reader) (c : SC) (l : list (MemoryState * Query)) : list (result Answer) :=
  match l with
  | [] => []
  | (s, q) :: l => let '((a, c), _) := run_prog (mem_handle now) (ask r q c) s in a :: session now r c l
  end.

(** The store holds a head and all of its runs. *)
Record archive (s : MemoryState) (chain_id : N) (h : Head) (rss : list (list RunRecord)) : Prop := {
  ar_head : ∃ e, ms_entries s !! head_key chain_id = Some e ∧ (len (me_bytes e) <= MAX_HEAD)%N ∧
    Head_decode (me_bytes e) = Ok h;
  ar_chain : h_chain_id h = chain_id;
  ar_ends : Forall (λ r, (run_end r < u64_max)%N) (runs h);
  ar_runs : Forall2 (run_stored s) (runs h) rss
}.

Lemma read_head_ok now s chain_id h rss :
  archive s chain_id h rss →
  ∃ e, ms_entries s !! head_key chain_id = Some e ∧ Head_decode (me_bytes e) = Ok h ∧
    run_prog (mem_handle now) (read_head chain_id) s = (Ok (Some (versioned e, h)), s).
Proof.
  intros [(e & He & Hl & Hd) Hc _ _]. exists e. split_and!; [done|done|].
  unfold read_head. simpl. unfold mem_read_mutable_bounded. rewrite He.
  rewrite (proj2 (N.ltb_ge _ _)) by done. simpl. rewrite Hd, Hc, N.eqb_refl. done.
Qed.

(** What a pinned reader knows about its runs. *)
Record pinned (s : MemoryState) (r : Reader) (h : Head) (rss : list (list RunRecord)) : Prop := {
  pin_head : rd_head r = h;
  pin_runs : Forall2 (run_open s) (rd_runs r) rss;
  pin_count : (len (rd_runs r) <= 24)%N
}.

Lemma pinned_mono s s' r h rss : keeps s s' → pinned s r h rss → pinned s' r h rss.
Proof.
  intros Hs [Hh Hr Hc]. split; [done| |done]. eapply Forall2_impl; [exact Hr|].
  intros p rs [Hrep Hsum Hb]. split; [|by eapply summary_stored_mono|done].
  eapply run_rep_mono; [|exact Hrep]. intros x b. by apply mem_fetch_mono.
Qed.

Lemma cache_ok_mono s s' c : keeps s s' → cache_ok s c → cache_ok s' c.
Proof. intros Hs Hc run shards kind index shard Hn Hi Hg. eapply shard_in_mono; [exact Hs|]. by apply Hc. Qed.

Lemma flatten_length {A} (l : list (option A)) : length (flatten l) ≤ length l.
Proof. induction l as [|[x|] l IH]; simpl; lia. Qed.

Lemma runs_bounded h : head_valid h → (len (runs h) <= 24)%N.
Proof.
  intros [_ Hl Hv _ _ _ _ _]. unfold runs, len, MAX_L0_BACKLOG, MAX_LEVELS in *.
  rewrite length_app. pose proof (flatten_length (rev (h_levels h))) as Hf. rewrite length_rev in Hf. lia.
Qed.

Lemma open_ok now s chain_id h rss `{!ShardCacheLaws} :
  archive s chain_id h rss →
  ∃ r c, run_prog (mem_handle now) (Reader_open chain_id) s = (Ok (r, c), s) ∧
    pinned s r h rss ∧ cache_ok s c.
Proof.
  intros Ha. destruct (read_head_ok now s chain_id h rss Ha) as (e & He & Hd & Er).
  destruct (open_runs_ok s _ _ (ar_runs _ _ _ _ Ha)) as (ps & Eo & HF & Hl).
  unfold Reader_open. rewrite run_prog_bind, Er. cbn [ok_or]. rewrite Eo. eexists _, _. split; [reflexivity|].
  split.
  - split; [done|done|]. apply Head_decode_ok in Hd as [_ Hv]. apply runs_bounded in Hv. simpl.
    unfold len in *. lia.
  - intros run shards kind index shard _ _ Hg. by rewrite sc_get_new in Hg.
Qed.

Section pinned_reads.
Context `{!HexLaws, !ShardCacheLaws}.
Context (now : Z) (s : MemoryState) (r : Reader) (h : Head) (rss : list (list RunRecord)).
Context (Hpin : pinned s r h rss).
Abbreviation hist := (concat rss).
Abbreviation number := (h_number h).
Abbreviation n := (len (rd_runs r)).
Abbreviation reads := (reads now s).

Lemma reads_lookup key block :
  reads (5 * n) (4 * MiB * n) (Reader_lookup r key block) (lookup_spec hist number key block).
Proof.
  destruct Hpin as [Hh Hr _]. unfold Reader_lookup, lookup_spec. rewrite Hh.
  destruct (_ <? _)%N; [apply reads_ret|].
  pose proof (reads_lookup_runs now s (rev (rd_runs r)) (rev rss) key block) as Hl.
  rewrite rev_involutive in Hl. unfold len in *. rewrite length_rev in Hl. apply Hl.
  apply Forall2_reverse in Hr. unfold reverse in Hr. by rewrite !rev_append_rev, !app_nil_r in Hr.
Qed.

Lemma reads_account_in address block :
  reads (5 * n) (4 * MiB * n) (Reader_account_in r address block) (account_spec hist number address block).
Proof.
  unfold Reader_account_in, account_spec.
  pose proof (reads_lookup (account_key address) block) as Hl.
  destruct (lookup_spec _ _ _ _) as [[v|]|e].
  - eapply reads_weaken; [eapply (reads_bind _ _ _ _ 0 0); [exact Hl|]|lia..].
    cbn beta iota. destruct (AccountState_decode v); apply reads_ret.
  - eapply reads_weaken; [eapply (reads_bind _ _ _ _ 0 0); [exact Hl|]|lia..]. apply reads_ret.
  - by apply reads_bind_err.
Qed.

Lemma account_spec_number address block a :
  account_spec hist number address block = Ok a → (block <= number)%N.
Proof.
  unfold account_spec, lookup_spec. destruct (number <? block)%N eqn:E; [done|]. by bool_prop.
Qed.

Lemma lookup_spec_in key block :
  (block <= number)%N → lookup_spec hist number key block = Ok (state_at hist key block).
Proof. intros Hb. unfold lookup_spec. by rewrite (proj2 (N.ltb_ge _ _)). Qed.

(** A second lookup after the account's, for [storage] and [code]. *)
Lemma reads_second {A} address block (k : option AccountEvent → reading A)
    (spec : option AccountEvent → result A) :
  (∀ a, (block <= number)%N → reads (5 * n) (4 * MiB * n) (k a) (spec a)) →
  reads (10 * n) (8 * MiB * n) (reading_bind (Reader_account_in r address block) k)
    (let? a := account_spec hist number address block in spec a).
Proof.
  intros Hk. pose proof (reads_account_in address block) as Ha.
  destruct (account_spec _ _ _ _) as [a|e] eqn:E.
  - apply account_spec_number in E.
    eapply reads_weaken; [eapply reads_bind; [exact Ha|by apply Hk]|lia|unfold MiB; lia].
  - eapply reads_weaken; [by apply reads_bind_err|lia|unfold MiB; lia].
Qed.

Lemma reads_after_lookup {A} key block (k : option bytes → reading A) res :
  (block <= number)%N → reads 0 0 (k (state_at hist key block)) res →
  reads (5 * n) (4 * MiB * n) (reading_bind (Reader_lookup r key block) k) res.
Proof.
  intros Hb Hk. pose proof (reads_lookup key block) as Hl. rewrite lookup_spec_in in Hl by done.
  eapply reads_weaken; [eapply reads_bind; [exact Hl|exact Hk]|lia..].
Qed.

Lemma read_start {A} g m (p : reading A) res c :
  reads g m p res → cache_ok s c →
  ∃ r' b' c', run_prog (mem_handle now) (p (budget_default, c)) s = ((r', (b', c')), s) ∧ cache_ok s c' ∧
    (r' = res ∨ (over_budget r' ∧ ((MAX_REQUEST_GETS < g)%N ∨ (MAX_REQUEST_BYTES < m)%N))).
Proof.
  intros Hp Hc. destruct (Hp budget_default c) as (r' & b' & c' & E & Hc' & Hr); [done|done|].
  exists r', b', c'. split_and!; [done|done|]. destruct Hr as [[-> _]|[Ho Hn]]; [by left|right].
  split; [done|]. unfold affords, budget_default in Hn. simpl in Hn. lia.
Qed.

Lemma over_budget_map {A B} (f : A → B) res : over_budget res → over_budget (result_map f res).
Proof. intros (e & -> & He). by exists e. Qed.

Lemma storage_ok address slot block c :
  cache_ok s c →
  ∃ r' b' c', run_prog (mem_handle now) (Reader_storage r address slot block c) s = ((r', (b', c')), s) ∧
    cache_ok s c' ∧
    (r' = storage_spec hist number address slot block ∨
     (over_budget r' ∧ ((MAX_REQUEST_GETS < 10 * n)%N ∨ (MAX_REQUEST_BYTES < 8 * MiB * n)%N))).
Proof.
  intros Hc. unfold Reader_storage, storage_spec. apply read_start; [|done].
  apply (reads_second address block _ (λ account, match account with None => _ | Some account => _ end)).
  intros [account|] Hb; [|apply reads_ret].
  destruct (ae_exists account); [|apply reads_ret]. cbn [negb]. apply reads_after_lookup; [done|].
  destruct (state_at _ _ _); apply reads_ret.
Qed.

Lemma code_ok address block c :
  cache_ok s c →
  ∃ r' b' c', run_prog (mem_handle now) (Reader_code r address block c) s = ((r', (b', c')), s) ∧
    cache_ok s c' ∧
    (r' = code_spec hist number address block ∨
     (over_budget r' ∧ ((MAX_REQUEST_GETS < 10 * n)%N ∨ (MAX_REQUEST_BYTES < 8 * MiB * n)%N))).
Proof.
  intros Hc. unfold Reader_code, code_spec. apply read_start; [|done].
  apply (reads_second address block _ (λ account, match account with None => _ | Some account => _ end)).
  intros [account|] Hb; [|apply reads_ret].
  destruct (ae_exists account); [|apply reads_ret]. cbn [negb orb].
  case_bool_decide; [apply reads_ret|]. apply reads_after_lookup; [done|].
  destruct (state_at _ _ _) as [b|]; [|apply reads_ret]. cbn [ok_or]. destruct (_ || _); apply reads_ret.
Qed.

(** An account read always answers; a read of two lookups answers unless it
    costs more than the budget, which takes more than 16 runs. *)
Lemma ask_ok q c :
  cache_ok s c →
  ∃ a c', run_prog (mem_handle now) (ask r q c) s = ((a, c'), s) ∧ cache_ok s c' ∧
    (a = query_spec hist number q ∨
     (over_budget a ∧ (16 < n)%N ∧ match q with QAccount _ _ => False | _ => True end)).
Proof.
  intros Hc. pose proof (pin_count _ _ _ _ Hpin) as Hn.
  destruct q as [address block|address slot block|address block]; unfold ask; rewrite run_prog_bind.
  - destruct (read_start _ _ _ _ c (reads_account_in address block) Hc) as (r' & b' & c' & E & Hc' & Hr).
    unfold Reader_account. rewrite E. eexists _, _. split_and!; [reflexivity|done|].
    left. destruct Hr as [->|[_ Hm]]; [done|]. unfold MAX_REQUEST_GETS, MAX_REQUEST_BYTES, MiB in Hm. lia.
  - destruct (storage_ok address slot block c Hc) as (r' & b' & c' & E & Hc' & Hr). rewrite E.
    eexists _, _. split_and!; [reflexivity|done|]. destruct Hr as [->|[Ho Hm]]; [by left|right].
    split_and!; [by apply over_budget_map|unfold MAX_REQUEST_GETS, MAX_REQUEST_BYTES, MiB in Hm; lia|done].
  - destruct (code_ok address block c Hc) as (r' & b' & c' & E & Hc' & Hr). rewrite E.
    eexists _, _. split_and!; [reflexivity|done|]. destruct Hr as [->|[Ho Hm]]; [by left|right].
    split_and!; [by apply over_budget_map|unfold MAX_REQUEST_GETS, MAX_REQUEST_BYTES, MiB in Hm; lia|done].
Qed.

End pinned_reads.

(** What the answer to a request may be. *)
Definition answer_ok (hist : list RunRecord) (h : Head) (q : Query) (a : result Answer) : Prop :=
  a = query_spec hist (h_number h) q ∨
  (over_budget a ∧ (16 < len (runs h))%N ∧ match q with QAccount _ _ => False | _ => True end).

Lemma session_ok now r h rss l s c `{!HexLaws, !ShardCacheLaws} :
  pinned s r h rss → len (rd_runs r) = len (runs h) → cache_ok s c →
  Forall (λ p, keeps s p.1) l → StronglySorted (λ p p', keeps p.1 p'.1) l →
  Forall2 (λ p a, answer_ok (concat rss) h p.2 a) l (session now r c l).
Proof.
  intros Hpin Hlen. revert s c Hpin; induction l as [|[s1 q] l IH]; intros s c Hpin Hc HF Hs; [constructor|].
  invs HF. invs Hs. simpl in *.
  assert (pinned s1 r h rss) as Hpin1 by (by eapply pinned_mono).
  destruct (ask_ok now s1 r h rss Hpin1 q c) as (a & c' & E & Hc' & Ha); [by eapply cache_ok_mono|].
  rewrite E. constructor; [unfold answer_ok; by rewrite <-Hlen|].
  by apply (IH s1).
Qed.

(** C1: a pinned reader refines the abstract history.  Once opened on a store
    that holds a head and its runs, it answers every sequence of account,
    storage and code requests with the state of the runs' records at the
    requested block, however the store grows and its heads advance between the
    requests and whatever the shard cache evicts.  An account request always answers; a storage or
    code request can only fail in addition by the request budget, and only when
    the head has more than 16 runs. *)
Theorem reader_refines_history now s chain_id h rss `{!HexLaws, !ShardCacheLaws} l :
  archive s chain_id h rss →
  Forall (λ p, keeps s p.1) l → StronglySorted (λ p p', keeps p.1 p'.1) l →
  ∃ r c, run_prog (mem_handle now) (Reader_open chain_id) s = (Ok (r, c), s) ∧
    Reader_latest_block r = h_number h ∧
    Forall2 (λ p a, answer_ok (concat rss) h p.2 a) l (session now r c l).
Proof.
  intros Ha HF Hs. destruct (open_ok now s chain_id h rss Ha) as (r & c & E & Hpin & Hc).
  exists r, c. split_and!; [done|unfold Reader_latest_block; by rewrite (pin_head _ _ _ _ Hpin)|].
  apply (session_ok now r h rss l s c); [done| |done..].
  pose proof (Forall2_length _ _ _ (pin_runs _ _ _ _ Hpin)) as E1.
  pose proof (Forall2_length _ _ _ (ar_runs _ _ _ _ Ha)) as E2. unfold len. lia.
Qed.

End theorems.
