(* ===== verification/Rpc.v ===== *)
(** * [src/rpc.rs]: JSON-RPC over a pinned reader

    The trait [RpcBackend] is a record of operations over a state (the shard
    cache of the reader); [reader_backend] is its implementation by the tiered
    reader.  The deserializer that [serde] derives for [Request] is generated code:
    it is the class [RequestJson].  The requests of a batch are awaited eight at
    a time; the model answers them in order. *)

From stdpp Require Import pretty.
From Stdlib Require Import Lia ZArith Strings.Ascii.
From S2P Require Import Prelude Bytes Text Externals Hash Json Head Store Format Tiered TieredReader.

(** ** The trait *)

Record RpcBackend (S : Type) := {
  be_chain_id : N;
  be_generation : N;
  be_anchor_number : N;
  be_published_number : N;
  be_publication_digest : Hash32;
  be_finalized : bool;
  be_supports_block_hash_selector : bool;
  be_metrics : string;
  be_account_at : Address20 → N → S → prog storeE (result (option AccountEvent) * S);
  be_storage_at : Address20 → Hash32 → N → S → prog storeE (result (array 32) * S);
  be_code_at : Address20 → N → S → prog storeE (result bytes * S);
  be_block_number_by_hash : Hash32 → S → prog storeE (result (option N) * S)
}.
Arguments be_chain_id {S}. Arguments be_generation {S}. Arguments be_anchor_number {S}.
Arguments be_published_number {S}. Arguments be_publication_digest {S}. Arguments be_finalized {S}.
Arguments be_supports_block_hash_selector {S}. Arguments be_metrics {S}. Arguments be_account_at {S}.
Arguments be_storage_at {S}. Arguments be_code_at {S}. Arguments be_block_number_by_hash {S}.

(** [impl RpcBackend for tiered::Reader] *)
Section backend.
Context `{Sha256, Keccak256, Hex, Zstd, HeadJson, ShardCache}.
(** The cache after a read; its budget is dropped. *)
Definition keep_cache {A} (p : prog storeE (result A * RState)) : prog storeE (result A * SC) :=
  let* (r, st) := p in Ret (r, st.2).
Definition reader_backend (r : Reader) : RpcBackend SC :=
  {| be_chain_id := Reader_chain_id r;
     be_generation := Reader_latest_block r;
     be_anchor_number := 0;
     be_published_number := Reader_latest_block r;
     be_publication_digest := Reader_head_digest r;
     be_finalized := true;
     be_supports_block_hash_selector := false;
     be_metrics := "fossil_published_block " +:+ pretty (Reader_latest_block r) +:+ String "010"%char EmptyString +:+
                   "fossil_runs " +:+ pretty (Reader_run_count r) +:+ String "010"%char EmptyString;
     be_account_at := λ address block c, keep_cache (Reader_account r address block c);
     be_storage_at := λ address slot block c, keep_cache (Reader_storage r address slot block c);
     be_code_at := λ address block c, keep_cache (Reader_code r address block c);
     be_block_number_by_hash := λ _ c, Ret (Ok None, c) |}.
End backend.

(** ** Requests and errors *)

(** [Request] *)
Record Request := {
  rq_jsonrpc : option string;
  rq_id : Value;
  rq_method : string;
  rq_params : Value
}.
(** [serde_json::from_value::<Request>] *)
Class RequestJson := request_from_value : Value → option Request.
(** The object of a request's four fields. *)
Definition request_object (jsonrpc : string) (id : Value) (method : string) (params : Value) : Value :=
  json_object [("jsonrpc", VString jsonrpc); ("id", id); ("method", VString method); ("params", params)].
(** A derived [Deserialize] reads the fields by name. *)
Class RequestJsonLaws `{RequestJson} : Prop := request_fields jsonrpc id method params :
  request_from_value (request_object jsonrpc id method params) =
  Some {| rq_jsonrpc := Some jsonrpc; rq_id := id; rq_method := method; rq_params := params |}.

(** [RpcError] *)
Record RpcError := { re_code : Z; re_message : string }.
Definition rpc_invalid (message : string) : RpcError := {| re_code := -32602; re_message := message |}.

(** [str::contains] *)
Fixpoint contains_str (s needle : string) : bool :=
  match strip_prefix needle s with
  | Some _ => true
  | None => match s with String _ s => contains_str s needle | EmptyString => false end
  end.
Definition rpc_selector (e : error) : RpcError :=
  {| re_code := if contains_str (error_to_string e) "block unavailable" then -32001 else -32602;
     re_message := error_to_string e |}.
Definition rpc_state (e : error) : RpcError :=
  {| re_code := if contains_str (error_to_string e) "block unavailable" then -32001 else -32603;
     re_message := error_to_string e |}.

(** [error] and the response with a result. *)
Definition rpc_error (id : Value) (code : Z) (message : string) : Value :=
  json_object [("jsonrpc", VString "2.0"); ("id", id);
               ("error", json_object [("code", VNumber (NegInt code)); ("message", VString message)])].
Definition rpc_result (id result : Value) : Value :=
  json_object [("jsonrpc", VString "2.0"); ("id", id); ("result", result)].

(** ** Tasks: programs that thread the backend's state and may fail with an [RpcError]. *)

Inductive outcome (A : Type) := Success (a : A) | Failure (e : RpcError).
Arguments Success {A}.
Arguments Failure {A}.

Section rpc.
Context `{Hex, RequestJson} {S : Type}.

Definition task (A : Type) : Type := S → prog storeE (outcome A * S).
Definition task_ret {A} (a : A) : task A := λ s, Ret (Success a, s).
Definition task_fail {A} (e : RpcError) : task A := λ s, Ret (Failure e, s).
Definition task_bind {A B} (p : task A) (k : A → task B) : task B :=
  λ s, bind (p s) (λ '(r, s), match r with Success a => k a s | Failure e => Ret (Failure e, s) end).
(** [call.await.map_err(f)?] *)
Definition task_call {A} (f : error → RpcError) (p : S → prog storeE (result A * S)) : task A :=
  λ s, bind (p s) (λ '(r, s), Ret (match r with Ok a => Success a | Err e => Failure (f e) end, s)).

(** ** Parameters *)

(** [params] *)
Definition rpc_params (value : Value) (count : N) : outcome (list Value) :=
  match as_array value with
  | None => Failure (rpc_invalid "params must be an array")
  | Some values =>
      if negb (len values =? count)%N
      then Failure (rpc_invalid ("expected " +:+ pretty count +:+ " parameters"))
      else Success values
  end.

(** [parse_address] *)
Definition rpc_parse_address (value : Value) : outcome Address20 :=
  match as_str value with
  | None => Failure (rpc_invalid "address must be a string")
  | Some s => match address_from_str s with Ok a => Success a | Err e => Failure (rpc_invalid (error_to_string e)) end
  end.

(** [parse_slot] *)
Definition rpc_parse_slot (value : Value) : outcome Hash32 :=
  match as_str value with
  | None => Failure (rpc_invalid "slot must be a string")
  | Some value =>
      let parsed s := match hash_from_str s with Ok h => Success h | Err e => Failure (rpc_invalid (error_to_string e)) end in
      if (String.length value =? 66)%nat then parsed value
      else
        match strip_prefix "0x" value with
        | None => Failure (rpc_invalid "slot must be hex")
        | Some quantity =>
            if bool_decide (quantity = "") || (64 <? String.length quantity)%nat
            then Failure (rpc_invalid "invalid slot")
            else parsed ("0x" +:+ pad64 quantity)
        end
  end.

(** [resolve_selector]: the number a string selects. *)
Definition select_number (be : RpcBackend S) (tag : string) : result N :=
  if bool_decide (tag = "latest") then Ok (be_published_number be)
  else if bool_decide (tag = "safe") || bool_decide (tag = "finalized") then
    if negb (be_finalized be)
    then bail "block unavailable: fixed-offset publication is not safe or finalized"
    else Ok (be_published_number be)
  else if bool_decide (tag = "earliest") then
    if (be_anchor_number be =? 0)%N then Ok 0%N else bail "block unavailable"
  else if bool_decide (tag = "pending") then bail "pending is unsupported"
  else parse_quantity tag.

(** The end of [resolve_selector], for a selector that is not an object. *)
Definition select_block (be : RpcBackend S) (selector : Value) : result N :=
  let? number := match selector with VString tag => select_number be tag | _ => bail "invalid block selector" end in
  if (number <? be_anchor_number be)%N || (be_published_number be <? number)%N
  then bail "block unavailable" else Ok number.

Definition resolve_selector (be : RpcBackend S) (selector : Value) (s : S) : prog storeE (result N * S) :=
  match selector with
  | VObject object =>
      match obj_get "blockNumber" object with
      | Some number =>
          if contains_key "blockHash" object
          then Ret (bail "selector cannot contain blockNumber and blockHash", s)
          else Ret (select_block be number, s)
      | None =>
          if negb (be_supports_block_hash_selector be)
          then Ret (bail "block-hash selectors are unsupported until a bounded durable hash index exists", s)
          else
            let hash :=
              let? hash := ok_or (v ← obj_get "blockHash" object; as_str v) "invalid EIP-1898 selector" in
              let? hash := hash_from_str hash in
              let? _ := match obj_get "requireCanonical" object with
                        | None => Ok tt
                        | Some v => let? _ := ok_or (as_bool v) "requireCanonical must be boolean" in Ok tt
                        end in
              Ok hash in
            match hash with
            | Err e => Ret (Err e, s)
            | Ok hash =>
                let* (r, s) := be_block_number_by_hash be hash s in
                Ret (let? number := r in ok_or number "block unavailable", s)
            end
      end
  | selector => Ret (select_block be selector, s)
  end.

(** ** [dispatch] *)

Definition lift {A} (o : outcome A) : task A := λ s, Ret (o, s).
Definition nth_param (values : list Value) (i : nat) : Value := default VNull (values !! i).

(** The methods that read an account. *)
Definition dispatch_account (be : RpcBackend S) (method : string) (params : Value) : task Value :=
  task_bind (lift (rpc_params params 2)) (λ params,
  task_bind (lift (rpc_parse_address (nth_param params 0))) (λ address,
  task_bind (task_call rpc_selector (resolve_selector be (nth_param params 1))) (λ block,
  task_bind (task_call rpc_state (be_account_at be address block)) (λ account,
    if bool_decide (method = "eth_getBalance") then
      task_ret (VString (match account with Some account => quantity_u256 (ae_balance account) | None => "0x0" end))
    else if bool_decide (method = "eth_getTransactionCount") then
      task_ret (VString (match account with Some account => quantity (ae_nonce account) | None => "0x0" end))
    else
      task_bind (task_call rpc_state (be_code_at be address block)) (λ b,
        task_ret (VString ("0x" +:+ hex_encode b))))))).

Definition dispatch_storage (be : RpcBackend S) (params : Value) : task Value :=
  task_bind (lift (rpc_params params 3)) (λ params,
  task_bind (lift (rpc_parse_address (nth_param params 0))) (λ address,
  task_bind (lift (rpc_parse_slot (nth_param params 1))) (λ slot,
  task_bind (task_call rpc_selector (resolve_selector be (nth_param params 2))) (λ block,
  task_bind (task_call rpc_state (be_storage_at be address slot block)) (λ value,
    task_ret (VString (data32 value))))))).

Definition dispatch (be : RpcBackend S) (request : Request) : task Value :=
  let method := rq_method request in
  if bool_decide (method = "web3_clientVersion") then task_ret (VString "fossil/0.1.0")
  else if bool_decide (method = "eth_chainId") then task_ret (VString (quantity (be_chain_id be)))
  else if bool_decide (method = "eth_blockNumber") then task_ret (VString (quantity (be_published_number be)))
  else if bool_decide (method = "eth_getBalance") || bool_decide (method = "eth_getTransactionCount")
          || bool_decide (method = "eth_getCode") then dispatch_account be method (rq_params request)
  else if bool_decide (method = "eth_getStorageAt") then dispatch_storage be (rq_params request)
  else task_fail {| re_code := -32601; re_message := "method not found" |}.

(** ** [handle_value], [handle_rpc_backend] *)

Definition handle_value (be : RpcBackend S) (value : Value) (s : S) : prog storeE (Value * S) :=
  match request_from_value value with
  | Some request =>
      if bool_decide (rq_jsonrpc request = Some "2.0") then
        let* (r, s) := dispatch be request s in
        Ret (match r with
             | Success result => rpc_result (rq_id request) result
             | Failure e => rpc_error (rq_id request) (re_code e) (re_message e)
             end, s)
      else Ret (rpc_error VNull (-32600) "invalid request", s)
  | None => Ret (rpc_error VNull (-32600) "invalid request", s)
  end.

(** The responses of a batch, in the order of the requests. *)
Fixpoint handle_all (be : RpcBackend S) (requests : list Value) (s : S) : prog storeE (list Value * S) :=
  match requests with
  | [] => Ret ([], s)
  | value :: requests =>
      let* (response, s) := handle_value be value s in
      let* (responses, s) := handle_all be requests s in
      Ret (response :: responses, s)
  end.

Definition handle_rpc_backend (be : RpcBackend S) (value : Value) (batch_limit : N) (s : S)
    : prog storeE (Value * S) :=
  match value with
  | VArray requests =>
      if bool_decide (requests = []) || (batch_limit <? len requests)%N
      then Ret (rpc_error VNull (-32600) "invalid batch size", s)
      else let* (responses, s) := handle_all be requests s in Ret (VArray responses, s)
  | value => handle_value be value s
  end.

(** [health] *)
Definition health (be : RpcBackend S) : Value :=
  json_object [("status", VString "ready"); ("generation", VNumber (PosInt (be_generation be)));
               ("published", VString (quantity (be_published_number be)));
               ("manifest", VString (hash_to_string (be_publication_digest be)))].

End rpc.

(** ** The server: [serve_tiered], [RpcState::snapshot]

    The published reader is replaced by the refresh task; a request is answered
    by the reader that was published when it arrived. *)

Section server.
Context `{Sha256, Keccak256, Hex, Zstd, HeadJson, ShardCache, RequestJson}.

Definition Server : Type := Reader * SC.

(** One turn of the refresh task. *)
Definition refresh (chain_id : N) (current : Server) : prog storeE Server :=
  let* opened := Reader_open chain_id in
  match opened with
  | Err _ => Ret current
  | Ok candidate =>
      if (Reader_latest_block candidate.1 <? Reader_latest_block current.1)%N then Ret current
      else if negb (bool_decide (Reader_head_digest candidate.1 = Reader_head_digest current.1)) then Ret candidate
      else Ret current
  end.

(** [rpc_handler] *)
Definition serve_request (batch_limit : N) (value : Value) (current : Server) : prog storeE (Value * Server) :=
  let* (response, c) := handle_rpc_backend (reader_backend current.1) value batch_limit current.2 in
  Ret (response, (current.1, c)).

(** [interval.filter(|interval| !interval.is_zero())]: without one the reader
    opened at the start is served for ever. *)
Definition refreshing (interval : option N) : bool :=
  match interval with Some interval => negb (interval =? 0)%N | None => false end.

(** What happens to a running server: a turn of the ticker, or a request to one
    of the three routes. *)
Inductive ServerEvent := Tick | PostRoot (value : Value) | GetHealth | GetMetrics.
Inductive Reply := NoReply | ReplyJson (value : Value) | ReplyText (body : string).
Definition server_step (chain_id : N) (interval : option N) (batch_limit : N) (event : ServerEvent)
    (current : Server) : prog storeE (Reply * Server) :=
  match event with
  | Tick =>
      if refreshing interval
      then let* next := refresh chain_id current in Ret (NoReply, next)
      else Ret (NoReply, current)
  | PostRoot value =>
      let* (response, current) := serve_request batch_limit value current in Ret (ReplyJson response, current)
  | GetHealth => Ret (ReplyJson (health (reader_backend current.1)), current)
  | GetMetrics => Ret (ReplyText (be_metrics (reader_backend current.1)), current)
  end.

End server.
