(* ===== verification/FormatFacts.v ===== *)
(** * Quantities and fixed-size hexadecimal round-trip

    [quantity] prints the canonical form and [parse_quantity] reads it back; what
    else [parse_quantity] accepts starts with a plus sign. *)

From Stdlib Require Import Strings.Ascii.
From S2P Require Import Prelude Bytes Externals ToyCrates Hash Format.
From Stdlib Require Import Lia.

(** ** Digits *)

Lemma digit_value_hex d : (d < 16)%N → digit_value (hex_digit d) = Some d.
Proof.
  intros Hd. assert (∀ n, n < 16 → digit_value (hex_digit (N.of_nat n)) = Some (N.of_nat n)) as Hn.
  { intros n Hn. do 16 (destruct n as [|n]; [done|]). lia. }
  rewrite <-(N2Nat.id d). apply Hn. lia.
Qed.

Lemma hex_digit_value c d :
  digit_value c = Some d → is_ascii_uppercase (byte_of (N_of_ascii c)) = false → hex_digit d = c ∧ (d < 16)%N.
Proof.
  unfold digit_value. intros Hd Hl.
  assert (N_of_ascii c < 256)%N as Hc by apply N_ascii_bounded.
  assert (byte_N (byte_of (N_of_ascii c)) = N_of_ascii c) as Hb by (rewrite byte_N_of; by apply N.mod_small).
  unfold is_ascii_uppercase in Hl. rewrite Hb in Hl. unfold hex_digit.
  destruct (_ && _) eqn:E1 in Hd; [|destruct (_ && _) eqn:E2 in Hd; [|destruct (_ && _) eqn:E3 in Hd; [|done]]].
  - injection Hd as <-. bool_prop. rewrite (proj2 (N.ltb_lt _ _)) by lia. split; [|lia].
    replace (48 + (N_of_ascii c - 48))%N with (N_of_ascii c) by lia. apply ascii_N_embedding.
  - injection Hd as <-. bool_prop. rewrite (proj2 (N.ltb_ge _ _)) by lia. split; [|lia].
    replace (87 + (N_of_ascii c - 87))%N with (N_of_ascii c) by lia. apply ascii_N_embedding.
  - bool_prop. rewrite (proj2 (N.leb_le 65 _)), (proj2 (N.leb_le _ 90)) in Hl by lia. done.
Qed.

Lemma hex_digits_radix fuel n s :
  (n < 16 ^ N.of_nat fuel)%N → 0 < fuel → (n <= u64_max)%N →
  radix_digits 0 (hex_digits fuel n s) = radix_digits n s.
Proof.
  revert n s; induction fuel as [|fuel IH]; intros n s Hn Hf Hu; [lia|]. cbn [hex_digits].
  assert (n mod 16 < 16)%N as Hm by (by apply N.mod_lt).
  pose proof (N.div_mod n 16 ltac:(done)) as Hdm.
  destruct (n / 16 =? 0)%N eqn:E; bool_prop.
  - cbn [radix_digits]. rewrite digit_value_hex by done. rewrite E in Hdm.
    replace (0 * 16 + n mod 16)%N with n by lia. by rewrite (proj2 (N.leb_le _ _)).
  - assert (n / 16 < 16 ^ N.of_nat fuel)%N as Hlt.
    { apply N.Div0.div_lt_upper_bound. replace (N.of_nat (S fuel)) with (N.succ (N.of_nat fuel)) in Hn by lia.
      rewrite N.pow_succ_r' in Hn. lia. }
    destruct fuel as [|fuel]; [change (16 ^ N.of_nat 0)%N with 1%N in Hlt; lia|].
    assert (n / 16 <= n)%N as Hle by (apply N.Div0.div_le_upper_bound; lia).
    rewrite IH; [|done|lia|by etrans]. cbn [radix_digits]. rewrite digit_value_hex by done.
    replace (n / 16 * 16 + n mod 16)%N with n by lia. by rewrite (proj2 (N.leb_le _ _)).
Qed.

(** The first digit, and that all digits are lowercase. *)
Lemma hex_digits_first fuel n s :
  (n < 16 ^ N.of_nat fuel)%N → n ≠ 0%N →
  ∃ d rest, hex_digits fuel n s = String (hex_digit d) rest ∧ (0 < d < 16)%N.
Proof.
  revert n s; induction fuel as [|fuel IH]; intros n s Hn Hz; [simpl in Hn; lia|]. cbn [hex_digits].
  pose proof (N.div_mod n 16 ltac:(done)) as Hdm. pose proof (N.mod_lt n 16 ltac:(done)) as Hm.
  destruct (n / 16 =? 0)%N eqn:E; bool_prop.
  - eexists _, _. split; [done|]. lia.
  - apply IH; [|done]. apply N.Div0.div_lt_upper_bound.
    replace (N.of_nat (S fuel)) with (N.succ (N.of_nat fuel)) in Hn by lia. rewrite N.pow_succ_r' in Hn. lia.
Qed.

Lemma format_digit_lower d : (d < 16)%N → is_ascii_uppercase (byte_of (N_of_ascii (hex_digit d))) = false.
Proof.
  intros Hd. assert (∀ n, n < 16 → is_ascii_uppercase (byte_of (N_of_ascii (hex_digit (N.of_nat n)))) = false) as Hn.
  { intros n Hn. do 16 (destruct n as [|n]; [done|]). lia. }
  rewrite <-(N2Nat.id d). apply Hn. lia.
Qed.

Lemma has_uppercase_cons c s :
  has_uppercase (String c s) = is_ascii_uppercase (byte_of (N_of_ascii c)) || has_uppercase s.
Proof.
  unfold has_uppercase. change (byte_string (String c s)) with (byte_of_ascii c :: byte_string s).
  cbn [existsb]. do 2 f_equal.
  apply byte_N_inj. rewrite byte_N_of, N.mod_small by apply N_ascii_bounded.
  destruct c as [[] [] [] [] [] [] [] []]; reflexivity.
Qed.

Lemma hex_digits_lower fuel n s : has_uppercase (hex_digits fuel n s) = has_uppercase s.
Proof.
  revert n s; induction fuel as [|fuel IH]; intros n s; [done|]. cbn [hex_digits].
  assert (n mod 16 < 16)%N as Hm by (by apply N.mod_lt).
  destruct (n / 16 =? 0)%N; [|rewrite IH]; by rewrite has_uppercase_cons, format_digit_lower.
Qed.

(** More digits than needed change nothing. *)
Lemma hex_digits_fuel f g n s :
  (n < 16 ^ N.of_nat f)%N → (n < 16 ^ N.of_nat g)%N → 0 < f → 0 < g → hex_digits f n s = hex_digits g n s.
Proof.
  revert g n s; induction f as [|f IH]; intros [|g] n s Hf Hg Hf0 Hg0; try lia. cbn [hex_digits].
  destruct (n / 16 =? 0)%N eqn:E; [done|]. bool_prop.
  assert (∀ k, (n < 16 ^ N.of_nat (S k))%N → (n / 16 < 16 ^ N.of_nat k)%N ∧ 0 < k) as Hk.
  { intros k Hk. replace (N.of_nat (S k)) with (N.succ (N.of_nat k)) in Hk by lia. rewrite N.pow_succ_r' in Hk.
    assert (n / 16 < 16 ^ N.of_nat k)%N as Hlt by (apply N.Div0.div_lt_upper_bound; lia). split; [done|].
    destruct k; [by apply N.lt_1_r in Hlt|lia]. }
  destruct (Hk f Hf), (Hk g Hg). by apply IH.
Qed.

(** The digits of a number that was read are the ones that were read. *)
Lemma radix_digits_unique k acc s n :
  radix_digits acc s = Some n → has_uppercase s = false → (0 < acc < 16 ^ N.of_nat k)%N → 0 < k →
  hex_digits (k + String.length s) n "" = hex_digits k acc s ∧ (n < 16 ^ N.of_nat (k + String.length s))%N.
Proof.
  revert k acc; induction s as [|c s IH]; intros k acc Hr Hl Ha Hk; simpl in Hr.
  { injection Hr as ->. simpl. rewrite Nat.add_0_r. split; [done|lia]. }
  rewrite has_uppercase_cons in Hl. apply orb_false_iff in Hl as [Hc Hl].
  destruct (digit_value c) as [d|] eqn:Ed; [|done]. destruct (hex_digit_value _ _ Ed Hc) as [Hd Hd16].
  destruct (_ <=? _)%N; [|done]. cbn [String.length]. rewrite Nat.add_succ_r.
  destruct (IH (S k) (acc * 16 + d)%N) as [E Hn]; [done|done| |lia|].
  { replace (N.of_nat (S k)) with (N.succ (N.of_nat k)) by lia. rewrite N.pow_succ_r'. lia. }
  rewrite Nat.add_succ_l in E, Hn. split; [|done]. rewrite E. cbn [hex_digits].
  assert ((acc * 16 + d) / 16 = acc)%N as -> by (rewrite N.div_add_l, N.div_small by lia; lia).
  assert ((acc * 16 + d) mod 16 = d)%N as -> by (rewrite N.add_comm, N.Div0.mod_add, N.mod_small by lia; lia).
  rewrite (proj2 (N.eqb_neq _ _)) by lia. by rewrite Hd.
Qed.

Lemma radix_bound acc s n : radix_digits acc s = Some n → (acc <= u64_max)%N → (n <= u64_max)%N.
Proof.
  revert acc; induction s as [|c s IH]; intros acc; simpl; [by intros [= ->]|].
  destruct (digit_value c); [|done]. destruct (_ <=? _)%N eqn:E; [|done]. bool_prop. intros Hr _. by eapply IH.
Qed.

(** ** Theorems *)

Definition u64_digits : (u64_max < 16 ^ N.of_nat 16)%N := eq_refl.

(** A quantity that is printed is read back. *)
Lemma parse_quantity_quantity n : (n <= u64_max)%N → parse_quantity (quantity n) = Ok n.
Proof.
  intros Hn. pose proof u64_digits as H16. unfold parse_quantity, quantity. rewrite strip_prefix_app. cbn [ok_or].
  assert (radix_digits 0 (format_x n) = Some n) as Hr
    by (unfold format_x; rewrite hex_digits_radix; [done|lia|lia|done]).
  assert (has_uppercase (format_x n) = false) as -> by apply hex_digits_lower.
  destruct (decide (n = 0%N)) as [->|Hz]; [done|].
  destruct (hex_digits_first 16 n "") as (d & rest & E & Hd); [lia|done|]. fold (format_x n) in E.
  rewrite E in *. rewrite bool_decide_eq_false_2 by done.
  assert (hex_digit d ≠ "0"%char ∧ hex_digit d ≠ "+"%char) as [H0 H1].
  { split; intros Hx; apply (f_equal digit_value) in Hx; rewrite digit_value_hex in Hx by lia; [|done].
    injection Hx as Hx. lia. }
  assert (starts_with_zero (String (hex_digit d) rest) = false) as -> by (by apply bool_decide_eq_false).
  rewrite andb_false_r. cbn [orb]. revert Hr H1. generalize (hex_digit d). intros c Hr H1.
  unfold u64_from_str_radix16. destruct c as [[] [] [] [] [] [] [] []]; try (by rewrite Hr); done.
Qed.

Lemma parse_quantity_inv s n :
  parse_quantity s = Ok n → strip_prefix "0x+" s = None → s = quantity n ∧ (n <= u64_max)%N.
Proof.
  unfold parse_quantity. destruct (strip_prefix "0x" s) as [raw|] eqn:Es; [|done]. cbn [ok_or].
  apply strip_prefix_Some in Es as ->. destruct (_ || _) eqn:E; [done|]. intros Hp Hplus.
  apply orb_false_iff in E as [E Hl]. apply orb_false_iff in E as [Hne Hz].
  destruct raw as [|c raw]; [by bool_prop|]. unfold quantity. 
  assert (radix_digits 0 (String c raw) = Some n) as Hr.
  { unfold u64_from_str_radix16 in Hp.
    destruct c as [[] [] [] [] [] [] [] []]; try (destruct (radix_digits 0 _) eqn:Er in Hp; [injection Hp as ->; exact Er|done]).
    done. }
  split; [|by eapply radix_bound]. f_equal. simpl in Hr.
  rewrite has_uppercase_cons in Hl. apply orb_false_iff in Hl as [Hc Hl].
  destruct (digit_value c) as [d|] eqn:Ed; [|done]. destruct (hex_digit_value _ _ Ed Hc) as [Hd Hd16].
  destruct (_ <=? _)%N; [|done]. pose proof u64_digits as H16.
  assert (n <= u64_max)%N as Hn by (eapply radix_bound; [exact Hr|unfold u64_max; lia]).
  unfold format_x. destruct (decide (d = 0%N)) as [->|Hdz].
  - assert (c = "0"%char) as -> by (by rewrite <-Hd). simpl in Hz. destruct raw as [|c' raw]; [|done].
    simpl in Hr. by injection Hr as <-.
  - destruct (radix_digits_unique 1 (0 * 16 + d)%N raw n Hr Hl) as [E Hb]; [simpl; lia|lia|].
    rewrite (hex_digits_fuel 16 (1 + String.length raw)) by lia. rewrite E. cbn [hex_digits].
    assert ((0 * 16 + d) / 16 = 0)%N as -> by (apply N.div_small; lia). cbn [N.eqb].
    rewrite N.mod_small by lia. by rewrite N.mul_0_l, N.add_0_l, Hd.
Qed.

Lemma parse_quantity_le s n : parse_quantity s = Ok n → (n <= u64_max)%N.
Proof.
  unfold parse_quantity. destruct (strip_prefix _ _) as [raw|]; [|done]. cbn [ok_or]. destruct (_ || _); [done|].
  unfold u64_from_str_radix16. intros Hp.
  assert (∀ raw, ok_or (radix_digits 0 raw) "quantity exceeds u64" = Ok n → (n <= u64_max)%N) as Hr.
  { intros r. destruct (radix_digits 0 r) eqn:E; [|done]. intros [= ->]. eapply radix_bound; [exact E|done]. }
  destruct raw as [|[[] [] [] [] [] [] [] []] raw]; try by apply Hr in Hp.
  - done.
  - destruct raw; [done|]. by apply Hr in Hp.
Qed.

(** C35: quantities are canonical.  Apart from strings whose digits start with a
    plus sign, [parse_quantity] accepts exactly the strings [quantity] prints,
    and reads back the number that was printed. *)
Theorem quantity_canonical s n :
  strip_prefix "0x+" s = None → parse_quantity s = Ok n ↔ (n <= u64_max)%N ∧ s = quantity n.
Proof.
  intros Hs. split.
  - intros Hp. by destruct (parse_quantity_inv s n Hp Hs).
  - intros [Hn ->]. by apply parse_quantity_quantity.
Qed.

(** A plus sign is read too: the string is not canonical. *)
Theorem parse_quantity_accepts_plus : parse_quantity "0x+5" = Ok 5%N ∧ quantity 5 ≠ "0x+5".
Proof. split; [reflexivity|discriminate]. Qed.

(** ** Zeros *)

Lemma length_zeros n : String.length (zeros n) = n.
Proof. induction n as [|n IH]; simpl; [done|]. by f_equal. Qed.
Lemma trim_spec s : ∃ n, s = zeros n +:+ trim_start_zeros s.
Proof.
  induction s as [|c s [n IH]]; [by exists 0|]. simpl. case_bool_decide as E; [|by exists 0].
  exists (S n). subst c. exact (f_equal (String "0") IH).
Qed.
Lemma trim_first s : starts_with_zero (trim_start_zeros s) = false.
Proof. induction s as [|c s IH]; [done|]. simpl. case_bool_decide as E; [done|]. simpl. by rewrite bool_decide_eq_false_2. Qed.

Lemma char_count_hex b : char_count (lower_hex b) = String.length (lower_hex b).
Proof.
  assert (∀ d s, (d < 16)%N → char_count (String (hex_digit d) s) = S (char_count s)) as Hd.
  { intros d s Hd. assert (∀ n, n < 16 → char_count (String (hex_digit (N.of_nat n)) s) = S (char_count s)) as Hn.
    { intros n Hn. do 16 (destruct n as [|n]; [done|]). lia. }
    rewrite <-(N2Nat.id d). apply Hn. lia. }
  induction b as [|x b IH]; [done|]. cbn [lower_hex String.length]. destruct (byte_nibbles x).
  by rewrite !Hd, IH by done.
Qed.
Lemma char_count_zeros n s : char_count (zeros n +:+ s) = n + char_count s.
Proof. induction n as [|n IH]; [done|]. exact (f_equal S IH). Qed.

Lemma pad64_trim b : String.length (lower_hex b) = 64 → pad64 (trim_start_zeros (lower_hex b)) = lower_hex b.
Proof.
  intros Hs. destruct (trim_spec (lower_hex b)) as [n E]. unfold pad64. rewrite E at 3. f_equal. f_equal.
  rewrite <-char_count_hex, E, char_count_zeros in Hs. lia.
Qed.

Lemma lower_hex_first_nonzero b :
  match from_first_nonzero b with
  | None => lower_hex b = zeros (2 * length b)
  | Some rest => trim_start_zeros (lower_hex rest) = trim_start_zeros (lower_hex b) ∧ trim_start_zeros (lower_hex rest) ≠ EmptyString
  end.
Proof.
  induction b as [|x b IH]; [done|]. cbn [from_first_nonzero]. case_bool_decide as E.
  - subst x. destruct (from_first_nonzero b) as [rest|]; [by destruct IH|].
    cbn [lower_hex length]. rewrite IH. replace (2 * S (length b)) with (S (S (2 * length b))) by lia. done.
  - split; [done|]. cbn [lower_hex trim_start_zeros]. destruct (byte_nibbles x) as [Hh Hl].
    case_bool_decide as E1; [|done]. case_bool_decide as E2; [|done]. exfalso. apply E, byte_N_inj.
    apply (hex_digit_inj _ 0) in E1; [|done|done]. apply (hex_digit_inj _ 0) in E2; [|done|done].
    rewrite (N.div_mod (byte_N x) 16), E1, E2 by done. done.
Qed.

Lemma has_uppercase_app s t : has_uppercase (s +:+ t) = has_uppercase s || has_uppercase t.
Proof.
  induction s as [|c s IH]; [done|]. change (String c s +:+ t) with (String c (s +:+ t)).
  by rewrite !has_uppercase_cons, IH, orb_assoc.
Qed.

Section fixed.
Context `{Hex, !HexLaws}.

Lemma parse_fixed_encode n (a : array n) : parse_fixed n ("0x" +:+ hex_encode (arr a)) = Ok a.
Proof.
  unfold parse_fixed, parse_fixed_raw. rewrite strip_prefix_app. cbn [ok_or].
  rewrite hex_encode_length, length_arr, (Nat.mul_comm 2), Nat.eqb_refl.
  unfold has_uppercase. rewrite hex_encode_lower. cbn [negb orb]. rewrite hex_round. simpl. by rewrite to_array_arr.
Qed.

Lemma parse_data_encode b : parse_data ("0x" +:+ hex_encode b) = Ok b.
Proof.
  unfold parse_data. rewrite strip_prefix_app. cbn [ok_or]. rewrite hex_encode_length, Nat.mul_comm, Nat.Div0.mod_mul.
  unfold has_uppercase. rewrite hex_encode_lower. cbn [Nat.eqb negb orb]. by rewrite hex_round.
Qed.

Context `{!HexCanon}.

Lemma parse_u256_quantity w : parse_u256 (quantity_u256 w) = Ok w.
Proof.
  assert (String.length (lower_hex (arr w)) = 64) as H64 by (by rewrite length_lower_hex, length_arr).
  assert (has_uppercase (lower_hex (arr w)) = false) as Hup
    by (rewrite <-hex_encode_spec; apply hex_encode_lower).
  assert (parse_fixed_raw 32 (lower_hex (arr w)) = Ok w) as Hp.
  { pose proof (parse_fixed_encode 32 w) as E. unfold parse_fixed in E. rewrite strip_prefix_app in E.
    by rewrite hex_encode_spec in E. }
  unfold quantity_u256, parse_u256. pose proof (lower_hex_first_nonzero (arr w)) as Hf.
  destruct (from_first_nonzero (arr w)) as [rest|].
  - destruct Hf as [Hf Hne]. rewrite hex_encode_spec, Hf in *. rewrite strip_prefix_app. cbn [ok_or].
    rewrite (bool_decide_eq_false_2 _ Hne). destruct (trim_spec (lower_hex (arr w))) as [n E].
    assert (String.length (trim_start_zeros (lower_hex (arr w))) <= 64) as Hl.
    { rewrite <-H64. rewrite E at 2. rewrite string_length_app. lia. }
    rewrite (proj2 (Nat.ltb_ge 64 _)) by done. rewrite trim_first, andb_false_r.
    assert (has_uppercase (trim_start_zeros (lower_hex (arr w))) = false) as ->.
    { rewrite E, has_uppercase_app in Hup. by apply orb_false_iff in Hup as [_ Hup]. }
    cbn [orb]. by rewrite pad64_trim.
  - rewrite length_arr in Hf. cbn [strip_prefix ok_or]. rewrite !decide_True by done. cbn [ok_or].
    change (pad64 "0") with (zeros (2 * 32)). rewrite <-Hf. exact Hp.
Qed.

(** Printed values are read back: addresses, storage words, byte strings
    and 256-bit quantities. *)
Theorem hex_values_roundtrip (a : Address20) (w : array 32) b :
  address_from_str (address_to_string a) = Ok a ∧ parse_fixed 32 (data32 w) = Ok w ∧
  parse_data ("0x" +:+ hex_encode b) = Ok b ∧ parse_u256 (quantity_u256 w) = Ok w.
Proof. split_and!; [apply parse_fixed_encode|apply parse_fixed_encode|apply parse_data_encode|apply parse_u256_quantity]. Qed.

End fixed.

Module FormatExample.
Lemma quantity_canonical_witness : parse_quantity "0xff" = Ok 255%N ↔ (255 <= u64_max)%N ∧ "0xff" = quantity 255.
Proof. apply quantity_canonical. reflexivity. Defined.
Lemma hex_values_roundtrip_witness :
  address_from_str (H := toy_hex) (address_to_string (H := toy_hex) (array_repeat 20 Byte.x07)) = Ok (array_repeat 20 Byte.x07) ∧
  parse_fixed (H := toy_hex) 32 (data32 (H := toy_hex) zero_hash) = Ok zero_hash ∧
  parse_data (H := toy_hex) ("0x" +:+ hex_encode (Hex := toy_hex) [Byte.x01]) = Ok [Byte.x01] ∧
  parse_u256 (H := toy_hex) (quantity_u256 (H := toy_hex) zero_hash) = Ok zero_hash.
Proof. apply (hex_values_roundtrip (H := toy_hex) (H0 := toy_hex_laws) (H1 := toy_hex_canon)). Defined.
End FormatExample.
