(* ===== verification/RpcFacts.v ===== *)
(** * The RPC over a pinned reader: specification and lemmas

    [Call] is a well-formed call with its arguments, [request_value] its JSON and
    [call_spec] its answer as a function of the history.  [answers] says what a
    task does on a store that holds the runs of a pinned reader. *)

From stdpp Require Import pretty.
From Stdlib Require Import Strings.Ascii.
From S2P Require Import Prelude Bytes Text Externals Hash RunFormat RunReader Json Head Store Format FormatFacts Tiered TieredReader ReaderFacts ReaderTheorems Rpc.
From Stdlib Require Import Lia ZArith.

(** ** Calls *)

Inductive Tag := TagLatest | TagSafe | TagFinalized | TagEarliest | TagNumber (n : N).
(** A tag, or an EIP-1898 object that holds one. *)
Inductive BlockParam := Bare (t : Tag) | Eip1898 (t : Tag).
Inductive Call :=
| ClientVersion
| ChainId
| BlockNumber
| GetBalance (address : Address20) (block : BlockParam)
| GetTransactionCount (address : Address20) (block : BlockParam)
| GetCode (address : Address20) (block : BlockParam)
| GetStorageAt (address : Address20) (slot : Hash32) (short : bool) (block : BlockParam).

Definition tag_string (t : Tag) : string :=
  match t with
  | TagLatest => "latest" | TagSafe => "safe" | TagFinalized => "finalized" | TagEarliest => "earliest"
  | TagNumber n => quantity n
  end.
Definition block_value (b : BlockParam) : Value :=
  match b with
  | Bare t => VString (tag_string t)
  | Eip1898 t => json_object [("blockNumber", VString (tag_string t))]
  end.
Definition block_tag (b : BlockParam) : Tag := match b with Bare t | Eip1898 t => t end.
Definition block_of (number : N) (b : BlockParam) : N :=
  match block_tag b with TagLatest | TagSafe | TagFinalized => number | TagEarliest => 0 | TagNumber n => n end.
Definition block_wf (b : BlockParam) : Prop :=
  match block_tag b with TagNumber n => (n <= u64_max)%N | _ => True end.

Definition call_block (call : Call) : option BlockParam :=
  match call with
  | ClientVersion | ChainId | BlockNumber => None
  | GetBalance _ b | GetTransactionCount _ b | GetCode _ b | GetStorageAt _ _ _ b => Some b
  end.
Definition call_wf (call : Call) : Prop := match call_block call with Some b => block_wf b | None => True end.

Definition call_method (call : Call) : string :=
  match call with
  | ClientVersion => "web3_clientVersion"
  | ChainId => "eth_chainId"
  | BlockNumber => "eth_blockNumber"
  | GetBalance _ _ => "eth_getBalance"
  | GetTransactionCount _ _ => "eth_getTransactionCount"
  | GetCode _ _ => "eth_getCode"
  | GetStorageAt _ _ _ _ => "eth_getStorageAt"
  end.

Section spec.
Context `{Hex}.

(** A slot is given in full or as a quantity. *)
Definition slot_string (slot : Hash32) (short : bool) : string :=
  if short then quantity_u256 slot else hash_to_string slot.
Definition call_params (call : Call) : list Value :=
  match call with
  | ClientVersion | ChainId | BlockNumber => []
  | GetBalance a b | GetTransactionCount a b | GetCode a b => [VString (address_to_string a); block_value b]
  | GetStorageAt a slot short b => [VString (address_to_string a); VString (slot_string slot short); block_value b]
  end.
Definition request_value (id : Value) (call : Call) : Value :=
  request_object "2.0" id (call_method call) (VArray (call_params call)).

(** The answer at a block of the history, and an error beyond it. *)
Definition at_block (number : N) (b : BlockParam) (k : N → result string) : outcome string :=
  if (number <? block_of number b)%N then Failure {| re_code := -32001; re_message := "block unavailable" |}
  else match k (block_of number b) with Ok text => Success text | Err e => Failure (rpc_state e) end.

Definition balance_text (account : option AccountEvent) : string :=
  match account with Some account => quantity_u256 (ae_balance account) | None => "0x0" end.
Definition nonce_text (account : option AccountEvent) : string :=
  match account with Some account => quantity (ae_nonce account) | None => "0x0" end.

Definition call_spec `{Keccak256} (hist : list RunRecord) (h : Head) (call : Call) : outcome string :=
  let number := h_number h in
  match call with
  | ClientVersion => Success "fossil/0.1.0"
  | ChainId => Success (quantity (h_chain_id h))
  | BlockNumber => Success (quantity number)
  | GetBalance a b => at_block number b (λ block, result_map balance_text (account_spec hist number a block))
  | GetTransactionCount a b => at_block number b (λ block, result_map nonce_text (account_spec hist number a block))
  | GetCode a b => at_block number b (λ block, result_map (λ code, "0x" +:+ hex_encode code) (code_spec hist number a block))
  | GetStorageAt a slot _ b => at_block number b (λ block, result_map data32 (storage_spec hist number a slot block))
  end.

(** The response with an outcome. *)
Definition outcome_value (id : Value) (o : outcome string) : Value :=
  match o with
  | Success text => rpc_result id (VString text)
  | Failure e => rpc_error id (re_code e) (re_message e)
  end.

(** The response to a call: the answer of the history, or a failure of the
    request budget, which takes a storage or code read and more than 16 runs. *)
Definition response_ok `{Keccak256} (hist : list RunRecord) (h : Head) (request : Value * Call) (response : Value) : Prop :=
  response = outcome_value request.1 (call_spec hist h request.2) ∨
  (∃ e, root_cause e = Msg budget_message ∧
        response = outcome_value request.1 (Failure (rpc_state e)) ∧ (16 < len (runs h))%N ∧
        match request.2 with GetCode _ _ | GetStorageAt _ _ _ _ => True | _ => False end).

End spec.

(** ** Parameters *)

Section params.
Context `{Hex, !HexLaws, !HexCanon}.

Lemma parse_address_ok a : rpc_parse_address (VString (address_to_string a)) = Success a.
Proof.
  unfold rpc_parse_address. cbn [as_str]. unfold address_from_str, address_to_string. by rewrite parse_fixed_encode.
Qed.

(** [Hash32::from_str] reads what [parse_fixed] reads. *)
Lemma hash_from_raw raw w : parse_fixed_raw 32 raw = Ok w → hash_from_str ("0x" +:+ raw) = Ok w.
Proof.
  unfold parse_fixed_raw, hash_from_str, has_uppercase. rewrite strip_prefix_app. cbn [ok_or].
  change (32 * 2)%nat with 64. destruct (_ || _); [done|]. destruct (hex_decode raw) as [d|]; [|done]. cbn [with_context].
  by destruct (to_array 32 d).
Qed.

(** Nothing is padded to the full length. *)
Lemma pad64_full raw w : parse_fixed_raw 32 (pad64 raw) = Ok w → String.length raw = 64 → pad64 raw = raw.
Proof.
  unfold parse_fixed_raw. destruct (String.length (pad64 raw) =? _)%nat eqn:E; [|done]. intros _ Hl.
  apply Nat.eqb_eq in E. unfold pad64 in *. rewrite string_length_app, length_zeros in E.
  assert (64 - char_count raw = 0) as -> by lia. done.
Qed.

Lemma parse_slot_ok slot short : rpc_parse_slot (VString (slot_string slot short)) = Success slot.
Proof.
  unfold rpc_parse_slot. cbn [as_str]. destruct short; cbn [slot_string].
  2:{ unfold hash_to_string at 1. rewrite string_length_app, hex_encode_length, length_arr.
      change (_ =? 66) with true. cbn iota. by rewrite hash_string_round. }
  pose proof (parse_u256_quantity slot) as Hq. unfold parse_u256 in Hq.
  destruct (strip_prefix "0x" (quantity_u256 slot)) as [raw|] eqn:E; [|done]. cbn [ok_or] in Hq.
  destruct (_ || _ || _ || _) eqn:Eb; [done|]. apply orb_false_iff in Eb as [Eb _]. apply orb_false_iff in Eb as [Eb _].
  pose proof (strip_prefix_Some _ _ _ E) as Es. destruct (_ =? 66) eqn:El.
  - apply Nat.eqb_eq in El. rewrite Es in El |- *. rewrite string_length_app in El. simpl in El.
    rewrite (pad64_full raw slot) in Hq by (done || lia). by rewrite (hash_from_raw _ _ Hq).
  - rewrite Eb. by rewrite (hash_from_raw _ _ Hq).
Qed.
End params.

(** Decide the equalities of string literals. *)
Ltac decide_strings :=
  repeat match goal with
  | |- context [bool_decide (?a = ?b)] =>
      first [ rewrite (bool_decide_eq_true_2 (a = b)) by reflexivity
            | rewrite (bool_decide_eq_false_2 (a = b)) by discriminate ]; cbn [orb]
  end.

(** ** Selectors *)

Section selectors.
Context `{Hex} {S : Type}.

Lemma select_tag_ok (be : RpcBackend S) t :
  be_finalized be = true → be_anchor_number be = 0%N → block_wf (Bare t) →
  select_block be (VString (tag_string t)) =
  if (be_published_number be <? block_of (be_published_number be) (Bare t))%N then bail "block unavailable"
  else Ok (block_of (be_published_number be) (Bare t)).
Proof.
  intros Hf Ha Ht. unfold select_block, select_number, block_of. cbn [block_tag].
  assert (∀ m, (m <? 0)%N = false) as Hz by (intros m; apply N.ltb_ge; lia).
  destruct t as [| | | |n]; cbn [tag_string]; rewrite ?Ha, ?Hf; [decide_strings; rewrite ?N.eqb_refl; cbn [orb negb]; rewrite ?Hz; reflexivity..|].
  assert (∀ c s, c ≠ "0"%char → quantity n ≠ String c s) as Hq.
  { intros c s Hc E. unfold quantity in E. by injection E as <- _. }
  rewrite !(bool_decide_eq_false_2 (quantity n = _)) by (by apply Hq). cbn [orb].
  rewrite parse_quantity_quantity by done. by rewrite Hz.
Qed.

Lemma resolve_ok (be : RpcBackend S) b s :
  be_finalized be = true → be_anchor_number be = 0%N → block_wf b →
  resolve_selector be (block_value b) s =
  Ret (if (be_published_number be <? block_of (be_published_number be) b)%N then bail "block unavailable"
       else Ok (block_of (be_published_number be) b), s).
Proof.
  intros Hf Ha Hb.
  assert (resolve_selector be (block_value b) s = Ret (select_block be (VString (tag_string (block_tag b))), s)) as ->
    by (destruct b; reflexivity).
  by rewrite (select_tag_ok be (block_tag b) Hf Ha Hb).
Qed.

(** What a selector resolves to is at or after the anchor and published, when the
    backend has no index of block hashes; nothing is requested. *)
Lemma resolve_bounds (be : RpcBackend S) selector :
  be_supports_block_hash_selector be = false →
  ∃ r, (∀ s, resolve_selector be selector s = Ret (r, s)) ∧
    ∀ n, r = Ok n → (be_anchor_number be <= n <= be_published_number be)%N.
Proof.
  intros Hh.
  assert (∀ v, ∀ n, select_block be v = Ok n → (be_anchor_number be <= n <= be_published_number be)%N) as Hs.
  { intros v n. unfold select_block. destruct (match v with VString _ => _ | _ => _ end) as [m|]; [|done].
    destruct (_ || _) eqn:E; [done|]. intros [= <-]. bool_prop. lia. }
  destruct selector; try (eexists; split; [reflexivity|apply Hs]). unfold resolve_selector.
  destruct (obj_get _ _); [destruct (contains_key _ _)|rewrite Hh]; (eexists; split; [reflexivity|]);
    [done|apply Hs|done].
Qed.

End selectors.

(** ** Tasks over a store *)

Section tasks.
Context `{Sha256, Keccak256, Hex, Zstd, HeadJson, ShardCache, RequestJson, !HexLaws, !ShardCacheLaws}.
Context (now : Z) (s : MemoryState).
Abbreviation exec := (run_prog (mem_handle now)).

(** [t] leaves the store alone, keeps the cache coherent, and its outcome satisfies [P]. *)
Definition answers {A} (t : SC → prog storeE (A * SC)) (P : A → Prop) : Prop :=
  ∀ c, cache_ok s c → ∃ a c', exec (t c) s = ((a, c'), s) ∧ cache_ok s c' ∧ P a.

Lemma answers_ret {A} (a : A) (P : A → Prop) : P a → answers (λ c, Ret (a, c)) P.
Proof. intros Ha c Hc. by exists a, c. Qed.
Lemma answers_weaken {A} (t : SC → prog storeE (A * SC)) (P Q : A → Prop) :
  answers t P → (∀ a, P a → Q a) → answers t Q.
Proof. intros Ht Hw c Hc. destruct (Ht c Hc) as (a & c' & E & Hc' & Ha). exists a, c'. eauto. Qed.
(** Sequencing. *)
Lemma answers_seq {A B} (t : SC → prog storeE (A * SC)) (k : A → SC → prog storeE (B * SC)) (P : A → Prop) (Q : B → Prop) :
  answers t P → (∀ a, P a → answers (k a) Q) → answers (λ c, let* (a, c) := t c in k a c) Q.
Proof.
  intros Ht Hk c Hc. destruct (Ht c Hc) as (a & c1 & E & Hc1 & Ha). rewrite run_prog_bind, E. by apply Hk.
Qed.
Lemma answers_bind {A B} (t : task A) (k : A → task B) (P : outcome A → Prop) (Q : outcome B → Prop) :
  answers t P → (∀ a, P (Success a) → answers (k a) Q) → (∀ e, P (Failure e) → Q (Failure e)) →
  answers (task_bind t k) Q.
Proof.
  intros Ht Hk Hf. apply (answers_seq t (λ r c, match r with Success a => k a c | Failure e => Ret (Failure e, c) end) P);
    [done|]. intros [a|e] Ha; [by apply Hk|]. by apply answers_ret, Hf.
Qed.
Lemma answers_call {A} (f : error → RpcError) (p : SC → prog storeE (result A * SC)) (P : result A → Prop) :
  answers p P →
  answers (task_call f p) (λ o, ∃ r, P r ∧ o = match r with Ok a => Success a | Err e => Failure (f e) end).
Proof.
  intros Hp c Hc. destruct (Hp c Hc) as (r & c' & E & Hc' & Hr). unfold task_call.
  rewrite run_prog_bind, E. eexists _, _. split_and!; [reflexivity|done|]. eauto.
Qed.

(** ** The reader's reads *)

Context (r : Reader) (h : Head) (rss : list (list RunRecord)).
Context (Hpin : pinned s r h rss).
Abbreviation hist := (concat rss).
Abbreviation number := (h_number h).
Abbreviation n := (len (rd_runs r)).
Abbreviation be := (reader_backend r).

Lemma be_published : be_published_number be = number.
Proof. cbn. unfold Reader_latest_block. by rewrite (pin_head _ _ _ _ Hpin). Qed.

(** The backend's read from the client's request of [ask]. *)
Lemma keep_ask {A} (f : A → Answer) (p : prog storeE (result A * RState)) x c :
  exec (let* (a, st) := p in Ret (result_map f a, st.2)) s = ((x, c), s) →
  ∃ res, exec (keep_cache p) s = ((res, c), s) ∧ x = result_map f res.
Proof.
  unfold keep_cache. rewrite !run_prog_bind. destruct (exec p s) as [[res st] s'].
  intros [= <- <- <-]. by exists res.
Qed.
Lemma result_map_inj {A} (f : A → Answer) (x y : result A) :
  (∀ a b, f a = f b → a = b) → result_map f x = result_map f y → x = y.
Proof. intros Hf. destruct x, y; cbn; intros [= E]; f_equal; auto. Qed.
Lemma result_map_over {A} (f : A → Answer) (x : result A) : over_budget (result_map f x) → over_budget x.
Proof. intros (e & E & He). exists e. destruct x; cbn in E; [done|]. split; congruence. Qed.

Lemma answers_account a block :
  answers (be_account_at be a block) (λ res, res = account_spec hist number a block).
Proof.
  intros c Hc. destruct (ask_ok now s r h rss Hpin (QAccount a block) c Hc) as (x & c' & E & Hc' & Hx).
  apply (keep_ask AAccount) in E as (res & E & ->). exists res, c'. split_and!; [done|done|].
  destruct Hx as [Hx|(_ & _ & [])]. revert Hx. apply result_map_inj. by intros ?? [= ->].
Qed.
Lemma answers_storage a slot block :
  answers (be_storage_at be a slot block)
    (λ res, res = storage_spec hist number a slot block ∨ (over_budget res ∧ (16 < n)%N)).
Proof.
  intros c Hc. destruct (ask_ok now s r h rss Hpin (QStorage a slot block) c Hc) as (x & c' & E & Hc' & Hx).
  apply (keep_ask AStorage) in E as (res & E & ->). exists res, c'. split_and!; [done|done|].
  destruct Hx as [Hx|(Hx%result_map_over & Hn & _)]; [left|by right].
  revert Hx. apply result_map_inj. by intros ?? [= ->].
Qed.
Lemma answers_code a block :
  answers (be_code_at be a block)
    (λ res, res = code_spec hist number a block ∨ (over_budget res ∧ (16 < n)%N)).
Proof.
  intros c Hc. destruct (ask_ok now s r h rss Hpin (QCode a block) c Hc) as (x & c' & E & Hc' & Hx).
  apply (keep_ask ACode) in E as (res & E & ->). exists res, c'. split_and!; [done|done|].
  destruct Hx as [Hx|(Hx%result_map_over & Hn & _)]; [left|by right].
  revert Hx. apply result_map_inj. by intros ?? [= ->].
Qed.
Lemma answers_resolve selector : ∃ res, answers (resolve_selector be selector) (λ res', res' = res).
Proof.
  destruct (resolve_bounds be selector eq_refl) as (res & E & _). exists res. intros c Hc. rewrite E.
  by exists res, c.
Qed.

(** ** Any request

    The outcome of a task depends on the store and not on what is cached, unless
    the head has so many runs that the budget can run out. *)

Definition settled {A} (t : SC → prog storeE (A * SC)) : Prop := ∃ a, answers t (λ a', a' = a ∨ (16 < n)%N).

Lemma settled_ret {A} (a : A) : settled (λ c, Ret (a, c)).
Proof. exists a. apply answers_ret. by left. Qed.
Lemma settled_seq {A B} (t : SC → prog storeE (A * SC)) (k : A → SC → prog storeE (B * SC)) :
  settled t → (∀ a, settled (k a)) → settled (λ c, let* (a, c) := t c in k a c).
Proof.
  intros [a Ht] Hk. destruct (Hk a) as [b Hb]. exists b. eapply answers_seq; [exact Ht|].
  intros a' [->|Hn]; [done|]. destruct (Hk a') as [b' Hb']. eapply answers_weaken; [exact Hb'|]. by right.
Qed.
Lemma settled_bind {A B} (t : task A) (k : A → task B) :
  settled t → (∀ a, settled (k a)) → settled (task_bind t k).
Proof. intros Ht Hk. apply settled_seq; [done|]. intros [a|e]; [apply Hk|apply settled_ret]. Qed.
Lemma settled_call {A} f (p : SC → prog storeE (result A * SC)) : settled p → settled (task_call f p).
Proof. intros Hp. apply (settled_seq p (λ r c, Ret (match r with Ok a => Success a | Err e => Failure (f e) end, c))); [done|]. intros a. apply settled_ret. Qed.

Lemma settled_account a block : settled (be_account_at be a block).
Proof. eexists. eapply answers_weaken; [apply answers_account|]. by left. Qed.
Lemma settled_storage a slot block : settled (be_storage_at be a slot block).
Proof. eexists. eapply answers_weaken; [apply answers_storage|]. intros res [->|[_ Hn]]; [by left|by right]. Qed.
Lemma settled_code a block : settled (be_code_at be a block).
Proof. eexists. eapply answers_weaken; [apply answers_code|]. intros res [->|[_ Hn]]; [by left|by right]. Qed.
Lemma settled_resolve selector : settled (resolve_selector be selector).
Proof. destruct (answers_resolve selector) as [res Hr]. exists res. eapply answers_weaken; [exact Hr|]. by left. Qed.

Create HintDb settled.
#[local] Hint Resolve settled_ret settled_bind settled_call settled_account settled_storage settled_code settled_resolve : settled.
Ltac settle := repeat first [apply settled_bind; [|intros ?] | apply settled_call | solve [auto with settled]].

Lemma settled_dispatch request : settled (dispatch be request).
Proof.
  unfold dispatch, dispatch_account, dispatch_storage, task_ret, task_fail, lift.
  repeat case_match; settle. all: repeat case_match; settle.
Qed.
Lemma settled_value value : settled (handle_value be value).
Proof.
  unfold handle_value. destruct (request_from_value value) as [request|]; [|apply settled_ret].
  case_bool_decide; [|apply settled_ret].
  apply (settled_seq (dispatch be request) (λ r c, Ret (_, c))); [apply settled_dispatch|]. intros a. apply settled_ret.
Qed.

(** A batch is answered request by request. *)
Lemma answers_all {X} (enc : X → Value) (requests : list X) (P : X → Value → Prop) :
  (∀ x, x ∈ requests → answers (handle_value be (enc x)) (P x)) →
  answers (handle_all be (map enc requests)) (Forall2 P requests).
Proof.
  induction requests as [|x requests IH]; intros Hv; [apply answers_ret; constructor|].
  apply (answers_seq (handle_value be (enc x))
    (λ response c, let* (responses, c) := handle_all be (map enc requests) c in Ret (response :: responses, c)) (P x));
    [apply Hv; constructor|]. intros response Hr.
  apply (answers_seq (handle_all be (map enc requests)) (λ responses c, Ret (response :: responses, c)) (Forall2 P requests)).
  - apply IH. intros w Hw. apply Hv. by constructor.
  - intros responses Hrs. apply answers_ret. by constructor.
Qed.
Lemma answers_list requests responses :
  Forall2 (λ v response, answers (handle_value be v) (λ x, x = response)) requests responses →
  answers (handle_all be requests) (λ l, l = responses).
Proof.
  induction 1 as [|v response requests responses Hv _ IH]; [by apply answers_ret|].
  apply (answers_seq (handle_value be v)
    (λ response c, let* (responses, c) := handle_all be requests c in Ret (response :: responses, c)) (λ x, x = response));
    [done|]. intros ? ->.
  apply (answers_seq (handle_all be requests) (λ responses c, Ret (response :: responses, c)) (λ l, l = responses)); [done|].
  intros ? ->. by apply answers_ret.
Qed.
End tasks.
