(* ===== verification/RpcTheorems.v ===== *)
(** * What the RPC server answers

    A running server is a reader pinned to a head, replaced by the refresh task.
    Its responses to well-formed calls are those of the history of a head that was
    published, whatever requests it served before. *)

From stdpp Require Import pretty.
From S2P Require Import Prelude Bytes Text Externals Hash RunFormat RunReader Json Head HeadFacts Store CompactFacts Format FormatFacts Tiered TieredReader ReaderFacts ReaderTheorems Rpc RpcFacts.
From Stdlib Require Import Lia ZArith.

Section calls.
Context `{Sha256, Keccak256, Hex, Zstd, HeadJson, ShardCache, RequestJson}.
Context `{!HexLaws, !HexCanon, !ShardCacheLaws, !RequestJsonLaws}.
Context (now : Z) (s : MemoryState) (r : Reader) (h : Head) (rss : list (list RunRecord)).
Context (Hpin : pinned s r h rss).
Abbreviation hist := (concat rss).
Abbreviation be := (reader_backend r).
Abbreviation answers := (answers now s).

Definition outcome_string (o : outcome string) : outcome Value :=
  match o with Success text => Success (VString text) | Failure e => Failure e end.
(** What may happen to a call. *)
Definition call_ok (call : Call) (o : outcome Value) : Prop :=
  o = outcome_string (call_spec hist h call) ∨
  (∃ e, root_cause e = Msg budget_message ∧ o = Failure (rpc_state e) ∧ (16 < len (rd_runs r))%N ∧
        match call with GetCode _ _ | GetStorageAt _ _ _ _ => True | _ => False end).

(** The end of a method: a read at the selected block, then the text of its value. *)
Lemma answers_at_block {A} (b : BlockParam) (read : N → SC → prog storeE (result A * SC))
    (k : N → A → task Value) (Q : outcome Value → Prop) :
  block_wf b →
  ((h_number h < block_of (h_number h) b)%N → Q (Failure {| re_code := -32001; re_message := "block unavailable" |})) →
  ((block_of (h_number h) b <= h_number h)%N →
   answers (task_bind (task_call rpc_state (read (block_of (h_number h) b))) (k (block_of (h_number h) b))) Q) →
  answers (task_bind (task_call rpc_selector (resolve_selector be (block_value b))) (λ block,
     task_bind (task_call rpc_state (read block)) (k block))) Q.
Proof.
  intros Hb Hout Hin c Hc.
  assert (∀ c, task_call rpc_selector (resolve_selector be (block_value b)) c =
    Ret (if (h_number h <? block_of (h_number h) b)%N then Failure {| re_code := -32001; re_message := "block unavailable" |}
         else Success (block_of (h_number h) b), c)) as E.
  { intros c'. unfold task_call. rewrite (resolve_ok be b c' eq_refl eq_refl Hb), (be_published s r h rss Hpin). cbn [bind].
    by destruct (_ <? _)%N. }
  unfold task_bind at 1. rewrite E. cbn [bind]. destruct (_ <? _)%N eqn:El; bool_prop.
  - eexists _, c. split_and!; [reflexivity|done|auto].
  - by apply Hin.
Qed.

Lemma answers_lift {A B} (o : outcome A) a (k : A → task B) Q :
  o = Success a → answers (k a) Q → answers (task_bind (lift o) k) Q.
Proof. by intros ->. Qed.

Lemma at_block_out b k : (h_number h < block_of (h_number h) b)%N →
  at_block (h_number h) b k = Failure {| re_code := -32001; re_message := "block unavailable" |}.
Proof. intros Hb. unfold at_block. by rewrite (proj2 (N.ltb_lt _ _)). Qed.
Lemma at_block_in b k : (block_of (h_number h) b <= h_number h)%N →
  at_block (h_number h) b k = match k (block_of (h_number h) b) with Ok text => Success text | Err e => Failure (rpc_state e) end.
Proof. intros Hb. unfold at_block. by rewrite (proj2 (N.ltb_ge _ _)). Qed.

(** The account methods whose answer is a field of the account. *)
Lemma answers_field a b method text :
  block_wf b → (method = "eth_getBalance" ∧ text = balance_text ∨ method = "eth_getTransactionCount" ∧ text = nonce_text) →
  answers (dispatch_account be method (VArray [VString (address_to_string a); block_value b]))
    (λ o, o = outcome_string (at_block (h_number h) b (λ block, result_map text (account_spec hist (h_number h) a block)))).
Proof.
  intros Hb Hm. unfold dispatch_account. eapply answers_lift; [reflexivity|].
  eapply answers_lift; [apply parse_address_ok|]. apply (answers_at_block b); [done|intros Hn; by rewrite at_block_out|].
  intros Hn. rewrite at_block_in by done.
  eapply answers_bind; [apply answers_call, answers_account, Hpin| |].
  - intros account (res & -> & E). destruct (account_spec _ _ _ _) as [acc|]; [|done]. injection E as ->.
    destruct Hm as [[-> ->]|[-> ->]]; decide_strings; apply answers_ret; reflexivity.
  - intros e (res & -> & E). destruct (account_spec _ _ _ _); [done|]. by injection E as ->.
Qed.

(** A last read that can run out of budget. *)
Lemma answers_printed {A} call (p : SC → prog storeE (result A * SC)) (spec : result A) (text : A → string) :
  answers p (λ res, res = spec ∨ (over_budget res ∧ (16 < len (rd_runs r))%N)) →
  match call with GetCode _ _ | GetStorageAt _ _ _ _ => True | _ => False end →
  call_spec hist h call = match result_map text spec with Ok t => Success t | Err e => Failure (rpc_state e) end →
  answers (task_bind (task_call rpc_state p) (λ v, task_ret (VString (text v)))) (call_ok call).
Proof.
  intros Hp Hcall Hspec. eapply answers_bind; [apply answers_call, Hp| |].
  - intros v (res & [->|[(e & -> & _) _]] & E); [|done]. destruct spec as [x|]; [|done]. injection E as ->.
    apply answers_ret. left. by rewrite Hspec.
  - intros e (res & [->|[(e' & -> & He) Hn]] & E).
    + destruct spec as [x|]; [done|]. injection E as ->. left. by rewrite Hspec.
    + injection E as ->. right. by exists e'.
Qed.

Lemma code_spec_account a block e : account_spec hist (h_number h) a block = Err e → code_spec hist (h_number h) a block = Err e.
Proof. unfold code_spec. by intros ->. Qed.

Lemma answers_get_code a b :
  block_wf b → answers (dispatch_account be "eth_getCode" (VArray (call_params (GetCode a b)))) (call_ok (GetCode a b)).
Proof.
  intros Hb. unfold dispatch_account. eapply answers_lift; [reflexivity|].
  eapply answers_lift; [apply parse_address_ok|].
  apply (answers_at_block b); [done|intros Hn; left; cbn [call_spec]; by rewrite at_block_out|].
  intros Hn. eapply answers_bind; [apply answers_call, answers_account, Hpin| |].
  - intros account (res & -> & E). decide_strings.
    eapply answers_printed; [apply answers_code, Hpin|done|]. cbn [call_spec]. by rewrite at_block_in.
  - intros e (res & -> & E). left. cbn [call_spec]. rewrite at_block_in by done.
    destruct (account_spec _ _ _ _) as [|e'] eqn:Ea; [done|]. injection E as ->. by rewrite (code_spec_account _ _ _ Ea).
Qed.

Lemma answers_get_storage a slot short b :
  block_wf b →
  answers (dispatch_storage be (VArray (call_params (GetStorageAt a slot short b)))) (call_ok (GetStorageAt a slot short b)).
Proof.
  intros Hb. unfold dispatch_storage. eapply answers_lift; [reflexivity|].
  eapply answers_lift; [apply parse_address_ok|]. eapply answers_lift; [apply parse_slot_ok|].
  apply (answers_at_block b); [done|intros Hn; left; cbn [call_spec]; by rewrite at_block_out|].
  intros Hn. eapply answers_printed; [apply answers_storage, Hpin|done|]. cbn [call_spec]. by rewrite at_block_in.
Qed.

Lemma answers_dispatch id call :
  call_wf call →
  answers (dispatch be {| rq_jsonrpc := Some "2.0"; rq_id := id; rq_method := call_method call;
                          rq_params := VArray (call_params call) |}) (call_ok call).
Proof.
  intros Hw. unfold dispatch. cbn [rq_method rq_params]. pose proof (pin_head _ _ _ _ Hpin) as Hh.
  destruct call as [| | |a b|a b|a b|a slot short b]; cbn [call_method]; decide_strings.
  - apply answers_ret. by left.
  - apply answers_ret. left. cbn. unfold Reader_chain_id. by rewrite Hh.
  - apply answers_ret. left. cbn. unfold Reader_latest_block. by rewrite Hh.
  - eapply answers_weaken; [apply (answers_field a b _ balance_text); [done|by left]|]. by left.
  - eapply answers_weaken; [apply (answers_field a b _ nonce_text); [done|by right]|]. by left.
  - by apply answers_get_code.
  - by apply answers_get_storage.
Qed.

Context (Hlen : len (rd_runs r) = len (runs h)).

Lemma answers_value id call :
  call_wf call → answers (handle_value be (request_value id call)) (response_ok hist h (id, call)).
Proof.
  intros Hw. unfold handle_value, request_value. rewrite request_fields. cbn [rq_jsonrpc rq_id].
  rewrite bool_decide_eq_true_2 by done.
  eapply (answers_seq _ _ (dispatch be _) (λ o c, Ret (match o with Success v => rpc_result id v | Failure e => rpc_error id (re_code e) (re_message e) end, c)));
    [by apply answers_dispatch|].
  intros o [->|(e & He & -> & Hn & Hc)]; apply answers_ret; [left|right].
  - cbn [fst snd]. by destruct (call_spec _ _ _).
  - exists e. split_and!; [done|done|by rewrite <-Hlen|done].
Qed.

Lemma answers_batch limit (l : list (Value * Call)) :
  l ≠ [] → (len l <= limit)%N → Forall (λ p, call_wf p.2) l →
  answers (handle_rpc_backend be (VArray (map (λ p, request_value p.1 p.2) l)) limit)
    (λ v, ∃ responses, v = VArray responses ∧ Forall2 (response_ok hist h) l responses).
Proof.
  intros Hl Hlim Hw. unfold handle_rpc_backend.
  rewrite bool_decide_eq_false_2 by (by destruct l). unfold len in *. rewrite length_map.
  rewrite (proj2 (N.ltb_ge _ _)) by done. cbn [orb].
  apply (answers_seq _ _ (handle_all be _) (λ responses c, Ret (VArray responses, c)) (Forall2 (response_ok hist h) l)).
  - apply answers_all. intros [id call] Hin. rewrite Forall_forall in Hw. by apply answers_value, (Hw _ Hin).
  - intros responses HF. apply answers_ret. by exists responses.
Qed.
End calls.

(** ** The running server *)

Section server.
Context `{Sha256, Keccak256, Hex, Zstd, HeadJson, ShardCache, RequestJson}.
Context (now : Z) (chain_id : N) (interval : option N) (batch_limit : N).
Abbreviation exec := (run_prog (mem_handle now)).
Abbreviation step := (server_step chain_id interval batch_limit).

(** The states of a server, with the store and the heads it held at the events:
    the start, the growth of the store by other processes, and any event. *)
Inductive server_run : MemoryState → list (Head * list (list RunRecord)) → Server → Prop :=
| run_start s h rss server s' :
    archive s chain_id h rss → exec (Reader_open chain_id) s = (Ok server, s') → server_run s' [(h, rss)] server
| run_grow s seen server s' : server_run s seen server → keeps s s' → server_run s' seen server
| run_event s seen server h rss event reply server' s' :
    server_run s seen server → archive s chain_id h rss →
    exec (step event server) s = ((reply, server'), s') → server_run s' ((h, rss) :: seen) server'.

(** The reader of a server is pinned to one of the heads. *)
Record serving (s : MemoryState) (h : Head) (rss : list (list RunRecord)) (server : Server) : Prop := {
  sv_pinned : pinned s server.1 h rss;
  sv_runs : len (rd_runs server.1) = len (runs h);
  sv_cache : cache_ok s server.2
}.

(** One turn of the refresh task, on any store. *)
Lemma refresh_monotone current s next s' :
  exec (refresh chain_id current) s = (next, s') → (Reader_latest_block current.1 <= Reader_latest_block next.1)%N.
Proof.
  unfold refresh. rewrite run_prog_bind. destruct (exec (Reader_open chain_id) s) as [[candidate|] s1].
  - destruct (_ <? _)%N eqn:E; [by intros [= <- _]|]. bool_prop. destruct (negb _); by intros [= <- _].
  - by intros [= <- _].
Qed.

Lemma serve_reader value current s response next s' :
  exec (serve_request batch_limit value current) s = ((response, next), s') → next.1 = current.1.
Proof.
  unfold serve_request. rewrite run_prog_bind. destruct (exec (handle_rpc_backend _ _ _ _) s) as [[v c] s1].
  by intros [= _ <- _].
Qed.

Context `{!HexLaws, !ShardCacheLaws}.

Lemma open_serving s h rss :
  archive s chain_id h rss →
  ∃ server e, exec (Reader_open chain_id) s = (Ok server, s) ∧ serving s h rss server ∧
    ms_entries s !! head_key chain_id = Some e ∧ Reader_head_digest server.1 = digest (me_bytes e).
Proof.
  intros Ha. destruct (open_ok now s chain_id h rss Ha) as (r & c & E & Hpin & Hc).
  destruct (read_head_ok now s chain_id h rss Ha) as (e & He & _ & Er).
  exists (r, c), e. split_and!; [done| |done|].
  - split; [done| |done]. pose proof (Forall2_length _ _ _ (pin_runs _ _ _ _ Hpin)) as E1.
    pose proof (Forall2_length _ _ _ (ar_runs _ _ _ _ Ha)) as E2. unfold len. cbn [fst]. lia.
  - unfold Reader_open in E. rewrite run_prog_bind, Er in E. cbn [ok_or] in E.
    destruct (open_runs (runs h)); [|done]. by injection E as <- _.
Qed.

Lemma serving_mono s s' h rss server : keeps s s' → serving s h rss server → serving s' h rss server.
Proof. intros Hk [Hp Hl Hc]. split; [by eapply pinned_mono|done|by eapply cache_ok_mono]. Qed.

(** Any request leaves the store alone and the server pinned. *)
Lemma serve_any value s h rss server :
  serving s h rss server →
  ∃ response server', exec (serve_request batch_limit value server) s = ((response, server'), s) ∧ serving s h rss server'.
Proof.
  intros [Hp Hl Hc]. destruct server as [r c]. unfold serve_request. cbn [fst snd] in *.
  assert (answers now s (handle_rpc_backend (reader_backend r) value batch_limit) (λ _, True)) as Hv.
  { assert (∀ v, answers now s (handle_value (reader_backend r) v) (λ _, True)) as Hone.
    { intros v. destruct (settled_value now s r h rss Hp v) as [a Ha]. by eapply answers_weaken. }
    unfold handle_rpc_backend. destruct value as [| | | |l|]; try apply Hone.
    destruct (_ || _); [by apply answers_ret|].
    apply (answers_seq _ _ (handle_all (reader_backend r) l) (λ responses c, Ret (VArray responses, c)) (λ _, True));
      [|intros l' _; by apply answers_ret].
    rewrite <-(map_id l). eapply answers_weaken; [apply (answers_all now s r id l (λ _ _, True)); auto|done]. }
  destruct (Hv c Hc) as (v & c' & E & Hc' & _). rewrite run_prog_bind, E.
  eexists _, _. split; [reflexivity|]. by split.
Qed.

Lemma refresh_serving s h rss h' rss' server :
  serving s h rss server → archive s chain_id h' rss' →
  ∃ server' e, exec (refresh chain_id server) s = (server', s) ∧
    (serving s h rss server' ∨ serving s h' rss' server') ∧
    ms_entries s !! head_key chain_id = Some e ∧
    ((h_number h' < h_number h)%N ∧ server' = server ∨ Reader_head_digest server'.1 = digest (me_bytes e)).
Proof.
  intros Hs Ha. destruct (open_serving s h' rss' Ha) as (candidate & e & E & Hs' & He & Hd).
  unfold refresh. rewrite run_prog_bind, E.
  assert (Reader_latest_block candidate.1 = h_number h') as -> by (unfold Reader_latest_block; by rewrite (pin_head _ _ _ _ (sv_pinned _ _ _ _ Hs'))).
  assert (Reader_latest_block server.1 = h_number h) as -> by (unfold Reader_latest_block; by rewrite (pin_head _ _ _ _ (sv_pinned _ _ _ _ Hs))).
  destruct (_ <? _)%N eqn:El; bool_prop; [exists server, e; split_and!; [done|by left|done|by left]|].
  case_bool_decide as Eq; cbn [negb].
  - exists server, e. split_and!; [done|by left|done|right; by rewrite <-Eq].
  - exists candidate, e. split_and!; [done|by right|done|by right].
Qed.

(** Any event leaves the store alone and the server pinned. *)
Lemma step_serving event s h rss h' rss' server :
  serving s h rss server → archive s chain_id h' rss' →
  ∃ reply server', exec (step event server) s = ((reply, server'), s) ∧
    (serving s h rss server' ∨ serving s h' rss' server').
Proof.
  intros Hs Ha. destruct event as [|value| |]; cbn [server_step].
  - destruct (refreshing interval); [|by eauto]. rewrite run_prog_bind.
    destruct (refresh_serving _ _ _ _ _ _ Hs Ha) as (next & e & -> & Hn & _). by eexists _, _.
  - rewrite run_prog_bind. destruct (serve_any value _ _ _ _ Hs) as (v & next & -> & Hn). eexists _, _. by split; [|left].
  - by eauto.
  - by eauto.
Qed.

(** The invariant of a running server. *)
Lemma server_run_serving s seen server :
  server_run s seen server → ∃ h rss, (h, rss) ∈ seen ∧ serving s h rss server.
Proof.
  induction 1 as [s h rss server s' Ha E|s seen server s' _ (h & rss & Hin & Hs) Hk|s seen server h rss event reply server' s' _ (h0 & rss0 & Hin & Hs) Ha E].
  - destruct (open_serving s h rss Ha) as (server' & e & E' & Hs & _). rewrite E' in E. injection E as <- <-.
    exists h, rss. split; [constructor|done].
  - exists h, rss. split; [done|]. by eapply serving_mono.
  - destruct (step_serving event _ _ _ _ _ _ Hs Ha) as (reply' & next & E' & Hn). rewrite E' in E.
    injection E as _ <- <-. destruct Hn as [Hn|Hn]; eexists _, _; (split; [|exact Hn]); by constructor.
Qed.

(** C3: a running server refines the published histories.  After any events (ticks,
    requests of any kind, a growing store) it answers a batch of well-formed calls
    in order, each with its id, with the printed state of the history of one head
    that was in the store; a read above that head is answered by the error
    -32001, and only storage and code reads over more than 16 runs can fail by
    the request budget. *)
Theorem server_refines_history s seen server l `{!HexCanon, !RequestJsonLaws} :
  server_run s seen server →
  l ≠ [] → (len l <= batch_limit)%N → Forall (λ p, call_wf p.2) l →
  ∃ responses server' h rss,
    exec (step (PostRoot (VArray (map (λ p, request_value p.1 p.2) l))) server) s =
      ((ReplyJson (VArray responses), server'), s) ∧
    (h, rss) ∈ seen ∧ Reader_latest_block server.1 = h_number h ∧
    Forall2 (response_ok (concat rss) h) l responses.
Proof.
  intros Hr Hl Hlim Hw. destruct (server_run_serving s seen server Hr) as (h & rss & Hin & [Hp Hn Hc]).
  destruct (answers_batch now s server.1 h rss Hp Hn batch_limit l Hl Hlim Hw server.2 Hc) as (v & c' & E & _ & responses & -> & HF).
  exists responses, (server.1, c'), h, rss. cbn [server_step]. unfold serve_request.
  rewrite !run_prog_bind, E. split_and!; [done|done| |done].
  unfold Reader_latest_block. by rewrite (pin_head _ _ _ _ Hp).
Qed.

(** C23: the published block of a server never decreases, whatever the store holds
    or answers; and a turn of the ticker on an archive adopts its head (the same
    digest), unless that head is behind the published one. *)
Theorem server_never_rolls_back s event server reply server' s' :
  exec (step event server) s = ((reply, server'), s') →
  (Reader_latest_block server.1 <= Reader_latest_block server'.1)%N ∧
  (∀ seen h rss, server_run s seen server → archive s chain_id h rss → event = Tick → refreshing interval = true →
     ∃ e, ms_entries s !! head_key chain_id = Some e ∧
       ((h_number h < Reader_latest_block server.1)%N ∧ server' = server ∨
        Reader_head_digest server'.1 = digest (me_bytes e))).
Proof.
  intros E. split.
  - destruct event as [|value| |]; cbn [server_step] in E; [destruct (refreshing interval)| | |];
      try (injection E as _ <- _; done); rewrite run_prog_bind in E.
    + destruct (exec (refresh _ _) s) as [next s1] eqn:Er. injection E as _ <- _. by eapply refresh_monotone.
    + destruct (exec (serve_request _ _ _) s) as [[v next] s1] eqn:Er. injection E as _ <- _.
      by rewrite (serve_reader _ _ _ _ _ _ Er).
  - intros seen h rss Hr Ha -> Hi. destruct (server_run_serving s seen server Hr) as (h0 & rss0 & _ & Hs).
    destruct (refresh_serving _ _ _ _ _ _ Hs Ha) as (next & e & Er & _ & He & Hd).
    cbn [server_step] in E. rewrite Hi, run_prog_bind, Er in E. injection E as _ <- _. exists e. split; [done|].
    unfold Reader_latest_block. by rewrite (pin_head _ _ _ _ (sv_pinned _ _ _ _ Hs)).
Qed.

(** C24: a batch is the list of its requests.  When the head of the server has at
    most 16 runs, each request of any batch has one response, which does not depend
    on what is cached, and the batch is answered by those responses in order. *)
Theorem batch_is_pointwise s seen server requests :
  server_run s seen server → (len (rd_runs server.1) <= 16)%N →
  requests ≠ [] → (len requests <= batch_limit)%N →
  ∃ responses, Forall2 (λ v response, answers now s (handle_value (reader_backend server.1) v) (λ x, x = response)) requests responses ∧
    answers now s (handle_rpc_backend (reader_backend server.1) (VArray requests) batch_limit) (λ x, x = VArray responses).
Proof.
  intros Hr Hn Hl Hlim. destruct (server_run_serving s seen server Hr) as (h & rss & _ & [Hp _ _]).
  set (be := reader_backend server.1).
  assert (∀ v, ∃ response, answers now s (handle_value be v) (λ x, x = response)) as Hv.
  { intros v. destruct (settled_value now s server.1 h rss Hp v) as [a Ha]. exists a. eapply answers_weaken; [exact Ha|].
    intros x [->|Hx]; [done|lia]. }
  assert (∃ responses, Forall2 (λ v response, answers now s (handle_value be v) (λ x, x = response)) requests responses) as [responses HF].
  { clear -Hv; induction requests as [|v requests [responses IH]]; [by exists []|].
    destruct (Hv v) as [response Hresp]. exists (response :: responses). by constructor. }
  exists responses. split; [done|]. unfold handle_rpc_backend.
  rewrite bool_decide_eq_false_2 by done. rewrite (proj2 (N.ltb_ge _ _)) by done. cbn [orb].
  apply (answers_seq _ _ (handle_all be requests) (λ l c, Ret (VArray l, c)) (λ l, l = responses)); [by apply answers_list|].
  intros l ->. by apply answers_ret.
Qed.
End server.

(** ** Selectors *)

Section selector.
Context `{Sha256, Keccak256, Hex, Zstd, HeadJson, ShardCache}.

(** The text of a selector: a string, or the [blockNumber] of an object without [blockHash]. *)
Definition selector_text (selector : Value) (t : string) : Prop :=
  selector = VString t ∨
  ∃ object, selector = VObject object ∧ obj_get "blockNumber" object = Some (VString t) ∧ obj_get "blockHash" object = None.
Definition text_selects (published : N) (t : string) (n : N) : Prop :=
  ((t = "latest" ∨ t = "safe" ∨ t = "finalized") ∧ n = published) ∨ (t = "earliest" ∧ n = 0%N) ∨ parse_quantity t = Ok n.

Lemma select_block_reader r v n :
  select_block (reader_backend r) v = Ok n ↔
  ∃ t, v = VString t ∧ (n <= Reader_latest_block r)%N ∧ text_selects (Reader_latest_block r) t n.
Proof.
  assert (∀ t, select_number (reader_backend r) t = Ok n ↔ text_selects (Reader_latest_block r) t n) as Hsel.
  { intros t. unfold select_number, text_selects. cbn [be_published_number be_finalized be_anchor_number reader_backend negb].
    repeat case_bool_decide; subst; cbn [orb]; try (split; [intros [= <-]; tauto|intros [[_ ->]|[[E _]|E]]; done]).
    - rewrite N.eqb_refl. split; [intros [= <-]; tauto|]. intros [[[E|[E|E]] _]|[[_ ->]|E]]; done.
    - split; [done|]. intros [[[E|[E|E]] _]|[[E _]|E]]; done.
    - split; [tauto|]. intros [[[E|[E|E]] _]|[[E _]|E]]; done. }
  unfold select_block. cbn [be_published_number be_anchor_number reader_backend].
  split.
  - destruct v as [| | |t| |]; try done. destruct (select_number _ t) as [m|] eqn:E; [|done].
    destruct (_ || _) eqn:Eb; [done|]. intros [= ->]. bool_prop. exists t. split_and!; [done|done|by apply Hsel].
  - intros (t & -> & Hn & Ht). apply Hsel in Ht. rewrite Ht.
    rewrite (proj2 (N.ltb_ge n 0)) by lia. by rewrite (proj2 (N.ltb_ge _ n)).
Qed.

(** C25: what a block selector means.  It resolves to a block exactly when its text is
    a tag or a quantity and the block is published; the object form is refused when
    it names a block hash.  No request is issued. *)
Theorem selector_exact r selector n c :
  resolve_selector (reader_backend r) selector c = Ret (Ok n, c) ↔
  ∃ t, selector_text selector t ∧ (n <= Reader_latest_block r)%N ∧ text_selects (Reader_latest_block r) t n.
Proof.
  assert (∀ v, Ret (select_block (reader_backend r) v, c) = Ret (E := storeE) (Ok n, c) ↔
    ∃ t, v = VString t ∧ (n <= Reader_latest_block r)%N ∧ text_selects (Reader_latest_block r) t n) as Hs.
  { intros v. rewrite <-select_block_reader. split; [by intros [= ->]|by intros ->]. }
  unfold selector_text. destruct selector as [| | |t|l|object].
  1-3,5: cbn [resolve_selector]; rewrite Hs; split; [intros (t & E & _); discriminate|];
    intros (t & [E|(o & E & _)] & _); discriminate.
  - cbn [resolve_selector]. rewrite Hs. split.
    + intros (t' & [= <-] & Hn & Ht). exists t. eauto.
    + intros (t' & [E|(o & E & _)] & Hn & Ht); [|discriminate]. injection E as <-. eauto.
  - unfold resolve_selector. destruct (obj_get "blockNumber" object) as [v|] eqn:En.
    + unfold contains_key. destruct (obj_get "blockHash" object) as [w|] eqn:Eh.
      * split; [discriminate|]. intros (t & [E|(o & E & Ho & Hh)] & _); [discriminate|]. injection E as <-. congruence.
      * rewrite Hs. split.
        -- intros (t & -> & Hn & Ht). exists t. split; [right; by exists object|done].
        -- intros (t & [E|(o & E & Ho & Hh)] & Hn & Ht); [discriminate|]. injection E as <-.
           exists t. split; [congruence|done].
    + split; [discriminate|]. intros (t & [E|(o & E & Ho & Hh)] & _); [discriminate|]. injection E as <-. congruence.
Qed.
End selector.
