(* ===== verification/Worker.v ===== *)
(** * [worker/src/core.rs]: the bounded reader of the edge worker

    One request's pinned view of the archive.  Where the native reader has a
    budget per read and a shared cache, this one charges every GET of the request
    to one budget, from the head on, and memoizes shards in a map.  The trait
    [ObjectStore] is the type of requests [objE].  [usize] is 32 bits wide on
    the worker's target. *)

From Stdlib Require Import Strings.Ascii.
From S2P Require Import Prelude Bytes Text Externals Hash RunFormat RunReader Head Summary Format Json.
From Stdlib Require Import Lia.

Definition MAX_REMOTE_GETS : N := 192.
Definition WORKER_REQUEST_BYTES : N := 128 * 1024 * 1024.
Definition MAX_OBJECT_BYTES : N := 1024 * 1024.
Definition EMPTY_CODE_HASH : Hash32 := default zero_hash (to_array 32
  [Byte.xc5; Byte.xd2; Byte.x46; Byte.x01; Byte.x86; Byte.xf7; Byte.x23; Byte.x3c;
   Byte.x92; Byte.x7e; Byte.x7d; Byte.xb2; Byte.xdc; Byte.xc7; Byte.x03; Byte.xc0;
   Byte.xe5; Byte.x00; Byte.xb6; Byte.x53; Byte.xca; Byte.x82; Byte.x27; Byte.x3b;
   Byte.x7b; Byte.xfa; Byte.xd8; Byte.x04; Byte.x5d; Byte.x85; Byte.xa4; Byte.x70]).

(** ** [core::Result] *)

Inductive aresult (A : Type) := AOk (a : A) | AErr (e : ArchiveError) | APanic (reason : string).
Arguments AOk {A} a.
Arguments AErr {A} e.
Arguments APanic {A} reason.

Notation "'let~?' x := c 'in' k" :=
  (match c with AOk x => k | AErr e => AErr e | APanic r => APanic r end)
  (at level 10, x pattern, c at level 100, k at level 200) : fossil_scope.
Definition aok_or {A} (o : option A) (e : ArchiveError) : aresult A :=
  match o with Some a => AOk a | None => AErr e end.

(** [anyhow::Error::downcast::<ArchiveError>()]: contexts are looked through. *)
Fixpoint downcast (e : error) : option ArchiveError :=
  match e with Archive a => Some a | Ctx _ e => downcast e | Msg _ | Panic _ => None end.
Fixpoint panicked (e : error) : option string :=
  match e with Panic r => Some r | Ctx _ e => panicked e | Msg _ | Archive _ => None end.
(** [impl From<anyhow::Error> for ArchiveError], applied by [?]. *)
Definition from_anyhow {A} (r : result A) : aresult A :=
  match r with
  | Ok a => AOk a
  | Err e => match panicked e with Some reason => APanic reason | None => AErr (default Integrity (downcast e)) end
  end.

(** ** Requests of one reader *)

Inductive objE : Type → Type := ObjGet (key : string) (maximum : N) : objE (aresult bytes).

(** The cells [gets], [fetched] and [shards]. *)
Record WState := { w_gets : N; w_fetched : N; w_shards : gmap string Shard }.
Definition wstate_start : WState := {| w_gets := 0; w_fetched := 0; w_shards := ∅ |}.

Definition wreading (A : Type) : Type := WState → prog objE (aresult A * WState).
Definition wret {A} (r : aresult A) : wreading A := λ w, Ret (r, w).
Definition wbind {A B} (p : wreading A) (k : A → wreading B) : wreading B :=
  λ w, bind (p w) (λ '(r, w),
    match r with AOk a => k a w | AErr e => Ret (AErr e, w) | APanic m => Ret (APanic m, w) end).
Notation "'let~' x := c 'in' k" :=
  (wbind c (λ x, k)) (at level 10, x pattern, c at level 100, k at level 200) : fossil_scope.
(** [?] on a pure result. *)
Notation "'let~!' x := c 'in' k" :=
  (wbind (wret c) (λ x, k)) (at level 10, x pattern, c at level 100, k at level 200) : fossil_scope.

(** [struct Account] *)
Record WAccount := {
  wa_exists : bool;
  wa_incarnation : N;
  wa_nonce : N;
  wa_balance : array 32;
  wa_code_hash : Hash32
}.
(** [struct Reader] without its cells and its store. *)
Record WReader := { wr_prefix : string; wr_head : Head; wr_runs : list (Run * RunReader) }.

Section worker.
Context `{Sha256, Keccak256, Hex, Zstd, HeadJson}.

(** [Reader::get] *)
Definition w_get (key : string) (maximum : N) : wreading bytes := λ w,
  let gets := wrapping_add64 (w_gets w) 1 in
  let fetched := wrapping_add64 (w_fetched w) maximum in
  if (MAX_REMOTE_GETS <? gets)%N || (WORKER_REQUEST_BYTES <? fetched)%N then Ret (AErr Limit, w)
  else
    let* r := request (ObjGet key maximum) in
    Ret (r, {| w_gets := gets; w_fetched := fetched; w_shards := w_shards w |}).

(** [Reader::object] *)
Definition w_object (prefix : string) (reference : ObjectRef) : wreading bytes :=
  let length := ref_length reference in
  if (length =? 0)%N || (MAX_OBJECT_BYTES <? length)%N then wret (AErr Integrity)
  else
    let~ b := w_get (prefix +:+ object_key (ref_digest reference)) length in
    if negb (len b =? length)%N || negb (bool_decide (digest b = ref_digest reference))
    then wret (AErr Integrity) else wret (AOk b).

(** [Reader::shard] *)
Definition w_shard (prefix : string) (run : Run) (kind : ShardKind) (index : N) : wreading Shard := λ w,
  let path := prefix +:+ shard_path (r_digest (run_root run)) (run_shards run) kind index in
  match w_shards w !! path with
  | Some shard => Ret (AOk shard, w)
  | None =>
      (let~ b := w_get path MAX_SHARD_BYTES in
       let~! shard := from_anyhow (Shard_decode (r_digest (run_root run)) kind index (run_shards run) b) in
       λ w, Ret (AOk shard, {| w_gets := w_gets w; w_fetched := w_fetched w;
                               w_shards := <[path := shard]> (w_shards w) |})) w
  end.

(** [Reader::may_contain] *)
Definition w_may_contain (prefix : string) (run : Run) (key : bytes) : wreading bool :=
  let probe := Probe_new key (run_shards run) in
  let~ address := w_shard prefix run Address (p_address_index probe) in
  if Shard_contains address key then wret (AOk true)
  else if negb (Shard_contains address (p_marker probe)) then wret (AOk false)
  else
    let~ spill := w_shard prefix run Spill (p_spill_index probe) in
    wret (AOk (Shard_contains spill key)).

(** The closure of [lookup]: [self.object(reference).await.map_err(anyhow::Error::new)]. *)
Definition w_fetch (prefix : string) : ∀ X, fetchE X → WState → prog objE (X * WState) :=
  λ X e, match e in fetchE X return WState → prog objE (X * WState) with
         | Fetch reference => λ w,
             let* (r, w) := w_object prefix reference w in
             Ret (match r with AOk b => Ok b | AErr e => Err (Archive e) | APanic m => Err (Panic m) end, w)
         end.

(** [reader.lookup(key, block, fetch).await?] *)
Definition w_run_lookup (prefix : string) (reader : RunReader) (key : bytes) (block : N) : wreading (option bytes) := λ w,
  let* (r, w) := interp_st (w_fetch prefix) (RunReader_lookup reader key block) w in
  Ret (from_anyhow r, w).

(** [Reader::lookup]: the loop over the runs, newest first. *)
Fixpoint w_lookup_runs (prefix : string) (l : list (Run * RunReader)) (key : bytes) (block : N) : wreading (option bytes) :=
  match l with
  | [] => wret (AOk None)
  | (run, reader) :: l =>
      if (block <? run_start run)%N then w_lookup_runs prefix l key block
      else
        let~ may := w_may_contain prefix run key in
        if negb may then w_lookup_runs prefix l key block
        else
          let~ value := w_run_lookup prefix reader key (N.min block (run_end run)) in
          match value with
          | Some _ => wret (AOk value)
          | None => w_lookup_runs prefix l key block
          end
  end.
Definition w_lookup (r : WReader) (key : bytes) (block : N) : wreading (option bytes) :=
  w_lookup_runs (wr_prefix r) (rev (wr_runs r)) key block.

(** [Reader::load]: the loop over the runs, then the whole function. *)
Fixpoint w_open_runs (l : list Run) : aresult (list (Run * RunReader)) :=
  match l with
  | [] => AOk []
  | run :: l =>
      let~? (reference, root) := from_anyhow (Run_input run) in
      let~? reader := from_anyhow (RunReader_decode reference root) in
      let~? rest := w_open_runs l in
      AOk ((run, reader) :: rest)
  end.
Definition w_load (prefix : string) (chain_id : N) : wreading WReader :=
  let~ b := w_get (prefix +:+ head_key chain_id) MAX_HEAD in
  let~! head := from_anyhow (Head_decode b) in
  if negb (h_chain_id head =? chain_id)%N then wret (AErr Integrity)
  else
    let~! rs := w_open_runs (runs head) in
    wret (AOk {| wr_prefix := prefix; wr_head := head; wr_runs := rs |}).

(** [Reader::account_at] *)
Definition w_account_at (r : WReader) (address : Address20) (block : N) : wreading (option WAccount) :=
  let~ value := w_lookup r (account_key address) block in
  match value with
  | None => wret (AOk None)
  | Some value =>
      let~! state := from_anyhow (AccountState_decode value) in
      let account := {| wa_exists := acc_exists state; wa_incarnation := acc_incarnation state;
                        wa_nonce := acc_nonce state; wa_balance := acc_balance state;
                        wa_code_hash := acc_code_hash state |} in
      wret (AOk (if wa_exists account then Some account else None))
  end.

(** [Reader::storage_at] *)
Definition w_storage_at (r : WReader) (address : Address20) (slot : Hash32) (block : N) : wreading (array 32) :=
  let~ account := w_account_at r address block in
  match account with
  | None => wret (AOk zero_hash)
  | Some account =>
      let~ value := w_lookup r (storage_key address (wa_incarnation account) slot) block in
      match value with
      | Some value => wret (aok_or (to_array 32 value) Integrity)
      | None => wret (AOk zero_hash)
      end
  end.

(** [Reader::code_at] *)
Definition w_code_at (r : WReader) (address : Address20) (block : N) : wreading bytes :=
  let~ account := w_account_at r address block in
  match account with
  | None => wret (AOk [])
  | Some account =>
      if bool_decide (wa_code_hash account = EMPTY_CODE_HASH) then wret (AOk [])
      else
        let~ value := w_lookup r (code_key (wa_code_hash account)) block in
        let~! b := aok_or value Integrity in
        if (MAX_OBJECT_BYTES <? len b)%N || negb (bool_decide (keccak256_digest b = wa_code_hash account))
        then wret (AErr Integrity) else wret (AOk b)
  end.

(** ** Parameters *)

(** [parse_quantity] *)
Definition w_parse_quantity (value : string) : aresult N :=
  let invalid := InvalidParams "block number must be a canonical hex quantity" in
  let~? digits := aok_or (strip_prefix "0x" value) invalid in
  if bool_decide (digits = "") || ((1 <? String.length digits)%nat && starts_with_zero digits)
     || negb (forallb is_ascii_hexdigit (byte_string digits))
  then AErr invalid
  else aok_or (u64_from_str_radix16 digits) (InvalidParams "block number exceeds u64").

(** [Reader::resolve_selector] *)
Definition w_resolve_selector (r : WReader) (selector : Value) : aresult N :=
  let~? selector :=
    match selector with
    | VObject object =>
        if existsb (λ p, negb (bool_decide (p.1 = "blockNumber")) && negb (bool_decide (p.1 = "requireCanonical"))) object
        then AErr (InvalidParams "invalid EIP-1898 selector")
        else if match obj_get "requireCanonical" object with
                | Some value => negb (bool_decide (is_Some (as_bool value)))
                | None => false
                end
        then AErr (InvalidParams "requireCanonical must be boolean")
        else aok_or (obj_get "blockNumber" object) (InvalidParams "block-hash selectors are not supported")
    | value => AOk value
    end in
  let~? text := aok_or (as_str selector) (InvalidParams "invalid block selector") in
  let~? block :=
    if bool_decide (text = "latest") || bool_decide (text = "safe") || bool_decide (text = "finalized")
    then AOk (h_number (wr_head r))
    else if bool_decide (text = "earliest") then AOk 0%N
    else if bool_decide (text = "pending") then AErr (InvalidParams "pending is not supported")
    else w_parse_quantity text in
  if (h_number (wr_head r) <? block)%N
  then AErr (Unavailable "block is outside the published archive range")
  else AOk block.

(** [parse_address] *)
Definition w_parse_address (value : Value) : aresult Address20 :=
  let invalid := InvalidParams "address must be 20-byte hex data" in
  let~? text := aok_or (as_str value) invalid in
  match strip_prefix "0x" text with
  | Some digits =>
      if negb (String.length text =? 42)%nat then AErr invalid
      else match hex_decode digits with Ok b => aok_or (to_array 20 b) invalid | Err _ => AErr invalid end
  | None => AErr invalid
  end.

(** [parse_slot]: the digits are right-aligned in the word. *)
Definition w_parse_slot (value : Value) : aresult Hash32 :=
  let invalid := InvalidParams "slot must be at most 32 bytes of hex" in
  let~? text := aok_or (as_str value) invalid in
  match strip_prefix "0x" text with
  | None => AErr invalid
  | Some digits =>
      if (String.length text <? 3)%nat || (66 <? String.length text)%nat
         || negb (forallb is_ascii_hexdigit (byte_string digits))
      then AErr invalid
      else
        let digits := if (String.length digits mod 2 =? 1)%nat then String "0" digits else digits in
        match hex_decode digits with
        | Err _ => AErr invalid
        | Ok b =>
            match to_array 32 (replicate (32 - length b) Byte.x00 ++ b) with
            | Some out => AOk out
            | None => APanic "attempt to subtract with overflow"
            end
        end
  end.

(** [quantity], [quantity_bytes] *)
Definition w_quantity (value : N) : string := "0x" +:+ format_x value.
Definition quantity_bytes (value : array 32) : string :=
  let text := trim_start_zeros (hex_encode (arr value)) in
  "0x" +:+ (if bool_decide (text = "") then "0" else text).

End worker.
