(* ===== verification/Gateway.v ===== *)
(** * [worker/src/lib.rs]: the HTTP gateway of the edge worker

    The [worker] crate binds the Cloudflare runtime: a bucket answers [r2E]
    requests, and a request and its body come from the runtime.  A JavaScript
    exception is [None].  Setting a header with one of the constant names below
    cannot fail. *)

From stdpp Require Import pretty.
From Stdlib Require Import Strings.Ascii.
From S2P Require Import Prelude Bytes Text Externals Hash Format Json Head Worker.
From Stdlib Require Import Lia ZArith.

Definition MAX_RPC_BODY_BYTES : N := 16 * 1024.
Definition IMMUTABLE_CACHE_CONTROL : string := "public, max-age=31536000, immutable".

(** ** The runtime *)

(** [ObjectBody]: its chunks, and its use as the body of a response. *)
Record R2Body := { bd_stream : option (list (option bytes)); bd_response : option bytes }.
(** [worker::Object]; [ob_metadata]: the headers that [write_http_metadata] sets, or
    [None] when it throws. *)
Record R2Object := {
  ob_size : N;
  ob_etag : string;
  ob_metadata : option (list (string * string));
  ob_body : option R2Body
}.
(** [Bucket::get] (with a range) and [Bucket::head]. *)
Inductive r2E : Type → Type :=
| R2Get (key : string) (range : option (N * N)) : r2E (option (option R2Object))
| R2Head (key : string) : r2E (option (option R2Object)).

(** [Env]: the two variables and whether the bucket is bound. *)
Record Env := { env_chain_id : option string; env_prefix : option string; env_bucket : bool }.

Inductive Method := MGet | MHead | MPost | MOther.
#[export] Instance Method_eq_dec : EqDecision Method.
Proof. solve_decision. Defined.
Record HttpRequest := {
  hr_path : string;
  hr_method : Method;
  hr_header : string → option (option string);
  hr_stream : option (list (option bytes))
}.
Record Response := { rs_status : N; rs_headers : list (string * string); rs_body : bytes }.

(** [Headers::set] replaces the value of a name. *)
Fixpoint header_set (name value : string) (l : list (string * string)) : list (string * string) :=
  match l with
  | [] => [(name, value)]
  | (k, v) :: l => if bool_decide (k = name) then (name, value) :: l else (k, v) :: header_set name value l
  end.
Fixpoint header_of (name : string) (l : list (string * string)) : option string :=
  match l with
  | [] => None
  | (k, v) :: l => if bool_decide (k = name) then Some v else header_of name l
  end.

(** ** Streams *)

(** The loop that collects chunks up to a bound, in [R2Store::get] and
    [read_bounded_body]. *)
Fixpoint collect_chunks (maximum : N) (over : ArchiveError) (acc : bytes) (chunks : list (option bytes)) : aresult bytes :=
  match chunks with
  | [] => AOk acc
  | None :: _ => AErr Backend
  | Some chunk :: chunks =>
      match checked_add u32_max (len acc) (len chunk) with
      | Some length => if (maximum <? length)%N then AErr over else collect_chunks maximum over (acc ++ chunk) chunks
      | None => AErr over
      end
  end.

(** [impl ObjectStore for R2Store] *)
Definition R2Store_get (key : string) (maximum : N) : prog r2E (aresult bytes) :=
  let* got := request (R2Get key None) in
  Ret (let~? object := aok_or got Backend in
       let~? object := aok_or object (Unavailable "archive object is unavailable") in
       if (maximum <? ob_size object)%N then AErr Integrity
       else
         let expected := ob_size object in
         let~? body := aok_or (ob_body object) Integrity in
         let~? stream := aok_or (bd_stream body) Backend in
         let~? b := collect_chunks maximum Integrity [] stream in
         if negb (len b =? expected)%N then AErr Integrity else AOk b).
Definition r2_objects : ∀ X, objE X → prog r2E X :=
  λ X e, match e in objE X return prog r2E X with ObjGet key maximum => R2Store_get key maximum end.

(** [read_bounded_body]: [usize] is [u32] here, and a length that does not fit is
    above the bound. *)
Definition read_bounded_body (request : HttpRequest) : aresult bytes :=
  let~? length := aok_or (hr_header request "content-length") Backend in
  let~? _ :=
    match length with
    | Some length =>
        match parse_u64 (byte_string length) with
        | Some value => if (MAX_RPC_BODY_BYTES <? value)%N then AErr Limit else AOk tt
        | None => AErr Limit
        end
    | None => AOk tt
    end in
  match hr_stream request with
  | None => AOk []
  | Some stream => collect_chunks MAX_RPC_BODY_BYTES Limit [] stream
  end.

(** ** Configuration *)

(** [parse_configured_chain_id], [configured_chain_id] *)
Definition parse_configured_chain_id (text : string) : aresult N :=
  if bool_decide (text = "") || bool_decide (text = "0")
     || ((1 <? String.length text)%nat && starts_with_zero text)
     || negb (forallb is_ascii_digit (byte_string text))
  then AErr Backend
  else aok_or (parse_u64 (byte_string text)) Backend.
Definition configured_chain_id (env : Env) : aresult N :=
  parse_configured_chain_id (default "8453" (env_chain_id env)).

(** [archive_prefix] *)
Definition archive_prefix (env : Env) : aresult string :=
  let prefix := default "v1/" (env_prefix env) in
  if starts_with_char "/" prefix || contains_char "\" prefix || contains_char "000" prefix
     || existsb (λ part, bool_decide (part = ".") || bool_decide (part = "..")) (split_on "/" prefix)
  then AErr Backend
  else AOk (if ends_with_char "/" prefix then prefix else prefix +:+ "/").

(** ** Responses *)

(** [base_headers] *)
Definition base_headers : list (string * string) :=
  header_set "x-frame-options" "DENY"
   (header_set "x-content-type-options" "nosniff"
     (header_set "referrer-policy" "no-referrer"
       (header_set "content-security-policy" "default-src 'none'; frame-ancestors 'none'; sandbox" []))).

(** [text_response] *)
Definition text_response (request : HttpRequest) (status : N) (text : string) (extra : option (string * string)) : Response :=
  let b := byte_string text in
  let headers := header_set "content-length" (pretty (len b))
    (header_set "content-type" "text/plain; charset=utf-8" (header_set "cache-control" "no-store" base_headers)) in
  {| rs_status := status;
     rs_headers := match extra with Some (key, value) => header_set key value headers | None => headers end;
     rs_body := if bool_decide (hr_method request = MHead) then [] else b |}.

Section responses.
Context `{SerdeJson}.

(** [json_response] *)
Definition json_response (value : Value) : Response :=
  let b := value_to_vec value ++ [newline] in
  {| rs_status := 200;
     rs_headers := header_set "content-length" (pretty (len b))
       (header_set "content-type" "application/json; charset=utf-8" (header_set "cache-control" "no-store" base_headers));
     rs_body := b |}.

(** [rpc_error_code], [rpc_error] *)
Definition rpc_error_code (id : Value) (code : Z) (message : string) (data : option string) : Response :=
  let fields := [("code", VNumber (NegInt code)); ("message", VString message)] in
  json_response (json_object [("jsonrpc", VString "2.0"); ("id", id);
    ("error", json_object (fields ++ match data with Some data => [("data", VString data)] | None => [] end))]).
Definition w_rpc_error (id : Value) (error : ArchiveError) : Response :=
  match error with
  | InvalidParams data => rpc_error_code id (-32602) "Invalid params" (Some data)
  | Unavailable data => rpc_error_code id (-32001) "Archive unavailable" (Some data)
  | Integrity => rpc_error_code id (-32002) "Archive integrity error" None
  | Limit => rpc_error_code id (-32005) "Resource limit exceeded" None
  | Backend => rpc_error_code id (-32603) "Internal error" None
  end.

End responses.

(** [valid_id] *)
Definition MAX_SAFE_INTEGER : N := 9007199254740991.
Definition valid_id (id : Value) : bool :=
  is_null id || bool_decide (is_Some (as_str id))
  || match as_u64 id with Some value => (value <=? MAX_SAFE_INTEGER)%N | None => false end
  || match as_i64 id with Some value => (Z.abs_N value <=? MAX_SAFE_INTEGER)%N | None => false end.

(** [require_params] *)
Definition require_params (params : Value) (expected : N) : aresult unit :=
  if match as_array params with Some values => (len values =? expected)%N | None => false end
  then AOk tt else AErr (InvalidParams ("expected " +:+ pretty expected +:+ " parameters")).

(** ** JSON-RPC *)

Inductive DispatchError := MethodNotFound | DArchive (e : ArchiveError).
Inductive dispatched := DOk (v : Value) | DErr (e : DispatchError) | DPanic (reason : string).
Definition of_aresult (r : aresult Value) : dispatched :=
  match r with AOk v => DOk v | AErr e => DErr (DArchive e) | APanic m => DPanic m end.

Section rpc.
Context `{Sha256, Keccak256, Hex, Zstd, HeadJson, SerdeJson}.

(** [dispatch_rpc] from the configuration on, over the reader's requests. *)
Definition dispatch_storage_at (reader : WReader) (values : list Value) : wreading Value :=
  if negb (len values =? 3)%N then wret (AErr (InvalidParams "expected 3 parameters"))
  else
    let~! address := w_parse_address (default VNull (values !! 0)) in
    let~! slot := w_parse_slot (default VNull (values !! 1)) in
    let~! block := w_resolve_selector reader (default VNull (values !! 2)) in
    let~ word := w_storage_at reader address slot block in
    wret (AOk (VString ("0x" +:+ hex_encode (arr word)))).
Definition dispatch_account_at (reader : WReader) (method : string) (values : list Value) : wreading Value :=
  if negb (len values =? 2)%N then wret (AErr (InvalidParams "expected 2 parameters"))
  else
    let~! address := w_parse_address (default VNull (values !! 0)) in
    let~! block := w_resolve_selector reader (default VNull (values !! 1)) in
    if bool_decide (method = "eth_getCode") then
      let~ code := w_code_at reader address block in
      wret (AOk (VString ("0x" +:+ hex_encode code)))
    else
      let~ account := w_account_at reader address block in
      if bool_decide (method = "eth_getBalance")
      then wret (AOk (VString (match account with Some a => quantity_bytes (wa_balance a) | None => "0x0" end)))
      else wret (AOk (VString (match account with Some a => w_quantity (wa_nonce a) | None => "0x0" end))).
Definition dispatch_state (prefix : string) (chain_id : N) (method : string) (params : Value) : wreading Value :=
  let~ reader := w_load prefix chain_id in
  if bool_decide (method = "eth_blockNumber") then
    let~! _ := require_params params 0 in
    wret (AOk (VString (w_quantity (h_number (wr_head reader)))))
  else
    let~! values := aok_or (as_array params) (InvalidParams "params must be an array") in
    if bool_decide (method = "eth_getStorageAt") then dispatch_storage_at reader values
    else dispatch_account_at reader method values.

Definition archive_methods : list string :=
  ["eth_chainId"; "eth_blockNumber"; "eth_getBalance"; "eth_getTransactionCount"; "eth_getCode"; "eth_getStorageAt"].

Definition dispatch_rpc (env : Env) (method : string) (params : Value) : prog r2E dispatched :=
  if bool_decide (method = "web3_clientVersion") then
    Ret (of_aresult (let~? _ := require_params params 0 in AOk (VString "fossil-worker-rs/0.1.0")))
  else if negb (bool_decide (method ∈ archive_methods)) then Ret (DErr MethodNotFound)
  else
    match configured_chain_id env with
    | AOk chain_id =>
        if bool_decide (method = "eth_chainId") then
          Ret (of_aresult (let~? _ := require_params params 0 in AOk (VString (w_quantity chain_id))))
        else
          match archive_prefix env with
          | AOk prefix =>
              if negb (env_bucket env) then Ret (DErr (DArchive Backend))
              else
                let* (r, _) := interp r2_objects (dispatch_state prefix chain_id method params wstate_start) in
                Ret (of_aresult r)
          | AErr e => Ret (DErr (DArchive e))
          | APanic m => Ret (DPanic m)
          end
    | AErr e => Ret (DErr (DArchive e))
    | APanic m => Ret (DPanic m)
    end.

(** [serve_rpc]; a panic ends the request without a response. *)
Definition serve_rpc (env : Env) (request : HttpRequest) : prog r2E (option Response) :=
  match read_bounded_body request with
  | APanic _ => Ret None
  | AErr error => Ret (Some (w_rpc_error VNull error))
  | AOk body =>
      match value_from_slice body with
      | Err _ => Ret (Some (rpc_error_code VNull (-32700) "Parse error" None))
      | Ok message =>
          match message with
          | VArray _ => Ret (Some (rpc_error_code VNull (-32600) "Invalid Request" (Some "Batch requests are not supported")))
          | VObject object =>
              let id := default VNull (obj_get "id" object) in
              let method := (v ← obj_get "method" object; as_str v) in
              match method with
              | Some method =>
                  if negb (match obj_get "jsonrpc" object with Some (VString v) => bool_decide (v = "2.0") | _ => false end)
                     || negb (contains_key "id" object) || negb (valid_id id)
                  then Ret (Some (rpc_error_code (if valid_id id then id else VNull) (-32600) "Invalid Request" None))
                  else
                    let params := default (VArray []) (obj_get "params" object) in
                    let* r := dispatch_rpc env method params in
                    Ret (match r with
                         | DOk result => Some (json_response (json_object [("jsonrpc", VString "2.0"); ("id", id); ("result", result)]))
                         | DErr MethodNotFound => Some (rpc_error_code id (-32601) "Method not found" None)
                         | DErr (DArchive error) => Some (w_rpc_error id error)
                         | DPanic _ => None
                         end)
              | None => Ret (Some (rpc_error_code (if valid_id id then id else VNull) (-32600) "Invalid Request" None))
              end
          | _ => Ret (Some (rpc_error_code VNull (-32600) "Invalid Request" None))
          end
      end
  end.

End rpc.

(** ** Objects *)

(** [str::trim]: the value of a header has no character above U+00FF, and the
    white space among those is ASCII, U+0085 or U+00A0. *)
Definition is_space (c : ascii) : bool :=
  let n := Ascii.N_of_ascii c in (n =? 32)%N || ((9 <=? n)%N && (n <=? 13)%N).
Definition is_wide (c d : ascii) : bool :=
  bool_decide (c = "194"%char) && (bool_decide (d = "133"%char) || bool_decide (d = "160"%char)).
Fixpoint trim_start (l : list ascii) : list ascii :=
  match l with
  | c :: rest =>
      if is_space c then trim_start rest
      else match rest with d :: rest' => if is_wide c d then trim_start rest' else l | [] => l end
  | [] => []
  end.
(** The same from the end, on the reversed characters. *)
Fixpoint trim_back (l : list ascii) : list ascii :=
  match l with
  | c :: rest =>
      if is_space c then trim_back rest
      else match rest with d :: rest' => if is_wide d c then trim_back rest' else l | [] => l end
  | [] => []
  end.
Definition trim (s : string) : string :=
  String.string_of_list_ascii (rev (trim_back (rev (trim_start (String.list_ascii_of_string s))))).

(** [if_none_match], [if_range_matches] *)
Definition if_none_match (value : option string) (etag : string) : bool :=
  match value with
  | None => false
  | Some value =>
      existsb (λ item,
        let item := default (trim item) (strip_prefix "W/" (trim item)) in
        bool_decide (item = "*") || bool_decide (item = etag)) (split_on "," value)
  end.
Definition quote : ascii := "034".
Definition if_range_matches (value : option string) (etag : string) : bool :=
  match value with
  | None => true
  | Some value => bool_decide (value = etag) && starts_with_char quote value && ends_with_char quote value
  end.

(** [RangeRequest] *)
Inductive RangeRequest := Ignore | Unsatisfiable | Satisfiable (offset length : N).
Definition all_digits (s : string) : bool := forallb is_ascii_digit (byte_string s).

(** [parse_range]: its end, for a range that has a first byte; the whole function. *)
Definition range_from (offset size : N) (parsed_end : option N) : RangeRequest :=
  if match parsed_end with Some e => (e <? offset)%N | None => false end then Ignore
  else if (size <=? offset)%N then Unsatisfiable
  else
    let last := N.min (default (size - 1)%N parsed_end) (size - 1) in
    Satisfiable offset (last - offset + 1).
Definition parse_range (value : string) (size : N) : RangeRequest :=
  match strip_prefix "bytes=" value with
  | None => Ignore
  | Some value =>
      if contains_char "," value then Ignore else
      match split_once "-" value with
      | None => Ignore
      | Some (start, stop) =>
          if bool_decide (start = "") then
            if bool_decide (stop = "") || negb (all_digits stop) then Ignore else
            match parse_u64 (byte_string stop) with
            | None => Ignore
            | Some suffix =>
                if (suffix =? 0)%N || (size =? 0)%N then Unsatisfiable
                else let length := N.min suffix size in Satisfiable (size - length) length
            end
          else if negb (all_digits start) || (negb (bool_decide (stop = "")) && negb (all_digits stop)) then Ignore
          else
            match parse_u64 (byte_string start) with
            | None => Ignore
            | Some offset =>
                if bool_decide (stop = "") then range_from offset size None
                else match parse_u64 (byte_string stop) with None => Ignore | Some e => range_from offset size (Some e) end
            end
      end
  end.

(** [u8::from_str_radix(_, 16)] of two bytes: a plus sign is accepted first. *)
Definition hex_pair (a b : byte) : option byte :=
  let digit x := digit_value (Ascii.ascii_of_byte x) in
  match digit b with
  | None => None
  | Some low =>
      if bool_decide (a = Byte.x2b) then Some (byte_of low)
      else match digit a with Some high => Some (byte_of (high * 16 + low)) | None => None end
  end.
(** The loop of [decode_cas_key]: percent-decoding. *)
Fixpoint percent_decode (b : bytes) : option bytes :=
  match b with
  | [] => Some []
  | x :: rest =>
      if bool_decide (x = Byte.x25) then
        match rest with
        | h :: l :: rest =>
            match from_utf8 [h; l] with
            | Ok _ => v ← hex_pair h l; out ← percent_decode rest; Some (v :: out)
            | Err _ => None
            end
        | _ => None
        end
      else out ← percent_decode rest; Some (x :: out)
  end.
(** [decode_cas_key] *)
Definition decode_cas_key (encoded : string) : option string :=
  out ← percent_decode (byte_string encoded);
  match from_utf8 out with
  | Err _ => None
  | Ok out =>
      let key := String.string_of_list_byte out in
      match split_on "/" key with
      | [namespace; algorithm; shard; digest] =>
          if negb (bool_decide (namespace = "objects")) || negb (bool_decide (algorithm = "sha256"))
             || negb (String.length shard =? 2)%nat || negb (String.length digest =? 64)%nat
             || negb (forallb is_lower_hexdigit (byte_string shard))
             || negb (forallb is_lower_hexdigit (byte_string digest))
             || negb (String.prefix shard digest)
          then None else Some key
      | _ => None
      end
  end.

(** [object_headers] *)
Definition object_headers (object : R2Object) (length : option N) : option (list (string * string)) :=
  metadata ← ob_metadata object;
  let headers := fold_left (λ l p, header_set p.1 p.2 l) metadata base_headers in
  let headers := header_set "etag" (ob_etag object)
    (header_set "cache-control" IMMUTABLE_CACHE_CONTROL (header_set "accept-ranges" "bytes" headers)) in
  Some (match length with Some length => header_set "content-length" (pretty length) headers | None => headers end).

(** The body of an object as the body of a response. *)
Definition response_body (got : option (option R2Object)) : option (R2Object * bytes) :=
  object ← got; object ← object; body ← ob_body object; b ← bd_response body; Some (object, b).

(** [serve_object] *)
Definition serve_object (env : Env) (request : HttpRequest) (relative : string) : prog r2E (option Response) :=
  if negb (env_bucket env) then Ret None else
  match archive_prefix env with
  | AErr _ | APanic _ => Ret None
  | AOk prefix =>
      let key := prefix +:+ relative in
      let* head := Prelude.request (R2Head key) in
      match head with
      | None => Ret None
      | Some None => Ret (Some (text_response request 404 ("Object not found." +:+ String "010" EmptyString) None))
      | Some (Some metadata) =>
          let etag := ob_etag metadata in
          match hr_header request "if-none-match" with
          | None => Ret None
          | Some inm =>
              if if_none_match inm etag then
                Ret (headers ← object_headers metadata None;
                     Some {| rs_status := 304; rs_headers := headers; rs_body := [] |})
              else if bool_decide (hr_method request = MHead) then
                Ret (headers ← object_headers metadata (Some (ob_size metadata));
                     Some {| rs_status := 200; rs_headers := headers; rs_body := [] |})
              else
                let full :=
                  let* got := Prelude.request (R2Get key None) in
                  Ret ('(object, b) ← response_body got;
                       headers ← object_headers object (Some (ob_size object));
                       Some {| rs_status := 200; rs_headers := headers; rs_body := b |}) in
                match hr_header request "range" with
                | None => Ret None
                | Some None => full
                | Some (Some range) =>
                    match hr_header request "if-range" with
                    | None => Ret None
                    | Some if_range =>
                        if negb (if_range_matches if_range etag) then full
                        else
                          match parse_range range (ob_size metadata) with
                          | Unsatisfiable =>
                              Ret (headers ← object_headers metadata (Some 0%N);
                                Some {| rs_status := 416;
                                  rs_headers := header_set "cache-control" "no-store"
                                    (header_set "content-range" ("bytes */" +:+ pretty (ob_size metadata)) headers);
                                  rs_body := [] |})
                          | Satisfiable offset length =>
                              let* got := Prelude.request (R2Get key (Some (offset, length))) in
                              Ret ('(_, b) ← response_body got;
                                headers ← object_headers metadata (Some length);
                                Some {| rs_status := 206;
                                  rs_headers := header_set "content-range"
                                    ("bytes " +:+ pretty offset +:+ "-" +:+ pretty (offset + length - 1)%N +:+ "/" +:+ pretty (ob_size metadata))
                                    headers;
                                  rs_body := b |})
                          | Ignore => full
                          end
                    end
                end
          end
      end
  end.

(** [main]; [None] is a panic of the RPC. *)
Definition gateway_main `{Sha256, Keccak256, Hex, Zstd, HeadJson, SerdeJson} (env : Env) (request : HttpRequest)
    : prog r2E (option Response) :=
  let path := hr_path request in
  let method := hr_method request in
  let newline := String "010" EmptyString in
  if (bool_decide (path = "/") || bool_decide (path = "/rpc")) && bool_decide (method = MPost) then serve_rpc env request
  else if bool_decide (path = "/rpc") then
    Ret (Some (text_response request 405 ("Method not allowed." +:+ newline) (Some ("allow", "POST"))))
  else if negb (bool_decide (method = MGet)) && negb (bool_decide (method = MHead)) then
    Ret (Some (text_response request 405 ("Method not allowed." +:+ newline) (Some ("allow", "GET, HEAD"))))
  else if bool_decide (path = "/health") then
    let response := text_response request 200
      ("{" +:+ String quote ("status" +:+ String quote (":" +:+ String quote ("ok" +:+ String quote "}"))) +:+ newline) None in
    Ret (Some {| rs_status := rs_status response;
                 rs_headers := header_set "content-type" "application/json; charset=utf-8" (rs_headers response);
                 rs_body := rs_body response |})
  else if bool_decide (path = "/objects") || bool_decide (path = "/objects/") then
    Ret (Some (text_response request 400 ("Object listings and empty keys are not supported." +:+ newline) None))
  else
    match strip_prefix "/objects/" path with
    | Some encoded =>
        match decode_cas_key encoded with
        | Some key =>
            let* r := serve_object env request key in
            match r with
            | Some response => Ret (Some response)
            | None => Ret (Some (text_response request 500 ("Archive request failed." +:+ newline) None))
            end
        | None => Ret (Some (text_response request 400 ("Invalid immutable object key." +:+ newline) None))
        end
    | None => Ret (Some (text_response request 404 ("Not found." +:+ newline) None))
    end.
