(* ===== verification/WorkerFacts.v ===== *)
(** * What the worker's reader reads

    [holds] is what the reader needs of its object store: the objects of an archive
    under the prefix.  [wreads] says that a read returns a result within a number of
    GETs and bytes, or fails by the limit because it cannot afford them. *)

From S2P Require Import Prelude Bytes SortedLists Externals Hash RunFormat RunReader RunRep Head HeadFacts Summary SummaryFacts Store Compact CompactFacts Format Tiered TieredReader ReaderFacts ReaderTheorems Json Worker.
From Stdlib Require Import Lia.

Definition obj_answers (get : string → N → aresult bytes) : ∀ X, objE X → X :=
  λ X e, match e in objE X return X with ObjGet key maximum => get key maximum end.

(** The store answers a GET of an archived object, under the prefix, with its bytes. *)
Class holds (get : string → N → aresult bytes) (prefix : string) (s : MemoryState) : Prop :=
  get_stored key b maximum :
    stored s key b → (len b <= maximum)%N → (maximum <= u32_max)%N → get (prefix +:+ key) maximum = AOk b.

Lemma mem_get_stored key m s b : mem_get_bounded key m s = Ok b → stored s key b ∧ (len b <= m)%N.
Proof.
  unfold mem_get_bounded. destruct (ms_entries s !! key) as [e|] eqn:E; [|done].
  destruct (_ <? _)%N eqn:El; [done|]. intros [= <-]. bool_prop. split; [by exists e|done].
Qed.

Lemma append_inj_r p s t : p +:+ s = p +:+ t → s = t.
Proof. induction p as [|c p IH]; [done|]. intros [= E]. by apply IH. Qed.

(** An error of the codec has the same image at every type. *)
Lemma from_anyhow_shape e :
  (∃ x, ∀ A, from_anyhow (A := A) (Err e) = AErr x) ∨ (∃ x, ∀ A, from_anyhow (A := A) (Err e) = APanic x).
Proof. cbn. destruct (panicked e) as [x|]; [right|left]; by eexists. Qed.
Definition in_limits (w : WState) : Prop := (w_gets w <= MAX_REMOTE_GETS)%N ∧ (w_fetched w <= WORKER_REQUEST_BYTES)%N.
Definition wspent (w : WState) (gets total : N) (w' : WState) : Prop :=
  (w_gets w' <= w_gets w + gets)%N ∧ (w_fetched w' <= w_fetched w + total)%N.
Definition waffords (w : WState) (gets total : N) : Prop :=
  (w_gets w + gets <= MAX_REMOTE_GETS)%N ∧ (w_fetched w + total <= WORKER_REQUEST_BYTES)%N.

Section facts.
Context `{Sha256, Keccak256, Hex, Zstd, HeadJson, !HexLaws}.
Context (get : string → N → aresult bytes) (prefix : string) (s : MemoryState) `{!holds get prefix s}.
Abbreviation exec := (run_pure (obj_answers get)).

Definition shards_ok (w : WState) : Prop :=
  ∀ run shards kind index shard,
    (shards <= u32_max)%N → (index <= u32_max)%N →
    w_shards w !! (prefix +:+ shard_path run shards kind index) = Some shard → shard_in s run shards kind index shard.

(** [out] says which results are failures of the limit. *)
Definition wreading_ok {X} (out : X → Prop) (gets total : N) (p : WState → prog objE (X * WState)) (r : X) : Prop :=
  ∀ w, in_limits w → shards_ok w →
  ∃ r' w', exec (p w) = (r', w') ∧ shards_ok w' ∧
    ((r' = r ∧ in_limits w' ∧ wspent w gets total w') ∨ (out r' ∧ ¬ waffords w gets total)).
Definition limited {A} (r : aresult A) : Prop := r = AErr Limit.
Definition wreads {A} (gets total : N) (p : wreading A) (r : aresult A) : Prop := wreading_ok limited gets total p r.

Lemma wreads_ret {A} gets total (r : aresult A) : wreads gets total (wret r) r.
Proof.
  intros w Hw Hs. exists r, w. split_and!; [done|done|]. left. split_and!; [done|apply Hw..|]. split; lia.
Qed.
Lemma wreading_weaken {X} (out : X → Prop) g m g' m' p r :
  wreading_ok out g m p r → (g <= g')%N → (m <= m')%N → wreading_ok out g' m' p r.
Proof.
  intros Hp Hg Hm w Hw Hs. destruct (Hp w Hw Hs) as (r' & w' & E & Hs' & Hr).
  exists r', w'. split_and!; [done|done|]. unfold wspent, waffords in *.
  destruct Hr as [(-> & ? & ? & ?)|[? Hn]]; [left|right].
  - split_and!; [done|done|lia|lia].
  - split; [done|]. intros [??]. apply Hn. lia.
Qed.
Lemma wreads_bind {A B} g m g' m' (p : wreading A) (k : A → wreading B) a r :
  wreads g m p (AOk a) → wreads g' m' (k a) r → wreads (g + g') (m + m') (wbind p k) r.
Proof.
  intros Hp Hk w Hw Hs. destruct (Hp w Hw Hs) as (r1 & w1 & E1 & Hs1 & Hr1).
  unfold wbind. rewrite run_pure_bind, E1. unfold wspent, waffords in *.
  destruct Hr1 as [(-> & Hw1 & Hg1 & Hm1)|[Hlim Hn]]; [|red in Hlim; subst r1].
  - destruct (Hk w1 Hw1 Hs1) as (r2 & w2 & E2 & Hs2 & Hr2). exists r2, w2. rewrite E2.
    split_and!; [done|done|]. unfold wspent, waffords in *.
    destruct Hr2 as [(-> & Hw2 & Hg2 & Hm2)|[Ho Hn]]; [left|right].
    + split_and!; [done|done|lia|lia].
    + split; [done|]. intros [??]. apply Hn. lia.
  - exists (AErr Limit), w1. split_and!; [done|done|]. right. split; [done|]. intros [??]. apply Hn. lia.
Qed.
Lemma wreads_bind_err {A B} g m (p : wreading A) (k : A → wreading B) (r : aresult A) :
  wreads g m p r → (∀ a, r ≠ AOk a) →
  wreads g m (wbind p k) (match r with AOk _ => AErr Backend | AErr e => AErr e | APanic x => APanic x end).
Proof.
  intros Hp Hr w Hw Hs. destruct (Hp w Hw Hs) as (r1 & w1 & E1 & Hs1 & Hr1).
  unfold wbind. rewrite run_pure_bind, E1. destruct Hr1 as [(-> & Hw1 & Hm1)|[Hlim Hn]]; [|red in Hlim; subst r1].
  - destruct r as [a|e|x]; [by destruct (Hr a)| |]; (eexists _, w1; split_and!; [done|done|by left]).
  - exists (AErr Limit), w1. split_and!; [done|done|by right].
Qed.

(** A pure step. *)
Lemma wreads_pure {A B} g m (c : aresult A) (k : A → wreading B) r :
  match c with AOk a => wreads g m (k a) r | AErr e => r = AErr e | APanic x => r = APanic x end →
  wreads g m (wbind (wret c) k) r.
Proof. destruct c as [a|e|x]; [done|intros ->; apply (wreads_ret g m (AErr e))|intros ->; apply (wreads_ret g m (APanic x))]. Qed.

(** ** GETs *)

Lemma wreads_get key m r :
  (m <= u32_max)%N → get key m = r → wreads 1 m (w_get key m) r.
Proof.
  intros Hm Hr w [Hg Hb] Hs. unfold w_get, wrapping_add64. unfold MAX_REMOTE_GETS, WORKER_REQUEST_BYTES in *.
  rewrite !wrap64 by (unfold u32_max, u64_max in *; lia).
  unfold in_limits, wspent, waffords, MAX_REMOTE_GETS, WORKER_REQUEST_BYTES.
  destruct (_ || _) eqn:E; cbn; eexists _, _; (split_and!; [reflexivity| |]); [done| |done|].
  - right. split; [done|]. apply orb_true_iff in E as [E%N.ltb_lt|E%N.ltb_lt]; lia.
  - left. bool_prop. split_and!; [done|cbn; lia..].
Qed.
Lemma wreads_bind0 {A B} g m (p : wreading A) (k : A → wreading B) a r :
  wreads g m p (AOk a) → wreads 0 0 (k a) r → wreads g m (wbind p k) r.
Proof. intros Hp Hk. eapply wreading_weaken; [by eapply wreads_bind|lia..]. Qed.

(** What [w_object] returns when the limit does not stop it. *)
Definition object_result (reference : ObjectRef) : aresult bytes :=
  let length := ref_length reference in
  if (length =? 0)%N || (MAX_OBJECT_BYTES <? length)%N then AErr Integrity
  else
    let~? b := get (prefix +:+ object_key (ref_digest reference)) length in
    if negb (len b =? length)%N || negb (bool_decide (digest b = ref_digest reference)) then AErr Integrity else AOk b.
Lemma wreads_object reference : wreads 1 (ref_length reference) (w_object prefix reference) (object_result reference).
Proof.
  unfold w_object, object_result. destruct (_ || _) eqn:E; [apply wreads_ret|]. bool_prop.
  assert (wreads 1 (ref_length reference) (w_get (prefix +:+ object_key (ref_digest reference)) (ref_length reference))
    (get (prefix +:+ object_key (ref_digest reference)) (ref_length reference))) as Hg.
  { apply wreads_get; [|done]. unfold MAX_OBJECT_BYTES, u32_max in *. lia. }
  destruct (get _ _) as [b|e|x] eqn:Eg.
  - eapply wreads_bind0; [exact Hg|]. cbn beta. destruct (_ || _); apply wreads_ret.
  - by apply (wreads_bind_err _ _ _ _ _ Hg).
  - by apply (wreads_bind_err _ _ _ _ _ Hg).
Qed.

(** ** Lookups in a run *)

Definition as_anyhow {A} (r : aresult A) : result A :=
  match r with AOk b => Ok b | AErr e => Err (Archive e) | APanic m => Err (Panic m) end.
Definition fetched_object (reference : ObjectRef) : result bytes := as_anyhow (object_result reference).

(** The worker fetches what the native reader fetches. *)
Lemma mem_fetch_fetched reference b : mem_fetch s reference = Ok b → fetched_object reference = Ok b.
Proof.
  unfold mem_fetch, fetched_object, object_result. destruct (_ || _ || _) eqn:E; [done|]. bool_prop.
  destruct (mem_get_bounded _ _ s) as [b'|] eqn:Eg; [|done]. apply mem_get_stored in Eg as [Hst Hl].
  rewrite (get_stored _ _ _ Hst Hl) by (unfold PAGE_LIMIT, u32_max in *; lia).
  rewrite (proj2 (N.eqb_neq (ref_length reference) 0)) by done.
  assert ((MAX_OBJECT_BYTES <? ref_length reference)%N = false) as -> by (apply N.ltb_ge; done).
  cbn [orb]. destruct (_ || _); [done|]. by intros [= ->].
Qed.

Definition limited_error {A} (r : result A) : Prop := ∃ e, r = Err e ∧ downcast e = Some Limit ∧ panicked e = None.

Lemma w_cost {A} g m (p : prog fetchE (result A)) :
  cost g m p →
  wreading_ok limited_error g m (interp_st (w_fetch prefix) p) (run_pure (fetch_from fetched_object) p).
Proof.
  induction 1 as [g m r|g m l reference k Hl Hu Hk IH He]; intros w Hw Hs.
  { exists r, w. split_and!; [done|done|]. left. split_and!; [done|apply Hw..|]. split; lia. }
  cbn [interp_st w_fetch run_pure fetch_from].
  destruct (wreads_object reference w Hw Hs) as (r1 & w1 & E1 & Hs1 & Hr1).
  rewrite !run_pure_bind, E1. cbn [run_pure]. unfold wspent, waffords in *.
  destruct Hr1 as [(-> & Hw1 & Hg1 & Hm1)|[Hlim Hn]]; [|red in Hlim; subst r1].
  - fold (as_anyhow (object_result reference)). fold (fetched_object reference).
    destruct (fetched_object reference) as [b|e].
    + destruct (IH b w1 Hw1 Hs1) as (r2 & w2 & E2 & Hs2 & Hr2). exists r2, w2. rewrite E2.
      split_and!; [done|done|]. unfold wspent, waffords in *.
      destruct Hr2 as [(-> & Hw2 & Hg2 & Hm2)|[Ho Hn]]; [left|right].
      * split_and!; [done|done|lia|lia].
      * split; [done|]. intros [??]. apply Hn. lia.
    + destruct (He e) as [message ->]. cbn [interp_st run_pure]. exists (Err (Ctx message e)), w1.
      split_and!; [done|done|]. left. unfold wspent. split_and!; [done|done|lia|lia].
  - destruct (He (Archive Limit)) as [message ->]. cbn [interp_st run_pure].
    exists (Err (Ctx message (Archive Limit))), w1. split_and!; [done|done|]. right. split; [by eexists|].
    intros [??]. apply Hn. lia.
Qed.

Lemma wreads_run_lookup reader rs key block :
  run_rep (mem_fetch s) reader rs →
  wreads 3 (2 * MiB) (w_run_lookup prefix reader key block) (AOk (state_at rs key block)).
Proof.
  intros Hrep w Hw Hs.
  destruct (w_cost _ _ _ (lookup_cost reader key block) w Hw Hs) as (r & w' & E & Hs' & Hr).
  unfold w_run_lookup. rewrite run_pure_bind, E. eexists _, w'. split_and!; [reflexivity|done|].
  rewrite (lookup_rep fetched_object reader rs) in Hr
    by (eapply run_rep_mono; [|exact Hrep]; intros; by apply mem_fetch_fetched).
  destruct Hr as [[-> Hr]|[(e & -> & Hd & Hp) Hn]]; [by left|right].
  split; [|done]. unfold from_anyhow. by rewrite Hp, Hd.
Qed.

(** ** Shards *)

Lemma wreads_shard run kind index shard :
  (run_shards run <= u32_max)%N → (index <= u32_max)%N →
  shard_in s (r_digest (run_root run)) (run_shards run) kind index shard →
  wreads 1 MiB (w_shard prefix run kind index) (AOk shard).
Proof.
  intros Hsh Hi Hin w Hw Hs. unfold w_shard. set (path := prefix +:+ _).
  destruct (w_shards w !! path) as [shard'|] eqn:E.
  { exists (AOk shard'), w. split_and!; [done|done|]. left. split_and!; [|apply Hw..|unfold wspent; split; lia].
    f_equal. eapply shard_in_inj; [|exact Hin]. by apply Hs. }
  destruct Hin as (b & Hb & Hd). pose proof (mem_get_stored _ _ _ _ Hb) as [Hst Hl].
  destruct (wreads_get path MAX_SHARD_BYTES (AOk b)) with (w := w) as (r1 & w1 & E1 & Hs1 & Hr1);
    [vm_compute; discriminate|by apply get_stored|done|done|].
  unfold wbind at 1. rewrite run_pure_bind, E1. destruct Hr1 as [(-> & Hw1 & Hm1)|[Hlim Hn]]; [|red in Hlim; subst r1].
  - unfold wbind, wret. cbn [bind]. rewrite Hd. cbn [from_anyhow]. eexists _, _. split_and!; [reflexivity| |by left].
    intros r n k i x Hn Hi'. cbn [w_shards]. rewrite lookup_insert_Some. intros [[Ep <-]|[_ Hx]]; [|by apply Hs1].
    apply append_inj_r, shard_path_inj in Ep as (<- & <- & <- & <-); [by exists b|done..].
  - exists (AErr Limit), w1. split_and!; [done|done|]. by right.
Qed.

Lemma wreads_may_contain run keys key :
  summary_stored s (r_digest (run_root run)) (run_shards run) keys →
  ∃ may, wreads 2 (2 * MiB) (w_may_contain prefix run key) (AOk may) ∧ (key ∈ keys → may = true).
Proof.
  intros Hsum. destruct (probe_shards s run keys key Hsum) as (Hu & Ha & Hsp & a & sp & Hina & Hinsp & Hin).
  unfold w_may_contain. set (probe := Probe_new key (run_shards run)) in *.
  assert (wreads 1 MiB (w_shard prefix run Address (p_address_index probe)) (AOk a)) as Hra by (by apply wreads_shard).
  assert (wreads 1 MiB (w_shard prefix run Spill (p_spill_index probe)) (AOk sp)) as Hrs by (by apply wreads_shard).
  eexists. split; [|exact Hin].
  change 2%N with (1 + 1)%N at 1. change (2 * MiB)%N with (MiB + MiB)%N. eapply wreads_bind; [exact Hra|].
  destruct (Shard_contains a key); [apply wreads_ret|].
  destruct (Shard_contains a (p_marker probe)); [|apply wreads_ret]. cbn [negb].
  eapply wreads_bind0; [exact Hrs|]. apply wreads_ret.
Qed.

(** ** Lookups over the runs, newest first *)

Lemma wreads_lookup_runs ps rss key block :
  Forall2 (run_open s) ps rss →
  wreads (5 * len ps) (4 * MiB * len ps) (w_lookup_runs prefix ps key block) (AOk (state_at (concat (rev rss)) key block)).
Proof.
  induction 1 as [|[run reader] rs ps rss Ho HF IH]; [apply wreads_ret|].
  destruct Ho as [Hrep Hsum Hblk]. simpl in Hrep, Hsum, Hblk.
  cbn [w_lookup_runs rev]. rewrite concat_app, state_at_app. cbn [concat]. rewrite app_nil_r, len_cons.
  destruct (block <? run_start run)%N eqn:Eb; bool_prop.
  { rewrite (state_at_none rs); [eapply wreading_weaken; [exact IH|lia|unfold MiB; lia]|].
    intros r Hr _. rewrite Forall_forall in Hblk. specialize (Hblk r Hr). lia. }
  destruct (wreads_may_contain run (map rec_key rs) key Hsum) as (may & Hmay & Hin).
  replace (5 * (1 + len ps))%N with (2 + (3 + 5 * len ps))%N by lia.
  replace (4 * MiB * (1 + len ps))%N with (2 * MiB + (2 * MiB + 4 * MiB * len ps))%N by lia.
  eapply wreads_bind; [exact Hmay|]. destruct may; cbn [negb].
  - eapply wreads_bind with (a := state_at rs key block).
    + rewrite <-(state_at_min rs key block (run_end run)); [by apply wreads_run_lookup|].
      eapply Forall_impl; [exact Hblk|]. simpl. lia.
    + destruct (state_at rs key block) as [v|]; [apply wreads_ret|exact IH].
  - rewrite (state_at_none rs); [eapply wreading_weaken; [exact IH|lia..]|].
    intros r Hr Hk. specialize (Hin ltac:(rewrite <-Hk; by apply list_elem_of_fmap_2)). done.
Qed.

(** ** The reader *)

(** The account the worker keeps of the native reader's: its fields, when it exists. *)
Definition live (account : option AccountEvent) : option WAccount :=
  match account with
  | Some e =>
      if ae_exists e then Some {| wa_exists := true; wa_incarnation := ae_incarnation e; wa_nonce := ae_nonce e;
                                  wa_balance := ae_balance e; wa_code_hash := ae_code_hash e |}
      else None
  | None => None
  end.

Section reader.
Context (r : WReader) (h : Head) (rss : list (list RunRecord)).
Context (Hprefix : wr_prefix r = prefix) (Hruns : Forall2 (run_open s) (wr_runs r) rss).
Abbreviation hist := (concat rss).
Abbreviation n := (len (wr_runs r)).

Lemma wreads_lookup key block : wreads (5 * n) (4 * MiB * n) (w_lookup r key block) (AOk (state_at hist key block)).
Proof.
  unfold w_lookup. rewrite Hprefix.
  pose proof (wreads_lookup_runs (rev (wr_runs r)) (rev rss) key block) as Hl.
  rewrite rev_involutive in Hl. unfold len in *. rewrite length_rev in Hl. apply Hl.
  pose proof (Forall2_reverse _ _ _ Hruns) as Hr. unfold reverse in Hr. by rewrite !rev_append_rev, !app_nil_r in Hr.
Qed.

Abbreviation number := (h_number h).
Lemma wreads_account address block :
  (block <= number)%N →
  wreads (5 * n) (4 * MiB * n) (w_account_at r address block)
    (from_anyhow (result_map live (account_spec hist number address block))).
Proof.
  intros Hb. unfold w_account_at, account_spec. rewrite lookup_spec_in by done.
  eapply wreads_bind0; [apply wreads_lookup|]. destruct (state_at _ _ _) as [value|]; [|apply wreads_ret].
  apply wreads_pure. destruct (AccountState_decode value) as [state|e]; [|cbn [result_map]; by destruct (from_anyhow_shape e) as [[x E]|[x E]]; rewrite !E].
  cbn -[wreads]. destruct (acc_exists state); apply wreads_ret.
Qed.

(** A second lookup after the account's. *)
Lemma wreads_second {A} address block (k : option WAccount → wreading A) (spec : option AccountEvent → result A) :
  (block <= number)%N →
  (∀ a, wreads (5 * n) (4 * MiB * n) (k (live a)) (from_anyhow (spec a))) →
  wreads (10 * n) (8 * MiB * n) (wbind (w_account_at r address block) k)
    (from_anyhow (let? a := account_spec hist number address block in spec a)).
Proof.
  intros Hb Hk. pose proof (wreads_account address block Hb) as Ha.
  destruct (account_spec _ _ _ _) as [a|e].
  - eapply wreading_weaken; [eapply wreads_bind; [exact Ha|apply Hk]|lia|unfold MiB; lia].
  - cbn [result_map] in Ha. destruct (from_anyhow_shape e) as [[x E]|[x E]]; rewrite E in Ha |- *;
      (eapply wreading_weaken; [by apply (wreads_bind_err _ _ _ k _ Ha)|lia|unfold MiB; lia]).
Qed.

Lemma wreads_after_lookup {A} key block (k : option bytes → wreading A) res :
  wreads 0 0 (k (state_at hist key block)) res →
  wreads (5 * n) (4 * MiB * n) (wbind (w_lookup r key block) k) res.
Proof. intros Hk. eapply wreads_bind0; [apply wreads_lookup|exact Hk]. Qed.

Lemma wreads_storage address slot block :
  (block <= number)%N →
  wreads (10 * n) (8 * MiB * n) (w_storage_at r address slot block)
    (from_anyhow (storage_spec hist number address slot block)).
Proof.
  intros Hb. unfold w_storage_at, storage_spec.
  apply (wreads_second address block _ (λ account, match account with None => _ | Some account => _ end)); [done|].
  intros [account|]; [|apply wreads_ret]. cbn [live]. destruct (ae_exists account); [|apply wreads_ret].
  apply wreads_after_lookup. cbn [wa_incarnation]. destruct (state_at _ _ _) as [v|]; [|apply wreads_ret].
  destruct (to_array 32 v); apply wreads_ret.
Qed.

Lemma wreads_code address block :
  keccak256_digest [] = EMPTY_CODE_HASH → (block <= number)%N →
  wreads (10 * n) (8 * MiB * n) (w_code_at r address block) (from_anyhow (code_spec hist number address block)).
Proof.
  intros He Hb. unfold w_code_at, code_spec.
  apply (wreads_second address block _ (λ account, match account with None => _ | Some account => _ end)); [done|].
  intros [account|]; [|apply wreads_ret]. cbn [live]. destruct (ae_exists account); [|apply wreads_ret].
  cbn [wa_code_hash negb orb]. unfold keccak. rewrite He. case_bool_decide; [apply wreads_ret|].
  apply wreads_after_lookup. destruct (state_at _ _ _) as [b|]; [|by apply wreads_pure].
  apply wreads_pure. cbn [aok_or ok_or]. change MAX_OBJECT_BYTES with MAX_CODE. destruct (_ || _); apply wreads_ret.
Qed.
End reader.

(** ** [load] *)

Lemma w_open_runs_ok l ps : open_runs l = Ok ps → w_open_runs l = AOk ps.
Proof.
  revert ps; induction l as [|run l IH]; intros ps; cbn [open_runs w_open_runs]; [by intros [= <-]|].
  destruct (Run_input run) as [[reference b]|]; [|done]. cbn [from_anyhow].
  destruct (RunReader_decode reference b) as [reader|]; [|done]. cbn [from_anyhow].
  destruct (open_runs l) as [rest|]; [|done]. intros [= <-]. by rewrite (IH rest).
Qed.

Lemma wreads_load chain_id h rss :
  archive s chain_id h rss →
  ∃ r, wreads 1 MAX_HEAD (w_load prefix chain_id) (AOk r) ∧ wr_prefix r = prefix ∧ wr_head r = h ∧
    Forall2 (run_open s) (wr_runs r) rss ∧ len (wr_runs r) = len (runs h).
Proof.
  intros [(e & He & Hl & Hd) Hc _ Hr]. destruct (open_runs_ok s _ _ Hr) as (ps & Eo & HF & Hlen).
  exists {| wr_prefix := prefix; wr_head := h; wr_runs := ps |}. split_and!; [|done..|cbn; unfold len; by rewrite Hlen].
  unfold w_load. eapply wreads_bind0.
  - apply wreads_get; [vm_compute; discriminate|]. apply get_stored; [by exists e|done|vm_compute; discriminate].
  - apply wreads_pure. rewrite Hd. cbn [from_anyhow]. rewrite Hc, N.eqb_refl. cbn [negb].
    apply wreads_pure. rewrite (w_open_runs_ok _ _ Eo). apply wreads_ret.
Qed.
End facts.
