(* ===== verification/WorkerTheorems.v ===== *)
(** * The worker answers as the native server does

    The parameters a client prints are read by both parsers, the printed values are
    the same, and a state call over a bucket that holds the archive is answered by
    the worker with the text of [call_spec], the specification of the native server. *)

From Stdlib Require Import Strings.Ascii.
From S2P Require Import Prelude Bytes Text Externals Hash RunFormat RunReader RunRep Json Head HeadFacts Store CompactFacts Format FormatFacts Tiered TieredReader ReaderFacts ReaderTheorems Rpc RpcFacts Worker Gateway WorkerFacts.
From Stdlib Require Import Lia ZArith.

(** ** Digits *)

Lemma hexdigit_digit d : (d < 16)%N → is_ascii_hexdigit (Ascii.byte_of_ascii (hex_digit d)) = true.
Proof.
  intros Hd. assert (∀ n, n < 16 → is_ascii_hexdigit (Ascii.byte_of_ascii (hex_digit (N.of_nat n))) = true) as Hn.
  { intros n Hn. do 16 (destruct n as [|n]; [done|]). lia. }
  rewrite <-(N2Nat.id d). apply Hn. lia.
Qed.
Abbreviation hexdigits := (λ s, forallb is_ascii_hexdigit (byte_string s)).
Lemma hexdigits_cons c s : hexdigits (String c s) = is_ascii_hexdigit (Ascii.byte_of_ascii c) && hexdigits s.
Proof. done. Qed.
Lemma hexdigits_app s t : hexdigits (s +:+ t) = hexdigits s && hexdigits t.
Proof.
  induction s as [|c s IH]; [done|]. change (String c s +:+ t) with (String c (s +:+ t)).
  cbv beta in *. by rewrite !hexdigits_cons, IH, andb_assoc.
Qed.
Lemma lower_hex_hexdigits b : hexdigits (lower_hex b) = true.
Proof.
  induction b as [|x b IH]; [done|]. cbn [lower_hex]. destruct (byte_nibbles x).
  cbv beta in *. by rewrite !hexdigits_cons, !hexdigit_digit, IH.
Qed.
Lemma hex_digits_hexdigits fuel n s : hexdigits s = true → hexdigits (hex_digits fuel n s) = true.
Proof.
  revert n s; induction fuel as [|fuel IH]; intros n s Hs; [done|]. cbn [hex_digits].
  assert (hexdigits (String (hex_digit (n mod 16)) s) = true) as Hs'.
  { cbv beta. by rewrite hexdigits_cons, hexdigit_digit by (by apply N.mod_lt). }
  destruct (_ =? 0)%N; [done|by apply IH].
Qed.

Section params.
Context `{Hex, !HexLaws, !HexCanon}.

Lemma w_quantity_ok n : (n <= u64_max)%N → w_parse_quantity (quantity n) = AOk n.
Proof.
  intros Hn. pose proof (parse_quantity_quantity n Hn) as Hp. unfold parse_quantity, w_parse_quantity, quantity in *.
  rewrite strip_prefix_app in *. cbn [ok_or aok_or] in *.
  destruct (_ || _ || _) eqn:E in Hp; [done|]. apply orb_false_iff in E as [E _]. rewrite E. unfold format_x at 1.
  pose proof (hex_digits_hexdigits 16 n "" eq_refl) as Hx. cbv beta in Hx. rewrite Hx. cbn [negb orb].
  destruct (u64_from_str_radix16 _); [|done]. by injection Hp as ->.
Qed.

Lemma w_address_ok a : w_parse_address (VString (address_to_string a)) = AOk a.
Proof.
  unfold w_parse_address, address_to_string. cbn [as_str aok_or]. rewrite strip_prefix_app, string_length_app, hex_encode_length, length_arr.
  cbn [String.length Nat.add Nat.mul Nat.eqb negb]. rewrite hex_round. by rewrite to_array_arr.
Qed.

(** ** Words *)

Lemma from_first_nonzero_spec b :
  match from_first_nonzero b with
  | None => b = replicate (length b) Byte.x00
  | Some rest => b = replicate (length b - length rest) Byte.x00 ++ rest ∧ length rest <= length b ∧
      ∃ x tail, rest = x :: tail ∧ x ≠ Byte.x00
  end.
Proof.
  induction b as [|x b IH]; [done|]. cbn [from_first_nonzero]. case_bool_decide as E.
  - subst x. destruct (from_first_nonzero b) as [rest|]; [|cbn; by f_equal].
    destruct IH as (IH & Hl & Hx). cbn [length]. split_and!; [|lia|done].
    replace (S (length b) - length rest) with (S (length b - length rest)) by lia. cbn. by f_equal.
  - rewrite Nat.sub_diag. split_and!; [done|done|by exists x, b].
Qed.

(** The digits of a word without leading zeros, made even again, are those of its
    bytes without leading zeros. *)
Lemma trim_even x tail :
  x ≠ Byte.x00 →
  let digits := trim_start_zeros (lower_hex (x :: tail)) in
  (if (String.length digits mod 2 =? 1)%nat then String "0" digits else digits) = lower_hex (x :: tail) ∧
  (0 < String.length digits <= 2 * length (x :: tail))%nat ∧ hexdigits digits = true.
Proof.
  intros Hx. cbv zeta. pose proof (lower_hex_hexdigits (x :: tail)) as Hd. cbv beta in *.
  cbn [lower_hex] in *. destruct (byte_nibbles x) as [Hh Hl].
  pose proof (length_lower_hex tail) as Ht. cbn [length].
  assert (∀ k, (k + 2 * length tail) mod 2 = k mod 2)%nat as Hmod.
  { intros k. rewrite Nat.mul_comm. apply Nat.Div0.mod_add. }
  cbn [trim_start_zeros]. case_bool_decide as E1.
  - case_bool_decide as E2.
    { exfalso. apply Hx, byte_N_inj. apply (hex_digit_inj _ 0) in E1; [|done|done].
      apply (hex_digit_inj _ 0) in E2; [|done|done]. rewrite (N.div_mod (byte_N x) 16), E1, E2 by done. done. }
    cbn [String.length]. rewrite Ht. rewrite (Hmod 1 : S (2 * length tail) mod 2 = 1)%nat. cbn [Nat.eqb]. rewrite hexdigits_cons in Hd.
    apply andb_true_iff in Hd as [_ Hd]. split_and!; [by rewrite E1|lia|lia|done].
  - cbn [String.length]. rewrite Ht. rewrite (Hmod 2 : S (S (2 * length tail)) mod 2 = 0)%nat. cbn [Nat.eqb]. split_and!; [done|lia|lia|done].
Qed.

Lemma trimmed_word (w : Hash32) rest :
  from_first_nonzero (arr w) = Some rest → to_array 32 (replicate (32 - length rest) Byte.x00 ++ rest) = Some w.
Proof.
  intros E. pose proof (from_first_nonzero_spec (arr w)) as Hs. rewrite E, length_arr in Hs.
  destruct Hs as (Hs & _). by rewrite <-Hs, to_array_arr.
Qed.

Lemma w_slot_ok slot short : w_parse_slot (VString (slot_string slot short)) = AOk slot.
Proof.
  unfold w_parse_slot. cbn [as_str aok_or]. destruct short; cbn [slot_string].
  - unfold quantity_u256. destruct (from_first_nonzero (arr slot)) as [rest|] eqn:E.
    + pose proof (from_first_nonzero_spec (arr slot)) as Hs. rewrite E, length_arr in Hs.
      destruct Hs as (_ & Hl & x & tail & -> & Hx). rewrite strip_prefix_app, string_length_app, hex_encode_spec.
      destruct (trim_even x tail Hx) as (Ee & [Hd0 Hd1] & Hhex). cbv zeta in *. set (digits := trim_start_zeros _) in *.
      cbn [String.length]. rewrite (proj2 (Nat.ltb_ge _ 3)), (proj2 (Nat.ltb_ge 66 _)) by lia.
      cbv beta in Hhex. rewrite Hhex. cbn [negb orb]. rewrite Ee, <-hex_encode_spec, hex_round.
      by rewrite (trimmed_word slot (x :: tail) E).
    + pose proof (from_first_nonzero_spec (arr slot)) as Hs. rewrite E, length_arr in Hs.
      assert (hex_decode (String "0" "0") = Ok [Byte.x00]) as Hd.
      { change (String "0" "0") with (lower_hex [Byte.x00]). by rewrite <-hex_encode_spec, hex_round. }
      transitivity (match hex_decode (String "0" "0") with
        | Ok b => match to_array 32 (replicate (32 - length b) Byte.x00 ++ b) with
                  | Some out => AOk out | None => APanic "attempt to subtract with overflow" end
        | Err _ => AErr (InvalidParams "slot must be at most 32 bytes of hex") end); [reflexivity|].
      rewrite Hd. change (replicate (32 - length [Byte.x00]) Byte.x00 ++ [Byte.x00]) with (replicate 32 Byte.x00).
      by rewrite <-Hs, to_array_arr.
  - unfold hash_to_string. rewrite strip_prefix_app, string_length_app, hex_encode_length, length_arr.
    pose proof (lower_hex_hexdigits (arr slot)) as Hd. cbv beta in Hd. rewrite <-hex_encode_spec in Hd. rewrite Hd.
    cbn. rewrite hex_round, length_arr. cbn [Nat.sub replicate app]. by rewrite to_array_arr.
Qed.

(** ** Printed values *)

Lemma quantity_bytes_u256 w : quantity_bytes w = quantity_u256 w.
Proof.
  unfold quantity_bytes, quantity_u256. pose proof (lower_hex_first_nonzero (arr w)) as Hf. rewrite hex_encode_spec.
  destruct (from_first_nonzero (arr w)) as [rest|].
  - destruct Hf as [Hf Hne]. rewrite hex_encode_spec, Hf in *. by rewrite bool_decide_eq_false_2.
  - rewrite Hf. assert (∀ n, trim_start_zeros (zeros n) = "") as -> by (induction n; done). done.
Qed.

Lemma balance_live account :
  (∀ e, account = Some e → ae_exists e = false → ae_balance e = zero_hash) →
  match live account with Some a => quantity_bytes (wa_balance a) | None => "0x0" end = balance_text account.
Proof.
  destruct account as [e|]; [|done]. intros Hz. cbn [live balance_text]. destruct (ae_exists e) eqn:E.
  - apply quantity_bytes_u256.
  - by rewrite (Hz e eq_refl E).
Qed.
Lemma nonce_live account :
  (∀ e, account = Some e → ae_exists e = false → ae_nonce e = 0%N) →
  match live account with Some a => w_quantity (wa_nonce a) | None => "0x0" end = nonce_text account.
Proof.
  destruct account as [e|]; [|done]. intros Hz. cbn [live nonce_text]. destruct (ae_exists e) eqn:E; [done|].
  by rewrite (Hz e eq_refl E).
Qed.

(** ** Selectors *)

Lemma w_resolve_ok r b :
  block_wf b →
  let number := h_number (wr_head r) in
  w_resolve_selector r (block_value b) =
  if (number <? block_of number b)%N then AErr (Unavailable "block is outside the published archive range")
  else AOk (block_of number b).
Proof.
  intros Hb. cbv zeta.
  assert (∀ t, block_wf (Bare t) → w_resolve_selector r (VString (tag_string t)) =
    if (h_number (wr_head r) <? block_of (h_number (wr_head r)) (Bare t))%N
    then AErr (Unavailable "block is outside the published archive range")
    else AOk (block_of (h_number (wr_head r)) (Bare t))) as Ht.
  { intros t Ht. unfold w_resolve_selector, block_of. cbn [block_tag as_str aok_or].
    destruct t as [| | | |n]; cbn [tag_string]; [decide_strings; reflexivity..|].
    assert (∀ c s, c ≠ "0"%char → quantity n ≠ String c s) as Hq.
    { intros c s Hc E. unfold quantity in E. by injection E as <- _. }
    rewrite !(bool_decide_eq_false_2 (quantity n = _)) by (by apply Hq). cbn [orb]. by rewrite w_quantity_ok. }
  destruct b as [t|t]; [by apply Ht|]. exact (Ht t Hb).
Qed.
End params.

(** ** Errors and tombstones of the specification *)

Lemma account_decode_error v e : AccountState_decode v = Err e → ∃ m, e = Msg m.
Proof.
  unfold AccountState_decode. destruct v as [|flag rest]; [intros [= <-]; by eexists|].
  destruct (_ || _) eqn:E; [intros [= <-]; by eexists|]. bool_prop.
  destruct (to_array_field 8 (flag :: rest) 1) as (ai & -> & _); [lia|].
  destruct (to_array_field 8 (flag :: rest) 9) as (an & -> & _); [lia|].
  destruct (to_array_field 32 (flag :: rest) 17) as (ab & -> & _); [lia|].
  destruct (to_array_field 32 (flag :: rest) 49) as (ac & -> & _); [lia|].
  cbv zeta. destruct (_ && _); [|done]. intros [= <-]. by eexists.
Qed.

Definition plain_error {A} (r : result A) : Prop := ∀ e, r = Err e → ∃ m, e = Msg m.
Lemma plain_bail {A} m : plain_error (bail (A := A) m).
Proof. intros e [= <-]. by exists m. Qed.
Lemma plain_ok {A} (a : A) : plain_error (Ok a).
Proof. done. Qed.
Lemma plain_bind {A B} (r : result A) (k : A → result B) :
  plain_error r → (∀ a, plain_error (k a)) → plain_error (let? a := r in k a).
Proof. intros Hr Hk. destruct r as [a|e]; [apply Hk|]. intros e' [= <-]. by apply Hr. Qed.
Lemma plain_map {A B} (f : A → B) r : plain_error r → plain_error (result_map f r).
Proof. intros Hr. by apply plain_bind. Qed.
Lemma plain_ok_or {A} (o : option A) m : plain_error (ok_or o m).
Proof. destruct o; [apply plain_ok|apply plain_bail]. Qed.

Section plain.
Context `{Keccak256} (hist : list RunRecord) (number : N).
Lemma plain_account a block : plain_error (account_spec hist number a block).
Proof.
  apply plain_bind; [unfold lookup_spec; destruct (_ <? _)%N; [apply plain_bail|apply plain_ok]|].
  intros [v|]; [|apply plain_ok]. apply plain_bind; [intros e; apply account_decode_error|]. intros st. apply plain_ok.
Qed.
Lemma plain_storage a slot block : plain_error (storage_spec hist number a slot block).
Proof.
  apply plain_bind; [apply plain_account|]. intros [e|]; [|apply plain_ok].
  destruct (ae_exists e); [|apply plain_ok]. destruct (state_at _ _ _); [apply plain_ok_or|apply plain_ok].
Qed.
Lemma plain_code a block : plain_error (code_spec hist number a block).
Proof.
  apply plain_bind; [apply plain_account|]. intros [e|]; [|apply plain_ok].
  destruct (_ || _); [apply plain_ok|]. apply plain_bind; [apply plain_ok_or|].
  intros b. destruct (_ || _); [apply plain_bail|apply plain_ok].
Qed.
Lemma tombstone_account a block e :
  account_spec hist number a block = Ok (Some e) → ae_exists e = false → ae_balance e = zero_hash ∧ ae_nonce e = 0%N.
Proof.
  unfold account_spec. destruct (lookup_spec _ _ _ _) as [[v|]|]; [|done..].
  destruct (AccountState_decode v) as [st|] eqn:E; [|done]. intros [= <-]. cbn. intros He.
  apply AccountState_encode_decode in E as [_ [_ _ Ht]]. destruct (Ht He) as (? & ? & ?). done.
Qed.
End plain.

Lemma from_anyhow_plain {A} (r : result A) :
  plain_error r → from_anyhow r = match r with Ok a => AOk a | Err _ => AErr Integrity end.
Proof. intros Hr. destruct r as [a|e]; [done|]. destruct (Hr e eq_refl) as [m ->]. done. Qed.

(** ** State calls *)

Definition amap {A B} (f : A → B) (r : aresult A) : aresult B := let~? a := r in AOk (f a).
(** The worker's answer where the native one is [o]. *)
Definition w_outcome (number : N) (b : BlockParam) (o : outcome string) : aresult string :=
  match o with
  | Success text => AOk text
  | Failure _ =>
      AErr (if (number <? block_of number b)%N then Unavailable "block is outside the published archive range" else Integrity)
  end.
Lemma w_outcome_at number b k :
  plain_error (k (block_of number b)) →
  w_outcome number b (at_block number b k) =
  if (number <? block_of number b)%N then AErr (Unavailable "block is outside the published archive range")
  else from_anyhow (k (block_of number b)).
Proof.
  intros Hk. unfold w_outcome, at_block. destruct (_ <? _)%N; [done|]. rewrite from_anyhow_plain by done.
  by destruct (k _).
Qed.

Section calls.
Context `{Sha256, Keccak256, Hex, Zstd, HeadJson, SerdeJson, !HexLaws, !HexCanon}.
Context (get : string → N → aresult bytes) (prefix : string) (s : MemoryState) `{!holds get prefix s}.
Context (Hempty : keccak256_digest [] = EMPTY_CODE_HASH).
Context (chain_id : N) (h : Head) (rss : list (list RunRecord)) (Ha : archive s chain_id h rss).
Abbreviation hist := (concat rss).
Abbreviation number := (h_number h).
Abbreviation n := (len (runs h)).
Abbreviation wreads := (wreads get prefix s).

(** The end of a method, at the selected block. *)
Lemma wreads_at_block {A} g m r b (read : N → wreading A) (spec : N → result A) (text : A → string) o :
  wr_head r = h → block_wf b →
  (∀ block, (block <= number)%N → wreads g m (read block) (from_anyhow (spec block))) →
  (∀ block, plain_error (spec block)) →
  o = at_block number b (λ block, result_map text (spec block)) →
  wreads g m (let~! block := w_resolve_selector r (block_value b) in
              let~ v := read block in wret (AOk (VString (text v))))
    (amap VString (w_outcome number b o)).
Proof.
  intros Hh Hb Hr Hp ->. apply wreads_pure. rewrite w_resolve_ok, Hh by done.
  rewrite w_outcome_at by (apply plain_map, Hp). destruct (_ <? _)%N eqn:E; [done|]. bool_prop.
  specialize (Hr _ E). rewrite !from_anyhow_plain in * by (apply plain_map || idtac; apply Hp).
  destruct (spec _) as [a|e]; cbn [result_map amap].
  - eapply wreads_bind0; [exact Hr|]. apply wreads_ret.
  - by apply (wreads_bind_err _ _ _ _ _ _ _ _ Hr).
Qed.

Context (r : WReader) (Hprefix : wr_prefix r = prefix) (Hhead : wr_head r = h).
Context (Hruns : Forall2 (run_open s) (wr_runs r) rss) (Hn : len (wr_runs r) = n).

Definition balance_of (account : option WAccount) : string :=
  match account with Some a => quantity_bytes (wa_balance a) | None => "0x0" end.
Definition nonce_of (account : option WAccount) : string :=
  match account with Some a => w_quantity (wa_nonce a) | None => "0x0" end.

Lemma wreads_field a b (text : option WAccount → string) (native : option AccountEvent → string) :
  block_wf b →
  (∀ account, (∀ e, account = Some e → ae_exists e = false → ae_balance e = zero_hash ∧ ae_nonce e = 0%N) →
     text (live account) = native account) →
  wreads (5 * n) (4 * MiB * n)
    (let~! block := w_resolve_selector r (block_value b) in
     let~ account := w_account_at r a block in wret (AOk (VString (text account))))
    (amap VString (w_outcome number b (at_block number b (λ block, result_map native (account_spec hist number a block))))).
Proof.
  intros Hb Ht. rewrite <-Hn.
  apply (wreads_at_block _ _ r b (w_account_at r a) (λ block, result_map live (account_spec hist number a block)) text); [done|done| | |].
  - intros block Hle. by apply (wreads_account get prefix s r h rss).
  - intros block. apply plain_map, plain_account.
  - unfold at_block. destruct (_ <? _)%N; [done|]. destruct (account_spec _ _ _ _) as [account|] eqn:E; [|done].
    cbn [result_map]. rewrite Ht; [done|]. intros e -> He. by eapply tombstone_account.
Qed.

Lemma wreads_balance a b :
  block_wf b →
  wreads (5 * n) (4 * MiB * n) (dispatch_account_at r "eth_getBalance" (call_params (GetBalance a b)))
    (amap VString (w_outcome number b (call_spec hist h (GetBalance a b)))).
Proof.
  intros Hb. unfold dispatch_account_at. cbn [call_params]. apply wreads_pure.
  match goal with |- context [w_parse_address ?v] => change v with (VString (address_to_string a)) end. rewrite w_address_ok. decide_strings.
  apply (wreads_field a b balance_of balance_text Hb). intros account Hz. apply balance_live. intros e He1 He2. by apply Hz.
Qed.
Lemma wreads_nonce a b :
  block_wf b →
  wreads (5 * n) (4 * MiB * n) (dispatch_account_at r "eth_getTransactionCount" (call_params (GetTransactionCount a b)))
    (amap VString (w_outcome number b (call_spec hist h (GetTransactionCount a b)))).
Proof.
  intros Hb. unfold dispatch_account_at. cbn [call_params]. apply wreads_pure.
  match goal with |- context [w_parse_address ?v] => change v with (VString (address_to_string a)) end. rewrite w_address_ok. decide_strings.
  apply (wreads_field a b nonce_of nonce_text Hb). intros account Hz. apply nonce_live. intros e He1 He2. by apply Hz.
Qed.
Lemma wreads_get_code a b :
  block_wf b →
  wreads (10 * n) (8 * MiB * n) (dispatch_account_at r "eth_getCode" (call_params (GetCode a b)))
    (amap VString (w_outcome number b (call_spec hist h (GetCode a b)))).
Proof.
  intros Hb. unfold dispatch_account_at. cbn [call_params]. apply wreads_pure.
  match goal with |- context [w_parse_address ?v] => change v with (VString (address_to_string a)) end. rewrite w_address_ok. decide_strings. rewrite <-Hn.
  apply (wreads_at_block _ _ r b (w_code_at r a) (λ block, code_spec hist number a block) (λ code, "0x" +:+ hex_encode code));
    [done|done| | |done].
  - intros block Hle. by apply (wreads_code get prefix s r h rss).
  - intros block. apply plain_code.
Qed.
Lemma wreads_get_storage a slot short b :
  block_wf b →
  wreads (10 * n) (8 * MiB * n) (dispatch_storage_at r (call_params (GetStorageAt a slot short b)))
    (amap VString (w_outcome number b (call_spec hist h (GetStorageAt a slot short b)))).
Proof.
  intros Hb. unfold dispatch_storage_at. cbn [call_params]. apply wreads_pure.
  match goal with |- context [w_parse_address ?v] => change v with (VString (address_to_string a)) end. rewrite w_address_ok. apply wreads_pure.
  match goal with |- context [w_parse_slot ?v] => change v with (VString (slot_string slot short)) end. rewrite w_slot_ok. rewrite <-Hn.
  apply (wreads_at_block _ _ r b (w_storage_at r a slot) (λ block, storage_spec hist number a slot block) data32);
    [done|done| | |done].
  - intros block Hle. by apply (wreads_storage get prefix s r h rss).
  - intros block. apply plain_storage.
Qed.
End calls.

(** ** The bucket *)

(** A bucket that holds the objects of an archive under a prefix, delivered in chunks. *)
Class bucket_holds (answers : ∀ X, r2E X → X) (prefix : string) (s : MemoryState) : Prop :=
  bucket_object key b : stored s key b →
    ∃ object chunks response, answers _ (R2Get (prefix +:+ key) None) = Some (Some object) ∧ ob_size object = len b ∧
      ob_body object = Some {| bd_stream := Some (map Some chunks); bd_response := response |} ∧ concat chunks = b.

Lemma collect_chunks_ok maximum over acc chunks :
  (len acc + len (concat chunks) <= maximum)%N → (maximum <= u32_max)%N →
  collect_chunks maximum over acc (map Some chunks) = AOk (acc ++ concat chunks).
Proof.
  revert acc; induction chunks as [|chunk chunks IH]; intros acc Hl Hm; cbn [map collect_chunks concat] in *.
  { by rewrite app_nil_r. }
  rewrite len_app in Hl. unfold checked_add. rewrite (proj2 (N.leb_le _ _)) by lia.
  rewrite (proj2 (N.ltb_ge _ _)) by lia. rewrite IH by (rewrite ?len_app; lia). by rewrite app_assoc.
Qed.
(** No stream makes the result longer than the bound. *)
Lemma collect_chunks_bounded maximum over acc chunks b :
  collect_chunks maximum over acc chunks = AOk b → (len acc <= maximum)%N → (len b <= maximum)%N.
Proof.
  revert acc; induction chunks as [|[chunk|] chunks IH]; intros acc; cbn [collect_chunks]; [by intros [= <-]| |done].
  unfold checked_add. destruct (_ <=? _)%N; [|done]. destruct (_ <? _)%N eqn:E; [done|]. bool_prop.
  intros Hc _. apply (IH _ Hc). by rewrite len_app.
Qed.

Lemma run_pure_interp {E F A} (hE : ∀ X, E X → prog F X) (hF : ∀ X, F X → X) (p : prog E A) :
  run_pure hF (interp hE p) = run_pure (λ X e, run_pure hF (hE X e)) p.
Proof. induction p as [a|X e k IH]; simpl; [done|]. by rewrite run_pure_bind. Qed.
Lemma run_pure_ext {E A} (h h' : ∀ X, E X → X) (p : prog E A) :
  (∀ X e, h X e = h' X e) → run_pure h p = run_pure h' p.
Proof. intros Hh. induction p as [a|X e k IH]; simpl; [done|]. by rewrite Hh. Qed.

(** The bucket as an object store. *)
Definition bucket_get (answers : ∀ X, r2E X → X) (key : string) (maximum : N) : aresult bytes :=
  run_pure answers (R2Store_get key maximum).
#[export] Instance bucket_get_holds answers prefix s `{!bucket_holds answers prefix s} : holds (bucket_get answers) prefix s.
Proof.
  intros key b maximum Hst Hl Hm. destruct (bucket_object key b Hst) as (object & chunks & response & E & Hsize & Hbody & Hc).
  unfold bucket_get, R2Store_get. simpl. rewrite E. cbn [aok_or]. rewrite Hsize, (proj2 (N.ltb_ge _ _)) by done.
  rewrite Hbody. cbn [aok_or bd_stream]. rewrite collect_chunks_ok; [|rewrite Hc; change (len []) with 0%N; lia|done].
  rewrite app_nil_l, Hc, N.eqb_refl. done.
Qed.
Lemma run_bucket {A} answers (p : prog objE A) :
  run_pure answers (interp r2_objects p) = run_pure (obj_answers (bucket_get answers)) p.
Proof. rewrite run_pure_interp. apply run_pure_ext. by intros X []. Qed.

(** ** Requests *)

(** The lookups of a call. *)
Definition call_lookups (call : Call) : N := match call with GetCode _ _ | GetStorageAt _ _ _ _ => 2 | _ => 1 end.
(** The response to a call whose native outcome is [o]. *)
Definition worker_response `{SerdeJson} (id : Value) (h : Head) (call : Call) (o : outcome string) : Response :=
  match o with
  | Success text => json_response (rpc_result id (VString text))
  | Failure _ =>
      w_rpc_error id (match call_block call with
                      | Some b => if (h_number h <? block_of (h_number h) b)%N
                                  then Unavailable "block is outside the published archive range" else Integrity
                      | None => Integrity
                      end)
  end.

Section requests.
Context `{Sha256, Keccak256, Hex, Zstd, HeadJson, SerdeJson, !HexLaws, !HexCanon}.
Context (Hempty : keccak256_digest [] = EMPTY_CODE_HASH).
Context (answers : ∀ X, r2E X → X) (prefix : string) (s : MemoryState) `{!bucket_holds answers prefix s}.
Context (chain_id : N) (h : Head) (rss : list (list RunRecord)) (Ha : archive s chain_id h rss).
Abbreviation hist := (concat rss).
Abbreviation number := (h_number h).
Abbreviation n := (len (runs h)).
Abbreviation wreads := (wreads (bucket_get answers) prefix s).

Lemma wreads_state call b :
  call_block call = Some b → block_wf b →
  wreads (1 + call_lookups call * (5 * n)) (MAX_HEAD + call_lookups call * (4 * MiB * n))
    (dispatch_state prefix chain_id (call_method call) (VArray (call_params call)))
    (amap VString (w_outcome number b (call_spec hist h call))).
Proof.
  intros Hc Hb. destruct (wreads_load (bucket_get answers) prefix s chain_id h rss Ha) as (r & Hl & Hp & Hh & Hr & Hn).
  eapply wreads_bind; [exact Hl|].
  destruct call as [| | |a b'|a b'|a b'|a slot short b']; try done; injection Hc as ->; cbn [call_method]; decide_strings;
    apply wreads_pure; cbn [as_array aok_or call_lookups].
  - eapply wreading_weaken; [apply wreads_balance; first [done|apply _]|lia..].
  - eapply wreading_weaken; [apply wreads_nonce; first [done|apply _]|lia..].
  - eapply wreading_weaken; [apply wreads_get_code; first [done|apply _]|unfold MiB; lia..].
  - eapply wreading_weaken; [apply wreads_get_storage; first [done|apply _]|unfold MiB; lia..].
Qed.

(** What a request affords from the start. *)
Lemma affords_start k : (k = 1%N ∨ k = 2%N ∧ (n <= 15)%N) → (n <= 24)%N → waffords wstate_start (1 + k * (5 * n)) (MAX_HEAD + k * (4 * MiB * n)).
Proof.
  intros Hk Hn. unfold waffords, wstate_start, MAX_REMOTE_GETS, WORKER_REQUEST_BYTES, MAX_HEAD, MiB. cbn [w_gets w_fetched].
  destruct Hk as [->|[-> Hk]]; lia.
Qed.
Lemma runs_at_most : (n <= 24)%N.
Proof. destruct (ar_head _ _ _ _ Ha) as (e & _ & _ & Hd). apply Head_decode_ok in Hd as [_ Hv]. by apply runs_bounded. Qed.

Lemma dispatch_state_ok call b :
  call_block call = Some b → block_wf b →
  ∃ r w, run_pure (obj_answers (bucket_get answers)) (dispatch_state prefix chain_id (call_method call) (VArray (call_params call)) wstate_start) = (r, w) ∧
    (r = amap VString (w_outcome number b (call_spec hist h call)) ∨
     (r = AErr Limit ∧ (15 < n)%N ∧ match call with GetCode _ _ | GetStorageAt _ _ _ _ => True | _ => False end)).
Proof.
  intros Hc Hb. destruct (wreads_state call b Hc Hb wstate_start) as (r & w & E & _ & Hr).
  { split; vm_compute; discriminate. }
  { intros run shards kind index shard _ _ Hx. cbn [w_shards wstate_start] in Hx. by rewrite lookup_empty in Hx. }
  exists r, w. split; [done|]. destruct Hr as [[-> _]|[Hlim Hno]]; [by left|right; red in Hlim; subst r]. split; [done|].
  pose proof runs_at_most as Hn. destruct (decide (n <= 15)%N) as [Hle|Hgt].
  { destruct Hno. apply affords_start; [|done]. by destruct call; [left..|right|right]; cbn. }
  split; [lia|]. destruct call; try done; (destruct Hno; apply affords_start; [by left|done]).
Qed.

(** The methods that read the bucket. *)
Lemma dispatch_call_ok env call b :
  configured_chain_id env = AOk chain_id → archive_prefix env = AOk prefix → env_bucket env = true →
  call_block call = Some b → block_wf b →
  ∃ r, run_pure answers (dispatch_rpc env (call_method call) (VArray (call_params call))) = of_aresult r ∧
    (r = amap VString (w_outcome number b (call_spec hist h call)) ∨
     (r = AErr Limit ∧ (15 < n)%N ∧ match call with GetCode _ _ | GetStorageAt _ _ _ _ => True | _ => False end)).
Proof.
  intros Hchain Hpre Hbucket Hc Hb. destruct (dispatch_state_ok call b Hc Hb) as (r & w & E & Hr).
  exists r. split; [|done]. unfold dispatch_rpc.
  assert (bool_decide (call_method call ∈ archive_methods) = true ∧
    bool_decide (call_method call = "web3_clientVersion") = false ∧ bool_decide (call_method call = "eth_chainId") = false)
    as (-> & -> & ->) by (destruct call; done).
  cbn [negb]. rewrite Hchain, Hpre, Hbucket. cbn [negb]. by rewrite run_pure_bind, run_bucket, E.
Qed.
Lemma dispatch_number_ok env :
  configured_chain_id env = AOk chain_id → archive_prefix env = AOk prefix → env_bucket env = true →
  run_pure answers (dispatch_rpc env "eth_blockNumber" (VArray [])) = DOk (VString (quantity number)).
Proof.
  intros Hchain Hpre Hbucket. unfold dispatch_rpc.
  assert (bool_decide ("eth_blockNumber" ∈ archive_methods) = true) as -> by done. decide_strings. cbn [negb].
  rewrite Hchain, Hpre, Hbucket. cbn [negb]. rewrite run_pure_bind, run_bucket.
  destruct (wreads_load (bucket_get answers) prefix s chain_id h rss Ha) as (r & Hl & _ & Hh & _).
  destruct (Hl wstate_start) as (r' & w & E & _ & Hr').
  { split; vm_compute; discriminate. }
  { intros run shards kind index shard _ _ Hx. cbn [w_shards wstate_start] in Hx. by rewrite lookup_empty in Hx. }
  unfold dispatch_state, wbind at 1. rewrite run_pure_bind, E. destruct Hr' as [[-> _]|[_ Hno]].
  - decide_strings. cbn. unfold w_quantity, quantity. by rewrite Hh.
  - destruct Hno. vm_compute. split; discriminate.
Qed.

(** C4: the worker answers as the native server.  Over a bucket that holds an
    archive under the configured prefix, a well-formed call is answered with the
    JSON of the native result, byte for byte the same value, and fails exactly when
    the native one does: as unavailable beyond the published block, and as an
    integrity error otherwise.  The one difference is the limit of a request, which
    also pays for the head: a storage or code read can exceed it from 16 runs on.
    The call is any but web3_clientVersion, which the two answer with different
    names of their own. *)
Theorem worker_agrees_with_server env request body id call :
  configured_chain_id env = AOk chain_id → archive_prefix env = AOk prefix → env_bucket env = true →
  read_bounded_body request = AOk body → value_from_slice body = Ok (request_value id call) →
  valid_id id = true → call_wf call → call ≠ ClientVersion →
  ∃ response, run_pure answers (serve_rpc env request) = Some response ∧
    (response = worker_response id h call (call_spec hist h call) ∨
     (response = w_rpc_error id Limit ∧ (15 < n)%N ∧
      match call with GetCode _ _ | GetStorageAt _ _ _ _ => True | _ => False end)).
Proof.
  intros Hchain Hpre Hbucket Hbody Hv Hid Hw Hcv. unfold serve_rpc. rewrite Hbody, Hv.
  change (request_value id call) with (VObject [("id", id); ("jsonrpc", VString "2.0");
    ("method", VString (call_method call)); ("params", VArray (call_params call))]).
  set (object := [("id", id); _; _; _]).
  assert (obj_get "id" object = Some id ∧ obj_get "jsonrpc" object = Some (VString "2.0") ∧
    obj_get "method" object = Some (VString (call_method call)) ∧ obj_get "params" object = Some (VArray (call_params call)) ∧
    contains_key "id" object = true) as (Ei & Ej & Em & Ep & Ec) by done.
  rewrite Ei, Ej, Em, Ep, Ec. cbn [default mbind option_bind as_str]. unfold Datatypes.id. decide_strings. rewrite Hid. cbn [negb orb].
  destruct (call_block call) as [b|] eqn:Eb.
  - assert (block_wf b) as Hb by (unfold call_wf in Hw; by rewrite Eb in Hw).
    destruct (dispatch_call_ok env call b Hchain Hpre Hbucket Eb Hb) as (r & E & Hr).
    rewrite run_pure_bind, E. unfold worker_response. rewrite Eb.
    destruct Hr as [->|(-> & Hn & Hc)]; [|eexists; split; [reflexivity|by right]].
    destruct (call_spec hist h call); (eexists; split; [reflexivity|by left]).
  - destruct call; try done.
    + unfold dispatch_rpc. cbn [call_method call_params]. decide_strings.
      assert (bool_decide ("eth_chainId" ∈ archive_methods) = true) as -> by done. cbn [negb]. rewrite Hchain.
      eexists. split; [reflexivity|]. left. cbn. by rewrite (ar_chain _ _ _ _ Ha).
    + rewrite run_pure_bind. cbn [call_method call_params]. rewrite dispatch_number_ok by done.
      eexists. split; [reflexivity|by left].
Qed.
End requests.
