(* ===== verification/GatewayTheorems.v ===== *)
(** * What the gateway exposes

    The keys [decode_cas_key] accepts are exactly the object keys; the gateway reads
    nothing else of the bucket.  What an object is answered with is specified from the
    request's headers on their own terms: [reads] says which texts are ranges, [wanted]
    which bytes a range names, [object_answer] what the conditions make of it. *)

From stdpp Require Import pretty.
From Stdlib Require Import Strings.Ascii.
From S2P Require Import Prelude Bytes Text Externals ToyCrates Hash Format FormatFacts Json Head Worker Gateway WorkerFacts WorkerTheorems.
From Stdlib Require Import Lia ZArith.

(** ** Lower-case digits *)

Lemma lower_digit c :
  is_lower_hexdigit (Ascii.byte_of_ascii c) = true → ∃ d, (d < 16)%N ∧ hex_digit d = c.
Proof.
  intros Hc. exists (default 0%N (digit_value c)). revert Hc.
  destruct c as [[] [] [] [] [] [] [] []]; vm_compute; intros; try discriminate; done.
Qed.
Lemma digit_lower d : (d < 16)%N → is_lower_hexdigit (Ascii.byte_of_ascii (hex_digit d)) = true ∧
  hex_digit d ≠ "/"%char ∧ hex_digit d ≠ "%"%char ∧ (N_of_ascii (hex_digit d) < 128)%N.
Proof.
  intros Hd. assert (∀ n, n < 16 → let c := hex_digit (N.of_nat n) in
    is_lower_hexdigit (Ascii.byte_of_ascii c) = true ∧ c ≠ "/"%char ∧ c ≠ "%"%char ∧ (N_of_ascii c < 128)%N) as Hn.
  { intros n Hn. do 16 (destruct n as [|n]; [by vm_compute|]). lia. }
  rewrite <-(N2Nat.id d). apply Hn. lia.
Qed.
Abbreviation lower_digits := (λ s, forallb is_lower_hexdigit (byte_string s)).

Lemma pair_byte d e : (d < 16)%N → (e < 16)%N → let x := byte_of (d * 16 + e) in (byte_N x / 16 = d ∧ byte_N x mod 16 = e)%N.
Proof.
  intros Hd He. cbv zeta. rewrite byte_N_of, N.mod_small by lia. split.
  - rewrite N.div_add_l, N.div_small by lia. lia.
  - rewrite N.add_comm, N.Div0.mod_add. by apply N.mod_small.
Qed.
(** Every even string of lower-case digits is the encoding of some bytes. *)
Lemma lower_hex_surj n s : String.length s = 2 * n → lower_digits s = true → ∃ b, length b = n ∧ lower_hex b = s.
Proof.
  revert s; induction n as [|n IH]; intros s Hl Hs; cbv beta in *.
  { exists []. by destruct s. }
  destruct s as [|c1 [|c2 s]]; cbn [String.length] in Hl; [lia..|].
  change (byte_string (String c1 (String c2 s))) with (Ascii.byte_of_ascii c1 :: Ascii.byte_of_ascii c2 :: byte_string s) in Hs.
  cbn [forallb] in Hs. apply andb_true_iff in Hs as [H1 Hs]. apply andb_true_iff in Hs as [H2 Hs].
  destruct (lower_digit c1 H1) as (d & Hd & <-). destruct (lower_digit c2 H2) as (e & He & <-).
  destruct (IH s) as (b & Hb & <-); [lia|done|]. exists (byte_of (d * 16 + e) :: b). split; [by cbn; f_equal|].
  cbn [lower_hex]. destruct (pair_byte d e Hd He) as [-> ->]. done.
Qed.
(** The text of an object key needs no decoding. *)
Record key_text (s : string) : Prop := {
  kt_lower : lower_digits s = true;
  kt_slash : contains_char "/" s = false
}.
Lemma lower_hex_text b : key_text (lower_hex b) ∧ contains_char "%" (lower_hex b) = false ∧
  Forall (λ x, (byte_N x < 128)%N) (byte_string (lower_hex b)).
Proof.
  induction b as [|x b ([H1 H2] & H3 & H4)]; [by repeat split|]. destruct (byte_nibbles x) as [Hh Hl].
  destruct (digit_lower _ Hh) as (L1 & S1 & P1 & A1). destruct (digit_lower _ Hl) as (L2 & S2 & P2 & A2).
  cbn [lower_hex contains_char]. cbv beta in *.
  change (byte_string (String ?c (String ?d ?s))) with (Ascii.byte_of_ascii c :: Ascii.byte_of_ascii d :: byte_string s).
  assert (∀ c, byte_N (Ascii.byte_of_ascii c) = N_of_ascii c) as Hb
    by (intros c; by destruct c as [[] [] [] [] [] [] [] []]).
  split_and!; [split| |].
  - change (byte_string (String ?c (String ?d ?s))) with (Ascii.byte_of_ascii c :: Ascii.byte_of_ascii d :: byte_string s).
    cbn [forallb]. by rewrite L1, L2, H1.
  - cbn [contains_char]. by rewrite !bool_decide_eq_false_2, H2.
  - by rewrite !bool_decide_eq_false_2, H3.
  - by repeat constructor; rewrite ?Hb.
Qed.

Lemma percent_decode_plain s : contains_char "%" s = false → percent_decode (byte_string s) = Some (byte_string s).
Proof.
  induction s as [|c s IH]; [done|]. intros Hs. cbn [contains_char] in Hs. apply orb_false_iff in Hs as [Hc Hs].
  apply bool_decide_eq_false in Hc.
  change (byte_string (String c s)) with (Ascii.byte_of_ascii c :: byte_string s). cbn [percent_decode].
  rewrite bool_decide_eq_false_2, IH; [done|done|]. intros E. apply Hc.
  by rewrite <-(Ascii.ascii_of_byte_of_ascii c), E.
Qed.
Lemma byte_string_app s t : byte_string (s +:+ t) = byte_string s ++ byte_string t.
Proof. induction s as [|c s IH]; [done|]. change (String c s +:+ t) with (String c (s +:+ t)). cbn. by f_equal. Qed.

Section keys.
Context `{Hex, !HexLaws, !HexCanon}.

Lemma substring_prefix shard digest :
  String.length shard = 2 → String.prefix shard digest = true → String.substring 0 2 digest = shard.
Proof.
  destruct shard as [|a [|b []]]; try done. intros _. destruct digest as [|c [|d digest]]; cbn [String.prefix]; try done.
  - by destruct (ascii_dec a c).
  - destruct (ascii_dec a c) as [->|]; [|done]. destruct (ascii_dec b d) as [->|]; [|done]. intros _. cbn. by destruct digest.
Qed.
Lemma prefix_substring digest : (2 <= String.length digest)%nat → String.prefix (String.substring 0 2 digest) digest = true.
Proof.
  destruct digest as [|c [|d digest]]; cbn [String.length]; [lia..|]. intros _. cbn.
  assert (String.substring 0 0 digest = "") as -> by (by destruct digest). cbn.
  destruct (ascii_dec c c); [|done]. destruct (ascii_dec d d); [by destruct digest|done].
Qed.

(** The key of an object in its four segments. *)
Lemma object_key_split hash :
  let hex := lower_hex (arr hash) in
  split_on "/" (object_key hash) = ["objects"; "sha256"; String.substring 0 2 hex; hex].
Proof.
  cbv zeta. unfold object_key. rewrite hex_encode_spec. destruct (lower_hex_text (arr hash)) as ([_ Hs] & _).
  change ("objects/sha256/" +:+ ?t) with ("objects" +:+ String "/" ("sha256" +:+ String "/" t)).
  rewrite !split_on_segment by done. do 2 f_equal.
  pose proof (length_lower_hex (arr hash)) as Hl. rewrite length_arr in Hl. set (hex := lower_hex (arr hash)) in *.
  change (?a +:+ "/" +:+ hex) with (a +:+ String "/" hex). rewrite split_on_segment, split_on_last by
    (done || (destruct hex as [|a [|b t]]; [done..|]; cbn [contains_char] in Hs |- *;
      apply orb_false_iff in Hs as [Ha Hs]; apply orb_false_iff in Hs as [Hb _]; cbn [String.substring];
      assert (String.substring 0 0 t = "") as -> by (by destruct t); cbn [contains_char]; by rewrite Ha, Hb)).
  done.
Qed.

Lemma object_key_ascii hash :
  contains_char "%" (object_key hash) = false ∧ Forall (λ x, (byte_N x < 128)%N) (byte_string (object_key hash)).
Proof.
  unfold object_key. rewrite hex_encode_spec. destruct (lower_hex_text (arr hash)) as (_ & Hp & Ha).
  rewrite !contains_char_app, !byte_string_app, !Forall_app. set (hex := lower_hex (arr hash)) in *.
  assert (contains_char "%" (String.substring 0 2 hex) = false ∧
    Forall (λ x, (byte_N x < 128)%N) (byte_string (String.substring 0 2 hex))) as [Hp2 Ha2].
  { destruct hex as [|a [|b t]]; [by split..| |]; cbn [String.substring].
    - by split.
    - assert (String.substring 0 0 t = "") as -> by (by destruct t). cbn [contains_char] in Hp |- *.
      apply orb_false_iff in Hp as [Hpa Hp]. apply orb_false_iff in Hp as [Hpb _].
      inversion Ha as [|?? Ha1 Ha']; subst. inversion Ha' as [|?? Ha2 _]; subst. split; [by rewrite Hpa, Hpb|by repeat constructor]. }
  rewrite Hp, Hp2. split_and!; [done| |done| |done]; by repeat constructor.
Qed.

Lemma decode_object_key hash : decode_cas_key (object_key hash) = Some (object_key hash).
Proof.
  destruct (object_key_ascii hash) as [Hp Ha]. unfold decode_cas_key. rewrite percent_decode_plain by done. cbn [mbind option_bind].
  unfold from_utf8. rewrite utf8_ascii by done. 
  replace (String.string_of_list_byte (byte_string (object_key hash))) with (object_key hash)
    by (symmetry; apply String.string_of_list_byte_of_string).
  rewrite object_key_split. destruct (lower_hex_text (arr hash)) as ([Hlow _] & _). cbv beta in Hlow.
  pose proof (length_lower_hex (arr hash)) as Hl. rewrite length_arr in Hl. set (hex := lower_hex (arr hash)) in *.
  rewrite !(bool_decide_eq_true_2 (_ = _)) by done. rewrite Hl, Hlow, prefix_substring by lia.
  destruct hex as [|a [|b t]]; [done..|]. cbn [String.substring]. assert (String.substring 0 0 t = "") as -> by (by destruct t).
  change (byte_string (String a (String b t))) with (Ascii.byte_of_ascii a :: Ascii.byte_of_ascii b :: byte_string t) in Hlow.
  cbn [forallb] in Hlow. apply andb_true_iff in Hlow as [Ha1 Hlow]. apply andb_true_iff in Hlow as [Hb1 Hlow].
  cbn. by rewrite Ha1, Hb1.
Qed.

Lemma decode_cas_key_inv encoded key : decode_cas_key encoded = Some key → ∃ hash, key = object_key hash.
Proof.
  unfold decode_cas_key. destruct (percent_decode _) as [out|]; [|done]. cbn [mbind option_bind].
  destruct (from_utf8 out) as [text|]; [|done]. set (k := String.string_of_list_byte text).
  destruct (split_on_join "/" k) as [_ Hj]. destruct (split_on "/" k) as [|a [|b [|shard [|digest []]]]]; try done.
  destruct (_ || _) eqn:E; [done|]. intros [= <-]. bool_prop. subst a b.
  repeat match goal with Hx : (_ =? _)%nat = true |- _ => apply Nat.eqb_eq in Hx end.
  destruct (lower_hex_surj 32 digest) as (bs & Hbs & Ed); [done|done|].
  destruct (to_array_is_Some 32 bs Hbs) as (hash & _ & Eh). exists hash. rewrite <-Hj. cbn [join].
  unfold object_key. rewrite hex_encode_spec, Eh, Ed. rewrite (substring_prefix shard digest) by done. reflexivity.
Qed.
End keys.

(** ** Headers *)

Lemma header_of_set name value l : header_of name (header_set name value l) = Some value.
Proof.
  induction l as [|[k v] l IH]; cbn [header_set header_of]; [by rewrite bool_decide_eq_true_2|].
  case_bool_decide as E; cbn [header_of]; [by rewrite bool_decide_eq_true_2|]. by rewrite bool_decide_eq_false_2.
Qed.
Lemma header_of_set_ne name name' value l : name ≠ name' → header_of name (header_set name' value l) = header_of name l.
Proof.
  intros Hn. induction l as [|[k v] l IH]; cbn [header_set header_of]; [by rewrite bool_decide_eq_false_2|].
  case_bool_decide as E; cbn [header_of].
  - subst k. by rewrite bool_decide_eq_false_2.
  - by rewrite IH.
Qed.
Create Rewrite HintDb headers.
#[local] Hint Rewrite header_of_set : headers.
#[local] Hint Rewrite header_of_set_ne using discriminate : headers.

Definition no_store (r : Response) : Prop := header_of "cache-control" (rs_headers r) = Some "no-store".
Lemma text_no_store request status text extra :
  (∀ k v, extra = Some (k, v) → k ≠ "cache-control") → no_store (text_response request status text extra).
Proof.
  intros He. unfold no_store, text_response. destruct extra as [[k v]|]; cbn [rs_headers].
  - rewrite header_of_set_ne by (intros E; by apply (He k v)). by autorewrite with headers.
  - by autorewrite with headers.
Qed.

(** ** What the headers of a request ask

    A range is read off the header on its own: [reads] says which texts name which
    positions, and [wanted] which bytes of an object those are. *)

Definition number_of (s : string) : N := fold_left (λ n x, n * 10 + (byte_N x - 48))%N (byte_string s) 0%N.
Definition numeral (s : string) (n : N) : Prop :=
  s ≠ "" ∧ Forall (λ x, is_ascii_digit x = true) (byte_string s) ∧ number_of s = n ∧ (n <= u64_max)%N.

Inductive ByteRange := FromTo (first last : N) | From (first : N) | Suffix (count : N).
Inductive reads : string → ByteRange → Prop :=
| reads_from_to a b first last : numeral a first → numeral b last → (first <= last)%N →
    reads ("bytes=" +:+ a +:+ String "-" b) (FromTo first last)
| reads_from a first : numeral a first → reads ("bytes=" +:+ a +:+ "-") (From first)
| reads_suffix b count : numeral b count → reads ("bytes=-" +:+ b) (Suffix count).
Definition wanted (range : ByteRange) (size i : N) : Prop :=
  (i < size)%N ∧ match range with
                 | FromTo first last => first <= i <= last
                 | From first => first <= i
                 | Suffix count => size <= i + count
                 end%N.

Lemma decimal_digits_fold acc b n :
  Forall (λ x, is_ascii_digit x = true) b →
  decimal_digits acc b = Some n ∧ (acc <= u64_max)%N ↔ fold_left (λ n x, n * 10 + (byte_N x - 48))%N b acc = n ∧ (n <= u64_max)%N.
Proof.
  intros Hb. revert acc; induction Hb as [|x b Hx _ IH]; intros acc; simpl; [naive_solver|].
  rewrite Hx. rewrite <-IH. destruct (_ <=? u64_max)%N eqn:E; bool_prop.
  - split; [by intros [? _]|]. intros [? _]. split; [done|lia].
  - split; [by intros []|]. intros [_ ?]. lia.
Qed.
Lemma parse_numeral s n : all_digits s = true → s ≠ "" → parse_u64 (byte_string s) = Some n ↔ numeral s n.
Proof.
  unfold all_digits, numeral. rewrite forallb_forall. intros Hd Hne.
  assert (Forall (λ x, is_ascii_digit x = true) (byte_string s)) as HF by (apply Forall_forall; intros x Hx; by apply Hd, list_elem_of_In).
  assert (parse_u64 (byte_string s) = decimal_digits 0 (byte_string s)) as ->.
  { destruct s as [|c s]; [done|]. change (byte_string (String c s)) with (byte_of_ascii c :: byte_string s) in *.
    inversion HF as [|? ? Hc]; subst. unfold parse_u64. case_bool_decide as E; [|done]. by rewrite E in Hc. }
  pose proof (decimal_digits_fold 0 _ n HF) as Hf. unfold number_of. split.
  - intros E. split_and!; [done..| |]; apply Hf; split; try done; unfold u64_max; lia.
  - intros (_ & _ & E & Hn). by apply Hf.
Qed.
Lemma numeral_digits s n : numeral s n → all_digits s = true ∧ s ≠ "" ∧ parse_u64 (byte_string s) = Some n ∧
  (∀ c, is_ascii_digit (byte_of_ascii c) = false → contains_char c s = false).
Proof.
  intros Hs. pose proof Hs as (Hne & Hd & _). assert (all_digits s = true) as Ha.
  { apply forallb_forall. rewrite Forall_forall in Hd. intros x Hx. by apply Hd, list_elem_of_In. }
  split_and!; [done..|by apply parse_numeral|]. intros c. by apply digits_no_char.
Qed.

(** The code's answer for a range that was read. *)
Definition resolve (range : ByteRange) (size : N) : RangeRequest :=
  match range with
  | FromTo first last => range_from first size (Some last)
  | From first => range_from first size None
  | Suffix count =>
      if (count =? 0)%N || (size =? 0)%N then Unsatisfiable else Satisfiable (size - N.min count size) (N.min count size)
  end.
Lemma parse_range_reads value range size : reads value range → parse_range value size = resolve range size.
Proof.
  unfold parse_range.
  intros [a b first last (Ha & Hea & Hpa & Hca)%numeral_digits (Hb & Heb & Hpb & Hcb)%numeral_digits Hle
         |a first (Ha & Hea & Hpa & Hca)%numeral_digits|b count (Hb & Heb & Hpb & Hcb)%numeral_digits].
  - rewrite strip_prefix_app, contains_char_app. cbn [contains_char]. rewrite !Hca, !Hcb by done. cbn [orb].
    rewrite bool_decide_eq_false_2 by done. rewrite split_once_app by (by apply Hca).
    rewrite !(bool_decide_eq_false_2 (_ = "")) by done. by rewrite Ha, Hb, Hpa, Hpb.
  - rewrite strip_prefix_app, contains_char_app, Hca by done. change ("-") with (String "-" "").
    rewrite split_once_app by (by apply Hca). simpl. rewrite (bool_decide_eq_false_2 (_ = "")) by done. by rewrite Ha, Hpa.
  - change ("bytes=-" +:+ b) with ("bytes=" +:+ ("" +:+ String "-" b)). rewrite strip_prefix_app, contains_char_app.
    cbn [contains_char]. rewrite Hcb by done. cbn [orb]. rewrite split_once_app by done. simpl.
    rewrite (bool_decide_eq_false_2 (b = "")) by done. by rewrite Hb, Hpb.
Qed.
Lemma parse_range_honoured value size : parse_range value size ≠ Ignore ↔ ∃ range, reads value range.
Proof.
  split.
  - unfold parse_range. destruct (strip_prefix _ value) as [v|] eqn:Ev; [|done]. apply strip_prefix_Some in Ev as ->.
    destruct (contains_char _ v); [done|]. destruct (split_once _ v) as [[a b]|] eqn:Es; [|done].
    apply split_once_Some in Es as [-> _]. case_bool_decide as Ea.
    + subst a. destruct (bool_decide (b = "") || negb (all_digits b)) eqn:E; [done|]. bool_prop.
      destruct (parse_u64 (byte_string b)) as [n|] eqn:Ep; [|done]. intros _. exists (Suffix n).
      change (reads ("bytes=-" +:+ b) (Suffix n)). constructor. by apply parse_numeral.
    + destruct (_ || _) eqn:E; [done|]. apply orb_false_iff in E as [E E']. apply negb_false_iff in E.
      destruct (parse_u64 (byte_string a)) as [first|] eqn:Ep; [|done]. apply parse_numeral in Ep; [|done..].
      case_bool_decide as Eb; [subst b; intros _; by exists (From first); apply reads_from|]. simpl in E'. apply negb_false_iff in E'.
      destruct (parse_u64 (byte_string b)) as [last|] eqn:Eq; [|done]. apply parse_numeral in Eq; [|done..].
      unfold range_from. destruct (last <? first)%N eqn:El; [done|]. bool_prop. intros _.
      by exists (FromTo first last); apply reads_from_to.
  - intros [range Hr]. rewrite (parse_range_reads _ _ _ Hr). destruct Hr as [a b first last _ _ Hle|a first _|b count _];
      simpl; unfold range_from; repeat case_match; bool_prop; try done; lia.
Qed.
Lemma resolve_wanted range size :
  match resolve range size with
  | Satisfiable offset length => (0 < length)%N ∧ (offset + length <= size)%N ∧ ∀ i, (offset <= i < offset + length)%N ↔ wanted range size i
  | Unsatisfiable => ∀ i, ¬ wanted range size i
  | Ignore => True
  end.
Proof.
  unfold wanted. destruct range as [first last|first|count]; simpl; unfold range_from;
    repeat case_match; simplify_eq; bool_prop; try done; unfold Datatypes.id, default, from_option in *;
    try (split_and!; [lia..|]); try (intros i; lia).
  match goal with Hz : _ || _ = true |- _ => rewrite orb_true_iff, !N.eqb_eq in Hz; intros i; lia end.
Qed.

(** ** The gateway *)

Definition request_key {X} (e : r2E X) : string := match e with R2Get key _ => key | R2Head key => key end.

Section gateway.
Context `{Sha256, Keccak256, Hex, Zstd, HeadJson, SerdeJson, !HexLaws, !HexCanon}.
Context (env : Env) (request : HttpRequest).

(** The requests for objects, and the answers that are not cached. *)
Definition object_request : ∀ X, r2E X → Prop := λ X e,
  ∃ prefix hash, archive_prefix env = AOk prefix ∧ request_key e = prefix +:+ object_key hash.
Definition errors_fresh (r : option Response) : Prop :=
  ∀ response, r = Some response → (400 <= rs_status response)%N → no_store response.

Lemma serve_object_requests hash :
  always object_request errors_fresh (serve_object env request (object_key hash)).
Proof.
  unfold serve_object. destruct (env_bucket env); [|by constructor]. cbn [negb].
  destruct (archive_prefix env) as [prefix|e|m] eqn:Ep; [|by constructor..].
  assert (∀ X (e : r2E X), request_key e = prefix +:+ object_key hash → object_request X e) as Hkey.
  { intros X e He. by exists prefix, hash. }
  constructor; [by apply Hkey|]. intros [[meta|]|]; [| |by constructor].
  2:{ constructor. intros response [= <-] _. by apply text_no_store. }
  destruct (hr_header request "if-none-match") as [inm|]; [|by constructor].
  destruct (if_none_match inm _); [constructor; intros response; destruct (object_headers meta _); [by intros [= <-]|done]|].
  case_bool_decide; [constructor; intros response; destruct (object_headers meta _); [by intros [= <-]|done]|].
  set (full := Prelude.bind _ _).
  assert (always object_request errors_fresh full) as Hfull.
  { constructor; [by apply Hkey|]. intros got. constructor. intros response.
    destruct (response_body got) as [[object b]|]; [|done]. simpl. destruct (object_headers object _); [by intros [= <-]|done]. }
  destruct (hr_header request "range") as [[range|]|]; [|done|by constructor].
  destruct (hr_header request "if-range") as [ir|]; [|by constructor].
  destruct (if_range_matches ir _); [|done]. cbn [negb].
  destruct (parse_range range _) as [| |offset length]; [done| |].
  - constructor. intros response. destruct (object_headers meta _); [|done]. intros [= <-] _.
    unfold no_store. cbn [rs_headers]. by autorewrite with headers.
  - constructor; [by apply Hkey|]. intros got. constructor. intros response.
    destruct (response_body got) as [[object b]|]; [|done]. simpl. destruct (object_headers meta _); [by intros [= <-]|done].
Qed.

(** C21: the gateway exposes nothing but objects.  Whatever the bucket answers, a
    request that is not a POST reads the bucket only at keys of content-addressed
    objects under the prefix, never a head or a summary; it always gets a response,
    and no error response may be cached. *)
Theorem gateway_exposes_only_objects :
  hr_method request ≠ MPost →
  always object_request (λ r, ∃ response, r = Some response ∧ ((400 <= rs_status response)%N → no_store response))
    (gateway_main env request).
Proof.
  intros Hm. unfold gateway_main. rewrite (bool_decide_eq_false_2 (hr_method request = MPost)), andb_false_r by done.
  assert (∀ status text extra, (∀ k v, extra = Some (k, v) → k ≠ "cache-control") →
    always object_request (λ r, ∃ response, r = Some response ∧ ((400 <= rs_status response)%N → no_store response))
      (Ret (Some (text_response request status text extra)))) as Htext.
  { intros status text extra He. constructor. eexists. split; [done|]. intros _. by apply text_no_store. }
  case_bool_decide; [by apply Htext; intros k v [= <- _]|]. destruct (_ && _); [by apply Htext; intros k v [= <- _]|].
  case_bool_decide; [constructor; eexists; split; [done|]; cbn; lia|].
  destruct (_ || _); [by apply Htext|]. destruct (strip_prefix _ _) as [encoded|]; [|by apply Htext].
  destruct (decode_cas_key encoded) as [key|] eqn:Ed; [|by apply Htext].
  destruct (decode_cas_key_inv _ _ Ed) as [hash ->].
  eapply always_bind; [apply serve_object_requests|]. intros [response|] Hr; [|by apply Htext].
  constructor. exists response. split; [done|]. by apply Hr.
Qed.

(** ** Objects *)

(** A bucket that holds an object: its metadata, its bytes, and any part of them.
    The entity tag is quoted, as [http_etag] documents. *)
Definition quoted (etag : string) : Prop := ∃ tag, etag = String quote (tag +:+ String quote "").
Record object_stored (answers : ∀ X, r2E X → X) (key : string) (b : bytes) (etag : string) : Prop := {
  os_quoted : quoted etag;
  os_head : ∃ meta, answers _ (R2Head key) = Some (Some meta) ∧ ob_size meta = len b ∧ ob_etag meta = etag ∧ is_Some (ob_metadata meta);
  os_get : ∃ object body, answers _ (R2Get key None) = Some (Some object) ∧ ob_size object = len b ∧
    ob_etag object = etag ∧ is_Some (ob_metadata object) ∧ ob_body object = Some body ∧ bd_response body = Some b;
  os_range offset length : (0 < length)%N → (offset + length <= len b)%N →
    ∃ object body, answers _ (R2Get key (Some (offset, length))) = Some (Some object) ∧
      ob_body object = Some body ∧ bd_response body = Some (take (N.to_nat length) (drop (N.to_nat offset) b))
}.

(** The conditions: an item of [If-None-Match] is the tag, possibly weak, or a star;
    [If-Range] is absent or the tag. *)
Definition unchanged (inm : option string) (etag : string) : Prop :=
  ∃ value item, inm = Some value ∧ item ∈ split_on "," value ∧
    trim item ∈ [ "*"; etag; "W/*"; "W/" +:+ etag ].
Definition range_applies (if_range : option string) (etag : string) : Prop := if_range = None ∨ if_range = Some etag.

(** The whole object, no change, or the bytes of a range. *)
Definition whole (b : bytes) (r : Response) : Prop :=
  rs_status r = 200%N ∧ rs_body r = b ∧ header_of "content-length" (rs_headers r) = Some (pretty (len b)).
Definition not_modified (r : Response) : Prop := rs_status r = 304%N ∧ rs_body r = [].
Definition range_answer (b : bytes) (range : ByteRange) (r : Response) : Prop :=
  (∃ offset length, (0 < length)%N ∧ (∀ i, (offset <= i < offset + length)%N ↔ wanted range (len b) i) ∧
    rs_status r = 206%N ∧ rs_body r = take (N.to_nat length) (drop (N.to_nat offset) b) ∧
    header_of "content-length" (rs_headers r) = Some (pretty length) ∧
    header_of "content-range" (rs_headers r) =
      Some ("bytes " +:+ pretty offset +:+ "-" +:+ pretty (offset + length - 1)%N +:+ "/" +:+ pretty (len b))) ∨
  ((∀ i, ¬ wanted range (len b) i) ∧ rs_status r = 416%N ∧ rs_body r = [] ∧ no_store r ∧
    header_of "content-range" (rs_headers r) = Some ("bytes */" +:+ pretty (len b))).
(** The response to a GET with these headers. *)
Definition object_answer (b : bytes) (etag : string) (inm range if_range : option string) (r : Response) : Prop :=
  let asks bytes := ∃ value, range = Some value ∧ range_applies if_range etag ∧ reads value bytes in
  header_of "etag" (rs_headers r) = Some etag ∧
  (unchanged inm etag → not_modified r) ∧
  (¬ unchanged inm etag → (∀ bytes, asks bytes → range_answer b bytes r) ∧ ((∀ bytes, ¬ asks bytes) → whole b r)).

Lemma if_none_match_ok inm etag : quoted etag → if_none_match inm etag = true ↔ unchanged inm etag.
Proof.
  intros [tag ->]. unfold if_none_match, unchanged. destruct inm as [value|]; [|split; [done|by intros (? & ? & ? & _)]].
  assert (∀ item, let t := trim item in
    bool_decide (default t (strip_prefix "W/" t) = "*") || bool_decide (default t (strip_prefix "W/" t) = String quote (tag +:+ String quote "")) = true ↔
    t ∈ ["*"; String quote (tag +:+ String quote ""); "W/*"; "W/" +:+ String quote (tag +:+ String quote "")]) as Hitem.
  { intros item t. rewrite orb_true_iff, !bool_decide_eq_true, !elem_of_cons, elem_of_nil.
    destruct (strip_prefix "W/" t) as [u|] eqn:E; cbn [default from_option].
    - apply strip_prefix_Some in E as ->. unfold Datatypes.id. split.
      + intros [->| ->]; tauto.
      + intros [E|[E|[E|[E|[]]]]]; [done|done|left; by apply (string_app_cancel "W/" u "*") in E|right; by apply string_app_cancel in E].
    - split; [tauto|]. intros [->|[->|[E'|[E'|[]]]]]; [by left|by right| |]; exfalso; rewrite E' in E;
        [change "W/*" with ("W/" +:+ "*") in E|]; by rewrite strip_prefix_app in E. }
  rewrite existsb_exists. split.
  - intros (item & Hin & Hi). exists value, item. split_and!; [done|by apply list_elem_of_In|by apply Hitem].
  - intros (v & item & [= <-] & Hin & Hi). exists item. split; [by apply list_elem_of_In|by apply Hitem].
Qed.
Lemma text_ends_with_last c s : ends_with_char c (s +:+ String c "") = true.
Proof.
  induction s as [|d s IH]; [by apply bool_decide_eq_true_2|]. change (String d s +:+ ?t) with (String d (s +:+ t)).
  cbn [ends_with_char] in *. by destruct (s +:+ String c "").
Qed.
Lemma if_range_ok if_range etag : quoted etag → if_range_matches if_range etag = true ↔ range_applies if_range etag.
Proof.
  intros [tag ->]. unfold if_range_matches, range_applies. destruct if_range as [value|]; [|naive_solver].
  rewrite !andb_true_iff, bool_decide_eq_true. split; [intros [[-> _] _]; by right|]. intros [|[= ->]]; [done|].
  split; [done|]. apply (text_ends_with_last quote (String quote tag)).
Qed.

Lemma object_headers_ok object length : is_Some (ob_metadata object) →
  ∃ headers, object_headers object length = Some headers ∧ header_of "etag" headers = Some (ob_etag object) ∧
    ∀ n, length = Some n → header_of "content-length" headers = Some (pretty n).
Proof.
  intros [metadata Hm]. unfold object_headers. rewrite Hm. eexists. split; [reflexivity|].
  destruct length; split; [by autorewrite with headers| |by autorewrite with headers|done].
  intros m [= <-]. by autorewrite with headers.
Qed.
Ltac use_headers object n :=
  let headers := fresh "headers" in let E := fresh "E" in let Het := fresh "Het" in let Hlen := fresh "Hlen" in
  destruct (object_headers_ok object n) as (headers & E & Het & Hlen); [assumption|]; rewrite E; cbn [mbind option_bind].
Lemma answer_range b etag inm value if_range r :
  ¬ unchanged inm etag → range_applies if_range etag → (∃ bytes, reads value bytes) →
  header_of "etag" (rs_headers r) = Some etag → (∀ bytes, reads value bytes → range_answer b bytes r) →
  object_answer b etag inm (Some value) if_range r.
Proof.
  intros Hch Ha [bytes Hrd] He Hr. split; [done|]. split; [done|]. intros _. split.
  - intros bytes' (v & [= <-] & _ & Hv). by apply Hr.
  - intros Hno. destruct (Hno bytes). by exists value.
Qed.
(** [serve_object] on a GET of a stored object. *)
Lemma serve_object_ok answers prefix key b etag inm range if_range :
  hr_method request = MGet → env_bucket env = true → archive_prefix env = AOk prefix →
  object_stored answers (prefix +:+ key) b etag →
  hr_header request "if-none-match" = Some inm → hr_header request "range" = Some range →
  hr_header request "if-range" = Some if_range →
  ∃ response, run_pure answers (serve_object env request key) = Some response ∧ object_answer b etag inm range if_range response.
Proof.
  intros Hm Hb Hp [Hq (meta & Eh & Hs & He & Hmd) (object & body & Eg & Hgs & Hge & Hgd & Hgb & Hgr) Hrange] Hi Hr Hir.
  unfold serve_object. rewrite Hb, Hp. cbn [negb]. rewrite run_pure_bind. cbn [run_pure Prelude.request].
  rewrite Eh, Hi, He, Hr, Hir, Hm. rewrite (bool_decide_eq_false_2 (MGet = MHead)) by done.
  destruct (if_none_match inm etag) eqn:En.
  { apply if_none_match_ok in En; [|done]. cbn [run_pure]. use_headers meta (@None N).
    eexists. split; [reflexivity|]. split; [by rewrite <-He|]. split; [done|by intros []]. }
  assert (¬ unchanged inm etag) as Hch by (by rewrite <-if_none_match_ok, En). clear En.
  set (full := Prelude.bind _ _).
  assert (∃ response, run_pure answers full = Some response ∧ header_of "etag" (rs_headers response) = Some etag ∧ whole b response) as Hfull.
  { unfold full. rewrite run_pure_bind. cbn [run_pure Prelude.request]. unfold response_body. rewrite Eg.
    cbn [mbind option_bind]. rewrite Hgb. cbn [mbind option_bind]. rewrite Hgr. cbn [mbind option_bind].
    use_headers object (Some (ob_size object)). eexists. split; [reflexivity|]. rewrite <-Hge. split; [done|].
    split_and!; [done..|]. rewrite <-Hgs. by apply Hlen. }
  assert ((∀ value bytes, range = Some value → range_applies if_range etag → ¬ reads value bytes) →
    ∃ response, run_pure answers full = Some response ∧ object_answer b etag inm range if_range response) as Hall.
  { intros Hno. destruct Hfull as (response & E & He' & Hw). exists response. split; [done|].
    split; [done|]. split; [done|]. intros _. split; [|done]. intros bytes (v & -> & Ha & Hrd). by destruct (Hno v bytes). }
  destruct range as [range|]; [|by apply Hall].
  destruct (if_range_matches if_range etag) eqn:Ei; cbn [negb]; rewrite ?Hs.
  2:{ apply Hall. intros v bytes _ Ha. by rewrite <-if_range_ok, Ei in Ha. }
  apply if_range_ok in Ei; [|done].
  destruct (parse_range range (len b)) as [| |offset length] eqn:Ep.
  { apply Hall. intros v bytes [= <-] _. intros Hrd. apply (proj2 (parse_range_honoured range (len b))); [by exists bytes|done]. }
  all: assert (∃ bytes, reads range bytes) as Hreads by (apply (parse_range_honoured range (len b)); by rewrite Ep).
  - cbn [run_pure]. use_headers meta (Some 0%N). eexists. split; [reflexivity|]. cbn [rs_headers].
    apply answer_range; [done..|cbn [rs_headers]; by rewrite !header_of_set_ne, <-He by done|]. intros bytes Hrd. right.
    pose proof (resolve_wanted bytes (len b)) as Hw. rewrite <-(parse_range_reads _ _ _ Hrd), Ep in Hw.
    split; [done|]. cbn [rs_status rs_body rs_headers]. unfold no_store. cbn [rs_headers]. by autorewrite with headers.
  - pose proof Hreads as [bytes0 Hrd0]. pose proof (resolve_wanted bytes0 (len b)) as Hw0.
    rewrite <-(parse_range_reads _ _ _ Hrd0), Ep in Hw0. destruct Hw0 as (Hpos & Hle & _).
    destruct (Hrange offset length Hpos Hle) as (o & bd & Eo & Ho & Hbd).
    rewrite run_pure_bind. cbn [run_pure Prelude.request]. unfold response_body. rewrite Eo. cbn [mbind option_bind].
    rewrite Ho. cbn [mbind option_bind]. rewrite Hbd. cbn [mbind option_bind].
    use_headers meta (Some length). eexists. split; [reflexivity|]. cbn [rs_headers].
    apply answer_range; [done..|cbn [rs_headers]; by rewrite header_of_set_ne, <-He by done|]. intros bytes Hrd. left.
    pose proof (resolve_wanted bytes (len b)) as Hw. rewrite <-(parse_range_reads _ _ _ Hrd), Ep in Hw.
    exists offset, length. cbn [rs_status rs_body rs_headers]. autorewrite with headers.
    split_and!; try done; [by apply Hw|by apply Hlen].
Qed.

(** C22: a GET of an object gets the object.  Over a bucket that holds an object, the
    response to a GET of its key carries its entity tag.  It is 304 exactly when an
    item of [If-None-Match] is the tag, weak or not, or a star.  Otherwise, when
    [If-Range] is absent or the tag and [Range] reads [bytes=a-b] with [a <= b],
    [bytes=a-] or [bytes=-n] in decimal numbers of 64 bits, it is 206 with the bytes
    of the object at the positions from [a] to [b], from [a] on, or the last [n], with their
    length and position, or 416 when there are none; and in every other case it is
    the whole object. *)
Theorem object_get_exact answers prefix hash b etag inm range if_range :
  hr_path request = "/objects/" +:+ object_key hash → hr_method request = MGet →
  env_bucket env = true → archive_prefix env = AOk prefix →
  object_stored answers (prefix +:+ object_key hash) b etag →
  hr_header request "if-none-match" = Some inm → hr_header request "range" = Some range →
  hr_header request "if-range" = Some if_range →
  ∃ response, run_pure answers (gateway_main env request) = Some response ∧
    object_answer b etag inm range if_range response.
Proof.
  intros Hpath Hm Hb Hp Hos Hi Hr Hir.
  destruct (serve_object_ok answers prefix (object_key hash) b etag inm range if_range Hm Hb Hp Hos Hi Hr Hir)
    as (response & E & Ha).
  exists response. split; [|done]. unfold gateway_main. rewrite Hpath, Hm.
  rewrite !(bool_decide_eq_false_2 (_ +:+ _ = _)) by (unfold object_key; discriminate). cbn [orb andb].
  rewrite (bool_decide_eq_true_2 (MGet = MGet)) by done. cbn [negb andb].
  rewrite strip_prefix_app, decode_object_key, run_pure_bind, E. done.
Qed.
End gateway.
