(* ===== verification/HeadSteps.v ===== *)
(** * Head transitions

    Publication appends a level-0 run; compaction replaces the oldest level-0
    runs and the levels they cascade through by one run.  Both keep a head
    valid, so that every head the program swaps in decodes again. *)

From S2P Require Import Prelude Bytes SortedLists Externals Hash RunFormat Head HeadFacts Store Compact Format Tiered.
From Stdlib Require Import Lia.

(** ** Lists of runs *)

Lemma chained_app a l k c : chained a (l ++ k) c ↔ ∃ b, chained a l b ∧ chained b k c.
Proof.
  revert a; induction l as [|r l IH]; intros a; simpl; [naive_solver|]. rewrite IH. naive_solver.
Qed.

Lemma chained_det a l b c : chained a l b → chained a l c → b = c.
Proof. revert a; induction l as [|r l IH]; intros a; simpl; [congruence|naive_solver]. Qed.

Lemma flatten_app {A} (l k : list (option A)) : flatten (l ++ k) = flatten l ++ flatten k.
Proof. induction l as [|[x|] l IH]; simpl; [done|by rewrite IH|done]. Qed.

Lemma flatten_none {A} (l : list (option A)) : (∀ x, x ∈ l → x = None) → flatten l = [].
Proof.
  induction l as [|[x|] l IH]; intros Hl; [done| |].
  - by specialize (Hl (Some x) ltac:(set_solver)).
  - apply IH. set_solver.
Qed.

(** Dropping empty levels at the end changes neither the runs nor the
    positions. *)
Lemma drop_trailing_none_flatten l : flatten (rev (drop_trailing_none l)) = flatten (rev l).
Proof.
  induction l as [|x l IH]; [done|]. cbn [drop_trailing_none rev]. rewrite flatten_app, <-IH.
  destruct (drop_trailing_none l) as [|y k]; [by destruct x|].
  destruct x as [r|]; cbn [rev]; by rewrite !flatten_app.
Qed.
Lemma drop_trailing_none_lookup l i r :
  drop_trailing_none l !! i = Some (Some r) → l !! i = Some (Some r).
Proof.
  revert i; induction l as [|x l IH]; intros i; [done|]. cbn [drop_trailing_none].
  destruct (drop_trailing_none l) as [|y k] eqn:E.
  - destruct x as [x|]; [|done]. by destruct i.
  - destruct x as [x|], i as [|i]; try done; simpl; apply IH.
Qed.
Lemma drop_trailing_none_length l : length (drop_trailing_none l) ≤ length l.
Proof.
  induction l as [|x l IH]; [done|]. cbn [drop_trailing_none].
  destruct (drop_trailing_none l) as [|y k]; destruct x; simpl in *; lia.
Qed.

(** ** Planning a compaction *)

(** The runs of the levels below [n], shallowest first. *)
Definition shallow (n : nat) (levels : list (option Run)) : list Run := flatten (take n levels).

Lemma unit_of_S i : unit_of (S i) = (unit_of i * FANOUT)%N.
Proof.
  unfold unit_of. replace (N.of_nat (S i)) with (N.succ (N.of_nat i)) by lia.
  rewrite N.pow_succ_r by lia. lia.
Qed.
Lemma unit_of_pos i : (0 < unit_of i)%N.
Proof. unfold unit_of, L0_TRIGGER, FANOUT. pose proof (N.pow_nonzero 8 (N.of_nat i)). lia. Qed.
Lemma unit_of_bound i : (i < 8)%nat → (unit_of i * FANOUT <= 67108864)%N.
Proof.
  intros Hi. unfold unit_of, FANOUT, L0_TRIGGER.
  pose proof (N.pow_le_mono_r 8 (N.of_nat i) 7). change (8 ^ 7)%N with 2097152%N in *. lia.
Qed.

(** A level's weight plus a full unit from below is at most the level's
    capacity, and again a multiple of the unit. *)
Lemma level_sum i w : level_ok i w → 
  (unit_of i + run_weight w <= unit_of i * FANOUT)%N ∧ ((unit_of i + run_weight w) mod unit_of i = 0)%N.
Proof.
  intros (Hz & Hm & Hlt). pose proof (unit_of_pos i) as Hp.
  apply N.Div0.mod_divides in Hm as [q Hq]. rewrite Hq in *.
  split.
  - assert (q < FANOUT)%N by nia. unfold FANOUT in *. nia.
  - replace (unit_of i + unit_of i * q)%N with ((1 + q) * unit_of i)%N by lia. by apply N.Div0.mod_mul.
Qed.

(** What planning returns from level [target] on. *)
Record planned_from (target : nat) (levels0 : list (option Run)) (levels : list (option Run))
    (weight : N) (t : nat) : Prop := {
  pl_target : target ≤ t < 8;
  pl_levels : levels = replicate (S t) None ++ drop (S t) levels0;
  pl_weight_pos : weight ≠ 0%N;
  pl_weight_mod : (weight mod unit_of t = 0)%N;
  pl_weight_lt : (weight < unit_of t * FANOUT)%N
}.

(** One turn of the loop: the level is emptied. *)
Lemma take_level target (levels0 levels : list (option Run)) :
  levels = replicate target None ++ drop target levels0 →
  let levels1 := if (length levels =? target)%nat then levels ++ [None] else levels in
  levels1 !! target = Some (default None (levels0 !! target)) ∧
  <[target := None]> levels1 = replicate (S target) None ++ drop (S target) levels0 ∧
  length levels1 > target.
Proof.
  intros -> levels1. unfold levels1. clear levels1.
  destruct (decide (length levels0 ≤ target)) as [Hle|Hgt].
  - rewrite (drop_ge levels0 target) by done. rewrite app_nil_r, length_replicate, Nat.eqb_refl.
    rewrite (drop_ge levels0 (S target)), app_nil_r by lia. rewrite (lookup_ge_None_2 levels0) by done.
    split_and!.
    + rewrite lookup_app_r by (rewrite length_replicate; lia). by rewrite length_replicate, Nat.sub_diag.
    + rewrite insert_app_r_alt by (rewrite length_replicate; lia). rewrite length_replicate, Nat.sub_diag.
      by rewrite replicate_S_end.
    + rewrite length_app, length_replicate. simpl. lia.
  - assert (length (replicate target (@None Run) ++ drop target levels0) ≠ target) as Hne
      by (rewrite length_app, length_replicate, length_drop; lia).
    rewrite (proj2 (Nat.eqb_neq _ _) Hne).
    destruct (lookup_lt_is_Some_2 levels0 target) as [x Hx]; [lia|]. rewrite Hx.
    rewrite (drop_S levels0 x target) by done. split_and!.
    + rewrite lookup_app_r by (rewrite length_replicate; lia). by rewrite length_replicate, Nat.sub_diag.
    + rewrite insert_app_r_alt by (rewrite length_replicate; lia). rewrite length_replicate, Nat.sub_diag.
      by rewrite replicate_S_end, <-app_assoc.
    + rewrite length_app, length_replicate. simpl. lia.
Qed.

Lemma shallow_S n levels r :
  levels !! n = Some (Some r) → shallow (S n) levels = shallow n levels ++ [r].
Proof. intros Hr. unfold shallow. by rewrite (take_S_r _ _ _ Hr), flatten_app. Qed.
Lemma shallow_S_none n levels :
  default None (levels !! n) = None → shallow (S n) levels = shallow n levels.
Proof.
  intros Hn. unfold shallow. destruct (levels !! n) as [x|] eqn:E; simpl in Hn.
  - subst. rewrite (take_S_r _ _ _ E), flatten_app. simpl. by rewrite app_nil_r.
  - apply lookup_ge_None_1 in E. by rewrite !take_ge by lia.
Qed.

(** Planning on the levels of a valid head never finds a level over its
    capacity; it fails only when a full cascade leaves the last level. *)
Lemma plan_levels_ok fuel target levels0 levels weight deeper :
  (∀ i r, levels0 !! i = Some (Some r) → level_ok i r) →
  levels = replicate target None ++ drop target levels0 →
  weight = unit_of target → deeper = shallow target levels0 → target ≤ 8 → 8 < fuel + target →
  (∃ levels' weight' t, plan_levels fuel levels weight deeper target =
     Ok (levels', weight', shallow (S t) levels0, t) ∧ planned_from target levels0 levels' weight' t) ∨
  (plan_levels fuel levels weight deeper target = bail "tiered history exceeds the bounded level count" ∧
   ∀ i, target ≤ i < 8 → ∃ r, levels0 !! i = Some (Some r) ∧ run_weight r = (unit_of i * (FANOUT - 1))%N).
Proof.
  intros Hok. revert target levels weight deeper. induction fuel as [|fuel IH]; intros target levels weight deeper
    Hlv Hw Hdp Ht Hf; [lia|].
  cbn [plan_levels]. destruct (MAX_LEVELS <=? N.of_nat target)%N eqn:Em; bool_prop.
  { right. split; [done|]. unfold MAX_LEVELS in Em. lia. }
  assert (target < 8) as Ht8 by (unfold MAX_LEVELS in Em; lia).
  destruct (take_level target levels0 levels Hlv) as (Hx & Hi & _). cbn zeta in *.
  set (levels1 := if (length levels =? target)%nat then levels ++ [None] else levels) in *.
  rewrite Hx, Hi. pose proof (unit_of_bound target Ht8) as Hb. pose proof (unit_of_pos target) as Hp.
  destruct (default None (levels0 !! target)) as [r|] eqn:Er.
  - assert (levels0 !! target = Some (Some r)) as Hr by (destruct (levels0 !! target); simpl in Er; by subst).
    destruct (level_sum target r (Hok _ _ Hr)) as [Hsum Hmod].
    assert (wrapping_add64 weight (run_weight r) = unit_of target + run_weight r)%N as Ea.
    { rewrite Hw. apply N.mod_small. unfold u64_max. lia. }
    rewrite Ea, Hdp, <-(shallow_S target levels0 r) by done.
    destruct (_ <? _)%N eqn:El; bool_prop.
    + left. eexists _, _, target. split; [reflexivity|]. split; [lia|done|lia|done|done].
    + assert (unit_of target + run_weight r = unit_of target * FANOUT)%N as Ee by lia.
      rewrite Ee, N.eqb_refl. cbn [negb]. rewrite <-unit_of_S.
      destruct (IH (S target) (replicate (S target) None ++ drop (S target) levels0) (unit_of (S target))
        (shallow (S target) levels0)) as [(lv & w & t & E & [H1 H2 H3 H4 H5])|[E Hfull]]; [done..|lia|lia| |].
      * left. exists lv, w, t. split; [done|]. split; try done. lia.
      * right. split; [done|]. intros i Hi'. destruct (decide (i = target)) as [->|]; [|apply Hfull; lia].
        exists r. split; [done|]. unfold FANOUT in *. lia.
  - assert (weight <? unit_of target * FANOUT = true)%N as ->
      by (apply N.ltb_lt; rewrite Hw; unfold FANOUT; lia).
    left. eexists _, _, target. split; [by rewrite Hdp, (shallow_S_none target levels0)|].
    split; [lia|done| | |]; rewrite Hw; [lia|apply N.Div0.mod_same|unfold FANOUT; lia].
Qed.

Lemma flatten_rev {A} (l : list (option A)) : flatten (rev l) = rev (flatten l).
Proof.
  induction l as [|[x|] l IH]; [done|..]; cbn [rev flatten]; rewrite flatten_app, IH; [done|].
  by rewrite app_nil_r.
Qed.

(** ** The runs of a compacted head *)

(** The levels a plan leaves deeper than its target, oldest first. *)
Definition deep (t : nat) (levels : list (option Run)) : list Run := flatten (rev (drop (S t) levels)).
Definition plan_inputs (t : nat) (levels : list (option Run)) (l0 : list Run) : list Run :=
  rev (shallow (S t) levels) ++ take (N.to_nat L0_TRIGGER) l0.

Lemma runs_split t h :
  runs h = deep t (h_levels h) ++ plan_inputs t (h_levels h) (h_l0 h) ++ drop (N.to_nat L0_TRIGGER) (h_l0 h).
Proof.
  unfold runs, deep, plan_inputs, shallow.
  rewrite <-(take_drop (S t) (h_levels h)) at 1. rewrite rev_app_distr, flatten_app, (flatten_rev (take _ _)).
  by rewrite <-!app_assoc, take_drop.
Qed.

Lemma compacted_levels t levels0 levels weight target run :
  planned_from target levels0 levels weight t →
  flatten (rev (drop_trailing_none (<[t := Some run]> levels))) = deep t levels0 ++ [run].
Proof.
  intros [_ -> _ _ _]. rewrite drop_trailing_none_flatten, insert_app_l by (rewrite length_replicate; lia).
  rewrite rev_app_distr, flatten_app. unfold deep. f_equal.
  rewrite replicate_S_end, insert_app_r_alt by (by rewrite length_replicate).
  rewrite length_replicate, Nat.sub_diag. simpl. rewrite rev_app_distr. simpl. f_equal.
  apply flatten_none. intros x Hx. apply list_elem_of_In, in_rev, list_elem_of_In in Hx.
  by apply elem_of_replicate in Hx as [-> _].
Qed.

Lemma compacted_runs t levels weight target run planned current :
  planned_from target (h_levels planned) levels weight t → h_levels current = h_levels planned →
  runs (compacted_head (drop_trailing_none (<[t := Some run]> levels)) current) =
  deep t (h_levels current) ++ [run] ++ drop (N.to_nat L0_TRIGGER) (h_l0 current).
Proof.
  intros Hp El. unfold runs. cbn [compacted_head h_levels h_l0].
  rewrite (compacted_levels _ _ _ _ _ _ Hp), El. by rewrite <-app_assoc.
Qed.

(** ** Intervals *)

Lemma checked_succ n m : checked_add u64_max n 1 = Some m → m = (n + 1)%N ∧ (n < u64_max)%N ∧ wrapping_add64 n 1 = m.
Proof.
  unfold checked_add. destruct (_ <=? _)%N eqn:E; [|done]. intros [= <-]. bool_prop.
  split_and!; [done|lia|]. apply wrapping_succ. lia.
Qed.

(** A run that spans contiguous inputs takes their place in a chain. *)
Lemma chained_replace a inputs b first stop :
  chained a inputs b → noncontiguous inputs = false → head inputs = Some first → last inputs = Some stop →
  a = run_start first ∧ (run_start first <= run_end stop)%N ∧ b = wrapping_add64 (run_end stop) 1.
Proof.
  revert a first; induction inputs as [|r l IH]; intros a first Hc Hn Hh Hl; [done|].
  injection Hh as ->. simpl in Hc. destruct Hc as (Hs & Hle & Hc).
  destruct l as [|y l].
  { injection Hl as ->. simpl in Hc. done. }
  unfold noncontiguous in Hn. cbn [windows2_any] in Hn. apply orb_false_iff in Hn as [He Hn]. bool_prop.
  apply checked_succ in He as (He & Hlt & Hw).
  destruct (IH _ y Hc Hn eq_refl Hl) as (Ha & Hle' & Hb). split_and!; [done|lia|done].
Qed.

(** ** Transitions *)

Section transitions.
Context `{Sha256, Hex}.

(** Nothing but the parent changes. *)
Lemma with_parent_valid p h : head_valid h → head_valid (with_parent p h).
Proof. intros [????????]. by split. Qed.

(** What publication needs of the head it extends. *)
Definition extendable (previous : option Head) (start : N) : Prop :=
  match previous with
  | Some h => head_valid h ∧ (len (h_l0 h) < MAX_L0_BACKLOG)%N ∧
              checked_add u64_max (h_number h) 1 = Some start
  | None => start = 0%N
  end.

Definition runs_of (previous : option Head) : list Run :=
  match previous with Some h => runs h | None => [] end.

Lemma next_head_runs package first stop run previous :
  runs (next_head package first stop run previous) = runs_of previous ++ [run].
Proof. destruct previous as [h|]; [|done]. unfold runs. simpl. by rewrite app_assoc. Qed.

Lemma next_head_valid package first stop run previous :
  extendable previous (run_start run) → root_ok run → run_weight run = 1%N →
  (run_start run <= run_end run)%N → run_end run = bm_number stop →
  head_valid (next_head package first stop run previous).
Proof.
  intros He Hr Hw Hle Hend. pose proof (next_head_runs package first stop run previous) as Hruns.
  destruct previous as [h|]; simpl in He.
  - destruct He as ([Hm Hl Hv Hlw Hvw Hro Hne Hc] & Hb & Hs). apply checked_succ in Hs as (Hs & Hlt & Hwr).
    split; [done| |done| |done| | |]; rewrite ?Hruns; simpl.
    + unfold len in *. rewrite length_app. simpl. lia.
    + apply Forall_app. split; [done|]. by constructor.
    + apply Forall_app. split; [done|]. by constructor.
    + by destruct (runs h).
    + apply chained_app. exists (run_start run). split; [by rewrite <-Hwr|]. simpl. split_and!; [done|done|by rewrite Hend].
  - split; [done|vm_compute; discriminate|vm_compute; discriminate| |by intros [|i] r| | |]; rewrite ?Hruns; simpl.
    + by constructor.
    + by constructor.
    + done.
    + split_and!; [done|lia|by rewrite Hend].
Qed.

Lemma compacted_valid t levels weight run planned current first stop :
  head_valid current → planned_from 0 (h_levels planned) levels weight t → h_levels current = h_levels planned →
  let inputs := plan_inputs t (h_levels current) (h_l0 current) in
  noncontiguous inputs = false → head inputs = Some first → last inputs = Some stop →
  run_start run = run_start first → run_end run = run_end stop → run_weight run = weight → root_ok run →
  head_valid (compacted_head (drop_trailing_none (<[t := Some run]> levels)) current).
Proof.
  intros [Hm Hl Hv Hlw Hvw Hro Hne Hc] Hp El inputs Hn Hfirst Hlast Hs He Hw Hr.
  pose proof (compacted_runs t levels weight 0 run planned current Hp El) as Hruns.
  rewrite (runs_split t current) in Hro, Hc. fold inputs in Hro, Hc.
  destruct Hp as [Ht Hlv Hw0 Hwm Hwl].
  split; [done| | | | | | |]; rewrite ?Hruns.
  - simpl. unfold len in *. rewrite length_drop. lia.
  - simpl. rewrite El in Hv. unfold len, MAX_LEVELS in *. rewrite Hlv.
    pose proof (drop_trailing_none_length (<[t:=Some run]> (replicate (S t) None ++ drop (S t) (h_levels planned)))) as Hd.
    rewrite length_insert, length_app, length_replicate, length_drop in Hd. lia.
  - simpl. by apply Forall_drop.
  - simpl. intros i r Hi%drop_trailing_none_lookup. rewrite Hlv in Hi.
    apply list_lookup_insert_Some in Hi as [(-> & [= ->] & _)|[Hne' Hi]].
    + unfold level_ok. rewrite Hw. done.
    + apply lookup_app_Some in Hi as [Hi|[Hi' Hi]]; [by apply lookup_replicate in Hi as [? _]|].
      rewrite length_replicate, lookup_drop in *. apply Hvw. rewrite El. by replace i with (S t + (i - S t)) by lia.
  - apply Forall_app in Hro as [Hr1 Hr2]. apply Forall_app in Hr2 as [_ Hr3].
    apply Forall_app. split; [done|]. apply Forall_app. split; [by constructor|done].
  - by destruct (deep t (h_levels current)).
  - apply chained_app in Hc as (a & Hc1 & Hc2). apply chained_app in Hc2 as (b & Hc2 & Hc3).
    destruct (chained_replace _ _ _ _ _ Hc2 Hn Hfirst Hlast) as (-> & Hle & ->).
    apply chained_app. exists (run_start first). split; [done|].
    apply chained_app. exists (wrapping_add64 (run_end stop) 1). split; [|done].
    simpl. rewrite Hs, He. done.
Qed.

End transitions.

(** Compaction can always be planned.  On a valid head, the cascade never
    meets a level over its capacity and never runs out of fuel: it stops at a
    level below eight with a weight that is a positive multiple of the level's
    unit and below its capacity, emptying exactly the levels up to it, whose
    runs are the inputs; or all eight levels are full. *)
Theorem compaction_plan_total `{Sha256, Hex} h :
  head_valid h →
  (∃ levels weight t, plan_levels (S (N.to_nat MAX_LEVELS)) (h_levels h) L0_TRIGGER [] 0 =
     Ok (levels, weight, shallow (S t) (h_levels h), t) ∧
     planned_from 0 (h_levels h) levels weight t ∧
     runs h = deep t (h_levels h) ++ plan_inputs t (h_levels h) (h_l0 h) ++ drop (N.to_nat L0_TRIGGER) (h_l0 h)) ∨
  (plan_levels (S (N.to_nat MAX_LEVELS)) (h_levels h) L0_TRIGGER [] 0 =
     bail "tiered history exceeds the bounded level count" ∧
   ∀ i, i < 8 → ∃ r, h_levels h !! i = Some (Some r) ∧ run_weight r = (unit_of i * (FANOUT - 1))%N).
Proof.
  intros Hv. destruct (plan_levels_ok (S (N.to_nat MAX_LEVELS)) 0 (h_levels h) (h_levels h) L0_TRIGGER [])
    as [(levels & weight & t & E & Hp)|[E Hf]]; [apply Hv|done|done|done|lia|vm_compute; lia|left|right].
  - exists levels, weight, t. split_and!; [done|done|apply runs_split].
  - split; [done|]. intros i Hi. apply Hf. lia.
Qed.
