(* ===== verification/Calm.v ===== *)
(** * Writing a run beside other programs

    [write_sorted] and [merge_runs] only read, and put objects and shards: this
    holds whatever the store answers, so also when other programs run between
    their requests.  What they return is in any case a run whose root matches
    its reference.

    The objects of an archive never change, so such a program does not depend on
    when its requests are answered.  [strict] programs stop at the first failed
    request: when one of them has succeeded, [replays] says that a memory store that
    holds the objects it met answers the same, and is left as it is.  What is proved
    of a run on a memory store then holds of a run that was interleaved with others. *)

From S2P Require Import Prelude Bytes SortedLists Externals Hash RunFormat RunFormatFacts RunBuilder RunReader RunBuild RunEmission Head HeadFacts Summary SummaryFacts Store Compact CompactFacts MergeFacts.
From Stdlib Require Import Lia.

(** The keys of a run's objects and of its summary shards. *)
Definition data_key `{Hex} (key : string) : Prop :=
  (∃ h, key = object_key h) ∨ ∃ run shards kind index, key = shard_path run shards kind index.
Lemma data_key_object `{Hex} h : data_key (object_key h).
Proof. left. by exists h. Qed.
Lemma data_key_shard `{Hex} run shards kind index : data_key (shard_path run shards kind index).
Proof. right. by eexists _, _, _, _. Qed.
Lemma data_key_immutable `{Hex} key : data_key key → immutable_key key = true.
Proof. intros [(h & ->)|(run & shards & kind & index & ->)]; [apply object_key_immutable|apply shard_path_immutable]. Qed.
#[export] Hint Resolve data_key_object data_key_shard data_key_immutable : core.

(** Requests for these keys alone, which leave every head as it is. *)
Definition calm `{Hex} (X : Type) (e : storeE X) : Prop :=
  match e with
  | SGetBounded key _ | SPutImmutable key _ => data_key key
  | Now => True
  | _ => False
  end.
Abbreviation calmly := (always calm (λ _, True)).

Section calm.
Context `{Sha256, Hex, Zstd}.

(** Built runs, without the store. *)
Record built_ok (built : BuiltRun) : Prop := {
  bo_length : len (built_root_bytes built) = ref_length (built_root built);
  bo_digest : digest (built_root_bytes built) = ref_digest (built_root built);
  bo_u32 : (ref_length (built_root built) <= u32_max)%N;
  bo_power : is_power_of_two (built_shards built) = true;
  bo_shards : (built_shards built <= u32_max)%N;
  bo_keys : (built_keys built <= u64_max)%N
}.
Definition ok_built (r : result BuiltRun) : Prop := ∀ built, r = Ok built → built_ok built.

Lemma calm_fetch reference : calmly (fetch reference).
Proof.
  unfold fetch. destruct (_ || _); [by constructor|]. constructor; [apply data_key_object|]. intros [b|e]; [|by constructor].
  destruct (_ || _); by constructor.
Qed.

Lemma calm_put_all objects :
  Forall (λ o, data_key o.1) objects → calmly (put_all objects).
Proof.
  induction 1 as [|[key b] objects Hk HF IH]; [by constructor|]. constructor; [done|].
  intros [[]|e]; [exact IH|by constructor].
Qed.

Lemma keyed_data objects : Forall (λ o, data_key o.1) (keyed objects).
Proof. apply Forall_fmap, Forall_true. intros o. apply data_key_object. Qed.

Lemma finish_data b run : Forall (λ o, data_key o.1) (SummaryBuilder_finish b run).
Proof.
  unfold SummaryBuilder_finish. apply Forall_app. split; apply Forall_forall; intros o Ho;
    apply elem_of_lookup_imap in Ho as (i & bits & -> & _); apply data_key_shard.
Qed.

Lemma calm_fetch_handler X (e : fetchE X) : calmly (fetch_handler X e).
Proof. destruct e. apply calm_fetch. Qed.

Lemma calm_page_lists readers : calmly (page_lists readers).
Proof.
  induction readers as [|r readers IH]; [by constructor|]. cbn [page_lists].
  eapply always_bind; [apply always_interp; intros; apply calm_fetch_handler|]. intros [pages|e] _; [|by constructor].
  eapply always_bind; [exact IH|]. intros [rest|e] _; by constructor.
Qed.

Lemma calm_fetch_batch batch : calmly (fetch_batch batch).
Proof.
  induction batch as [|p batch IH]; [by constructor|]. cbn [fetch_batch].
  eapply always_bind; [apply calm_fetch|]. intros [b|e] _; [|by constructor].
  eapply always_bind; [exact IH|]. intros [rest|e] _; by constructor.
Qed.

Lemma calm_next_ahead lists s ready : calmly (next_ahead lists s ready).
Proof.
  apply always_interp_st. intros X [reference] r. simpl. unfold read_ahead_get.
  destruct (ready_find _ _); [by constructor|]. destruct (batch_from _ _).
  - eapply always_bind; [apply calm_fetch_batch|]. intros [[|[d b] rest]|e] _; by constructor.
  - eapply always_bind; [apply calm_fetch|]. by constructor.
Qed.

Lemma calm_first_heads lists scanners ready : calmly (first_heads lists scanners ready).
Proof.
  revert ready; induction scanners as [|s scanners IH]; intros ready; [by constructor|]. cbn [first_heads].
  eapply always_bind; [apply calm_next_ahead|]. intros [[s' [h|e]] r] _; [|by constructor].
  eapply always_bind; [apply IH|]. intros [[[ss hs] r']|e] _; by constructor.
Qed.

(** The summary of a merge is the initial one with keys added. *)
Definition summary_of (b0 : SummaryBuilder) (r : result SummaryBuilder * list RunRecord) : Prop :=
  ∀ b, r.1 = Ok b → ∃ keys, b = add_keys b0 keys.

Lemma calm_merge_loop fuel lists p b0 keys :
  pr_summary p = add_keys b0 keys → always calm (summary_of b0) (merge_loop fuel lists p).
Proof.
  revert p keys; induction fuel as [|fuel IH]; intros p keys Hp; [by constructor|]. cbn [merge_loop].
  destruct (choose_head _ _ _) as [[[index record]|]|e]; [|constructor|by constructor].
  2: { intros b [= <-]. eauto. }
  destruct (pr_scanners p !! index) as [scanner|]; [|by constructor].
  eapply always_bind; [apply calm_next_ahead|]. intros [[s' [h|e]] r] _; [|by constructor].
  case_bool_decide; cbn [negb].
  - by apply (IH _ keys).
  - apply (IH _ (keys ++ [rec_key record])). simpl. rewrite Hp. unfold add_keys. by rewrite fold_left_app.
Qed.

Lemma calm_producer fuel lists readers expected :
  always calm (λ r, ∀ b, r.1 = Ok b → ∃ b0 keys, SummaryBuilder_new expected = Ok b0 ∧ b = add_keys b0 keys)
    (producer fuel lists readers expected).
Proof.
  unfold producer. destruct (SummaryBuilder_new expected) as [b0|e]; [|by constructor].
  eapply always_bind; [apply calm_first_heads|]. intros [[[scanners heads] ready]|e] _; [|by constructor].
  eapply always_weaken; [by apply (calm_merge_loop _ _ _ b0 [])|].
  intros r Hr b Hb. destruct (Hr b Hb) as [keys ->]. eauto.
Qed.

(** ** What they return *)

Lemma new_shards expected b keys :
  SummaryBuilder_new expected = Ok b →
  is_power_of_two (sb_shards (add_keys b keys)) = true ∧ (sb_shards (add_keys b keys) <= u32_max)%N ∧
  (sb_keys (add_keys b keys) <= u64_max)%N.
Proof.
  intros Hb. pose proof (SummaryBuilder_new_bound _ _ Hb) as Hmax.
  destruct (SummaryBuilder_new_ok expected Hmax) as (b' & size & Hb' & Hsize & Hcount & Hi).
  assert (b' = b) as -> by congruence.
  destruct (shard_count_spec expected Hmax) as (k & Hk & Hk31 & _).
  destruct (add_keys_inv size b keys [] (Hi _)) as [Hi' Hsh].
  pose proof (wf_shards _ _ (inv_wf _ _ _ Hi')). split_and!.
  - rewrite Hsh, Hcount, Hk. apply is_power_of_two_pow.
  - lia.
  - apply add_keys_count. unfold SummaryBuilder_new in Hb.
    destruct (div_ceil _ (shard_count _)); [|done]. destruct (div_ceil _ 8); [|done].
    destruct (_ <? _)%N; [done|]. by injection Hb as <-.
Qed.

(** The root is the last object of a build. *)
Lemma build_root records reference objects :
  build collect_object records [] = (Ok reference, objects) →
  ∃ earlier root, objects = earlier ++ [root] ∧ small_last objects = obj_bytes root ∧
    len (obj_bytes root) = ref_length reference ∧ digest (obj_bytes root) = ref_digest reference ∧
    (ref_length reference <= u32_max)%N.
Proof.
  intros Hb. pose proof (build_triple records [] eq_refl) as Ht. rewrite Hb in Ht.
  destruct Ht as (He & earlier & refs & root & -> & Hr & Hrb & Hlr). exists earlier, root.
  destruct (emission_objects _ root He) as [Hm Hl]; [set_solver|].
  apply make_object_inv in Hm as [Hm Hu].
  assert (ref_length reference = len (obj_bytes root) ∧ ref_digest reference = digest (obj_bytes root)) as [E1 E2]
    by (rewrite <-Hr, Hm; done).
  rewrite E1, E2. split_and!; [done| |done|done|].
  - eapply small_last_root; [done|]. rewrite Hrb, len_root_payload by done. vm_compute. done.
  - unfold MAX_PAGE_BYTES, u32_max in *. lia.
Qed.

Lemma calm_write_sorted records : always calm ok_built (write_sorted records).
Proof.
  unfold write_sorted. destruct (SummaryBuilder_new _) as [b|] eqn:Eb; [|by constructor].
  destruct (build collect_object records []) as [[root|e] objects] eqn:E; [|by constructor].
  destruct (last objects) as [o|] eqn:El; [|by constructor]. cbn [unwrap].
  eapply always_bind; [apply calm_put_all, keyed_data|]. intros [[]|e] _; [|by constructor].
  eapply always_bind; [apply calm_put_all, finish_data|]. intros [[]|e] _; [|by constructor].
  constructor. intros built [= <-].
  destruct (build_root _ _ _ E) as (earlier & r & -> & _ & Hl & Hd & Hu). rewrite last_snoc in El. injection El as ->.
  destruct (new_shards _ _ (distinct_keys None records) Eb) as (Hp & Hs & Hk). split; done.
Qed.

Lemma calm_merge_runs fuel inputs expected : always calm ok_built (merge_runs fuel inputs expected).
Proof.
  unfold merge_runs. destruct (collect _ _) as [readers|]; [|by constructor].
  eapply always_bind; [apply calm_page_lists|]. intros [lists|e] _; [|by constructor].
  eapply always_bind; [apply calm_producer|]. intros [produced records] Hprod.
  destruct (build collect_object records []) as [built objects] eqn:E.
  eapply always_bind; [apply calm_put_all, keyed_data|]. intros uploaded _.
  destruct produced as [summary|e]; [|by constructor]. destruct built as [root|e]; [|by constructor].
  destruct uploaded as [[]|e]; [|by constructor].
  eapply always_bind; [apply calm_put_all, finish_data|]. intros [[]|e] _; [|by constructor].
  constructor. intros built [= <-].
  destruct (build_root _ _ _ E) as (earlier & r & -> & Hsl & Hl & Hd & Hu).
  destruct (Hprod summary eq_refl) as (b0 & keys & Eb & ->). destruct (new_shards _ _ keys Eb) as (Hp & Hs & Hk).
  split; simpl; rewrite ?Hsl; done.
Qed.

End calm.

(** ** Programs that stop *)

(** [stops P failed bad p]: the requests of [p] satisfy [P], and after one that
    [failed] the result is [bad]. *)
Inductive stops {E : Type → Type} (P : ∀ X, E X → Prop) (failed : ∀ X, E X → X → Prop) {A} (bad : A → Prop)
    : prog E A → Prop :=
| stops_ret a : stops P failed bad (Ret a)
| stops_vis {X} (e : E X) k :
    P X e → (∀ x, ¬ failed X e x → stops P failed bad (k x)) → (∀ x, failed X e x → always P bad (k x)) →
    stops P failed bad (Vis e k).

Definition is_err {A} (r : result A) : Prop := match r with Err _ => True | Ok _ => False end.
#[export] Instance is_err_dec {A} (r : result A) : Decision (is_err r).
Proof. destruct r as [a|e]; [right; by intros []|by left]. Defined.

Lemma always_stops {E A} P failed (bad : A → Prop) (p : prog E A) : always P bad p → stops P failed bad p.
Proof. induction 1 as [a _|X e k He Hk IH]; constructor; auto. Qed.

Lemma stops_always {E : Type → Type} {P failed} `{Hfailed : ∀ X (e : E X) x, Decision (failed X e x)} {A} (bad : A → Prop) (p : prog E A) : stops P failed bad p → always P (λ _, True) p.
Proof.
  induction 1 as [a|X e k He _ IH Hx]; constructor; [done|done|]. intros x.
  destruct (decide (failed X e x)) as [Hfail|Hok]; [|by apply IH]. eapply always_weaken; [by apply Hx|done].
Qed.

Section stops.
Context {E : Type → Type} {P : ∀ X, E X → Prop} {failed : ∀ X, E X → X → Prop}.
Context {Hfailed : ∀ X (e : E X) x, Decision (failed X e x)}.

Lemma stops_bind {A B} (bad : A → Prop) (bad' : B → Prop) `{!∀ a, Decision (bad a)} (p : prog E A) (f : A → prog E B) :
  stops P failed bad p → (∀ a, ¬ bad a → stops P failed bad' (f a)) → (∀ a, bad a → always P bad' (f a)) →
  stops P failed bad' (bind p f).
Proof.
  intros Hp Hf Hb. induction Hp as [a|X e k He _ IH Hx]; cbn [bind].
  - destruct (decide (bad a)) as [Ha|Ha]; [by apply always_stops, Hb|by apply Hf].
  - constructor; [done|done|]. intros x Hfail. eapply always_bind; eauto.
Qed.

(** [?] after a program. *)
Lemma stops_try {A B} (p : prog E (result A)) (f : A → prog E (result B)) :
  stops P failed is_err p → (∀ a, stops P failed is_err (f a)) → stops P failed is_err (let! a := p in f a).
Proof.
  intros Hp Hf. eapply (stops_bind is_err); [apply _|exact Hp|..]; intros [a|e] Ha; [apply Hf|by destruct Ha|by destruct Ha|].
  by constructor.
Qed.

End stops.

Section interp.
Context {E F : Type → Type} {P : ∀ X, E X → Prop} {failed : ∀ X, E X → X → Prop}.
Context {Hfailed : ∀ X (e : E X) x, Decision (failed X e x)}.
Context {P' : ∀ X, F X → Prop} {failed' : ∀ X, F X → X → Prop}.
Context {Hfailed' : ∀ X (e : F X) x, Decision (failed' X e x)}.

Lemma stops_interp_st {S A} (bad : A → Prop) (h : ∀ X, E X → S → prog F (X * S)) (p : prog E A) s :
  (∀ X e s, P X e → stops P' failed' (λ r, failed X e r.1) (h X e s)) →
  stops P failed bad p → stops P' failed' (λ r, bad r.1) (interp_st h p s).
Proof using Hfailed Hfailed'.
  intros Hh Hp. revert s; induction Hp as [a|X e k He Hk IH Hx]; intros s; cbn [interp_st]; [constructor|].
  assert (∀ q s, always P bad q → always P' (λ r, bad r.1) (interp_st h q s)) as Hbad.
  { clear -Hh Hfailed'. intros q s Hq. revert s; induction Hq as [a Ha|X e k He _ IH]; intros s; cbn [interp_st]; [by constructor|].
    eapply always_bind; [by apply (stops_always (Hfailed := Hfailed') _ _ (Hh _ _ _ He))|]. intros [x s'] _. apply IH. }
  eapply (stops_bind (λ r, failed X e r.1)); [intros r; apply Hfailed|by apply Hh|..]; intros [x s'] Hx'; [by apply IH|by apply Hbad, Hx].
Qed.

Lemma stops_interp {A} (bad : A → Prop) (h : ∀ X, E X → prog F X) (p : prog E A) :
  (∀ X e, P X e → stops P' failed' (failed X e) (h X e)) → stops P failed bad p → stops P' failed' bad (interp h p).
Proof using Hfailed Hfailed'.
  intros Hh Hp. induction Hp as [a|X e k He Hk IH Hx]; cbn [interp]; [constructor|].
  assert (∀ q, always P bad q → always P' bad (interp h q)) as Hbad.
  { clear -Hh Hfailed'. induction 1 as [a Ha|X e k He _ IH]; cbn [interp]; [by constructor|].
    eapply always_bind; [by apply (stops_always (Hfailed := Hfailed') _ _ (Hh _ _ He))|]. intros x _. apply IH. }
  eapply (stops_bind (failed X e)); [intros r; apply Hfailed|by apply Hh|..]; intros x Hx'; [by apply IH|by apply Hbad, Hx].
Qed.
End interp.

(** ** Replaying requests for data *)

(** The objects and shards of runs. *)
Definition data_request `{Hex} X (e : storeE X) : Prop :=
  match e with SGetBounded key _ | SPutImmutable key _ => data_key key | _ => False end.
Definition data_failed X (e : storeE X) : X → Prop :=
  match e in storeE X return X → Prop with SGetBounded _ _ => is_err | SPutImmutable _ _ => is_err | _ => λ _, False end.
#[export] Instance data_failed_dec X (e : storeE X) (x : X) : Decision (data_failed X e x) :=
  match e in storeE X return ∀ x, Decision (data_failed X e x) with
  | SGetBounded _ _ | SPutImmutable _ _ => λ x, is_err_dec x
  | _ => λ _, right (λ f, f)
  end x.
Abbreviation strict := (stops data_request data_failed).

(** The memory store answers the program as before, and is left as it is. *)
Definition replays {A} (p : prog storeE A) (a : A) (s : MemoryState) : Prop :=
  ∀ s' now, keeps s s' → run_prog (mem_handle now) p s' = (a, s').

(** What a memory store must hold to answer a request in this way. *)
Definition answered X (e : storeE X) : X → MemoryState → Prop :=
  match e in storeE X return X → MemoryState → Prop with
  | SGetBounded key maximum => λ x s, ∃ b, x = Ok b ∧ stored s key b ∧ (len b <= maximum)%N
  | SPutImmutable key b => λ x s, x = Ok tt ∧ stored s key b
  | _ => λ _ _, False
  end.

Section replay.
Context `{Hex}.

Lemma replays_ret {A} (a : A) s : replays (Ret a) a s.
Proof. by intros s' now _. Qed.
Lemma replays_mono {A} (p : prog storeE A) a s s' : keeps s s' → replays p a s → replays p a s'.
Proof. intros Hk Hr s2 now Hs. apply Hr. by etrans. Qed.
Lemma replays_vis {A X} (e : storeE X) x (k : X → prog storeE A) a s :
  data_request X e → answered X e x s → replays (k x) a s → replays (Vis e k) a s.
Proof.
  intros He Hx Hr s' now Hs. destruct e; simpl in He, Hx; try done; cbn [run_prog mem_handle].
  - destruct Hx as (b & -> & Hb & Hl). rewrite (stored_get s' key b); [by apply Hr| |done]. apply Hs; [by apply data_key_immutable|done].
  - destruct Hx as [-> Hb]. apply (Hs _ _ (data_key_immutable _ He)) in Hb as (e & Hk & Hbe).
    unfold mem_put_immutable. rewrite Hk, bool_decide_eq_true_2 by done. by apply Hr.
Qed.
End replay.


(** ** Fetches *)

Definition fetch_failed X (e : fetchE X) : X → Prop :=
  match e in fetchE X return X → Prop with Fetch _ => is_err end.
#[export] Instance fetch_failed_dec X (e : fetchE X) (x : X) : Decision (fetch_failed X e x) :=
  match e in fetchE X return ∀ x, Decision (fetch_failed X e x) with Fetch _ => λ x, is_err_dec x end x.
Abbreviation fetches := (stops (λ X (_ : fetchE X), True) fetch_failed).

Lemma fetches_object message reference : fetches is_err (fetch_object message reference).
Proof.
  unfold fetch_object. cbn [request bind]. constructor; [done|intros x _; constructor|].
  intros [b|e] He; [by destruct He|by constructor].
Qed.

Ltac try_fetch := first [apply fetches_object | assumption].
(** The steps of a program that uses [?] after every fetch. *)
Ltac fetch_step :=
  first
    [ progress cbv zeta
    | apply stops_ret
    | apply stops_try; [try_fetch|intros ?]
    | match goal with
      | |- stops _ _ _ (match ?c with _ => _ end) => destruct c
      | |- stops _ _ _ (if ?c then _ else _) => destruct c
      end ].

Section fetches.
Context `{Sha256, Zstd}.

Lemma fetches_walk_parents shard parents refs leaves : fetches is_err (walk_parents shard parents refs leaves).
Proof.
  revert refs leaves; induction parents as [|parent parents IH]; intros refs leaves; [constructor|]. cbn [walk_parents].
  repeat fetch_step. apply IH.
Qed.
Lemma fetches_walk reader : fetches is_err (walk reader).
Proof.
  unfold walk. generalize 0, (@nil ObjectRef), (@nil (list ObjectRef)).
  induction (reader_indexes reader) as [|root indexes IH]; intros shard refs pages; [constructor|]. cbn [walk_from].
  repeat fetch_step; [apply IH|].
  apply stops_try; [|intros [refs' leaves]; apply IH]. repeat fetch_step. apply fetches_walk_parents.
Qed.
Lemma fetches_data_pages reader : fetches is_err (data_pages reader).
Proof. apply stops_try; [apply fetches_walk|]. intros [refs pages]. constructor. Qed.

Lemma fetches_load_leaf shard c : fetches is_err (load_leaf shard c).
Proof. unfold load_leaf. repeat fetch_step. Qed.
Lemma fetches_load_page shard c : fetches is_err (load_page shard c).
Proof. unfold load_page. repeat fetch_step. Qed.
Lemma fetches_ready shard c : fetches is_err (PartitionCursor_ready shard c).
Proof.
  assert (∀ fuel c, fetches is_err (ready_loop fuel shard c)) as Hloop.
  { induction fuel as [|fuel IH]; intros c'; [constructor|]. cbn [ready_loop]. repeat fetch_step.
    apply stops_try; [apply fetches_load_leaf|]. intros [c1 more]. repeat fetch_step.
    apply stops_try; [apply fetches_load_page|apply IH]. }
  assert (fetches is_err (initialize_cursor shard c)) as Hinit by (unfold initialize_cursor; repeat fetch_step).
  apply stops_try; [exact Hinit|]. intros [c' continue]. destruct (negb continue); [constructor|apply Hloop].
Qed.
Lemma fetches_ready_all shard cursors : fetches is_err (ready_all shard cursors).
Proof.
  revert shard; induction cursors as [|c cursors IH]; intros shard; [constructor|]. cbn [ready_all].
  apply stops_try; [apply fetches_ready|]. intros c'. apply stops_try; [apply IH|constructor].
Qed.
Lemma fetches_next s : fetches (λ r, is_err r.2) (RunScanner_next s).
Proof.
  unfold RunScanner_next. destruct (scan_failed s); [constructor|].
  eapply (stops_bind is_err); [apply _|apply fetches_ready_all|..]; intros [cursors|e] Hr;
    [|by destruct Hr|by destruct Hr|by constructor].
  destruct (min_front 0 cursors) as [[shard record]|]; constructor.
Qed.
End fetches.

(** ** Building and merging *)

Section compact.
Context `{Sha256, Hex, Zstd}.

Lemma strict_get key maximum : data_key key → strict is_err (request (SGetBounded key maximum)).
Proof. intros Hk. constructor; [done|intros; constructor|]. intros x Hx. by constructor. Qed.
Lemma strict_put key b : data_key key → strict is_err (request (SPutImmutable key b)).
Proof. intros Hk. constructor; [done|intros; constructor|]. intros x Hx. by constructor. Qed.

Lemma strict_fetch reference : strict is_err (fetch reference).
Proof.
  unfold fetch. destruct (_ || _); [constructor|]. apply stops_try; [apply strict_get, data_key_object|].
  intros b. destruct (_ || _); constructor.
Qed.
Lemma strict_fetch_handler X (e : fetchE X) : strict (fetch_failed X e) (fetch_handler X e).
Proof. destruct e. apply strict_fetch. Qed.

Lemma strict_put_all objects : Forall (λ o, data_key o.1) objects → strict is_err (put_all objects).
Proof.
  induction 1 as [|[key b] objects Hk HF IH]; [constructor|]. cbn [put_all].
  apply stops_try; [by apply strict_put|]. intros []. exact IH.
Qed.

Lemma strict_write_sorted records : strict is_err (write_sorted records).
Proof.
  unfold write_sorted. destruct (SummaryBuilder_new _) as [b|]; [|constructor]. cbv zeta.
  destruct (build collect_object records []) as [[root|e] objects]; [|constructor].
  destruct (unwrap (last objects)) as [o|]; [|constructor].
  apply stops_try; [apply strict_put_all, keyed_data|]. intros [].
  apply stops_try; [apply strict_put_all, finish_data|]. intros []. constructor.
Qed.

Lemma strict_page_lists readers : strict is_err (page_lists readers).
Proof.
  induction readers as [|r readers IH]; [constructor|]. cbn [page_lists].
  apply stops_try; [|intros pages; apply stops_try; [exact IH|constructor]].
  apply (stops_interp (P := λ X (_ : fetchE X), True) (Hfailed := fetch_failed_dec) (Hfailed' := data_failed_dec) is_err fetch_handler); [|apply fetches_data_pages].
  intros X e _. apply strict_fetch_handler.
Qed.

Lemma strict_fetch_batch batch : strict is_err (fetch_batch batch).
Proof.
  induction batch as [|page batch IH]; [constructor|]. cbn [fetch_batch].
  apply stops_try; [apply strict_fetch|]. intros b. apply stops_try; [exact IH|constructor].
Qed.

Lemma strict_read_ahead lists X (e : fetchE X) ready :
  strict (λ r, fetch_failed X e r.1) (read_ahead_handler lists X e ready).
Proof.
  destruct e as [reference]. cbn [read_ahead_handler]. unfold read_ahead_get. destruct (ready_find _ _); [constructor|].
  destruct (batch_from _ _).
  - eapply (stops_bind is_err); [apply _|apply strict_fetch_batch|..]; intros [fetched|e] Hr;
      [|by destruct Hr|by destruct Hr|by constructor].
    destruct fetched as [|[d b] rest]; constructor.
  - eapply (stops_bind is_err); [apply _|apply strict_fetch|..]; intros r Hr; by constructor.
Qed.
Lemma strict_next_ahead lists s ready : strict (λ r, is_err r.1.2) (next_ahead lists s ready).
Proof.
  apply (stops_interp_st (P := λ X (_ : fetchE X), True) (Hfailed := fetch_failed_dec) (Hfailed' := data_failed_dec) (λ r, is_err r.2)); [|apply fetches_next]. intros X e s' _. apply strict_read_ahead.
Qed.

(** A scanner that failed fails the task. *)
Lemma strict_next_then {A} (bad : A → Prop) lists s ready (f : RunScanner * result (option RunRecord) * Ready → prog storeE A) :
  (∀ s h r, strict bad (f (s, Ok h, r))) → (∀ s e r, always data_request bad (f (s, Err e, r))) →
  strict bad (bind (next_ahead lists s ready) f).
Proof.
  intros Hok Herr. eapply (stops_bind (λ r, is_err r.1.2)); [intros r; apply is_err_dec|apply strict_next_ahead|..];
    intros [[s' [h|e]] r] Hr; [apply Hok|by destruct Hr|by destruct Hr|apply Herr].
Qed.

Lemma strict_first_heads lists scanners ready : strict is_err (first_heads lists scanners ready).
Proof.
  revert ready; induction scanners as [|s scanners IH]; intros ready; [constructor|]. cbn [first_heads].
  apply strict_next_then; [|by constructor]. intros s' h r. cbv zeta.
  apply stops_try; [apply IH|]. intros [[ss hs] r']. constructor.
Qed.

(** The result of the producer, beside what it has sent. *)
Abbreviation task_failed := (λ r : result SummaryBuilder * list RunRecord, is_err r.1).
Lemma strict_merge_loop fuel lists p : strict task_failed (merge_loop fuel lists p).
Proof.
  revert p; induction fuel as [|fuel IH]; intros p; [constructor|]. cbn [merge_loop].
  destruct (choose_head _ _ _) as [[[index record]|]|e]; [|constructor..].
  destruct (pr_scanners p !! index) as [scanner|]; [|constructor].
  apply strict_next_then; [intros; apply IH|by constructor].
Qed.
Lemma strict_producer fuel lists readers expected : strict task_failed (producer fuel lists readers expected).
Proof.
  unfold producer. destruct (SummaryBuilder_new _); [|constructor].
  eapply (stops_bind is_err); [apply _|apply strict_first_heads|..]; intros [[[scanners heads] ready]|e] Hr;
    [|by destruct Hr|by destruct Hr|by constructor]. apply strict_merge_loop.
Qed.

Lemma data_put_all {A} (bad : A → Prop) objects (f : result unit → prog storeE A) :
  Forall (λ o, data_key o.1) objects → (∀ r, always data_request bad (f r)) → always data_request bad (bind (put_all objects) f).
Proof.
  intros Ho Hf. eapply always_bind; [exact (stops_always (Hfailed := data_failed_dec) _ _ (strict_put_all _ Ho))|]. intros r _. apply Hf.
Qed.
Lemma strict_merge_runs fuel inputs expected : strict is_err (merge_runs fuel inputs expected).
Proof.
  unfold merge_runs. destruct (collect _ inputs) as [readers|]; [|constructor].
  apply stops_try; [apply strict_page_lists|]. intros lists.
  eapply (stops_bind task_failed); [intros r; apply is_err_dec|apply strict_producer|..]; intros [[summary|e] records] Hr;
    [|by destruct Hr|by destruct Hr|]; destruct (build collect_object records []) as [built objects].
  - eapply (stops_bind is_err); [apply _|apply strict_put_all, keyed_data|..]; intros uploaded Hu.
    + destruct built as [root|]; [|constructor]. destruct uploaded as [[]|]; [|constructor].
      apply stops_try; [apply strict_put_all, finish_data|]. constructor.
    + destruct built as [root|]; [|by constructor]. destruct uploaded as [[]|]; [by destruct Hu|by constructor].
  - apply data_put_all; [apply keyed_data|]. intros uploaded. by constructor.
Qed.
End compact.
