(* ===== verification/PublishFacts.v ===== *)
(** * Histories, and publication on a memory store

    What holds of the records of an archive's runs, and of the requests that
    [publish] and [compact_once] make on a memory store. *)

From stdpp Require Import sorting pretty.
From S2P Require Import Prelude Bytes SortedLists Externals Hash RunFormat RunReader RunRep Head HeadFacts Summary Store Compact CompactFacts MergeFacts Format Tiered TieredReader ReaderFacts ReaderTheorems HeadSteps Calm.
From Stdlib Require Import Lia Sorting.Sorted.

(** ** Histories

    The records of an archive's runs are ordered by block for every key, so the
    state of a history does not depend on how its records are divided into
    runs: merging runs keeps every state. *)

(** The versions of a key come in the order of their blocks. *)
Definition keyed_order (r r' : RunRecord) : Prop := rec_key r = rec_key r' → (rec_block r < rec_block r')%N.
Definition history (l : list RunRecord) : Prop := StronglySorted keyed_order l.

Lemma version_lt r r' : clt (rec_version r) (rec_version r') → keyed_order r r'.
Proof.
  intros Hlt Hk. apply clt_not_cle in Hlt. unfold rec_version in Hlt at 1.
  destruct (N.lt_ge_cases (rec_block r) (rec_block r')) as [|Hge]; [done|].
  destruct Hlt. apply (version_le r' (rec_key r) (rec_block r)). right. by split.
Qed.

Lemma sorted_history l : sorted_by rec_version l → history l.
Proof.
  unfold sorted_by, history. induction 1 as [|x l Hs IH HF]; constructor; [done|].
  eapply Forall_impl; [exact HF|]. intros y. apply version_lt.
Qed.

Lemma history_state_at_perm l l' key block :
  history l → history l' → l ≡ₚ l' → state_at l key block = state_at l' key block.
Proof.
  intros Hl Hl' Hp. unfold state_at. do 2 f_equal.
  set (P := λ r, rec_key r = key ∧ (rec_block r <= block)%N).
  assert (∀ k, history k → StronglySorted (λ r r', (rec_block r < rec_block r')%N) (filter P k)) as Hs.
  { induction 1 as [|x k Hs IH HF]; [constructor|]. rewrite filter_cons. case_decide as Hx; [|done].
    constructor; [done|]. apply Forall_forall. intros y [Hy Hin]%list_elem_of_filter.
    rewrite Forall_forall in HF. apply HF; [done|]. destruct Hx, Hy. congruence. }
  assert (AntiSymm (=) (λ r r' : RunRecord, (rec_block r < rec_block r')%N)) by (intros x y; lia).
  apply (StronglySorted_unique (λ r r' : RunRecord, (rec_block r < rec_block r')%N)); [by apply Hs..|].
  by apply filter_Permutation.
Qed.

Lemma history_NoDup l : history l → NoDup (map rec_version l).
Proof.
  induction 1 as [|x l Hs IH HF]; simpl; [constructor|]. constructor; [|done].
  intros (y & E & Hy)%list_elem_of_fmap. rewrite Forall_forall in HF. specialize (HF y Hy).
  injection E as Ek Eb. specialize (HF Ek). lia.
Qed.

Lemma history_app l k :
  history (l ++ k) ↔ history l ∧ history k ∧ ∀ x y, x ∈ l → y ∈ k → keyed_order x y.
Proof. unfold history. rewrite sorting.StronglySorted_app. tauto. Qed.

Lemma contiguous_app a l k c : contiguous a (l ++ k) c ↔ ∃ b, contiguous a l b ∧ contiguous b k c.
Proof. revert a; induction l as [|r l IH]; intros a; simpl; [naive_solver|]. rewrite IH. naive_solver. Qed.

Lemma contiguous_bounds a l b r :
  contiguous a l b → r ∈ l → (a <= run_start r)%N ∧ (run_end r < b)%N.
Proof.
  revert a; induction l as [|x l IH]; intros a Hc Hr; [set_solver|]. simpl in Hc.
  destruct Hc as (Hs & Hle & Hc). pose proof (contiguous_cover _ _ _ Hc) as [Hb _].
  apply elem_of_cons in Hr as [->|Hr]; [lia|]. specialize (IH _ Hc Hr). lia.
Qed.

Section history_facts.
Context `{Sha256, Hex, Zstd}.

Lemma run_stored_sorted s r rs : run_stored s r rs → sorted_by rec_version rs.
Proof. intros [(root & reader & _ & _ & Hr & _) _ _]. apply Hr. Qed.

(** Blocks of the records of contiguous runs. *)
Lemma stored_bounds s l rss a b x :
  contiguous a l b → Forall2 (run_stored s) l rss → x ∈ concat rss → (a <= rec_block x < b)%N.
Proof.
  intros Hc HF (rs & Hx & Hrs)%elem_of_concat. apply list_elem_of_lookup in Hrs as [i Hi].
  destruct (Forall2_lookup_r _ _ _ _ _ HF Hi) as (r & Hr & [_ _ Hblk]).
  destruct (contiguous_bounds a l b r Hc) as [Hs He]; [by eapply list_elem_of_lookup_2|].
  rewrite Forall_forall in Hblk. specialize (Hblk x Hx). lia.
Qed.

Lemma contiguous_history s l rss a b :
  contiguous a l b → Forall2 (run_stored s) l rss → history (concat rss).
Proof.
  intros Hc HF. revert a Hc; induction HF as [|r rs l rss Hr HF IH]; intros a Hc; [constructor|].
  simpl in Hc. destruct Hc as (Hs & Hle & Hc). simpl. apply history_app. split_and!.
  - by eapply sorted_history, run_stored_sorted.
  - by eapply IH.
  - intros x y Hx Hy _. destruct (stored_bounds _ _ _ _ _ _ Hc HF Hy) as [Hb _].
    destruct Hr as [_ _ Hblk]. rewrite Forall_forall in Hblk. specialize (Hblk x Hx). lia.
Qed.

Lemma archive_contiguous `{Keccak256, HeadJson, !HeadJsonLaws} s chain_id h rss :
  archive s chain_id h rss → contiguous 0 (runs h) (h_number h + 1).
Proof.
  intros [(e & _ & _ & Hd) _ He _]. apply Head_decode_ok in Hd as [Hj Hv].
  apply head_contiguous; [done|by eapply head_json_wf|done].
Qed.

Lemma archive_history `{Keccak256, HeadJson, !HeadJsonLaws} s chain_id h rss :
  archive s chain_id h rss → history (concat rss).
Proof. intros Ha. eapply contiguous_history; [by eapply archive_contiguous|apply Ha]. Qed.

(** Two archives with the same records answer alike. *)
Lemma archive_same_states `{Keccak256, HeadJson, !HeadJsonLaws} s s' chain_id h h' rss rss' :
  archive s chain_id h rss → archive s' chain_id h' rss' → concat rss ≡ₚ concat rss' →
  ∀ key block, state_at (concat rss') key block = state_at (concat rss) key block.
Proof.
  intros Ha Ha' Hp key block. symmetry.
  apply history_state_at_perm; [by eapply archive_history|by eapply archive_history|done].
Qed.

Lemma inputs_of_runs s l rss refs :
  Forall2 (run_stored s) l rss → collect Run_input l = Ok refs → inputs_stored s refs rss.
Proof.
  intros HF Hc. apply collect_Forall2 in Hc. revert refs Hc.
  induction HF as [|r rs l rss [(root & reader & Hh & Hd & Hr & _) _ _] HF IH]; intros refs Hc; inversion Hc; subst.
  - constructor.
  - constructor; [|by apply IH]. unfold Run_input in *. rewrite Hh in *. simplify_eq. by exists reader.
Qed.

End history_facts.

(** ** Publication and compaction on a memory store

    [swap] replaces the head and nothing else; a successful [publish] appends
    the package's records to the history, and a successful [compact_once] keeps
    every state of it. *)

(** The integer fields of a package that reach the head. *)
Record wf_package (p : Package) : Prop := {
  wf_pk_chain : (sg_chain_id (pk_segment p) <= u64_max)%N;
  wf_pk_blocks : Forall (λ b, (bm_number b <= u64_max)%N) (sg_blocks (pk_segment p))
}.

Lemma head_key_mutable chain_id : immutable_key (head_key chain_id) = false.
Proof. reflexivity. Qed.

(** Every key that is not a content-addressed object or a shard is left alone. *)
Definition same_heads (s s' : MemoryState) : Prop :=
  ∀ key, immutable_key key = false → ms_entries s' !! key = ms_entries s !! key.

#[global] Instance same_heads_preorder : PreOrder same_heads.
Proof. split; [by intros s key _|]. intros a b c Hab Hbc key Hk. by rewrite Hbc, Hab. Qed.

Section widths.

Lemma next_head_wf package first stop run previous :
  wf_package package → stop ∈ sg_blocks (pk_segment package) →
  (∀ h, previous = Some h → wf_head h) → wf_run run → wf_head (next_head package first stop run previous).
Proof.
  intros [Hc Hb] Hin Hp Hr. rewrite Forall_forall in Hb. specialize (Hb stop Hin).
  destruct previous as [h|]; [destruct (Hp h eq_refl) as [? _ ? ? ?]|]; split; simpl; try done.
  - apply Forall_app. split; [done|by constructor].
  - by constructor.
  - intros r Hx. by apply elem_of_nil in Hx.
Qed.

Lemma with_parent_wf p h : wf_head h → (∀ r, p = Some r → (r_length r <= u32_max)%N) → wf_head (with_parent p h).
Proof. intros [? ? ? ? ?] Hp. by split. Qed.

Lemma drop_trailing_none_elem l r : Some r ∈ drop_trailing_none l → Some r ∈ l.
Proof.
  intros [i Hi]%list_elem_of_lookup. apply drop_trailing_none_lookup in Hi. by eapply list_elem_of_lookup_2.
Qed.

Lemma compacted_wf t levels weight run planned current :
  wf_head current → planned_from 0 (h_levels planned) levels weight t → h_levels current = h_levels planned →
  wf_run run → wf_head (compacted_head (drop_trailing_none (<[t := Some run]> levels)) current).
Proof.
  intros [Hc Hn Hp Hl Hv] [_ -> _ _ _] El Hr. split; simpl; [done|done|done|by apply Forall_drop|].
  intros r Hin%drop_trailing_none_elem.
  apply list_elem_of_lookup in Hin as [i Hi]. apply list_lookup_insert_Some in Hi as [(_ & [= ->] & _)|[_ Hi]]; [done|].
  apply Hv. rewrite El. apply list_elem_of_lookup_2, (proj1 (elem_of_app (replicate (S t) None) _ _)) in Hi; destruct Hi as [Hi|Hi].
  - by apply elem_of_replicate in Hi as [? _].
  - apply list_elem_of_lookup in Hi as [j Hj]. rewrite lookup_drop in Hj. by eapply list_elem_of_lookup_2.
Qed.

End widths.

Section facts.
Context `{Sha256, Keccak256, Hex, Zstd, HeadJson}.
Context (now : Z).
Abbreviation exec := (run_prog (mem_handle now)).

(** ** [swap] *)

Lemma put_same_heads key b s : immutable_key key = true → same_heads s (mem_put_immutable key b s).2.
Proof.
  intros Hk key' Hk'. unfold mem_put_immutable. destruct (ms_entries s !! key); [by case_bool_decide|].
  simpl. rewrite lookup_insert_ne; [done|]. intros ->. congruence.
Qed.

Lemma stage_ok b s r s' :
  exec (stage b) s = (r, s') →
  extends s s' ∧ same_heads s s' ∧
  ∀ ref, r = Ok ref → r_digest ref = digest b ∧ (r_length ref <= u32_max)%N ∧ stored s' (object_key (digest b)) b.
Proof.
  unfold stage, try_u32. destruct (_ <=? _)%N eqn:E; [|intros [= <- <-]; split_and!; done].
  simpl. pose proof (put_extends (object_key (digest b)) b s) as Hx.
  pose proof (put_same_heads (object_key (digest b)) b s eq_refl) as Hs.
  destruct (mem_put_immutable _ b s) as [[[]|e] s1] eqn:Ep; intros [= <- <-]; simpl in *; bool_prop.
  - split_and!; [done|done|]. intros ref [= <-]. simpl. split_and!; [done|done|]. by eapply mem_put_ok.
  - split_and!; done.
Qed.

(** Programs that leave the heads alone, run on a store. *)
Lemma calm_step X (e : storeE X) s :
  calm X e → same_heads s (mem_handle now X e s).2 ∧ keeps s (mem_handle now X e s).2.
Proof.
  destruct e as [| | | | | key b | | | |]; intros Hc; simpl in *; try done.
  apply data_key_immutable in Hc. split; [by apply put_same_heads|by apply extends_keeps, put_extends].
Qed.

Lemma calm_run {A} (Q : A → Prop) (p : prog storeE A) s :
  always calm Q p → Q (exec p s).1 ∧ same_heads s (exec p s).2 ∧ keeps s (exec p s).2.
Proof.
  intros Hp. revert s; induction Hp as [a Ha|X e k He Hk IH]; intros s; simpl; [done|].
  destruct (calm_step X e s He) as [Hh Hkp]. destruct (mem_handle now X e s) as [x s1]. simpl in *.
  destruct (IH x s1) as (Hq & Hh' & Hk'). split_and!; [done|by etrans|by etrans].
Qed.

(** The current head is the one a swap expects. *)
Definition expects (previous : option VersionedBytes) (entry : option MemoryEntry) : Prop :=
  match previous, entry with
  | None, None => True
  | Some p, Some e => vb_version p = pretty (me_version e)
  | _, _ => False
  end.

Definition parent_ref (previous : option VersionedBytes) (parent : option Ref) : Prop :=
  match previous, parent with
  | None, None => True
  | Some p, Some r => r_digest r = digest (vb_bytes p) ∧ (r_length r <= u32_max)%N
  | _, _ => False
  end.

(** The head that a swap wrote. *)
Definition installed (previous : option VersionedBytes) (next : Head) (s' : MemoryState) : Prop :=
  ∃ e parent, ms_entries s' !! head_key (h_chain_id next) = Some e ∧ parent_ref previous parent ∧
    head_to_json (with_parent parent next) = Ok (me_bytes e) ∧ (len (me_bytes e) <= MAX_HEAD)%N.
Record swapped (previous : option VersionedBytes) (next : Head) (s s' : MemoryState) : Prop := {
  sw_expects : expects previous (ms_entries s !! head_key (h_chain_id next));
  sw_head : installed previous next s';
  sw_others key : immutable_key key = false → key ≠ head_key (h_chain_id next) → ms_entries s' !! key = ms_entries s !! key;
  sw_parent : ∀ p, previous = Some p → stored s' (object_key (digest (vb_bytes p))) (vb_bytes p)
}.

Lemma keeps_insert_mutable s key b :
  immutable_key key = false → keeps s (MemoryState_insert key b s).
Proof.
  intros Hk key' b' Hk' (e & He & Hb). exists e. split; [|done]. simpl.
  rewrite lookup_insert_ne; [done|]. intros ->. congruence.
Qed.

(** Compare-and-swap of the head, after the parent was staged. *)
Lemma cas_ok previous b s r s' key :
  immutable_key key = false →
  exec (request (SCompareAndSwap key previous b)) s = (r, s') →
  keeps s s' ∧
  match r with
  | Ok _ => expects previous (ms_entries s !! key) ∧ s' = MemoryState_insert key b s
  | Err _ => s' = s
  end.
Proof.
  intros Hk. simpl. unfold mem_compare_and_swap.
  destruct previous as [p|], (ms_entries s !! key) as [e|] eqn:E; simpl; try (by intros [= <- <-]).
  - case_bool_decide as Ev; simpl; intros [= <- <-]; [|done]. split; [by apply keeps_insert_mutable|done].
  - intros [= <- <-]. split; [by apply keeps_insert_mutable|done].
Qed.

Lemma swap_ok previous next s r s' :
  exec (swap previous next) s = (r, s') →
  keeps s s' ∧ match r with Ok _ => swapped previous next s s' | Err _ => same_heads s s' end.
Proof.
  unfold swap. rewrite run_prog_bind.
  assert (∃ pr s1, exec (match previous with
       | Some previous => let! r := stage (vb_bytes previous) in Ret (Ok (Some r)) | None => Ret (Ok None) end) s = (pr, s1) ∧
     extends s s1 ∧ same_heads s s1 ∧
     ∀ parent, pr = Ok parent → parent_ref previous parent ∧
       ∀ p, previous = Some p → stored s1 (object_key (digest (vb_bytes p))) (vb_bytes p)) as (pr & s1 & -> & Hx & Hh & Hp).
  { destruct previous as [p|].
    2: { eexists _, s. split_and!; [reflexivity|done|done|]. intros parent [= <-]. by split. }
    rewrite run_prog_bind.
    destruct (exec (stage (vb_bytes p)) s) as [sr s1] eqn:Es. apply stage_ok in Es as (Hx & Hh & Hr).
    destruct sr as [ref|e]; eexists _, s1; (split_and!; [reflexivity|done|done|]); [|done].
    intros parent [= <-]. destruct (Hr ref eq_refl) as (? & ? & ?). split; [done|]. by intros p' [= <-]. }
  destruct pr as [parent|e]; [|intros [= <- <-]; split; [by apply extends_keeps|done]].
  destruct (head_to_json (with_parent parent next)) as [b|e] eqn:Ej;
    [|intros [= <- <-]; split; [by apply extends_keeps|done]].
  destruct (MAX_HEAD <? len b)%N eqn:El; [intros [= <- <-]; split; [by apply extends_keeps|done]|].
  intros Hc. apply cas_ok in Hc as [Hk Hr]; [|done]. split; [etrans; [by apply extends_keeps|done]|].
  destruct r as [u|e]; [|by subst]. destruct Hr as [He ->]. bool_prop.
  destruct (Hp parent eq_refl) as [Hpr Hst]. change (h_chain_id (with_parent parent next)) with (h_chain_id next) in *.
  split.
  - by rewrite <-(Hh _ (head_key_mutable _)).
  - eexists _, parent. simpl. rewrite lookup_insert_eq. split_and!; [done|done|done|done].
  - intros key Hkey Hne. simpl. rewrite lookup_insert_ne by done. by apply Hh.
  - intros p Hp'. apply Hk; [apply object_key_immutable|]. by apply Hst.
Qed.

(** ** Records of a package *)

Lemma try_fold_inv {A B} (P : B → Prop) (step : A → B → result B) l acc acc' :
  (∀ x acc acc', P acc → step x acc = Ok acc' → P acc') → P acc → try_fold step l acc = Ok acc' → P acc'.
Proof.
  intros Hstep. revert acc; induction l as [|x l IH]; intros acc Hacc; simpl; [by intros [= <-]|].
  destruct (step x acc) as [acc1|] eqn:E; [|done]. apply IH. by eapply Hstep.
Qed.

Lemma insert_by_perm {A K} `{Cmp K} (key : A → K) x l : insert_by key x l ≡ₚ x :: l.
Proof.
  induction l as [|y l IH]; [done|]. simpl. destruct (ltb _ _); [done|]. rewrite IH. apply perm_swap.
Qed.
Lemma sort_by_perm {A K} `{Cmp K} (key : A → K) l : sort_by key l ≡ₚ l.
Proof.
  unfold sort_by. assert (∀ acc, fold_left (λ acc x, insert_by key x acc) l acc ≡ₚ l ++ acc) as Hl.
  { induction l as [|x l IH]; intros acc; [done|]. cbn [fold_left]. rewrite IH, insert_by_perm.
    apply Permutation_sym, Permutation_middle. }
  rewrite Hl. by rewrite app_nil_r.
Qed.

Definition within (first stop : N) (r : RunRecord) : Prop := (first <= rec_block r <= stop)%N.

Lemma add_record_within first stop key block value acc acc' :
  Forall (within first stop) acc.1 → add_record first stop key block value acc = Ok acc' →
  Forall (within first stop) acc'.1.
Proof.
  destruct acc as [l n]. unfold add_record. intros Hl. destruct (negb _) eqn:E; [done|].
  destruct (ok_or _ _) as [m|]; [|done]. destruct (_ <? _)%N; [done|]. intros [= <-]. simpl in *.
  apply Forall_app. split; [done|]. constructor; [|done]. bool_prop. unfold within. simpl. lia.
Qed.

Lemma package_records_within package records first stop :
  package_records package = Ok records →
  head (sg_blocks (pk_segment package)) = Some first → last (sg_blocks (pk_segment package)) = Some stop →
  Forall (within (bm_number first) (bm_number stop)) records.
Proof.
  unfold package_records. intros Hp Hf Hl. rewrite Hf, Hl in Hp. cbn [ok_or unwrap] in Hp.
  set (P := λ acc : list RunRecord * N, Forall (within (bm_number first) (bm_number stop)) acc.1).
  destruct (try_fold _ _ ([], 0%N)) as [a1|] eqn:E1; [|done].
  destruct (try_fold _ _ a1) as [a2|] eqn:E2; [|done].
  destruct (try_fold _ _ a2) as [a3|] eqn:E3; [|done]. injection Hp as <-.
  rewrite sort_by_perm.
  assert (P a1) as P1. { eapply (try_fold_inv P); [| |exact E1]; [intros ????; by eapply add_record_within|by apply Forall_nil_2]. }
  assert (P a2) as P2. { eapply (try_fold_inv P); [|exact P1|exact E2]. intros ????; by eapply add_record_within. }
  eapply (try_fold_inv P); [|exact P2|exact E3]. intros x acc acc' Hacc. cbn beta.
  destruct (_ || _); [done|]. by apply add_record_within.
Qed.

Lemma blocks_ordered segment first stop :
  interval_invalid segment first stop = false →
  head (sg_blocks segment) = Some first → last (sg_blocks segment) = Some stop →
  (bm_number first <= bm_number stop)%N.
Proof.
  unfold interval_invalid. intros Hi. apply orb_false_iff in Hi as [_ Hw]. revert first Hw.
  induction (sg_blocks segment) as [|a l IH]; intros first Hw; [done|]. intros [= ->] Hl.
  destruct l as [|b l]; [injection Hl as ->; lia|].
  cbn [windows2_any] in Hw. apply orb_false_iff in Hw as [Hab Hw]. apply orb_false_iff in Hab as [Hab _].
  apply negb_false_iff, bool_decide_eq_true, checked_succ in Hab as (Hab & _ & _).
  specialize (IH b Hw eq_refl Hl). lia.
Qed.

(** The checks of [publish] make the head extendable. *)
Lemma transition_extendable package first previous start :
  transition_ok package first previous = true →
  (∀ h, previous = Some h → head_valid h ∧ (len (h_l0 h) < MAX_L0_BACKLOG)%N) →
  bm_number first = start → extendable previous start.
Proof.
  unfold transition_ok, extendable. intros Ht Hh <-.
  destruct (pk_mode package), previous as [h|]; try done; bool_prop; [done|].
  destruct (Hh h eq_refl) as [Hv Hl]. done.
Qed.

(** ** New runs *)

Lemma new_run_stored `{!HexLaws} s built records start stop weight :
  built_stored s built records → Forall (within start stop) records →
  run_stored s (new_run start stop weight built) records.
Proof.
  intros [Hl Hd Hu (reader & Hdec & Hrep) Hsum Hk Hroot] HF. split; simpl; [|done|done].
  exists (built_root_bytes built), reader. split_and!; [apply hex_round| |done|done].
  unfold object_of_ref, ref_of_object. simpl. by destruct (built_root built).
Qed.

Lemma built_stored_ok s built records : built_stored s built records → built_ok built.
Proof. intros [Hl Hd Hu _ Hsum Hk _]. split; try done; apply Hsum. Qed.

Lemma new_run_root `{!HexLaws} built start stop weight : built_ok built → root_ok (new_run start stop weight built).
Proof.
  intros [Hl Hd Hu Hp Hs Hk]. split; simpl; [done|]. exists (built_root_bytes built).
  split_and!; [apply hex_round|done|done].
Qed.

Lemma new_run_wf built start stop weight :
  built_ok built → (start <= u64_max)%N → (stop <= u64_max)%N → (weight <= u64_max)%N →
  wf_run (new_run start stop weight built).
Proof. intros [Hl Hd Hu Hp Hs Hk] Hst He Hw. by split. Qed.

(** ** The archive after a swap *)

Lemma archive_installed `{!HeadJsonLaws} previous next s' rss :
  installed previous next s' → wf_head next → head_valid next →
  Forall (λ r, (run_end r < u64_max)%N) (runs next) → Forall2 (run_stored s') (runs next) rss →
  ∃ parent, archive s' (h_chain_id next) (with_parent parent next) rss ∧ parent_ref previous parent.
Proof.
  intros (e & parent & He & Hp & Hj & Hl) Hw Hv Hends HF. exists parent. split; [|done].
  split; try done. exists e. split_and!; [done|done|]. apply Head_decode_ok.
  split; [|by apply with_parent_valid]. apply (head_json_round _ _ Hj). apply with_parent_wf; [done|].
  intros r ->. destruct previous; [apply Hp|done].
Qed.

(** The head object determines what is read. *)
Lemma read_head_same chain_id s s' r :
  same_heads s s' → exec (read_head chain_id) s = (r, s) → exec (read_head chain_id) s' = (r, s').
Proof.
  intros Hs. unfold read_head. simpl. unfold mem_read_mutable_bounded.
  rewrite (Hs _ (head_key_mutable chain_id)). destruct (ms_entries s !! head_key chain_id) as [e|]; simpl.
  - destruct (_ <? _)%N; simpl; [by intros [= <-]|]. destruct (Head_decode _); [|by intros [= <-]].
    destruct (negb _); by intros [= <-].
  - by intros [= <-].
Qed.

(** A loop that ends well swapped in the head that extends the one it read. *)
Lemma publish_loop_ok n package first stop run previous s s' :
  exec (read_head (sg_chain_id (pk_segment package))) s = (Ok previous, s) →
  match previous with Some (_, h) => is_published h package = false | None => True end →
  exec (publish_loop n package first stop run previous) s = (Ok tt, s') →
  ∃ s1, keeps s s1 ∧ same_heads s s1 ∧ keeps s1 s' ∧
    swapped (fst <$> previous) (next_head package first stop run (snd <$> previous)) s1 s'.
Proof.
  revert s; induction n as [|n IH]; intros s Hread Hpub Hl; [done|]. cbn [publish_loop] in Hl.
  rewrite run_prog_bind in Hl. destruct (exec (swap _ _) s) as [[u|e] s1] eqn:Es; apply swap_ok in Es as [Hk Hs].
  { injection Hl as <-. exists s. done. }
  rewrite run_prog_bind, (read_head_same _ _ _ _ Hs Hread) in Hl.
  destruct previous as [[vb h]|]; [|done]. rewrite Hpub in Hl.
  rewrite N.eqb_refl, bool_decide_eq_true_2 in Hl by done. cbn [andb] in Hl.
  destruct (IH s1) as (s2 & Hk2 & Hs2 & Hk3 & Hsw); [by eapply read_head_same|done|done|].
  exists s2. split_and!; [by etrans|by etrans|done|done].
Qed.

End facts.
