(* ===== verification/TieredTheorems.v ===== *)
(** * Publication appends, compaction preserves

    Theorems about whole operations on a memory store: what a successful
    [publish] or [compact_once] leaves in the store, in terms of the history
    that readers observe. *)

From S2P Require Import Prelude Bytes SortedLists Externals Hash RunFormat RunReader RunRep Head HeadFacts Summary Store Compact CompactFacts MergeFacts Format Tiered TieredReader ReaderFacts ReaderTheorems HeadSteps Calm PublishFacts.
From Stdlib Require Import Lia Sorting.Sorted.

Section tiered_theorems.
Context `{Sha256, Keccak256, Hex, Zstd, HeadJson, !Sha256Laws, !HexLaws, !ZstdLaws, !HeadJsonLaws}.
Context (now : Z).
Abbreviation exec := (run_prog (mem_handle now)).

(** A chain that was not started, or an archive. *)
Definition archive_of (s : MemoryState) (chain_id : N) (previous : option Head) (rss : list (list RunRecord)) : Prop :=
  match previous with
  | Some h => archive s chain_id h rss
  | None => ms_entries s !! head_key chain_id = None ∧ rss = []
  end.

Lemma read_head_archive s chain_id previous rss :
  archive_of s chain_id previous rss →
  ∃ read, exec (read_head chain_id) s = (Ok read, s) ∧ snd <$> read = previous ∧
    match read with Some (_, h) => head_valid h ∧ wf_head h ∧ h_chain_id h = chain_id | None => True end.
Proof.
  destruct previous as [h|]; simpl.
  - intros Ha. destruct (read_head_ok now _ _ _ _ Ha) as (e & He & Hd & Er).
    exists (Some (versioned e, h)). apply Head_decode_ok in Hd as [Hj Hv].
    split_and!; [done|done|done|by eapply head_json_wf|apply Ha].
  - intros [Hn _]. exists None. split_and!; [|done|done]. unfold read_head. simpl.
    unfold mem_read_mutable_bounded. by rewrite Hn.
Qed.

Lemma next_head_chain package first stop run previous :
  (∀ h, previous = Some h → h_chain_id h = sg_chain_id (pk_segment package)) →
  h_chain_id (next_head package first stop run previous) = sg_chain_id (pk_segment package).
Proof. destruct previous as [h|]; simpl; [by intros ->|done]. Qed.

(** Runs of a store that keeps its objects. *)
Lemma runs_stored_mono s s' l rss : keeps s s' → Forall2 (run_stored s) l rss → Forall2 (run_stored s') l rss.
Proof. intros Hk HF. eapply Forall2_impl; [exact HF|]. intros r rs. by apply run_stored_mono. Qed.

Lemma archive_of_runs s chain_id previous rss :
  archive_of s chain_id previous rss →
  Forall (λ r, (run_end r < u64_max)%N) (runs_of previous) ∧ Forall2 (run_stored s) (runs_of previous) rss.
Proof. destruct previous as [h|]; simpl; [by intros [_ _ ? ?]|]. intros [_ ->]. split; constructor. Qed.

(** What publishing a package makes of the history [rss]. *)
Definition published_to (package : Package) (rss : list (list RunRecord)) (s' : MemoryState) : Prop :=
  ∃ h' records,
    package_records package = Ok records ∧
    archive s' (sg_chain_id (pk_segment package)) h' (rss ++ [records]) ∧
    h_number h' = sg_end_block (pk_segment package) ∧ is_published h' package = true.

Lemma is_published_next package first stop run previous parent :
  last (sg_blocks (pk_segment package)) = Some stop →
  (∀ h, previous = Some h → h_chain_id h = sg_chain_id (pk_segment package) ∧
    h_genesis h = sg_genesis_hash (pk_segment package)) →
  is_published (with_parent parent (next_head package first stop run previous)) package = true.
Proof.
  intros Hl Hp. unfold is_published. rewrite Hl. destruct previous as [h|]; simpl.
  - destruct (Hp h eq_refl) as [-> ->]. by rewrite !N.eqb_refl, !bool_decide_eq_true_2.
  - by rewrite !N.eqb_refl, !bool_decide_eq_true_2.
Qed.

(** The swap that commits a built package. *)
Lemma published_swap package first stop built read records s s1 s' rss :
  archive_of s (sg_chain_id (pk_segment package)) (snd <$> read) rss → wf_package package →
  head (sg_blocks (pk_segment package)) = Some first → last (sg_blocks (pk_segment package)) = Some stop →
  interval_invalid (pk_segment package) first stop = false → (bm_number stop < u64_max)%N →
  match read with
  | Some (_, h) => (head_valid h ∧ wf_head h ∧ h_chain_id h = sg_chain_id (pk_segment package)) ∧ (len (h_l0 h) < MAX_L0_BACKLOG)%N
  | None => True
  end →
  transition_ok package first (snd <$> read) = true →
  package_records package = Ok records → Forall (within (bm_number first) (bm_number stop)) records →
  built_stored s1 built records → keeps s s' → keeps s1 s' →
  installed (fst <$> read) (next_head package first stop (new_run (bm_number first) (bm_number stop) 1 built) (snd <$> read)) s' →
  published_to package rss s'.
Proof.
  intros Ha Hwf Ef El Ei Hstop Hread Et Erec Hwithin Hbuilt Hkeep Hk1 Hsw.
  pose proof (blocks_ordered _ _ _ Ei Ef El) as Hord.
  set (run := new_run (bm_number first) (bm_number stop) 1 built) in *.
  set (next := next_head package first stop run (snd <$> read)) in *.
  assert (∀ h, snd <$> read = Some h → head_valid h ∧ (len (h_l0 h) < MAX_L0_BACKLOG)%N) as Hhv.
  { intros h Hh. destruct read as [[vb h']|]; [|done]. injection Hh as ->. split; apply Hread. }
  assert (∀ h, snd <$> read = Some h → wf_head h ∧ h_chain_id h = sg_chain_id (pk_segment package)) as Hhw.
  { intros h Hh. destruct read as [[vb h']|]; [|done]. injection Hh as ->. split; apply Hread. }
  assert (stop ∈ sg_blocks (pk_segment package)) as Hin by (by apply last_Some_elem_of).
  apply built_stored_ok in Hbuilt as Hbok.
  assert (head_valid next) as Hv.
  { apply next_head_valid; [|by apply new_run_root|done|done|done]. by eapply transition_extendable. }
  assert (wf_head next) as Hw.
  { apply next_head_wf; [done|done|intros h Hh; by apply Hhw|]. apply new_run_wf; [done|lia|lia|vm_compute; discriminate]. }
  assert (h_chain_id next = sg_chain_id (pk_segment package)) as Hc.
  { apply next_head_chain. intros h Hh. by apply Hhw. }
  assert (Forall (λ r, (run_end r < u64_max)%N) (runs next) ∧ Forall2 (run_stored s') (runs next) (rss ++ [records]))
    as [Hends Hstored].
  { destruct (archive_of_runs _ _ _ _ Ha) as [He1 Hr1]. unfold next. rewrite next_head_runs. split.
    - apply Forall_app. split; [done|]. by constructor.
    - apply Forall2_app; [by apply (runs_stored_mono s)|]. constructor; [|constructor].
      apply (run_stored_mono s1); [done|]. by apply new_run_stored. }
  destruct (archive_installed (fst <$> read) next s' (rss ++ [records])) as (parent & Harch & _); [done..|].
  exists (with_parent parent next), records. rewrite Hc in Harch. split_and!; [done|done| |].
  - unfold interval_invalid in Ei. bool_prop. unfold next. destruct (snd <$> read); simpl; congruence.
  - apply is_published_next; [done|]. intros h Hh. split; [by apply Hhw|].
    rewrite Hh in Et. unfold transition_ok in Et. destruct (pk_mode package); [done|]. by bool_prop.
Qed.

Lemma publish_ok package gate s s' previous rss :
  archive_of s (sg_chain_id (pk_segment package)) previous rss → wf_package package →
  (sg_end_block (pk_segment package) < u64_max)%N →
  exec (publish package gate) s = (Ok tt, s') →
  keeps s s' ∧
  ((∃ h, previous = Some h ∧ is_published h package = true ∧ s' = s) ∨ published_to package rss s').
Proof.
  intros Ha Hwf Hend He. unfold publish in He.
  destruct (head (sg_blocks (pk_segment package))) as [first|] eqn:Ef; [|done].
  destruct (last (sg_blocks (pk_segment package))) as [stop|] eqn:El; [|done]. cbn [ok_or unwrap] in He.
  destruct (interval_invalid _ first stop) eqn:Ei; [done|]. destruct (negb (gate_open gate stop)); [done|].
  pose proof (blocks_ordered _ _ _ Ei Ef El) as Hord.
  destruct (read_head_archive _ _ _ _ Ha) as (read & Er & Hprev & Hread).
  rewrite run_prog_bind, Er in He. subst previous.
  destruct (match read with Some (_, h) => is_published h package | None => false end) eqn:Ep.
  { destruct read as [[vb h]|]; [|done]. injection He as <-. split; [done|]. left. by exists h. }
  destruct (negb (transition_ok _ _ _)) eqn:Et; [done|]. apply negb_false_iff in Et.
  destruct (match read with Some (_, h) => (MAX_L0_BACKLOG <=? len (h_l0 h))%N | None => false end) eqn:Eb; [done|].
  destruct (validate_lifecycle package) as [[]|]; [|done].
  destruct (package_records package) as [records|] eqn:Erec; [|done].
  rewrite run_prog_bind in He. destruct (exec (write_sorted records) s) as [[built|e] s1] eqn:Ew; [|done].
  assert (bm_number stop < u64_max)%N as Hstop.
  { unfold interval_invalid in Ei. bool_prop. congruence. }
  pose proof (package_records_within _ _ _ _ Erec Ef El) as Hwithin.
  destruct (write_sorted_ok now records s built s1 Ew) as [Hx Hbuilt].
  { eapply Forall_impl; [exact Hwithin|]. unfold within. intros r Hr. lia. }
  assert (same_heads s s1) as Hs1.
  { destruct (calm_run now ok_built (write_sorted records) s (calm_write_sorted records)) as (_ & Hs & _).
    by rewrite Ew in Hs. }
  set (run := new_run (bm_number first) (bm_number stop) 1 built) in *.
  destruct (publish_loop_ok now CAS_ATTEMPTS package first stop run read s1 s') as (s2 & Hk2 & Hs2 & Hk3 & Hsw);
    [by eapply read_head_same|by destruct read as [[]|]|done|].
  assert (keeps s s') as Hkeep by (etrans; [by apply extends_keeps|by etrans]).
  split; [done|]. right. eapply (published_swap package first stop built read records s s1 s'); try done; [|by etrans|apply Hsw].
  destruct read as [[vb h]|]; [|done]. by bool_prop.
Qed.

(** C5: publication appends to the history.  On a store that holds a chain's
    archive (or no head for it), a successful [publish] either found the
    package already published and changed nothing, or leaves an archive whose
    history is the old one followed by the package's records, whose head is at
    the package's last block; every object of the store is kept. *)
Theorem publish_appends_history package gate s s' previous rss :
  archive_of s (sg_chain_id (pk_segment package)) previous rss → wf_package package →
  (sg_end_block (pk_segment package) < u64_max)%N →
  exec (publish package gate) s = (Ok tt, s') →
  keeps s s' ∧
  ((∃ h, previous = Some h ∧ is_published h package = true ∧ s' = s) ∨ published_to package rss s').
Proof. apply publish_ok. Qed.

(** ** Compaction *)

Lemma compact_loop_ok n chain_id planned levels vb h s s' :
  exec (read_head chain_id) s = (Ok (Some (vb, h)), s) →
  exec (compact_loop n chain_id planned levels) s = (Ok true, s') →
  compatible planned h = true ∧
  ∃ s1, keeps s s1 ∧ same_heads s s1 ∧ keeps s1 s' ∧ swapped (Some vb) (compacted_head levels h) s1 s'.
Proof.
  revert s; induction n as [|n IH]; intros s Hread Hl; [done|]. cbn [compact_loop] in Hl.
  rewrite run_prog_bind, Hread in Hl. cbn [ok_or] in Hl.
  destruct (negb (compatible planned h)) eqn:Ec; [done|]. apply negb_false_iff in Ec. split; [done|].
  rewrite run_prog_bind in Hl. destruct (exec (swap _ _) s) as [[u|e] s1] eqn:Es; apply swap_ok in Es as [Hk Hs].
  { injection Hl as <-. exists s. done. }
  destruct (IH s1) as (_ & s2 & Hk2 & Hs2 & Hk3 & Hsw); [by eapply read_head_same|done|].
  exists s2. split_and!; [by etrans|by etrans|done|done].
Qed.

(** The inputs of a plan are in the history: the records split around them. *)
Lemma inputs_split s t h rss :
  Forall2 (run_stored s) (runs h) rss →
  ∃ rd ri rr, rss = rd ++ ri ++ rr ∧ Forall2 (run_stored s) (deep t (h_levels h)) rd ∧
    Forall2 (run_stored s) (plan_inputs t (h_levels h) (h_l0 h)) ri ∧
    Forall2 (run_stored s) (drop (N.to_nat L0_TRIGGER) (h_l0 h)) rr.
Proof.
  rewrite (runs_split t h). intros (rd & rest & Hd & (ri & rr & Hi & Hr & ->)%Forall2_app_inv_l & ->)%Forall2_app_inv_l.
  by exists rd, ri, rr.
Qed.

(** The merged run takes the place of its inputs. *)
Lemma compacted_stored s s1 t h ri out built weight first stop a b :
  contiguous a (plan_inputs t (h_levels h) (h_l0 h)) b →
  Forall2 (run_stored s) (plan_inputs t (h_levels h) (h_l0 h)) ri →
  head (plan_inputs t (h_levels h) (h_l0 h)) = Some first →
  last (plan_inputs t (h_levels h) (h_l0 h)) = Some stop →
  out ≡ₚ concat ri → built_stored s1 built out →
  run_stored s1 (new_run (run_start first) (run_end stop) weight built) out.
Proof.
  intros Hc HF Hf Hl Hp Hb. apply new_run_stored; [done|]. apply Forall_forall. intros x Hx.
  rewrite Hp in Hx. pose proof (stored_bounds _ _ _ _ _ _ Hc HF Hx) as Hbd.
  pose proof (contiguous_last _ _ _ _ Hc Hl) as E.
  destruct (plan_inputs t (h_levels h) (h_l0 h)) as [|y l]; [done|]. injection Hf as ->. destruct Hc as (Hs & _).
  unfold within. lia.
Qed.

(** The swap that commits a merged run. *)
Lemma compacted_swap s s' vb h levels weight t rd ri rr out built first stop chain_id :
  archive s chain_id h (rd ++ ri ++ rr) → head_valid h → wf_head h → h_chain_id h = chain_id → (L0_TRIGGER <= len (h_l0 h))%N →
  planned_from 0 (h_levels h) levels weight t →
  let inputs := plan_inputs t (h_levels h) (h_l0 h) in
  noncontiguous inputs = false → head inputs = Some first → last inputs = Some stop →
  Forall2 (run_stored s) (deep t (h_levels h)) rd → Forall2 (run_stored s) (drop (N.to_nat L0_TRIGGER) (h_l0 h)) rr →
  out ≡ₚ concat ri → keeps s s' → built_ok built →
  let run := new_run (run_start first) (run_end stop) weight built in
  run_stored s' run out →
  installed (Some vb) (compacted_head (drop_trailing_none (<[t:=Some run]> levels)) h) s' →
  ∃ h' rss', archive s' chain_id h' rss' ∧ concat (rd ++ ri ++ rr) ≡ₚ concat rss' ∧
    h_number h' = h_number h ∧ h_hash h' = h_hash h ∧ h_genesis h' = h_genesis h ∧
    (len (h_l0 h') + L0_TRIGGER = len (h_l0 h))%N.
Proof.
  intros Ha Hv Hw Hchain Hl0 Hplan inputs En Ef El HFd HFr Hperm Hkeep Hbok run Hrun Hsw.
  set (next := compacted_head (drop_trailing_none (<[t:=Some run]> levels)) h) in *.
  assert (runs next = deep t (h_levels h) ++ [run] ++ drop (N.to_nat L0_TRIGGER) (h_l0 h)) as Hruns
    by (by eapply compacted_runs).
  pose proof (ar_ends _ _ _ _ Ha) as HE. rewrite (runs_split t h), !Forall_app in HE. destruct HE as (HE1 & HE2 & HE3).
  assert (run_end stop < u64_max)%N as Hstop.
  { rewrite Forall_forall in HE2. apply HE2. by apply last_Some_elem_of. }
  assert (∀ r, r ∈ inputs → wf_run r) as Hwr.
  { intros r Hr. apply (wf_runs h); [done|]. rewrite (runs_split t h), !elem_of_app. right. by left. }
  assert (wf_run run) as Hwrun.
  { apply new_run_wf; [done|..].
    - apply Hwr. by apply head_Some_elem_of.
    - lia.
    - destruct Hplan as [Ht _ _ _ Hlt]. pose proof (unit_of_bound t (proj2 Ht)). unfold u64_max. lia. }
  destruct (archive_installed (Some vb) next s' (rd ++ [out] ++ rr)) as (parent & Harch & _).
  - done.
  - by eapply compacted_wf.
  - eapply (compacted_valid t levels weight run h h first stop); try done. by apply new_run_root.
  - rewrite Hruns, !Forall_app. split_and!; [done|by constructor|done].
  - rewrite Hruns. apply Forall2_app; [by eapply runs_stored_mono|].
    apply Forall2_app; [by constructor|by eapply runs_stored_mono].
  - exists (with_parent parent next), (rd ++ [out] ++ rr).
    change (h_chain_id next) with (h_chain_id h) in Harch. rewrite Hchain in Harch.
    split_and!; [done| |done|done|done|].
    + rewrite !concat_app. simpl. rewrite app_nil_r. by rewrite Hperm.
    + simpl. unfold len in *. rewrite length_drop. unfold L0_TRIGGER in *. lia.
Qed.

Lemma compact_ok fuel chain_id s s' h rss :
  archive s chain_id h rss → length (concat rss) < fuel →
  exec (compact_once fuel chain_id) s = (Ok true, s') →
  keeps s s' ∧ ∃ h' rss', archive s' chain_id h' rss' ∧ concat rss ≡ₚ concat rss' ∧
    h_number h' = h_number h ∧ h_hash h' = h_hash h ∧ h_genesis h' = h_genesis h ∧
    (len (h_l0 h') + L0_TRIGGER = len (h_l0 h))%N.
Proof.
  intros Ha Hfuel He. destruct (read_head_archive s chain_id (Some h) rss Ha) as (read & Er & Hprev & Hread).
  destruct read as [[vb h0]|]; [|done]. injection Hprev as ->. destruct Hread as (Hv & Hw & Hchain).
  unfold compact_once in He. rewrite run_prog_bind, Er in He. cbn iota in He.
  destruct (len (h_l0 h) <? L0_TRIGGER)%N eqn:El0; [done|]. bool_prop.
  destruct (plan_levels_ok (S (N.to_nat MAX_LEVELS)) 0 (h_levels h) (h_levels h) L0_TRIGGER [])
    as [(levels & weight & t & Eplan & Hplan)|[Eplan _]]; [apply Hv|done|done|done|lia|vm_compute; lia| |];
    rewrite Eplan in He; [|done].
  change (rev (shallow (S t) (h_levels h)) ++ take (N.to_nat L0_TRIGGER) (h_l0 h))
    with (plan_inputs t (h_levels h) (h_l0 h)) in He.
  destruct (noncontiguous _) eqn:En; [done|].
  destruct (collect Run_input _) as [refs|] eqn:Ec; [|done].
  destruct (inputs_split s t h rss (ar_runs _ _ _ _ Ha)) as (rd & ri & rr & -> & HFd & HFi & HFr).
  pose proof (archive_contiguous _ _ _ _ Ha) as Hcont. rewrite (runs_split t h) in Hcont.
  apply contiguous_app in Hcont as (a & Hc1 & Hcont). apply contiguous_app in Hcont as (b & Hc2 & Hc3).
  pose proof (archive_history _ _ _ _ Ha) as Hhist. rewrite !concat_app in Hhist, Hfuel.
  rewrite !length_app in Hfuel.
  apply history_app in Hhist as (_ & Hhist & _). apply history_app in Hhist as (Hhist & _ & _).
  cbn [request bind run_prog mem_handle] in He.
  rewrite run_prog_bind in He. destruct (exec (merge_runs fuel refs _) s) as [[built|e] s1] eqn:Em; [|done].
  apply (merge_runs_ok now) with (rss := ri) in Em as Hm; [|by eapply inputs_of_runs|by apply history_NoDup|lia|].
  2: { apply Forall_forall. intros x Hx. pose proof (stored_bounds _ _ _ _ _ _ Hc2 HFi Hx).
       pose proof (contiguous_cover _ _ _ Hc3) as [Hb _]. pose proof (wf_number _ Hw). lia. }
  destruct Hm as (Hx & out & Hsorted & Hperm & Hbuilt). cbn [request bind run_prog mem_handle] in He.
  destruct (_ <? _)%Z; [done|].
  destruct (head (plan_inputs _ _ _)) as [first|] eqn:Ef; [|done].
  destruct (last (plan_inputs _ _ _)) as [stop|] eqn:El; [|done]. cbn [unwrap] in He.
  assert (same_heads s s1) as Hs1.
  { destruct (calm_run now ok_built _ s (calm_merge_runs fuel refs (sum_keys (plan_inputs t (h_levels h) (h_l0 h))))) as (_ & Hs & _).
    by rewrite Em in Hs. }
  set (run := new_run (run_start first) (run_end stop) weight built) in *.
  destruct (compact_loop_ok CAS_ATTEMPTS chain_id h (drop_trailing_none (<[t:=Some run]> levels)) vb h s1 s')
    as (Hcompat & s2 & Hk2 & Hs2 & Hk3 & Hsw); [by eapply read_head_same|done|].
  assert (keeps s1 s') as Hk1 by (by etrans).
  assert (keeps s s') as Hkeep by (etrans; [by apply extends_keeps|done]). split; [done|].
  assert (run_stored s' run out) as Hrun by (apply (run_stored_mono s1); [done|by eapply compacted_stored]).
  eapply (compacted_swap s s' vb h levels weight t rd ri rr out built first stop); try done; [|apply Hsw].
  by apply built_stored_ok in Hbuilt.
Qed.

(** C6: compaction is invisible.  A successful [compact_once] on a store that
    holds an archive leaves an archive with the same block, hash and genesis,
    four level-0 runs fewer, and the same value for every key at every block;
    every object of the store is kept, so readers pinned to the old head go on.
    The fuel of the merge is the number of records, plus one. *)
Theorem compaction_preserves_states fuel chain_id s s' h rss :
  archive s chain_id h rss → length (concat rss) < fuel →
  exec (compact_once fuel chain_id) s = (Ok true, s') →
  keeps s s' ∧ ∃ h' rss', archive s' chain_id h' rss' ∧
    h_number h' = h_number h ∧ h_hash h' = h_hash h ∧ h_genesis h' = h_genesis h ∧
    (len (h_l0 h') + L0_TRIGGER = len (h_l0 h))%N ∧
    ∀ key block, state_at (concat rss') key block = state_at (concat rss) key block.
Proof.
  intros Ha Hf He. destruct (compact_ok _ _ _ _ _ _ Ha Hf He) as (Hk & h' & rss' & Ha' & Hp & Hn & Hh & Hg & Hl).
  split; [done|]. exists h', rss'. split_and!; try done. by eapply archive_same_states.
Qed.

End tiered_theorems.
