(* ===== verification/Protocol.v ===== *)
(** * Publishers and compactors, interleaved

    Any number of [publish] and [compact_once] programs share a store, and a
    scheduler runs one request at a time.  [guarantee] is what every request of
    every such program does to the store; it is proved by a rely-guarantee
    argument over the request trees: [safe Q p s] says that from any later state
    each request of [p] respects [guarantee], and that [p] ends in [Q].

    Then, whatever the schedule, each head moves by legal steps only
    ([interleaving_is_legal]), every head can be read
    ([interleaving_keeps_heads_readable]), and a publication that reported success
    is never lost ([published_never_lost]). *)

From S2P Require Import Prelude Bytes SortedLists Externals Hash RunFormat RunReader Head HeadFacts Summary Store Compact CompactFacts Format Tiered HeadSteps Calm PublishFacts.
From stdpp Require Import pretty relations.
From Stdlib Require Import Lia.

(** ** Legal transitions of a head *)

Inductive head_step : option Head → Head → Prop :=
| step_publish previous h run :
    (match previous with Some p => checked_add u64_max (h_number p) 1 | None => Some 0%N end) = Some (run_start run) →
    (run_start run <= run_end run)%N → h_number h = run_end run →
    runs h = runs_of previous ++ [run] →
    (∀ p, previous = Some p → h_genesis h = h_genesis p ∧ h_levels h = h_levels p) →
    head_step previous h
| step_compact current h older inputs run newer first stop :
    runs current = older ++ inputs ++ newer → runs h = older ++ [run] ++ newer →
    head inputs = Some first → last inputs = Some stop →
    run_start run = run_start first → run_end run = run_end stop →
    h_number h = h_number current → h_hash h = h_hash current → h_genesis h = h_genesis current →
    h_state_root h = h_state_root current → h_input_sha256 h = h_input_sha256 current →
    (len (h_l0 h) <= len (h_l0 current))%N →
    head_step (Some current) h.

Lemma head_step_number p h :
  head_step (Some p) h →
  (h_number p < h_number h)%N ∨ (h_number h = h_number p ∧ (len (h_l0 h) <= len (h_l0 p))%N).
Proof.
  inversion 1 as [? ? run Hs Hle Hn Hr Hp|]; subst; [left|by right].
  apply checked_succ in Hs as (Hs & _ & _). lia.
Qed.

Section protocol.
Context `{Sha256, Keccak256, Hex, Zstd, HeadJson}.

(** What one request may do to the head of a chain. *)
Record head_moved (chain_id : N) (s s' : MemoryState) (e' : MemoryEntry) (h' : Head) : Prop := {
  mv_entry : ms_entries s' !! head_key chain_id = Some e';
  mv_version : (ms_next_version s < me_version e')%N;
  mv_decodes : Head_decode (me_bytes e') = Ok h';
  mv_chain : h_chain_id h' = chain_id;
  mv_bounded : (len (me_bytes e') <= MAX_HEAD)%N;
  mv_step : match ms_entries s !! head_key chain_id with
    | None => head_step None h' ∧ h_parent h' = None
    | Some e => ∃ h parent, Head_decode (me_bytes e) = Ok h ∧ head_step (Some h) h' ∧
        h_parent h' = Some parent ∧ r_digest parent = digest (me_bytes e) ∧
        stored s' (object_key (digest (me_bytes e))) (me_bytes e)
    end
}.

Record guarantee (s s' : MemoryState) : Prop := {
  gr_keeps : keeps s s';
  gr_next : (ms_next_version s <= ms_next_version s' <= ms_next_version s + 1)%N;
  gr_entries key e : ms_entries s' !! key = Some e →
    ms_entries s !! key = Some e ∨ me_version e = ms_next_version s';
  gr_heads chain_id : ms_entries s' !! head_key chain_id = ms_entries s !! head_key chain_id ∨
    ∃ e' h', head_moved chain_id s s' e' h'
}.

Abbreviation later := (rtc guarantee).

(** No entry is newer than the counter. *)
Definition versions_ok (s : MemoryState) : Prop :=
  ∀ key e, ms_entries s !! key = Some e → (me_version e <= ms_next_version s)%N.

Lemma later_keeps s s' : later s s' → keeps s s'.
Proof. induction 1 as [|s s1 s' [Hk _ _ _] _ IH]; [done|]. by etrans. Qed.
Lemma later_next s s' : later s s' → (ms_next_version s <= ms_next_version s')%N.
Proof. induction 1 as [|s s1 s' [_ Hn _ _] _ IH]; lia. Qed.
Lemma later_versions s s' : later s s' → versions_ok s → versions_ok s'.
Proof.
  induction 1 as [|s s1 s' [_ Hn He _] _ IH]; intros Hv; [done|]. apply IH. intros key e Hk.
  destruct (He _ _ Hk) as [Hold|]; [|lia]. specialize (Hv _ _ Hold). lia.
Qed.

(** A head that is replaced gets a version that was never used. *)
Lemma later_head s s' chain_id :
  later s s' →
  ms_entries s' !! head_key chain_id = ms_entries s !! head_key chain_id ∨
  ∃ e', ms_entries s' !! head_key chain_id = Some e' ∧ (ms_next_version s < me_version e')%N.
Proof.
  induction 1 as [|s s1 s' Hg Hl IH]; [by left|].
  destruct IH as [IH|(e' & He' & Hv)].
  - rewrite IH. destruct (gr_heads _ _ Hg chain_id) as [|(e' & h' & Hm)]; [by left|right].
    exists e'. split; [apply Hm|]. apply Hm.
  - right. exists e'. split; [done|]. pose proof (gr_next _ _ Hg). lia.
Qed.

Lemma later_same_version s s' chain_id e e' :
  later s s' → versions_ok s →
  ms_entries s !! head_key chain_id = Some e → ms_entries s' !! head_key chain_id = Some e' →
  me_version e = me_version e' → e = e'.
Proof.
  intros Hl Hv He He' Hver. destruct (later_head _ _ chain_id Hl) as [E|(e'' & E & Hlt)]; [congruence|].
  specialize (Hv _ _ He). simplify_eq. lia.
Qed.

(** Numbers never decrease, and while they stay the level-0 runs do not grow. *)
Lemma later_number s s' chain_id e e' h h' :
  later s s' →
  ms_entries s !! head_key chain_id = Some e → Head_decode (me_bytes e) = Ok h →
  ms_entries s' !! head_key chain_id = Some e' → Head_decode (me_bytes e') = Ok h' →
  (h_number h < h_number h')%N ∨ (h_number h' = h_number h ∧ (len (h_l0 h') <= len (h_l0 h))%N).
Proof.
  intros Hl. revert e h; induction Hl as [s|s s1 s' Hg Hl IH]; intros e h He Hd He' Hd'.
  { assert (h' = h) as -> by congruence. right. split; [done|lia]. }
  destruct (gr_heads _ _ Hg chain_id) as [E|(e1 & h1 & [He1 _ Hd1 _ _ Hstep])].
  { apply (IH e h); [congruence|done..]. }
  rewrite He in Hstep. destruct Hstep as (h0 & parent & Hd0 & Hstep & _). assert (h0 = h) as -> by congruence.
  apply head_step_number in Hstep. destruct (IH e1 h1) as [|[]]; [done..| |]; destruct Hstep as [|[]]; lia.
Qed.

(** A chain keeps its genesis and its identifier. *)
Lemma later_identity s s' chain_id e e' h h' :
  later s s' → h_chain_id h = chain_id →
  ms_entries s !! head_key chain_id = Some e → Head_decode (me_bytes e) = Ok h →
  ms_entries s' !! head_key chain_id = Some e' → Head_decode (me_bytes e') = Ok h' →
  h_genesis h' = h_genesis h ∧ h_chain_id h' = chain_id.
Proof.
  intros Hl. revert e h; induction Hl as [s|s s1 s' Hg Hl IH]; intros e h Hc He Hd He' Hd'.
  { assert (h' = h) as -> by congruence. done. }
  destruct (gr_heads _ _ Hg chain_id) as [E|(e1 & h1 & [He1 _ Hd1 Hc1 _ Hstep])].
  { apply (IH e h); [done|congruence|done..]. }
  rewrite He in Hstep. destruct Hstep as (h0 & parent & Hd0 & Hstep & _). assert (h0 = h) as -> by congruence.
  destruct (IH e1 h1) as [-> ->]; [done..|]. split; [|done].
  inversion Hstep as [? ? run ? ? ? ? Hp|]; subst; [|done]. by destruct (Hp h eq_refl).
Qed.

(** ** Safety of a program *)

Fixpoint safe {A} (Q : A → MemoryState → Prop) (p : prog storeE A) (s : MemoryState) : Prop :=
  match p with
  | Ret a => Q a s
  | Vis e k => ∀ s' t, later s s' → (ms_next_version s' < u64_max)%N →
      guarantee s' (mem_handle t _ e s').2 ∧ safe Q (k (mem_handle t _ e s').1) (mem_handle t _ e s').2
  end.

Lemma safe_bind {A B} (Q : A → MemoryState → Prop) (R : B → MemoryState → Prop) p f s :
  safe Q p s → (∀ a s', later s s' → Q a s' → safe R (f a) s') → safe R (bind p f) s.
Proof.
  revert s; induction p as [a|X e k IH]; intros s Hp Hf; simpl in *; [by apply Hf|].
  intros s' t Hl Hn. destruct (Hp s' t Hl Hn) as [Hg Hk]. split; [done|].
  eapply IH; [exact Hk|]. intros a s2 Hl2. apply Hf. etrans; [exact Hl|]. eapply rtc_l; [exact Hg|done].
Qed.

Lemma safe_weaken {A} (Q R : A → MemoryState → Prop) (p : prog storeE A) s :
  safe Q p s → (∀ a s', later s s' → Q a s' → R a s') → safe R p s.
Proof.
  revert s; induction p as [a|X e k IH]; intros s Hp Hf; simpl in *; [by apply Hf|].
  intros s' t Hl Hn. destruct (Hp s' t Hl Hn) as [Hg Hk]. split; [done|].
  eapply IH; [exact Hk|]. intros a s2 Hl2. apply Hf. etrans; [exact Hl|]. eapply rtc_l; [exact Hg|done].
Qed.

(** A safe program stays safe while others run. *)
Lemma safe_later {A} (Q : A → MemoryState → Prop) (p : prog storeE A) s s' :
  (∀ a s s', later s s' → Q a s → Q a s') → later s s' → safe Q p s → safe Q p s'.
Proof.
  intros HQ Hl. destruct p as [a|X e k]; simpl; [by apply HQ|]. intros Hp s2 t Hl2. apply Hp. by etrans.
Qed.

(** ** Requests *)

Lemma no_wrap n : (n < u64_max)%N → wrapping_add64 n 1 = (n + 1)%N.
Proof. apply wrapping_succ. Qed.

(** A request that does not write. *)
Lemma guarantee_refl s : guarantee s s.
Proof. split; [done|lia|by left|by left]. Qed.

Lemma guarantee_calm t X (e : storeE X) s :
  calm X e → (ms_next_version s < u64_max)%N → guarantee s (mem_handle t X e s).2.
Proof.
  intros Hc Hn. destruct (calm_step t X e s Hc) as [Hh Hk].
  destruct e as [| | | | | key b | | | |]; try apply guarantee_refl; [done| |done]; simpl in *.
  unfold mem_put_immutable in *. destruct (ms_entries s !! key) as [e'|] eqn:E.
  { case_bool_decide; apply guarantee_refl. }
  simpl in *. split; simpl.
  - done.
  - rewrite no_wrap by done. lia.
  - intros key' e'. rewrite lookup_insert_Some. intros [[<- <-]|[_ Hk']]; [by right|by left].
  - intros chain_id. left. apply Hh. reflexivity.
Qed.

Lemma safe_calm {A} (Q : A → Prop) (p : prog storeE A) s :
  always calm Q p → safe (λ a _, Q a) p s.
Proof.
  intros Hp. revert s; induction Hp as [a Ha|X e k He Hk IH]; intros s; simpl; [done|].
  intros s' t Hl Hn. split; [by apply guarantee_calm|apply IH].
Qed.

(** The head a program has seen. *)
Definition seen (chain_id : N) (read : option (VersionedBytes * Head)) (s : MemoryState) : Prop :=
  match read with
  | Some (vb, h) => ∃ e, ms_entries s !! head_key chain_id = Some e ∧ vb = versioned e ∧
      Head_decode (me_bytes e) = Ok h ∧ h_chain_id h = chain_id
  | None => ms_entries s !! head_key chain_id = None
  end.

Lemma safe_read_head chain_id s :
  safe (λ r s', ∀ read, r = Ok read → seen chain_id read s') (read_head chain_id) s.
Proof.
  simpl. intros s' t Hl Hn. split; [apply guarantee_refl|]. unfold mem_read_mutable_bounded.
  destruct (ms_entries s' !! head_key chain_id) as [e|] eqn:E; simpl; [|by intros read [= <-]].
  destruct (_ <? _)%N; simpl; [done|]. destruct (Head_decode (me_bytes e)) as [h|] eqn:Ed; simpl; [|done].
  destruct (negb _) eqn:Ec; simpl; [done|]. bool_prop. intros read [= <-]. by exists e.
Qed.

(** ** [swap] *)

Lemma safe_stage b s :
  safe (λ r s', ∀ ref, r = Ok ref → r_digest ref = digest b ∧ (r_length ref <= u32_max)%N ∧
    stored s' (object_key (digest b)) b) (stage b) s.
Proof.
  unfold stage, try_u32. destruct (_ <=? _)%N eqn:E; [|done]. bool_prop. cbn [request bind safe].
  intros s' t Hl Hn. split; [apply (guarantee_calm t _ (SPutImmutable _ _)); [apply data_key_object|done]|].
  destruct (mem_put_immutable (object_key (digest b)) b s') as [[[]|e] s1] eqn:Ep; simpl; cbn [r_digest];
    rewrite Ep; simpl; [|done]. intros ref [= <-]. split_and!; [done|done|]. by eapply mem_put_ok.
Qed.

(** A successful compare-and-swap of the head that was seen. *)
Lemma cas_guarantee chain_id read next b s0 s :
  later s0 s → versions_ok s0 → seen chain_id read s0 →
  (ms_next_version s < u64_max)%N → (len b <= MAX_HEAD)%N →
  Head_decode b = Ok next → h_chain_id next = chain_id → head_step (snd <$> read) next →
  parent_ref (fst <$> read) (h_parent next) →
  (∀ p, fst <$> read = Some p → stored s (object_key (digest (vb_bytes p))) (vb_bytes p)) →
  expects (fst <$> read) (ms_entries s !! head_key chain_id) →
  guarantee s (MemoryState_insert (head_key chain_id) b s).
Proof.
  intros Hl Hv Hseen Hn Hlen Hd Hc Hstep Hpar Hst Hexp. split.
  - by apply keeps_insert_mutable.
  - simpl. rewrite no_wrap by done. lia.
  - intros key e'. simpl. rewrite lookup_insert_Some. intros [[<- <-]|[_ Hk']]; [by right|by left].
  - intros c. destruct (decide (c = chain_id)) as [->|Hne].
    2: { left. simpl. rewrite lookup_insert_ne; [done|]. by intros ?%head_key_inj. }
    right. eexists _, next. split; simpl.
    + by rewrite lookup_insert_eq.
    + simpl. rewrite no_wrap by done. lia.
    + done.
    + done.
    + done.
    + destruct read as [[vb h]|]; simpl in *.
      * destruct (ms_entries s !! head_key chain_id) as [e|] eqn:Ee; [|done].
        destruct Hseen as (e0 & He0 & -> & Hd0 & _). simpl in Hexp. apply (inj pretty) in Hexp.
        assert (e0 = e) as -> by (by eapply later_same_version).
        destruct (h_parent next) as [parent|]; [|done]. exists h, parent. destruct Hpar as [Hpd _].
        split_and!; [done|done|done|done|].
        apply keeps_insert_mutable; [reflexivity|apply object_key_immutable|]. by apply (Hst (versioned e)).
      * destruct (ms_entries s !! head_key chain_id); [done|]. by destruct (h_parent next).
Qed.

Lemma head_step_parent previous h p : head_step previous h → head_step previous (with_parent p h).
Proof.
  intros [? ? run Hs Hle Hn Hr Hp|]; [by eapply step_publish|by eapply step_compact].
Qed.

(** The head that a swap leaves. *)
Definition head_is (chain_id : N) (next : Head) (s : MemoryState) : Prop :=
  ∃ e parent, ms_entries s !! head_key chain_id = Some e ∧
    Head_decode (me_bytes e) = Ok (with_parent parent next).

Lemma safe_swap `{!HeadJsonLaws} chain_id read next s0 s :
  later s0 s → versions_ok s0 → seen chain_id read s0 →
  h_chain_id next = chain_id → head_valid next → wf_head next → head_step (snd <$> read) next →
  safe (λ r s', r = Ok tt → head_is chain_id next s') (swap (fst <$> read) next) s.
Proof.
  intros Hl Hv Hseen Hc Hval Hw Hstep. unfold swap.
  apply (safe_bind (λ r s', ∀ parent, r = Ok parent → parent_ref (fst <$> read) parent ∧
    ∀ p, fst <$> read = Some p → stored s' (object_key (digest (vb_bytes p))) (vb_bytes p))).
  { destruct (fst <$> read) as [p|]; [|by intros parent [= <-]].
    eapply safe_bind; [apply safe_stage|]. intros [ref|e] s' _ Hr; simpl; [|done].
    intros parent [= <-]. destruct (Hr ref eq_refl) as (? & ? & ?). split; [done|]. by intros p' [= <-]. }
  intros [parent|e] s1 Hl1 Hp; [|done]. destruct (Hp parent eq_refl) as [Hpar Hst]. clear Hp.
  destruct (head_to_json (with_parent parent next)) as [b|] eqn:Ej; [|done].
  destruct (MAX_HEAD <? len b)%N eqn:El; [done|]. bool_prop.
  change (h_chain_id (with_parent parent next)) with (h_chain_id next). rewrite Hc.
  assert (Head_decode b = Ok (with_parent parent next)) as Hd.
  { apply Head_decode_ok. split; [|by apply with_parent_valid]. apply (head_json_round _ _ Ej).
    apply with_parent_wf; [done|]. intros r ->. destruct (fst <$> read); [apply Hpar|done]. }
  cbn [request safe]. intros s2 t Hl2 Hn2.
  assert (later s0 s2) as Hl02 by (etrans; [exact Hl|by etrans]).
  assert (∀ p, fst <$> read = Some p → stored s2 (object_key (digest (vb_bytes p))) (vb_bytes p)) as Hst2.
  { intros p Hp. apply (later_keeps _ _ Hl2); [apply object_key_immutable|by apply Hst]. }
  destruct (mem_handle t _ (SCompareAndSwap (head_key chain_id) (fst <$> read) b) s2) as [r s3] eqn:Ecas.
  destruct (cas_ok t (fst <$> read) b s2 r s3 (head_key chain_id) eq_refl) as [_ Hr]; [simpl in *; by rewrite Ecas|].
  destruct r as [u|e]; [|subst; split; [apply guarantee_refl|done]]. destruct Hr as [Hexp ->]. simpl. split.
  - eapply (cas_guarantee chain_id read (with_parent parent next)); try done. by apply head_step_parent.
  - intros _. eexists _, parent. simpl. rewrite lookup_insert_eq. by split.
Qed.

(** ** The programs *)

(** The chain has reached block [n]. *)
Definition reached (chain_id n : N) (s : MemoryState) : Prop :=
  ∃ e h, ms_entries s !! head_key chain_id = Some e ∧ Head_decode (me_bytes e) = Ok h ∧ (n <= h_number h)%N.

Lemma later_decodes s s' chain_id e h :
  later s s' → ms_entries s !! head_key chain_id = Some e → Head_decode (me_bytes e) = Ok h →
  ∃ e' h', ms_entries s' !! head_key chain_id = Some e' ∧ Head_decode (me_bytes e') = Ok h'.
Proof.
  intros Hl. revert e h; induction Hl as [s|s s1 s' Hg Hl IH]; intros e h He Hd; [eauto|].
  destruct (gr_heads _ _ Hg chain_id) as [E|(e1 & h1 & [He1 _ Hd1 _ _ _])]; [|by eapply IH].
  eapply (IH e h); [congruence|done].
Qed.

Lemma reached_later chain_id n s s' : later s s' → reached chain_id n s → reached chain_id n s'.
Proof.
  intros Hl (e & h & He & Hd & Hn). destruct (later_decodes _ _ _ _ _ Hl He Hd) as (e' & h' & He' & Hd').
  exists e', h'. split_and!; [done|done|].
  destruct (later_number _ _ _ _ _ _ _ Hl He Hd He' Hd') as [|[]]; lia.
Qed.

Context `{!HexLaws, !HeadJsonLaws}.

Lemma seen_valid chain_id vb h s : seen chain_id (Some (vb, h)) s → head_valid h ∧ wf_head h ∧ h_chain_id h = chain_id.
Proof.
  intros (e & _ & _ & Hd & Hc). apply Head_decode_ok in Hd as [Hj Hv]. split_and!; [done|by eapply head_json_wf|done].
Qed.

(** What a package's run needs, besides the head. *)
Record run_ready (package : Package) (stop : BlockMeta) (run : Run) : Prop := {
  rr_last : last (sg_blocks (pk_segment package)) = Some stop;
  rr_root : root_ok run;
  rr_wf : wf_run run;
  rr_weight : run_weight run = 1%N;
  rr_order : (run_start run <= run_end run)%N;
  rr_end : run_end run = bm_number stop
}.

Lemma package_run_ready package first stop built :
  wf_package package → head (sg_blocks (pk_segment package)) = Some first → last (sg_blocks (pk_segment package)) = Some stop →
  (bm_number first <= bm_number stop)%N → built_ok built →
  run_ready package stop (new_run (bm_number first) (bm_number stop) 1 built).
Proof.
  intros Hwf Hf Hl Ho Hb.
  assert (∀ b, b ∈ sg_blocks (pk_segment package) → (bm_number b <= u64_max)%N) as Hu64 by (apply Forall_forall, Hwf).
  split; [done|by apply new_run_root| |done|done|done].
  apply new_run_wf; [done|apply Hu64; by apply head_Some_elem_of|apply Hu64; by apply last_Some_elem_of|vm_compute; discriminate].
Qed.

Lemma next_head_step package first stop run previous :
  extendable previous (run_start run) → run_ready package stop run →
  head_step previous (next_head package first stop run previous).
Proof.
  intros He [_ _ _ _ Ho Hend]. eapply (step_publish _ _ run); [|done| |apply next_head_runs|].
  - destruct previous as [p|]; [apply He|by rewrite He].
  - rewrite Hend. by destruct previous.
  - intros p ->. done.
Qed.

Definition published_number (package : Package) (stop : BlockMeta) (r : result unit) (s : MemoryState) : Prop :=
  r = Ok tt → reached (sg_chain_id (pk_segment package)) (bm_number stop) s.

(** A head that is the package's has its number. *)
Lemma is_published_reached package stop vb h s :
  last (sg_blocks (pk_segment package)) = Some stop → is_published h package = true →
  seen (sg_chain_id (pk_segment package)) (Some (vb, h)) s →
  reached (sg_chain_id (pk_segment package)) (bm_number stop) s.
Proof.
  intros Hl Hp (e & He & _ & Hd & _). exists e, h. split_and!; [done|done|].
  unfold is_published in Hp. rewrite Hl in Hp. bool_prop. lia.
Qed.

Lemma safe_publish_loop n package first stop run read s0 s :
  later s0 s → versions_ok s0 → seen (sg_chain_id (pk_segment package)) read s0 →
  wf_package package → run_ready package stop run → extendable (snd <$> read) (run_start run) →
  safe (published_number package stop) (publish_loop n package first stop run read) s.
Proof.
  intros Hl Hv Hseen Hwf Hrun Hext. revert read s0 s Hl Hv Hseen Hext.
  induction n as [|n IH]; intros read s0 s Hl Hv Hseen Hext; [done|]. cbn [publish_loop].
  set (next := next_head package first stop run (snd <$> read)).
  assert (h_chain_id next = sg_chain_id (pk_segment package)) as Hc.
  { unfold next. destruct read as [[vb h]|]; simpl; [|done]. by apply seen_valid in Hseen as (_ & _ & ?). }
  assert (head_valid next) as Hval by (apply next_head_valid; [done|apply Hrun..]).
  assert (wf_head next) as Hw.
  { apply next_head_wf; [done|eapply last_Some_elem_of, Hrun| |apply Hrun].
    intros h Hh. destruct read as [[vb h']|]; [|done]. injection Hh as ->. by apply seen_valid in Hseen as (_ & ? & _). }
  eapply safe_bind; [by eapply (safe_swap _ read next s0 s); try done; apply next_head_step|].
  intros [[]|e] s1 Hl1 Hsw; cbn beta iota.
  { destruct (Hsw eq_refl) as (e & parent & He & Hd). intros _. exists e, (with_parent parent next).
    split_and!; [done|done|]. unfold next. destruct (snd <$> read); simpl; lia. }
  clear Hsw. eapply safe_bind; [apply safe_read_head|]. intros [current|e'] s2 Hl2 Hcur; [|done].
  specialize (Hcur current eq_refl). destruct current as [[vb' now]|]; [|done].
  destruct (is_published now package) eqn:Ep.
  { intros _. eapply is_published_reached; [apply Hrun|done|done]. }
  destruct read as [[vb before]|]; [|done]. destruct (_ && _) eqn:Esame; [|done]. bool_prop.
  assert (later s0 s2) as Hl02 by (etrans; [exact Hl|by etrans]).
  apply (IH _ s2 s2); [done|by eapply later_versions|done|].
  destruct Hext as (_ & Hlen & Hsucc). cbn [snd] in Hlen, Hsucc. change (extendable (Some now) (run_start run)). unfold extendable.
  apply seen_valid in Hcur as Hcv. destruct Hcv as (Hcv & _ & _).
  destruct Hseen as (e0 & He0 & _ & Hd0 & _). destruct Hcur as (e2 & He2 & _ & Hd2 & _).
  split_and!; [done| |congruence].
  destruct (later_number _ _ _ _ _ _ _ Hl02 He0 Hd0 He2 Hd2) as [|[_ Hle]]; lia.
Qed.

Lemma safe_publish package gate s :
  versions_ok s → wf_package package →
  safe (λ r s', r = Ok tt → reached (sg_chain_id (pk_segment package)) (sg_end_block (pk_segment package)) s')
    (publish package gate) s.
Proof.
  intros Hv Hwf. unfold publish.
  destruct (head (sg_blocks (pk_segment package))) as [first|] eqn:Ef; [|done].
  destruct (last (sg_blocks (pk_segment package))) as [stop|] eqn:El; [|done]. cbn [ok_or unwrap].
  destruct (interval_invalid _ first stop) eqn:Ei; [done|]. destruct (negb (gate_open gate stop)); [done|].
  pose proof (blocks_ordered _ _ _ Ei Ef El) as Hord.
  assert (sg_end_block (pk_segment package) = bm_number stop) as -> by (unfold interval_invalid in Ei; by bool_prop).
  eapply safe_bind; [apply safe_read_head|]. intros [read|e] s1 Hl1 Hread; [|done]. specialize (Hread read eq_refl).
  destruct (match read with Some (_, h) => is_published h package | None => false end) eqn:Ep.
  { destruct read as [[vb h]|]; [|done]. intros _. by eapply is_published_reached. }
  destruct (negb (transition_ok _ _ _)) eqn:Et; [done|]. apply negb_false_iff in Et.
  destruct (match read with Some (_, h) => (MAX_L0_BACKLOG <=? len (h_l0 h))%N | None => false end) eqn:Eb; [done|].
  destruct (validate_lifecycle package) as [[]|]; [|done].
  destruct (package_records package) as [records|] eqn:Erec; [|done].
  eapply safe_bind; [apply safe_calm, calm_write_sorted|]. intros [built|e] s2 Hl2 Hb; [|done].
  specialize (Hb built eq_refl).
  apply (safe_publish_loop CAS_ATTEMPTS package first stop _ read s1); try done; [by eapply later_versions| |].
  - by apply package_run_ready.
  - eapply transition_extendable; [done| |done]. intros h Hh. destruct read as [[vb h']|]; [|done].
    injection Hh as ->. bool_prop. split; [by apply seen_valid in Hread as (? & _ & _)|done].
Qed.

(** ** Compactors *)

(** What a plan made on [planned] does to a compatible head. *)
Record plan_ready (planned : Head) (t : nat) (levels : list (option Run)) (weight : N) (run : Run) : Prop := {
  pr_plan : planned_from 0 (h_levels planned) levels weight t;
  pr_l0 : (L0_TRIGGER <= len (h_l0 planned))%N;
  pr_contiguous : noncontiguous (plan_inputs t (h_levels planned) (h_l0 planned)) = false;
  pr_first : ∃ first, head (plan_inputs t (h_levels planned) (h_l0 planned)) = Some first ∧ run_start run = run_start first;
  pr_stop : ∃ stop, last (plan_inputs t (h_levels planned) (h_l0 planned)) = Some stop ∧ run_end run = run_end stop;
  pr_root : root_ok run;
  pr_wf : wf_run run;
  pr_weight : run_weight run = weight
}.

Lemma starts_with_take {A} `{EqDecision A} (l k : list A) n :
  starts_with l (take n k) = true → n ≤ length k → take n l = take n k.
Proof.
  unfold starts_with. intros Hs Hn. bool_prop. by rewrite length_take, Nat.min_l in Hs by done.
Qed.

Lemma compatible_inputs planned current t :
  compatible planned current = true → (L0_TRIGGER <= len (h_l0 planned))%N →
  h_levels current = h_levels planned ∧
  plan_inputs t (h_levels current) (h_l0 current) = plan_inputs t (h_levels planned) (h_l0 planned).
Proof.
  unfold compatible. intros Hc Hl. bool_prop. split; [done|]. unfold plan_inputs. f_equal; [congruence|].
  apply starts_with_take; [done|]. unfold len, L0_TRIGGER in *. lia.
Qed.

Lemma compacted_step planned t levels weight run current :
  plan_ready planned t levels weight run → compatible planned current = true → head_valid current → wf_head current →
  let next := compacted_head (drop_trailing_none (<[t := Some run]> levels)) current in
  head_valid next ∧ wf_head next ∧ head_step (Some current) next.
Proof.
  intros [Hp Hl0 Hn (first & Hf & Hs) (stop & Hl & He) Hr Hw Hwt] Hc Hv Hwc next.
  destruct (compatible_inputs _ _ t Hc Hl0) as [El Ei]. rewrite <-Ei in Hn, Hf, Hl. split_and!.
  - by eapply compacted_valid.
  - by eapply compacted_wf.
  - eapply (step_compact current next (deep t (h_levels current)) _ run _ first stop);
      [apply runs_split|by eapply compacted_runs|done..|]. simpl. unfold len. rewrite length_drop. lia.
Qed.

Lemma safe_compact_loop n chain_id planned t levels weight run s :
  versions_ok s → plan_ready planned t levels weight run →
  safe (λ _ _, True) (compact_loop n chain_id planned (drop_trailing_none (<[t := Some run]> levels))) s.
Proof.
  intros Hv Hp. revert s Hv; induction n as [|n IH]; intros s Hv; [done|]. cbn [compact_loop].
  eapply safe_bind; [apply safe_read_head|]. intros [read|e] s1 Hl1 Hread; [|done]. specialize (Hread read eq_refl).
  destruct read as [[vb current]|]; [|done]. cbn [ok_or].
  destruct (negb (compatible planned current)) eqn:Ec; [done|]. apply negb_false_iff in Ec.
  assert (versions_ok s1) as Hv1 by (by eapply later_versions).
  apply seen_valid in Hread as Hcv. destruct Hcv as (Hval & Hw & Hc).
  destruct (compacted_step _ _ _ _ _ _ Hp Ec Hval Hw) as (Hval' & Hw' & Hstep).
  eapply safe_bind.
  { by apply (safe_swap chain_id (Some (vb, current)) _ s1 s1). }
  intros [[]|e] s2 Hl2 _; [done|]. apply IH. by eapply later_versions.
Qed.

(** The plan that [compact_once] makes. *)
Lemma planned_inputs planned levels weight deeper t :
  head_valid planned → (L0_TRIGGER <= len (h_l0 planned))%N →
  plan_levels (S (N.to_nat MAX_LEVELS)) (h_levels planned) L0_TRIGGER [] 0 = Ok (levels, weight, deeper, t) →
  rev deeper ++ take (N.to_nat L0_TRIGGER) (h_l0 planned) = plan_inputs t (h_levels planned) (h_l0 planned).
Proof.
  intros Hval Hl0 Eplan.
  destruct (plan_levels_ok (S (N.to_nat MAX_LEVELS)) 0 (h_levels planned) (h_levels planned) L0_TRIGGER [])
    as [(levels' & weight' & t' & E & Hplan)|[E _]]; [apply Hval|done|done|done|lia|vm_compute; lia| |by rewrite E in Eplan].
  rewrite E in Eplan. by injection Eplan as -> -> <- ->.
Qed.
Lemma compaction_ready planned levels weight deeper t built first stop :
  head_valid planned → wf_head planned → (L0_TRIGGER <= len (h_l0 planned))%N →
  plan_levels (S (N.to_nat MAX_LEVELS)) (h_levels planned) L0_TRIGGER [] 0 = Ok (levels, weight, deeper, t) →
  let inputs := rev deeper ++ take (N.to_nat L0_TRIGGER) (h_l0 planned) in
  noncontiguous inputs = false → head inputs = Some first → last inputs = Some stop → built_ok built →
  plan_ready planned t levels weight (new_run (run_start first) (run_end stop) weight built).
Proof.
  intros Hval Hw Hl0 Eplan inputs En Ef El Hb.
  destruct (plan_levels_ok (S (N.to_nat MAX_LEVELS)) 0 (h_levels planned) (h_levels planned) L0_TRIGGER [])
    as [(levels' & weight' & t' & E & Hplan)|[E _]]; [apply Hval|done|done|done|lia|vm_compute; lia| |by rewrite E in Eplan].
  rewrite E in Eplan. injection Eplan as -> -> <- ->.
  change inputs with (plan_inputs t (h_levels planned) (h_l0 planned)) in *. clear inputs.
  assert (∀ r, r ∈ plan_inputs t (h_levels planned) (h_l0 planned) → wf_run r) as Hwr.
  { intros r Hr. apply (wf_runs planned); [done|]. rewrite (runs_split t planned), !elem_of_app. right. by left. }
  split; try done; [eauto|eauto|by apply new_run_root|].
  apply new_run_wf; [done|apply Hwr; by apply head_Some_elem_of|apply Hwr; by apply last_Some_elem_of|].
  destruct Hplan as [Ht _ _ _ Hlt]. pose proof (unit_of_bound t (proj2 Ht)). unfold u64_max. lia.
Qed.

Lemma safe_compact fuel chain_id s :
  versions_ok s → safe (λ _ _, True) (compact_once fuel chain_id) s.
Proof.
  intros Hv. unfold compact_once.
  eapply safe_bind; [apply safe_read_head|]. intros [read|e] s1 Hl1 Hread; [|done]. specialize (Hread read eq_refl).
  destruct read as [[vb planned]|]; [|done]. apply seen_valid in Hread as (Hval & Hw & Hc).
  destruct (len (h_l0 planned) <? L0_TRIGGER)%N eqn:El0; [done|]. bool_prop.
  destruct (plan_levels _ _ _ _ _) as [[[[levels weight] deeper] t]|e] eqn:Eplan; [|done].
  destruct (noncontiguous _) eqn:En; [done|]. destruct (collect Run_input _) as [refs|] eqn:Ec; [|done].
  assert (versions_ok s1) as Hv1 by (by eapply later_versions).
  eapply (safe_bind (λ _ _, True)); [by apply (safe_calm (λ _, True)); constructor; [|constructor]|].
  intros started s2 Hl2 _. eapply safe_bind; [apply safe_calm, calm_merge_runs|].
  intros [built|e] s3 Hl3 Hb; [|done]. specialize (Hb built eq_refl).
  eapply (safe_bind (λ _ _, True)); [by apply (safe_calm (λ _, True)); constructor; [|constructor]|].
  intros finished s4 Hl4 _. destruct (_ <? _)%Z; [done|].
  destruct (head (rev deeper ++ _)) as [first|] eqn:Ef; [|done].
  destruct (last (rev deeper ++ _)) as [stop|] eqn:El; [|done]. cbn [unwrap].
  eapply (safe_compact_loop CAS_ATTEMPTS chain_id planned t levels weight); [by do 3 (eapply later_versions; [done|])|].
  by eapply compaction_ready.
Qed.

End protocol.

(** * Every interleaving

    A scheduler picks any agent that has a request left, the store answers it
    and the clock may read any time. *)

Inductive Agent :=
| Publisher (package : Package) (gate : PublicationGate)
| Compactor (fuel : nat) (chain_id : N).

Definition wf_agent (a : Agent) : Prop :=
  match a with Publisher package _ => wf_package package | Compactor _ _ => True end.

(** One request of one agent. *)
Inductive sched {A} : MemoryState * list (prog storeE A) → MemoryState * list (prog storeE A) → Prop :=
| sched_step s pool i t {X} (e : storeE X) k :
    pool !! i = Some (Vis e k) →
    sched (s, pool) ((mem_handle t X e s).2, <[i := k (mem_handle t X e s).1]> pool).

(** The same, given the agent and the time of each request. *)
Fixpoint run_sched {A} (l : list (nat * Z)) (s : MemoryState) (pool : list (prog storeE A))
    : option (MemoryState * list (prog storeE A)) :=
  match l with
  | [] => Some (s, pool)
  | (i, t) :: l =>
      match pool !! i with
      | Some (Vis e k) =>
          run_sched l (mem_handle t _ e s).2 (<[i := k (mem_handle t _ e s).1]> pool)
      | _ => None
      end
  end.

Lemma run_sched_steps {A} l s (pool : list (prog storeE A)) s' pool' :
  run_sched l s pool = Some (s', pool') → nsteps sched (length l) (s, pool) (s', pool').
Proof.
  revert s pool; induction l as [|[i t] l IH]; intros s pool; simpl; [intros [= -> ->]; constructor|].
  destruct (pool !! i) as [[a|X e k]|] eqn:E; [done| |done]. intros Hr.
  eapply nsteps_l; [by apply (sched_step s pool i t e k)|]. by apply IH.
Qed.

Section theorems.
Context `{Sha256, Keccak256, Hex, Zstd, HeadJson, !HexLaws, !HeadJsonLaws}.

Definition agent_prog (a : Agent) : prog storeE (result unit) :=
  match a with
  | Publisher package gate => publish package gate
  | Compactor fuel chain_id => let! _ := compact_once fuel chain_id in Ret (Ok tt)
  end.

(** What an agent's success means. *)
Definition agent_post (a : Agent) (r : result unit) (s : MemoryState) : Prop :=
  match a with
  | Publisher package _ =>
      r = Ok tt → reached (sg_chain_id (pk_segment package)) (sg_end_block (pk_segment package)) s
  | Compactor _ _ => True
  end.

Lemma agent_post_later a r s s' : rtc guarantee s s' → agent_post a r s → agent_post a r s'.
Proof. destruct a; simpl; [|done]. intros Hl Hp Hr. eapply reached_later; [exact Hl|by apply Hp]. Qed.

Lemma safe_agent a s : versions_ok s → wf_agent a → safe (agent_post a) (agent_prog a) s.
Proof.
  intros Hv Hw. destruct a as [package gate|fuel chain_id]; cbn [agent_prog]; [by apply safe_publish|].
  eapply safe_bind; [by apply safe_compact|]. by intros [r|e] s' _ _.
Qed.

Lemma handle_next t X (e : storeE X) s :
  guarantee s (mem_handle t X e s).2 → (ms_next_version (mem_handle t X e s).2 <= ms_next_version s + 1)%N.
Proof. intros [_ Hn _ _]. lia. Qed.

Definition pool_safe (agents : list Agent) (pool : list (prog storeE (result unit))) (s : MemoryState) : Prop :=
  Forall2 (λ a p, safe (agent_post a) p s) agents pool.

Lemma sched_safe agents s pool s' pool' :
  (ms_next_version s < u64_max)%N → pool_safe agents pool s → sched (s, pool) (s', pool') →
  guarantee s s' ∧ pool_safe agents pool' s'.
Proof.
  intros Hn Hp Hs. inversion Hs as [? ? i t X e k Hi]; subst. unfold pool_safe in *.
  destruct (Forall2_lookup_r _ _ _ _ _ Hp Hi) as (a & Ha & Hsafe). simpl in Hsafe.
  destruct (Hsafe s t (rtc_refl _ _) Hn) as [Hg Hk]. split; [done|].
  apply Forall2_same_length_lookup in Hp as [Hlen Hp].
  apply Forall2_same_length_lookup. rewrite length_insert. split; [done|]. intros j b q Hb Hq.
  apply list_lookup_insert_Some in Hq as [(<- & <- & _)|[_ Hq]].
  - assert (b = a) as -> by congruence. done.
  - eapply safe_later; [|by apply rtc_once|by eapply Hp]. intros x s1 s2. apply agent_post_later.
Qed.

Lemma nsteps_safe n agents s pool s' pool' :
  (ms_next_version s + N.of_nat n <= u64_max)%N → pool_safe agents pool s →
  nsteps sched n (s, pool) (s', pool') → rtc guarantee s s' ∧ pool_safe agents pool' s'.
Proof.
  revert s pool; induction n as [|n IH]; intros s pool Hn Hp Hs.
  { inversion Hs; subst. done. }
  inversion Hs as [|? ? [s1 pool1] ? Hstep Hrest]; subst.
  destruct (sched_safe agents s pool s1 pool1) as [Hg Hp1]; [lia|done|done|].
  destruct (IH s1 pool1) as [Hl Hp']; [pose proof (gr_next _ _ Hg); lia|done|done|].
  split; [by eapply rtc_l|done].
Qed.

Lemma pool_start agents s :
  versions_ok s → Forall wf_agent agents → pool_safe agents (map agent_prog agents) s.
Proof.
  intros Hv HF. unfold pool_safe. induction HF as [|a agents Ha HF IH]; constructor; [by apply safe_agent|done].
Qed.

(** C7: every interleaving of publishers and compactors is a sequence of legal
    transitions.  Each request keeps every object and moves at most one head,
    by appending the run that follows its last block or by replacing adjacent
    runs with one that spans exactly their blocks; the new head decodes, names
    its parent by digest, and the parent is stored. *)
Theorem interleaving_is_legal n agents s s' pool :
  versions_ok s → Forall wf_agent agents → (ms_next_version s + N.of_nat n <= u64_max)%N →
  nsteps sched n (s, map agent_prog agents) (s', pool) → rtc guarantee s s'.
Proof. intros Hv HF Hn Hs. by apply (nsteps_safe n agents s (map agent_prog agents) s' pool); [|apply pool_start|]. Qed.

(** C8: no publication is lost.  When a publisher has reported success, the head
    of its chain decodes and is at or past the package's last block, whatever
    the other publishers and compactors did before and after. *)
Theorem published_never_lost n agents s s' pool i package gate :
  versions_ok s → Forall wf_agent agents → (ms_next_version s + N.of_nat n <= u64_max)%N →
  nsteps sched n (s, map agent_prog agents) (s', pool) →
  agents !! i = Some (Publisher package gate) → pool !! i = Some (Ret (Ok tt)) →
  reached (sg_chain_id (pk_segment package)) (sg_end_block (pk_segment package)) s'.
Proof.
  intros Hv HF Hn Hs Ha Hp.
  destruct (nsteps_safe n agents s (map agent_prog agents) s' pool) as [_ Hsafe]; [done|by apply pool_start|done|].
  by apply (Forall2_lookup_lr _ _ _ _ _ _ Hsafe Ha Hp).
Qed.

(** C9: concurrent writers never leave a head that cannot be read.  A head that
    decodes before an interleaving decodes after it, with the same chain, and at
    a block at least as high; at the same block it has no more level-0 runs. *)
Theorem interleaving_keeps_heads_readable n agents s s' pool chain_id e h :
  versions_ok s → Forall wf_agent agents → (ms_next_version s + N.of_nat n <= u64_max)%N →
  nsteps sched n (s, map agent_prog agents) (s', pool) →
  ms_entries s !! head_key chain_id = Some e → Head_decode (me_bytes e) = Ok h → h_chain_id h = chain_id →
  ∃ e' h', ms_entries s' !! head_key chain_id = Some e' ∧ Head_decode (me_bytes e') = Ok h' ∧
    h_chain_id h' = chain_id ∧ h_genesis h' = h_genesis h ∧
    ((h_number h < h_number h')%N ∨ (h_number h' = h_number h ∧ (len (h_l0 h') <= len (h_l0 h))%N)).
Proof.
  intros Hv HF Hn Hs He Hd Hc.
  destruct (nsteps_safe n agents s (map agent_prog agents) s' pool) as [Hl _]; [done|by apply pool_start|done|].
  destruct (later_decodes _ _ _ _ _ Hl He Hd) as (e' & h' & He' & Hd'). exists e', h'.
  destruct (later_identity _ _ _ _ _ _ _ Hl Hc He Hd He' Hd') as [Hg Hch].
  split_and!; [done|done|congruence|done|]. by eapply later_number.
Qed.

End theorems.
