(* ===== verification/SharedStore.v ===== *)
(** * Publishers and compactors on any back end

    [Protocol] is about the in-memory store.  Here the requests of publishers and
    compactors are answered by [store_spec], the contract that the file-system
    and the object-store back ends implement: every request may fail, and a write
    that failed may have happened.  [legal] is what a request may do to the
    objects.

    What the processes did is told by a ghost log, the packages published on each
    chain.  [ledger] says which head and history a log leads to from the start:
    a publication appends its package and its records, a compaction leaves both.
    [recorded] relates the log to the objects, through a memory store that is
    [included] in them and holds the archive of the head ([represents]).  [sound]
    says that, whatever the other processes do, every request of a program is
    [legal] and keeps the log [recorded], appending at most a package that was
    wanted, and that the program ends in its postcondition: for a publisher, that
    its package is published ([sound_publish]).

    One thing is asked of the back end beyond its contract: while the processes
    run, a version of a head names one content ([unambiguous]).  For the object
    store these are entity tags, for the file system digests. *)

From stdpp Require Import pretty relations.
From S2P Require Import Prelude Bytes SortedLists Externals Hash RunFormat RunReader RunRep Head HeadFacts Summary RelyGuarantee Store StoreContract Compact CompactFacts MergeFacts Format Tiered TieredReader ReaderFacts ReaderTheorems HeadSteps Calm PublishFacts TieredTheorems Protocol.
From Stdlib Require Import Lia.

Section shared.
Context `{Sha256, Keccak256, Hex, Zstd, HeadJson}.
Implicit Types m : contents.

(** ** Legal requests *)

Definition holds m (key : string) (b : bytes) : Prop := fst <$> m key = Some b.
Definition keeps_objects m m' : Prop := ∀ key b, immutable_key key = true → holds m key b → holds m' key b.

Record head_changed (chain_id : N) m m' (b' : bytes) (h' : Head) : Prop := {
  hc_entry : holds m' (head_key chain_id) b';
  hc_decodes : Head_decode b' = Ok h';
  hc_chain : h_chain_id h' = chain_id;
  hc_bounded : (len b' <= MAX_HEAD)%N;
  hc_step : match fst <$> m (head_key chain_id) with
    | None => head_step None h' ∧ h_parent h' = None
    | Some b => ∃ h parent, Head_decode b = Ok h ∧ head_step (Some h) h' ∧
        h_parent h' = Some parent ∧ r_digest parent = digest b ∧ holds m' (object_key (digest b)) b
    end
}.
Record legal m m' : Prop := {
  lg_keeps : keeps_objects m m';
  lg_heads chain_id : fst <$> m' (head_key chain_id) = fst <$> m (head_key chain_id) ∨
    ∃ b' h', head_changed chain_id m m' b' h'
}.

Lemma legal_keeps m m' : rtc legal m m' → keeps_objects m m'.
Proof. induction 1 as [m|m m1 m' [Hk _] _ IH]; intros key b Hi Hb; [done|]. by apply IH, Hk. Qed.

(** The chain keeps a readable head, on which numbers never decrease and, while they
    stay, the level-0 runs do not grow. *)
Lemma legal_number m m' chain_id b b' h h' :
  rtc legal m m' → holds m (head_key chain_id) b → Head_decode b = Ok h →
  holds m' (head_key chain_id) b' → Head_decode b' = Ok h' →
  (h_number h < h_number h')%N ∨ (h_number h' = h_number h ∧ (len (h_l0 h') <= len (h_l0 h))%N).
Proof.
  intros Hl. revert b h; induction Hl as [m|m m1 m' Hg _ IH]; intros b h Hb Hd Hb' Hd'.
  { unfold holds in *. assert (h' = h) as -> by congruence. right. split; [done|lia]. }
  destruct (lg_heads _ _ Hg chain_id) as [E|(b1 & h1 & [Hb1 Hd1 _ _ Hstep])].
  { apply (IH b h); [unfold holds in *; congruence|done..]. }
  unfold holds in Hb. rewrite Hb in Hstep. destruct Hstep as (h0 & parent & Hd0 & Hstep & _).
  assert (h0 = h) as -> by congruence. apply head_step_number in Hstep.
  destruct (IH b1 h1) as [|[]]; [done..| |]; destruct Hstep as [|[]]; lia.
Qed.

(** The genesis never changes. *)
Lemma legal_genesis m m' chain_id b b' h h' :
  rtc legal m m' → holds m (head_key chain_id) b → Head_decode b = Ok h →
  holds m' (head_key chain_id) b' → Head_decode b' = Ok h' → h_genesis h' = h_genesis h.
Proof.
  intros Hl. revert b h; induction Hl as [m|m m1 m' Hg _ IH]; intros b h Hb Hd Hb' Hd'.
  { unfold holds in *. congruence. }
  destruct (lg_heads _ _ Hg chain_id) as [E|(b1 & h1 & [Hb1 Hd1 _ _ Hstep])].
  { apply (IH b h); [unfold holds in *; congruence|done..]. }
  unfold holds in Hb. rewrite Hb in Hstep. destruct Hstep as (h0 & parent & Hd0 & Hstep & _).
  assert (h0 = h) as -> by congruence. rewrite (IH b1 h1) by done.
  inversion Hstep as [? ? run _ _ _ _ Hp|]; subst; [by apply Hp|done].
Qed.

(** ** What a store holds of a chain *)

(** The pages, roots and summaries of a memory store are among the objects. *)
Definition included (s : MemoryState) m : Prop :=
  ∀ key b, immutable_key key = true → stored s key b → holds m key b.

Lemma included_keeps s m m' : keeps_objects m m' → included s m → included s m'.
Proof. intros Hk Hs key b Hi Hb. by apply Hk, Hs. Qed.
Lemma included_empty m : included memory_default m.
Proof. intros key b _ (e & He & _). simpl in He. by rewrite lookup_empty in He. Qed.

(** What two memory stores hold, when both are within the objects. *)
Lemma included_join s1 s2 m : included s1 m → included s2 m → ∃ s, included s m ∧ keeps s1 s ∧ keeps s2 s.
Proof.
  intros Hw1 Hw2.
  exists {| ms_next_version := 0; ms_entries := ms_entries s1 ∪ ms_entries s2 |}. split_and!.
  - intros key b Hi (e & He & Hb). simpl in He.
    apply lookup_union_Some_raw in He as [He|[_ He]]; [apply Hw1|apply Hw2]; try done; by exists e.
  - intros key b _ (e & He & Hb). exists e. split; [|done]. simpl. by apply lookup_union_Some_l.
  - intros key b Hi (e & He & Hb). destruct (ms_entries s1 !! key) as [e1|] eqn:E1.
    + exists e1. split; [simpl; by apply lookup_union_Some_l|].
      assert (holds m key (me_bytes e1)) as Hm1 by (apply Hw1; [done|by exists e1]).
      assert (holds m key b) as Hm2 by (apply Hw2; [done|by exists e]).
      unfold holds in *. congruence.
    + exists e. split; [|done]. simpl. by rewrite lookup_union_r.
Qed.

(** A memory store with one head beside its objects. *)
Lemma included_head s m chain_id b :
  included s m → included (MemoryState_insert (head_key chain_id) b s) m ∧ keeps s (MemoryState_insert (head_key chain_id) b s).
Proof.
  intros Hs. split; [|apply keeps_insert_mutable, head_key_mutable]. intros key b' Hi (e & He & Hb). apply Hs; [done|].
  simpl in He. rewrite lookup_insert_ne in He by (intros <-; by rewrite head_key_mutable in Hi). by exists e.
Qed.
Lemma included_object m key b : holds m key b → ∃ s, included s m ∧ stored s key b.
Proof.
  intros Hb. exists (MemoryState_insert key b memory_default). split.
  - intros key' b' _ (e & He & Hb'). simpl in He. apply lookup_insert_Some in He as [[<- <-]|[_ He]]; [|by rewrite lookup_empty in He].
    by subst b'.
  - eexists. split; [simpl; apply lookup_insert_eq|done].
Qed.

(** The head of a chain, and a history that answers every question as its runs do. *)
Definition represents m (chain_id : N) (previous : option Head) (hist : list RunRecord) : Prop :=
  match previous with
  | None => m (head_key chain_id) = None ∧ hist = []
  | Some h => ∃ b s rss, holds m (head_key chain_id) b ∧ Head_decode b = Ok h ∧ archive s chain_id h rss ∧ included s m ∧
      ∀ key block, state_at (concat rss) key block = state_at hist key block
  end.

Lemma represents_head m chain_id previous hist b h :
  represents m chain_id previous hist → holds m (head_key chain_id) b → Head_decode b = Ok h → previous = Some h.
Proof.
  unfold holds. destruct previous as [h'|]; simpl.
  - intros (b' & s & rss & Hb' & Hd' & _) Hb Hd. unfold holds in *. congruence.
  - intros [-> _]. done.
Qed.

(** The state of a chain after the packages [log], one publication after the other:
    each continues the blocks of the chain, and adds its records to the history;
    compactions change neither. *)
Definition same_point (h h' : Head) : Prop :=
  h_chain_id h' = h_chain_id h ∧ h_genesis h' = h_genesis h ∧ h_number h' = h_number h ∧ h_hash h' = h_hash h ∧
  h_input_sha256 h' = h_input_sha256 h.
Inductive ledger (start : option Head) (hist : list RunRecord) : list Package → option Head → list RunRecord → Prop :=
| ledger_start : ledger start hist [] start hist
| ledger_publish log previous hist' package first records h :
    ledger start hist log previous hist' →
    head (sg_blocks (pk_segment package)) = Some first → transition_ok package first previous = true →
    package_records package = Ok records → is_published h package = true →
    ledger start hist (log ++ [package]) (Some h) (hist' ++ records)
| ledger_compact log h h' hist' :
    ledger start hist log (Some h) hist' → same_point h h' → ledger start hist log (Some h') hist'.

Lemma same_point_published h h' package : same_point h h' → is_published h' package = is_published h package.
Proof. intros (E1 & E2 & E3 & E4 & E5). unfold is_published. by rewrite E1, E2, E3, E4, E5. Qed.

(** A package that was published: it is the one of the head at the start, or one
    with its end, genesis and digest is in the log. *)
Definition listed (start : option Head) (log : list Package) (package : Package) : Prop :=
  ∃ h, is_published h package = true ∧ (start = Some h ∨ ∃ p, p ∈ log ∧ is_published h p = true).

Lemma ledger_listed start hist log h hist' package :
  ledger start hist log (Some h) hist' → is_published h package = true → listed start log package.
Proof.
  intros Hl. remember (Some h) as now eqn:E. revert h E; induction Hl as [|log previous hist' p first records h' _ _ Hf Ht Hr Hp|log h0 h' hist' _ IH Hs];
    intros h E Hpub.
  - exists h. auto.
  - injection E as ->. exists h. split; [done|right]. exists p. split; [|done]. apply elem_of_app. right. by left.
  - injection E as ->. apply (IH h0); [done|]. by rewrite <-(same_point_published _ _ _ Hs).
Qed.

(** ** Soundness of a program

    The state is the objects and, for each chain, the packages that were published
    so far: what a program may do to both, and what it may rely on. *)

(** The stores that are met while the processes run, in which a version of a head
    names one content; the packages that are to be published; and what the chains
    held at the start. *)
Context (met : contents → Prop) (wanted : Package → Prop) (start : N → option Head) (hist : N → list RunRecord).
Definition unambiguous : Prop := ∀ m m' chain_id b b' w,
  met m → met m' → m (head_key chain_id) = Some (b, Some w) → m' (head_key chain_id) = Some (b', Some w) → b = b'.
Hypothesis Hversions : unambiguous.

Definition State : Type := contents * (N → list Package).
Implicit Types σ : State.

(** The store holds the history of the log. *)
Definition recorded_at m (chain_id : N) (log : list Package) : Prop :=
  ∃ previous hist', ledger (start chain_id) (hist chain_id) log previous hist' ∧ represents m chain_id previous hist'.
Definition recorded σ : Prop := ∀ chain_id, recorded_at σ.1 chain_id (σ.2 chain_id).
Definition logged (log log' : list Package) : Prop := log' = log ∨ ∃ package, wanted package ∧ log' = log ++ [package].

Record step σ σ' : Prop := {
  st_legal : legal σ.1 σ'.1;
  st_log chain_id : logged (σ.2 chain_id) (σ'.2 chain_id);
  st_recorded : recorded σ → recorded σ'
}.
Abbreviation later := (rtc step).

Lemma later_legal σ σ' : later σ σ' → rtc legal σ.1 σ'.1.
Proof. induction 1 as [σ|σ σ1 σ' Hs _ IH]; [done|]. eapply rtc_l; [apply Hs|done]. Qed.
Lemma log_keeps σ σ' : later σ σ' → keeps_objects σ.1 σ'.1.
Proof. intros Hl. by apply legal_keeps, later_legal. Qed.
Lemma later_recorded σ σ' : later σ σ' → recorded σ → recorded σ'.
Proof. induction 1 as [σ|σ σ1 σ' Hs _ IH]; [done|]. intros Hr. by apply IH, Hs. Qed.
Lemma later_prefix σ σ' chain_id : later σ σ' → σ.2 chain_id `prefix_of` σ'.2 chain_id.
Proof.
  induction 1 as [σ|σ σ1 σ' Hs _ IH]; [done|]. etrans; [|exact IH].
  destruct (st_log _ _ Hs chain_id) as [->|(p & _ & ->)]; [done|]. by apply prefix_app_r.
Qed.
Lemma later_log σ σ' chain_id package : later σ σ' → package ∈ σ.2 chain_id → package ∈ σ'.2 chain_id.
Proof. intros Hl Hp. eapply elem_of_prefix; [exact Hp|]. by apply later_prefix. Qed.
Lemma later_listed σ σ' chain_id package :
  later σ σ' → listed (start chain_id) (σ.2 chain_id) package → listed (start chain_id) (σ'.2 chain_id) package.
Proof.
  intros Hl (h & Hh & [Hs|(p & Hp & Hph)]); exists h; (split; [done|]); [by left|right]. exists p. split; [|done].
  by eapply later_log.
Qed.
Lemma later_wanted σ σ' : later σ σ' → (∀ c p, p ∈ σ.2 c → wanted p) → ∀ c p, p ∈ σ'.2 c → wanted p.
Proof.
  induction 1 as [σ|σ σ1 σ' Hs _ IH]; [done|]. intros Hw. apply IH. intros c p Hp.
  destruct (st_log _ _ Hs c) as [E|(q & Hq & E)]; rewrite E in Hp; [by eapply Hw|].
  apply elem_of_app in Hp as [Hp|Hp%list_elem_of_singleton]; [by eapply Hw|by subst].
Qed.

Lemma recorded_listed σ chain_id b h package :
  recorded σ → holds σ.1 (head_key chain_id) b → Head_decode b = Ok h → is_published h package = true →
  listed (start chain_id) (σ.2 chain_id) package.
Proof.
  intros Hr Hb Hd Hp. destruct (Hr chain_id) as (previous & hist' & Hl & Hrep).
  rewrite (represents_head _ _ _ _ _ _ Hrep Hb Hd) in Hl. by eapply ledger_listed.
Qed.

(** What other requests do to the objects of a chain. *)
Lemma recorded_at_keeps m m' chain_id log :
  keeps_objects m m' → fst <$> m' (head_key chain_id) = fst <$> m (head_key chain_id) →
  recorded_at m chain_id log → recorded_at m' chain_id log.
Proof.
  intros Hk E (previous & hist' & Hl & Hr). exists previous, hist'. split; [done|]. destruct previous as [h|]; simpl in *.
  - destruct Hr as (b & s & rss & Hb & Hd & Ha & Hs & Hst). exists b, s, rss. unfold holds in *.
    split_and!; [congruence|done|done|by eapply included_keeps|done].
  - destruct Hr as [Hm ->]. rewrite Hm in E. by destruct (m' (head_key chain_id)).
Qed.

Definition quiet m m' : Prop :=
  keeps_objects m m' ∧ ∀ chain_id, fst <$> m' (head_key chain_id) = fst <$> m (head_key chain_id).
Lemma quiet_step m m' log : quiet m m' → step (m, log) (m', log).
Proof.
  intros [Hk Hh]. split; [|by left|].
  - split; [done|]. intros c. by left.
  - intros Hr c. by eapply recorded_at_keeps.
Qed.
Lemma quiet_same m m' : m' ≡ m → quiet m m'.
Proof. intros E. split; [intros key b _; unfold holds; by rewrite (E key)|]. intros c. by rewrite (E (head_key c)). Qed.

Fixpoint sound {A} (Q : A → State → Prop) (p : prog storeE A) σ : Prop :=
  match p with
  | Ret a => Q a σ
  | Vis e k => ∀ σ1 x m2, later σ σ1 → met σ1.1 → met m2 → store_spec _ e σ1.1 x m2 →
      ∃ log2, step σ1 (m2, log2) ∧ sound Q (k x) (m2, log2)
  end.

Lemma sound_bind {A B} (Q : A → State → Prop) (R : B → State → Prop) p f σ :
  sound Q p σ → (∀ a σ', later σ σ' → Q a σ' → sound R (f a) σ') → sound R (bind p f) σ.
Proof.
  revert σ; induction p as [a|X e k IH]; intros σ Hp Hf; simpl in *; [by apply Hf|].
  intros σ1 x m2 Hl Hm1 Hm2 Hx. destruct (Hp _ _ _ Hl Hm1 Hm2 Hx) as (log2 & Hg & Hk). exists log2. split; [done|].
  eapply IH; [exact Hk|]. intros a σ3 Hl3. apply Hf. etrans; [exact Hl|]. by eapply rtc_l.
Qed.
Lemma sound_weaken {A} (Q R : A → State → Prop) (p : prog storeE A) σ :
  sound Q p σ → (∀ a σ', later σ σ' → Q a σ' → R a σ') → sound R p σ.
Proof.
  revert σ; induction p as [a|X e k IH]; intros σ Hp HQ; simpl in *; [by apply HQ|].
  intros σ1 x m2 Hl Hm1 Hm2 Hx. destruct (Hp _ _ _ Hl Hm1 Hm2 Hx) as (log2 & Hg & Hk). exists log2. split; [done|].
  eapply IH; [exact Hk|]. intros a σ3 Hl3. apply HQ. etrans; [exact Hl|]. by eapply rtc_l.
Qed.

(** A sound program stays sound while others run. *)
Lemma sound_later {A} (Q : A → State → Prop) (p : prog storeE A) σ σ' :
  (∀ a σ σ', later σ σ' → Q a σ → Q a σ') → later σ σ' → sound Q p σ → sound Q p σ'.
Proof.
  intros HQ Hl. destruct p as [a|X e k]; simpl; [by apply HQ|]. intros Hp σ1 x m2 Hl1. apply Hp. by etrans.
Qed.

(** ** Requests *)

Lemma calm_quiet X (e : storeE X) m x m' : calm X e → store_spec X e m x m' → quiet m m'.
Proof.
  assert (∀ key b, immutable_key key = true → put_written key b m m' → quiet m m') as Hput.
  { intros key b Hk [Hold (w & Hw & Ho)]. split.
    - intros key' b' _ Hb. destruct (decide (key' = key)) as [->|Hne]; [|unfold holds; by rewrite Ho].
      unfold holds in *. rewrite Hw. simpl. f_equal. destruct (m key) as [[b0 w0]|] eqn:E; [|done]. simpl in Hb.
      injection Hb as <-. symmetry. by eapply Hold.
    - intros c. rewrite Ho; [done|]. intros <-. by rewrite head_key_mutable in Hk. }
  destruct e; simpl; intros Hc Hx; try done; try (by apply quiet_same; apply Hx).
  - destruct x as [[]|er]; destruct Hx as [Hx|Hx]; try (by apply quiet_same; apply Hx); (eapply Hput; [by apply data_key_immutable|done]).
Qed.

Lemma sound_vis_calm {A X} (Q : A → State → Prop) (e : storeE X) k σ :
  calm X e →
  (∀ σ1 x m2, later σ σ1 → met m2 → store_spec X e σ1.1 x m2 → keeps_objects σ1.1 m2 → step σ1 (m2, σ1.2) →
     sound Q (k x) (m2, σ1.2)) →
  sound Q (Vis e k) σ.
Proof.
  intros He Hk [m1 log] x m2 Hl _ Hm2 Hx. pose proof (calm_quiet _ _ _ _ _ He Hx) as Hq. exists log.
  split; [by apply quiet_step|]. apply (Hk (m1, log)); [done|done|done|apply Hq|by apply quiet_step].
Qed.

Lemma sound_calm {A} (Q : A → Prop) (p : prog storeE A) σ : always calm Q p → sound (λ a _, Q a) p σ.
Proof.
  intros Hp. revert σ; induction Hp as [a Ha|X e k He Hk IH]; intros σ; [done|].
  apply sound_vis_calm; [done|]. intros. apply IH.
Qed.

(** A strict program that succeeded can be replayed on what it met. *)
Lemma answered_holds X (e : storeE X) m x m' :
  data_request X e → ¬ data_failed X e x → store_spec X e m x m' → keeps_objects m m' →
  ∃ key b, immutable_key key = true ∧ holds m' key b ∧ ∀ s, stored s key b → answered X e x s.
Proof.
  destruct e as [| | | |key maximum|key b| | | |]; simpl; try done; intros Hk%data_key_immutable Hf Hx Hkeep.
  - destruct x as [b|er]; [|by destruct Hf]. destruct Hx as (_ & [w Hm] & Hl). exists key, b. split_and!; [done| |eauto].
    apply Hkeep; [done|]. unfold holds. by rewrite Hm.
  - destruct x as [[]|er]; [|by destruct Hf]. exists key, b. split_and!; [done| |eauto]. unfold holds.
    destruct Hx as [[[w Hm] E]|[_ (w & Hm & _)]]; [by rewrite (E _), Hm|by rewrite Hm].
Qed.
Lemma data_calm X (e : storeE X) : data_request X e → calm X e.
Proof. by destruct e. Qed.
Lemma data_always {A} (bad : A → Prop) (p : prog storeE A) : always data_request bad p → always calm bad p.
Proof. induction 1 as [a Ha|X e k He _ IH]; constructor; [done|by apply data_calm|done]. Qed.

Lemma sound_strict {A} (Q bad : A → Prop) (p : prog storeE A) σ :
  always calm Q p → strict bad p → sound (λ a σ', Q a ∧ (¬ bad a → ∃ s, included s σ'.1 ∧ replays p a s)) p σ.
Proof.
  intros Hc Hp. revert σ Hc; induction Hp as [a|X e k He _ IH Hbad]; intros σ Hc; apply always_inv in Hc.
  { split; [done|]. intros _. exists memory_default. split; [apply included_empty|apply replays_ret]. }
  destruct Hc as [_ Hc].
  apply sound_vis_calm; [by apply data_calm|]. intros σ1 x m2 Hl _ Hx Hkeep _.
  destruct (decide (data_failed X e x)) as [Hf|Hok].
  - pose proof (sound_calm _ (k x) (m2, σ1.2) (always_both _ _ _ _ (Hc x) (data_always _ _ (Hbad x Hf)))) as Hq.
    eapply sound_weaken; [exact Hq|]. intros a σ' _ [Ha Hb]. by split.
  - destruct (answered_holds _ _ _ _ _ He Hok Hx Hkeep) as (key & b & Hi & Hb & Hans).
    eapply sound_weaken; [by apply IH|]. intros a σ' Hl' [Hq Hr]. split; [done|]. intros Ha. destruct (Hr Ha) as (s & Hs & Hrep).
    destruct (included_object σ'.1 key b) as (so & Hso & Hst); [by apply (log_keeps _ _ Hl')|].
    destruct (included_join s so σ'.1 Hs Hso) as (s' & Hs' & Hk1 & Hk2). exists s'. split; [done|].
    apply (replays_vis _ x); [done|by apply Hans, Hk2|by apply (replays_mono _ _ s)].
Qed.

(** The head a program has seen. *)
Definition sees (chain_id : N) (read : option (VersionedBytes * Head)) σ : Prop :=
  match read with
  | Some (vb, h) => met σ.1 ∧ σ.1 (head_key chain_id) = Some (vb_bytes vb, Some (vb_version vb)) ∧
      Head_decode (vb_bytes vb) = Ok h ∧ h_chain_id h = chain_id
  | None => σ.1 (head_key chain_id) = None
  end.
Lemma sees_holds chain_id vb h σ :
  sees chain_id (Some (vb, h)) σ → holds σ.1 (head_key chain_id) (vb_bytes vb) ∧ Head_decode (vb_bytes vb) = Ok h.
Proof. intros (_ & E & Hd & _). unfold holds. by rewrite E. Qed.

Lemma sound_read_head chain_id σ :
  sound (λ r σ', ∀ read, r = Ok read → sees chain_id read σ') (read_head chain_id) σ.
Proof.
  simpl. intros [m1 log] x m2 Hl Hm1 Hm2 Hx. exists log. split; [apply quiet_step, quiet_same, Hx|].
  destruct x as [[vb|]|er]; simpl; [| |done].
  - destruct Hx as (E & Ek & _). simpl in Ek. destruct (Head_decode (vb_bytes vb)) as [h|] eqn:Ed; simpl; [|done].
    destruct (negb _) eqn:Ec; simpl; [done|]. bool_prop. intros read [= <-]. split_and!; [done| |done|done].
    simpl. by rewrite (E (head_key chain_id)).
  - destruct Hx as (E & Ek & _). simpl in Ek. intros read [= <-]. simpl. by rewrite (E (head_key chain_id)).
Qed.

Lemma sound_stage b σ :
  sound (λ r σ', ∀ ref, r = Ok ref → r_digest ref = digest b ∧ (r_length ref <= u32_max)%N ∧
    holds σ'.1 (object_key (digest b)) b) (stage b) σ.
Proof.
  unfold stage, try_u32. destruct (_ <=? _)%N eqn:E; [|done]. bool_prop. cbn [request bind].
  apply sound_vis_calm; [apply data_key_object|]. intros σ1 x m2 _ _ Hx _ _.
  destruct x as [[]|er]; simpl; [|done]. intros ref [= <-]. split_and!; [done|done|]. cbn [r_digest] in Hx. unfold holds.
  destruct Hx as [[[w Hw] E']|[_ (w & Hw & _)]]; [by rewrite (E' _), Hw|by rewrite Hw].
Qed.

(** A conditional write of the head that was seen. *)
Record head_written (chain_id : N) (read : option (VersionedBytes * Head)) (next : Head) m m' : Prop := {
  hw_before : fst <$> m (head_key chain_id) = vb_bytes <$> (fst <$> read);
  hw_keeps : keeps_objects m m';
  hw_others c : c ≠ chain_id → fst <$> m' (head_key c) = fst <$> m (head_key c);
  hw_after : ∃ b parent, holds m' (head_key chain_id) b ∧ head_to_json (with_parent parent next) = Ok b ∧
    (len b <= MAX_HEAD)%N ∧ Head_decode b = Ok (with_parent parent next) ∧ parent_ref (fst <$> read) parent
}.

Lemma swap_head_written chain_id read next b parent σ0 m m' :
  met m → sees chain_id read σ0 → (len b <= MAX_HEAD)%N →
  head_to_json (with_parent parent next) = Ok b → Head_decode b = Ok (with_parent parent next) →
  parent_ref (fst <$> read) parent →
  swap_written (head_key chain_id) (fst <$> read) b m m' → head_written chain_id read next m m'.
Proof.
  intros Hm Hseen Hlen Hj Hd Hpar [Hag (w & Hw & Ho)]. split.
  - destruct read as [[vb h]|]; simpl in *.
    + destruct Hseen as (Hm0 & E0 & _ & _). destruct (m (head_key chain_id)) as [[b0 w0]|] eqn:E; [|done]. subst w0. simpl.
      f_equal. symmetry. by eapply (Hversions σ0.1 m).
    + by destruct (m (head_key chain_id)) as [[]|].
  - intros key b' Hk Hb. unfold holds. rewrite Ho; [done|]. intros ->. by rewrite head_key_mutable in Hk.
  - intros c Hc. rewrite Ho; [done|]. by intros ?%head_key_inj.
  - exists b, parent. split_and!; [|done..]. unfold holds. by rewrite Hw.
Qed.

(** A head that was written is a legal step. *)
Lemma legal_head_written chain_id read next σ0 m m' :
  sees chain_id read σ0 → h_chain_id next = chain_id → (∀ p, head_step (snd <$> read) (with_parent p next)) →
  (∀ p, fst <$> read = Some p → holds m (object_key (digest (vb_bytes p))) (vb_bytes p)) →
  head_written chain_id read next m m' → legal m m'.
Proof.
  intros Hseen Hc Hstep Hst [Hb Hk Ho (b & parent & Hb' & Hj & Hlen & Hd & Hpar)]. split; [done|].
  intros c. destruct (decide (c = chain_id)) as [->|Hne]; [|left; by apply Ho].
  right. exists b, (with_parent parent next). split; [done|done|done|done|]. rewrite Hb.
  destruct read as [[vb h]|]; simpl in *.
  - destruct parent as [parent|]; [|done]. exists h, parent. split_and!; [apply Hseen|apply Hstep|done|apply Hpar|].
    apply Hk; [apply object_key_immutable|by apply Hst].
  - destruct parent; [done|]. split; [apply Hstep|done].
Qed.

(** The head that a swap leaves. *)
Definition head_now (chain_id : N) (next : Head) σ : Prop :=
  ∃ b parent, holds σ.1 (head_key chain_id) b ∧ Head_decode b = Ok (with_parent parent next).

Lemma sound_swap `{!HeadJsonLaws} chain_id read next σ0 σ :
  later σ0 σ → sees chain_id read σ0 →
  h_chain_id next = chain_id → head_valid next → wf_head next → head_step (snd <$> read) next →
  (∀ σ1 m2, later σ σ1 → head_written chain_id read next σ1.1 m2 → recorded σ1 →
     ∃ log, logged (σ1.2 chain_id) log ∧ recorded_at m2 chain_id log) →
  recorded σ →
  sound (λ r σ', r = Ok tt → head_now chain_id next σ') (swap (fst <$> read) next) σ.
Proof.
  intros Hl Hseen Hc Hval Hw Hstep Hghost Hrec. unfold swap.
  apply (sound_bind (λ r σ', ∀ parent, r = Ok parent → parent_ref (fst <$> read) parent ∧
    ∀ p, fst <$> read = Some p → holds σ'.1 (object_key (digest (vb_bytes p))) (vb_bytes p))).
  { destruct (fst <$> read) as [p|]; [|by intros parent [= <-]].
    eapply sound_bind; [apply sound_stage|]. intros [ref|e] σ' _ Hr; simpl; [|done].
    intros parent [= <-]. destruct (Hr ref eq_refl) as (? & ? & ?). split; [done|]. by intros p' [= <-]. }
  intros [parent|e] σ1 Hl1 Hp; [|done]. destruct (Hp parent eq_refl) as [Hpar Hst]. clear Hp.
  destruct (head_to_json (with_parent parent next)) as [b|] eqn:Ej; [|done].
  destruct (MAX_HEAD <? len b)%N eqn:El; [done|]. bool_prop.
  change (h_chain_id (with_parent parent next)) with (h_chain_id next). rewrite Hc.
  assert (Head_decode b = Ok (with_parent parent next)) as Hd.
  { apply Head_decode_ok. split; [|by apply with_parent_valid]. apply (head_json_round _ _ Ej).
    apply with_parent_wf; [done|]. intros r ->. destruct (fst <$> read); [apply Hpar|done]. }
  cbn [request sound]. intros [m2 log2] x m3 Hl2 Hm2 Hm3 Hx.
  assert (swap_written (head_key chain_id) (fst <$> read) b m2 m3 → ∃ log3, step (m2, log2) (m3, log3)) as Hleg.
  { intros Hsw. pose proof (swap_head_written _ _ _ _ _ _ _ _ Hm2 Hseen El Ej Hd Hpar Hsw) as Hwr.
    destruct (Hghost (m2, log2) m3) as (log & Hlog & Hat); [by etrans|done|apply (later_recorded σ); [by etrans|done]|].
    exists (λ c, if decide (c = chain_id) then log else log2 c). split; simpl.
    - eapply (legal_head_written chain_id read next); try done; [intros p; by apply head_step_parent|].
      intros p Hp. apply (log_keeps _ _ Hl2); [apply object_key_immutable|by apply Hst].
    - intros c. destruct (decide (c = chain_id)) as [->|]; [done|by left].
    - intros Hr c. simpl. destruct (decide (c = chain_id)) as [->|Hne]; [done|].
      eapply recorded_at_keeps; [apply Hwr|by apply (hw_others _ _ _ _ _ Hwr)|apply Hr]. }
  destruct x as [[]|er]; simpl in Hx.
  - destruct (Hleg Hx) as [log3 Hs]. exists log3. split; [done|]. intros _. destruct Hx as [_ (w & Hw' & _)].
    exists b, parent. unfold holds. simpl. by rewrite Hw'.
  - destruct Hx as [Hx|Hx]; [exists log2; split; [by apply quiet_step, quiet_same|done]|].
    destruct (Hleg Hx) as [log3 Hs]. by exists log3.
Qed.

(** ** Publication *)

Context `{!Sha256Laws, !HexLaws, !ZstdLaws, !HeadJsonLaws}.

Lemma sees_valid chain_id vb h σ : sees chain_id (Some (vb, h)) σ → head_valid h ∧ wf_head h ∧ h_chain_id h = chain_id.
Proof.
  intros (_ & _ & Hd & Hc). apply Head_decode_ok in Hd as [Hj Hv]. split_and!; [done|by eapply head_json_wf|done].
Qed.

(** The history of a chain whose head was seen. *)
Lemma recorded_read chain_id read next σ0 m m' log :
  sees chain_id read σ0 → head_written chain_id read next m m' → recorded_at m chain_id log →
  ∃ s rss hist', ledger (start chain_id) (hist chain_id) log (snd <$> read) hist' ∧ included s m ∧
    archive_of s chain_id (snd <$> read) rss ∧ ∀ key block, state_at (concat rss) key block = state_at hist' key block.
Proof.
  intros Hseen Hw (previous & hist' & Hl & Hr). pose proof (hw_before _ _ _ _ _ Hw) as Hb.
  destruct read as [[vb h]|]; simpl in *.
  - assert (previous = Some h) as -> by (eapply represents_head; [done|exact Hb|apply Hseen]).
    destruct Hr as (b & s & rss & _ & _ & Ha & Hs & Hst). by exists s, rss, hist'.
  - destruct previous as [h|]; [destruct Hr as (b & s & rss & Hb' & _); unfold holds in Hb'; congruence|].
    destruct Hr as [_ ->]. exists memory_default, [], []. split_and!; [done|apply included_empty|apply lookup_empty|done|done].
Qed.

(** The head that was written, in a memory store of its own. *)
Lemma installed_written chain_id read next m m' s :
  h_chain_id next = chain_id → head_written chain_id read next m m' → included s m →
  ∃ b parent s', included s' m' ∧ keeps s s' ∧ installed (fst <$> read) next s' ∧ holds m' (head_key chain_id) b ∧
    Head_decode b = Ok (with_parent parent next) ∧ ∀ h rss, archive s' chain_id h rss → Head_decode b = Ok h.
Proof.
  intros Hc [_ Hk _ (b & parent & Hb & Hj & Hlen & Hd & Hpar)] Hs.
  destruct (included_head s m' chain_id b) as [Hs' Hks]; [by eapply included_keeps|].
  exists b, parent, (MemoryState_insert (head_key chain_id) b s). split_and!; [done|done| |done|done|].
  - eexists _, parent. rewrite Hc. split_and!; [simpl; apply lookup_insert_eq|done|done|done].
  - intros h rss [(e & He & _ & Hde) _ _ _]. simpl in He. rewrite lookup_insert_eq in He. by injection He as <-.
Qed.

Lemma publish_recorded package first stop built read records σ0 m m' log sb :
  let chain_id := sg_chain_id (pk_segment package) in
  let run := new_run (bm_number first) (bm_number stop) 1 built in
  wanted package → wf_package package →
  head (sg_blocks (pk_segment package)) = Some first → last (sg_blocks (pk_segment package)) = Some stop →
  interval_invalid (pk_segment package) first stop = false → (bm_number stop < u64_max)%N →
  sees chain_id read σ0 → match read with Some (_, h) => (len (h_l0 h) < MAX_L0_BACKLOG)%N | None => True end →
  transition_ok package first (snd <$> read) = true → package_records package = Ok records →
  included sb m → built_stored sb built records →
  head_written chain_id read (next_head package first stop run (snd <$> read)) m m' →
  recorded_at m chain_id log →
  ∃ log', logged log log' ∧ recorded_at m' chain_id log'.
Proof.
  intros chain_id run Hwant Hwf Ef El Ei Hstop Hseen Hl0 Et Erec Hsb Hbuilt Hw Hr.
  destruct (recorded_read _ _ _ _ _ _ _ Hseen Hw Hr) as (s & rss & hist' & Hled & Hs & Ha & Hst).
  destruct (included_join s sb m Hs Hsb) as (s1 & Hs1 & Hk1 & Hk2).
  assert (match read with Some (_, h) => head_valid h ∧ wf_head h ∧ h_chain_id h = chain_id | None => True end) as Hread
    by (destruct read as [[vb h]|]; [by eapply sees_valid|done]).
  destruct (installed_written chain_id read (next_head package first stop run (snd <$> read)) m m' s1)
    as (b & parent & s' & Hs' & Hks & Hins & Hb & Hd & Hdec); [|done|done|].
  { apply next_head_chain. intros h Hh. destruct read as [[vb h']|]; [|done]. injection Hh as ->. apply Hread. }
  destruct (published_swap package first stop built read records s sb s' rss)
    as (h' & records' & Er' & Harch & _ & Hpub); try done; [|by eapply package_records_within|by etrans|by etrans|].
  { by destruct read as [[vb h]|]. }
  assert (records' = records) as -> by congruence. exists (log ++ [package]). split; [right; eauto|].
  exists (Some h'), (hist' ++ records). split; [by eapply ledger_publish|].
  exists b, s', (rss ++ [records]). split_and!; [done|by eapply Hdec|done|done|].
  intros key block. rewrite concat_app. simpl. rewrite app_nil_r, !state_at_app. by rewrite Hst.
Qed.

(** A successful publisher's package is listed. *)
Definition published_end (package : Package) (r : result unit) σ : Prop :=
  r = Ok tt → listed (start (sg_chain_id (pk_segment package))) (σ.2 (sg_chain_id (pk_segment package))) package.

Lemma sees_listed package vb h σ :
  recorded σ → sees (sg_chain_id (pk_segment package)) (Some (vb, h)) σ → is_published h package = true →
  listed (start (sg_chain_id (pk_segment package))) (σ.2 (sg_chain_id (pk_segment package))) package.
Proof. intros Hr [Hb Hd]%sees_holds Hp. by eapply recorded_listed. Qed.

(** What the loop that swaps the head in knows of the package. *)
Record staged (package : Package) (first stop : BlockMeta) (built : BuiltRun) (records : list RunRecord) σ : Prop := {
  sg_wanted : wanted package;
  sg_wf : wf_package package;
  sg_first : head (sg_blocks (pk_segment package)) = Some first;
  sg_last : last (sg_blocks (pk_segment package)) = Some stop;
  sg_interval : interval_invalid (pk_segment package) first stop = false;
  sg_bound : (bm_number stop < u64_max)%N;
  sg_records : package_records package = Ok records;
  sg_built : ∃ s, included s σ.1 ∧ built_stored s built records
}.
Lemma staged_later package first stop built records σ σ' :
  later σ σ' → staged package first stop built records σ → staged package first stop built records σ'.
Proof.
  intros Hl [? ? ? ? ? ? ? (s & Hs & Hb)]. split; try done. exists s. split; [|done].
  eapply included_keeps; [|exact Hs]. by apply log_keeps.
Qed.

Definition run_of (first stop : BlockMeta) (built : BuiltRun) : Run := new_run (bm_number first) (bm_number stop) 1 built.
Lemma staged_ready package first stop built records σ :
  staged package first stop built records σ → run_ready package stop (run_of first stop built).
Proof.
  intros [_ Hwf Hf Hl Hi _ _ (s & _ & Hb)]. apply package_run_ready; [done..|by eapply blocks_ordered|by eapply built_stored_ok].
Qed.

Lemma sound_publish_loop n package first stop built records read σ0 σ :
  later σ0 σ → recorded σ → sees (sg_chain_id (pk_segment package)) read σ0 →
  staged package first stop built records σ →
  match read with Some (_, h) => (len (h_l0 h) < MAX_L0_BACKLOG)%N | None => True end →
  transition_ok package first (snd <$> read) = true →
  sound (published_end package) (publish_loop n package first stop (run_of first stop built) read) σ.
Proof.
  set (chain_id := sg_chain_id (pk_segment package)). set (run := run_of first stop built).
  intros Hl Hrec Hseen Hstaged Hl0 Htr. revert read σ0 σ Hl Hrec Hseen Hstaged Hl0 Htr.
  induction n as [|n IH]; intros read σ0 σ Hl Hrec Hseen Hstaged Hl0 Htr; [done|]. cbn [publish_loop].
  pose proof (staged_ready _ _ _ _ _ _ Hstaged) as Hrun.
  set (next := next_head package first stop run (snd <$> read)).
  assert (∀ h, snd <$> read = Some h → head_valid h ∧ wf_head h ∧ h_chain_id h = chain_id) as Hread.
  { intros h Hh. destruct read as [[vb h']|]; [|done]. injection Hh as ->. by eapply sees_valid. }
  assert (extendable (snd <$> read) (run_start run)) as Hext.
  { eapply transition_extendable; [done| |done]. intros h Hh. split; [by apply Hread|].
    destruct read as [[vb h']|]; [|done]. by injection Hh as ->. }
  assert (h_chain_id next = chain_id) as Hc by (apply next_head_chain; intros h Hh; by apply Hread).
  assert (head_valid next) as Hval by (apply next_head_valid; [done|apply Hrun..]).
  assert (wf_head next) as Hw.
  { apply next_head_wf; [apply Hstaged|eapply last_Some_elem_of, Hrun|intros h Hh; by apply Hread|apply Hrun]. }
  eapply sound_bind.
  { apply (sound_swap chain_id read next σ0 σ); try done; [by apply next_head_step|].
    intros σ1 m2 Hl1 Hwr Hr1. destruct (staged_later _ _ _ _ _ _ _ Hl1 Hstaged) as [? ? ? ? ? ? ? (s & Hs & Hb)].
    eapply (publish_recorded package first stop built read records σ0); done. }
  intros [[]|e] σ1 Hl1 Hsw; cbn beta iota.
  { intros _. destruct (Hsw eq_refl) as (b & parent & Hb & Hd).
    eapply recorded_listed; [by eapply later_recorded|exact Hb|exact Hd|].
    apply is_published_next; [apply Hstaged|]. intros h Hh. split; [by apply Hread|].
    rewrite Hh in Htr. unfold transition_ok in Htr. destruct (pk_mode package); [done|]. by bool_prop. }
  clear Hsw. assert (recorded σ1) as Hrec1 by (by eapply later_recorded).
  eapply sound_bind; [apply sound_read_head|]. intros [current|e'] σ2 Hl2 Hcur; [|done].
  specialize (Hcur current eq_refl). destruct current as [[vb' now]|]; [|done].
  assert (recorded σ2) as Hrec2 by (by eapply later_recorded).
  destruct (is_published now package) eqn:Ep; [intros _; by eapply sees_listed|].
  destruct read as [[vb before]|]; [|done]. destruct (_ && _) eqn:Esame; [|done].
  apply andb_true_iff in Esame as [En%N.eqb_eq Eh%bool_decide_eq_true].
  assert (later σ0 σ2) as Hl02 by (etrans; [exact Hl|by etrans]).
  apply sees_holds in Hseen as [Hb0 Hd0]. pose proof (sees_holds _ _ _ _ Hcur) as [Hb2 Hd2].
  apply (IH _ σ2 σ2); [done|done|done|eapply staged_later; [|exact Hstaged]; by etrans| |].
  - destruct (legal_number _ _ _ _ _ _ _ (later_legal _ _ Hl02) Hb0 Hd0 Hb2 Hd2) as [|[_ Hle]]; [lia|]. by eapply N.le_lt_trans.
  - pose proof (legal_genesis _ _ _ _ _ _ _ (later_legal _ _ Hl02) Hb0 Hd0 Hb2 Hd2) as Hg.
    simpl in Htr |- *. unfold transition_ok in *. by rewrite Hg, En, Eh.
Qed.

Lemma sound_publish package gate σ :
  recorded σ → wanted package → wf_package package → (sg_end_block (pk_segment package) < u64_max)%N →
  sound (published_end package) (publish package gate) σ.
Proof.
  intros Hrec Hwant Hwf Hend. unfold publish.
  destruct (head (sg_blocks (pk_segment package))) as [first|] eqn:Ef; [|done].
  destruct (last (sg_blocks (pk_segment package))) as [stop|] eqn:El; [|done]. cbn [ok_or unwrap].
  destruct (interval_invalid _ first stop) eqn:Ei; [done|]. destruct (negb (gate_open gate stop)); [done|].
  assert (bm_number stop < u64_max)%N as Hstop.
  { unfold interval_invalid in Ei. bool_prop. congruence. }
  eapply sound_bind; [apply sound_read_head|]. intros [read|e] σ1 Hl1 Hread; [|done]. specialize (Hread read eq_refl).
  assert (recorded σ1) as Hrec1 by (by eapply later_recorded).
  destruct (match read with Some (_, h) => is_published h package | None => false end) eqn:Ep.
  { destruct read as [[vb h]|]; [|done]. intros _. by eapply sees_listed. }
  destruct (negb (transition_ok _ _ _)) eqn:Et; [done|]. apply negb_false_iff in Et.
  destruct (match read with Some (_, h) => (MAX_L0_BACKLOG <=? len (h_l0 h))%N | None => false end) eqn:Eb; [done|].
  destruct (validate_lifecycle package) as [[]|]; [|done].
  destruct (package_records package) as [records|] eqn:Erec; [|done].
  eapply sound_bind; [eapply sound_strict; [apply calm_write_sorted|apply strict_write_sorted]|].
  intros [built|e] σ2 Hl2 [_ Hb]; [|done].
  destruct Hb as (s & Hs & Hrep); [by intros []|].
  destruct (write_sorted_ok 0 records s built s (Hrep s 0%Z (reflexivity s))) as [_ Hbuilt].
  { eapply Forall_impl; [by eapply package_records_within|]. unfold within. intros r Hr. lia. }
  apply (sound_publish_loop CAS_ATTEMPTS package first stop built records read σ1 σ2); try done.
  - by eapply later_recorded.
  - split; try done. by exists s.
  - destruct read as [[vb h]|]; [|done]. by bool_prop.
Qed.

(** ** Compaction *)

(** What a compactor knows of the run it has merged. *)
Record merged (planned : Head) (t : nat) (levels : list (option Run)) (weight : N) (run : Run) σ : Prop := {
  mg_plan : plan_ready planned t levels weight run;
  mg_run : ∃ fuel refs built first stop s,
    let inputs := plan_inputs t (h_levels planned) (h_l0 planned) in
    collect Run_input inputs = Ok refs ∧ head inputs = Some first ∧ last inputs = Some stop ∧
    run = new_run (run_start first) (run_end stop) weight built ∧
    included s σ.1 ∧ replays (merge_runs fuel refs (sum_keys inputs)) (Ok built) s
}.
Lemma merged_later planned t levels weight run σ σ' :
  later σ σ' → merged planned t levels weight run σ → merged planned t levels weight run σ'.
Proof.
  intros Hl [Hp (fuel & refs & built & first & stop & s & Hc & Hf & He & Er & Hs & Hrep)]. split; [done|].
  exists fuel, refs, built, first, stop, s. split_and!; try done.
  eapply included_keeps; [|exact Hs]. by apply log_keeps.
Qed.

Lemma archive_head_keeps s s' chain_id h rss :
  keeps s s' → ms_entries s' !! head_key chain_id = ms_entries s !! head_key chain_id →
  archive s chain_id h rss → archive s' chain_id h rss.
Proof.
  intros Hk E [He Hc Hends Hr]. split; [by rewrite E|done|done|by eapply runs_stored_mono].
Qed.
(** An archive beside other objects. *)
Lemma archive_join s sg m chain_id h rss :
  included s m → included sg m → archive s chain_id h rss →
  ∃ s', included s' m ∧ keeps sg s' ∧ archive s' chain_id h rss.
Proof.
  intros Hs Hsg Ha. destruct (included_join s sg m Hs Hsg) as (s1 & Hs1 & Hk1 & Hk2).
  destruct (ar_head _ _ _ _ Ha) as (e & He & Hl & Hd).
  destruct (included_head s1 m chain_id (me_bytes e) Hs1) as [Hs' Hk'].
  exists (MemoryState_insert (head_key chain_id) (me_bytes e) s1). split_and!; [done|by etrans|].
  destruct Ha as [_ Hc Hends Hr]. split; [|done|done|eapply runs_stored_mono; [|exact Hr]; by etrans].
  eexists. split_and!; [simpl; apply lookup_insert_eq|done|done].
Qed.

Lemma compatible_backlog planned current :
  compatible planned current = true → (L0_TRIGGER <= len (h_l0 planned))%N → (L0_TRIGGER <= len (h_l0 current))%N.
Proof.
  unfold compatible, starts_with. intros Hc Hl. bool_prop.
  match goal with E : take (length _) _ = _ |- _ => apply (f_equal length) in E; rewrite !length_take in E end.
  unfold len, L0_TRIGGER in *. lia.
Qed.

Lemma compact_recorded chain_id planned current t levels weight run vb σ σ0 m' log :
  let next := compacted_head (drop_trailing_none (<[t := Some run]> levels)) current in
  merged planned t levels weight run σ → compatible planned current = true →
  sees chain_id (Some (vb, current)) σ0 →
  head_written chain_id (Some (vb, current)) next σ.1 m' → recorded_at σ.1 chain_id log →
  recorded_at m' chain_id log.
Proof.
  intros next [[Hplan Hl0 Hn _ _ _ Hwr _] (fuel & refs & built & first & stop & sg & Hc & Hf & He & -> & Hsg & Hrep)]
    Hcomp Hseen Hw Hr. cbv zeta in *.
  destruct (recorded_read _ _ _ _ _ _ _ Hseen Hw Hr) as (s0 & rss & hist' & Hled & Hs0 & Ha0 & Hst). simpl in Hled, Ha0.
  apply sees_valid in Hseen as (Hval & Hwf & Hch).
  destruct (archive_join s0 sg σ.1 chain_id current rss Hs0 Hsg Ha0) as (s & Hs & Hks & Ha).
  destruct (compatible_inputs planned current t Hcomp Hl0) as [Elev Einp]. rewrite <-Einp in Hn, Hf, He, Hc, Hrep.
  pose proof (compatible_backlog _ _ Hcomp Hl0) as Hl0c. rewrite <-Elev in Hplan.
  destruct (inputs_split s t current rss (ar_runs _ _ _ _ Ha)) as (rd & ri & rr & -> & HFd & HFi & HFr).
  pose proof (archive_contiguous _ _ _ _ Ha) as Hcont. rewrite (runs_split t current) in Hcont.
  apply contiguous_app in Hcont as (a & Hc1 & Hcont). apply contiguous_app in Hcont as (b & Hc2 & Hc3).
  pose proof (archive_history _ _ _ _ Ha) as Hhist. rewrite !concat_app in Hhist.
  apply history_app in Hhist as (_ & Hhist & _). apply history_app in Hhist as (Hhist & _ & _).
  pose proof (Hrep s 0%Z Hks) as Hexec.
  apply merge_runs_more with (fuel' := max fuel (S (length (concat ri)))) in Hexec; [|lia].
  apply (merge_runs_ok 0) with (rss := ri) in Hexec as (_ & out & Hsorted & Hperm & Hbuilt);
    [|by eapply inputs_of_runs|by apply history_NoDup|lia|].
  2: { apply Forall_forall. intros x Hx. pose proof (stored_bounds _ _ _ _ _ _ Hc2 HFi Hx).
       pose proof (contiguous_cover _ _ _ Hc3) as [Hb _]. pose proof (wf_number _ Hwf). lia. }
  destruct (installed_written chain_id (Some (vb, current)) next σ.1 m' s)
    as (b' & parent & s' & Hs' & Hks' & Hins & Hb' & Hd' & Hdec); [done..|].
  destruct (compacted_swap s s' vb current levels weight t rd ri rr out built first stop chain_id)
    as (h' & rss' & Ha' & Hpm & _); try done; [by eapply built_stored_ok| |].
  { eapply run_stored_mono; [exact Hks'|]. by eapply compacted_stored. }
  exists (Some h'), hist'. pose proof (Hdec _ _ Ha') as Hd2.
  assert (h' = with_parent parent next) as -> by congruence. split; [by eapply ledger_compact|].
  exists b', s', rss'. split_and!; try done. intros key block. rewrite <-Hst. by eapply archive_same_states.
Qed.

Lemma sound_compact_loop n chain_id planned t levels weight run σ :
  recorded σ → merged planned t levels weight run σ →
  sound (λ _ _, True) (compact_loop n chain_id planned (drop_trailing_none (<[t := Some run]> levels))) σ.
Proof.
  intros Hrec Hp. revert σ Hrec Hp; induction n as [|n IH]; intros σ Hrec Hp; [done|]. cbn [compact_loop].
  eapply sound_bind; [apply sound_read_head|]. intros [read|e] σ1 Hl1 Hread; [|done]. specialize (Hread read eq_refl).
  destruct read as [[vb current]|]; [|done]. cbn [ok_or].
  destruct (negb (compatible planned current)) eqn:Ec; [done|]. apply negb_false_iff in Ec.
  apply sees_valid in Hread as Hcv. destruct Hcv as (Hval & Hw & Hc).
  destruct (compacted_step _ _ _ _ _ _ (mg_plan _ _ _ _ _ _ Hp) Ec Hval Hw) as (Hval' & Hw' & Hstep).
  assert (recorded σ1) as Hrec1 by (by eapply later_recorded).
  assert (merged planned t levels weight run σ1) as Hp1 by (by eapply merged_later).
  eapply sound_bind.
  { apply (sound_swap chain_id (Some (vb, current)) _ σ1 σ1); try done.
    intros σ2 m3 Hl2 Hwr Hr2. exists (σ2.2 chain_id). split; [by left|].
    eapply (compact_recorded chain_id planned current t levels weight run vb σ2 σ1); try done. by eapply merged_later. }
  intros [[]|e] σ2 Hl2 _; [done|]. apply IH; [by eapply later_recorded|by eapply merged_later].
Qed.

Lemma sound_compact fuel chain_id σ : recorded σ → sound (λ _ _, True) (compact_once fuel chain_id) σ.
Proof.
  intros Hrec. unfold compact_once.
  eapply sound_bind; [apply sound_read_head|]. intros [read|e] σ1 Hl1 Hread; [|done]. specialize (Hread read eq_refl).
  destruct read as [[vb planned]|]; [|done]. apply sees_valid in Hread as (Hval & Hw & Hc).
  destruct (len (h_l0 planned) <? L0_TRIGGER)%N eqn:El0; [done|]. bool_prop.
  destruct (plan_levels _ _ _ _ _) as [[[[levels weight] deeper] t]|e] eqn:Eplan; [|done].
  destruct (noncontiguous _) eqn:En; [done|]. destruct (collect Run_input _) as [refs|] eqn:Ec; [|done].
  assert (∀ σ, sound (λ _ _, True) (request Now) σ) as Hnow
    by (intros; by apply (sound_calm (λ _, True)); constructor; [|constructor]).
  eapply sound_bind; [apply Hnow|]. intros started σ2 Hl2 _.
  eapply sound_bind; [eapply sound_strict; [apply calm_merge_runs|apply strict_merge_runs]|].
  intros [built|e] σ3 Hl3 [Hb Hrep]; [|done]. specialize (Hb built eq_refl). destruct Hrep as (s & Hs & Hrep); [by intros []|].
  eapply sound_bind; [apply Hnow|]. intros finished σ4 Hl4 _. destruct (_ <? _)%Z; [done|].
  destruct (head (rev deeper ++ _)) as [first|] eqn:Ef; [|done].
  destruct (last (rev deeper ++ _)) as [stop|] eqn:El; [|done]. cbn [unwrap].
  eapply (sound_compact_loop CAS_ATTEMPTS chain_id planned t levels weight).
  { eapply later_recorded; [|exact Hrec]. etrans; [exact Hl1|]. etrans; [exact Hl2|]. by etrans. }
  apply (merged_later _ _ _ _ _ σ3); [done|].
  split; [by eapply compaction_ready|]. rewrite (planned_inputs _ _ _ _ _ Hval El0 Eplan) in *.
  exists fuel, refs, built, first, stop, s. done.
Qed.
End shared.
