(* ===== verification/SharedProcesses.v ===== *)
(** * Publishers, compactors and readers on one store

    [SharedStore] is about the programs that change an archive; here a pinned
    reader runs beside them.  What a reader was told is still true when the
    next request is made, because objects do not change: [reading_ok] says so of
    every step of a read.  [pool_sound] puts any number of processes together, and
    [processes_sound] says what log explains a run in which they all finish. *)

From stdpp Require Import pretty relations.
From S2P Require Import Prelude Bytes SortedLists Externals Hash RunFormat RunReader RunRep Head HeadFacts Summary SummaryFacts RelyGuarantee Store StoreContract Compact CompactFacts Format Tiered TieredReader ReaderFacts ReaderTheorems HeadSteps Calm PublishFacts Protocol SharedStore.
From Stdlib Require Import Lia.

Section readers.
Context `{Sha256, Keccak256, Hex, Zstd, HeadJson, ShardCache, !HexLaws, !ShardCacheLaws}.
Context (met : contents → Prop) (wanted : Package → Prop) (start : N → option Head) (hist : N → list RunRecord).
Abbreviation sound := (sound met wanted start hist).
Abbreviation later := (rtc (step wanted start hist)).
Implicit Types σ : State.

(** ** Reads *)

(** Every cached shard is one of the store. *)
Definition cached (c : SC) σ : Prop := ∃ s, included s σ.1 ∧ cache_ok s c.
Lemma cached_later c σ σ' : later σ σ' → cached c σ → cached c σ'.
Proof.
  intros Hl (s & Hs & Hc). exists s. split; [|done]. eapply included_keeps; [|exact Hs]. by eapply log_keeps.
Qed.
Lemma replayed_join {A B} (p : prog storeE A) (q : prog storeE B) a b σ s1 s2 :
  included s1 σ.1 → replays p a s1 → included s2 σ.1 → replays q b s2 →
  ∃ s, included s σ.1 ∧ replays p a s ∧ replays q b s.
Proof.
  intros Hs1 Hp Hs2 Hq. destruct (included_join _ _ _ Hs1 Hs2) as (s & Hs & Hk1 & Hk2). exists s.
  split_and!; [done|by apply (replays_mono _ _ s1)|by apply (replays_mono _ _ s2)].
Qed.
Lemma included_later s σ σ' : later σ σ' → included s σ.1 → included s σ'.1.
Proof. intros Hl. apply included_keeps. by eapply log_keeps. Qed.

(** A read keeps the cache sound, and if it succeeds it can be replayed. *)
Definition reading_post {A} (p : reading A) st (r : result A * RState) σ : Prop :=
  cached r.2.2 σ ∧ (¬ is_err r.1 → ∃ s, included s σ.1 ∧ replays (p st) r s).
Definition reading_ok {A} (p : reading A) : Prop :=
  ∀ st σ, cached st.2 σ → sound (reading_post p st) (p st) σ.

Lemma reading_ok_ret {A} (r : result A) : reading_ok (reading_ret r).
Proof.
  intros st σ Hc. split; [done|]. intros _. exists memory_default. split; [apply included_empty|apply replays_ret].
Qed.
Lemma reading_ok_bind {A B} (p : reading A) (k : A → reading B) :
  reading_ok p → (∀ a, reading_ok (k a)) → reading_ok (reading_bind p k).
Proof.
  intros Hp Hk st σ Hc. eapply sound_bind; [by apply Hp|]. intros [[a|e] st1] σ1 Hl1 [Hc1 Hr1].
  - eapply sound_weaken; [by apply Hk|]. intros r σ2 Hl2 [Hc2 Hr2]. split; [done|]. intros Hok.
    destruct (Hr1 ltac:(by intros [])) as (s1 & Hs1 & Hrep1). destruct (Hr2 Hok) as (s2 & Hs2 & Hrep2).
    destruct (replayed_join _ _ _ _ σ2 s1 s2 (included_later _ _ _ Hl2 Hs1) Hrep1 Hs2 Hrep2) as (s & Hs & Hr & Hr').
    exists s. split; [done|]. intros s' now Hks. unfold reading_bind. rewrite run_prog_bind, (Hr s' now Hks). by apply Hr'.
  - split; [done|]. intros Hn. by destruct Hn.
Qed.
Lemma reading_ok_charge maximum : reading_ok (reading_charge maximum).
Proof.
  intros [b c] σ Hc. unfold reading_post. unfold reading_charge. destruct (charge maximum b) as [r b']. split; [done|]. intros _.
  exists memory_default. split; [apply included_empty|apply replays_ret].
Qed.
Lemma reading_ok_store {A} (p : prog storeE (result A)) : strict is_err p → reading_ok (reading_store p).
Proof.
  intros Hp st σ Hc. unfold reading_store.
  eapply sound_bind; [apply (sound_strict _ _ _ _ (λ _, True)); [exact (data_always _ _ (stops_always (Hfailed := data_failed_dec) _ _ Hp))|exact Hp]|].
  intros r σ1 Hl1 [_ Hr]. split; [by eapply cached_later|]. intros Hok. destruct (Hr Hok) as (s & Hs & Hrep).
  exists s. split; [done|]. intros s' now Hk. rewrite run_prog_bind. by rewrite (Hrep s' now Hk).
Qed.
Hint Resolve reading_ok_ret reading_ok_bind reading_ok_charge : core.

(** A hit of the cache, or a shard that was read and kept. *)
Lemma reading_ok_shard run kind index :
  (run_shards run <= u32_max)%N → (index <= u32_max)%N → reading_ok (Reader_shard run kind index).
Proof.
  intros Hu Hi [b c] σ (s0 & Hs0 & Hc0). unfold reading_post, Reader_shard. set (path := shard_path _ _ _ _).
  assert (cache_ok s0 (sc_touch c path)) as Hct.
  { intros r n k i x Hn Hi' Hx. by apply Hc0, sc_get_touch with (k := path). }
  destruct (sc_get c path) as [shard|].
  { split; [by exists s0|]. intros _. exists memory_default. split; [apply included_empty|apply replays_ret]. }
  unfold reading_bind, reading_charge, reading_store. destruct (charge MAX_SHARD_BYTES b) as [[[]|e] b']; cbn [bind request].
  2: { split; [by exists s0|]. intros Hn. by destruct Hn. }
  apply sound_vis_calm; [apply data_key_shard|]. intros σ1 x m2 Hl1 _ Hx Hkeep Hstep.
  assert (included s0 m2) as Hs0' by (eapply included_keeps; [exact Hkeep|by eapply included_later]).
  destruct x as [bs|er]; [|split; [by exists s0|]; intros Hn; by destruct Hn].
  destruct (Shard_decode _ _ _ _ bs) as [shard|er] eqn:Ed; [|split; [by exists s0|]; intros Hn; by destruct Hn].
  destruct (answered_holds _ (SGetBounded path MAX_SHARD_BYTES) σ1.1 (Ok bs) m2) as (key & b0 & Hkey & Hb0 & Hans);
    [apply data_key_shard|by intros []|done|done|].
  destruct (included_object m2 key b0 Hb0) as (so & Hso & Hst). destruct (Hans so Hst) as (? & [= <-] & Hst' & Hlen).
  destruct (included_join s0 so m2 Hs0' Hso) as (s & Hs & Hk0 & Hko).
  assert (stored s path bs) as Hsp by (apply Hko; [apply shard_path_immutable|done]).
  split.
  - exists s. split; [done|]. intros r n k i x Hn Hi' [[Ep ->]|[_ Hx']]%sc_get_insert.
    + apply shard_path_inj in Ep as (-> & -> & -> & ->); [|done..]. exists bs. split; [by apply stored_get|done].
    + eapply shard_in_mono; [exact Hk0|]. by apply Hct.
  - intros _. exists s. split; [done|].
    eapply (replays_vis _ (Ok bs)); [apply data_key_shard|by exists bs|]. cbn [bind]. rewrite Ed. apply replays_ret.
Qed.

Lemma reading_ok_may_contain s run keys key :
  summary_stored s (r_digest (run_root run)) (run_shards run) keys → reading_ok (Reader_may_contain run key).
Proof.
  intros Hsum. destruct (probe_shards s run keys key Hsum) as (Hu & Ha & Hs & _). unfold Reader_may_contain.
  apply reading_ok_bind; [by apply reading_ok_shard|]. intros a. destruct (Shard_contains a key); [apply reading_ok_ret|].
  destruct (negb _); [apply reading_ok_ret|]. apply reading_ok_bind; [by apply reading_ok_shard|]. intros sp. apply reading_ok_ret.
Qed.

(** The fetches of a lookup, each charged before it is made. *)
Lemma reading_ok_charged X (e : fetchE X) st σ :
  cached st.2 σ →
  sound (λ r σ', cached r.2.2 σ' ∧ (¬ fetch_failed X e r.1 → ∃ s, included s σ'.1 ∧ replays (charged_fetch X e st) r s))
    (charged_fetch X e st) σ.
Proof.
  destruct e as [reference]. intros Hc. cbn [charged_fetch].
  apply (reading_ok_bind (reading_charge (ref_length reference)) (λ _, reading_store (fetch reference))); [..|done].
  - apply reading_ok_charge.
  - intros _. apply reading_ok_store, strict_fetch.
Qed.
Lemma failed_fetches {A} (p : prog fetchE (result A)) st σ :
  always (λ X (_ : fetchE X), True) is_err p → cached st.2 σ →
  sound (λ r σ', cached r.2.2 σ' ∧ is_err r.1) (interp_st charged_fetch p st) σ.
Proof.
  intros Hp. revert st σ; induction Hp as [r Hr|X e k _ _ IH]; intros st σ Hc; cbn [interp_st]; [done|].
  eapply sound_bind; [by apply reading_ok_charged|]. intros [x st1] σ1 _ [Hc1 _]. by apply IH.
Qed.
Lemma reading_ok_fetches {A} (p : prog fetchE (result A)) :
  fetches is_err p → reading_ok (interp_st charged_fetch p).
Proof.
  induction 1 as [r|X e k _ _ IH Hbad]; intros st σ Hc; unfold reading_post; cbn [interp_st].
  { split; [done|]. intros _. exists memory_default. split; [apply included_empty|apply replays_ret]. }
  eapply sound_bind; [by apply reading_ok_charged|]. intros [x st1] σ1 Hl1 [Hc1 Hr1].
  destruct (decide (fetch_failed X e x)) as [Hf|Hok].
  - eapply sound_weaken; [by apply failed_fetches, Hc1; apply Hbad|]. intros r σ2 _ [Hc2 He]. split; [done|]. by intros Hn.
  - destruct (Hr1 Hok) as (s1 & Hs1 & Hrep1). eapply sound_weaken; [by apply IH|]. intros r σ2 Hl2 [Hc2 Hr2]. split; [done|].
    intros Hn. destruct (Hr2 Hn) as (s2 & Hs2 & Hrep2).
    destruct (replayed_join _ _ _ _ σ2 s1 s2 (included_later _ _ _ Hl2 Hs1) Hrep1 Hs2 Hrep2) as (s & Hs & Hr & Hr').
    exists s. split; [done|]. intros s' now Hks. rewrite run_prog_bind, (Hr s' now Hks). by apply Hr'.
Qed.

Lemma fetches_lookup reader key block : fetches is_err (RunReader_lookup reader key block).
Proof. unfold RunReader_lookup. repeat fetch_step; unfold lookup_leaf; repeat fetch_step. Qed.

Lemma reading_ok_lookup_runs s ps rss key block :
  Forall2 (run_open s) ps rss → reading_ok (lookup_runs ps key block).
Proof.
  induction 1 as [|[run reader] rs ps rss [_ Hsum _] HF IH]; [apply reading_ok_ret|]. cbn [lookup_runs].
  destruct (block <? run_start run)%N; [exact IH|].
  apply reading_ok_bind; [by eapply reading_ok_may_contain|]. intros may. destruct (negb may); [exact IH|].
  apply reading_ok_bind; [apply reading_ok_fetches, fetches_lookup|]. intros [v|]; [apply reading_ok_ret|exact IH].
Qed.
Lemma reading_ok_lookup s r h rss key block : pinned s r h rss → reading_ok (Reader_lookup r key block).
Proof.
  intros [_ Hr _]. unfold Reader_lookup. destruct (_ <? _)%N; [apply reading_ok_ret|].
  apply (reading_ok_lookup_runs s _ (rev rss)). apply Forall2_reverse in Hr. unfold reverse in Hr.
  by rewrite !rev_append_rev, !app_nil_r in Hr.
Qed.

Ltac read_step :=
  match goal with
  | |- reading_ok (reading_ret _) => apply reading_ok_ret
  | |- reading_ok (Reader_lookup _ _ _) => by eapply reading_ok_lookup
  | |- reading_ok (reading_bind _ _) => apply reading_ok_bind; [|intros ?]
  | |- reading_ok (match ?c with _ => _ end) => destruct c
  | |- reading_ok (if ?c then _ else _) => destruct c
  end.
Lemma reading_ok_account s r h rss address block : pinned s r h rss → reading_ok (Reader_account_in r address block).
Proof. intros Hp. unfold Reader_account_in. repeat read_step. Qed.

(** A request to a pinned reader, made while other processes run: unless it fails,
    a store that holds what was read answers the same. *)
Lemma sound_ask s r h rss q c σ :
  pinned s r h rss → cached c σ →
  sound (λ a σ', cached a.2 σ' ∧ (¬ is_err a.1 → ∃ s', included s' σ'.1 ∧ replays (ask r q c) a s')) (ask r q c) σ.
Proof.
  intros Hp Hc.
  assert (∀ A (p : reading A) (f : A → Answer), reading_ok p →
    sound (λ a σ', cached a.2 σ' ∧
      (¬ is_err a.1 → ∃ s', included s' σ'.1 ∧ replays (let* (a, st) := p (budget_default, c) in Ret (result_map f a, st.2)) a s'))
      (let* (a, st) := p (budget_default, c) in Ret (result_map f a, st.2)) σ) as Hgen.
  { intros A p f Hok. eapply sound_bind; [by apply Hok|]. intros [a st] σ1 _ [Hc1 Hr]. split; [done|].
    intros Hn. destruct Hr as (s1 & Hs1 & Hrep); [by intros He; apply Hn; destruct a|]. exists s1. split; [done|].
    intros s' now Hk. rewrite run_prog_bind. by rewrite (Hrep s' now Hk). }
  destruct q as [address block|address slot block|address block]; cbn [ask]; apply Hgen.
  - by eapply reading_ok_account.
  - apply reading_ok_bind; [by eapply reading_ok_account|]. intros account. repeat read_step.
  - apply reading_ok_bind; [by eapply reading_ok_account|]. intros account. repeat read_step.
Qed.

(** ** A reader *)

(** The requests of a client to a pinned reader, one after the other. *)
Fixpoint asks (r : Reader) (c : SC) (queries : list Query) : prog storeE (list (result Answer)) :=
  match queries with
  | [] => Ret []
  | q :: queries => let* (a, c) := ask r q c in let* answers := asks r c queries in Ret (a :: answers)
  end.
(** It opens the head of a chain and answers; the head is returned with the answers. *)
Definition observe (chain_id : N) (queries : list Query) : prog storeE (result (Head * list (result Answer))) :=
  let! (r, c) := Reader_open chain_id in
  let* answers := asks r c queries in
  Ret (Ok (rd_head r, answers)).

Lemma query_spec_ext l l' number q :
  (∀ key block, state_at l key block = state_at l' key block) → query_spec l number q = query_spec l' number q.
Proof.
  intros E. assert (∀ key block, lookup_spec l number key block = lookup_spec l' number key block) as El
    by (intros; unfold lookup_spec; by rewrite E).
  destruct q; unfold query_spec, storage_spec, code_spec, account_spec; rewrite ?El; do 2 f_equal;
    destruct (lookup_spec _ _ _ _) as [[v|]|]; try done; destruct (AccountState_decode v); try done; simpl; by rewrite ?E.
Qed.

(** Every answer that is not a failure is the one of the history. *)
Definition answers_of (l : list RunRecord) (number : N) (queries : list Query) (answers : list (result Answer)) : Prop :=
  Forall2 (λ q a, ∀ x, a = Ok x → query_spec l number q = Ok x) queries answers.

Lemma sound_asks s r h rss c queries σ :
  pinned s r h rss → included s σ.1 → cached c σ →
  sound (λ answers _, answers_of (concat rss) (h_number h) queries answers) (asks r c queries) σ.
Proof.
  intros Hp. revert c σ; induction queries as [|q queries IH]; intros c σ Hs (sc & Hsc & Hc); [constructor|]. cbn [asks].
  eapply sound_bind; [eapply sound_ask; [done|by exists sc]|]. intros [a c'] σ1 Hl1 [Hc' Hr].
  eapply sound_bind; [apply IH; [by eapply included_later|done]|]. intros answers σ2 _ Ha. constructor; [|done].
  intros x ->. destruct Hr as (s1 & Hs1 & Hrep); [by intros []|].
  destruct (included_join s s1 σ1.1) as (s2 & Hs2 & Hk & Hk1); [by eapply included_later|done|].
  destruct (included_join sc s2 σ1.1) as (s3 & Hs3 & Hkc & Hk2); [by eapply included_later|done|].
  destruct (ask_ok 0 s3 r h rss) with (q := q) (c := c) as (a & c2 & E & _ & Hok);
    [eapply pinned_mono; [|exact Hp]; by etrans|by apply (cache_ok_mono sc)|].
  rewrite (Hrep s3 0%Z) in E by (by etrans). injection E as <- _.
  destruct Hok as [<-|[(e & [=] & _) _]]. done.
Qed.

Lemma sound_observe chain_id queries σ :
  recorded start hist σ →
  sound (λ r σ', ∀ h answers, r = Ok (h, answers) →
      ∃ log hist', log `prefix_of` σ'.2 chain_id ∧ ledger (start chain_id) (hist chain_id) log (Some h) hist' ∧
        answers_of hist' (h_number h) queries answers)
    (observe chain_id queries) σ.
Proof.
  intros Hrec. unfold observe, Reader_open.
  apply (sound_bind _ _ _ _ (λ r σ', later σ σ' ∧ ∀ rd c, r = Ok (rd, c) → ∃ s h rss hist', pinned s rd h rss ∧ included s σ'.1 ∧
    cached c σ' ∧ ledger (start chain_id) (hist chain_id) (σ'.2 chain_id) (Some h) hist' ∧
    ∀ key block, state_at (concat rss) key block = state_at hist' key block)).
  { eapply sound_bind; [apply sound_read_head|]. intros [read|e] σ1 Hl1 Hread; [|by split]. specialize (Hread read eq_refl).
    destruct read as [[vb h]|]; [|by split]. cbn [ok_or]. destruct (open_runs (runs h)) as [rs|e] eqn:Eo; [|by split].
    split; [done|]. intros rd c [= <- <-]. apply sees_holds in Hread as [Hb Hd].
    destruct (later_recorded _ _ _ _ _ Hl1 Hrec chain_id) as (previous & hist' & Hled & Hrep).
    assert (previous = Some h) as -> by (by eapply represents_head). destruct Hrep as (b' & s & rss & Hb' & Hd' & Ha & Hs & Hst).
    exists s, h, rss, hist'. split_and!; [|done| |done|done].
    - destruct (open_runs_ok s _ _ (ar_runs _ _ _ _ Ha)) as (ps & Eo' & HF & Hlen). assert (ps = rs) as -> by congruence.
      split; [done|done|]. apply Head_decode_ok in Hd as [_ Hv]. apply runs_bounded in Hv. simpl. unfold len in *. lia.
    - exists s. split; [done|]. intros run shards kind index shard _ _ Hg. by rewrite sc_get_new in Hg. }
  intros [[rd c]|e] σ1 Hl1 [_ Hopen]; [|done].
  destruct (Hopen rd c eq_refl) as (s & h & rss & hist' & Hp & Hs & Hc & Hled & Hst).
  eapply sound_bind; [by eapply sound_asks|]. intros answers σ2 Hl2 Ha h' answers' [= <- <-].
  rewrite (pin_head _ _ _ _ Hp). exists (σ1.2 chain_id), hist'. split_and!; [by eapply later_prefix|done|].
  eapply Forall2_impl; [exact Ha|]. intros q a Hq x Hx. rewrite <-(query_spec_ext _ _ _ q Hst). by apply Hq.
Qed.
End readers.

(** ** Processes *)

Inductive Process :=
| PAgent (a : Agent)
| PReader (chain_id : N) (queries : list Query).
Inductive Outcome :=
| ODone (r : result unit)
| ORead (r : result (Head * list (result Answer))).

Section processes.
Context `{Sha256, Keccak256, Hex, Zstd, HeadJson, ShardCache}.
Context `{!Sha256Laws, !HexLaws, !ZstdLaws, !HeadJsonLaws, !ShardCacheLaws}.

Definition process_prog (p : Process) : prog storeE Outcome :=
  match p with
  | PAgent a => let* r := agent_prog a in Ret (ODone r)
  | PReader chain_id queries => let* r := observe chain_id queries in Ret (ORead r)
  end.

Definition wf_process (p : Process) : Prop :=
  match p with
  | PAgent (Publisher package _) => wf_package package ∧ (sg_end_block (pk_segment package) < u64_max)%N
  | _ => True
  end.

Context (met : contents → Prop) (start : N → option Head) (hist : N → list RunRecord).
Context (Hversions : unambiguous met) (processes : list Process).
Implicit Types σ : State.

(** The packages of the publishers. *)
Definition offered (package : Package) : Prop := ∃ gate, PAgent (Publisher package gate) ∈ processes.
Abbreviation sound := (sound met offered start hist).
Abbreviation later := (rtc (step offered start hist)).

(** What the outcome of a process means, by the packages that are in the log. *)
Definition outcome_ok (p : Process) (o : Outcome) (log : N → list Package) : Prop :=
  match p with
  | PAgent (Publisher package _) =>
      let chain_id := sg_chain_id (pk_segment package) in
      o = ODone (Ok tt) → listed (start chain_id) (log chain_id) package
  | PAgent (Compactor _ _) => True
  | PReader chain_id queries =>
      ∀ h answers, o = ORead (Ok (h, answers)) →
      ∃ log' hist', log' `prefix_of` log chain_id ∧ ledger (start chain_id) (hist chain_id) log' (Some h) hist' ∧
        answers_of hist' (h_number h) queries answers
  end.
Lemma outcome_later p o σ σ' : later σ σ' → outcome_ok p o σ.2 → outcome_ok p o σ'.2.
Proof.
  intros Hl. destruct p as [[package gate|]|chain_id queries]; simpl; [|done|].
  - intros Hp Ho. by eapply later_listed, Hp.
  - intros Hp h answers Ho. destruct (Hp h answers Ho) as (log & hist' & Hpre & Hrest). exists log, hist'.
    split; [|done]. etrans; [exact Hpre|by eapply later_prefix].
Qed.

Lemma sound_process p σ :
  recorded start hist σ → p ∈ processes → wf_process p → sound (λ o σ', outcome_ok p o σ'.2) (process_prog p) σ.
Proof.
  intros Hrec Hin Hw. destruct p as [[package gate|fuel chain_id]|chain_id queries]; cbn [process_prog agent_prog].
  - destruct Hw as [Hw Hend]. assert (offered package) as Hoff by (by exists gate).
    eapply sound_bind; [by apply sound_publish|].
    intros r σ' _ Hr. intros [= ->]. by apply Hr.
  - eapply (sound_bind _ _ _ _ (λ _ _, True)); [|done]. eapply sound_bind; [by apply sound_compact|]. by intros [] ? ? ?.
  - eapply sound_bind; [by apply sound_observe|]. intros r σ' _ Hr. intros h answers [= ->]. by apply Hr.
Qed.

(** A run of all of them: the objects are those of a log of publications, and every
    process that has finished ended well. *)
Lemma pool_sound c run c' log :
  pool (λ _, store_spec) c run c' → Forall (λ t, met t.2.1 ∧ met t.2.2) run →
  Forall2 (λ p q, sound (λ o σ', outcome_ok p o σ'.2) q (c.2, log)) processes c.1 →
  ∃ log', later (c.2, log) (c'.2, log') ∧
    Forall2 (λ p q, sound (λ o σ', outcome_ok p o σ'.2) q (c'.2, log')) processes c'.1.
Proof.
  intros Hrun. revert log; induction Hrun as [c|c i c1 run c' Hs _ IH]; intros log Hmet Hp; [by exists log|].
  inversion Hmet as [|? ? [Hm1 Hm2] Hrest]; subst. destruct Hs as [ps i X e k m x m' Hi Hx]. simpl in *.
  destruct (Forall2_lookup_r _ _ _ _ _ Hp Hi) as (p & Hpi & Hsound). simpl in Hsound.
  destruct (Hsound (m, log) x m' (rtc_refl _ _) Hm1 Hm2 Hx) as (log1 & Hg & Hk).
  destruct (IH log1 Hrest) as (log' & Hl & Hend); [|exists log'; split; [by eapply rtc_l|done]].
  apply Forall2_same_length_lookup in Hp as [Hlen Hp].
  apply Forall2_same_length_lookup. rewrite length_insert. split; [done|]. intros j b q Hb Hq.
  apply list_lookup_insert_Some in Hq as [(<- & <- & _)|[_ Hq]].
  - assert (b = p) as -> by congruence. done.
  - eapply sound_later; [|by apply rtc_once|by eapply Hp]. intros r σ1 σ2. apply outcome_later.
Qed.

Lemma processes_sound m0 run results m' :
  (∀ chain_id, represents m0 chain_id (start chain_id) (hist chain_id)) → Forall wf_process processes →
  pool (λ _, store_spec) (map process_prog processes, m0) run (map Ret results, m') →
  Forall (λ t, met t.2.1 ∧ met t.2.2) run →
  ∃ log : N → list Package, keeps_objects m0 m' ∧
    (∀ chain_id, recorded_at start hist m' chain_id (log chain_id)) ∧
    (∀ chain_id package, package ∈ log chain_id → offered package) ∧
    Forall2 (λ p o, outcome_ok p o log) processes results.
Proof.
  intros H0' Hw Hrun Hmet.
  assert (recorded start hist (m0, λ _, [])) as Hrec.
  { intros c. exists (start c), (hist c). split; [constructor|apply H0']. }
  destruct (pool_sound _ _ _ (λ _, []) Hrun Hmet) as (log & Hl & Hend).
  { apply Forall2_fmap_r. simpl. apply Forall_Forall2_diag, Forall_forall. intros p Hp.
    apply sound_process; [done|done|]. rewrite Forall_forall in Hw. by apply Hw. }
  exists log. split_and!.
  - by apply log_keeps in Hl.
  - intros c. by apply (later_recorded _ _ _ _ _ Hl Hrec).
  - intros c package. apply (later_wanted _ _ _ _ _ Hl). simpl. intros ? ? Hn. by apply not_elem_of_nil in Hn.
  - simpl in Hend. by apply Forall2_fmap_r in Hend.
Qed.
End processes.
