(* ===== verification/Collect.v ===== *)
(** * [src/tiered.rs]: garbage collection

    [reachable] and [collect_garbage].  The deletions run with at most 32 in
    flight; the model performs them in the order of the listing. *)

From S2P Require Import Prelude Bytes SortedLists Externals Hash RunFormat RunReader Head Summary Store Compact Format Tiered.
From Stdlib Require Import Lia ZArith.

Record GcReport := {
  gc_live_objects : N;
  gc_deleted_objects : N;
  gc_deleted_bytes : N;
  gc_kept_young : N
}.

Section collect.
Context `{Sha256, Keccak256, Hex, Zstd, HeadJson}.

(** [(0..run.shards).map(|index| shard_path(..))] *)
Definition shard_paths (run : Run) (kind : ShardKind) : list string :=
  map (λ index, shard_path (r_digest (run_root run)) (run_shards run) kind (N.of_nat index))
    (seq 0 (N.to_nat (run_shards run))).

(** [reachable]: the loop over the runs. *)
Fixpoint reachable_runs (l : list Run) (live : gset string) : prog storeE (result (gset string)) :=
  match l with
  | [] => Ret (Ok live)
  | run :: l =>
      let!? (root, b) := Run_input run in
      let key := object_key (ref_digest root) in
      if bool_decide (key ∈ live) then reachable_runs l live
      else
        let live := {[key]} ∪ live in
        let!? reader := RunReader_decode root b in
        let! refs := interp fetch_handler (object_refs reader) in
        let live := live ∪ list_to_set (map (λ reference, object_key (ref_digest reference)) refs) in
        let live := live ∪ list_to_set (shard_paths run Address) ∪ list_to_set (shard_paths run Spill) in
        reachable_runs l live
  end.

(** [reachable]: the loop over the newest parents. *)
Fixpoint reachable_parents (keep_heads : nat) (parent : option Ref) (live : gset string)
    : prog storeE (gset string) :=
  match keep_heads, parent with
  | S keep_heads, Some reference =>
      let key := object_key (r_digest reference) in
      let* read := request (SGetBounded key MAX_HEAD) in
      match read with
      | Err _ => Ret live
      | Ok b =>
          reachable_parents keep_heads
            (match head_from_json b with Ok head => h_parent head | Err _ => None end)
            ({[key]} ∪ live)
      end
  | _, _ => Ret live
  end.

Definition reachable (head : Head) (keep_heads : nat) (live : gset string)
    : prog storeE (result (gset string)) :=
  let! live := reachable_runs (runs head) live in
  let* live := reachable_parents keep_heads (h_parent head) live in
  Ret (Ok live).

(** The split of the listing: the objects to delete, and the young ones. *)
Fixpoint doom (live : gset string) (cutoff : Z) (listed : list Listed) : list Listed * N :=
  match listed with
  | [] => ([], 0%N)
  | entry :: listed =>
      let '(doomed, young) := doom live cutoff listed in
      if bool_decide (l_key entry ∈ live) then (doomed, young)
      else if (cutoff <? l_modified entry)%Z then (doomed, (young + 1)%N)
      else (entry :: doomed, young)
  end.

(** The deletions: the size of every object that was not fresh. *)
Fixpoint delete_all (cutoff : Z) (dry_run : bool) (doomed : list Listed)
    : prog storeE (result (list (option N))) :=
  match doomed with
  | [] => Ret (Ok [])
  | entry :: doomed =>
      let! modified := request (SModified (l_key entry)) in
      let fresh := match modified with Some modified => (cutoff <? modified)%Z | None => true end in
      if fresh then
        let! rest := delete_all cutoff dry_run doomed in Ret (Ok (None :: rest))
      else
        let! _ := if dry_run then Ret (Ok tt) else request (SDelete (l_key entry)) in
        let! rest := delete_all cutoff dry_run doomed in Ret (Ok (Some (l_size entry) :: rest))
  end.

(** [collect_garbage] *)
Definition collect_garbage (chain_id : N) (keep_heads : nat) (min_age : Z) (dry_run : bool)
    : prog storeE (result GcReport) :=
  let* started := request Now in
  let! read := read_head chain_id in
  let!? (_, head) := ok_or read "missing tiered head" in
  let! live := reachable head keep_heads ∅ in
  let! objects := request (SList "objects/") in
  let! summaries := request (SList "summaries/") in
  let listed := objects ++ summaries in
  let! read := read_head chain_id in
  let!? (_, head) := ok_or read "tiered head vanished" in
  let! live := reachable head keep_heads live in
  let cutoff := (started - min_age)%Z in
  let '(doomed, young) := doom live cutoff listed in
  let! deleted := delete_all cutoff dry_run doomed in
  Ret (Ok {| gc_live_objects := N.of_nat (size live);
             gc_deleted_objects := N.of_nat (length (flatten deleted));
             gc_deleted_bytes := fold_left wrapping_add64 (flatten deleted) 0%N;
             gc_kept_young := young + N.of_nat (length (filter (λ o, o = None) deleted)) |}).

End collect.
