(* ===== verification/CollectFacts.v ===== *)
(** * What garbage collection keeps

    [needed] says which keys a head and its newest copies need, on their own terms:
    the root of a run, the objects its fences name from the root down ([names]), its
    summary shards, and the copies of the head that can be read along the parents.
    On a store whose objects have ages, [collect_garbage] deletes exactly the objects
    and shards that are not needed and were old both when they were listed and just
    before their deletion; the archive answers every read as before. *)

From S2P Require Import Prelude Bytes SortedLists Externals Hash RunFormat RunReader RunRep RunScan Head HeadFacts Summary SummaryFacts Store Compact CompactFacts MergeFacts Format Tiered TieredReader ReaderFacts ReaderTheorems HeadSteps PublishFacts Collect.
From Stdlib Require Import Lia ZArith.

Section facts.
Context `{Sha256, Keccak256, Hex, Zstd, HeadJson}.

(** ** A store whose objects have ages

    The memory store, whose objects were last modified at the times [listed] when
    they were listed and [current] later: a writer may have stamped some in between. *)
Context (now : Z) (listed current : string → Z).
Definition aged (entry : Listed) : Listed :=
  {| l_key := l_key entry; l_size := l_size entry; l_modified := listed (l_key entry) |}.
Definition aged_handle : ∀ X, storeE X → MemoryState → X * MemoryState :=
  λ X e s,
    match e in storeE X return X * MemoryState with
    | SList prefix => (result_map (map aged) (mem_list prefix s), s)
    | SModified key => (Ok (match ms_entries s !! key with Some _ => Some (current key) | None => None end), s)
    | e => mem_handle now _ e s
    end.
Abbreviation exec := (run_prog aged_handle).

(** Programs that do not ask for ages run as on the memory store. *)
Definition ageless X (e : storeE X) : Prop := match e with SList _ | SModified _ => False | _ => True end.
Lemma ageless_exec {A} (p : prog storeE A) s : always ageless (λ _, True) p → exec p s = run_prog (mem_handle now) p s.
Proof.
  intros Hp. revert s. induction Hp as [a _|X e k He _ IH]; intros s; [done|]. cbn [run_prog].
  assert (aged_handle X e s = mem_handle now X e s) as -> by (by destruct e). destruct (mem_handle now X e s). apply IH.
Qed.
Lemma ageless_read_head chain_id : always ageless (λ _, True) (read_head chain_id).
Proof.
  constructor; [done|]. intros [[v|]|e]; cbn [bind]; [|by constructor..].
  destruct (Head_decode _); [|by constructor]. destruct (negb _); by constructor.
Qed.
Lemma ageless_fetch X (e : fetchE X) : always ageless (λ _, True) (fetch_handler X e).
Proof.
  destruct e as [r]. cbn [fetch_handler]. unfold fetch. destruct (_ || _); [by constructor|].
  constructor; [done|]. intros [b|e]; cbn [bind]; [|by constructor]. destruct (_ || _); by constructor.
Qed.
Lemma exec_refs s reader : exec (interp fetch_handler (object_refs reader)) s =
  (run_pure (fetch_from (mem_fetch s)) (object_refs reader), s).
Proof. rewrite ageless_exec; [apply run_interp_fetch|apply always_interp, ageless_fetch]. Qed.

(** ** What has to stay *)

(** The root of a run, the objects its fences name, and its shards. *)
Inductive run_needs (s : MemoryState) (r : Run) : string → Prop :=
| needs_root : run_needs s r (object_key (r_digest (run_root r)))
| needs_object root reader ref :
    hex_decode (run_root_bytes r) = Ok root → RunReader_decode (object_of_ref (run_root r)) root = Ok reader →
    names (mem_fetch s) reader ref → run_needs s r (object_key (ref_digest ref))
| needs_shard kind index : (index < run_shards r)%N →
    run_needs s r (shard_path (r_digest (run_root r)) (run_shards r) kind index).

(** The newest copies of the head that can be read, at most [keep]: the parent, its
    parent, and so on. *)
Inductive head_copy (s : MemoryState) : nat → option Ref → string → Prop :=
| copy_newest keep reference b :
    mem_get_bounded (object_key (r_digest reference)) MAX_HEAD s = Ok b →
    head_copy s (S keep) (Some reference) (object_key (r_digest reference))
| copy_older keep reference b h key :
    mem_get_bounded (object_key (r_digest reference)) MAX_HEAD s = Ok b → head_from_json b = Ok h →
    head_copy s keep (h_parent h) key → head_copy s (S keep) (Some reference) key.

Definition needed (s : MemoryState) (h : Head) (keep : nat) (key : string) : Prop :=
  (∃ r, r ∈ runs h ∧ run_needs s r key) ∨ head_copy s keep (h_parent h) key.

(** All that a run needs is in [live]. *)
Definition live_run (s : MemoryState) (live : gset string) (r : Run) : Prop := ∀ key, run_needs s r key → key ∈ live.
Lemma live_run_mono s live live' r : live ⊆ live' → live_run s live r → live_run s live' r.
Proof. intros Hs Hr key Hk. by apply Hs, Hr. Qed.

(** Runs with the same root have the same summary. *)
Definition coherent (l : list Run) : Prop :=
  ∀ r r', r ∈ l → r' ∈ l → r_digest (run_root r) = r_digest (run_root r') → run_shards r = run_shards r'.

Lemma elem_shard_paths r kind key :
  key ∈ shard_paths r kind ↔ ∃ index, (index < run_shards r)%N ∧ key = shard_path (r_digest (run_root r)) (run_shards r) kind index.
Proof.
  unfold shard_paths. rewrite list_elem_of_fmap. split.
  - intros (i & -> & Hi%elem_of_seq). exists (N.of_nat i). split; [lia|done].
  - intros (index & Hi & ->). exists (N.to_nat index). split; [by rewrite N2Nat.id|]. apply elem_of_seq. lia.
Qed.

(** ** Keys *)

Lemma substring_length n s : String.length (String.substring 0 n s) = n `min` String.length s.
Proof. revert s; induction n as [|n IH]; intros [|c s]; simpl; try done. by rewrite IH. Qed.

Lemma stored_key_inj `{!HexLaws} h h' : object_key h = object_key h' → h = h'.
Proof.
  unfold object_key. intros E. apply string_app_inj in E as [_ E]; [|done].
  apply string_app_inj in E as [_ E]; [|by rewrite !substring_length, !hex_encode_length, !length_arr].
  apply string_app_inj in E as [_ E]; [|done]. by apply arr_inj, hex_encode_inj.
Qed.

Lemma object_key_not_shard d run shards kind index : object_key d ≠ shard_path run shards kind index.
Proof. discriminate. Qed.

(** ** The runs *)

Lemma stored_fun s key b b' : stored s key b → stored s key b' → b = b'.
Proof. intros (e & He & <-) (e' & He' & <-). congruence. Qed.

Lemma root_decoded r root reader :
  RunReader_decode (object_of_ref (run_root r)) root = Ok reader →
  len root = r_length (run_root r) ∧ take 4 root = ROOT_MAGIC.
Proof.
  unfold RunReader_decode. destruct (negb _); [done|].
  destruct (verify_object _ _) as [[]|] eqn:Ev; [|done]. destruct (_ || _) eqn:E; [done|]. intros _.
  unfold verify_object in Ev. destruct (_ || _) eqn:E'; [done|]. bool_prop. split; [by symmetry|done].
Qed.

(** A root that is live makes its run live. *)
Definition roots_live (s : MemoryState) (all : list Run) (live : gset string) : Prop :=
  ∀ r, r ∈ all → object_key (r_digest (run_root r)) ∈ live → live_run s live r.

Definition run_keys (r : Run) (refs : list ObjectRef) : gset string :=
  {[object_key (r_digest (run_root r))]} ∪ list_to_set (map (λ reference, object_key (ref_digest reference)) refs)
    ∪ list_to_set (shard_paths r Address) ∪ list_to_set (shard_paths r Spill).
Lemma elem_run_keys s r refs root reader key :
  hex_decode (run_root_bytes r) = Ok root → RunReader_decode (object_of_ref (run_root r)) root = Ok reader →
  (∀ ref, ref ∈ refs ↔ names (mem_fetch s) reader ref) → key ∈ run_keys r refs ↔ run_needs s r key.
Proof.
  intros Hh Hd Hrefs. unfold run_keys. rewrite !elem_of_union, elem_of_singleton, !elem_of_list_to_set, !elem_shard_paths, list_elem_of_fmap.
  split.
  - intros [[[->|(ref & -> & Hr)]|(index & Hi & ->)]|(index & Hi & ->)]; [constructor|..|by constructor|by constructor].
    eapply needs_object; [done..|]. by apply Hrefs.
  - intros [|root' reader' ref Hh' Hd' Hr|kind index Hi]; [tauto| |destruct kind; eauto].
    assert (root' = root) as -> by congruence. assert (reader' = reader) as -> by congruence. apply Hrefs in Hr. eauto 6.
Qed.

Lemma roots_live_add `{!HexLaws} s all live r rs root reader refs :
  coherent all → Forall (λ r, ∃ rs, run_stored s r rs) all → r ∈ all → run_stored s r rs →
  roots_live s all live →
  hex_decode (run_root_bytes r) = Ok root → RunReader_decode (object_of_ref (run_root r)) root = Ok reader →
  (∀ ref, ref ∈ refs ↔ names (mem_fetch s) reader ref) → Forall (fetched (mem_fetch s)) refs →
  roots_live s all (run_keys r refs ∪ live).
Proof.
  intros Hcoh Hall Hin Hst Hlive Hh Hd Hrefs Hf. rewrite Forall_forall in Hall. pose proof (proj1 (Forall_forall _ _) Hf) as Hfetched.
  pose proof (λ key, elem_run_keys s r refs root reader key Hh Hd Hrefs) as Hkeys.
  assert (∀ r', r' ∈ all → r_digest (run_root r') = r_digest (run_root r) → live_run s (run_keys r refs ∪ live) r') as Hsame.
  { intros r' Hr' Ed key Hk. apply elem_of_union_l, Hkeys. pose proof (Hcoh r' r Hr' Hin Ed) as Esh.
    destruct (Hall r' Hr') as [rs' [(root' & reader' & Hh' & Hd' & _ & Hst') _ _]].
    destruct Hst as [(root0 & reader0 & Hh0 & Hd0 & _ & Hst0) _ _]. assert (root0 = root) as -> by congruence.
    rewrite Ed in Hst'. assert (root' = root) as -> by (by eapply stored_fun).
    assert (run_root r' = run_root r) as Er.
    { destruct (root_decoded _ _ _ Hd) as [El _], (root_decoded _ _ _ Hd') as [El' _].
      destruct (run_root r), (run_root r'); simpl in *; congruence. }
    destruct Hk as [|root1 reader1 ref Hh1 Hd1 Hr1|kind index Hi].
    - rewrite Ed. constructor.
    - rewrite Er in Hd1. eapply needs_object; [exact Hh| |exact Hr1]. congruence.
    - rewrite Ed, Esh. constructor. by rewrite <-Esh. }
  intros r' Hr' Hk. apply elem_of_union in Hk as [Hk|Hl].
  2: { eapply live_run_mono; [|by apply Hlive]. apply union_subseteq_r. }
  apply Hkeys in Hk. remember (object_key (r_digest (run_root r'))) as key eqn:Ek.
  destruct Hk as [|root1 reader1 ref Hh1 Hd1 Hr1|kind index Hi].
  - apply Hsame; [done|]. by apply stored_key_inj.
  - exfalso. apply stored_key_inj in Ek. assert (root1 = root) as -> by congruence.
    assert (reader1 = reader) as -> by congruence. apply Hrefs in Hr1.
    destruct (Hfetched ref Hr1) as (b & Hb & Hm). apply (mem_fetch_stored s) in Hb.
    destruct (Hall r' Hr') as [rs' [(root' & reader' & _ & Hd' & _ & Hst') _ _]].
    rewrite <-Ek in Hst'. assert (root' = b) as -> by (by eapply stored_fun). by apply root_decoded in Hd' as [_ ?].
  - symmetry in Ek. by apply object_key_not_shard in Ek.
Qed.

Lemma reachable_runs_ok `{!HexLaws} s all l live :
  coherent all → Forall (λ r, ∃ rs, run_stored s r rs) all → (∀ r, r ∈ l → r ∈ all) → roots_live s all live →
  ∃ live', exec (reachable_runs l live) s = (Ok live', s) ∧ roots_live s all live' ∧ live ⊆ live' ∧
    (∀ r, r ∈ l → live_run s live' r) ∧ ∀ key, key ∈ live' → key ∈ live ∨ ∃ r, r ∈ l ∧ run_needs s r key.
Proof.
  intros Hcoh Hall Hsub. revert live; induction l as [|r l IH]; intros live Hlive.
  { exists live. split_and!; [done|done|done| |by left]. intros r Hr. by apply elem_of_nil in Hr. }
  assert (r ∈ all) as Hr by (apply Hsub; by left).
  assert (∀ r', r' ∈ l → r' ∈ all) as Hsub' by (intros r' Hr'; apply Hsub; by right).
  destruct (proj1 (Forall_forall _ _) Hall r Hr) as [rs Hst].
  pose proof Hst as [(root & reader & Hh & Hd & Hrep & Hroot) Hsum Hb].
  cbn [reachable_runs]. unfold Run_input. rewrite Hh. cbn [object_of_ref ref_digest].
  case_bool_decide as Hk.
  - destruct (IH Hsub' live Hlive) as (live' & E & Hl & Hs & Hrs & Hn). exists live'. split_and!; [done|done|done| |].
    + intros r' [->|Hr']%elem_of_cons; [|by apply Hrs]. eapply live_run_mono; [exact Hs|by apply Hlive].
    + intros key Hkey. destruct (Hn key Hkey) as [|(r' & ? & ?)]; [by left|right]. exists r'. split; [by right|done].
  - change {| ref_digest := r_digest (run_root r); ref_length := r_length (run_root r) |} with (object_of_ref (run_root r)).
    rewrite Hd. destruct (object_refs_rep _ _ _ Hrep) as (refs & Er & Hf & _ & Hnames).
    rewrite run_prog_bind, exec_refs, (run_ok_pure _ _ _ Er).
    match goal with |- context [reachable_runs l ?next] => replace next with (run_keys r refs ∪ live)
      by (unfold run_keys; apply set_eq; intros x; rewrite !elem_of_union; tauto) end.
    pose proof (roots_live_add s all live r rs root reader refs) as Hlive'. specialize (Hlive' Hcoh Hall Hr Hst Hlive Hh Hd Hnames Hf).
    destruct (IH Hsub' _ Hlive') as (live' & E & Hl & Hs & Hrs & Hn). exists live'. rewrite E.
    split_and!; [done|done|by etrans; [apply union_subseteq_r|]| |].
    + intros r' [->|Hr']%elem_of_cons; [|by apply Hrs]. intros key Hkey.
      apply Hs, elem_of_union_l. by apply (elem_run_keys s r refs root reader).
    + intros key Hkey. destruct (Hn key Hkey) as [Hu|(r' & ? & ?)]; [|right; exists r'; split; [by right|done]].
      apply elem_of_union in Hu as [Hu|]; [right|by left]. exists r. split; [by left|].
      by apply (elem_run_keys s r refs root reader).
Qed.

(** Runs whose roots are live are not walked again. *)
Lemma reachable_runs_again s l live :
  Forall (λ r, ∃ rs, run_stored s r rs) l → (∀ r, r ∈ l → object_key (r_digest (run_root r)) ∈ live) →
  exec (reachable_runs l live) s = (Ok live, s).
Proof.
  induction 1 as [|r l [rs [(root & reader & Hh & _) _ _]] HF IH]; intros Hl; [done|].
  cbn [reachable_runs]. unfold Run_input. rewrite Hh. cbn [object_of_ref ref_digest].
  rewrite bool_decide_eq_true_2 by (apply Hl; set_solver). apply IH. intros r' Hr'. apply Hl. set_solver.
Qed.

(** The copies of the head do not depend on what is already live. *)
Lemma reachable_parents_ok keep parent s :
  ∃ copies, (∀ key, key ∈ copies ↔ head_copy s keep parent key) ∧
    ∀ live, exec (reachable_parents keep parent live) s = (copies ∪ live, s).
Proof.
  revert parent; induction keep as [|keep IH]; intros parent.
  { exists ∅. split; [intros key; split; [set_solver|by inversion 1]|]. intros live. simpl. by rewrite union_empty_l_L. }
  destruct parent as [reference|].
  2: { exists ∅. split; [intros key; split; [set_solver|by inversion 1]|]. intros live. simpl. by rewrite union_empty_l_L. }
  cbn [reachable_parents request bind run_prog aged_handle mem_handle].
  destruct (mem_get_bounded _ _ s) as [b|e] eqn:Eb.
  2: { exists ∅. split; [intros key; split; [set_solver|inversion 1; congruence]|]. intros live. simpl. by rewrite union_empty_l_L. }
  destruct (IH (match head_from_json b with Ok head => h_parent head | Err _ => None end)) as (copies & Hc & Hk).
  exists ({[object_key (r_digest reference)]} ∪ copies). split.
  - intros key. rewrite elem_of_union, elem_of_singleton, Hc. split.
    + intros [->|Hkey]; [by econstructor|]. destruct (head_from_json b) as [h|] eqn:Eh; [by eapply copy_older|]. by inversion Hkey.
    + inversion 1 as [|? ? b' h ? Eb' Eh Hkey]; subst; [by left|right]. assert (b' = b) as -> by congruence. by rewrite Eh.
  - intros live. rewrite Hk. f_equal. apply set_eq. intros x. rewrite !elem_of_union. tauto.
Qed.

Lemma reachable_archive `{!HexLaws} s chain_id h rss keep :
  archive s chain_id h rss → coherent (runs h) →
  ∃ live, exec (reachable h keep ∅) s = (Ok live, s) ∧ exec (reachable h keep live) s = (Ok live, s) ∧
    ∀ key, key ∈ live ↔ needed s h keep key.
Proof.
  intros Ha Hcoh.
  assert (Forall (λ r, ∃ rs, run_stored s r rs) (runs h)) as Hall.
  { apply Forall_forall. intros r Hr. apply list_elem_of_lookup in Hr as [i Hi].
    destruct (Forall2_lookup_l _ _ _ _ _ (ar_runs _ _ _ _ Ha) Hi) as (rs & _ & Hst). eauto. }
  destruct (reachable_runs_ok s (runs h) (runs h) ∅) as (live & E & Hroots & _ & Hlive & Hneeds);
    [done|done|done|intros r _ Hr; set_solver|].
  destruct (reachable_parents_ok keep (h_parent h) s) as (copies & Hcopies & Hex).
  exists (copies ∪ live). unfold reachable. rewrite !run_prog_bind, E, run_prog_bind, Hex. split_and!; [done| |].
  - rewrite reachable_runs_again; [|done|].
    + rewrite run_prog_bind, Hex. cbn [run_prog]. do 2 f_equal. by rewrite union_assoc_L, union_idemp_L.
    + intros r Hr. apply elem_of_union_r, (Hlive r Hr). constructor.
  - intros key. unfold needed. rewrite elem_of_union, Hcopies. split.
    + intros [|Hk]; [by right|left]. destruct (Hneeds key Hk) as [|Hr]; [set_solver|done].
    + intros [(r & Hr & Hk)|]; [right; by apply (Hlive r Hr)|by left].
Qed.

(** ** Listing and deletion *)

Definition size_at (s : MemoryState) (key : string) : N :=
  match ms_entries s !! key with Some e => len (me_bytes e) | None => 0 end.

(** A listing of [s]: each key of some set once, with the age and size of its object. *)
Record lists (s : MemoryState) (P : string → Prop) (l : list Listed) : Prop := {
  ls_nodup : NoDup (map l_key l);
  ls_keys key : key ∈ map l_key l ↔ is_Some (ms_entries s !! key) ∧ P key;
  ls_entries entry : entry ∈ l → l_modified entry = listed (l_key entry) ∧ l_size entry = size_at s (l_key entry)
}.
Lemma aged_lists prefix s :
  ∃ l, aged_handle _ (SList prefix) s = (Ok l, s) ∧ lists s (λ key, String.prefix prefix key = true) l.
Proof.
  cbn [aged_handle mem_list result_map]. eexists. split; [reflexivity|]. split.
  - rewrite !map_map, (map_ext _ fst) by (by intros []). apply NoDup_fmap_2_strong.
    + intros [k1 e1] [k2 e2] Hin1 Hin2 E. simpl in E. subst k2. apply list_elem_of_filter in Hin1 as [_ Hin1], Hin2 as [_ Hin2].
      apply elem_of_map_to_list in Hin1, Hin2. congruence.
    + apply NoDup_filter, NoDup_map_to_list.
  - intros key. rewrite !map_map, list_elem_of_fmap. split.
    + intros ([k e] & -> & Hin). apply list_elem_of_filter in Hin as [Hp Hin]. apply elem_of_map_to_list in Hin.
      simpl in *. split; [by exists e|done].
    + intros [[e He] Hp]. exists (key, e). split; [done|]. apply list_elem_of_filter. split; [done|]. by apply elem_of_map_to_list.
  - intros entry. rewrite map_map. intros ([k e] & -> & Hin)%list_elem_of_fmap. apply list_elem_of_filter in Hin as [_ Hin].
    apply elem_of_map_to_list in Hin. split; [done|]. unfold size_at. simpl. by rewrite Hin.
Qed.
Lemma lists_app s P Q l l' :
  (∀ key, P key → Q key → False) → lists s P l → lists s Q l' → lists s (λ key, P key ∨ Q key) (l ++ l').
Proof.
  intros Hpq [N1 K1 E1] [N2 K2 E2]. split.
  - rewrite map_app. apply NoDup_app. split; [done|]. split; [|done]. intros key Hin1 Hin2.
    apply K1 in Hin1 as [_ Hp]. apply K2 in Hin2 as [_ Hq]. by apply (Hpq key).
  - intros key. rewrite map_app, elem_of_app, K1, K2. tauto.
  - intros entry [Hin|Hin]%elem_of_app; auto.
Qed.

Lemma listings_disjoint key : String.prefix "objects/" key = true → String.prefix "summaries/" key = true → False.
Proof. destruct key as [|c key]; [done|]. cbn [String.prefix]. by destruct (Ascii.ascii_dec _ c) as [<-|]. Qed.

Lemma doom_eq live cutoff l :
  doom live cutoff l = (filter (λ x, l_key x ∉ live ∧ (l_modified x <= cutoff)%Z) l,
    N.of_nat (length (filter (λ x, l_key x ∉ live ∧ (cutoff < l_modified x)%Z) l))).
Proof.
  induction l as [|x l IH]; [done|]. cbn [doom]. rewrite IH. rewrite !filter_cons.
  case_bool_decide as Hl; [by rewrite !decide_False by tauto|].
  destruct (cutoff <? l_modified x)%Z eqn:Ec; [apply Z.ltb_lt in Ec|apply Z.ltb_ge in Ec].
  - rewrite decide_False by (intros [_ ?]; lia). rewrite decide_True by done. simpl. f_equal. lia.
  - rewrite decide_True by done. by rewrite decide_False by (intros [_ ?]; lia).
Qed.

Definition old_now (cutoff : Z) (entry : Listed) : Prop := (current (l_key entry) <= cutoff)%Z.
#[local] Instance old_now_dec cutoff entry : Decision (old_now cutoff entry) := Z_le_dec _ _.
Lemma delete_all_ok cutoff dry_run doomed s :
  NoDup (map l_key doomed) → (∀ entry, entry ∈ doomed → is_Some (ms_entries s !! l_key entry)) →
  ∃ s', exec (delete_all cutoff dry_run doomed) s =
      (Ok (map (λ entry, if decide (old_now cutoff entry) then Some (l_size entry) else None) doomed), s') ∧
    ∀ key e, ms_entries s' !! key = Some e ↔
      ms_entries s !! key = Some e ∧ (dry_run = true ∨ key ∉ map l_key (filter (old_now cutoff) doomed)).
Proof.
  revert s; induction doomed as [|entry doomed IH]; intros s Hn Hs.
  { exists s. split; [done|]. intros key e. split; [|tauto]. intros He. split; [done|]. right. by intros ?%not_elem_of_nil. }
  inversion Hn as [|? ? Hnin Hn']; subst. cbn [delete_all map request bind run_prog aged_handle].
  destruct (Hs entry ltac:(by left)) as [e0 He0]. rewrite He0.
  assert (∀ entry', entry' ∈ doomed → is_Some (ms_entries s !! l_key entry')) as Hs' by (intros ??; apply Hs; by right).
  destruct (cutoff <? current (l_key entry))%Z eqn:Ec.
  - apply Z.ltb_lt in Ec. assert (¬ old_now cutoff entry) as Ho by (unfold old_now; lia).
    rewrite (decide_False (P := old_now cutoff entry)) by done. rewrite run_prog_bind.
    destruct (IH s Hn' Hs') as (s' & E & Hkeys). rewrite E. exists s'. split; [done|]. intros key e.
    by rewrite Hkeys, filter_cons, decide_False.
  - apply Z.ltb_ge in Ec. assert (old_now cutoff entry) as Ho by done.
    rewrite filter_cons, !(decide_True (P := old_now cutoff entry)) by done.
    rewrite run_prog_bind. destruct dry_run; cbn [request run_prog aged_handle mem_handle mem_delete]; rewrite run_prog_bind.
    + destruct (IH s Hn' Hs') as (s' & E & Hkeys). rewrite E. exists s'. split; [done|]. intros key e. rewrite Hkeys. tauto.
    + match goal with |- context [exec (delete_all cutoff false doomed) ?st] => destruct (IH st Hn') as (s' & E & Hkeys) end.
      { intros entry' Hin. simpl. rewrite lookup_delete_ne; [by apply Hs'|]. intros Ek. apply Hnin. rewrite Ek. by apply list_elem_of_fmap_2. }
      rewrite E. exists s'. split; [done|]. intros key e. rewrite Hkeys. simpl. rewrite lookup_delete_Some, elem_of_cons.
      split; [intros ([? ?] & [|]); [done|]|intros [? [|]]; [done|]]; intuition congruence.
Qed.

(** ** The report *)

(** The sizes of the objects at some keys, in all. *)
Definition total_size (s : MemoryState) (keys : gset string) : N := foldr N.add 0%N (map (size_at s) (elements keys)).
Definition keys_of (l : list Listed) : gset string := list_to_set (map l_key l).

Lemma sum_permutation (l l' : list N) : l ≡ₚ l' → foldr N.add 0%N l = foldr N.add 0%N l'.
Proof. induction 1; simpl; lia. Qed.
Lemma wrapping_sum l a : (a <= u64_max)%N → fold_left wrapping_add64 l a = ((a + foldr N.add 0 l) mod (u64_max + 1))%N.
Proof.
  revert a; induction l as [|n l IH]; intros a Ha; simpl.
  - rewrite N.add_0_r, N.mod_small; [done|lia].
  - unfold wrapping_add64 at 2. rewrite IH.
    + by rewrite N.Div0.add_mod_idemp_l, N.add_assoc.
    + pose proof (N.mod_lt (a + n) (u64_max + 1) ltac:(unfold u64_max; lia)). lia.
Qed.
Lemma nodup_keys_filter (P : Listed → Prop) `{!∀ x, Decision (P x)} l : NoDup (map l_key l) → NoDup (map l_key (filter P l)).
Proof.
  induction l as [|x l IH]; [done|]. intros [Hx Hl]%NoDup_cons. rewrite filter_cons. case_decide; [|by apply IH].
  cbn [map]. apply NoDup_cons. split; [|by apply IH]. intros (y & Ey & Hy)%list_elem_of_fmap.
  apply Hx. rewrite Ey. apply list_elem_of_filter in Hy as [_ Hy]. by apply list_elem_of_fmap_2.
Qed.
Lemma elem_keys_filter (P : Listed → Prop) `{!∀ x, Decision (P x)} (Q : string → Prop) l key :
  (∀ x, x ∈ l → P x ↔ Q (l_key x)) → key ∈ keys_of (filter P l) ↔ key ∈ map l_key l ∧ Q key.
Proof.
  intros Hpq. unfold keys_of. rewrite elem_of_list_to_set, !list_elem_of_fmap. split.
  - intros (x & -> & [Hp Hx]%list_elem_of_filter). split; [by exists x|by apply Hpq].
  - intros [(x & -> & Hx) Hq]. exists x. split; [done|]. apply list_elem_of_filter. split; [by apply Hpq|done].
Qed.
Lemma size_keys l : NoDup (map l_key l) → size (keys_of l) = length l.
Proof. intros Hn. unfold keys_of. by rewrite size_list_to_set, length_map. Qed.
Lemma total_size_keys s l :
  NoDup (map l_key l) → (∀ x, x ∈ l → l_size x = size_at s (l_key x)) → total_size s (keys_of l) = foldr N.add 0%N (map l_size l).
Proof.
  intros Hn Hl. unfold total_size, keys_of. rewrite (sum_permutation _ (map (size_at s) (map l_key l))).
  - rewrite map_map. f_equal. apply map_ext_in. intros x Hx%list_elem_of_In. by rewrite Hl.
  - apply fmap_Permutation. by apply elements_list_to_set.
Qed.

(** The answers of the deletions. *)
Abbreviation answers cutoff := (map (λ entry, if decide (old_now cutoff entry) then Some (l_size entry) else None)).
Lemma answers_deleted cutoff l : flatten (answers cutoff l) = map l_size (filter (old_now cutoff) l).
Proof. induction l as [|x l IH]; [done|]. rewrite filter_cons. cbn [map flatten]. case_decide; simpl; by rewrite IH. Qed.
(** The objects that are not needed are deleted, or counted as young once. *)
Lemma young_count (live : gset string) cutoff l :
  length (filter (λ x, l_key x ∉ live ∧ (cutoff < l_modified x)%Z) l) +
  length (filter (λ o, o = None) (answers cutoff (filter (λ x, l_key x ∉ live ∧ (l_modified x <= cutoff)%Z) l))) =
  length (filter (λ x, l_key x ∉ live ∧ ((cutoff < l_modified x)%Z ∨ (cutoff < current (l_key x))%Z)) l).
Proof.
  induction l as [|x l IH]; [done|]. rewrite !(filter_cons _ x). unfold old_now in *.
  repeat case_decide; try (exfalso; intuition lia); cbn [map length] in *; rewrite ?filter_cons; repeat case_decide;
    try done; try (exfalso; intuition lia); simpl; lia.
Qed.

(** ** The archive after a collection *)

Lemma kept_fetch s s' r b :
  (∀ e, ms_entries s !! object_key (ref_digest r) = Some e → ms_entries s' !! object_key (ref_digest r) = Some e) →
  mem_fetch s r = Ok b → mem_fetch s' r = Ok b.
Proof.
  intros Hk. unfold mem_fetch. destruct (_ || _); [done|]. unfold mem_get_bounded.
  destruct (ms_entries s !! object_key (ref_digest r)) as [e|]; [|done]. by rewrite (Hk e eq_refl).
Qed.

Lemma kept_shard s s' run shards kind index shard :
  (∀ e, ms_entries s !! shard_path run shards kind index = Some e → ms_entries s' !! shard_path run shards kind index = Some e) →
  shard_in s run shards kind index shard → shard_in s' run shards kind index shard.
Proof.
  intros Hk (b & Hb & Hd). exists b. split; [|done]. unfold mem_get_bounded in *.
  destruct (ms_entries s !! shard_path run shards kind index) as [e|]; [|done]. by rewrite (Hk e eq_refl).
Qed.

Lemma kept_run s s' r rs :
  (∀ key e, run_needs s r key → ms_entries s !! key = Some e → ms_entries s' !! key = Some e) →
  run_stored s r rs → run_stored s' r rs.
Proof.
  intros Hk [(root & reader & Hh & Hd & Hrep & (e & He & Hb)) Hsum Hblk].
  destruct (object_refs_rep _ _ _ Hrep) as (refs & Er & _ & Hcov & Hnames). split; [| |done].
  - exists root, reader. split_and!; [done|done| |exists e; split; [by apply Hk; [constructor|]|done]].
    apply Hcov. intros ref b Href. apply kept_fetch. intros e'. apply Hk. eapply needs_object; [done..|]. by apply Hnames.
  - destruct Hsum as [Hp Hu Hex Hkeys].
    assert (∀ kind index shard, (index < run_shards r)%N →
      shard_in s (r_digest (run_root r)) (run_shards r) kind index shard →
      shard_in s' (r_digest (run_root r)) (run_shards r) kind index shard) as Hin.
    { intros kind index shard Hi. apply kept_shard. intros e'. apply Hk. by constructor. }
    split; [done|done| |].
    + intros kind index Hi. destruct (Hex kind index Hi) as [shard Hs]. exists shard. by apply Hin.
    + intros key Hkey probe. destruct (Hkeys key Hkey) as (a & Ha & Hc). exists a.
      split; [by apply Hin; [apply power_of_two_land|]|].
      destruct Hc as [Hc|(Hm & sp & Hsp & Hc)]; [by left|right]. split; [done|]. exists sp.
      split; [by apply Hin; [apply power_of_two_land|]|done].
Qed.
Lemma kept_archive s s' chain_id h rss keep :
  archive s chain_id h rss →
  (∀ key e, immutable_key key = false ∨ needed s h keep key → ms_entries s !! key = Some e → ms_entries s' !! key = Some e) →
  archive s' chain_id h rss.
Proof.
  intros [(e & He & Hl & Hd) Hc Hends Hruns] Hk. split; [|done|done|].
  - exists e. split; [apply Hk; [by left|done]|done].
  - apply Forall2_same_length_lookup in Hruns as [Hlen Hruns]. apply Forall2_same_length_lookup. split; [done|].
    intros i r rs Hi Hr. eapply (kept_run s); [|by eapply Hruns]. intros key e' Hn. apply Hk. right. left.
    exists r. split; [by eapply list_elem_of_lookup_2|done].
Qed.

(** C14: garbage collection is exact and harmless.  On a store that holds an
    archive, alone, [collect_garbage] always succeeds.  Unless it is a dry run it
    deletes exactly the objects and shards that are not [needed] by the head or its
    [keep] newest readable copies and that were not younger than the grace age,
    neither when they were listed nor just before their deletion; heads and all
    other keys stay.  The archive is intact, so that every read answers as before,
    and the report counts the needed keys, what was deleted, its bytes, and what was
    spared because it was young.  (Runs with the same root are assumed to have the
    same number of shards.) *)
Theorem garbage_collection_exact `{!HexLaws} s chain_id h rss keep min_age dry_run :
  archive s chain_id h rss → coherent (runs h) →
  let cutoff := (now - min_age)%Z in
  let garbage key := is_Some (ms_entries s !! key) ∧ immutable_key key = true ∧ ¬ needed s h keep key in
  ∃ (live dead young : gset string) s',
    exec (collect_garbage chain_id keep min_age dry_run) s =
      (Ok {| gc_live_objects := N.of_nat (size live); gc_deleted_objects := N.of_nat (size dead);
             gc_deleted_bytes := (total_size s dead mod (u64_max + 1))%N; gc_kept_young := N.of_nat (size young) |}, s') ∧
    (∀ key, key ∈ live ↔ needed s h keep key) ∧
    (∀ key, key ∈ dead ↔ garbage key ∧ (listed key <= cutoff)%Z ∧ (current key <= cutoff)%Z) ∧
    (∀ key, key ∈ young ↔ garbage key ∧ ((cutoff < listed key)%Z ∨ (cutoff < current key)%Z)) ∧
    (∀ key e, ms_entries s' !! key = Some e ↔ ms_entries s !! key = Some e ∧ (dry_run = true ∨ key ∉ dead)) ∧
    archive s' chain_id h rss.
Proof.
  intros Ha Hcoh cutoff garbage. destruct (reachable_archive s chain_id h rss keep Ha Hcoh) as (live & E1 & E2 & Hlive).
  destruct (read_head_ok now s chain_id h rss Ha) as (eh & Heh & Hdh & Er).
  rewrite <-(ageless_exec _ s (ageless_read_head chain_id)) in Er.
  destruct (aged_lists "objects/" s) as (objects & Eo & Ho). destruct (aged_lists "summaries/" s) as (summaries & Es & Hs).
  assert (lists s (λ key, immutable_key key = true) (objects ++ summaries)) as [Hn Hkeys Hent].
  { pose proof (lists_app s _ _ _ _ listings_disjoint Ho Hs) as [Hn Hk He].
    split; [done| |done]. intros key. rewrite Hk. unfold immutable_key. by rewrite orb_true_iff. }
  set (all := objects ++ summaries) in *.
  set (doomed := filter (λ x, l_key x ∉ live ∧ (l_modified x <= cutoff)%Z) all).
  destruct (delete_all_ok cutoff dry_run doomed s) as (s' & Ed & Hs').
  { by apply nodup_keys_filter. }
  { intros x [_ Hx]%list_elem_of_filter. by apply (Hkeys (l_key x)), list_elem_of_fmap_2. }
  set (dead := keys_of (filter (old_now cutoff) doomed)).
  set (spared := filter (λ x, l_key x ∉ live ∧ ((cutoff < l_modified x)%Z ∨ (cutoff < current (l_key x))%Z)) all).
  assert (∀ key, key ∈ dead ↔ garbage key ∧ (listed key <= cutoff)%Z ∧ (current key <= cutoff)%Z) as Hdead.
  { intros key. unfold dead, doomed. rewrite list_filter_filter.
    rewrite (elem_keys_filter _ (λ key, key ∉ live ∧ (listed key <= cutoff)%Z ∧ (current key <= cutoff)%Z)).
    - rewrite Hkeys, Hlive. unfold garbage. tauto.
    - intros x Hx. unfold old_now. destruct (Hent x Hx) as [-> _]. tauto. }
  exists live, dead, (keys_of spared), s'. split_and!; [|done|done| | |].
  - unfold collect_garbage. cbn [request bind run_prog aged_handle mem_handle]. rewrite run_prog_bind, Er. cbn [ok_or].
    rewrite run_prog_bind, E1. cbn [request bind run_prog]. rewrite Eo. cbn [request bind run_prog].
    rewrite Es, run_prog_bind, Er. cbn [ok_or]. rewrite run_prog_bind, E2. fold all cutoff. rewrite doom_eq. fold doomed.
    rewrite run_prog_bind, Ed. cbn [run_prog]. rewrite answers_deleted. do 2 f_equal.
    assert (NoDup (map l_key (filter (old_now cutoff) doomed))) as Hnd by (by apply nodup_keys_filter, nodup_keys_filter).
    f_equal.
    + unfold dead. by rewrite size_keys, length_map.
    + rewrite wrapping_sum by (unfold u64_max; lia). unfold dead. rewrite (total_size_keys s); [done|done|].
      intros x [_ [_ Hx]%list_elem_of_filter]%list_elem_of_filter. by apply Hent.
    + rewrite size_keys by (by apply nodup_keys_filter). rewrite <-Nat2N.inj_add. f_equal. apply young_count.
  - intros key. unfold spared.
    rewrite (elem_keys_filter _ (λ key, key ∉ live ∧ ((cutoff < listed key)%Z ∨ (cutoff < current key)%Z))).
    + rewrite Hkeys, Hlive. unfold garbage. tauto.
    + intros x Hx. destruct (Hent x Hx) as [-> _]. tauto.
  - intros key e. rewrite Hs'. unfold dead, keys_of. by rewrite elem_of_list_to_set.
  - eapply kept_archive; [done|]. intros key e Hk He. apply Hs'. split; [done|]. right. intros Hin.
    assert (key ∈ dead) as Hd by (unfold dead, keys_of; by apply elem_of_list_to_set).
    apply Hdead in Hd as [(_ & Him & Hnot) _]. destruct Hk; [congruence|done].
Qed.

End facts.
