(* ===== verification/PackageTheorems.v ===== *)
(** * What a published package says is what readers see

    The records of a package are exactly its events; after publication, a reader
    returns there what the newest events of an account, slot or code at or before a
    block say ([says]). *)

From S2P Require Import Prelude Bytes SortedLists Externals Hash RunFormat RunReader RunRep Head HeadFacts Summary Store Compact CompactFacts Format Tiered TieredReader ReaderFacts ReaderTheorems HeadSteps PublishFacts TieredTheorems.
From Stdlib Require Import Lia Sorting.Sorted.

Definition account_record (event : AccountEvent) : RunRecord :=
  {| rec_key := account_key (ae_address event); rec_block := ae_block event; rec_value := account_value event |}.
Definition storage_record (event : StorageEvent) : RunRecord :=
  {| rec_key := storage_key (se_address event) (se_incarnation event) (se_slot event);
     rec_block := se_block event; rec_value := arr (se_value event) |}.
Definition code_record (blob : CodeBlob) : RunRecord :=
  {| rec_key := code_key (cb_code_hash blob); rec_block := cb_first_seen_block blob; rec_value := cb_bytes blob |}.

Lemma try_fold_add {A} (record : A → RunRecord) (step : A → list RunRecord * N → result (list RunRecord * N)) l acc acc' :
  (∀ x acc acc', step x acc = Ok acc' → acc'.1 = acc.1 ++ [record x]) →
  try_fold step l acc = Ok acc' → acc'.1 = acc.1 ++ map record l.
Proof.
  intros Hstep. revert acc; induction l as [|x l IH]; intros acc; simpl; [intros [= <-]; by rewrite app_nil_r|].
  destruct (step x acc) as [acc1|] eqn:E; [|done]. intros H1%IH. rewrite H1, (Hstep _ _ _ E).
  by rewrite <-app_assoc.
Qed.

Lemma add_record_ok first stop key block value acc acc' :
  add_record first stop key block value acc = Ok acc' →
  acc'.1 = acc.1 ++ [{| rec_key := key; rec_block := block; rec_value := value |}].
Proof.
  destruct acc as [l n]. unfold add_record. destruct (negb _); [done|].
  destruct (ok_or _ _); [|done]. destruct (_ <? _)%N; [done|]. by intros [= <-].
Qed.

(** The newest version of a key at or before a block is its state there. *)
Lemma state_at_newest l r block :
  history l → r ∈ l → (rec_block r <= block)%N →
  (∀ r', r' ∈ l → rec_key r' = rec_key r → (rec_block r' <= block)%N → (rec_block r' <= rec_block r)%N) →
  state_at l (rec_key r) block = Some (rec_value r).
Proof.
  intros Hl Hr Hb Hmax. apply list_elem_of_split in Hr as (l1 & l2 & ->).
  apply history_app in Hl as (_ & Hl2 & _). apply StronglySorted_inv in Hl2 as [_ HF].
  rewrite Forall_forall in HF. rewrite state_at_app. change (r :: l2) with ([r] ++ l2).
  rewrite state_at_app, (state_at_none l2).
  - unfold state_at. rewrite (filter_cons_True _ r []) by (by split). done.
  - intros y Hy Hk. specialize (HF y Hy (eq_sym Hk)).
    destruct (N.lt_ge_cases block (rec_block y)) as [|Hle]; [done|].
    specialize (Hmax y ltac:(apply elem_of_app; right; by right) Hk Hle). lia.
Qed.

Section packages.
Context `{Sha256, Keccak256, Hex, Zstd, HeadJson, !Sha256Laws, !HexLaws, !ZstdLaws, !HeadJsonLaws}.
Context (now : Z).

(** A package's records are its events. *)
Lemma package_records_perm package records :
  package_records package = Ok records →
  records ≡ₚ map account_record (sg_accounts (pk_segment package)) ++
    map storage_record (sg_storage (pk_segment package)) ++ map code_record (sg_code (pk_segment package)).
Proof.
  unfold package_records. destruct (head _) as [first|]; [|done]. destruct (last _) as [stop|]; [|done].
  cbn [ok_or unwrap].
  destruct (try_fold _ _ ([], 0%N)) as [a1|] eqn:E1; [|done].
  destruct (try_fold _ _ a1) as [a2|] eqn:E2; [|done].
  destruct (try_fold _ _ a2) as [a3|] eqn:E3; [|done]. intros [= <-]. rewrite sort_by_perm.
  apply (try_fold_add account_record) in E1; [|intros x acc acc'; apply add_record_ok].
  apply (try_fold_add storage_record) in E2; [|intros x acc acc'; apply add_record_ok].
  apply (try_fold_add code_record) in E3; [|intros x acc acc'; destruct (_ || _); [done|]; apply add_record_ok].
  rewrite E3, E2, E1. simpl. by rewrite <-app_assoc.
Qed.

Lemma account_key_inj a a' : account_key a = account_key a' → a = a'.
Proof. intros [= E]. by apply arr_inj. Qed.

Lemma package_accounts package records r address :
  package_records package = Ok records → r ∈ records → rec_key r = account_key address →
  ∃ event, event ∈ sg_accounts (pk_segment package) ∧ ae_address event = address ∧ rec_block r = ae_block event.
Proof.
  intros Hp Hr Hk. rewrite (package_records_perm _ _ Hp), !elem_of_app in Hr.
  destruct Hr as [(e & -> & He)%list_elem_of_fmap|[(e & -> & He)%list_elem_of_fmap|(e & -> & He)%list_elem_of_fmap]]; [|done|done].
  exists e. apply account_key_inj in Hk. done.
Qed.

Lemma package_slots package records r address incarnation slot :
  package_records package = Ok records → r ∈ records → rec_key r = storage_key address incarnation slot →
  (incarnation <= u64_max)%N → Forall (λ e, (se_incarnation e <= u64_max)%N) (sg_storage (pk_segment package)) →
  ∃ event, event ∈ sg_storage (pk_segment package) ∧ se_address event = address ∧
    se_incarnation event = incarnation ∧ se_slot event = slot ∧ rec_block r = se_block event.
Proof.
  intros Hp Hr Hk Hi HF. rewrite (package_records_perm _ _ Hp), !elem_of_app in Hr. rewrite Forall_forall in HF.
  destruct Hr as [(e & -> & He)%list_elem_of_fmap|[(e & -> & He)%list_elem_of_fmap|(e & -> & He)%list_elem_of_fmap]]; [done| |done].
  exists e. specialize (HF e He).
  destruct (storage_key_inj _ _ _ _ _ _ HF Hi Hk) as (-> & -> & ->). done.
Qed.

(** An event no other event of the account follows up to [block]. *)
Definition newest_account (package : Package) (event : AccountEvent) (block : N) : Prop :=
  event ∈ sg_accounts (pk_segment package) ∧ (ae_block event <= block)%N ∧
  ∀ e, e ∈ sg_accounts (pk_segment package) → ae_address e = ae_address event → (ae_block e <= block)%N →
    (ae_block e <= ae_block event)%N.
Definition newest_slot (package : Package) (event : StorageEvent) (block : N) : Prop :=
  event ∈ sg_storage (pk_segment package) ∧ (se_block event <= block)%N ∧
  ∀ e, e ∈ sg_storage (pk_segment package) → se_address e = se_address event →
    se_incarnation e = se_incarnation event → se_slot e = se_slot event → (se_block e <= block)%N →
    (se_block e <= se_block event)%N.

Lemma published_records_state package records rss block r :
  package_records package = Ok records → history (concat (rss ++ [records])) → r ∈ records →
  (rec_block r <= block)%N →
  (∀ r', r' ∈ records → rec_key r' = rec_key r → (rec_block r' <= block)%N → (rec_block r' <= rec_block r)%N) →
  state_at (concat (rss ++ [records])) (rec_key r) block = Some (rec_value r).
Proof.
  intros Hp Hh Hr Hb Hmax. rewrite concat_app in *. simpl in *. rewrite app_nil_r in *.
  apply history_app in Hh as (_ & Hh & _). by rewrite state_at_app, state_at_newest.
Qed.

(** An account event that [AccountState::encode] can write. *)
Definition event_state (event : AccountEvent) : AccountState :=
  {| acc_exists := ae_exists event; acc_incarnation := ae_incarnation event;
     acc_nonce := ae_nonce event; acc_balance := ae_balance event; acc_code_hash := ae_code_hash event |}.
Definition at_block (block : N) (event : AccountEvent) : AccountEvent :=
  {| ae_block := block; ae_address := ae_address event; ae_exists := ae_exists event;
     ae_incarnation := ae_incarnation event; ae_nonce := ae_nonce event; ae_balance := ae_balance event;
     ae_code_hash := ae_code_hash event |}.

Lemma published_account package records rss number event block :
  package_records package = Ok records → history (concat (rss ++ [records])) → (block <= number)%N →
  newest_account package event block → wf_account (event_state event) →
  account_spec (concat (rss ++ [records])) number (ae_address event) block = Ok (Some (at_block block event)).
Proof.
  intros Hp Hh Hb (Hin & Hle & Hmax) Hw. unfold account_spec, lookup_spec. rewrite (proj2 (N.ltb_ge _ _)) by done.
  change (account_key (ae_address event)) with (rec_key (account_record event)).
  rewrite (published_records_state package records rss block (account_record event)); try done.
  - change (rec_value (account_record event)) with (AccountState_encode (event_state event)).
    by rewrite AccountState_decode_encode.
  - rewrite (package_records_perm _ _ Hp), elem_of_app. left. by apply list_elem_of_fmap_2.
  - intros r' Hr' Hk Hb'. destruct (package_accounts _ _ _ _ Hp Hr' Hk) as (e & He & Ha & Eb).
    rewrite Eb in *. by apply Hmax.
Qed.

Lemma published_slot package records rss number account event block :
  package_records package = Ok records → history (concat (rss ++ [records])) → (block <= number)%N →
  newest_account package account block → wf_account (event_state account) → ae_exists account = true →
  newest_slot package event block → se_address event = ae_address account →
  se_incarnation event = ae_incarnation account →
  Forall (λ e, (se_incarnation e <= u64_max)%N) (sg_storage (pk_segment package)) →
  storage_spec (concat (rss ++ [records])) number (ae_address account) (se_slot event) block = Ok (se_value event).
Proof.
  intros Hp Hh Hb Ha Hw Hex (Hin & Hle & Hmax) Ead Einc HF. unfold storage_spec.
  rewrite (published_account package records rss number account block) by done.
  cbn [at_block ae_exists ae_incarnation]. rewrite Hex, <-Ead, <-Einc.
  change (storage_key (se_address event) (se_incarnation event) (se_slot event)) with (rec_key (storage_record event)).
  rewrite (published_records_state package records rss block (storage_record event)); try done.
  - change (rec_value (storage_record event)) with (arr (se_value event)). by rewrite to_array_arr.
  - rewrite (package_records_perm _ _ Hp), !elem_of_app. right. left. by apply list_elem_of_fmap_2.
  - intros r' Hr' Hk Hb'.
    destruct (package_slots _ _ _ _ _ _ Hp Hr' Hk) as (e & He & E1 & E2 & E3 & Eb); [|done|].
    + rewrite Einc. apply Hw.
    + rewrite Eb in *. by apply Hmax.
Qed.

(** The code blobs of a package that was accepted are those of their hashes. *)
Lemma try_fold_forall {A B} (P : A → Prop) (step : A → B → result B) l acc acc' :
  (∀ x acc acc', step x acc = Ok acc' → P x) → try_fold step l acc = Ok acc' → Forall P l.
Proof.
  intros Hstep. revert acc; induction l as [|x l IH]; intros acc; simpl; [by constructor|].
  destruct (step x acc) as [acc1|] eqn:E; [|done]. intros Hl. constructor; [by eapply Hstep|by eapply IH].
Qed.
Lemma package_blobs package records :
  package_records package = Ok records →
  Forall (λ blob, (len (cb_bytes blob) <= MAX_CODE)%N ∧ keccak (cb_bytes blob) = cb_code_hash blob) (sg_code (pk_segment package)).
Proof.
  unfold package_records. destruct (head _) as [first|]; [|done]. destruct (last _) as [stop|]; [|done].
  cbn [ok_or unwrap].
  destruct (try_fold _ _ ([], 0%N)) as [a1|]; [|done]. destruct (try_fold _ _ a1) as [a2|]; [|done].
  destruct (try_fold _ _ a2) as [a3|] eqn:E3; [|done]. intros _. eapply try_fold_forall, E3.
  intros x acc acc'. cbv beta. destruct (_ || _) eqn:E; [done|]. intros _. bool_prop. done.
Qed.
Definition newest_code (package : Package) (blob : CodeBlob) (block : N) : Prop :=
  blob ∈ sg_code (pk_segment package) ∧ (cb_first_seen_block blob <= block)%N ∧
  ∀ c, c ∈ sg_code (pk_segment package) → cb_code_hash c = cb_code_hash blob → (cb_first_seen_block c <= block)%N →
    (cb_first_seen_block c <= cb_first_seen_block blob)%N.
Lemma package_codes package records r hash :
  package_records package = Ok records → r ∈ records → rec_key r = code_key hash →
  ∃ blob, blob ∈ sg_code (pk_segment package) ∧ cb_code_hash blob = hash ∧ rec_block r = cb_first_seen_block blob.
Proof.
  intros Hp Hr Hk. rewrite (package_records_perm _ _ Hp), !elem_of_app in Hr.
  destruct Hr as [(e & -> & He)%list_elem_of_fmap|[(e & -> & He)%list_elem_of_fmap|(e & -> & He)%list_elem_of_fmap]]; [done|done|].
  exists e. split; [done|]. split; [|done]. injection Hk as E. by apply arr_inj.
Qed.
Lemma published_code package records rss number account blob block :
  package_records package = Ok records → history (concat (rss ++ [records])) → (block <= number)%N →
  newest_account package account block → wf_account (event_state account) → ae_exists account = true →
  newest_code package blob block → cb_code_hash blob = ae_code_hash account → ae_code_hash account ≠ keccak [] →
  code_spec (concat (rss ++ [records])) number (ae_address account) block = Ok (cb_bytes blob).
Proof.
  intros Hp Hh Hb Ha Hw Hex (Hin & Hle & Hmax) Eh Hne. unfold code_spec.
  rewrite (published_account package records rss number account block) by done.
  cbn [at_block ae_exists ae_code_hash]. rewrite Hex, bool_decide_eq_false_2 by done. cbn [negb orb].
  pose proof (package_blobs _ _ Hp) as HF. rewrite Forall_forall in HF. destruct (HF blob Hin) as [Hl Hk].
  rewrite <-Eh. change (code_key (cb_code_hash blob)) with (rec_key (code_record blob)).
  rewrite (published_records_state package records rss block (code_record blob)); try done.
  - cbn [ok_or code_record rec_value]. by rewrite (proj2 (N.ltb_ge _ _)), bool_decide_eq_true_2 by done.
  - rewrite (package_records_perm _ _ Hp), !elem_of_app. right. right. by apply list_elem_of_fmap_2.
  - intros r' Hr' Hk' Hb'. destruct (package_codes _ _ _ _ Hp Hr' Hk') as (c & Hc & Ehc & Eb). rewrite Eb in *. by apply Hmax.
Qed.

(** What a package says about an account at a block of its range: the answers to
    the queries that its events determine. *)
Inductive says (package : Package) : Query → Answer → Prop :=
| says_account account block : newest_account package account block → wf_account (event_state account) →
    says package (QAccount (ae_address account) block) (AAccount (Some (at_block block account)))
| says_storage account event block : newest_account package account block → wf_account (event_state account) →
    ae_exists account = true → newest_slot package event block → se_address event = ae_address account →
    se_incarnation event = ae_incarnation account →
    says package (QStorage (ae_address account) (se_slot event) block) (AStorage (se_value event))
| says_code account blob block : newest_account package account block → wf_account (event_state account) →
    ae_exists account = true → newest_code package blob block → cb_code_hash blob = ae_code_hash account →
    ae_code_hash account ≠ keccak [] → says package (QCode (ae_address account) block) (ACode (cb_bytes blob))
| says_no_storage account slot block : newest_account package account block → wf_account (event_state account) →
    ae_exists account = false → says package (QStorage (ae_address account) slot block) (AStorage zero_hash)
| says_no_code account block : newest_account package account block → wf_account (event_state account) →
    ae_exists account = false ∨ ae_code_hash account = keccak [] →
    says package (QCode (ae_address account) block) (ACode []).
Definition query_block (q : Query) : N :=
  match q with QAccount _ block | QStorage _ _ block | QCode _ block => block end.

Lemma says_spec package records rss number q answer :
  package_records package = Ok records → history (concat (rss ++ [records])) →
  Forall (λ e, (se_incarnation e <= u64_max)%N) (sg_storage (pk_segment package)) →
  says package q answer → (query_block q <= number)%N → query_spec (concat (rss ++ [records])) number q = Ok answer.
Proof.
  intros Hp Hh Hinc Hq Hb. destruct Hq as [account block Ha Hw|account event block Ha Hw Hex Hs Ead Einc|
    account blob block Ha Hw Hex Hc Eh Hne|account slot block Ha Hw Hex|account block Ha Hw Hno]; cbn [query_block query_spec] in *.
  - by rewrite (published_account package records rss number account block).
  - by rewrite (published_slot package records rss number account event block).
  - by rewrite (published_code package records rss number account blob block).
  - unfold storage_spec. rewrite (published_account package records rss number account block) by done.
    cbn [at_block ae_exists]. by rewrite Hex.
  - unfold code_spec. rewrite (published_account package records rss number account block) by done.
    cbn [at_block ae_exists ae_code_hash]. destruct Hno as [->| ->]; [done|]. by rewrite bool_decide_eq_true_2, orb_true_r.
Qed.

(** C15: what a package says is what readers read.  After a successful [publish]
    of a package that was not yet the head, a reader opened on the store returns,
    for every account of the package and every block up to the end of its range, the account,
    storage and code that the newest events of the package up to the block say: in
    any sequence of requests, at any later moment of the store and whatever the
    shard cache evicts.  A read of storage or code can only fail in addition by the request budget, when
    the new head has more than 16 runs. *)
Theorem published_state_is_read `{ShardCache, !ShardCacheLaws} package gate s s' previous rss l :
  archive_of s (sg_chain_id (pk_segment package)) previous rss → wf_package package →
  (sg_end_block (pk_segment package) < u64_max)%N →
  Forall (λ e, (se_incarnation e <= u64_max)%N) (sg_storage (pk_segment package)) →
  (∀ h, previous = Some h → is_published h package = false) →
  run_prog (mem_handle now) (publish package gate) s = (Ok tt, s') →
  Forall (λ p, keeps s' p.1) l → StronglySorted (λ p p', keeps p.1 p'.1) l →
  ∃ h' rss' r c, archive s' (sg_chain_id (pk_segment package)) h' rss' ∧
    run_prog (mem_handle now) (Reader_open (sg_chain_id (pk_segment package))) s' = (Ok (r, c), s') ∧
    Forall2 (λ p a, ∀ answer, says package p.2 answer → (query_block p.2 <= sg_end_block (pk_segment package))%N →
      a = Ok answer ∨ (over_budget a ∧ (16 < len (runs h'))%N ∧ match p.2 with QAccount _ _ => False | _ => True end))
      l (session now r c l).
Proof.
  intros Ha Hw Hend Hinc Hnew He HF Hs.
  destruct (publish_ok now package gate s s' previous rss Ha Hw Hend He) as [_ [(h & -> & Hp & _)|Hpub]].
  { by rewrite (Hnew h eq_refl) in Hp. }
  destruct Hpub as (h' & records & Hrec & Ha' & Hnum & _).
  destruct (open_ok now s' _ h' _ Ha') as (r & c & Eo & Hpin & Hc).
  exists h', (rss ++ [records]), r, c. split; [done|]. split; [done|].
  pose proof (archive_history _ _ _ _ Ha') as Hh.
  pose proof (Forall2_length _ _ _ (pin_runs _ _ _ _ Hpin)) as E1.
  pose proof (Forall2_length _ _ _ (ar_runs _ _ _ _ Ha')) as E2.
  eapply Forall2_impl; [apply (session_ok now r h' _ l s' c Hpin); [unfold len; lia|done..]|].
  intros [t q] a Hans answer Hsays Hb. cbn [snd] in *. unfold answer_ok in Hans. rewrite <-Hnum in Hb.
  rewrite (says_spec package records rss (h_number h') q answer) in Hans by done. exact Hans.
Qed.

End packages.
