(* ===== verification/NormalizedFacts.v ===== *)
(** * What the package parser accepts

    [package_ok] says what a package is, without reference to the parser.
    [parse_records] only accepts such packages, and reads each of them back from
    the records [package_input] writes. *)

From S2P Require Import Prelude Bytes SortedLists Text Externals Hash Json Format FormatFacts Tiered Normalized.
From Stdlib Require Import Lia Sorting.Sorted.

(** ** The specification *)

Definition linked (a b : BlockMeta) : Prop :=
  bm_number b = (bm_number a + 1)%N ∧ bm_parent_hash b = bm_hash a.
Fixpoint chained (l : list BlockMeta) : Prop :=
  match l with
  | a :: ((b :: _) as l') => linked a b ∧ chained l'
  | _ => True
  end.

Definition account_order (e : AccountEvent) : N * Address20 := (ae_block e, ae_address e).
Definition slot_order (e : StorageEvent) : N * storage_order := (se_block e, storage_key_of e).

(** The fields of a block fit, and a tombstone has no state. *)
Definition wf_block (b : BlockMeta) : Prop := (bm_number b <= u64_max)%N ∧ (bm_timestamp b <= u64_max)%N.
Definition wf_account_event (e : AccountEvent) : Prop :=
  (ae_nonce e <= u64_max)%N ∧ (ae_incarnation e <= u64_max)%N ∧
  (ae_exists e = false → ae_nonce e = 0%N ∧ ae_balance e = zero_hash ∧ ae_code_hash e = zero_hash).

Section spec.
Context `{Sha256, Keccak256, Hex}.

Record package_ok (p : Package) : Prop := {
  po_schema : sg_schema (pk_segment p) = SEGMENT_SCHEMA;
  po_chain_id : (sg_chain_id (pk_segment p) <= u64_max)%N;
  po_preceding : ∀ n, pk_preceding_number p = Some n → (n <= u64_max)%N;
  po_blocks : Forall wf_block (sg_blocks (pk_segment p));
  po_chained : chained (sg_blocks (pk_segment p));
  po_ends : ∃ first stop, head (sg_blocks (pk_segment p)) = Some first ∧ last (sg_blocks (pk_segment p)) = Some stop ∧
    sg_start_block (pk_segment p) = bm_number first ∧ sg_end_block (pk_segment p) = bm_number stop ∧
    (bm_number first = 0%N → bm_hash first = sg_genesis_hash (pk_segment p)) ∧
    (pk_mode p = Delta → ∃ n, pk_preceding_number p = Some n ∧ bm_number first = (n + 1)%N ∧
       pk_preceding_hash p = Some (bm_parent_hash first));
  po_accounts : sorted_by account_order (sg_accounts (pk_segment p));
  po_account_events : Forall (λ e, ae_block e ∈ map bm_number (sg_blocks (pk_segment p)) ∧ wf_account_event e)
    (sg_accounts (pk_segment p));
  po_storage : sorted_by slot_order (sg_storage (pk_segment p));
  po_storage_events : Forall (λ e, se_block e ∈ map bm_number (sg_blocks (pk_segment p)) ∧ (se_incarnation e <= u64_max)%N)
    (sg_storage (pk_segment p));
  po_code : NoDup (map cb_code_hash (sg_code (pk_segment p)));
  po_code_order : StronglySorted (λ a b, (cb_first_seen_block a <= cb_first_seen_block b)%N) (sg_code (pk_segment p));
  po_code_blobs : Forall (λ c, cb_first_seen_block c ∈ map bm_number (sg_blocks (pk_segment p)) ∧
    keccak (cb_bytes c) = cb_code_hash c) (sg_code (pk_segment p))
}.

End spec.

(** ** Chains of blocks *)

Lemma chained_snoc l b : chained (l ++ [b]) ↔ chained l ∧ ∀ a, last l = Some a → linked a b.
Proof.
  induction l as [|x l IH]; [by simpl|]. destruct l as [|y l].
  - simpl. split; [intros [Hl _]; split; [done|]; by intros a [= <-]|intros [_ Hl]; split; [by apply Hl|done]].
  - change ((x :: y :: l) ++ [b]) with (x :: (y :: l) ++ [b]).
    change (last (x :: y :: l)) with (last (y :: l)).
    change (chained (x :: (y :: l) ++ [b])) with (linked x y ∧ chained ((y :: l) ++ [b])).
    change (chained (x :: y :: l)) with (linked x y ∧ chained (y :: l)). rewrite IH. tauto.
Qed.

Lemma chained_sorted l : chained l → sorted_by bm_number l.
Proof.
  induction l as [|b l IH] using rev_ind; intros Hc; [constructor|].
  apply chained_snoc in Hc as [Hc Hl]. apply sorted_snoc; [by apply IH|].
  intros a Ha. apply N_clt. destruct (Hl a Ha). lia.
Qed.

(** ** Events in order *)

(** Events sorted by block and key, of the blocks so far; [newest] is at least
    the key of every event of the open block. *)
Section tracked.
Context {A K : Type} `{CmpLaws K} (block : A → N) (key : A → K).

Record tracked (l : list A) (blocks : list BlockMeta) (current : option BlockMeta) (newest : option K) : Prop := {
  tr_sorted : sorted_by (λ a, (block a, key a)) l;
  tr_blocks : Forall (λ a, block a ∈ map bm_number (blocks ++ option_list current)) l;
  tr_newest : ∀ c a, current = Some c → a ∈ l → block a = bm_number c → ∃ k, newest = Some k ∧ cle (key a) k
}.

Lemma tracked_push l blocks c newest x :
  chained (blocks ++ [c]) → tracked l blocks (Some c) newest → block x = bm_number c →
  (∀ k, newest = Some k → clt k (key x)) → tracked (l ++ [x]) blocks (Some c) (Some (key x)).
Proof.
  intros Hc [Hs Hb Hn] Hx Hk. simpl in Hb.
  assert (∀ a, a ∈ l → clt (block a, key a) (block x, key x)) as Hlt.
  { intros a Ha. rewrite Forall_forall in Hb. pose proof (Hb a Ha) as Hin.
    rewrite map_app, elem_of_app in Hin. unfold clt, cmp, prod_cmp. simpl.
    assert (block a < block x ∨ block a = block x)%N as [Hlt|E].
    { rewrite Hx. destruct Hin as [Hin|Hin]; [left|right; set_solver].
      apply list_elem_of_fmap in Hin as (b & -> & Hbl). apply chained_sorted, sorted_app in Hc as (_ & _ & Hc).
      apply N_clt, Hc; [done|set_solver]. }
    - by rewrite (proj2 (N.compare_lt_iff _ _)).
    - unfold cmp at 1, N_cmp. rewrite E, N.compare_refl. destruct (Hn c a eq_refl Ha) as (k & Hk1 & Hle); [by rewrite E|].
      eapply cle_lt_trans; [exact Hle|]. by apply Hk. }
  split.
  - apply sorted_app. split_and!; [done|apply sorted_one|]. intros a y Ha ->%list_elem_of_singleton. by apply Hlt.
  - apply Forall_app. split; [done|]. constructor; [|done]. rewrite map_app, elem_of_app. right. simpl. set_solver.
  - intros c' a [= <-] Ha Hac. exists (key x). split; [done|].
    apply elem_of_app in Ha as [Ha|Ha%list_elem_of_singleton]; [|subst; apply cle_refl].
    destruct (Hn c a eq_refl Ha Hac) as (k & Hk1 & Hle). apply cle_lt_eq. left.
    eapply cle_lt_trans; [exact Hle|]. by apply Hk.
Qed.

Lemma tracked_open l blocks c newest newest' :
  chained (blocks ++ [c]) → tracked l blocks None newest → tracked l blocks (Some c) newest'.
Proof.
  intros Hc [Hs Hb _]. simpl in Hb. rewrite app_nil_r in Hb. split; [done| |].
  - eapply Forall_impl; [exact Hb|]. intros a Ha. simpl. rewrite map_app, elem_of_app. by left.
  - intros c' a [= <-] Ha E. rewrite Forall_forall in Hb. specialize (Hb a Ha).
    apply list_elem_of_fmap in Hb as (b & Eb & Hbl). apply chained_sorted, sorted_app in Hc as (_ & _ & Hc).
    specialize (Hc b c Hbl). rewrite N_clt in Hc. assert (bm_number b < bm_number c)%N by (apply Hc; set_solver).
    exfalso. congruence || lia.
Qed.

Lemma tracked_close l blocks c newest : tracked l blocks (Some c) newest → tracked l (blocks ++ [c]) None newest.
Proof. intros [Hs Hb _]. split; [done| |done]. simpl in *. by rewrite app_nil_r. Qed.

End tracked.

(** ** Soundness *)

Lemma in_blocks_le blocks c n : chained (blocks ++ [c]) → n ∈ map bm_number (blocks ++ [c]) → (n <= bm_number c)%N.
Proof.
  intros Hc. rewrite map_app, elem_of_app. intros [Hn|Hn]; [|set_solver].
  apply list_elem_of_fmap in Hn as (b & -> & Hb). apply chained_sorted, sorted_app in Hc as (_ & _ & Hc).
  specialize (Hc b c Hb). rewrite N_clt in Hc. apply N.lt_le_incl, Hc. set_solver.
Qed.

Section soundness.
Context `{Sha256, Keccak256, Hex}.
Implicit Types (h : PackageHeader) (st : ParserState).

Definition open_blocks (st : ParserState) : list BlockMeta := ps_blocks st ++ option_list (ps_current st).

(** The invariant of the loop over the records. *)
Record parsing h st : Prop := {
  pi_chained : chained (open_blocks st);
  pi_blocks : Forall wf_block (open_blocks st);
  pi_first : ∀ first, head (open_blocks st) = Some first → ph_mode h = Delta →
    bm_parent_hash first = default zero_hash (ph_preceding_hash h);
  pi_accounts : tracked ae_block ae_address (ps_accounts st) (ps_blocks st) (ps_current st) (ps_last_account st);
  pi_account_events : Forall wf_account_event (ps_accounts st);
  pi_storage : tracked se_block storage_key_of (ps_storage st) (ps_blocks st) (ps_current st) (ps_last_storage st);
  pi_storage_events : Forall (λ e, (se_incarnation e <= u64_max)%N) (ps_storage st);
  pi_code_hashes : ∀ c, c ∈ ps_code st → cb_code_hash c ∈ ps_code_hashes st;
  pi_code : NoDup (map cb_code_hash (ps_code st));
  pi_code_order : StronglySorted (λ a b, (cb_first_seen_block a <= cb_first_seen_block b)%N) (ps_code st);
  pi_code_blobs : Forall (λ c, cb_first_seen_block c ∈ map bm_number (open_blocks st) ∧
    keccak (cb_bytes c) = cb_code_hash c) (ps_code st)
}.

Lemma parsing_start h : parsing h parser_start.
Proof.
  split; simpl; try done; try (split; simpl; [constructor|constructor|done]); try constructor. set_solver.
Qed.

Lemma checked_current_ok current s n :
  checked_current current s = Ok n → ∃ c, current = Some c ∧ bm_number c = n.
Proof.
  unfold checked_current. destruct (parse_quantity s) as [m|]; [|done]. case_bool_decide as E; [|done].
  intros [= <-]. destruct current as [c|]; [|done]. injection E as E. by exists c.
Qed.

Lemma parse_block_parsing h number hash parent root timestamp st st' :
  parse_block h number hash parent root timestamp st = Ok st' → parsing h st → parsing h st'.
Proof.
  unfold parse_block. case_bool_decide as Ec; [done|]. apply eq_None_not_Some in Ec.
  destruct (parse_quantity number) as [n|] eqn:En; [|done].
  match goal with |- match ?c with Ok _ => _ | Err _ => _ end = _ → _ => destruct c as [u|] eqn:El; [|done] end.
  destruct (parse_quantity timestamp) as [t|] eqn:Et; [|done]. intros [= <-] Hp.
  set (c := {| bm_number := n; bm_hash := hash; bm_parent_hash := parent; bm_state_root := root; bm_timestamp := t |}).
  destruct Hp as [Hc Hb Hf Ha Hae Hs Hse Hh Hnd Ho Hcb]. unfold open_blocks in *. rewrite Ec in *. simpl in *.
  rewrite app_nil_r in *.
  assert (chained (ps_blocks st ++ [c])) as Hc'.
  { apply chained_snoc. split; [done|]. intros a Hl. rewrite Hl in El. case_bool_decide as E1; [|done].
    case_bool_decide as E2; [|done]. unfold checked_add in E1. destruct (_ <=? _)%N; [|done]. by injection E1 as <-. }
  split; unfold open_blocks; simpl; try done.
  - apply Forall_app. split; [done|]. constructor; [|done]. split; simpl; by eapply parse_quantity_le.
  - intros first Hfirst Hm. destruct (ps_blocks st) as [|b bs]; [|by apply Hf].
    injection Hfirst as <-. simpl in El. rewrite Hm in El. simpl in El. by case_bool_decide.
  - by eapply tracked_open.
  - by eapply tracked_open.
  - eapply Forall_impl; [exact Hcb|]. intros b [Hb1 Hb2]. split; [|done]. rewrite map_app, elem_of_app. by left.
Qed.

Lemma account_fields_ok e n b c fields :
  account_fields e n b c = Ok fields →
  (fields.1.1 <= u64_max)%N ∧ (e = false → fields = (0%N, zero_hash, zero_hash)).
Proof.
  unfold account_fields. destruct e.
  - destruct n as [n|]; [|done]. cbn [ok_or]. destruct (parse_quantity n) eqn:En; [|done].
    destruct b as [b|]; [|done]. cbn [ok_or]. destruct (parse_u256 b); [|done]. destruct c as [c|]; [|done].
    cbn [ok_or]. intros [= <-]. split; [|done]. simpl. by eapply parse_quantity_le.
  - destruct (_ || _); [done|]. by intros [= <-].
Qed.

Lemma parse_account_parsing h block address e incarnation nonce balance code_hash st st' :
  parse_account block address e incarnation nonce balance code_hash st = Ok st' → parsing h st → parsing h st'.
Proof.
  unfold parse_account. destruct (checked_current _ _) as [n|] eqn:En; [|done].
  match goal with |- (if ?c then _ else _) = _ → _ => destruct c eqn:El; [done|] end. case_bool_decide; [done|].
  destruct (account_fields _ _ _ _) as [[[no ba] co]|] eqn:Ef; [|done].
  destruct (parse_quantity incarnation) as [i|] eqn:Ei; [|done]. intros [= <-] Hp.
  apply checked_current_ok in En as (c & Ec & En). destruct (account_fields_ok _ _ _ _ _ Ef) as [Hno Hdead].
  destruct Hp as [Hc Hb Hf Ha Hae Hs Hse Hh Hnd Ho Hcb].
  split; simpl; try done.
  - unfold open_blocks in Hc. rewrite Ec in *. eapply tracked_push; [exact Hc|exact Ha|done|].
    intros k Hk. rewrite Hk in El. by apply leb_false.
  - apply Forall_app. split; [done|]. constructor; [|done]. split_and!; simpl; [done|by eapply parse_quantity_le|].
    intros He. by injection (Hdead He).
Qed.

Lemma parse_storage_parsing h block address incarnation slot value st st' :
  parse_storage block address incarnation slot value st = Ok st' → parsing h st → parsing h st'.
Proof.
  unfold parse_storage. destruct (checked_current _ _) as [n|] eqn:En; [|done].
  destruct (parse_quantity incarnation) as [i|] eqn:Ei; [|done].
  match goal with |- (if ?c then _ else _) = _ → _ => destruct c eqn:El; [done|] end. case_bool_decide; [done|].
  intros [= <-] Hp. apply checked_current_ok in En as (c & Ec & En).
  destruct Hp as [Hc Hb Hf Ha Hae Hs Hse Hh Hnd Ho Hcb].
  split; simpl; try done.
  - unfold open_blocks in Hc. rewrite Ec in *.
    eapply (tracked_push se_block storage_key_of _ _ _ _
      {| se_block := n; se_address := address; se_incarnation := i; se_slot := slot; se_value := value |});
      [exact Hc|exact Hs|done|].
    intros k Hk. rewrite Hk in El. by apply leb_false.
  - apply Forall_app. split; [done|]. constructor; [|done]. by eapply parse_quantity_le.
Qed.

Lemma parse_code_parsing h code_hash b st st' : parse_code code_hash b st = Ok st' → parsing h st → parsing h st'.
Proof.
  unfold parse_code. destruct (ps_current st) as [c|] eqn:Ec; [|done]. cbn [ok_or].
  destruct (parse_data b) as [code|]; [|done]. case_bool_decide as Ek; [|done]. case_bool_decide as Eh; [done|].
  intros [= <-] Hp. destruct Hp as [Hc Hb Hf Ha Hae Hs Hse Hh Hnd Ho Hcb]. unfold open_blocks in *. rewrite Ec in *.
  split; unfold open_blocks; simpl; rewrite ?Ec; try done.
  - intros x [Hx|Hx]%elem_of_app; [right; by apply Hh|set_solver].
  - rewrite map_app. apply NoDup_app. split_and!; [done| |apply NoDup_singleton].
    intros x (d & -> & Hd)%list_elem_of_fmap Hx%list_elem_of_singleton. apply Eh. simpl in Hx. rewrite <-Hx. by apply Hh.
  - apply StronglySorted_app. split_and!; [done|repeat constructor|]. intros x y Hx ->%list_elem_of_singleton. simpl.
    rewrite Forall_forall in Hcb. destruct (Hcb x Hx) as [Hin _]. by eapply in_blocks_le.
  - apply Forall_app. split; [done|]. constructor; [|done]. split; [|done]. simpl. rewrite map_app, elem_of_app. set_solver.
Qed.

Lemma parse_block_end_parsing h number expected st st' :
  parse_block_end number expected st = Ok st' → parsing h st → parsing h st'.
Proof.
  unfold parse_block_end. destruct (checked_current _ _) as [n|] eqn:En; [|done].
  destruct (parse_quantity expected); [|done]. destruct (negb _); [done|].
  apply checked_current_ok in En as (c & Ec & En). rewrite Ec. cbn [ok_or]. intros [= <-] Hp.
  destruct Hp as [Hc Hb Hf Ha Hae Hs Hse Hh Hnd Ho Hcb]. unfold open_blocks in *. rewrite Ec in *. simpl in *.
  split; unfold open_blocks; simpl; rewrite ?app_nil_r; try done; by eapply tracked_close.
Qed.

Lemma parse_trailer_parsing h number hash count st st' :
  parse_trailer number hash count st = Ok st' → parsing h st → parsing h st'.
Proof.
  unfold parse_trailer. case_bool_decide; [done|]. destruct (parse_quantity number); [|done].
  destruct (parse_quantity count); [|done]. intros [= <-] [Hc Hb Hf Ha Hae Hs Hse Hh Hnd Ho Hcb]. by split.
Qed.

Lemma parse_record_parsing h r st st' : parse_record h r st = Ok st' → parsing h st → parsing h st'.
Proof.
  unfold parse_record. case_bool_decide; [done|]. destruct r; [done|..];
    eauto using parse_block_parsing, parse_account_parsing, parse_storage_parsing, parse_code_parsing,
      parse_block_end_parsing, parse_trailer_parsing.
Qed.

(** A successful fold keeps what each step keeps. *)
Lemma try_fold_keeps {A B} (P : B → Prop) (step : A → B → result B) l b b' :
  (∀ a b b', step a b = Ok b' → P b → P b') → try_fold step l b = Ok b' → P b → P b'.
Proof.
  intros Hstep. revert b; induction l as [|a l IH]; intros b; simpl; [by intros [= <-]|].
  destruct (step a b) as [b1|] eqn:E; [|done]. intros Hl Hb. eapply IH; [exact Hl|]. by eapply Hstep.
Qed.

Lemma parse_optional_le o r n : parse_optional o = Ok r → r = Some n → (n <= u64_max)%N.
Proof.
  destruct o as [s|]; simpl; [|by intros [= <-]]. destruct (parse_quantity s) eqn:E; [|done].
  intros [= <-] [= <-]. by eapply parse_quantity_le.
Qed.

Lemma parse_header_ok r h :
  parse_header r = Ok h →
  (ph_chain_id h <= u64_max)%N ∧ (∀ n, ph_preceding_number h = Some n → (n <= u64_max)%N).
Proof.
  destruct r; try done. unfold parse_header. case_bool_decide; [|done]. simpl.
  match goal with |- match ?c with Ok _ => _ | Err _ => _ end = _ → _ => destruct c; [|done] end.
  destruct (parse_quantity chain_id) eqn:Ec; [|done]. destruct (parse_optional anchor_number); [|done].
  destruct (parse_optional preceding_number) eqn:Ep; [|done]. intros [= <-]. simpl.
  split; [by eapply parse_quantity_le|]. intros n Hn. by eapply parse_optional_le.
Qed.

Lemma finish_package_ok h sha st p :
  finish_package h sha st = Ok p → parsing h st → header_ok h = Ok tt → ps_current st = None →
  (ph_chain_id h <= u64_max)%N → (∀ n, ph_preceding_number h = Some n → (n <= u64_max)%N) → package_ok p ∧ pk_input_sha256 p = sha.
Proof.
  unfold finish_package. destruct (ps_trailer st) as [[[tn th] tc]|]; [|done]. cbn [ok_or].
  destruct (head (ps_blocks st)) as [first|] eqn:Ef; [|done]. cbn [ok_or].
  destruct (last (ps_blocks st)) as [stop|] eqn:El; [|done]. cbn [unwrap].
  do 4 match goal with |- (if ?c then _ else _) = _ → _ => destruct c eqn:?E; [done|] end.
  intros [= <-] [Hc Hb Hf Ha Hae Hs Hse Hh Hnd Ho Hcb] Hok Hcur Hchain Hprec.
  unfold open_blocks in *. rewrite Hcur in *. simpl in *. rewrite app_nil_r in *.
  destruct Ha as [Ha Hab _], Hs as [Hs Hsb _]. simpl in Hab, Hsb. rewrite app_nil_r in Hab, Hsb.
  split; [|done]. split; simpl; try done.
  - exists first, stop. split_and!; try done.
    + intros Hz. apply N.eqb_eq in Hz. rewrite Hz in E1. simpl in E1. by apply negb_false_iff, bool_decide_eq_true in E1.
    + intros Hm. rewrite Hm in E2. simpl in E2. unfold header_ok in Hok. rewrite Hm in Hok.
      destruct (ph_preceding_number h) as [n|]; [|done]. destruct (ph_preceding_hash h) as [ph|] eqn:Eh; [|done].
      exists n. split_and!; [done| |].
      * apply negb_false_iff, bool_decide_eq_true in E2. unfold checked_add in E2. destruct (_ <=? _)%N; [|done].
        by injection E2 as <-.
      * by rewrite (Hf first Ef Hm).
  - apply Forall_and. split; [exact Hab|exact Hae].
  - apply Forall_and. split; [exact Hsb|exact Hse].
Qed.

(** A trailer ends the last block. *)
Lemma parse_record_trailer h r st st' :
  parse_record h r st = Ok st' → (is_Some (ps_trailer st) → ps_current st = None) →
  is_Some (ps_trailer st') → ps_current st' = None.
Proof.
  unfold parse_record. case_bool_decide as Ht; [done|]. intros Hr _ Ht'. destruct r; [done|..];
    cbv [parse_block parse_account parse_storage parse_code parse_block_end parse_trailer] in Hr;
    repeat match goal with
    | H : match ?c with Ok _ => _ | Err _ => _ end = Ok _ |- _ => destruct c; [|done]
    | H : (if ?c then _ else _) = Ok _ |- _ => destruct c eqn:?; [done|]
    | H : context [let '(_, _) := ?p in _] |- _ => destruct p
    end; injection Hr as <-; simpl in *; try done.
  match goal with H : bool_decide (is_Some (ps_current st)) = false |- _ =>
    apply bool_decide_eq_false in H; by apply eq_None_not_Some in H end.
Qed.

Lemma parse_records_sound records sha p : parse_records records sha = Ok p → package_ok p ∧ pk_input_sha256 p = sha.
Proof.
  unfold parse_records. destruct (_ <? _)%N; [done|]. destruct records as [|first records]; [done|].
  destruct (parse_header first) as [h|] eqn:Eh; [|done]. destruct (header_ok h) as [[]|] eqn:Ek; [|done].
  destruct (try_fold _ _ _) as [st|] eqn:Ef; [|done]. intros Hp.
  apply parse_header_ok in Eh as [Hc Hn]. eapply finish_package_ok; try done.
  - eapply (try_fold_keeps (parsing h)); [|exact Ef|apply parsing_start]. eauto using parse_record_parsing.
  - assert (is_Some (ps_trailer st)) as Ht.
    { unfold finish_package in Hp. by destruct (ps_trailer st). }
    revert Ht. eapply (try_fold_keeps (λ st, is_Some (ps_trailer st) → ps_current st = None)); [|exact Ef|done].
    eauto using parse_record_trailer.
Qed.

End soundness.
