(* ===== verification/PackageInput.v ===== *)
(** * Writing a package as records

    [package_input] writes a package the way exporters do: a header, each block
    with its accounts, slots and code, and a trailer.  [parse_records] reads every
    well-formed package back. *)

From S2P Require Import Prelude Bytes SortedLists Text Externals Hash Json Format FormatFacts Tiered Normalized NormalizedFacts.
From Stdlib Require Import Lia Sorting.Sorted.

Section input.
Context `{Sha256, Keccak256, Hex}.

Definition live_field {A} (e : AccountEvent) (a : A) : option A := if ae_exists e then Some a else None.
Definition account_input (e : AccountEvent) : InputRecord :=
  InAccount (quantity (ae_block e)) (ae_address e) (ae_exists e) (quantity (ae_incarnation e))
    (live_field e (quantity (ae_nonce e))) (live_field e (quantity_u256 (ae_balance e)))
    (live_field e (ae_code_hash e)).
Definition storage_input (e : StorageEvent) : InputRecord :=
  InStorage (quantity (se_block e)) (se_address e) (quantity (se_incarnation e)) (se_slot e) (se_value e).
Definition code_input (c : CodeBlob) : InputRecord := InCode (cb_code_hash c) ("0x" +:+ hex_encode (cb_bytes c)).

(** The events of one block. *)
Definition accounts_of (s : Segment) (n : N) : list AccountEvent := filter (λ e, ae_block e = n) (sg_accounts s).
Definition storage_of (s : Segment) (n : N) : list StorageEvent := filter (λ e, se_block e = n) (sg_storage s).
Definition code_of (s : Segment) (n : N) : list CodeBlob := filter (λ c, cb_first_seen_block c = n) (sg_code s).
Definition events_of (s : Segment) (n : N) : N := (len (accounts_of s n) + len (storage_of s n) + len (code_of s n))%N.

Definition block_open (b : BlockMeta) : InputRecord :=
  InBlock (quantity (bm_number b)) (bm_hash b) (bm_parent_hash b) (bm_state_root b) (quantity (bm_timestamp b)).
Definition block_input (s : Segment) (b : BlockMeta) : list InputRecord :=
  block_open b ::
  map account_input (accounts_of s (bm_number b)) ++ map storage_input (storage_of s (bm_number b)) ++
  map code_input (code_of s (bm_number b)) ++
  [InBlockEnd (quantity (bm_number b)) (quantity (events_of s (bm_number b)))].

Definition package_header (p : Package) (first : BlockMeta) : PackageHeader :=
  {| ph_chain_id := sg_chain_id (pk_segment p); ph_genesis_hash := sg_genesis_hash (pk_segment p);
     ph_mode := pk_mode p;
     ph_anchor_number := match pk_mode p with Anchor => Some (bm_number first) | Delta => None end;
     ph_anchor_hash := match pk_mode p with Anchor => Some (bm_hash first) | Delta => None end;
     ph_preceding_number := pk_preceding_number p; ph_preceding_hash := pk_preceding_hash p |}.
Definition header_input (h : PackageHeader) : InputRecord :=
  InHeader SCHEMA (quantity (ph_chain_id h)) (ph_genesis_hash h)
    (match ph_mode h with Anchor => "anchor" | Delta => "delta" end)
    (quantity <$> ph_anchor_number h) (ph_anchor_hash h) (quantity <$> ph_preceding_number h) (ph_preceding_hash h).
Definition trailer_input (s : Segment) (stop : BlockMeta) : InputRecord :=
  InTrailer (quantity (bm_number stop)) (bm_hash stop) (quantity (len (sg_blocks s))).

Definition package_input (p : Package) : list InputRecord :=
  match head (sg_blocks (pk_segment p)), last (sg_blocks (pk_segment p)) with
  | Some first, Some stop =>
      header_input (package_header p first) :: concat (map (block_input (pk_segment p)) (sg_blocks (pk_segment p)))
      ++ [trailer_input (pk_segment p) stop]
  | _, _ => []
  end.

End input.

(** ** Splitting events by block *)

Lemma by_blocks {A} (block : A → N) (blocks : list BlockMeta) (l : list A) :
  sorted_by bm_number blocks → StronglySorted (λ a b, (block a <= block b)%N) l →
  Forall (λ a, block a ∈ map bm_number blocks) l →
  concat (map (λ b, filter (λ a, block a = bm_number b) l) blocks) = l.
Proof.
  revert l; induction blocks as [|b bs IH]; intros l Hb Hl HF; simpl.
  { destruct l as [|a l]; [done|]. apply Forall_cons in HF as [HF _]. set_solver. }
  apply sorted_cons in Hb as [Hbs Hb].
  assert (∀ k, Forall (λ a, block a ∈ map bm_number (b :: bs)) k → StronglySorted (λ a b, (block a <= block b)%N) k →
    k = filter (λ a, block a = bm_number b) k ++ filter (λ a, block a ≠ bm_number b) k) as Hsplit.
  { clear l Hl HF. intros k HF Hk. induction Hk as [|a k Hk IHk Ha]; [done|]. apply Forall_cons in HF as [Hin HF].
    destruct (decide (block a = bm_number b)) as [E|E].
    - rewrite filter_cons_True, (filter_cons_False _ a) by (try done; naive_solver). simpl. f_equal. by apply IHk.
    - rewrite (filter_cons_False _ a), (filter_cons_True _ a) by done.
      assert (bm_number b < block a)%N as Hlt.
      { simpl in Hin. apply elem_of_cons in Hin as [?|Hin]; [done|].
        apply list_elem_of_fmap in Hin as (c & -> & Hc). by apply N_clt, Hb. }
      assert (filter (λ a, block a = bm_number b) k = []) as E0.
      { apply filter_none. intros x Hx Hxb. rewrite Forall_forall in Ha. specialize (Ha x Hx). lia. }
      rewrite E0 in *. simpl in *. f_equal. by apply IHk. }
  etransitivity; [|symmetry; exact (Hsplit l HF Hl)]. f_equal.
  etransitivity; [|apply (IH (filter (λ a, block a ≠ bm_number b) l)); [done| |]].
  - f_equal. apply map_ext_in. intros c Hc%list_elem_of_In. rewrite list_filter_filter. apply list_filter_iff.
    intros a. split; [|by intros [? _]]. intros E. split; [done|]. rewrite E. specialize (Hb c Hc). rewrite N_clt in Hb. lia.
  - clear -Hl. induction Hl as [|a l Hl IH Ha]; [constructor|]. rewrite filter_cons. case_decide; [|done].
    constructor; [done|]. apply Forall_forall. intros x [_ Hx]%list_elem_of_filter. rewrite Forall_forall in Ha. by apply Ha.
  - apply Forall_forall. intros a [Ha Hin]%list_elem_of_filter. rewrite Forall_forall in HF. specialize (HF a Hin).
    simpl in HF. set_solver.
Qed.

Lemma sorted_blocks {A K} `{Cmp K} (block : A → N) (key : A → K) l :
  sorted_by (λ a, (block a, key a)) l → StronglySorted (λ a b, (block a <= block b)%N) l.
Proof.
  induction 1 as [|a l Hl IH Ha]; constructor; [done|]. eapply Forall_impl; [exact Ha|]. intros b Hab.
  unfold clt, cmp, prod_cmp in Hab. simpl in Hab. unfold cmp at 1, N_cmp in Hab.
  destruct (N.compare_spec (block a) (block b)); [lia|lia|done].
Qed.

(** The keys of one block's events are sorted. *)
Lemma sorted_block_keys {A K} `{Cmp K} (block : A → N) (key : A → K) l n :
  sorted_by (λ a, (block a, key a)) l → sorted_by key (filter (λ a, block a = n) l).
Proof.
  induction 1 as [|a l Hl IH Ha]; [constructor|]. rewrite filter_cons. case_decide as E; [|done].
  constructor; [done|]. apply Forall_forall. intros b [Hb Hin]%list_elem_of_filter. rewrite Forall_forall in Ha.
  specialize (Ha b Hin). unfold clt, cmp, prod_cmp in Ha. simpl in Ha. unfold cmp at 1, N_cmp in Ha.
  by rewrite E, Hb, N.compare_refl in Ha.
Qed.

(** ** Reading a block *)

(** A fold whose steps succeed while the remaining list satisfies [I]. *)
Lemma try_fold_push {A B C} (I : list C → B → Prop) (step : A → B → result B) (f : C → A) (push : C → B → B) :
  (∀ x l b, I (x :: l) b → step (f x) b = Ok (push x b) ∧ I l (push x b)) →
  ∀ l b, I l b → try_fold step (map f l) b = Ok (fold_left (λ b x, push x b) l b).
Proof.
  intros Hstep. induction l as [|x l IH]; intros b Hb; simpl; [done|].
  destruct (Hstep x l b Hb) as [-> Hl]. by apply IH.
Qed.
Lemma try_fold_app {A B} (step : A → B → result B) l k b b' :
  try_fold step l b = Ok b' → try_fold step (l ++ k) b = try_fold step k b'.
Proof.
  revert b; induction l as [|x l IH]; intros b; simpl; [by intros [= ->]|].
  destruct (step x b) as [b1|]; [|done]. apply IH.
Qed.

Section reading.
Context `{Sha256, Keccak256, Hex, !HexLaws, !HexCanon}.
Implicit Types (h : PackageHeader) (st : ParserState).

(** Keys seen in this block are at most the last one. *)
Definition seen_below {K} `{Cmp K} (keys : list K) (newest : option K) : Prop :=
  ∀ k, k ∈ keys → ∃ n, newest = Some n ∧ cle k n.

(** What the steps of one block rely on. *)
Record in_block (c : BlockMeta) st : Prop := {
  ib_trailer : ps_trailer st = None;
  ib_current : ps_current st = Some c;
  ib_number : (bm_number c <= u64_max)%N;
  ib_accounts : seen_below (ps_account_keys st) (ps_last_account st);
  ib_storage : seen_below (ps_storage_keys st) (ps_last_storage st)
}.

Definition above {A K} `{Cmp K} (key : A → K) (newest : option K) (l : list A) : Prop :=
  sorted_by key l ∧ ∀ x k, x ∈ l → newest = Some k → clt k (key x).

Lemma above_push {A K} `{CmpLaws K} (key : A → K) newest x l :
  above key newest (x :: l) → above key (Some (key x)) l ∧ ∀ k, newest = Some k → clt k (key x).
Proof.
  intros [Hs Hn]. apply sorted_cons in Hs as [Hs Hx]. split; [|intros; apply Hn; set_solver].
  split; [done|]. intros y k Hy Hk. injection Hk as <-. by apply Hx.
Qed.

Lemma seen_push {K} `{CmpLaws K} keys newest (k : K) :
  seen_below keys newest → (∀ n, newest = Some n → clt n k) → seen_below (k :: keys) (Some k) ∧ k ∉ keys.
Proof.
  intros Hs Hn. split.
  - intros x [->|Hx]%elem_of_cons; eexists; (split; [done|]); [apply cle_refl|].
    destruct (Hs x Hx) as (n & -> & Hle). apply cle_lt_eq. left. eapply cle_lt_trans; [done|by apply Hn].
  - intros Hk. destruct (Hs k Hk) as (n & -> & Hle). specialize (Hn n eq_refl). by apply clt_not_cle in Hn.
Qed.

Lemma checked_current_quantity c : (bm_number c <= u64_max)%N → checked_current (Some c) (quantity (bm_number c)) = Ok (bm_number c).
Proof. intros Hn. unfold checked_current. rewrite parse_quantity_quantity by done. by rewrite bool_decide_eq_true_2. Qed.

Lemma newest_below {K} `{CmpLaws K} (newest : option K) k :
  (∀ n, newest = Some n → clt n k) → match newest with Some n => Bytes.leb k n | None => false end = false.
Proof. intros Hn. destruct newest as [n|]; [|done]. by apply leb_false, Hn. Qed.

Lemma read_accounts h c l st :
  in_block c st → Forall (λ e, ae_block e = bm_number c ∧ wf_account_event e) l → above ae_address (ps_last_account st) l →
  let st' := fold_left (λ st e, push_account e st) l st in
  try_fold (parse_record h) (map account_input l) st = Ok st'.
Proof.
  intros Hi HF Ha. simpl. eapply (try_fold_push (λ l st, in_block c st ∧
    Forall (λ e, ae_block e = bm_number c ∧ wf_account_event e) l ∧ above ae_address (ps_last_account st) l)); [|done].
  clear Hi HF Ha l st. intros e l st ([Ht Hc Hn Hak Hsk] & [[He (Hno & Hin & Hdead)] HF]%Forall_cons & Ha).
  apply above_push in Ha as [Ha Hlast]. destruct (seen_push _ _ _ Hak Hlast) as [Hak' Hnew].
  split; [|by split_and!; [split|..]].
  unfold parse_record, account_input, parse_account. rewrite Ht, bool_decide_eq_false_2 by (intros []; done).
  rewrite He, Hc, checked_current_quantity by done. rewrite newest_below by done.
  rewrite (bool_decide_eq_false_2 _ Hnew). unfold account_fields, live_field.
  destruct (ae_exists e) eqn:Ex; cbn [ok_or].
  - rewrite !parse_quantity_quantity, parse_u256_quantity by done. f_equal. f_equal. destruct e; simpl in *. by subst.
  - destruct (Hdead eq_refl) as (E1 & E2 & E3). rewrite parse_quantity_quantity by done. simpl. f_equal. f_equal.
    destruct e; simpl in *. by subst.
Qed.

Lemma read_storage h c l st :
  in_block c st → Forall (λ e, se_block e = bm_number c ∧ (se_incarnation e <= u64_max)%N) l →
  above storage_key_of (ps_last_storage st) l →
  try_fold (parse_record h) (map storage_input l) st = Ok (fold_left (λ st e, push_storage e st) l st).
Proof.
  intros Hi HF Ha. eapply (try_fold_push (λ l st, in_block c st ∧
    Forall (λ e, se_block e = bm_number c ∧ (se_incarnation e <= u64_max)%N) l ∧ above storage_key_of (ps_last_storage st) l)); [|done].
  clear Hi HF Ha l st. intros e l st ([Ht Hc Hn Hak Hsk] & [[He Hin] HF]%Forall_cons & Ha).
  apply above_push in Ha as [Ha Hlast]. destruct (seen_push _ _ _ Hsk Hlast) as [Hsk' Hnew].
  split; [|by split_and!; [split|..]].
  unfold parse_record, storage_input, parse_storage. rewrite Ht, bool_decide_eq_false_2 by (intros []; done).
  rewrite He, Hc, checked_current_quantity, parse_quantity_quantity by done.
  change (se_address e, se_incarnation e, se_slot e) with (storage_key_of e).
  rewrite newest_below by done. rewrite (bool_decide_eq_false_2 _ Hnew). f_equal. f_equal. destruct e; simpl in *. by subst.
Qed.

Lemma read_code h c l st :
  in_block c st → Forall (λ b, cb_first_seen_block b = bm_number c ∧ keccak (cb_bytes b) = cb_code_hash b) l →
  NoDup (map cb_code_hash l) → (∀ b, b ∈ l → cb_code_hash b ∉ ps_code_hashes st) →
  try_fold (parse_record h) (map code_input l) st = Ok (fold_left (λ st b, push_code b st) l st).
Proof.
  intros Hi HF Hd Hh. eapply (try_fold_push (λ l st, in_block c st ∧
    Forall (λ b, cb_first_seen_block b = bm_number c ∧ keccak (cb_bytes b) = cb_code_hash b) l ∧
    NoDup (map cb_code_hash l) ∧ (∀ b, b ∈ l → cb_code_hash b ∉ ps_code_hashes st))); [|done].
  clear Hi HF Hd Hh l st. intros b l st ([Ht Hc Hn Hak Hsk] & [[He Hk] HF]%Forall_cons & [Hb Hd]%NoDup_cons & Hh). split.
  - unfold parse_record, code_input, parse_code. rewrite Ht, bool_decide_eq_false_2 by (intros []; done).
    rewrite Hc. cbn [ok_or]. rewrite parse_data_encode, bool_decide_eq_true_2 by done. simpl.
    rewrite bool_decide_eq_false_2 by (apply Hh; set_solver). f_equal. f_equal. destruct b; simpl in *. by subst.
  - split_and!; [by split|done|done|]. intros x Hx. simpl. rewrite not_elem_of_cons. split; [|apply Hh; set_solver].
    intros E. apply Hb. rewrite <-E. by apply list_elem_of_fmap_2.
Qed.

(** The fields after a list of events. *)
Lemma add_mod_one n : (wrapping_add64 n 1 mod (u64_max + 1) = (n + 1) mod (u64_max + 1))%N.
Proof. apply N.Div0.mod_mod. Qed.

Lemma wrapping_le n k : (wrapping_add64 n k <= u64_max)%N.
Proof. unfold wrapping_add64. pose proof (N.mod_lt (n + k) (u64_max + 1)). unfold u64_max in *. lia. Qed.

Record pushed (st st' : ParserState) (a : list AccountEvent) (s : list StorageEvent) (c : list CodeBlob) : Prop := {
  pu_blocks : ps_blocks st' = ps_blocks st;
  pu_accounts : ps_accounts st' = ps_accounts st ++ a;
  pu_storage : ps_storage st' = ps_storage st ++ s;
  pu_code : ps_code st' = ps_code st ++ c;
  pu_current : ps_current st' = ps_current st;
  pu_count : (ps_event_count st' mod (u64_max + 1) = (ps_event_count st + (len a + len s + len c)) mod (u64_max + 1))%N;
  pu_count_le : (ps_event_count st <= u64_max → ps_event_count st' <= u64_max)%N;
  pu_hashes : ∀ x, x ∈ ps_code_hashes st' → x ∈ ps_code_hashes st ∨ x ∈ map cb_code_hash c;
  pu_trailer : ps_trailer st' = ps_trailer st
}.

Lemma pushed_trans st1 st2 st3 a a' s s' c c' :
  pushed st1 st2 a s c → pushed st2 st3 a' s' c' → pushed st1 st3 (a ++ a') (s ++ s') (c ++ c').
Proof.
  intros [] []. split; try congruence.
  - rewrite pu_accounts1, pu_accounts0. by rewrite app_assoc.
  - rewrite pu_storage1, pu_storage0. by rewrite app_assoc.
  - rewrite pu_code1, pu_code0. by rewrite app_assoc.
  - rewrite pu_count1, <-N.Div0.add_mod_idemp_l, pu_count0, N.Div0.add_mod_idemp_l. f_equal.
    autorewrite with fossil_len. lia.
  - auto.
  - intros x Hx. rewrite map_app, elem_of_app. apply pu_hashes1 in Hx as [Hx|Hx]; [|by right; right].
    apply pu_hashes0 in Hx as [Hx|Hx]; [by left|by right; left].
Qed.

Lemma pushed_refl st : pushed st st [] [] [].
Proof. split; rewrite ?app_nil_r; try done; [by rewrite N.add_0_r|by left]. Qed.

Lemma pushed_accounts l st : pushed st (fold_left (λ st e, push_account e st) l st) l [] [] ∧
  ps_storage_keys (fold_left (λ st e, push_account e st) l st) = ps_storage_keys st ∧
  ps_last_storage (fold_left (λ st e, push_account e st) l st) = ps_last_storage st.
Proof.
  revert st; induction l as [|e l IH]; intros st; simpl; [by split; [apply pushed_refl|]|].
  destruct (IH (push_account e st)) as (Hp & Hk & Hl). split; [|done].
  apply (pushed_trans st (push_account e st) _ [e] l [] [] [] []); [|done].
  split; simpl; rewrite ?app_nil_r; try done; [exact (add_mod_one _)|by intros _; apply wrapping_le|by left].
Qed.
Lemma pushed_storage l st : pushed st (fold_left (λ st e, push_storage e st) l st) [] l [].
Proof.
  revert st; induction l as [|e l IH]; intros st; simpl; [apply pushed_refl|].
  apply (pushed_trans st (push_storage e st) _ [] [] [e] l [] []); [|done].
  split; simpl; rewrite ?app_nil_r; try done; [exact (add_mod_one _)|by intros _; apply wrapping_le|by left].
Qed.
Lemma pushed_code l st : pushed st (fold_left (λ st e, push_code e st) l st) [] [] l.
Proof.
  revert st; induction l as [|e l IH]; intros st; simpl; [apply pushed_refl|].
  apply (pushed_trans st (push_code e st) _ [] [] [] [] [e] l); [|done].
  split; simpl; rewrite ?app_nil_r; try done; [exact (add_mod_one _)|by intros _; apply wrapping_le|set_solver].
Qed.

(** The keys of the open block stay below the last ones. *)
Lemma in_block_accounts c l st :
  in_block c st → above ae_address (ps_last_account st) l → in_block c (fold_left (λ st e, push_account e st) l st).
Proof.
  revert st; induction l as [|e l IH]; intros st Hi Ha; simpl; [done|]. apply above_push in Ha as [Ha Hlast].
  apply IH; [|done]. destruct Hi as [Ht Hc Hn Hak Hsk]. split; try done. by destruct (seen_push _ _ _ Hak Hlast).
Qed.
Lemma in_block_storage c l st :
  in_block c st → above storage_key_of (ps_last_storage st) l → in_block c (fold_left (λ st e, push_storage e st) l st).
Proof.
  revert st; induction l as [|e l IH]; intros st Hi Ha; simpl; [done|]. apply above_push in Ha as [Ha Hlast].
  apply IH; [|done]. destruct Hi as [Ht Hc Hn Hak Hsk]. split; try done. by destruct (seen_push _ _ _ Hsk Hlast).
Qed.

(** The events of a block, read in order. *)
Lemma read_events h c a s cs st :
  in_block c st → ps_last_account st = None → ps_last_storage st = None →
  Forall (λ e, ae_block e = bm_number c ∧ wf_account_event e) a → sorted_by ae_address a →
  Forall (λ e, se_block e = bm_number c ∧ (se_incarnation e <= u64_max)%N) s → sorted_by storage_key_of s →
  Forall (λ b, cb_first_seen_block b = bm_number c ∧ keccak (cb_bytes b) = cb_code_hash b) cs →
  NoDup (map cb_code_hash cs) → (∀ b, b ∈ cs → cb_code_hash b ∉ ps_code_hashes st) →
  ∃ st', (∀ k, try_fold (parse_record h) (map account_input a ++ map storage_input s ++ map code_input cs ++ k) st
      = try_fold (parse_record h) k st') ∧ pushed st st' a s cs.
Proof.
  intros Hi Hla Hls Ha Has Hs Hss Hc Hd Hh. set (st1 := fold_left (λ st e, push_account e st) a st).
  set (st2 := fold_left (λ st e, push_storage e st) s st1). exists (fold_left (λ st b, push_code b st) cs st2).
  destruct (pushed_accounts a st) as (P1 & Hk1 & Hl1). fold st1 in P1, Hk1, Hl1.
  pose proof (pushed_storage s st1) as P2. fold st2 in P2. pose proof (pushed_code cs st2) as P3.
  assert (above ae_address (ps_last_account st) a) as Hab by (split; [done|by rewrite Hla]).
  assert (above storage_key_of (ps_last_storage st1) s) as Hsb by (split; [done|by rewrite Hl1, Hls]).
  split.
  - intros k. rewrite (try_fold_app _ _ _ _ _ (read_accounts h c a st Hi Ha Hab)).
    rewrite (try_fold_app _ _ _ _ _ (read_storage h c s st1 (in_block_accounts c a st Hi Hab) Hs Hsb)).
    rewrite (try_fold_app _ _ _ st2 (fold_left (λ st b, push_code b st) cs st2)); [done|]. eapply read_code; try done.
    + apply in_block_storage; [|done]. by apply in_block_accounts.
    + intros b Hb Hx. apply (pu_hashes _ _ _ _ _ (pushed_trans _ _ _ _ _ _ _ _ _ P1 P2)) in Hx as [Hx|Hx]; [|set_solver].
      by apply Hh in Hb.
  - pose proof (pushed_trans _ _ _ _ _ _ _ _ _ (pushed_trans _ _ _ _ _ _ _ _ _ P1 P2) P3) as P.
    by rewrite !app_nil_r in P.
Qed.

(** ** Reading a package *)

Abbreviation accounts_until s bs := (concat (map (λ b, accounts_of s (bm_number b)) bs)).
Abbreviation storage_until s bs := (concat (map (λ b, storage_of s (bm_number b)) bs)).
Abbreviation code_until s bs := (concat (map (λ b, code_of s (bm_number b)) bs)).

(** The state between two blocks. *)
Record between (s : Segment) (bs : list BlockMeta) st : Prop := {
  bt_blocks : ps_blocks st = bs;
  bt_accounts : ps_accounts st = accounts_until s bs;
  bt_storage : ps_storage st = storage_until s bs;
  bt_code : ps_code st = code_until s bs;
  bt_current : ps_current st = None;
  bt_trailer : ps_trailer st = None;
  bt_hashes : ∀ x, x ∈ ps_code_hashes st → x ∈ map cb_code_hash (code_until s bs)
}.

Lemma read_open h c st :
  ps_current st = None → ps_trailer st = None → wf_block c → (∀ b, last (ps_blocks st) = Some b → linked b c) →
  (ps_blocks st = [] → ph_mode h = Delta → bm_parent_hash c = default zero_hash (ph_preceding_hash h)) →
  parse_record h (block_open c) st = Ok (open_block c st).
Proof.
  intros Hc Ht [Hn Hts] Hl Hf. unfold parse_record, block_open, parse_block.
  rewrite Ht, Hc, !bool_decide_eq_false_2 by (intros []; done). rewrite !parse_quantity_quantity by done.
  destruct (last (ps_blocks st)) as [b|] eqn:El.
  - destruct (Hl b eq_refl) as [E1 E2]. unfold checked_add. rewrite <-E1, (proj2 (N.leb_le _ _)) by done.
    rewrite !bool_decide_eq_true_2 by done. simpl. by destruct c.
  - apply last_None in El. destruct (ph_mode h) eqn:Em; simpl; [by destruct c|].
    rewrite bool_decide_eq_true_2 by (by apply Hf). simpl. by destruct c.
Qed.

Record segment_ok (s : Segment) : Prop := {
  so_accounts : sorted_by account_order (sg_accounts s);
  so_account_events : Forall wf_account_event (sg_accounts s);
  so_storage : sorted_by slot_order (sg_storage s);
  so_storage_events : Forall (λ e, (se_incarnation e <= u64_max)%N) (sg_storage s);
  so_code : NoDup (map cb_code_hash (sg_code s));
  so_code_blobs : Forall (λ c, keccak (cb_bytes c) = cb_code_hash c) (sg_code s);
  so_split : sg_code s = code_until s (sg_blocks s);
  so_counts : Forall (λ b, (events_of s (bm_number b) <= u64_max)%N) (sg_blocks s)
}.

Lemma Forall_filter_block {A} (block : A → N) (P : A → Prop) n l :
  Forall P l → Forall (λ a, block a = n ∧ P a) (filter (λ a, block a = n) l).
Proof. rewrite !Forall_forall. intros Hl a [Ha Hin]%list_elem_of_filter. auto. Qed.

Lemma read_block h s bs c rest st :
  segment_ok s → sg_blocks s = bs ++ c :: rest → chained (sg_blocks s) → wf_block c →
  (bs = [] → ph_mode h = Delta → bm_parent_hash c = default zero_hash (ph_preceding_hash h)) →
  between s bs st →
  ∃ st', (∀ k, try_fold (parse_record h) (block_input s c ++ k) st = try_fold (parse_record h) k st') ∧
    between s (bs ++ [c]) st'.
Proof.
  intros Hs Hb Hch Hwf Hf [B1 B2 B3 B4 B5 B6 B7]. destruct Hs as [Sa Sae Ss Sse Sc Scb Ssp Sn].
  assert (chained (bs ++ [c])) as Hch'.
  { rewrite Hb in Hch. clear -Hch. revert Hch. induction rest as [|x rest IH] using rev_ind; [done|].
    change (c :: rest ++ [x]) with ((c :: rest) ++ [x]). rewrite app_assoc, chained_snoc. by intros [? _]; apply IH. }
  apply chained_snoc in Hch' as [_ Hlink].
  assert (parse_record h (block_open c) st = Ok (open_block c st)) as Ho.
  { apply read_open; try done; by rewrite B1. }
  assert (NoDup (map cb_code_hash (code_until s bs ++ code_of s (bm_number c)))) as Hnd.
  { rewrite Ssp, Hb, map_app, concat_app in Sc. simpl in Sc. rewrite app_assoc, map_app in Sc. by apply NoDup_app in Sc as [Sc _]. }
  rewrite map_app, NoDup_app in Hnd. destruct Hnd as (_ & Hdis & Hnd).
  destruct (read_events h c (accounts_of s (bm_number c)) (storage_of s (bm_number c)) (code_of s (bm_number c)) (open_block c st))
    as (st1 & Hr & P); try done.
  { split; simpl; try done; [by destruct Hwf|by intros k Hk%elem_of_nil..]. }
  { by apply Forall_filter_block. } { by eapply (sorted_block_keys ae_block ae_address). }
  { by apply Forall_filter_block. } { by eapply (sorted_block_keys se_block storage_key_of). }
  { by apply Forall_filter_block. }
  { simpl. intros b Hin Hx. apply (Hdis (cb_code_hash b)); [by apply B7|by apply list_elem_of_fmap_2]. }
  destruct P as [P1 P2 P3 P4 P5 P6 P6' P7 P8]. simpl in *.
  assert (events_of s (bm_number c) <= u64_max)%N as Hle.
  { rewrite Forall_forall in Sn. apply Sn. rewrite Hb. set_solver. }
  assert (ps_event_count st1 = events_of s (bm_number c)) as Hcount.
  { rewrite N.mod_small in P6 by (unfold u64_max in *; lia). rewrite P6. unfold events_of in *.
    rewrite N.mod_small by (unfold u64_max in *; lia). lia. }
  exists (close_block c st1). split.
  - intros k. unfold block_input. cbn [app]. cbn [try_fold]. rewrite Ho, <-!app_assoc, Hr. cbn [app try_fold].
    unfold parse_record at 1. rewrite P8, B6, bool_decide_eq_false_2 by (intros []; done).
    unfold parse_block_end. rewrite P5, checked_current_quantity, parse_quantity_quantity by (done || by destruct Hwf).
    by rewrite Hcount, N.eqb_refl.
  - split; simpl; rewrite ?map_app, ?concat_app; simpl; rewrite ?app_nil_r; try congruence.
    intros x [Hx|Hx]%P7; rewrite map_app, elem_of_app; [left; by apply B7|by right].
Qed.

Lemma read_blocks h s rest bs st :
  segment_ok s → sg_blocks s = bs ++ rest → chained (sg_blocks s) → Forall wf_block (sg_blocks s) →
  (∀ first, head (sg_blocks s) = Some first → ph_mode h = Delta → bm_parent_hash first = default zero_hash (ph_preceding_hash h)) →
  between s bs st →
  ∃ st', (∀ k, try_fold (parse_record h) (concat (map (block_input s) rest) ++ k) st = try_fold (parse_record h) k st') ∧
    between s (sg_blocks s) st'.
Proof.
  intros Hs Hb Hc Hw Hf. revert bs st Hb. induction rest as [|c rest IH]; intros bs st Hb Hst.
  { exists st. rewrite app_nil_r in Hb. rewrite Hb. by split. }
  destruct (read_block h s bs c rest st) as (st1 & HA & B1); try done.
  { rewrite Forall_forall in Hw. apply Hw. rewrite Hb. set_solver. }
  { intros ->. by apply Hf; rewrite Hb. }
  destruct (IH (bs ++ [c]) st1) as (st2 & HB & B2); [by rewrite <-app_assoc|done|].
  exists st2. split; [|done]. intros k. cbn [map concat]. by rewrite <-app_assoc, HA, HB.
Qed.
End reading.
