(* ===== verification/NormalizedTheorems.v ===== *)
(** * Packages: what is accepted, read back and staged

    The claims about [parse_package] and the composition with the publisher:
    an accepted package always stages into strictly sorted records.  A concrete
    deserializer of records comes first, for the witnesses. *)

From S2P Require Import Prelude Bytes SortedLists Text Externals ToyCrates Hash RunFormat Head HeadFacts Json ToyValue Format FormatFacts Tiered Normalized NormalizedFacts PackageInput.
From Stdlib Require Import Lia Sorting.Sorted.

(** ** A concrete deserializer of records

    The fields of the object of a record, read by name, over the concrete
    [serde_json]. *)

Section toy.
Context `{Hex}.

Definition get_str (k : string) (l : list (string * Value)) : option string := v ← obj_get k l; as_str v.
Definition get_opt {A} (f : Value → option A) (k : string) (l : list (string * Value)) : option (option A) :=
  match obj_get k l with None => Some None | Some v => a ← f v; Some (Some a) end.
Definition to_opt {A} (r : result A) : option A := match r with Ok a => Some a | Err _ => None end.
Definition as_hash (v : Value) : option Hash32 := s ← as_str v; to_opt (hash_from_str s).
Definition get_hash (k : string) (l : list (string * Value)) : option Hash32 := v ← obj_get k l; as_hash v.
Definition get_address (k : string) (l : list (string * Value)) : option Address20 :=
  s ← get_str k l; to_opt (address_from_str s).
Definition get_bool (k : string) (l : list (string * Value)) : option bool := v ← obj_get k l; as_bool v.

Definition un_record_value (v : Value) : option InputRecord :=
  l ← as_object v; tag ← get_str "type" l;
  if bool_decide (tag = "header") then
    s ← get_str "schema" l; c ← get_str "chain_id" l; g ← get_hash "genesis_hash" l; m ← get_str "mode" l;
    an ← get_opt as_str "anchor_number" l; ah ← get_opt as_hash "anchor_hash" l;
    pn ← get_opt as_str "preceding_number" l; ph ← get_opt as_hash "preceding_hash" l;
    Some (InHeader s c g m an ah pn ph)
  else if bool_decide (tag = "block") then
    n ← get_str "number" l; h ← get_hash "hash" l; p ← get_hash "parent_hash" l; r ← get_hash "state_root" l;
    t ← get_str "timestamp" l; Some (InBlock n h p r t)
  else if bool_decide (tag = "account") then
    b ← get_str "block" l; a ← get_address "address" l; e ← get_bool "exists" l; i ← get_str "incarnation" l;
    n ← get_opt as_str "nonce" l; ba ← get_opt as_str "balance" l; c ← get_opt as_hash "code_hash" l;
    Some (InAccount b a e i n ba c)
  else if bool_decide (tag = "storage") then
    b ← get_str "block" l; a ← get_address "address" l; i ← get_str "incarnation" l; s ← get_hash "slot" l;
    v ← get_hash "value" l; Some (InStorage b a i s v)
  else if bool_decide (tag = "code") then
    h ← get_hash "code_hash" l; b ← get_str "bytes" l; Some (InCode h b)
  else if bool_decide (tag = "block_end") then
    n ← get_str "number" l; c ← get_str "event_count" l; Some (InBlockEnd n c)
  else if bool_decide (tag = "trailer") then
    n ← get_str "end_number" l; h ← get_hash "end_hash" l; c ← get_str "block_count" l; Some (InTrailer n h c)
  else None.

Definition toy_record : RecordJson := λ b,
  let? v := toy_from_slice b in ok_or (un_record_value v) "invalid record".

Context `{Sha256, !HexLaws}.

Lemma as_address_V a : address_from_str (address_to_string a) = Ok a.
Proof. unfold address_from_str, address_to_string. by rewrite parse_fixed_encode. Qed.

#[local] Opaque hash_from_str hash_to_string address_from_str address_to_string.
Lemma un_record_value_of r : un_record_value (record_value r) = Some r.
Proof.
  destruct r as [s c g m [an|] [ah|] [pn|] [ph|]|n h p r t|b a e i [n|] [ba|] [c|]|b a i s v|h b|n c|n h c];
    lazy; repeat (rewrite ?hash_string_round, ?as_address_V; lazy); reflexivity.
Qed.
#[local] Transparent hash_from_str hash_to_string address_from_str address_to_string.

Lemma toy_record_laws : RecordJsonLaws (H0 := toy_serde) (H1 := toy_record).
Proof.
  intros r _. unfold record_from_str, toy_record. cbn [value_to_vec toy_serde].
  by rewrite toy_from_to, un_record_value_of.
Qed.
End toy.

(** ** The theorems *)

Section theorems.
Context `{Sha256, Keccak256, Hex}.

(** The number of events and blocks is a machine integer. *)
Definition counts_fit (s : Segment) : Prop :=
  (len (sg_accounts s) + len (sg_storage s) + len (sg_code s) <= u64_max)%N ∧ (len (sg_blocks s) <= u64_max)%N.

Lemma len_filter {A} (P : A → Prop) `{∀ x, Decision (P x)} (l : list A) : (len (filter P l) <= len l)%N.
Proof. unfold len. pose proof (length_filter P l). lia. Qed.

Lemma segment_ok_of p : package_ok p → counts_fit (pk_segment p) → segment_ok (pk_segment p).
Proof.
  intros Hp [Hc _]. destruct Hp. split; try done.
  - by eapply Forall_impl; [exact po_account_events|intros e []].
  - by eapply Forall_impl; [exact po_storage_events|intros e []].
  - by eapply Forall_impl; [exact po_code_blobs|intros e []].
  - symmetry. apply by_blocks; [by apply chained_sorted|done|].
    by eapply Forall_impl; [exact po_code_blobs|intros e []].
  - apply Forall_forall. intros b _. unfold events_of, accounts_of, storage_of, code_of.
    pose proof (len_filter (λ e, ae_block e = bm_number b) (sg_accounts (pk_segment p))).
    pose proof (len_filter (λ e, se_block e = bm_number b) (sg_storage (pk_segment p))).
    pose proof (len_filter (λ e, cb_first_seen_block e = bm_number b) (sg_code (pk_segment p))). lia.
Qed.

Lemma parse_header_input h :
  (ph_chain_id h <= u64_max)%N → (∀ n, ph_anchor_number h = Some n → (n <= u64_max)%N) →
  (∀ n, ph_preceding_number h = Some n → (n <= u64_max)%N) → parse_header (header_input h) = Ok h.
Proof.
  intros Hc Ha Hp. unfold parse_header, header_input. rewrite bool_decide_eq_true_2 by done. cbn [negb].
  assert (∀ o, (∀ n, o = Some n → (n <= u64_max)%N) → parse_optional (quantity <$> o) = Ok o) as Ho.
  { intros [n|] Hn; [|done]. simpl. by rewrite parse_quantity_quantity by auto. }
  destruct h as [c g m an ah pn ph]; simpl in *. destruct m; simpl; by rewrite parse_quantity_quantity, !Ho.
Qed.

Context `{!HexLaws, !HexCanon}.

Lemma package_input_read p :
  package_ok p → counts_fit (pk_segment p) → parse_records (package_input p) (pk_input_sha256 p) = Ok p.
Proof.
  intros Hp Hfit. pose proof (segment_ok_of p Hp Hfit) as Hs. destruct Hp, Hfit as [_ Hlen].
  destruct po_ends as (first & stop & Ef & El & Es & Ee & Hg & Hd). unfold package_input. rewrite Ef, El.
  set (h := package_header p first).
  assert (wf_block first) as [Hfn _].
  { rewrite Forall_forall in po_blocks. apply po_blocks. by apply head_Some_elem_of. }
  assert (wf_block stop) as [Hln _].
  { rewrite Forall_forall in po_blocks. apply po_blocks. by apply last_Some_elem_of. }
  destruct (read_blocks h (pk_segment p) (sg_blocks (pk_segment p)) [] parser_start) as (st & Hr & B); try done.
  { intros f Hf Hm. simpl in *. rewrite Ef in Hf. injection Hf as <-. destruct (Hd Hm) as (n & _ & _ & ->). done. }
  unfold parse_records.
  assert (len (header_input h :: concat (map (block_input (pk_segment p)) (sg_blocks (pk_segment p))) ++ [trailer_input (pk_segment p) stop]) <? 3 = false)%N as ->.
  { apply N.ltb_ge. destruct (sg_blocks (pk_segment p)); [done|]. cbn [map concat]. unfold block_input.
    autorewrite with fossil_len. cbn [app]. autorewrite with fossil_len. lia. }
  rewrite parse_header_input; [|done|simpl; by destruct (pk_mode p) eqn:?; [intros n [= <-]|]|done].
  assert (header_ok h = Ok tt) as ->.
  { unfold header_ok. simpl. destruct (pk_mode p) eqn:Em; [by simpl|]. by destruct (Hd eq_refl) as (n & -> & _ & ->). }
  rewrite Hr. destruct B as [B1 B2 B3 B4 B5 B6 B7]. cbn [try_fold].
  unfold parse_record, trailer_input, parse_trailer. rewrite B5, B6, !bool_decide_eq_false_2 by (intros []; done).
  rewrite !parse_quantity_quantity by done. unfold finish_package. simpl. rewrite B1, Ef, El. cbn [ok_or unwrap].
  rewrite !N.eqb_refl, bool_decide_eq_true_2 by done. cbn [negb orb].
  assert (((bm_number first =? 0)%N && negb (bool_decide (bm_hash first = sg_genesis_hash (pk_segment p)))) = false) as ->.
  { destruct (bm_number first =? 0)%N eqn:E0; [|done]. apply N.eqb_eq in E0. by rewrite bool_decide_eq_true_2 by auto. }
  rewrite B2, B3, B4, <-(so_split _ Hs).
  assert (concat (map (λ b, accounts_of (pk_segment p) (bm_number b)) (sg_blocks (pk_segment p))) = sg_accounts (pk_segment p)) as ->.
  { apply (by_blocks ae_block); [by apply chained_sorted|exact (sorted_blocks ae_block ae_address _ po_accounts)|].
    by eapply Forall_impl; [exact po_account_events|intros e []]. }
  assert (concat (map (λ b, storage_of (pk_segment p) (bm_number b)) (sg_blocks (pk_segment p))) = sg_storage (pk_segment p)) as ->.
  { apply (by_blocks se_block); [by apply chained_sorted|exact (sorted_blocks se_block storage_key_of _ po_storage)|].
    by eapply Forall_impl; [exact po_storage_events|intros e []]. }
  destruct (pk_mode p) eqn:Em; simpl.
  - rewrite !bool_decide_eq_true_2 by done. simpl. rewrite <-Es, <-Ee, <-po_schema, <-Em. by destruct p as [? ? ? ? []].
  - destruct (Hd eq_refl) as (n & En & E1 & _). rewrite En. unfold checked_add. rewrite <-E1.
    rewrite (proj2 (N.leb_le _ _)), bool_decide_eq_true_2 by done. simpl.
    rewrite <-Es, <-Ee, <-po_schema, <-Em, <-En. by destruct p as [? ? ? ? []].
Qed.

(** ** Text *)

Lemma parse_lines_ok `{RecordJson} index l records :
  Forall2 (λ line r, is_blank line = false ∧ record_from_str line = Ok r) l records → parse_lines index l = Ok records.
Proof.
  intros HF. revert index. induction HF as [|line r l records [Hb Hr] _ IH]; intros index; simpl; [done|].
  by rewrite Hb, Hr, IH.
Qed.

(** The text of a list of lines of plain ASCII. *)
Definition text_of (l : list bytes) : bytes := concat (map (λ line, line ++ [newline]) l).

Lemma text_of_utf8 l : Forall plain l → from_utf8 (text_of l) = Ok (text_of l).
Proof.
  intros HF. unfold from_utf8. rewrite utf8_ascii; [done|]. unfold text_of.
  induction HF as [|line l Hl _ IH]; simpl; [constructor|]. apply Forall_app. split; [|done].
  apply Forall_app. split; [|by repeat constructor]. eapply Forall_impl; [exact Hl|]. simpl. lia.
Qed.

Lemma parse_text `{RecordJson} (print : InputRecord → bytes) records sha :
  (∀ r, r ∈ records → record_from_str (print r) = Ok r ∧ plain (print r) ∧ print r ≠ []) →
  parse_package (text_of (map print records)) sha = parse_records records sha.
Proof.
  intros Hr. unfold parse_package. rewrite text_of_utf8.
  2: { apply Forall_forall. intros line (r & -> & Hin)%list_elem_of_fmap. by apply Hr. }
  cbn [with_context]. unfold text_of. rewrite lines_concat.
  2: { apply Forall_forall. intros line (r & -> & Hin)%list_elem_of_fmap. by apply plain_line, Hr. }
  rewrite (parse_lines_ok 0 _ records); [done|]. apply Forall2_fmap_l, Forall_Forall2_diag, Forall_forall.
  intros r Hin. destruct (Hr r Hin) as (E & Hp & Hne). split; [by apply plain_not_blank|done].
Qed.

(** C16: only well-formed packages are accepted.  Whatever the input, if
    [parse_package] returns a package, its blocks are consecutive and linked by
    hash, its events belong to them and are strictly sorted, tombstones carry no
    state, code blobs match their hashes and are distinct, and the package
    starts where its mode requires. *)
Theorem parsed_package_ok `{RecordJson} decoded sha p :
  parse_package decoded sha = Ok p → package_ok p ∧ pk_input_sha256 p = sha.
Proof.
  unfold parse_package. destruct (with_context _ _) as [text|]; [|done].
  destruct (parse_lines _ _) as [records|]; [|done]. apply parse_records_sound.
Qed.

(** C17: every well-formed package can be written and is read back exactly: the
    text of its records, one per line, in any notation that the deserializer
    reads, parses to that package. *)
Theorem package_roundtrip `{RecordJson} print p :
  package_ok p → counts_fit (pk_segment p) →
  (∀ r, r ∈ package_input p → record_from_str (print r) = Ok r ∧ plain (print r) ∧ print r ≠ []) →
  parse_package (text_of (map print (package_input p))) (pk_input_sha256 p) = Ok p.
Proof. intros Hp Hc Hr. rewrite parse_text by done. by apply package_input_read. Qed.

End theorems.

(** ** A concrete package *)

Module PackageExample.
#[local] Existing Instances toy_sha toy_keccak toy_hex toy_hex_laws toy_hex_canon toy_serde toy_record.
Definition hash (n : N) : Hash32 := default zero_hash (to_array 32 (to_be 32 n)).
Definition addr (n : N) : Address20 := default (array_repeat 20 Byte.x00) (to_array 20 (to_be 20 n)).
Definition code_bytes : bytes := [Byte.x60; Byte.x01].
Definition block_meta (n : N) : BlockMeta :=
  {| bm_number := n; bm_hash := hash (100 + n); bm_parent_hash := hash (99 + n);
     bm_state_root := hash (200 + n); bm_timestamp := 1000 + n |}.
Definition example : Package :=
  {| pk_mode := Delta; pk_preceding_number := Some 4%N; pk_preceding_hash := Some (hash 104);
     pk_input_sha256 := hash 9;
     pk_segment :=
       {| sg_schema := SEGMENT_SCHEMA; sg_chain_id := 10; sg_genesis_hash := hash 100;
          sg_start_block := 5; sg_end_block := 6; sg_blocks := [block_meta 5; block_meta 6];
          sg_accounts :=
            [{| ae_block := 5; ae_address := addr 1; ae_exists := true; ae_incarnation := 0; ae_nonce := 1;
                ae_balance := hash 300; ae_code_hash := keccak code_bytes |};
             {| ae_block := 5; ae_address := addr 2; ae_exists := false; ae_incarnation := 0; ae_nonce := 0;
                ae_balance := zero_hash; ae_code_hash := zero_hash |};
             {| ae_block := 6; ae_address := addr 1; ae_exists := true; ae_incarnation := 0; ae_nonce := 2;
                ae_balance := hash 299; ae_code_hash := keccak code_bytes |}];
          sg_storage :=
            [{| se_block := 6; se_address := addr 1; se_incarnation := 0; se_slot := hash 1; se_value := hash 7 |}];
          sg_code := [{| cb_first_seen_block := 5; cb_code_hash := keccak code_bytes; cb_bytes := code_bytes |}] |} |}.

Definition printed (r : InputRecord) : bytes := toy_to_vec (record_value r).

Lemma example_parses : parse_records (package_input example) (hash 9) = Ok example.
Proof. vm_compute. reflexivity. Qed.
Lemma printed_ok r : record_from_str (printed r) = Ok r ∧ plain (printed r) ∧ printed r ≠ [].
Proof.
  split_and!; [|apply bits_text_plain|unfold printed, toy_to_vec; by destruct (countable.encode _)].
  unfold record_from_str, toy_record, printed. by rewrite toy_from_to, un_record_value_of.
Qed.
Lemma example_text : parse_package (text_of (map printed (package_input example))) (hash 9) = Ok example.
Proof. rewrite parse_text by (intros; apply printed_ok). apply example_parses. Qed.

Lemma parsed_package_ok_witness : package_ok example ∧ pk_input_sha256 example = hash 9.
Proof. apply (parsed_package_ok (text_of (map printed (package_input example)))). exact example_text. Defined.
Lemma package_roundtrip_witness :
  parse_package (text_of (map printed (package_input example))) (pk_input_sha256 example) = Ok example.
Proof.
  apply package_roundtrip.
  - apply (parse_records_sound (package_input example) (hash 9) example). exact example_parses.
  - split; vm_compute; discriminate.
  - intros r _. apply printed_ok.
Defined.
End PackageExample.
