(* ===== verification/PackageStaging.v ===== *)
(** * Accepted packages stage

    What [parse_package] accepts, [package_records] turns into records that are
    strictly sorted by key and block, as the run builder requires, whenever the
    package is within the publisher's size limits. *)

From S2P Require Import Prelude Bytes SortedLists Text Externals ToyCrates Hash RunFormat Head HeadFacts Json ToyValue Format FormatFacts Tiered Normalized NormalizedFacts PackageInput NormalizedTheorems PublishFacts PackageTheorems.
From Stdlib Require Import Lia Sorting.Sorted.

(** ** Sorting *)

Section sorting.
Context {A K : Type} `{CmpLaws K} (key : A → K).

Lemma insert_by_elem x y (l : list A) : y ∈ insert_by key x l ↔ y = x ∨ y ∈ l.
Proof. induction l as [|z l IH]; simpl; [set_solver|]. destruct (ltb _ _); set_solver. Qed.

Lemma insert_by_sorted x l : key x ∉ map key l → sorted_by key l → sorted_by key (insert_by key x l).
Proof.
  induction l as [|z l IH]; intros Hx Hl; simpl; [apply sorted_one|]. simpl in Hx. apply not_elem_of_cons in Hx as [Hz Hx].
  apply sorted_cons in Hl as [Hl Hlt]. destruct (ltb (key x) (key z)) eqn:E.
  - apply ltb_spec in E. apply sorted_cons. split; [by apply sorted_cons|]. intros y [->|Hy]%elem_of_cons; [done|].
    eapply clt_trans; [exact E|by apply Hlt].
  - apply ltb_false, cle_lt_eq in E as [E|E]; [|by destruct Hz]. apply sorted_cons. split; [by apply IH|].
    intros y [->|Hy]%insert_by_elem; [done|by apply Hlt].
Qed.

Lemma sort_by_sorted l : NoDup (map key l) → sorted_by key (sort_by key l).
Proof.
  intros Hl. unfold sort_by. assert (∀ acc, sorted_by key acc → NoDup (map key (acc ++ l)) →
    sorted_by key (fold_left (λ acc x, insert_by key x acc) l acc)) as Hgen; [|apply Hgen; [apply sorted_nil|done]].
  clear Hl. induction l as [|x l IH]; intros acc Ha Hnd; simpl; [done|].
  rewrite map_app, NoDup_app in Hnd. destruct Hnd as (Hnd1 & Hdis & Hnd2). simpl in Hnd2. apply NoDup_cons in Hnd2 as [Hx Hnd2].
  apply IH.
  - apply insert_by_sorted; [|done]. intros Hin. apply (Hdis _ Hin). simpl. set_solver.
  - rewrite map_app, NoDup_app. split_and!; [|intros k Hk|done].
    + assert (map key (insert_by key x acc) ≡ₚ map key (x :: acc)) as ->.
      { apply Permutation_map. clear. induction acc as [|z acc IH]; simpl; [done|]. destruct (ltb _ _); [done|].
        rewrite IH. constructor. }
      simpl. apply NoDup_cons. split; [|done]. intros Hin. apply (Hdis _ Hin). simpl. set_solver.
    + apply list_elem_of_fmap in Hk as (y & -> & [->|Hy]%insert_by_elem); [done|].
      intros Hin. apply (Hdis (key y)); [by apply list_elem_of_fmap_2|]. simpl. set_solver.
Qed.
End sorting.

(** ** Staging *)

Definition staged_size (r : RunRecord) : N := (len (rec_key r) + len (rec_value r) + 32)%N.
Definition staged_bytes (l : list RunRecord) : N := fold_right (λ r n, (staged_size r + n)%N) 0%N l.

Lemma staged_bytes_app l k : staged_bytes (l ++ k) = (staged_bytes l + staged_bytes k)%N.
Proof. induction l as [|r l IH]; simpl; [done|]. rewrite IH. lia. Qed.

Lemma try_fold_total {A} (record : A → RunRecord) (step : A → list RunRecord * N → result (list RunRecord * N)) l acc n :
  (∀ x acc n, x ∈ l → (n + staged_size (record x) <= MAX_STAGED)%N →
    step x (acc, n) = Ok (acc ++ [record x], (n + staged_size (record x))%N)) →
  (n + staged_bytes (map record l) <= MAX_STAGED)%N →
  try_fold step l (acc, n) = Ok (acc ++ map record l, (n + staged_bytes (map record l))%N).
Proof.
  revert acc n; induction l as [|x l IH]; intros acc n Hstep Hn; simpl in *.
  { by rewrite app_nil_r, N.add_0_r. }
  rewrite Hstep by (try set_solver; lia). rewrite IH; [|set_solver|lia].
  by rewrite <-app_assoc, N.add_assoc.
Qed.

Lemma add_record_total first stop key block value acc n :
  (first <= block <= stop)%N → (n + (len key + len value + 32) <= MAX_STAGED)%N →
  add_record first stop key block value (acc, n) =
    Ok (acc ++ [{| rec_key := key; rec_block := block; rec_value := value |}], (n + (len key + len value + 32))%N).
Proof.
  intros [H1 H2] Hn. unfold add_record. rewrite (proj2 (N.leb_le _ _) H1), (proj2 (N.leb_le _ _) H2). simpl.
  assert (MAX_STAGED <= usize_max)%N as Hm by done. unfold checked_add.
  rewrite (proj2 (N.leb_le (n + (len key + len value + 32)) usize_max)) by lia. cbn [ok_or].
  by rewrite (proj2 (N.ltb_ge MAX_STAGED _)) by lia.
Qed.

Section staging.
Context `{Sha256, Keccak256, Hex}.

(** The records of the events of a package. *)
Definition event_records (s : Segment) : list RunRecord :=
  map account_record (sg_accounts s) ++ map storage_record (sg_storage s) ++ map code_record (sg_code s).

Lemma blocks_between blocks first stop n :
  chained blocks → head blocks = Some first → last blocks = Some stop → n ∈ map bm_number blocks →
  (bm_number first <= n <= bm_number stop)%N.
Proof.
  intros Hc Hf Hl Hn. apply chained_sorted in Hc. apply list_elem_of_fmap in Hn as (b & -> & Hb). split.
  - destruct blocks as [|x l]; [done|]. injection Hf as ->. apply sorted_cons in Hc as [_ Hc].
    apply elem_of_cons in Hb as [->|Hb]; [lia|]. specialize (Hc b Hb). rewrite N_clt in Hc. lia.
  - apply last_Some in Hl as [l ->]. apply sorted_app in Hc as (_ & _ & Hc). apply elem_of_app in Hb as [Hb|Hb].
    + specialize (Hc b stop Hb ltac:(set_solver)). rewrite N_clt in Hc. lia.
    + apply list_elem_of_singleton in Hb as ->. lia.
Qed.

Lemma version_key r r' : rec_version r = rec_version r' → rec_key r = rec_key r' ∧ rec_block r = rec_block r'.
Proof. by intros [= -> ->]. Qed.

Lemma NoDup_map_sorted {A B K} `{CmpLaws K} (f : A → B) (key : A → K) l :
  sorted_by key l → (∀ x y, x ∈ l → y ∈ l → f x = f y → key x = key y) → NoDup (map f l).
Proof.
  intros Hl Hf. induction l as [|x l IH]; simpl; [constructor|]. apply sorted_cons in Hl as [Hl Hx].
  apply NoDup_cons. split; [|apply IH; [done|set_solver]].
  intros (y & E & Hy)%list_elem_of_fmap. specialize (Hx y Hy). rewrite (Hf x y) in Hx; [by apply clt_irrefl in Hx|set_solver..].
Qed.

Lemma event_versions p : package_ok p → NoDup (map rec_version (event_records (pk_segment p))).
Proof.
  intros Hp. unfold event_records. rewrite !map_app, !map_map. apply NoDup_app. split_and!.
  - eapply (NoDup_map_sorted _ account_order); [apply (po_accounts p Hp)|]. intros x y _ _ [E1 E2]%version_key.
    simpl in E1, E2. unfold account_order. f_equal; [done|]. by apply account_key_inj.
  - intros v (x & -> & Hx)%list_elem_of_fmap Hv. rewrite elem_of_app in Hv.
    destruct Hv as [(y & E & Hy)%list_elem_of_fmap|(y & E & Hy)%list_elem_of_fmap]; by apply version_key in E as [E _].
  - apply NoDup_app. split_and!.
    + eapply (NoDup_map_sorted _ slot_order); [apply (po_storage p Hp)|]. intros x y Hx Hy [E1 E2]%version_key.
      pose proof (po_storage_events p Hp) as HF. rewrite Forall_forall in HF.
      simpl in E1, E2. apply storage_key_inj in E1 as (Ea & Ei & Es); [|by apply HF..].
      unfold slot_order, storage_key_of. by rewrite E2, Ea, Ei, Es.
    + intros v (x & -> & Hx)%list_elem_of_fmap (y & E & Hy)%list_elem_of_fmap. by apply version_key in E as [E _].
    + pose proof (po_code p Hp) as Hc.
      revert Hc. generalize (sg_code (pk_segment p)). induction l as [|x l IH]; simpl; [constructor|].
      intros [Hx Hl]%NoDup_cons. apply NoDup_cons. split; [|by apply IH].
      intros (y & E & Hy)%list_elem_of_fmap. apply Hx. apply version_key in E as [E _]. simpl in E.
      injection E as E. apply arr_inj in E. rewrite E. by apply list_elem_of_fmap_2.
Qed.

Lemma package_records_total p :
  package_ok p → Forall (λ c, (len (cb_bytes c) <= MAX_CODE)%N) (sg_code (pk_segment p)) →
  (staged_bytes (event_records (pk_segment p)) <= MAX_STAGED)%N →
  package_records p = Ok (sort_by rec_version (event_records (pk_segment p))).
Proof.
  intros Hp Hcode Hn. destruct (po_ends p Hp) as (first & stop & Ef & El & _).
  pose proof (λ n, blocks_between _ _ _ n (po_chained p Hp) Ef El) as Hin.
  unfold event_records in *. rewrite !staged_bytes_app in Hn.
  unfold package_records. rewrite Ef, El. cbn [ok_or unwrap].
  rewrite (try_fold_total account_record); [| |simpl; lia].
  2: { intros e acc n He Hs. apply add_record_total; [|done]. apply Hin.
       pose proof (po_account_events p Hp) as HF. rewrite Forall_forall in HF. by apply HF. }
  rewrite (try_fold_total storage_record); [| |simpl; lia].
  2: { intros e acc n He Hs. apply add_record_total; [|done]. apply Hin.
       pose proof (po_storage_events p Hp) as HF. rewrite Forall_forall in HF. by apply HF. }
  rewrite (try_fold_total code_record); [| |simpl; lia].
  2: { intros c acc n He Hs. pose proof (po_code_blobs p Hp) as HF. rewrite Forall_forall in HF, Hcode.
       destruct (HF c He) as [Hb Hk]. rewrite (proj2 (N.ltb_ge MAX_CODE _)) by (by apply Hcode).
       rewrite bool_decide_eq_true_2 by done. simpl. apply add_record_total; [|done]. by apply Hin. }
  simpl. by rewrite <-app_assoc.
Qed.


(** C18: what is accepted can be staged.  A package that [parse_package] accepts
    and that is within the limits on code (1 MiB) and staged bytes (256 MiB) is
    turned into records by [package_records] without an error: one record per
    event, strictly sorted by key and block as the run builder requires, all
    within the package's blocks. *)
Theorem accepted_package_stages `{RecordJson} decoded sha p :
  parse_package decoded sha = Ok p → Forall (λ c, (len (cb_bytes c) <= MAX_CODE)%N) (sg_code (pk_segment p)) →
  (staged_bytes (event_records (pk_segment p)) <= MAX_STAGED)%N →
  wf_package p ∧ ∃ records, package_records p = Ok records ∧ sorted_by rec_version records ∧
    records ≡ₚ event_records (pk_segment p) ∧
    Forall (λ r, (sg_start_block (pk_segment p) <= rec_block r <= sg_end_block (pk_segment p))%N) records.
Proof.
  unfold parse_package. destruct (with_context _ _) as [text|]; [|done]. destruct (parse_lines _ _) as [l|]; [|done].
  intros [Hp _]%parse_records_sound Hc Hn. split.
  { split; [by apply po_chain_id|]. eapply Forall_impl; [by apply po_blocks|]. by intros b []. }
  exists (sort_by rec_version (event_records (pk_segment p))). split_and!.
  - by apply package_records_total.
  - apply sort_by_sorted. by apply event_versions.
  - apply sort_by_perm.
  - destruct (po_ends p Hp) as (first & stop & Ef & El & -> & -> & _).
    pose proof (λ n, blocks_between _ _ _ n (po_chained p Hp) Ef El) as Hin.
    rewrite sort_by_perm. unfold event_records. rewrite !Forall_app, !Forall_fmap. split_and!;
      (eapply Forall_impl; [first [exact (po_account_events p Hp)|exact (po_storage_events p Hp)|exact (po_code_blobs p Hp)]|]);
      intros e [He _]; by apply Hin.
Qed.

End staging.

Module StagingExample.
Import PackageExample.
#[local] Existing Instances toy_sha toy_keccak toy_hex toy_hex_laws toy_hex_canon toy_serde toy_record.
Lemma accepted_package_stages_witness :
  wf_package example ∧ ∃ records, package_records example = Ok records ∧ sorted_by rec_version records ∧
    records ≡ₚ event_records (pk_segment example) ∧ Forall (λ r, (5 <= rec_block r <= 6)%N) records.
Proof.
  apply (accepted_package_stages (text_of (map printed (package_input example))) (hash 9) example).
  - exact example_text.
  - repeat constructor. vm_compute. discriminate.
  - vm_compute. discriminate.
Defined.
End StagingExample.
