(* ===== verification/BootstrapFacts.v ===== *)
(** * The genesis anchor retains the whole allocation

    [read_genesis] gathers distinct accounts, slots and codes; the lines that are
    written are the records of a well-formed package, so that the final check of
    [genesis_anchor] never fails. *)

From S2P Require Import Prelude Bytes SortedLists Text Externals Hash Json Format FormatFacts Tiered Normalized Bootstrap NormalizedFacts PackageInput NormalizedTheorems PublishFacts PackageStaging.
From Stdlib Require Import Lia Sorting.Sorted.

(** ** Keys of objects *)

Lemma byte_string_inj a b : byte_string a = byte_string b → a = b.
Proof.
  intros E. apply (f_equal String.string_of_list_byte) in E. unfold byte_string in E.
  by rewrite !String.string_of_list_byte_of_string in E.
Qed.

Lemma sorted_keys_NoDup l : sorted_keys l = true → NoDup (map fst l).
Proof.
  intros Hs. apply (NoDup_map_sorted fst (λ p : string * Value, byte_string p.1)).
  2: by intros x y _ _ ->.
  revert Hs. induction l as [|p l IH]; [constructor|]. intros Hs. apply sorted_cons.
  destruct l as [|q l]; [split; [constructor|set_solver]|]. simpl in Hs.
  destruct (cmp p.1 q.1) eqn:E; try done. specialize (IH Hs). split; [done|].
  intros y [->|Hy]%elem_of_cons; [exact E|]. apply sorted_cons in IH as [_ IH].
  eapply clt_trans; [exact E|by apply IH].
Qed.

Lemma wf_object l : wf_value (VObject l) = true → NoDup (map fst l) ∧ ∀ k v, (k, v) ∈ l → wf_value v = true.
Proof.
  simpl. intros [Hs Hf]%andb_true_iff. split; [by apply sorted_keys_NoDup|]. intros k v Hin.
  rewrite forallb_forall in Hf. apply list_elem_of_In in Hin. by apply (Hf (k, v)).
Qed.
Lemma obj_get_elem k l v : obj_get k l = Some v → (k, v) ∈ l.
Proof.
  induction l as [|[k' v'] l IH]; simpl; [done|]. case_bool_decide as E; [|set_solver].
  intros [= <-]. subst. set_solver.
Qed.
Lemma value_get_wf k v w : wf_value v = true → value_get k v = Some w → wf_value w = true.
Proof.
  destruct v; try done. intros Hv Hg%obj_get_elem. by eapply (proj2 (wf_object _ Hv)).
Qed.
Lemma value_index_wf k v : wf_value v = true → wf_value (value_index v k) = true.
Proof. intros Hv. unfold value_index. destruct (value_get k v) eqn:E; [by eapply value_get_wf|done]. Qed.

Section facts.
Context `{Sha256, Keccak256, Hex, !HexLaws, !HexCanon}.

(** ** Text is determined by what it denotes *)

Lemma parse_fixed_inv n s (a : array n) : parse_fixed n s = Ok a → s = "0x" +:+ hex_encode (arr a).
Proof.
  unfold parse_fixed, parse_fixed_raw. destruct (strip_prefix _ _) as [raw|] eqn:E; [|done]. cbn [ok_or].
  apply strip_prefix_Some in E as ->. destruct (_ || _) eqn:Eu; [done|]. apply orb_false_iff in Eu as [_ Eu].
  destruct (hex_decode raw) as [b|] eqn:Ed; [|done]. cbn [with_context]. destruct (to_array n b) as [a'|] eqn:Ea; [|done].
  intros [= <-]. apply to_array_Some in Ea as ->. by rewrite (hex_decode_inv _ _ Ed Eu).
Qed.
Lemma hash_from_str_inv s h : hash_from_str s = Ok h → s = hash_to_string h.
Proof.
  unfold hash_from_str, hash_to_string. destruct (strip_prefix _ _) as [raw|] eqn:E; [|done]. cbn [ok_or].
  apply strip_prefix_Some in E as ->. destruct (_ || _) eqn:Eu; [done|]. apply orb_false_iff in Eu as [_ Eu].
  destruct (hex_decode raw) as [b|] eqn:Ed; [|done]. cbn [with_context]. destruct (to_array 32 b) as [a'|] eqn:Ea; [|done].
  intros [= <-]. apply to_array_Some in Ea as ->. by rewrite (hex_decode_inv _ _ Ed Eu).
Qed.
Lemma parse_data_inv s b : parse_data s = Ok b → s = "0x" +:+ hex_encode b.
Proof.
  unfold parse_data. destruct (strip_prefix _ _) as [raw|] eqn:E; [|done]. cbn [ok_or].
  apply strip_prefix_Some in E as ->. destruct (_ || _) eqn:Eu; [done|]. apply orb_false_iff in Eu as [_ Eu].
  destruct (hex_decode raw) as [b'|] eqn:Ed; [|done]. intros [= <-]. by rewrite (hex_decode_inv _ _ Ed Eu).
Qed.

(** ** The codes *)

Lemma codes_insert_spec h code l l' o :
  codes_insert h code l = (l', o) → sorted_by fst l → (∀ c, o = Some c → c = code) →
  sorted_by fst l' ∧ ∀ p, p ∈ l' ↔ p = (h, code) ∨ p ∈ l.
Proof.
  revert l' o; induction l as [|[k old] l IH]; intros l' o; simpl.
  { intros [= <- <-] _ _. split; [apply sorted_one|set_solver]. }
  intros E Hs Ho. apply sorted_cons in Hs as [Hs Hk]. destruct (cmp h k) eqn:Ec.
  - injection E as <- <-. apply cmp_eq in Ec as ->. rewrite (Ho old eq_refl). split; [by apply sorted_cons|set_solver].
  - injection E as <- <-. split; [|set_solver]. apply sorted_cons. split; [by apply sorted_cons|].
    intros p [->|Hp]%elem_of_cons; [done|]. eapply clt_trans; [exact Ec|by apply Hk].
  - destruct (codes_insert h code l) as [l1 o1] eqn:E1. injection E as <- <-.
    destruct (IH l1 o1 eq_refl Hs Ho) as [Hs1 Hin]. split; [|set_solver]. apply sorted_cons. split; [done|].
    intros p [->|Hp]%Hin; [|by apply Hk]. apply not_cle. intros Hle. by apply Hle.
Qed.


(** ** The loop over the allocation *)

Abbreviation alloc_address := (λ a : Address20 * string * string * Hash32, a.1.1.1).

(** What the gathered lists satisfy. *)
Record gathered (al : Allocation) : Prop := {
  ga_accounts : NoDup (map alloc_address (al_accounts al));
  ga_fields : Forall (λ a, ∃ n w, (n <= u64_max)%N ∧ a.1.1.2 = quantity n ∧ a.1.2 = quantity_u256 w) (al_accounts al);
  ga_storage : NoDup (map fst (al_storage al));
  ga_owners : Forall (λ s, s.1.1 ∈ map alloc_address (al_accounts al)) (al_storage al);
  ga_codes : sorted_by fst (al_codes al);
  ga_blobs : Forall (λ c, ∃ b, c.2 = "0x" +:+ hex_encode b ∧ keccak b = c.1) (al_codes al)
}.

(** The entry of the allocation is in the gathered lists. *)
Definition retained (al : Allocation) (entry : string * Value) : Prop :=
  ∃ a n w code,
    address_from_str ("0x" +:+ entry.1) = Ok a ∧
    parse_quantity (str_field entry.2 "nonce" "0x0") = Ok n ∧
    parse_u256 (str_field entry.2 "balance" "0x0") = Ok w ∧
    parse_data (str_field entry.2 "code" "0x") = Ok code ∧
    (a, quantity n, quantity_u256 w, keccak code) ∈ al_accounts al ∧
    (code ≠ [] → (keccak code, "0x" +:+ hex_encode code) ∈ al_codes al) ∧
    ∀ slots k v, value_get "storage" entry.2 = Some (VObject slots) → (k, v) ∈ slots →
      ∃ slot value, hash_from_str k = Ok slot ∧ parse_hash v = Ok value ∧
        (value ≠ zero_hash → (a, slot, value) ∈ al_storage al).

Definition grows (al al' : Allocation) : Prop :=
  al_accounts al ⊆ al_accounts al' ∧ al_storage al ⊆ al_storage al' ∧ al_codes al ⊆ al_codes al'.

Lemma retained_grows al al' entry : grows al al' → retained al entry → retained al' entry.
Proof.
  intros (Ga & Gs & Gc) (a & n & w & code & E1 & E2 & E3 & E4 & Ha & Hc & Hs). exists a, n, w, code.
  split_and!; try done; [by apply Ga|intros Hne; by apply Gc, Hc|].
  intros slots k v Hg Hin. destruct (Hs slots k v Hg Hin) as (slot & value & ? & ? & Hv). exists slot, value.
  split_and!; try done. intros Hz. by apply Gs, Hv.
Qed.

(** The slots of one account. *)
Lemma add_slots address slots storage storage' :
  try_fold (add_slot address) slots storage = Ok storage' → NoDup (map fst slots) →
  NoDup (map fst storage) → (∀ k v slot, (k, v) ∈ slots → hash_from_str k = Ok slot → (address, slot) ∉ map fst storage) →
  NoDup (map fst storage') ∧ storage ⊆ storage' ∧ (∀ s, s ∈ storage' → s ∈ storage ∨ s.1.1 = address) ∧
  ∀ k v, (k, v) ∈ slots → ∃ slot value, hash_from_str k = Ok slot ∧ parse_hash v = Ok value ∧
    (value ≠ zero_hash → (address, slot, value) ∈ storage').
Proof.
  revert storage; induction slots as [|[k v] slots IH]; intros storage; simpl.
  { intros [= <-] _ Hd _. split_and!; [done|done|by left|]. intros k v Hx. by apply elem_of_nil in Hx. }
  unfold add_slot at 1. simpl. destruct (hash_from_str k) as [slot|] eqn:Ek; [|done].
  destruct (parse_hash v) as [value|] eqn:Ev; [|done]. intros Hf [Hk Hnd]%NoDup_cons Hd Hfresh.
  destruct (IH _ Hf Hnd) as (Hd' & Hsub & Hown & Hall).
  - case_bool_decide; [done|]. rewrite map_app. simpl. apply NoDup_app. split_and!; [done| |apply NoDup_singleton].
    intros x Hx ->%list_elem_of_singleton. eapply (Hfresh k v); [set_solver|done|exact Hx].
  - intros k' v' slot' Hin Hk'. case_bool_decide.
    { eapply (Hfresh k' v'); [set_solver|done]. }
    rewrite map_app. simpl. rewrite elem_of_app. intros [Hx|Hx].
    { eapply (Hfresh k' v'); [set_solver|done|exact Hx]. }
    apply list_elem_of_singleton in Hx. injection Hx as ->. apply Hk.
    apply hash_from_str_inv in Hk' as ->. apply hash_from_str_inv in Ek as ->. by apply (list_elem_of_fmap_2 fst) in Hin.
  - split_and!; [done| | |].
    + etransitivity; [|exact Hsub]. case_bool_decide; [done|]. set_solver.
    + intros s Hs. destruct (Hown s Hs) as [Hin|]; [|by right]. case_bool_decide; [by left|].
      apply elem_of_app in Hin as [Hin|Hin]; [by left|]. apply list_elem_of_singleton in Hin as ->. by right.
    + intros k' v' [[= -> ->]|Hin]%elem_of_cons; [|by apply Hall]. exists slot, value. split_and!; try done.
      intros Hz. apply Hsub. rewrite bool_decide_eq_false_2 by done. set_solver.
Qed.

Lemma add_account_ok raw state al al' :
  add_account (raw, state) al = Ok al' → wf_value state = true → gathered al →
  (∀ a, address_from_str ("0x" +:+ raw) = Ok a → a ∉ map alloc_address (al_accounts al)) →
  gathered al' ∧ grows al al' ∧ retained al' (raw, state) ∧
  ∃ x, al_accounts al' = al_accounts al ++ [x] ∧ address_from_str ("0x" +:+ raw) = Ok (alloc_address x).
Proof.
  unfold add_account. destruct (address_from_str _) as [a|] eqn:Ea; [|done].
  destruct (parse_quantity _) as [n|] eqn:En; [|done]. destruct (parse_u256 _) as [w|] eqn:Ew; [|done].
  destruct (parse_data _) as [code|] eqn:Ecode; [|done].
  destruct (if bool_decide (code = []) then _ else _) as [[ch codes]|] eqn:Ec; [|done].
  destruct (match value_get "storage" state with Some _ => _ | None => _ end) as [storage|] eqn:Es; [|done].
  intros [= <-] Hwf [Gacc Gf Gs Go Gc Gb] Hfresh. specialize (Hfresh a eq_refl).
  assert (ch = keccak code ∧ sorted_by fst codes ∧ al_codes al ⊆ codes ∧ (code ≠ [] → (keccak code, "0x" +:+ hex_encode code) ∈ codes) ∧
    Forall (λ c, ∃ b, c.2 = "0x" +:+ hex_encode b ∧ keccak b = c.1) codes) as (-> & Hcs & Hcsub & Hcin & Hcb).
  { case_bool_decide as Enil; [injection Ec as <- <-; by subst|].
    destruct (codes_insert _ _ _) as [l o] eqn:El. match type of Ec with (if ?c then _ else _) = _ => destruct c eqn:Eo; [done|] end.
    injection Ec as <- <-. apply parse_data_inv in Ecode as Etext. destruct (codes_insert_spec _ _ _ _ _ El Gc) as [Hs Hin].
    { intros c ->. by apply negb_false_iff, bool_decide_eq_true in Eo. }
    split_and!; [done|done|set_solver|intros _; apply Hin; left; by rewrite Etext|].
    apply Forall_forall. intros c [->|Hc]%Hin; [by exists code|]. rewrite Forall_forall in Gb. by apply Gb. }
  assert (NoDup (map fst storage) ∧ al_storage al ⊆ storage ∧ (∀ s, s ∈ storage → s ∈ al_storage al ∨ s.1.1 = a) ∧
    ∀ slots k v, value_get "storage" state = Some (VObject slots) → (k, v) ∈ slots →
      ∃ slot value, hash_from_str k = Ok slot ∧ parse_hash v = Ok value ∧ (value ≠ zero_hash → (a, slot, value) ∈ storage))
    as (Hsd & Hssub & Hsown & Hsall).
  { destruct (value_get "storage" state) as [sv|] eqn:Eg; [|injection Es as <-; split_and!; try done; by left].
    destruct sv as [| | | | |slots]; try done. cbn [as_object ok_or] in Es.
    pose proof (value_get_wf _ _ _ Hwf Eg) as [Hnd _]%wf_object.
    destruct (add_slots a slots (al_storage al) storage) as (H4 & H5 & H6 & H7); try done.
    { intros k v slot _ _ Hx. apply list_elem_of_fmap in Hx as (s & E & Hin). apply Hfresh.
      rewrite Forall_forall in Go. specialize (Go s Hin). by rewrite <-E in Go. }
    split_and!; try done. intros slots' k v [= <-]. apply H7. }
  split_and!.
  - split; simpl; try done.
    + rewrite map_app. apply NoDup_app. split_and!; [done| |apply NoDup_singleton]. intros x Hx ->%list_elem_of_singleton. by apply Hfresh.
    + apply Forall_app. split; [done|]. constructor; [|done]. exists n, w. split_and!; try done. by eapply parse_quantity_le.
    + apply Forall_forall. intros s Hs. rewrite map_app, elem_of_app. destruct (Hsown s Hs) as [Hin| ->]; [|set_solver].
      left. rewrite Forall_forall in Go. by apply Go.
  - split_and!; simpl; [set_solver|done|done].
  - exists a, n, w, code. split_and!; simpl; try done. set_solver.
  - by eexists.
Qed.

(** The whole allocation. *)
Lemma add_accounts_ok alloc al al' :
  try_fold add_account alloc al = Ok al' → gathered al → NoDup (map fst alloc) →
  (∀ k v, (k, v) ∈ alloc → wf_value v = true) →
  (∀ k v a, (k, v) ∈ alloc → address_from_str ("0x" +:+ k) = Ok a → a ∉ map alloc_address (al_accounts al)) →
  gathered al' ∧ grows al al' ∧ (∀ e, e ∈ alloc → retained al' e) ∧
  len (al_accounts al') = (len (al_accounts al) + len alloc)%N.
Proof.
  revert al; induction alloc as [|[k v] alloc IH]; intros al; cbn [try_fold].
  { intros [= <-] Hg _ _ _. split_and!; [done|by split_and!|set_solver|autorewrite with fossil_len; lia]. }
  destruct (add_account (k, v) al) as [al1|] eqn:E1; [|done]. intros Hf Hg [Hk Hnd]%NoDup_cons Hw Hfresh.
  destruct (add_account_ok k v al al1 E1) as (Hg1 & Hgr1 & Hr1 & x & Ex & Ax).
  { apply (Hw k). set_solver. } { done. } { intros a Ha. apply (Hfresh k v a); [set_solver|done]. }
  destruct (IH al1 Hf Hg1 Hnd) as (Hg' & Hgr' & Hr' & Hlen).
  { intros k' v' Hin. apply (Hw k'). set_solver. }
  { intros k' v' a Hin Ha. rewrite Ex, map_app, elem_of_app. intros [Hx|Hx].
    - apply (Hfresh k' v' a); [set_solver|done|done].
    - apply list_elem_of_singleton in Hx. apply Hk. subst a.
      apply parse_fixed_inv in Ha, Ax. rewrite <-Ax in Ha. injection Ha as Ha. change (k' = k) in Ha. subst k'. by apply (list_elem_of_fmap_2 fst) in Hin. }
  split_and!; [done| | |].
  - destruct Hgr1 as (? & ? & ?), Hgr' as (? & ? & ?). split_and!; by etransitivity.
  - intros e [->|He]%elem_of_cons; [by eapply retained_grows|by apply Hr'].
  - rewrite Hlen, Ex. autorewrite with fossil_len. lia.
Qed.
End facts.
