(* ===== verification/BootstrapTheorems.v ===== *)
(** * The genesis anchor is complete

    Reading two genesis files and writing their anchor always yields a package that
    the parser accepts and that holds every account, slot and code of the allocation;
    applied to a small allocation at the end. *)

From S2P Require Import Prelude Bytes SortedLists Text Externals ToyCrates Hash Json ToyValue Format FormatFacts Tiered Normalized Bootstrap NormalizedFacts PackageInput NormalizedTheorems PublishFacts PackageStaging BootstrapFacts.
From Stdlib Require Import Lia Sorting.Sorted Strings.Ascii.

Section theorems.
Context `{Sha256, Keccak256, Hex, SerdeJson, RecordJson, ZstdStream}.

(** ** The package of an allocation *)

Definition number_of (s : string) : N := match parse_quantity s with Ok n => n | Err _ => 0%N end.
Definition word_of (s : string) : array 32 := match parse_u256 s with Ok w => w | Err _ => zero_hash end.
Definition data_of (s : string) : bytes := match parse_data s with Ok b => b | Err _ => [] end.
Definition genesis_account (x : Address20 * string * string * Hash32) : AccountEvent :=
  {| ae_block := 0; ae_address := x.1.1.1; ae_exists := true; ae_incarnation := 0;
     ae_nonce := number_of x.1.1.2; ae_balance := word_of x.1.2; ae_code_hash := x.2 |}.
Definition genesis_slot (x : Address20 * Hash32 * Hash32) : StorageEvent :=
  {| se_block := 0; se_address := x.1.1; se_incarnation := 0; se_slot := x.1.2; se_value := x.2 |}.
Definition genesis_code (x : Hash32 * string) : CodeBlob :=
  {| cb_first_seen_block := 0; cb_code_hash := x.1; cb_bytes := data_of x.2 |}.
Definition genesis_block (g : Genesis) : BlockMeta :=
  {| bm_number := 0; bm_hash := gn_hash g; bm_parent_hash := gn_parent g; bm_state_root := gn_root g;
     bm_timestamp := gn_timestamp g |}.
Definition genesis_package (g : Genesis) (sha : Hash32) : Package :=
  {| pk_mode := Anchor; pk_preceding_number := None; pk_preceding_hash := None; pk_input_sha256 := sha;
     pk_segment :=
       {| sg_schema := SEGMENT_SCHEMA; sg_chain_id := gn_chain_id g; sg_genesis_hash := gn_hash g;
          sg_start_block := 0; sg_end_block := 0; sg_blocks := [genesis_block g];
          sg_accounts := map genesis_account (sort_by (λ a, a.1.1.1) (al_accounts (gn_allocation g)));
          sg_storage := map genesis_slot (sort_by (λ s, s.1) (al_storage (gn_allocation g)));
          sg_code := map genesis_code (al_codes (gn_allocation g)) |} |}.

Context `{!HexLaws, !HexCanon}.

Lemma filter_all {A} (P : A → Prop) `{∀ x, Decision (P x)} (l : list A) : Forall P l → filter P l = l.
Proof. induction 1; [done|]. rewrite filter_cons_True by done. by f_equal. Qed.

Lemma sorted_map {A B K} `{Cmp K} (f : A → B) (key : B → K) l : sorted_by (λ a, key (f a)) l → sorted_by key (map f l).
Proof. induction 1 as [|x l Hl IH Hx]; constructor; [done|]. by apply Forall_fmap. Qed.

Lemma Forall_sorted {A K} `{CmpLaws K} (key : A → K) (P : A → Prop) l : Forall P l → Forall P (sort_by key l).
Proof. intros HF. by rewrite sort_by_perm. Qed.

Lemma StronglySorted_all {A} (R : A → A → Prop) l : (∀ x y, x ∈ l → y ∈ l → R x y) → StronglySorted R l.
Proof.
  induction l as [|x l IH]; intros HR; constructor; [apply IH; set_solver|]. apply Forall_forall. intros y Hy. apply HR; set_solver.
Qed.

Lemma genesis_package_ok g sha :
  gathered (gn_allocation g) → (gn_chain_id g <= u64_max)%N → (gn_timestamp g <= u64_max)%N → package_ok (genesis_package g sha).
Proof.
  intros [Ga Gf Gs Go Gc Gb] Hc Ht. split; simpl; try done.
  - by repeat constructor.
  - exists (genesis_block g), (genesis_block g). by split_and!.
  - apply sorted_map. apply (sort_by_sorted (λ a : Address20 * string * string * Hash32, a.1.1.1)) in Ga.
    induction Ga as [|x l Hl IH Hx]; constructor; done.
  - apply Forall_fmap, Forall_sorted. eapply Forall_impl; [exact Gf|]. intros x (n & w & Hn & E1 & E2). split; [set_solver|].
    split_and!; simpl; try done. unfold number_of. by rewrite E1, parse_quantity_quantity.
  - apply sorted_map. apply (sort_by_sorted fst) in Gs.
    eapply StronglySorted_ind; [| |exact Gs]; [constructor|]. intros x l Hl IH Hx. constructor; [done|].
    eapply Forall_impl; [exact Hx|]. intros y. unfold clt, cmp, prod_cmp. simpl. unfold cmp at 1, prod_cmp. simpl. intros E.
    unfold cmp, storage_key_of, prod_cmp. simpl.
    destruct (array_cmp 20 x.1.1 y.1.1); done.
  - apply Forall_fmap, Forall_sorted, Forall_forall. intros x _. split; [set_solver|]. done.
  - rewrite map_map. simpl. eapply (NoDup_map_sorted fst fst); [exact Gc|done].
  - apply StronglySorted_all. intros x y (? & -> & _)%list_elem_of_fmap (? & -> & _)%list_elem_of_fmap. done.
  - apply Forall_fmap. eapply Forall_impl; [exact Gb|]. intros x (b & E & Hk). split; [set_solver|]. simpl.
    unfold data_of. by rewrite E, parse_data_encode.
Qed.

Lemma genesis_lines g sha :
  gathered (gn_allocation g) → genesis_values g = map record_value (package_input (genesis_package g sha)).
Proof.
  intros [Ga Gf Gs Go Gc Gb]. unfold genesis_values, package_input. cbn [genesis_package pk_segment sg_blocks head last].
  rewrite map_cons. cbn [map concat]. unfold block_input, events_of, accounts_of, storage_of, code_of.
  cbn [genesis_package pk_segment sg_accounts sg_storage sg_code genesis_block bm_number].
  rewrite !filter_all by (apply Forall_fmap, Forall_forall; done).
  rewrite app_nil_r. cbn [app map]. rewrite <-!app_assoc. rewrite !map_app, !map_map, !len_map. 
  apply (f_equal2 cons); [reflexivity|]. apply (f_equal2 cons); [reflexivity|].
  assert (∀ (A : Type) (f g : A → Value) l, Forall (λ x, f x = g x) l → map f l = map g l) as Hmap.
  { intros A f f' l HF. induction HF as [|x l Hx _ IH]; simpl; [done|]. by rewrite Hx, IH. }
  apply (f_equal2 app); [|apply (f_equal2 app); [|apply (f_equal2 app); [|reflexivity]]]; apply Hmap.
  - apply Forall_sorted. eapply Forall_impl; [exact Gf|]. intros [[[a n] b] c] (m & w & Hm & En & Eb). simpl in *.
    unfold genesis_account, account_input, number_of, word_of. simpl. subst n b.
    rewrite parse_quantity_quantity, parse_u256_quantity by done. reflexivity.
  - apply Forall_forall. by intros [[a k] v] _.
  - eapply Forall_impl; [exact Gb|]. intros [h c] (b & E & Hk). simpl in *. subst c.
    unfold genesis_code, code_input, data_of. simpl. rewrite parse_data_encode. reflexivity.
Qed.

(** ** Plain text *)

Lemma plain_lower_hex b : plain_string (lower_hex b).
Proof.
  unfold plain_string, plain, byte_string. induction b as [|x b IH]; simpl; [constructor|].
  destruct (byte_nibbles x) as [Hh Hl].
  assert (∀ d, (d < 16)%N → (33 <= byte_N (Ascii.byte_of_ascii (hex_digit d)) < 127)%N) as Hd.
  { intros d Hd. assert (Forall (λ m, (33 <= byte_N (Ascii.byte_of_ascii (hex_digit m)) < 127)%N) nibbles) as HF
      by (repeat constructor; vm_compute; done). by apply (proj1 (Forall_forall _ _) HF), nibble_cases. }
  by repeat constructor; try apply Hd.
Qed.

Lemma plain_string_app s t : plain_string s → plain_string t → plain_string (s +:+ t).
Proof.
  unfold plain_string, plain. intros Hs Ht. induction s as [|c s IH]; [done|].
  change (byte_string (String c s +:+ t)) with (Ascii.byte_of_ascii c :: byte_string (s +:+ t)).
  change (byte_string (String c s)) with (Ascii.byte_of_ascii c :: byte_string s) in Hs.
  apply Forall_cons in Hs as [Hc Hs]. constructor; [done|by apply IH].
Qed.
Lemma plain_digit d s : (d < 16)%N → plain_string s → plain_string (String (hex_digit d) s).
Proof.
  intros Hd Hs. assert (∀ m, m ∈ nibbles → (33 <= byte_N (Ascii.byte_of_ascii (hex_digit m)) < 127)%N) as HF.
  { apply Forall_forall. repeat constructor; vm_compute; done. }
  constructor; [|exact Hs]. by apply HF, nibble_cases.
Qed.
Lemma plain_quantity n : plain_string (quantity n).
Proof.
  unfold quantity. apply plain_string_app; [repeat constructor; vm_compute; done|]. unfold format_x.
  assert (∀ fuel s n, plain_string s → plain_string (hex_digits fuel n s)) as Hd; [|apply Hd; constructor].
  induction fuel as [|fuel IH]; intros s m Hs; simpl; [done|].
  assert (plain_string (String (hex_digit (m mod 16)) s)) by (apply plain_digit; [by apply N.mod_lt|done]).
  destruct (_ =? _)%N; [done|by apply IH].
Qed.
Lemma plain_hex b : plain_string ("0x" +:+ hex_encode b).
Proof. rewrite hex_encode_spec. apply plain_string_app; [repeat constructor; vm_compute; done|apply plain_lower_hex]. Qed.
Lemma plain_u256 w : plain_string (quantity_u256 w).
Proof.
  unfold quantity_u256. destruct (from_first_nonzero _) as [rest|]; [|repeat constructor; vm_compute; done].
  rewrite hex_encode_spec. apply plain_string_app; [repeat constructor; vm_compute; done|].
  pose proof (plain_lower_hex rest) as Hp. destruct (trim_spec (lower_hex rest)) as [n E]. rewrite E in Hp.
  revert Hp. generalize (trim_start_zeros (lower_hex rest)). clear. intros s. induction n as [|n IH]; [done|].
  intros Hp. apply IH. cbn [zeros] in Hp. change (String "0"%char (zeros n) +:+ s) with (String "0"%char (zeros n +:+ s)) in Hp.
  by apply Forall_cons in Hp as [_ Hp].
Qed.

Abbreviation plain_fields := (Forall (λ p : string * Value, plain_string p.1 ∧ plain_value p.2)).
Lemma plain_object l : plain_value (VObject l) ↔ plain_fields l.
Proof. simpl. induction l as [|p l IH]; simpl; [by split|]. rewrite Forall_cons. tauto. Qed.
Lemma plain_json_object l : plain_fields l → plain_value (json_object l).
Proof.
  intros Hl. unfold json_object. apply plain_object.
  assert (∀ acc, plain_fields acc → plain_fields (fold_left (λ l p, obj_insert p.1 p.2 l) l acc)) as Hf; [|by apply Hf].
  induction Hl as [|p l Hp _ IH]; intros acc Ha; simpl; [done|]. apply IH.
  destruct p as [k' v']. simpl in *.
  induction Ha as [|[k w] acc Hq Ha IHa]; simpl; [by constructor|]. destruct (cmp k' k); by repeat (apply Forall_cons; split).
Qed.

#[local] Hint Resolve plain_quantity plain_hex plain_u256 : plain.
Lemma plain_hash h : plain_string (hash_to_string h).
Proof. apply plain_hex. Qed.
Lemma plain_address a : plain_string (address_to_string a).
Proof. apply plain_hex. Qed.
#[local] Hint Resolve plain_hash plain_address : plain.
Ltac plain_record :=
  apply plain_json_object; simpl;
  repeat match goal with |- Forall _ (_ :: _) => apply Forall_cons; split | |- Forall _ [] => apply Forall_nil_2 end;
  (split; [simpl; repeat constructor; vm_compute; done|]);
  cbn [snd plain_value VHash VAddress]; first [exact I|by eauto with plain|by repeat constructor; vm_compute].

Lemma package_input_plain p r : r ∈ package_input p → plain_value (record_value r).
Proof.
  unfold package_input. destruct (head _) as [first|]; [|by intros ?%elem_of_nil].
  destruct (last _) as [stop|]; [|by intros ?%elem_of_nil].
  rewrite elem_of_cons, elem_of_app, elem_of_concat. intros [->|[(l & Hr & Hl)| ->%list_elem_of_singleton]].
  - unfold header_input, package_header. destruct (pk_mode p), (pk_preceding_number p), (pk_preceding_hash p); plain_record.
  - apply list_elem_of_fmap in Hl as (b & -> & _). unfold block_input in Hr.
    rewrite elem_of_cons, !elem_of_app in Hr.
    destruct Hr as [->|[Hr|[Hr|[Hr| ->%list_elem_of_singleton]]]];
      try (apply list_elem_of_fmap in Hr as (e & -> & _)); try plain_record.
    unfold account_input, live_field. destruct (ae_exists e); plain_record.
  - plain_record.
Qed.

(** ** The written package *)

Context `{!SerdeJsonLaws, !RecordJsonLaws}.

Lemma append_lines l out : fold_left append_line l out = out ++ text_of (map value_to_vec l).
Proof.
  revert out; induction l as [|v l IH]; intros out; simpl; [by rewrite app_nil_r|].
  rewrite IH. unfold append_line, text_of. simpl. by rewrite <-!app_assoc.
Qed.

(** Plain text does not start with the magic bytes of a zstd frame. *)
Lemma text_not_zstd l : Forall (λ line, plain line ∧ line ≠ []) l → starts_with (text_of l) ZSTD_MAGIC = false.
Proof.
  intros HF. destruct HF as [|line l [Hp Hne] HF]; [done|]. unfold starts_with. apply bool_decide_eq_false.
  destruct line as [|x line]; [done|]. unfold text_of. simpl. intros E. injection E as _ E.
  destruct line as [|y line]; simpl in E; [by injection E|]. injection E as E _. subst y.
  apply Forall_cons in Hp as [_ Hp]. apply Forall_cons in Hp as [[_ Hp] _]. by vm_compute in Hp.
Qed.

Lemma read_genesis_ok gb bb g :
  read_genesis gb bb = Ok g →
  gathered (gn_allocation g) ∧ (gn_chain_id g <= u64_max)%N ∧ (gn_timestamp g <= u64_max)%N ∧
  (∀ e, e ∈ gn_alloc g → retained (gn_allocation g) e) ∧ len (al_accounts (gn_allocation g)) = len (gn_alloc g).
Proof.
  unfold read_genesis. destruct (value_from_slice gb) as [gv|] eqn:Eg; [|done]. cbn [with_context].
  destruct (value_from_slice bb) as [bv|] eqn:Eb; [|done]. cbn [with_context]. apply value_parsed_wf in Eg.
  destruct (as_u64 _) as [cid|] eqn:Ecid; [|done]. cbn [ok_or]. destruct (negb _); [done|].
  destruct (parse_hash _) as [h|]; [|done]. destruct (parse_hash _) as [par|]; [|done]. destruct (negb _); [done|].
  destruct (parse_hash _) as [root|]; [|done]. destruct (as_str _) as [ts|]; [|done]. cbn [ok_or].
  destruct (parse_quantity ts) as [t|] eqn:Et; [|done].
  destruct (as_object _) as [alloc|] eqn:Ea; [|done]. cbn [ok_or]. case_bool_decide; [done|].
  destruct (try_fold _ _ _) as [al|] eqn:Ef; [|done]. intros [= <-]. simpl.
  assert (wf_value (VObject alloc) = true) as Hwf.
  { pose proof (value_index_wf "alloc" gv Eg) as Hw. destruct (value_index gv "alloc"); try done. by injection Ea as <-. }
  apply wf_object in Hwf as [Hnd Hin].
  destruct (add_accounts_ok alloc allocation_start al Ef) as (Hga & _ & Hr & Hlen); [|done|done|set_solver|].
  { split; simpl; constructor. }
  split_and!; [done| |by eapply parse_quantity_le|done|done].
  pose proof (value_index_wf "chainId" _ (value_index_wf "config" gv Eg)) as Hw.
  destruct (value_index (value_index gv "config") "chainId") as [| |[n| |]| | |]; try done.
  injection Ecid as <-. by apply N.leb_le in Hw.
Qed.

(** An entry of the allocation, as the events of a package. *)
Definition entry_in (s : Segment) (entry : string * Value) : Prop :=
  ∃ e code,
    e ∈ sg_accounts s ∧ ae_exists e = true ∧ address_from_str ("0x" +:+ entry.1) = Ok (ae_address e) ∧
    parse_quantity (str_field entry.2 "nonce" "0x0") = Ok (ae_nonce e) ∧
    parse_u256 (str_field entry.2 "balance" "0x0") = Ok (ae_balance e) ∧
    parse_data (str_field entry.2 "code" "0x") = Ok code ∧ ae_code_hash e = keccak code ∧
    (code ≠ [] → {| cb_first_seen_block := 0; cb_code_hash := keccak code; cb_bytes := code |} ∈ sg_code s) ∧
    ∀ slots k v, value_get "storage" entry.2 = Some (VObject slots) → (k, v) ∈ slots →
      ∃ slot value, hash_from_str k = Ok slot ∧ parse_hash v = Ok value ∧
        (value ≠ zero_hash → {| se_block := 0; se_address := ae_address e; se_incarnation := 0;
                                se_slot := slot; se_value := value |} ∈ sg_storage s).

Lemma retained_entry g sha entry :
  retained (gn_allocation g) entry → entry_in (pk_segment (genesis_package g sha)) entry.
Proof.
  intros (a & n & w & code & Ea & En & Ew & Ec & Hacc & Hcode & Hslots).
  exists (genesis_account (a, quantity n, quantity_u256 w, keccak code)), code.
  pose proof (parse_quantity_le _ _ En) as Hn. simpl. unfold number_of, word_of. simpl.
  rewrite parse_quantity_quantity, parse_u256_quantity by done. split_and!; try done.
  - unfold genesis_account. simpl. apply list_elem_of_fmap. exists (a, quantity n, quantity_u256 w, keccak code).
    split; [|by rewrite sort_by_perm]. unfold genesis_account, number_of, word_of. simpl.
    by rewrite parse_quantity_quantity, parse_u256_quantity.
  - intros Hne. apply list_elem_of_fmap. eexists. split; [|by apply Hcode]. unfold genesis_code, data_of. simpl.
    by rewrite parse_data_encode.
  - intros slots k v Hg Hin. destruct (Hslots slots k v Hg Hin) as (slot & value & ? & ? & Hv).
    exists slot, value. split_and!; try done. intros Hz. apply list_elem_of_fmap. exists (a, slot, value).
    split; [done|]. rewrite sort_by_perm. by apply Hv.
Qed.

(** C19: the genesis anchor is complete.  Whenever the two inputs can be read,
    [genesis_anchor] succeeds: its own check of what it wrote never fails.  The
    package it writes is an anchor at block zero with exactly one account event
    per entry of the allocation, holding the entry's nonce, balance and code
    hash, and with every non-empty code and every non-zero slot. *)
Theorem genesis_anchor_complete gb bb g :
  read_genesis gb bb = Ok g →
  (len (al_accounts (gn_allocation g)) + len (al_storage (gn_allocation g)) + len (al_codes (gn_allocation g)) <= u64_max)%N →
  ∃ output p, genesis_anchor gb bb = Ok output ∧ read_package output = Ok p ∧
    pk_mode p = Anchor ∧ sg_blocks (pk_segment p) = [genesis_block g] ∧ sg_chain_id (pk_segment p) = gn_chain_id g ∧
    len (sg_accounts (pk_segment p)) = len (gn_alloc g) ∧ ∀ entry, entry ∈ gn_alloc g → entry_in (pk_segment p) entry.
Proof.
  intros Hg Hfit. destruct (read_genesis_ok gb bb g Hg) as (Hga & Hc & Ht & Hr & Hlen).
  set (out := fold_left append_line (genesis_values g) []). set (p := genesis_package g (digest out)).
  assert (out = text_of (map (λ r, value_to_vec (record_value r)) (package_input p))) as Eout.
  { unfold out at 1. rewrite append_lines, app_nil_l, (genesis_lines g (digest out)) by done. by rewrite map_map. }
  assert (∀ r, r ∈ package_input p → record_from_str (value_to_vec (record_value r)) = Ok r ∧
    plain (value_to_vec (record_value r)) ∧ value_to_vec (record_value r) ≠ []) as Hprint.
  { intros r Hin%package_input_plain. split; [by apply record_round|by apply value_plain]. }
  assert (len (sg_accounts (pk_segment p)) = len (gn_alloc g)) as Hacc.
  { simpl. rewrite len_map, <-Hlen. unfold len. by rewrite sort_by_perm. }
  assert (read_package out = Ok p) as Hread.
  { unfold read_package. rewrite Eout at 1. rewrite text_not_zstd.
    2: { apply Forall_forall. intros line (r & -> & Hin)%list_elem_of_fmap. by apply Hprint. }
    rewrite Eout at 1. rewrite parse_text by done.
    apply package_input_read; [by apply genesis_package_ok|]. split; simpl.
    - rewrite !len_map. unfold len. rewrite !sort_by_perm. exact Hfit.
    - autorewrite with fossil_len. unfold u64_max. lia. }
  exists out, p. split_and!; try done.
  - unfold genesis_anchor. rewrite Hg. fold out. rewrite Hread, Hacc, N.eqb_refl. done.
  - intros entry He. by apply retained_entry, Hr.
Qed.
End theorems.

(** ** A concrete genesis *)

Module GenesisExample.
Import PackageExample.
#[local] Existing Instances toy_sha toy_keccak toy_hex toy_hex_laws toy_hex_canon toy_serde toy_serde_laws toy_record toy_record_laws.
Definition toy_stream : ZstdStream := {| zstd_open := λ _, bail "no frame"; zstd_read := λ _ _, bail "no frame" |}.
#[local] Existing Instance toy_stream.

Definition genesis_json : Value :=
  json_object
    [("config", json_object [("chainId", VNumber (PosInt 10))]);
     ("alloc", json_object
        [(lower_hex (arr (addr 1)),
          json_object [("balance", VString "0x12c"); ("nonce", VString "0x1"); ("code", VString "0x6001");
                       ("storage", json_object [(hash_to_string (hash 1), VHash (hash 7)); (hash_to_string (hash 2), VHash zero_hash)])]);
         (lower_hex (arr (addr 2)), json_object [("balance", VString "0x0")])])].
Definition block_json : Value :=
  json_object [("number", VString "0x0"); ("hash", VHash (hash 100)); ("parentHash", VHash zero_hash);
               ("stateRoot", VHash (hash 200)); ("timestamp", VString "0x3e8")].
Definition genesis : Genesis :=
  {| gn_chain_id := 10; gn_hash := hash 100; gn_parent := zero_hash; gn_root := hash 200; gn_timestamp := 1000;
     gn_alloc := default [] (as_object (value_index genesis_json "alloc"));
     gn_allocation :=
       {| al_accounts := [(addr 1, "0x1", "0x12c", keccak code_bytes); (addr 2, "0x0", "0x0", keccak [])];
          al_storage := [(addr 1, hash 1, hash 7)]; al_codes := [(keccak code_bytes, "0x6001")] |} |}.

Lemma toy_value_read v : wf_value v = true → value_from_slice (toy_to_vec v) = Ok v.
Proof. intros Hv. cbn. unfold toy_parse. by rewrite toy_from_to, Hv. Qed.
Lemma genesis_read : read_genesis (toy_to_vec genesis_json) (toy_to_vec block_json) = Ok genesis.
Proof. unfold read_genesis. rewrite !toy_value_read by (vm_compute; reflexivity). vm_compute. reflexivity. Qed.

Lemma genesis_anchor_complete_witness :
  ∃ output p, genesis_anchor (toy_to_vec genesis_json) (toy_to_vec block_json) = Ok output ∧ read_package output = Ok p ∧
    pk_mode p = Anchor ∧ sg_blocks (pk_segment p) = [genesis_block genesis] ∧ sg_chain_id (pk_segment p) = gn_chain_id genesis ∧
    len (sg_accounts (pk_segment p)) = len (gn_alloc genesis) ∧
    ∀ entry, entry ∈ gn_alloc genesis → entry_in (pk_segment p) entry.
Proof. apply genesis_anchor_complete; [exact genesis_read|vm_compute; discriminate]. Defined.
End GenesisExample.
