(* ===== verification/StateProbe.v ===== *)
(** * [tools/base-export/probe/src/main.rs]: what a block changed

    The exporter's probe executes a range of blocks and prints, for each, one line of
    JSON with the accounts, slots and codes that it changed.  The node, its executor
    and the bundle of changes are crates ([reth], [revm], [alloy]) and not part of the
    sources: [Revm] and [Reth] are the fields and methods that the probe reads, and
    [replays] what it relies on, that a bundle says how a block led from one state of
    the chain to the next.

    The lines are proved complete: each says everything about the state after its
    block, given the state before ([explains], [explains_unique]). *)

From S2P Require Import Prelude Bytes Text Externals Json Format FormatFacts Tiered BootstrapFacts.
From Stdlib Require Import Lia ZArith.

(** ** The crates *)

(** [BundleState] and its parts; a [HashMap] is the list of its entries in the order
    of iteration, and a [U256] a number. *)
Class Revm := {
  Code : Type;
  original_bytes : Code → bytes;
  Info : Type;
  nonce : Info → N;
  balance : Info → N;
  code_hash : Info → Hash32;
  info_code : Info → option Code;
  Slot : Type;
  present_value : Slot → N;
  is_changed : Slot → bool;
  BundleAccount : Type;
  info : BundleAccount → option Info;
  original_info : BundleAccount → option Info;
  storage : BundleAccount → list (N * Slot);
  was_destroyed : BundleAccount → bool;
  is_info_changed : BundleAccount → bool;
  is_contract_changed : BundleAccount → bool;
  Revert : Type;
  wipe_storage : Revert → bool;
  BundleState : Type;
  reverts : BundleState → list (list (Address20 * Revert));
  bundle_state : BundleState → list (Address20 * BundleAccount);
  contracts : BundleState → Hash32 → option Code
}.

(** Providers of historical state, blocks and the executor. *)
Class Reth `{Revm} := {
  StateProvider : Type;
  RecoveredBlock : Type;
  block_hash : RecoveredBlock → Hash32;
  block_parent_hash : RecoveredBlock → Hash32;
  block_state_root : RecoveredBlock → Hash32;
  block_timestamp : RecoveredBlock → N;
  Output : Type;
  ExecutorState : Type;
  execute_one : StateProvider → RecoveredBlock → result (Output * ExecutorState);
  validate_block_post_execution : RecoveredBlock → Output → result unit;
  take_bundle : ExecutorState → BundleState
}.

(** The calls of the probe. *)
Inductive probeE `{Reth} : Type → Type :=
| PrRuntime : probeE (result unit)
| PrOpenReadOnly (datadir : string) : probeE (result unit)
| PrProvider : probeE (result unit)
| PrHistory (number : N) : probeE (result StateProvider)
| PrBlock (number : N) : probeE (result (option RecoveredBlock))
| PrPrintln (line : bytes) : probeE unit.

(** ** Text *)

(** [{:#x}] of a [B256], an [Address] and a [U256], and [U256::to_be_bytes::<32>]. *)
Definition format_b256 (h : Hash32) : string := "0x" +:+ lower_hex (arr h).
Definition format_address (a : Address20) : string := "0x" +:+ lower_hex (arr a).
Definition format_u256 (n : N) : string := "0x" +:+ hex_digits 64 n "".
Definition to_be_bytes32 (n : N) : Hash32 :=
  Array (to_be 32 n) (eq_ind_r (λ m, (m =? 32)%nat = true) (Nat.eqb_refl 32) (length_to_be 32 n)).
Definition format_word (n : N) : string := format_b256 (to_be_bytes32 n).

(** ** The delta of a block *)

(** The three [BTreeMap]s, as the entries of JSON objects. *)
Record Delta := {
  dl_accounts : list (string * Value);
  dl_storage : list (string * Value);
  dl_codes : list (string * Value)
}.
Definition delta_start : Delta := {| dl_accounts := []; dl_storage := []; dl_codes := [] |}.

Section delta.
Context `{Keccak256, Revm}.

(** The addresses whose storage was wiped. *)
Definition wiped_addresses (revert : list (Address20 * Revert)) : list Address20 :=
  map fst (List.filter (λ p, wipe_storage p.2) revert).
Definition destroyed (wiped : list Address20) (address : Address20) (account : BundleAccount) : bool :=
  bool_decide (address ∈ wiped) || was_destroyed account.

Definition slot_changed (account : BundleAccount) (gone : bool) (value : Slot) : bool :=
  match info account with Some _ => true | None => false end
  && (is_changed value || gone && negb (present_value value =? 0)%N).
Definition changed_slots (account : BundleAccount) (gone : bool) : list (string * Value) :=
  fold_left (λ m '(slot, value),
      if slot_changed account gone value
      then obj_insert (format_word slot) (VString (format_word (present_value value))) m else m)
    (storage account) [].

(** The code of a contract that the block changed. *)
Definition changed_code (bundle : BundleState) (account : BundleAccount) (i : Info) : option Code :=
  if is_contract_changed account && negb (bool_decide (code_hash i = keccak []))
  then match contracts bundle (code_hash i) with Some code => Some code | None => info_code i end
  else None.
Definition info_json (i : option Info) : Value :=
  match i with
  | Some i => json_object [("exists", VBool true); ("nonce", VString (quantity (nonce i)));
                           ("balance", VString (format_u256 (balance i))); ("code_hash", VString (format_b256 (code_hash i)))]
  | None => json_object [("exists", VBool false)]
  end.

(** One turn of the loop over [bundle.state]. *)
Definition add_changed (bundle : BundleState) (wiped : list Address20) (d : Delta) (entry : Address20 * BundleAccount) : Delta :=
  let '(address, account) := entry in
  let gone := destroyed wiped address account in
  let slots := changed_slots account gone in
  let storage := if bool_decide (slots = []) then dl_storage d
                 else obj_insert (format_address address) (VObject slots) (dl_storage d) in
  if is_info_changed account || gone then
    let codes :=
      match info account with
      | Some i =>
          match changed_code bundle account i with
          | Some code => obj_insert (format_b256 (code_hash i)) (VString ("0x" +:+ lower_hex (original_bytes code))) (dl_codes d)
          | None => dl_codes d
          end
      | None => dl_codes d
      end in
    let state := info_json (info account) in
    {| dl_accounts := obj_insert (format_address address)
         (json_object [("state", state);
                       ("previous_exists", VBool (match original_info account with Some _ => true | None => false end));
                       ("wiped_storage", VBool gone)]) (dl_accounts d);
       dl_storage := storage; dl_codes := codes |}
  else {| dl_accounts := dl_accounts d; dl_storage := storage; dl_codes := dl_codes d |}.
Definition block_delta (bundle : BundleState) (revert : list (Address20 * Revert)) : Delta :=
  fold_left (add_changed bundle (wiped_addresses revert)) (bundle_state bundle) delta_start.
End delta.

(** ** The program *)

Section program.
Context `{Keccak256, SerdeJson, Reth}.

Definition block_record (number : N) (block : RecoveredBlock) (d : Delta) : Value :=
  json_object [("block", VNumber (PosInt number));
               ("hash", VString (format_b256 (block_hash block)));
               ("parent_hash", VString (format_b256 (block_parent_hash block)));
               ("state_root", VString (format_b256 (block_state_root block)));
               ("timestamp", VString (quantity (block_timestamp block)));
               ("accounts", VObject (dl_accounts d)); ("storage", VObject (dl_storage d)); ("codes", VObject (dl_codes d))].

(** One turn of the loop over the range. *)
Definition export_block (number : N) : prog probeE (result unit) :=
  let! _ := request PrProvider in
  let! state := request (PrHistory (number - 1)) in
  let! found := request (PrBlock number) in
  let!? block := ok_or found "block missing" in
  let!? (output, executor) := execute_one state block in
  let!? _ := validate_block_post_execution block output in
  let bundle := take_bundle executor in
  match reverts bundle with
  | [revert] =>
      let* _ := request (PrPrintln (value_to_vec (block_record number block (block_delta bundle revert)))) in
      Ret (Ok tt)
  | _ => Ret (bail "expected one block of reverts")
  end.
Fixpoint export_blocks (count : nat) (number : N) : prog probeE (result unit) :=
  match count with
  | O => Ret (Ok tt)
  | S count => let! _ := export_block number in export_blocks count (number + 1)
  end.

Definition MAX_EXPORT_BLOCKS : N := 1000.
Definition export_range (args : list string) : result (string * N * N) :=
  match args with
  | [_; datadir; first; last] =>
      let? first := ok_or (parse_u64 (byte_string first)) "invalid digit found in string" in
      let? last := ok_or (parse_u64 (byte_string last)) "invalid digit found in string" in
      if (first =? 0)%N || (last <? first)%N || (MAX_EXPORT_BLOCKS <=? last - first)%N
      then bail "expected 1 <= first <= last with at most 1000 blocks"
      else Ok (datadir, first, last)
  | _ => bail "usage: fossil-state-probe <datadir> <first> <last>"
  end.
Definition export_main (args : list string) : prog probeE (result unit) :=
  let!? (datadir, first, last) := export_range args in
  let! _ := request PrRuntime in
  let! _ := request (PrOpenReadOnly datadir) in
  export_blocks (N.to_nat (last - first + 1)) first.
End program.

(** ** Maps of JSON *)

Lemma string_cmp_eq (a b : string) : cmp a b = Eq ↔ a = b.
Proof.
  unfold cmp, string_cmp. rewrite (cmp_eq (byte_string a) (byte_string b)). split; [apply byte_string_inj|by intros ->].
Qed.
Lemma obj_get_insert k k' v l :
  obj_get k (obj_insert k' v l) = if decide (k = k') then Some v else obj_get k l.
Proof.
  induction l as [|[k1 w] l IH]; cbn [obj_insert obj_get].
  - case_bool_decide; destruct (decide _); congruence.
  - destruct (cmp k' k1) eqn:E; cbn [obj_get].
    + apply string_cmp_eq in E as <-. repeat case_bool_decide; destruct (decide _); congruence.
    + repeat case_bool_decide; destruct (decide _); congruence.
    + rewrite IH. case_bool_decide as E1; [|done]. destruct (decide (k = k')) as [->|]; [|done]. subst.
      by rewrite (proj2 (string_cmp_eq _ _) eq_refl) in E.
Qed.

(** Loops that insert some of what they see. *)
Section inserts.
Context {A : Type} (cond : A → bool) (key : A → string) (val : A → Value).
Definition inserts (l : list A) (m : list (string * Value)) : list (string * Value) :=
  fold_left (λ m x, if cond x then obj_insert (key x) (val x) m else m) l m.

Lemma inserts_other l m k : (∀ x, x ∈ l → cond x = true → key x ≠ k) → obj_get k (inserts l m) = obj_get k m.
Proof.
  revert m; induction l as [|x l IH]; intros m Hl; [done|]. cbn [inserts fold_left]. change (fold_left _ l ?m) with (inserts l m).
  rewrite IH by (intros y Hy; apply Hl; by right). destruct (cond x) eqn:E; [|done].
  rewrite obj_get_insert, decide_False; [done|]. intros ->. eapply Hl; [by left|done|done].
Qed.
Lemma inserts_one l m x :
  x ∈ l → cond x = true → (∀ y, y ∈ l → cond y = true → key y = key x → val y = val x) →
  obj_get (key x) (inserts l m) = Some (val x).
Proof.
  intros Hx Hc Hsame. revert m. induction l as [|y l IH] using rev_ind; intros m; [by apply elem_of_nil in Hx|].
  unfold inserts. rewrite fold_left_app. cbn [fold_left]. change (fold_left _ l m) with (inserts l m).
  destruct (decide (cond y = true ∧ key y = key x)) as [[Hy Hk]|Hn].
  - rewrite Hy, obj_get_insert, decide_True by done. f_equal. apply Hsame; [|done..]. apply elem_of_app. right. by left.
  - assert (x ∈ l) as Hin.
    { apply elem_of_app in Hx as [|Hx%list_elem_of_singleton]; [done|]. subst. tauto. }
    assert (obj_get (key x) (inserts l m) = Some (val x)) as Hg.
    { apply IH; [done|]. intros z Hz. apply Hsame. apply elem_of_app. by left. }
    destruct (cond y); [|done]. rewrite obj_get_insert, decide_False; [done|]. intros E. by apply Hn.
Qed.
End inserts.

(** ** Text determines what it denotes *)

(** What hexadecimal digits denote. *)
Fixpoint hex_value (acc : N) (s : string) : N :=
  match s with
  | EmptyString => acc
  | String c s => hex_value (acc * 16 + default 0%N (digit_value c)) s
  end.
Lemma hex_digits_value fuel n s : (n < 16 ^ N.of_nat fuel)%N → 0 < fuel → hex_value 0 (hex_digits fuel n s) = hex_value n s.
Proof.
  revert n s; induction fuel as [|fuel IH]; intros n s Hn Hf; [lia|]. cbn [hex_digits].
  assert (digit_value (hex_digit (n mod 16)) = Some (n mod 16)%N) as Hd by (apply digit_value_hex, N.mod_lt; done).
  rewrite Nat2N.inj_succ, N.pow_succ_r' in Hn.
  assert (n / 16 < 16 ^ N.of_nat fuel)%N as Hq by (apply N.Div0.div_lt_upper_bound; lia).
  destruct (n / 16 =? 0)%N eqn:E.
  - cbn [hex_value]. rewrite Hd. simpl. apply N.eqb_eq in E. f_equal. pose proof (N.div_mod n 16 ltac:(done)). lia.
  - apply N.eqb_neq in E. destruct fuel as [|fuel].
    { exfalso. by apply E, N.lt_1_r. }
    rewrite IH by (done || lia).
    cbn [hex_value]. rewrite Hd. simpl. f_equal. pose proof (N.div_mod n 16 ltac:(done)). lia.
Qed.

Lemma format_u256_inj m n : (m < 2 ^ 256)%N → (n < 2 ^ 256)%N → format_u256 m = format_u256 n → m = n.
Proof.
  intros Hm Hn E. change (2 ^ 256)%N with (16 ^ N.of_nat 64)%N in *. apply string_app_inj in E as [_ E]; [|done].
  apply (f_equal (hex_value 0)) in E. rewrite !hex_digits_value in E by (done || lia). done.
Qed.
Lemma quantity_inj m n : (m <= u64_max)%N → (n <= u64_max)%N → quantity m = quantity n → m = n.
Proof.
  intros Hm Hn E. apply string_app_inj in E as [_ E]; [|done]. unfold format_x in E.
  assert (u64_max < 16 ^ N.of_nat 16)%N as Hmax by done.
  apply (f_equal (hex_value 0)) in E. rewrite !hex_digits_value in E by (done || lia). done.
Qed.
Lemma format_b256_inj a b : format_b256 a = format_b256 b → a = b.
Proof. intros E. apply string_app_inj in E as [_ E]; [|done]. by apply arr_inj, lower_hex_inj. Qed.
Lemma format_address_inj a b : format_address a = format_address b → a = b.
Proof. intros E. apply string_app_inj in E as [_ E]; [|done]. by apply arr_inj, lower_hex_inj. Qed.
Lemma format_word_inj m n : (m < 2 ^ 256)%N → (n < 2 ^ 256)%N → format_word m = format_word n → m = n.
Proof.
  intros Hm Hn E%format_b256_inj. apply (f_equal arr) in E. simpl in E. by apply to_be_inj in E.
Qed.

(** ** States of the chain *)

(** The nonce, balance and code hash of the accounts that exist; the slots; and the
    code behind a hash. *)
Record World := {
  wd_account : Address20 → option (N * N * Hash32);
  wd_slot : Address20 → N → N;
  wd_code : Hash32 → bytes
}.
Definition hash_of (account : option (N * N * Hash32)) : option Hash32 := snd <$> account.
Record wf_world (w : World) : Prop := {
  ww_account a nonce balance h : wd_account w a = Some (nonce, balance, h) → (nonce <= u64_max)%N ∧ (balance < 2 ^ 256)%N;
  ww_slot a slot : (wd_slot w a slot < 2 ^ 256)%N;
  (** An account that does not exist has no storage. *)
  ww_absent a slot : wd_account w a = None → wd_slot w a slot = 0%N
}.

(** Part of a line. *)
Definition entry (map key : string) (record : Value) : option Value := m ← value_get map record; value_get key m.
(** An account as a line tells it. *)
Definition tells (state : Value) (account : option (N * N * Hash32)) : Prop :=
  match account with
  | None => value_get "exists" state = Some (VBool false)
  | Some (nonce, balance, h) =>
      value_get "exists" state = Some (VBool true) ∧ value_get "nonce" state = Some (VString (quantity nonce)) ∧
      value_get "balance" state = Some (VString (format_u256 balance)) ∧
      value_get "code_hash" state = Some (VString (format_b256 h))
  end.
Definition tells_wiped (record : Value) (a : Address20) : bool :=
  default false (e ← entry "accounts" (format_address a) record; w ← value_get "wiped_storage" e; as_bool w).

(** A line says what its block changed: accounts and slots that it does not mention
    are as they were. *)
Record explains `{Keccak256} (record : Value) (pre post : World) : Prop := {
  ex_account a :
    match entry "accounts" (format_address a) record with
    | None => wd_account post a = wd_account pre a
    | Some e =>
        value_get "previous_exists" e = Some (VBool (bool_decide (is_Some (wd_account pre a)))) ∧
        ∃ state, value_get "state" e = Some state ∧ tells state (wd_account post a)
    end;
  ex_slot a slot : (slot < 2 ^ 256)%N →
    match entry "storage" (format_address a) record ≫= value_get (format_word slot) with
    | None => wd_slot post a slot = if tells_wiped record a then 0%N else wd_slot pre a slot
    | Some v => v = VString (format_word (wd_slot post a slot))
    end;
  ex_code a h : hash_of (wd_account post a) = Some h → hash_of (wd_account pre a) ≠ Some h → h ≠ keccak [] →
    entry "codes" (format_b256 h) record = Some (VString ("0x" +:+ lower_hex (wd_code post h)))
}.

(** Nothing else can have happened. *)
Definition same_state (w w' : World) : Prop :=
  (∀ a, wd_account w a = wd_account w' a) ∧ ∀ a slot, (slot < 2 ^ 256)%N → wd_slot w a slot = wd_slot w' a slot.

Lemma some_string_inj a b : Some (VString a) = Some (VString b) → a = b.
Proof. generalize a b. clear. congruence. Qed.
Lemma tells_unique state x y :
  (∀ n b h, x = Some (n, b, h) → (n <= u64_max)%N ∧ (b < 2 ^ 256)%N) →
  (∀ n b h, y = Some (n, b, h) → (n <= u64_max)%N ∧ (b < 2 ^ 256)%N) →
  tells state x → tells state y → x = y.
Proof.
  intros Hx Hy. destruct x as [[[n b] h]|], y as [[[n' b'] h']|]; simpl; [|by intros [-> _]|by intros -> [? _]|done].
  destruct (Hx n b h eq_refl), (Hy n' b' h' eq_refl). intros (_ & -> & -> & ->) (_ & En & Eb & Eh).
  apply some_string_inj in En, Eb, Eh. apply quantity_inj in En; [|done..]. apply (format_u256_inj b b') in Eb; [|done..]. apply format_b256_inj in Eh. congruence.
Qed.
Lemma explains_unique `{Keccak256} record pre pre' post post' :
  wf_world post → wf_world post' → same_state pre pre' →
  explains record pre post → explains record pre' post' → same_state post post'.
Proof.
  intros Hw Hw' [Ha Hs] He He'. split.
  - intros a. pose proof (ex_account _ _ _ He a) as H1. pose proof (ex_account _ _ _ He' a) as H2.
    destruct (entry _ _ record) as [e|]; [|by rewrite H1, H2].
    destruct H1 as (_ & st & E & H1), H2 as (_ & st' & E' & H2). assert (st' = st) as -> by congruence.
    eapply tells_unique; [intros ??? Ea; by eapply (ww_account post)|intros ??? Ea; by eapply (ww_account post')|exact H1|exact H2].
  - intros a slot Hb. pose proof (ex_slot _ _ _ He a slot Hb) as H1. pose proof (ex_slot _ _ _ He' a slot Hb) as H2.
    destruct (_ ≫= _) as [v|]; [|by rewrite H1, H2, (Hs a slot)].
    rewrite H1 in H2. apply (f_equal Some), some_string_inj in H2. by apply format_word_inj in H2; [|apply ww_slot..].
Qed.

(** ** The delta is complete *)

Section complete.
Context `{Keccak256, Revm}.

Definition account_of (i : Info) : N * N * Hash32 := (nonce i, balance i, code_hash i).

(** What [reth] promises of a bundle with one block of reverts: its accounts and slots
    are distinct and carry the states before and after; what changed is flagged; an
    account only disappears by being destroyed; the storage of a destroyed account is
    what the bundle says; everything else is as it was. *)
Record replays (bundle : BundleState) (revert : list (Address20 * Revert)) (pre post : World) : Prop := {
  rp_keys : NoDup (map fst (bundle_state bundle));
  rp_original a acc : (a, acc) ∈ bundle_state bundle → account_of <$> original_info acc = wd_account pre a;
  rp_info a acc : (a, acc) ∈ bundle_state bundle → account_of <$> info acc = wd_account post a;
  rp_unchanged a acc : (a, acc) ∈ bundle_state bundle → is_info_changed acc = false → wd_account post a = wd_account pre a;
  rp_removed a acc : (a, acc) ∈ bundle_state bundle → info acc = None →
    original_info acc = None ∨ destroyed (wiped_addresses revert) a acc = true;
  rp_contract a acc : (a, acc) ∈ bundle_state bundle →
    is_contract_changed acc = negb (bool_decide (hash_of (wd_account post a) = hash_of (wd_account pre a)));
  rp_code a acc i : (a, acc) ∈ bundle_state bundle → info acc = Some i → is_contract_changed acc = true → code_hash i ≠ keccak [] →
    ∃ code, (match contracts bundle (code_hash i) with Some code => Some code | None => info_code i end) = Some code ∧
      original_bytes code = wd_code post (code_hash i);
  rp_slots a acc : (a, acc) ∈ bundle_state bundle → NoDup (map fst (storage acc));
  rp_slot a acc slot v : (a, acc) ∈ bundle_state bundle → (slot, v) ∈ storage acc →
    (slot < 2 ^ 256)%N ∧ (is_Some (info acc) → wd_slot post a slot = present_value v) ∧
    (is_changed v = false → destroyed (wiped_addresses revert) a acc = false → wd_slot post a slot = wd_slot pre a slot);
  rp_rest a acc slot : (a, acc) ∈ bundle_state bundle → slot ∉ map fst (storage acc) →
    wd_slot post a slot = if destroyed (wiped_addresses revert) a acc then 0%N else wd_slot pre a slot;
  rp_untouched a : a ∉ map fst (bundle_state bundle) →
    wd_account post a = wd_account pre a ∧ ∀ slot, wd_slot post a slot = wd_slot pre a slot
}.

Lemma changed_slots_inserts account gone :
  changed_slots account gone =
  inserts (λ p, slot_changed account gone p.2) (λ p, format_word p.1) (λ p, VString (format_word (present_value p.2)))
    (storage account) [].
Proof.
  unfold changed_slots, inserts. generalize (@nil (string * Value)).
  induction (storage account) as [|[slot v] l IH]; intros m; [done|apply IH].
Qed.

Abbreviation turns bundle wiped := (fold_left (add_changed bundle wiped)).
Definition account_value (wiped : list Address20) (p : Address20 * BundleAccount) : Value :=
  json_object [("state", info_json (info p.2));
               ("previous_exists", VBool (match original_info p.2 with Some _ => true | None => false end));
               ("wiped_storage", VBool (destroyed wiped p.1 p.2))].
Lemma turns_accounts bundle wiped l d :
  dl_accounts (turns bundle wiped l d) =
  inserts (λ p, is_info_changed p.2 || destroyed wiped p.1 p.2) (λ p, format_address p.1) (account_value wiped) l (dl_accounts d).
Proof.
  revert d; induction l as [|[a acc] l IH]; intros d; [done|]. cbn [fold_left]. rewrite IH. unfold inserts. cbn [fold_left fst snd].
  f_equal. unfold add_changed. by destruct (_ || _).
Qed.
Lemma turns_storage bundle wiped l d :
  dl_storage (turns bundle wiped l d) =
  inserts (λ p, negb (bool_decide (changed_slots p.2 (destroyed wiped p.1 p.2) = []))) (λ p, format_address p.1)
    (λ p, VObject (changed_slots p.2 (destroyed wiped p.1 p.2))) l (dl_storage d).
Proof.
  revert d; induction l as [|[a acc] l IH]; intros d; [done|]. cbn [fold_left]. rewrite IH. unfold inserts. cbn [fold_left fst snd].
  f_equal. unfold add_changed. by destruct (_ || _), (bool_decide _).
Qed.

(** The code that a turn inserts. *)
Definition inserted_code (bundle : BundleState) (wiped : list Address20) (p : Address20 * BundleAccount) : option (Hash32 * Code) :=
  if is_info_changed p.2 || destroyed wiped p.1 p.2
  then i ← info p.2; code ← changed_code bundle p.2 i; Some (code_hash i, code)
  else None.
Definition code_text (b : bytes) : Value := VString ("0x" +:+ lower_hex b).
Lemma turns_codes bundle wiped l d :
  dl_codes (turns bundle wiped l d) =
  inserts (λ p, bool_decide (is_Some (inserted_code bundle wiped p)))
    (λ p, match inserted_code bundle wiped p with Some (h, _) => format_b256 h | None => "" end)
    (λ p, match inserted_code bundle wiped p with Some (_, code) => code_text (original_bytes code) | None => VNull end)
    l (dl_codes d).
Proof.
  revert d; induction l as [|[a acc] l IH]; intros d; [done|]. cbn [fold_left]. rewrite IH. unfold inserts. cbn [fold_left].
  f_equal. unfold inserted_code, add_changed. cbn [fst snd]. destruct (_ || _); [|done].
  destruct (info acc) as [i|]; simpl; [|done]. by destruct (changed_code bundle acc i).
Qed.

Lemma json_entries `{!Reth} number block d k :
  entry "accounts" k (block_record number block d) = obj_get k (dl_accounts d) ∧
  entry "storage" k (block_record number block d) = obj_get k (dl_storage d) ∧
  entry "codes" k (block_record number block d) = obj_get k (dl_codes d).
Proof. split_and!; reflexivity. Qed.
Lemma account_fields wiped p :
  value_get "state" (account_value wiped p) = Some (info_json (info p.2)) ∧
  value_get "previous_exists" (account_value wiped p) = Some (VBool (match original_info p.2 with Some _ => true | None => false end)) ∧
  value_get "wiped_storage" (account_value wiped p) = Some (VBool (destroyed wiped p.1 p.2)).
Proof. split_and!; reflexivity. Qed.
Lemma info_json_tells i : tells (info_json i) (account_of <$> i).
Proof. destruct i as [i|]; [split_and!|]; reflexivity. Qed.
Lemma distinct_keys {A B} (l : list (A * B)) a x y : NoDup (map fst l) → (a, x) ∈ l → (a, y) ∈ l → x = y.
Proof.
  induction l as [|[b z] l IH]; intros Hn Hx Hy; [by apply elem_of_nil in Hx|]. apply NoDup_cons in Hn as [Hb Hn].
  assert (∀ w, (b, w) ∉ l) as Hno by (intros w Hw; apply Hb; by apply (list_elem_of_fmap_2 fst) in Hw).
  rewrite elem_of_cons in Hx, Hy.
  destruct Hx as [Ex|Hx], Hy as [Ey|Hy]; [congruence|injection Ex as -> ->; by apply Hno in Hy|injection Ey as -> ->; by apply Hno in Hx|by apply IH].
Qed.
Lemma in_keys {A B} (l : list (A * B)) a : a ∈ map fst l → ∃ x, (a, x) ∈ l.
Proof. intros ([b x] & -> & Hx)%list_elem_of_fmap. by exists x. Qed.

Section block.
Context (bundle : BundleState) (revert : list (Address20 * Revert)) (pre post : World).
Context (Hr : replays bundle revert pre post).
Abbreviation wiped := (wiped_addresses revert).
Abbreviation delta := (block_delta bundle revert).

(** The entry of the bundle at an address. *)
Ltac same_entry Hc :=
  let b := fresh "b" in let acc' := fresh "acc'" in let Hb := fresh "Hb" in let E := fresh "E" in
  intros [b acc'] Hb Hc E%format_address_inj; simpl in E; subst b;
  match goal with Ha : (?a, ?acc) ∈ bundle_state bundle |- _ =>
    assert (acc' = acc) as -> by (eapply distinct_keys; [apply (rp_keys _ _ _ _ Hr)|exact Hb|exact Ha]) end; simpl in Hc |- *.

Lemma delta_account a acc : (a, acc) ∈ bundle_state bundle →
  obj_get (format_address a) (dl_accounts delta) =
  if is_info_changed acc || destroyed wiped a acc then Some (account_value wiped (a, acc)) else None.
Proof.
  intros Ha. unfold block_delta. rewrite turns_accounts. destruct (_ || _) eqn:E.
  - apply (inserts_one _ (λ p, format_address p.1) (account_value wiped) _ _ (a, acc) Ha E). by same_entry Hc.
  - rewrite inserts_other; [done|]. same_entry Hc. congruence.
Qed.
Lemma delta_slots a acc : (a, acc) ∈ bundle_state bundle →
  obj_get (format_address a) (dl_storage delta) =
  if decide (changed_slots acc (destroyed wiped a acc) = []) then None else Some (VObject (changed_slots acc (destroyed wiped a acc))).
Proof.
  intros Ha. unfold block_delta. rewrite turns_storage. case_decide as E.
  - rewrite inserts_other; [done|]. same_entry Hc. by rewrite bool_decide_eq_true_2 in Hc.
  - refine (inserts_one _ (λ p, format_address p.1) (λ p, VObject (changed_slots p.2 (destroyed wiped p.1 p.2))) _ _ (a, acc) Ha _ _).
    + simpl. by rewrite bool_decide_eq_false_2.
    + by same_entry Hc.
Qed.
Lemma delta_absent a : a ∉ map fst (bundle_state bundle) →
  obj_get (format_address a) (dl_accounts delta) = None ∧ obj_get (format_address a) (dl_storage delta) = None.
Proof.
  intros Ha. unfold block_delta. rewrite turns_accounts, turns_storage.
  split; (rewrite inserts_other; [done|]; intros [b acc] Hb _ E%format_address_inj; apply Ha;
    apply (list_elem_of_fmap_2 fst) in Hb; simpl in *; by subst).
Qed.

(** The slots of one account. *)
Lemma changed_slot a acc slot : (a, acc) ∈ bundle_state bundle → (slot < 2 ^ 256)%N → is_Some (info acc) →
  match obj_get (format_word slot) (changed_slots acc (destroyed wiped a acc)) with
  | None => wd_slot post a slot = if destroyed wiped a acc then 0%N else wd_slot pre a slot
  | Some v => v = VString (format_word (wd_slot post a slot))
  end.
Proof.
  intros Ha Hs Hi. rewrite changed_slots_inserts.
  assert (∀ p q, p ∈ storage acc → q ∈ storage acc → format_word p.1 = format_word q.1 → p = q) as Hkey.
  { intros [x v] [y w] Hp Hq E. apply format_word_inj in E; [|by eapply (rp_slot _ _ _ _ Hr)..]. simpl in E. subst y. f_equal.
    by eapply distinct_keys; [apply (rp_slots _ _ _ _ Hr _ _ Ha)|..]. }
  destruct (decide (slot ∈ map fst (storage acc))) as [Hin|Hout].
  - apply in_keys in Hin as [v Hv]. destruct (rp_slot _ _ _ _ Hr _ _ _ _ Ha Hv) as (_ & Hpost & Hpre). rewrite (Hpost Hi) in *.
    destruct (slot_changed acc (destroyed wiped a acc) v) eqn:E.
    + rewrite (inserts_one _ (λ p, format_word p.1) (λ p, VString (format_word (present_value p.2))) _ _ (slot, v) Hv E); [done|].
      intros p Hp _ Hk. by rewrite (Hkey p (slot, v)).
    + rewrite inserts_other by (intros p Hp Hc Hk; rewrite (Hkey p (slot, v)) in Hc by done; simpl in Hc; congruence). simpl.
      unfold slot_changed in E. destruct (info acc); [|by destruct Hi]. simpl in E. apply orb_false_iff in E as [Ec Ez].
      destruct (destroyed _ _ _); [|by apply Hpre]. simpl in Ez. by apply negb_false_iff, N.eqb_eq in Ez.
  - rewrite inserts_other; [by apply (rp_rest _ _ _ _ Hr)|]. intros [x v] Hx _ E. apply Hout.
    apply format_word_inj in E; [|by eapply (rp_slot _ _ _ _ Hr)|done]. simpl in E. subst x. by apply (list_elem_of_fmap_2 fst) in Hx.
Qed.

Lemma inserted_code_right p h code : p ∈ bundle_state bundle → inserted_code bundle wiped p = Some (h, code) →
  original_bytes code = wd_code post h.
Proof.
  destruct p as [a acc]. unfold inserted_code, changed_code. intros Ha. destruct (_ || _); [|done]. simpl.
  destruct (info acc) as [i|] eqn:Ei; [|done]. simpl. destruct (_ && _) eqn:E; [|done].
  apply andb_true_iff in E as [Ec En]. apply negb_true_iff, bool_decide_eq_false in En.
  destruct (rp_code _ _ _ _ Hr _ _ _ Ha Ei Ec En) as (code' & -> & Hc). simpl. by intros [= <- <-].
Qed.
Lemma delta_code a h : hash_of (wd_account post a) = Some h → hash_of (wd_account pre a) ≠ Some h → h ≠ keccak [] →
  obj_get (format_b256 h) (dl_codes delta) = Some (code_text (wd_code post h)).
Proof.
  intros Hpost Hpre Hh. destruct (decide (a ∈ map fst (bundle_state bundle))) as [[acc Ha]%in_keys|Hout].
  2: { destruct (rp_untouched _ _ _ _ Hr a Hout) as [E _]. by rewrite E in Hpost. }
  destruct (info acc) as [i|] eqn:Ei; [|by rewrite <-(rp_info _ _ _ _ Hr _ _ Ha), Ei in Hpost].
  assert (code_hash i = h) as Ehash by (rewrite <-(rp_info _ _ _ _ Hr _ _ Ha), Ei in Hpost; by injection Hpost).
  assert (is_contract_changed acc = true) as Hc.
  { rewrite (rp_contract _ _ _ _ Hr _ _ Ha), bool_decide_eq_false_2; [done|]. congruence. }
  destruct (rp_code _ _ _ _ Hr _ _ _ Ha Ei Hc) as (code & Efound & Hcode); [congruence|].
  assert (inserted_code bundle wiped (a, acc) = Some (h, code)) as Hins.
  { unfold inserted_code, changed_code. simpl. destruct (is_info_changed acc) eqn:Eic.
    - simpl. rewrite Ei. simpl. rewrite Hc, bool_decide_eq_false_2 by congruence. simpl. by rewrite Efound, Ehash.
    - exfalso. apply Hpre. by rewrite <-(rp_unchanged _ _ _ _ Hr _ _ Ha Eic). }
  unfold block_delta. rewrite turns_codes.
  set (key := λ p : Address20 * BundleAccount, match inserted_code bundle wiped p with Some (h, _) => format_b256 h | None => "" end).
  assert (key (a, acc) = format_b256 h) as <- by (unfold key; by rewrite Hins).
  rewrite (inserts_one _ key _ _ _ (a, acc) Ha).
  - by rewrite Hins, Hcode, Ehash.
  - apply bool_decide_eq_true_2. rewrite Hins. eauto.
  - intros q Hq Hcq%bool_decide_eq_true Ekey. unfold key in Ekey. rewrite Hins in Ekey |- *.
    destruct Hcq as [[h' code'] Eq]. rewrite Eq in Ekey |- *. apply format_b256_inj in Ekey as ->.
    by rewrite (inserted_code_right _ _ _ Hq Eq), (inserted_code_right _ _ _ Ha Hins).
Qed.

Lemma record_explains `{!Reth} number block : wf_world pre → wf_world post →
  explains (block_record number block delta) pre post.
Proof.
  intros Hpre Hpost. split.
  - intros a. rewrite (proj1 (json_entries _ _ _ _)).
    destruct (decide (a ∈ map fst (bundle_state bundle))) as [[acc Ha]%in_keys|Hout].
    2: { rewrite (proj1 (delta_absent _ Hout)). by apply (rp_untouched _ _ _ _ Hr). }
    rewrite (delta_account _ _ Ha). destruct (_ || _) eqn:E.
    + destruct (account_fields wiped (a, acc)) as (-> & -> & _). simpl. rewrite <-(rp_original _ _ _ _ Hr _ _ Ha), <-(rp_info _ _ _ _ Hr _ _ Ha).
      split; [by destruct (original_info acc)|]. eexists. split; [done|apply info_json_tells].
    + apply orb_false_iff in E as [E _]. by apply (rp_unchanged _ _ _ _ Hr _ _ Ha).
  - intros a slot Hs. unfold tells_wiped. rewrite (proj1 (json_entries _ _ _ _)), (proj1 (proj2 (json_entries _ _ _ _))).
    destruct (decide (a ∈ map fst (bundle_state bundle))) as [[acc Ha]%in_keys|Hout].
    2: { destruct (delta_absent _ Hout) as [-> ->]. simpl. by apply (rp_untouched _ _ _ _ Hr). }
    rewrite (delta_account _ _ Ha), (delta_slots _ _ Ha).
    assert (∀ c : bool, default false ((if c || destroyed wiped a acc then Some (account_value wiped (a, acc)) else None)
      ≫= λ e, value_get "wiped_storage" e ≫= as_bool) = destroyed wiped a acc) as ->.
    { intros c. destruct (c || destroyed wiped a acc) eqn:E; [|by apply orb_false_iff in E as [_ ->]].
      change (default false (value_get "wiped_storage" (account_value wiped (a, acc)) ≫= as_bool) = destroyed wiped a acc).
      by rewrite (proj2 (proj2 (account_fields _ _))). }
    destruct (info acc) as [i|] eqn:Ei.
    + pose proof (changed_slot a acc slot Ha Hs (mk_is_Some _ _ Ei)) as Hc.
      case_decide as E; [by rewrite E in Hc|exact Hc].
    + assert (changed_slots acc (destroyed wiped a acc) = []) as E.
      { rewrite changed_slots_inserts. unfold slot_changed. rewrite Ei. by induction (storage acc). }
      rewrite decide_True by done. simpl.
      assert (wd_account post a = None) as Hnone by (by rewrite <-(rp_info _ _ _ _ Hr _ _ Ha), Ei).
      rewrite (ww_absent _ Hpost _ _ Hnone). destruct (rp_removed _ _ _ _ Hr _ _ Ha Ei) as [Eo| ->]; [|done].
      rewrite (ww_absent _ Hpre a slot); [by destruct (destroyed _ _ _)|]. by rewrite <-(rp_original _ _ _ _ Hr _ _ Ha), Eo.
  - intros a h Hh Hp Hk. rewrite (proj2 (proj2 (json_entries _ _ _ _))). by apply (delta_code a).
Qed.
End block.
End complete.

(** ** The lines of a range *)

Section range.
Context `{Keccak256, SerdeJson, Reth}.

(** A node that answers every call alike; the lines that are printed are its state. *)
Definition node (answers : ∀ X, probeE X → X) : ∀ X, probeE X → list bytes → X * list bytes :=
  λ X e out, (answers X e, match e with PrPrintln line => out ++ [line] | _ => out end).

(** The node holds block [number], and executing it leads from [pre] to [post]. *)
Definition executes (answers : ∀ X, probeE X → X) (number : N) (pre post : World) : Prop :=
  ∃ state block output executor revert,
    answers _ (PrHistory (number - 1)) = Ok state ∧ answers _ (PrBlock number) = Ok (Some block) ∧
    execute_one state block = Ok (output, executor) ∧ validate_block_post_execution block output = Ok tt ∧
    reverts (take_bundle executor) = [revert] ∧ replays (take_bundle executor) revert pre post.

(** The records are those of the blocks from [first] on. *)
Definition explain (records : list Value) (first : N) (w : N → World) : Prop := ∀ k record, records !! k = Some record →
  value_get "block" record = Some (VNumber (PosInt (first + N.of_nat k))) ∧
  explains record (w (first + N.of_nat k - 1)%N) (w (first + N.of_nat k)%N).

Lemma explain_cons record records first w :
  explain (record :: records) first w ↔
  value_get "block" record = Some (VNumber (PosInt first)) ∧ explains record (w (first - 1)%N) (w first) ∧ explain records (first + 1) w.
Proof.
  split.
  - intros He. destruct (He 0 record eq_refl) as [Hb Hr]. rewrite N.add_0_r in Hb, Hr. split_and!; [done..|].
    intros k r Hk. destruct (He (S k) r Hk) as [Hb' Hr']. by replace (first + 1 + N.of_nat k)%N with (first + N.of_nat (S k))%N by lia.
  - intros (Hb & Hr & He) [|k] r Hk.
    + injection Hk as <-. by rewrite N.add_0_r.
    + replace (first + N.of_nat (S k))%N with (first + 1 + N.of_nat k)%N by lia. by apply He.
Qed.
Lemma explain_unique records first w w' :
  (∀ n, wf_world (w n)) → (∀ n, wf_world (w' n)) → (1 <= first)%N →
  same_state (w (first - 1)%N) (w' (first - 1)%N) → explain records first w → explain records first w' →
  same_state (w (first + N.of_nat (length records) - 1)%N) (w' (first + N.of_nat (length records) - 1)%N).
Proof.
  intros Hw Hw'. revert first; induction records as [|record records IH]; intros first Hf Hs He He'; simpl length.
  { by rewrite N.add_0_r. }
  apply explain_cons in He as (_ & Hr & He), He' as (_ & Hr' & He').
  replace (first + N.of_nat (S (length records)) - 1)%N with (first + 1 + N.of_nat (length records) - 1)%N by lia.
  apply IH; [lia| |done..]. replace (first + 1 - 1)%N with first by lia. by eapply explains_unique.
Qed.

Lemma export_block_prints (answers : ∀ X, probeE X → X) number pre post out :
  answers _ PrProvider = Ok tt → wf_world pre → wf_world post → executes answers number pre post →
  ∃ record, run_prog (node answers) (export_block number) out = (Ok tt, out ++ [value_to_vec record]) ∧
    value_get "block" record = Some (VNumber (PosInt number)) ∧ explains record pre post.
Proof.
  intros Hp Hpre Hpost (state & block & output & executor & revert & Hh & Hb & He & Hv & Hr & Hrep).
  exists (block_record number block (block_delta (take_bundle executor) revert)). split_and!.
  - unfold export_block. cbn [bind request run_prog node]. rewrite Hp. cbn [bind request run_prog node]. rewrite Hh.
    cbn [bind request run_prog node]. rewrite Hb. cbn [ok_or]. rewrite He, Hv. cbv zeta. by rewrite Hr.
  - reflexivity.
  - by eapply record_explains.
Qed.
Lemma export_blocks_print (answers : ∀ X, probeE X → X) count number w out :
  answers _ PrProvider = Ok tt → (∀ n, wf_world (w n)) →
  (∀ n, (number <= n < number + N.of_nat count)%N → executes answers n (w (n - 1)%N) (w n)) →
  ∃ records, run_prog (node answers) (export_blocks count number) out = (Ok tt, out ++ map value_to_vec records) ∧
    length records = count ∧ explain records number w.
Proof.
  intros Hp Hw. revert number out; induction count as [|count IH]; intros number out He.
  { exists []. split_and!; [simpl; by rewrite app_nil_r|done|]. by intros k r Hk. }
  destruct (export_block_prints answers number (w (number - 1)%N) (w number) out) as (record & E & Hb & Hx); [done..|apply He; lia|].
  destruct (IH (number + 1)%N (out ++ [value_to_vec record])) as (records & E' & Hlen & Hrest); [intros n Hn; apply He; lia|].
  exists (record :: records). split_and!; [|simpl; by rewrite Hlen|by apply explain_cons].
  cbn [export_blocks]. rewrite run_prog_bind, E, E'. by rewrite <-app_assoc.
Qed.

(** C20: over a node that holds the blocks of a valid range, the probe prints one line
    for each block, in order, and succeeds; each line tells every account, slot and
    new code that its block changed; and the lines tell everything: whatever states
    they are lines of, from the same state on, end in the same state. *)
Theorem export_explains_range (answers : ∀ X, probeE X → X) program datadir (first_text last_text : string) first last w :
  parse_u64 (byte_string first_text) = Some first → parse_u64 (byte_string last_text) = Some last →
  (1 <= first <= last)%N → (last - first < MAX_EXPORT_BLOCKS)%N →
  answers _ PrRuntime = Ok tt → answers _ (PrOpenReadOnly datadir) = Ok tt → answers _ PrProvider = Ok tt →
  (∀ n, wf_world (w n)) →
  (∀ n, (first <= n <= last)%N → executes answers n (w (n - 1)%N) (w n)) →
  ∃ records, run_prog (node answers) (export_main [program; datadir; first_text; last_text]) [] = (Ok tt, map value_to_vec records) ∧
    N.of_nat (length records) = (last - first + 1)%N ∧ explain records first w ∧
    ∀ w', (∀ n, wf_world (w' n)) → same_state (w (first - 1)%N) (w' (first - 1)%N) → explain records first w' →
      same_state (w last) (w' last).
Proof.
  intros Hf Hl Hr Hmax Hrt Ho Hp Hw He.
  destruct (export_blocks_print answers (N.to_nat (last - first + 1)) first w [] Hp Hw) as (records & E & Hlen & Hx);
    [intros n Hn; apply He; lia|].
  exists records. split_and!; [|lia|done|].
  - unfold export_main, export_range. rewrite Hf, Hl. cbn [ok_or].
    rewrite (proj2 (N.eqb_neq first 0)), (proj2 (N.ltb_ge last first)), (proj2 (N.leb_gt _ _) Hmax) by lia. cbn [orb].
    cbn [bind request run_prog node]. rewrite Hrt. cbn [bind request run_prog node]. by rewrite Ho.
  - intros w' Hw' Hs Hx'. pose proof (explain_unique records first w w' Hw Hw' ltac:(lia) Hs Hx Hx') as Hu.
    by replace (first + N.of_nat (length records) - 1)%N with last in Hu by lia.
Qed.
End range.
