(* ===== verification/Cli.v ===== *)
(** * [src/main.rs]: the command line

    Each command is a program over the requests [envE] of the process.  The
    arguments are those that [clap] has parsed; its derived parser, and the log, are
    not modelled.  [fuel] bounds the directories of a listing, [merge_fuel] the
    merge of a compaction, and [commits] the compactions of one turn: with more
    fuel than level-0 runs, records and directories none of them runs out. *)

From stdpp Require Import pretty.
From Stdlib Require Import Lia ZArith Strings.Ascii Floats.SpecFloat.
From S2P Require Import Prelude Bytes Text SortedLists Externals Json Hash RunFormat RunReader Head Summary Store ObjectStore FsStore OpenStore Compact Format Tiered Normalized Bootstrap TieredReader Rpc Collect.

(** ** Arguments *)

Record StoreArgs := {
  sa_store : string;
  sa_s3_endpoint : option string;
  sa_s3_region : option string;
  sa_chain_id : string
}.
Record CompactArgs := { ca_store : StoreArgs; ca_follow_seconds : option N }.
Record GcArgs := { ga_store : StoreArgs; ga_keep_heads : nat; ga_min_age_seconds : N; ga_dry_run : bool }.
Record ProbeArgs := { pa_store : StoreArgs; pa_input : string; pa_concurrency : N }.
Record AnchorArgs := { an_genesis : string; an_block : string; an_output : string }.
Inductive GateKind := GateFinalized | GateFixedOffset.
Record ArchiveArgs := {
  ar_store : StoreArgs;
  ar_input : string;
  ar_gate : GateKind;
  ar_finalized_head : option string;
  ar_observed_tip : option string;
  ar_offset : option N
}.
Record ServeArgs := { se_store : StoreArgs; se_listen : string; se_max_batch : N; se_refresh_seconds : option N }.
Inductive Command :=
| CArchive (args : ArchiveArgs)
| CCompact (args : CompactArgs)
| CAnchor (args : AnchorArgs)
| CServe (args : ServeArgs)
| CVerify (args : StoreArgs)
| CGc (args : GcArgs)
| CProbe (args : ProbeArgs).

(** One line of a probe's input; [serde] derives its parser. *)
Record Sample := { sm_address : Address20; sm_slot : Hash32; sm_block : N }.
Class SampleJson := sample_from_str : bytes → result Sample.

Definition println (line : string) : prog envE unit := request (EPrintln (byte_string line)).
(** [std::fs::read(..).context(..)] *)
Definition read_input (p context : string) : prog envE (result bytes) :=
  let* r := request (EReadFile p) in Ret (with_context context (io_lift r)).

(** ** [parse_checkpoint] *)

Definition parse_checkpoint `{Hex} (value : string) : result (N * Hash32) :=
  let? (number, hash) := ok_or (split_once ":" value) "checkpoint must be NUMBER:0xHASH" in
  let? number :=
    (if String.prefix "0x" number then parse_quantity number
     else with_context "invalid decimal checkpoint number"
            (ok_or (parse_u64 (byte_string number)) "invalid digit found in string")) in
  let? hash := hash_from_str hash in
  Ok (number, hash).

(** ** Quantiles

    [(values.len() as f64 * quantile).ceil() as usize], in double precision. *)
Definition f64_of_usize (n : N) : spec_float := binary_normalize 53 1024 (Z.of_N n) 0 false.
Definition f64_mul : spec_float → spec_float → spec_float := SFmul 53 1024.
Definition f64_ceil_usize (x : spec_float) : N :=
  match x with
  | S754_finite false m e =>
      if (0 <=? e)%Z then N.min usize_max (Npos m * 2 ^ Z.to_N e)
      else ((Npos m + (2 ^ Z.to_N (- e) - 1)) / 2 ^ Z.to_N (- e))%N
  | S754_infinity false => usize_max
  | _ => 0%N
  end.
(** The literals 0.5 and 0.99. *)
Definition f64_p50 : spec_float := S754_finite false 4503599627370496 (-53).
Definition f64_p99 : spec_float := S754_finite false 8917127262193582 (-53).
Definition pick_index (length : N) (quantile : spec_float) : N :=
  (f64_ceil_usize (f64_mul (f64_of_usize length) quantile) - 1)%N.
Definition pick (values : list N) (quantile : spec_float) : option N :=
  values !! N.to_nat (pick_index (len values) quantile).

Definition json_opt (n : option N) : Value := match n with Some n => VNumber (PosInt n) | None => VNull end.
Definition oks {A} (l : list (result A)) : list A := omap (λ r, match r with Ok a => Some a | Err _ => None end) l.
Definition probe_report (results : list (result (N * N))) : Value :=
  let errors := len (filter (λ r, is_ok r = false) results) in
  let gets := sort_by id (map fst (oks results)) in
  let read := sort_by id (map snd (oks results)) in
  json_object [("samples", VNumber (PosInt (len gets))); ("errors", VNumber (PosInt errors));
               ("gets_p50", json_opt (pick gets f64_p50)); ("gets_p99", json_opt (pick gets f64_p99));
               ("gets_max", json_opt (last gets));
               ("bytes_p50", json_opt (pick read f64_p50)); ("bytes_p99", json_opt (pick read f64_p99));
               ("bytes_max", json_opt (last read))].

(** [CountingStore]: the reads of a program, counted beside it. *)
Definition count_answer X (e : storeE X) : X → Counters → Counters :=
  match e in storeE X return X → Counters → Counters with
  | SGet _ => λ r c, match r with Ok b => count_read (len b) c | Err _ => c end
  | SGetBounded _ _ => λ r c, count_read (match r with Ok b => len b | Err _ => 0 end) c
  | SReadMutable _ | SReadMutableBounded _ _ => λ _ c, count_read 0 c
  | _ => λ _ c, c
  end.
Definition counting_impl X (e : storeE X) (c : Counters) : prog storeE (X * Counters) :=
  let* x := request e in Ret (x, count_answer X e x c).

(** [serde_json::to_string] of a report. *)
Definition report_json (r : GcReport) : string :=
  "{" +:+ String "034" ("live_objects" +:+ String "034" (":" +:+ pretty (gc_live_objects r))) +:+ ","
  +:+ String "034" ("deleted_objects" +:+ String "034" (":" +:+ pretty (gc_deleted_objects r))) +:+ ","
  +:+ String "034" ("deleted_bytes" +:+ String "034" (":" +:+ pretty (gc_deleted_bytes r))) +:+ ","
  +:+ String "034" ("kept_young" +:+ String "034" (":" +:+ pretty (gc_kept_young r))) +:+ "}".

(** The counter of commits is an [i32]; release builds wrap. *)
Definition i32_succ (n : Z) : Z := ((n + 1 + 2 ^ 31) mod 2 ^ 32 - 2 ^ 31)%Z.

Section cli.
Context `{Sha256, Keccak256, Hex, Zstd, ZstdStream, HeadJson, SerdeJson, RecordJson, RequestJson, SampleJson, ShardCache,
          ObjectCrate, UrlCrate}.
Context (fuel merge_fuel : nat).

(** [open] *)
Definition open (args : StoreArgs) : prog envE (result Opened) :=
  open_store (sa_store args) (sa_s3_endpoint args) (sa_s3_region args).

(** ** [archive] *)

Definition publication_gate (args : ArchiveArgs) : result PublicationGate :=
  match ar_gate args with
  | GateFinalized =>
      let? value := unwrap (ar_finalized_head args) in
      let? (number, hash) := parse_checkpoint value in
      Ok (Finalized number hash)
  | GateFixedOffset =>
      let? value := unwrap (ar_observed_tip args) in
      let? (observed_number, observed_hash) := parse_checkpoint value in
      let? offset := unwrap (ar_offset args) in
      Ok (FixedOffset observed_number observed_hash offset)
  end.
(** What [archive] checks before it opens the store. *)
Definition archive_input (args : ArchiveArgs) (b : bytes) : result (Package * PublicationGate) :=
  let? package := read_package b in
  let? configured_chain := parse_quantity (sa_chain_id (ar_store args)) in
  if negb (sg_chain_id (pk_segment package) =? configured_chain)%N
  then bail "input chain ID does not match --chain-id"
  else let? gate := publication_gate args in Ok (package, gate).
Definition archive (args : ArchiveArgs) : prog envE (result unit) :=
  let! b := read_input (ar_input args) "read input package" in
  let!? (package, gate) := archive_input args b in
  let! store := open (ar_store args) in
  let! _ := with_store fuel store (publish package gate) in
  let!? last := ok_or (last (sg_blocks (pk_segment package))) "empty package" in
  let* _ := println ("published through " +:+ pretty (bm_number last) +:+ " (" +:+ hash_to_string (bm_hash last) +:+ ")") in
  Ret (Ok tt).

(** ** [compact] *)

(** [while compact_once(..)? { commits += 1 }] *)
Fixpoint drain (commits_fuel : nat) (chain_id : N) (commits : Z) : prog storeE (result Z) :=
  match commits_fuel with
  | O => Ret (Err (Panic "out of fuel"))
  | S commits_fuel =>
      let! more := compact_once merge_fuel chain_id in
      if more : bool then drain commits_fuel chain_id (i32_succ commits) else Ret (Ok commits)
  end.
(** The outer loop: [turns] bounds it when it follows the store. *)
Fixpoint compact_turns (turns commits_fuel : nat) (store : Opened) (chain_id : N) (follow_seconds : option N)
    : prog envE (result unit) :=
  match turns with
  | O => Ret (Err (Panic "out of fuel"))
  | S turns =>
      let! commits := with_store fuel store (drain commits_fuel chain_id 0) in
      match follow_seconds with
      | None => let* _ := println ("compaction drained after " +:+ pretty commits +:+ " commits") in Ret (Ok tt)
      | Some seconds => let* _ := request (ESleep seconds) in compact_turns turns commits_fuel store chain_id follow_seconds
      end
  end.
Definition compact (turns commits_fuel : nat) (args : CompactArgs) : prog envE (result unit) :=
  let!? chain_id := parse_quantity (sa_chain_id (ca_store args)) in
  let! store := open (ca_store args) in
  compact_turns turns commits_fuel store chain_id (ca_follow_seconds args).

(** ** [probe]

    Each sample opens a reader of its own over a counter of its own.  The samples
    run here in their order; [buffer_unordered] may finish them in another, which
    the report does not show. *)
Definition probe_sample (chain_id : N) (sample : Sample) : prog storeE (result (N * N)) :=
  let* (r, counting) := interp_st counting_impl
    (let! (reader, cache) := Reader_open chain_id in
     let* (value, _) := Reader_storage reader (sm_address sample) (sm_slot sample) (sm_block sample) cache in
     Ret (let? _ := value in Ok tt)) counters_new in
  Ret (let? _ := r in Ok (counters_take counting).1).
Fixpoint probe_samples (chain_id : N) (samples : list Sample) : prog storeE (list (result (N * N))) :=
  match samples with
  | [] => Ret []
  | sample :: samples =>
      let* r := probe_sample chain_id sample in
      let* rest := probe_samples chain_id samples in
      Ret (r :: rest)
  end.
Definition parse_samples (b : bytes) : result (list Sample) :=
  let? text := (match utf8_chars b with Some _ => Ok b | None => bail "stream did not contain valid UTF-8" end) in
  collect sample_from_str (filter (λ line, is_blank line = false) (lines text)).
Definition probe (args : ProbeArgs) : prog envE (result unit) :=
  let!? chain_id := parse_quantity (sa_chain_id (pa_store args)) in
  let! store := open (pa_store args) in
  let* r := request (EReadFile (pa_input args)) in
  let!? b := io_lift r in
  let!? samples := parse_samples b in
  let* results := with_store fuel store (probe_samples chain_id samples) in
  let* _ := request (EPrintln (value_to_vec (probe_report results))) in
  Ret (Ok tt).

(** ** [run_server]

    The server answers the events it is given; [axum] does not return. *)
Fixpoint serve_events (chain_id : N) (interval : option N) (batch_limit : N) (events : list ServerEvent) (current : Server)
    : prog storeE (list Reply) :=
  match events with
  | [] => Ret []
  | event :: events =>
      let* (reply, current) := server_step chain_id interval batch_limit event current in
      let* replies := serve_events chain_id interval batch_limit events current in
      Ret (reply :: replies)
  end.
(** [serve_tiered] of [src/rpc.rs], after its router is built. *)
Definition serve_tiered (store : Opened) (chain_id : N) (interval : option N) (listen : string) (batch_limit : N)
    (events : list ServerEvent) : prog envE (result (list Reply)) :=
  let! server := with_store fuel store (Reader_open chain_id) in
  let* r := request (EBind listen) in
  let!? _ := io_lift r in
  let* replies := with_store fuel store (serve_events chain_id interval batch_limit events server) in
  Ret (Ok replies).
Definition run_server (args : ServeArgs) (events : list ServerEvent) : prog envE (result (list Reply)) :=
  if (se_max_batch args =? 0)%N then Ret (bail "--max-batch must be greater than zero") else
  let!? chain_id := parse_quantity (sa_chain_id (se_store args)) in
  let! store := open (se_store args) in
  serve_tiered store chain_id (se_refresh_seconds args) (se_listen args) (se_max_batch args) events.

(** ** [verify], and the commands that [main] runs itself *)

Definition verify (args : StoreArgs) : prog envE (result unit) :=
  let!? chain_id := parse_quantity (sa_chain_id args) in
  let! store := open args in
  let! (reader, _) := with_store fuel store (Reader_open chain_id) in
  let* _ := println ("verified tiered head through " +:+ pretty (Reader_latest_block reader) +:+ " with "
    +:+ pretty (Reader_run_count reader) +:+ " runs (" +:+ pretty (Reader_l0_count reader) +:+ " L0), head sha256 "
    +:+ hash_to_string (Reader_head_digest reader) +:+ " (objects verify on read; this is not a full-history audit)") in
  Ret (Ok tt).
Definition anchor (args : AnchorArgs) : prog envE (result unit) :=
  let! genesis := read_input (an_genesis args) "read genesis allocation" in
  let! block := read_input (an_block args) "read canonical block zero" in
  let!? package := genesis_anchor genesis block in
  let* r := request (EWriteFile (an_output args) package) in
  Ret (let? _ := with_context "write genesis anchor" (io_lift r) in Ok tt).
Definition gc (args : GcArgs) : prog envE (result unit) :=
  let!? chain_id := parse_quantity (sa_chain_id (ga_store args)) in
  let! store := open (ga_store args) in
  let! report := with_store fuel store
    (collect_garbage chain_id (ga_keep_heads args) (Z.of_N (ga_min_age_seconds args)) (ga_dry_run args)) in
  let* _ := println (report_json report) in
  Ret (Ok tt).

(** [main] *)
Definition main (turns commits_fuel : nat) (events : list ServerEvent) (command : Command) : prog envE (result unit) :=
  match command with
  | CArchive args => archive args
  | CCompact args => compact turns commits_fuel args
  | CAnchor args => anchor args
  | CServe args => let! _ := run_server args events in Ret (Ok tt)
  | CVerify args => verify args
  | CProbe args => probe args
  | CGc args => gc args
  end.
End cli.
