(* ===== verification/CliTheorems.v ===== *)
(** * The command line

    [checkpoint_roundtrip]: both notations of a checkpoint are read.
    [archive_checks_first]: a package that is not accepted opens no store.
    [compact_drains]: on an archive, [compact] stops, and leaves fewer level-0 runs
    than one compaction needs and the same states.  [probe_report_order] and
    [probe_nearest_rank]: what a probe prints does not depend on the order in which
    its samples finish, and its quantiles are the nearest ranks. *)

From stdpp Require Import pretty sorting.
From Stdlib Require Import Lia ZArith Strings.Ascii Floats.SpecFloat Sorting.Sorted.
From S2P Require Import Prelude Bytes Text SortedLists Externals Json Hash RunFormat RunReader Head HeadFacts Summary Store ObjectStore FsStore OpenStore Compact CompactFacts Format FormatFacts Tiered Normalized Bootstrap TieredReader Cli RunRep ReaderFacts ReaderTheorems HeadSteps Calm PublishFacts TieredTheorems Rpc Collect.

(** ** Checkpoints *)

(** A decimal number has only digits, and reading it gives the number. *)
Lemma pretty_digit d : (d < 10)%N → is_ascii_digit (byte_of_ascii (pretty_N_char d)) = true ∧
  (byte_N (byte_of_ascii (pretty_N_char d)) - 48 = d)%N.
Proof.
  intros Hd. assert (∀ n, n < 10 → is_ascii_digit (byte_of_ascii (pretty_N_char (N.of_nat n))) = true ∧
    (byte_N (byte_of_ascii (pretty_N_char (N.of_nat n))) - 48 = N.of_nat n)%N) as Hn.
  { intros n Hn. do 10 (destruct n as [|n]; [done|]). lia. }
  rewrite <-(N2Nat.id d). apply Hn. lia.
Qed.
Lemma decimal_go n s :
  (n <= u64_max)%N → decimal_digits 0 (byte_string (pretty_N_go n s)) = decimal_digits n (byte_string s).
Proof.
  revert s; induction (N.lt_wf_0 n) as [n _ IH]; intros s Hn.
  destruct (decide (n = 0)%N) as [->|Hz]; [by rewrite pretty_N_go_0|].
  rewrite pretty_N_go_step by lia. assert (n / 10 < n)%N as Hlt by (apply N.div_lt; lia).
  rewrite IH by (done || lia). change (byte_string (String ?c ?s)) with (byte_of_ascii c :: byte_string s). cbn [decimal_digits].
  destruct (pretty_digit (n mod 10)) as [-> ->]; [by apply N.mod_lt|].
  pose proof (N.div_mod n 10 ltac:(done)) as Hdm. replace (n / 10 * 10 + n mod 10)%N with n by lia.
  by rewrite (proj2 (N.leb_le _ _)).
Qed.
Lemma digits_go n s :
  Forall (λ x, is_ascii_digit x = true) (byte_string s) → Forall (λ x, is_ascii_digit x = true) (byte_string (pretty_N_go n s)).
Proof.
  revert s; induction (N.lt_wf_0 n) as [n _ IH]; intros s Hs.
  destruct (decide (n = 0)%N) as [->|Hz]; [by rewrite pretty_N_go_0|].
  rewrite pretty_N_go_step by lia. apply IH; [apply N.div_lt; lia|]. constructor; [|done].
  apply pretty_digit. by apply N.mod_lt.
Qed.
Lemma pretty_digits (n : N) : Forall (λ x, is_ascii_digit x = true) (byte_string (pretty n)).
Proof. unfold pretty, pretty_N. case_decide; [by repeat constructor|]. by apply digits_go. Qed.

Lemma parse_u64_pretty (n : N) : (n <= u64_max)%N → parse_u64 (byte_string (pretty n)) = Some n.
Proof.
  intros Hn. assert (decimal_digits 0 (byte_string (pretty n)) = Some n) as Hd.
  { unfold pretty, pretty_N. case_decide as E; [by rewrite E|]. by rewrite decimal_go. }
  pose proof (pretty_digits n) as Hf. unfold parse_u64.
  destruct (byte_string (pretty n)) as [|x b] eqn:E; [|inversion Hf; subst; case_bool_decide; [subst; done|done]].
  exfalso. simpl in Hd. injection Hd as <-. revert E. by vm_compute.
Qed.

Lemma contains_prefix c a s : String.prefix a s = true → contains_char c a = true → contains_char c s = true.
Proof.
  revert s; induction a as [|x a IH]; intros s; [done|]. destruct s as [|y s]; [done|]. simpl.
  destruct (ascii_dec x y) as [->|]; [|done]. intros Hp. rewrite !orb_true_iff. intros [|]; [by left|right; auto].
Qed.

(** The digits of a quantity. *)
Lemma hex_digits_no_colon fuel n s : contains_char ":" s = false → contains_char ":" (hex_digits fuel n s) = false.
Proof.
  assert (∀ d, (d < 16)%N → bool_decide (hex_digit d = ":"%char) = false) as Hc.
  { intros d Hd. assert (∀ k, k < 16 → bool_decide (hex_digit (N.of_nat k) = ":"%char) = false) as Hk.
    { intros k Hk. do 16 (destruct k as [|k]; [done|]). lia. }
    rewrite <-(N2Nat.id d). apply Hk. lia. }
  revert n s; induction fuel as [|fuel IH]; intros n s Hs; [done|]. cbn [hex_digits].
  destruct (n / 16 =? 0)%N; [|apply IH]; cbn [contains_char]; by rewrite Hc by (by apply N.mod_lt).
Qed.
Lemma quantity_no_colon n : contains_char ":" (quantity n) = false.
Proof. unfold quantity, format_x. change ("0x" +:+ ?s) with (String "0" (String "x" s)). cbn [contains_char]. by rewrite hex_digits_no_colon. Qed.

(** A checkpoint is read from both notations of its number: decimal, and as a
    canonical quantity. *)
Theorem checkpoint_roundtrip `{Hex, !HexLaws} (n : N) h :
  (n <= u64_max)%N →
  parse_checkpoint (pretty n +:+ ":" +:+ hash_to_string h) = Ok (n, h) ∧
  parse_checkpoint (quantity n +:+ ":" +:+ hash_to_string h) = Ok (n, h).
Proof.
  intros Hn. unfold parse_checkpoint. change (":" +:+ ?s) with (String ":" s).
  assert (∀ c, is_ascii_digit (byte_of_ascii c) = false → contains_char c (pretty n) = false) as Hc.
  { intros c. apply digits_no_char, pretty_digits. }
  split.
  - rewrite split_once_app by (by apply Hc). cbn [ok_or].
    destruct (String.prefix "0x" (pretty n)) eqn:Ep.
    { apply (contains_prefix "x") in Ep; [|done]. by rewrite Hc in Ep. }
    rewrite parse_u64_pretty by done. cbn [ok_or with_context]. by rewrite hash_string_round.
  - rewrite split_once_app by apply quantity_no_colon. cbn [ok_or].
    assert (String.prefix "0x" (quantity n) = true) as -> by apply prefix_app.
    rewrite parse_quantity_quantity by done. by rewrite hash_string_round.
Qed.

(** ** [archive] *)

(** [archive] reads its input first; unless the package decodes and matches
    [--chain-id], and the checkpoint can be read, it ends with an error before any
    store is opened, so that nothing is created or written. *)
Lemma archive_checks_first `{Sha256, Keccak256, Hex, Zstd, ZstdStream, HeadJson, RecordJson, ObjectCrate, UrlCrate}
    fuel (args : ArchiveArgs) :
  ∃ k, Cli.archive fuel args = Vis (EReadFile (ar_input args)) k ∧
    ∀ r, (∃ e, k r = Ret (Err e)) ∨
      ∃ b package gate, r = inl b ∧ read_package b = Ok package ∧ publication_gate args = Ok gate ∧
        parse_quantity (sa_chain_id (ar_store args)) = Ok (sg_chain_id (pk_segment package)).
Proof.
  eexists. split; [reflexivity|]. intros [b|e]; [|left; by eexists]. cbn [io_lift with_context bind].
  unfold archive_input. destruct (read_package b) as [package|e] eqn:Ep; [|left; by eexists].
  destruct (parse_quantity _) as [chain|e] eqn:Eq; [|left; by eexists].
  destruct (negb _) eqn:Ec; [left; by eexists|]. bool_prop.
  destruct (publication_gate args) as [gate|e] eqn:Eg; [|left; by eexists].
  right. exists b, package, gate. split_and!; [done|done|done|congruence].
Qed.

(** ** [compact] *)

Section drain.
Context `{Sha256, Keccak256, Hex, Zstd, HeadJson, !Sha256Laws, !HexLaws, !ZstdLaws, !HeadJsonLaws}.
Context (now : Z).
Abbreviation exec := (run_prog (mem_handle now)).

Lemma archive_same s s' chain_id h rss :
  archive s chain_id h rss → keeps s s' → same_heads s s' → archive s' chain_id h rss.
Proof.
  intros [(e & He & Hl & Hd) Hc Hends Hr] Hk Hs. split; [|done|done|by eapply runs_stored_mono].
  exists e. by rewrite (Hs _ (head_key_mutable chain_id)).
Qed.

Lemma compact_loop_fails n chain_id planned levels vb h s r s' :
  exec (read_head chain_id) s = (Ok (Some (vb, h)), s) →
  exec (compact_loop n chain_id planned levels) s = (r, s') →
  r ≠ Ok false ∧ ∀ e, r = Err e → keeps s s' ∧ same_heads s s'.
Proof.
  revert s; induction n as [|n IH]; intros s Hread Hl; [by injection Hl as <- <-|]. cbn [compact_loop] in Hl.
  rewrite run_prog_bind, Hread in Hl. cbn [ok_or] in Hl.
  destruct (negb (compatible planned h)); [by injection Hl as <- <-|].
  rewrite run_prog_bind in Hl. destruct (exec (swap _ _) s) as [[u|e] s1] eqn:Es; apply swap_ok in Es as [Hk Hs].
  { by injection Hl as <- <-. }
  destruct (IH s1) as [Hne He]; [by eapply read_head_same|done|]. split; [done|].
  intros e' Hr. destruct (He e' Hr). split; by etrans.
Qed.

(** A compaction that reports no work found too few level-0 runs; one that fails
    leaves the archive. *)
Lemma compact_rest fuel chain_id s s' h rss r :
  archive s chain_id h rss → exec (compact_once fuel chain_id) s = (r, s') →
  (r = Ok false → s' = s ∧ (len (h_l0 h) < L0_TRIGGER)%N) ∧
  ∀ e, r = Err e → keeps s s' ∧ archive s' chain_id h rss.
Proof.
  intros Ha He. destruct (read_head_archive now s chain_id (Some h) rss Ha) as (read & Er & Hprev & Hread).
  destruct read as [[vb h0]|]; [|done]. injection Hprev as ->.
  assert (∀ r, (r, s) = (r, s') → keeps s s' ∧ archive s' chain_id h rss) as Hsame by (by intros ? [= <-]).
  unfold compact_once in He. rewrite run_prog_bind, Er in He. cbn iota in He.
  destruct (len (h_l0 h) <? L0_TRIGGER)%N eqn:El0; [injection He as <- <-; bool_prop; done|].
  destruct (plan_levels _ _ _ _ _) as [[[[levels weight] deeper] target]|e]; [|injection He as <- <-; done].
  destruct (noncontiguous _); [injection He as <- <-; done|].
  destruct (collect Run_input _) as [refs|]; [|injection He as <- <-; done].
  cbn [request bind run_prog mem_handle] in He. rewrite run_prog_bind in He.
  destruct (calm_run now ok_built _ s (calm_merge_runs fuel refs (sum_keys (rev deeper ++ take (N.to_nat L0_TRIGGER) (h_l0 h)))))
    as (_ & Hs1 & Hk1).
  destruct (exec (merge_runs _ _ _) s) as [[built|e] s1]; simpl in Hs1, Hk1;
    [|injection He as <- <-; split; [done|]; intros _ _; split; [done|by eapply archive_same]].
  cbn [request bind run_prog mem_handle] in He.
  assert (keeps s s1 ∧ archive s1 chain_id h rss) as Hend by (split; [done|by eapply archive_same]).
  destruct (_ <? _)%Z; [injection He as <- <-; done|].
  destruct (unwrap _) as [first|]; [|injection He as <- <-; done].
  destruct (unwrap _) as [stop|]; [|injection He as <- <-; done].
  destruct (compact_loop_fails _ _ _ _ vb h s1 r s' (read_head_same _ _ _ _ _ Hs1 Er) He) as [Hne Herr].
  split; [by intros ->|]. intros e Hr. destruct (Herr e Hr) as [Hk2 Hs2].
  split; [by etrans|]. eapply archive_same; [apply Hend|done|done].
Qed.

Lemma i32_succ_small n : (0 <= n < 2 ^ 31 - 1)%Z → i32_succ n = (n + 1)%Z.
Proof. intros Hn. unfold i32_succ. rewrite Z.mod_small; lia. Qed.

(** C37: [compact] drains.  On a store that holds an archive and that nobody else
    writes, the loop ends: it needs one turn for every four level-0 runs and one
    more.  It reports how many compactions it made, leaves fewer level-0 runs than
    one more would need, and every key has the value it had at every block; if it
    fails, then because one compaction failed, and the archive still has every
    value. *)
Theorem compact_drains commits_fuel fuel chain_id s h rss r s' :
  archive s chain_id h rss → length (concat rss) < fuel →
  (len (h_l0 h) < L0_TRIGGER * N.of_nat commits_fuel)%N →
  exec (drain fuel commits_fuel chain_id 0) s = (r, s') →
  ∃ h' rss', archive s' chain_id h' rss' ∧ keeps s s' ∧
    h_number h' = h_number h ∧ h_hash h' = h_hash h ∧ h_genesis h' = h_genesis h ∧
    (∀ key block, state_at (concat rss') key block = state_at (concat rss) key block) ∧
    match r with
    | Ok n => (len (h_l0 h') < L0_TRIGGER)%N ∧ Z.of_N (len (h_l0 h)) = (Z.of_N (len (h_l0 h')) + 4 * n)%Z
    | Err e => ∃ s1, archive s1 chain_id h' rss' ∧ exec (compact_once fuel chain_id) s1 = (Err e, s')
    end.
Proof.
  intros Ha Hf Hl He.
  assert (len (h_l0 h) <= MAX_L0_BACKLOG)%N as Hmax.
  { destruct (read_head_archive now s chain_id (Some h) rss Ha) as (read & _ & Hprev & Hread).
    destruct read as [[vb h0]|]; [|done]. injection Hprev as ->. apply valid_l0, Hread. }
  assert (∀ n, (0 <= n)%Z → (4 * n + Z.of_N (len (h_l0 h)) <= 16)%Z →
    exec (drain fuel commits_fuel chain_id n) s = (r, s') →
    ∃ h' rss', archive s' chain_id h' rss' ∧ keeps s s' ∧
      h_number h' = h_number h ∧ h_hash h' = h_hash h ∧ h_genesis h' = h_genesis h ∧
      concat rss ≡ₚ concat rss' ∧
      match r with
      | Ok m => (len (h_l0 h') < L0_TRIGGER)%N ∧ (Z.of_N (len (h_l0 h)) = Z.of_N (len (h_l0 h')) + 4 * (m - n))%Z
      | Err e => ∃ s1, archive s1 chain_id h' rss' ∧ exec (compact_once fuel chain_id) s1 = (Err e, s')
      end) as Hgen.
  { clear He Hmax. revert s h rss Ha Hf Hl. induction commits_fuel as [|commits_fuel IH]; intros s h rss Ha Hf Hl n Hn Hb He; [lia|].
    cbn [drain] in He. rewrite run_prog_bind in He.
    destruct (exec (compact_once fuel chain_id) s) as [[[]|e] s1] eqn:Ec.
    - destruct (compact_ok now fuel chain_id s s1 h rss Ha Hf Ec) as (Hk & h1 & rss1 & Ha1 & Hp1 & En & Eh & Eg & El).
      unfold L0_TRIGGER in *. rewrite i32_succ_small in He by lia.
      destruct (IH s1 h1 rss1 Ha1) with (n := (n + 1)%Z) as (h' & rss' & Ha' & Hk' & En' & Eh' & Eg' & Hp' & Hr);
        [by rewrite <-Hp1|lia|lia|lia|done|].
      exists h', rss'. split_and!; [done|by etrans|congruence|congruence|congruence|by etrans|].
      destruct r as [m|e]; [|done]. destruct Hr as [Hlt Heq]. split; [done|lia].
    - injection He as <- <-. destruct (compact_rest fuel chain_id s s1 h rss _ Ha Ec) as [Hrest _].
      destruct (Hrest eq_refl) as [-> Hlt]. exists h, rss. split_and!; try done. lia.
    - injection He as <- <-. destruct (compact_rest fuel chain_id s s1 h rss _ Ha Ec) as [_ Herr].
      destruct (Herr e eq_refl) as [Hk Ha1]. exists h, rss. split_and!; try done. by exists s. }
  destruct (Hgen 0%Z) as (h' & rss' & Ha' & Hk & En & Eh & Eg & Hp & Hr); [lia|unfold MAX_L0_BACKLOG in Hmax; lia|done|].
  exists h', rss'. split_and!; try done; [by eapply archive_same_states|].
  destruct r as [m|e]; [|done]. destruct Hr. split; [done|lia].
Qed.
End drain.

(** ** [probe] *)

Lemma insert_by_le x l : StronglySorted N.le l → StronglySorted N.le (insert_by id x l).
Proof.
  induction 1 as [|y l Hl IH Hy]; [by repeat constructor|]. cbn [insert_by].
  destruct (ltb (id x) (id y)) eqn:E; unfold ltb, cmp, N_cmp, id in E.
  - assert (x <= y)%N as Hxy by (destruct (N.compare_spec x y); [done|lia|done]).
    constructor; [by constructor|]. constructor; [done|]. eapply Forall_impl; [exact Hy|]. intros z ?. by etrans.
  - constructor; [done|]. rewrite (insert_by_perm id x l). constructor; [|done].
    destruct (N.compare_spec x y); [lia|done|lia].
Qed.
Lemma sort_by_le l : StronglySorted N.le (sort_by id l).
Proof.
  unfold sort_by. assert (∀ acc, StronglySorted N.le acc →
    StronglySorted N.le (fold_left (λ acc x, insert_by id x acc) l acc)) as Hgen; [|apply Hgen; constructor].
  induction l as [|x l IH]; intros acc Ha; [done|]. by apply IH, insert_by_le.
Qed.
Lemma sort_by_order (l l' : list N) : l ≡ₚ l' → sort_by id l = sort_by id l'.
Proof.
  intros Hp. apply (StronglySorted_unique N.le); [apply sort_by_le..|]. by rewrite !sort_by_perm.
Qed.

(** The report of a probe does not depend on the order in which its samples
    finish. *)
Theorem probe_report_order results results' :
  results ≡ₚ results' → probe_report results = probe_report results'.
Proof.
  intros Hp. unfold probe_report. assert (oks results ≡ₚ oks results') as Ho by (by apply omap_Permutation).
  rewrite (sort_by_order (map fst (oks results)) (map fst (oks results'))) by (by rewrite Ho).
  rewrite (sort_by_order (map snd (oks results)) (map snd (oks results'))) by (by rewrite Ho).
  assert (len (filter (λ r, is_ok r = false) results) = len (filter (λ r, is_ok r = false) results')) as ->; [|done].
  unfold len. by rewrite Hp.
Qed.

Definition nearest_rank (percent n : N) : N := ((percent * n + 99) / 100 - 1)%N.
Lemma pick_index_ranks :
  forallb (λ n, (pick_index (N.of_nat n) f64_p50 =? nearest_rank 50 (N.of_nat n))%N
    && (pick_index (N.of_nat n) f64_p99 =? nearest_rank 99 (N.of_nat n))%N) (seq 0 4097) = true.
Proof. vm_compute. reflexivity. Qed.

(** The quantiles that double-precision arithmetic picks are the nearest ranks:
    for up to 4096 samples, the element at position ⌈n/2⌉ or ⌈99n/100⌉. *)
Theorem probe_nearest_rank values :
  (len values <= 4096)%N →
  pick values f64_p50 = values !! N.to_nat (nearest_rank 50 (len values)) ∧
  pick values f64_p99 = values !! N.to_nat (nearest_rank 99 (len values)) ∧
  (values ≠ [] → is_Some (pick values f64_p50) ∧ is_Some (pick values f64_p99)).
Proof.
  intros Hn. pose proof pick_index_ranks as Hall. rewrite forallb_forall in Hall.
  specialize (Hall (length values)). rewrite in_seq in Hall. destruct (andb_prop _ _ (Hall ltac:(unfold len in Hn; lia))) as [H50 H99].
  bool_prop. unfold pick. change (len values) with (N.of_nat (length values)) in *. rewrite H50, H99. split_and!; [done|done|].
  intros Hne. assert (0 < length values) as Hpos by (destruct values; [done|simpl; lia]).
  unfold nearest_rank. split; apply lookup_lt_is_Some_2.
  - assert ((50 * N.of_nat (length values) + 99) / 100 < N.of_nat (length values) + 1)%N; [|lia].
    apply N.Div0.div_lt_upper_bound. lia.
  - assert ((99 * N.of_nat (length values) + 99) / 100 < N.of_nat (length values) + 1)%N; [|lia].
    apply N.Div0.div_lt_upper_bound. lia.
Qed.

(** Counting beside the requests is [CountingStore] around the store. *)
Lemma counting_impl_handle {S A} (h : ∀ X, storeE X → S → X * S) (p : prog storeE A) s c :
  run_prog h (interp_st counting_impl p c) s =
    let '(a, (s', c')) := run_prog (counting_handle h) p (s, c) in ((a, c'), s').
Proof.
  revert s c; induction p as [a|X e k IH]; intros s c; [done|]. cbn [interp_st run_prog].
  rewrite run_prog_bind. unfold counting_impl. cbn [request bind run_prog].
  assert (counting_handle h X e (s, c) = ((h X e s).1, ((h X e s).2, count_answer X e (h X e s).1 c))) as ->.
  { destruct e; simpl; match goal with |- context [h ?X ?e s] => destruct (h X e s) end; done. }
  destruct (h X e s) as [x s1]. simpl. by rewrite IH.
Qed.
