(* ===== verification/FsProtocol.v ===== *)
(** * Publishers, compactors and readers on the file system

    The processes of the program on the file-system back end: every request of a
    publisher, a compactor or a reader is the sequence of system calls of [FsStore], and the
    calls of all processes interleave in any way, and fail.  The layout of the keys
    ([head_name], [data_name]) is what the back end asks of its keys; by
    [fs_implements] the run is one of atomic requests, and by [SharedProcesses] such
    a run is explained by a log of publications.

    The versions of the file-system store are digests: a publication is lost if two
    different heads have one digest, so the theorem is about runs without such a
    collision. *)

From stdpp Require Import pretty relations gmap.
From S2P Require Import Prelude Bytes SortedLists Text Externals Hash RunFormat RunReader Head HeadFacts Summary SummaryFacts RelyGuarantee Store StoreContract ObjectStore ObjectStoreFacts FsStore FsModel FsFacts FsLinear FsRefinement FsTheorems Compact CompactFacts Format Tiered TieredReader ReaderTheorems GatewayTheorems HeadSteps Calm PublishFacts Protocol SharedStore SharedProcesses CliTheorems.
From Stdlib Require Import Lia ZArith Strings.Ascii.

(** ** The layout of the keys *)

Definition layout (roots : list string) (k : string) : bool :=
  fs_key k && (match split_on "/" k with [root; _; _; _] => bool_decide (root ∈ roots) | _ => false end).
(** [chains/<id>/heads/<name>], which are swapped; [objects/sha256/<xx>/<digest>]
    and [summaries/<run>/<shards>/<shard>], which are put. *)
Definition head_name : string → bool := layout ["chains"].
Definition data_name : string → bool := layout ["objects"; "summaries"].

Lemma layout_parts roots k : layout roots k = true →
  fs_key k = true ∧ ∃ root a b c, split_on "/" k = [root; a; b; c] ∧ root ∈ roots.
Proof.
  unfold layout. intros [Hk Hp]%andb_true_iff. split; [done|].
  destruct (split_on "/" k) as [|root [|a [|b [|c []]]]]; try done. bool_prop. eauto 8.
Qed.

#[export] Instance layout_keys : FsKeys head_name data_name.
Proof.
  assert (∀ k, head_name k || data_name k = true → fs_key k = true ∧ length (split_on "/" k) = 4) as Hk.
  { intros k [Hk|Hk]%orb_true_iff; apply layout_parts in Hk as (Hf & root & a & b & c & -> & _); done. }
  split.
  - intros k Hn. by apply Hk.
  - intros k (Hf & root & a & b & c & E & Hr)%layout_parts. unfold data_name, layout. rewrite E.
    apply andb_false_iff. right. apply bool_decide_eq_false. set_solver.
  - intros k k' rest [_ L]%Hk [_ L']%Hk E. rewrite E, length_app in L'. apply nil_length_inv. lia.
Qed.

(** Words of lowercase letters and digits. *)
Definition plain_char (c : ascii) : bool :=
  let n := N_of_ascii c in ((48 <=? n)%N && (n <=? 57)%N) || ((97 <=? n)%N && (n <=? 122)%N).
Definition plain (s : string) : bool := negb (bool_decide (s = "")) && forallb plain_char (String.list_ascii_of_string s).

Lemma plain_char_key c : plain_char c = true → key_char c = true ∧ c ≠ "/"%char ∧ c ≠ "."%char.
Proof. by destruct c as [[] [] [] [] [] [] [] []]. Qed.
Lemma plain_part s : plain s = true →
  good_part s = true ∧ contains_char "/" s = false ∧ String.prefix ".tmp" s = false.
Proof.
  unfold plain. intros [Hne Hs]%andb_true_iff. destruct s as [|c s]; [done|]. clear Hne.
  assert (forallb key_char (String.list_ascii_of_string (String c s)) = true ∧ contains_char "/" (String c s) = false) as [Hk Hc].
  { revert Hs. generalize (String c s). clear c s. intros s. induction s as [|c s IH]; [done|]. simpl.
    intros [Hc Hs]%andb_true_iff. apply plain_char_key in Hc as (-> & Hc & _). destruct (IH Hs) as [-> ->].
    by rewrite bool_decide_eq_false_2. }
  simpl in Hs. apply andb_true_iff in Hs as [(_ & _ & Hd)%plain_char_key _].
  split_and!; [|done|].
  - unfold good_part. rewrite Hk, !bool_decide_eq_false_2 by congruence. done.
  - cbn [String.prefix]. by destruct (ascii_dec "." c) as [<-|].
Qed.

Lemma layout_key roots root a b c :
  root ∈ roots → plain root = true → plain a = true → plain b = true →
  good_part c = true → contains_char "/" c = false → String.prefix ".tmp" c = false →
  layout roots (root +:+ String "/" (a +:+ String "/" (b +:+ String "/" c))) = true.
Proof.
  intros Hr (Gr & Sr & _)%plain_part (Ga & Sa & _)%plain_part (Gb & Sb & _)%plain_part Gc Sc Tc.
  unfold layout, fs_key, good_key, is_tmp.
  assert (split_on "/" (root +:+ String "/" (a +:+ String "/" (b +:+ String "/" c))) = [root; a; b; c]) as E
    by (by rewrite !split_on_segment, split_on_last).
  rewrite E, (bool_decide_eq_true_2 (root ∈ roots)) by done. cbn [forallb]. rewrite Gr, Ga, Gb, Gc.
  change (file_name [root; a; b; c]) with c. rewrite Tc. simpl.
  rewrite bool_decide_eq_false_2; [done|]. intros Ek. rewrite Ek in E. done.
Qed.

(** ** The keys of the program *)

Lemma digits_plain s : s ≠ "" → Forall (λ x, is_ascii_digit x = true) (byte_string s) → plain s = true.
Proof.
  intros Hne Hs. unfold plain. rewrite bool_decide_eq_false_2 by done. simpl. clear Hne. induction s as [|c s IH]; [done|].
  change (byte_string (String c s)) with (byte_of_ascii c :: byte_string s) in Hs. inversion Hs as [|? ? Hc Hs']; subst. simpl.
  rewrite IH by done. rewrite andb_true_r. clear -Hc. by destruct c as [[] [] [] [] [] [] [] []].
Qed.
Lemma lower_plain s : s ≠ "" → lower_digits s = true → plain s = true.
Proof.
  intros Hne Hs. unfold plain. rewrite bool_decide_eq_false_2 by done. simpl. clear Hne. induction s as [|c s IH]; [done|].
  change (byte_string (String c s)) with (byte_of_ascii c :: byte_string s) in Hs. simpl in Hs.
  apply andb_true_iff in Hs as [Hc Hs]. simpl. rewrite IH by done. rewrite andb_true_r.
  clear -Hc. by destruct c as [[] [] [] [] [] [] [] []].
Qed.
Lemma lower_hex_plain b : b ≠ [] → plain (lower_hex b) = true.
Proof. intros Hb. apply lower_plain; [by destruct b|]. apply lower_hex_text. Qed.

Lemma pretty_nonempty (n : N) : pretty n ≠ "".
Proof.
  assert (∀ n s, s ≠ "" → pretty_N_go n s ≠ "") as Hgo.
  { clear n. intros n. induction (N.lt_wf_0 n) as [n _ IH]. intros s Hs.
    destruct (decide (n = 0)%N) as [->|Hz]; [by rewrite pretty_N_go_0|].
    rewrite pretty_N_go_step by lia. apply IH; [apply N.div_lt; lia|done]. }
  unfold pretty, pretty_N. case_decide; [done|]. rewrite pretty_N_go_step by lia. by apply Hgo.
Qed.

Section keys.
Context `{Hex, !HexCanon}.

Lemma head_key_name chain_id : head_name (head_key chain_id) = true.
Proof.
  apply (layout_key _ "chains" (pretty chain_id) "heads" "tiered-v1.json"); try done; [set_solver|].
  apply digits_plain; [apply pretty_nonempty|apply pretty_digits].
Qed.

Lemma head_key_file self chain_id : file_name (fs_path self (head_key chain_id)) = "tiered-v1.json".
Proof.
  rewrite (fs_path_key self head_name data_name) by (unfold is_key; by rewrite head_key_name).
  assert (split_on "/" (head_key chain_id) = split_on "/" ("chains/" +:+ pretty chain_id) ++ ["heads"; "tiered-v1.json"]) as ->.
  { unfold head_key. rewrite <-string_app_assoc. apply (split_on_app "/" ("chains/" +:+ pretty chain_id) "heads/tiered-v1.json"). }
  rewrite file_name_app by (by destruct (split_on "/" _)). by rewrite file_name_app.
Qed.

Lemma arr_cons {n} (a : array (S n)) : ∃ x b, arr a = x :: b.
Proof. pose proof (length_arr a) as Hl. destruct (arr a) as [|x b]; [done|eauto]. Qed.

Lemma object_key_name h : data_name (object_key h) = true.
Proof.
  unfold object_key. rewrite hex_encode_spec. destruct (arr_cons h) as (x & b & E).
  assert (plain (lower_hex (arr h)) = true) as Hp by (apply lower_hex_plain; by rewrite E).
  assert (plain (String.substring 0 2 (lower_hex (arr h))) = true) as Hs.
  { rewrite E in Hp |- *. unfold plain in *. simpl in *. bool_prop.
    destruct (lower_hex b); simpl; rewrite !andb_true_r; by apply andb_true_iff. }
  destruct (plain_part _ Hp) as (? & ? & ?).
  by apply (layout_key _ "objects" "sha256" (String.substring 0 2 (lower_hex (arr h))) (lower_hex (arr h))); [set_solver|..].
Qed.

Lemma shard_path_name run shards kind index : data_name (shard_path run shards kind index) = true.
Proof.
  unfold shard_path. rewrite hex_encode_spec. destruct (arr_cons run) as (x & b & E).
  assert (∀ n, plain (hex08 n) = true) as Hx by (intros n; by apply lower_hex_plain).
  set (c := (match kind with Address => "a" | Spill => "s" end) +:+ hex08 index).
  assert (plain c = true) as Hp.
  { specialize (Hx index). unfold c, plain in *. bool_prop. destruct kind; simpl; done. }
  destruct (plain_part _ Hp) as (? & ? & ?).
  apply (layout_key _ "summaries" (lower_hex (arr run)) (hex08 shards) c); try done; [set_solver|].
  apply lower_hex_plain. by rewrite E.
Qed.

Lemma data_key_name key : data_key key → data_name key = true.
Proof. intros [(h & ->)|(run & shards & kind & index & ->)]; [apply object_key_name|apply shard_path_name]. Qed.
End keys.

(** ** The requests of publishers and compactors *)

Section requests.
Context `{Sha256, Keccak256, Hex, Zstd, HeadJson, !HexCanon}.
Abbreviation allowed := (fs_allowed head_name data_name).
Abbreviation may_ask := (always allowed (λ _, True)).

Lemma calm_allowed X (e : storeE X) : calm X e → allowed X e.
Proof.
  destruct e; simpl; try done; intros Hk%data_key_name; [|done]. unfold is_key. by rewrite Hk, orb_true_r.
Qed.
Lemma calm_may {A} (Q : A → Prop) (p : prog storeE A) : always calm Q p → may_ask p.
Proof. induction 1 as [a _|X e k He _ IH]; [by constructor|]. constructor; [by apply calm_allowed|done]. Qed.

Lemma may_request X (e : storeE X) : allowed X e → may_ask (request e).
Proof. intros He. constructor; [done|]. by constructor. Qed.
Lemma may_bind {A B} (p : prog storeE A) (f : A → prog storeE B) : may_ask p → (∀ a, may_ask (f a)) → may_ask (bind p f).
Proof. intros Hp Hf. eapply always_bind; [exact Hp|]. intros a _. apply Hf. Qed.
Hint Constructors always : core.

Lemma may_read_head chain_id : may_ask (read_head chain_id).
Proof.
  apply may_bind; [apply may_request; simpl; unfold is_key; by rewrite head_key_name|].
  intros [[v|]|e]; [|by constructor..]. destruct (Head_decode _) as [h|]; [|by constructor]. simpl.
  destruct (negb _); by constructor.
Qed.
Lemma may_stage b : may_ask (stage b).
Proof.
  unfold stage. destruct (try_u32 _ _); [|by constructor].
  apply may_bind; [apply may_request, object_key_name|]. intros [[]|e]; by constructor.
Qed.
Lemma may_swap previous next : may_ask (swap previous next).
Proof.
  apply may_bind.
  { destruct previous; [|by constructor]. apply may_bind; [apply may_stage|]. intros [r|e]; by constructor. }
  intros [parent|e]; [|by constructor]. cbv zeta. destruct (head_to_json (with_parent parent next)) as [b|]; [|by constructor]. simpl.
  destruct (_ <? _)%N; [by constructor|]. apply may_request, head_key_name.
Qed.

Lemma may_publish_loop n package first stop run previous : may_ask (publish_loop n package first stop run previous).
Proof.
  revert previous; induction n as [|n IH]; intros previous; [by constructor|]. cbn [publish_loop].
  apply may_bind; [apply may_swap|]. intros [[]|e]; [by constructor|].
  apply may_bind; [apply may_read_head|]. intros [[[v now]|]|e']; [|by constructor..].
  destruct (is_published now package); [by constructor|]. destruct previous as [[v' before]|]; [|by constructor].
  destruct (_ && _); [apply IH|by constructor].
Qed.
Lemma may_publish package gate : may_ask (publish package gate).
Proof.
  unfold publish. destruct (head _) as [first|]; [|by constructor]. destruct (last _) as [stop|]; [|by constructor].
  cbn [ok_or unwrap]. destruct (interval_invalid _ _ _); [by constructor|]. destruct (negb _); [by constructor|].
  apply may_bind; [apply may_read_head|]. intros [read|e]; [|by constructor].
  destruct (match read with Some (_, h) => is_published h package | None => false end); [by constructor|].
  destruct (negb _); [by constructor|].
  destruct (match read with Some (_, h) => (MAX_L0_BACKLOG <=? len (h_l0 h))%N | None => false end); [by constructor|].
  destruct (validate_lifecycle package); [|by constructor]. destruct (package_records package) as [records|]; [|by constructor].
  apply may_bind; [eapply calm_may, calm_write_sorted|]. intros [built|e]; [|by constructor]. apply may_publish_loop.
Qed.

Lemma may_compact_loop n chain_id planned levels : may_ask (compact_loop n chain_id planned levels).
Proof.
  induction n as [|n IH]; [by constructor|]. cbn [compact_loop].
  apply may_bind; [apply may_read_head|]. intros [[[v current]|]|e]; [|by constructor..]. cbn [ok_or].
  destruct (negb _); [by constructor|]. apply may_bind; [apply may_swap|]. intros [[]|e]; [by constructor|exact IH].
Qed.
Lemma may_compact fuel chain_id : may_ask (compact_once fuel chain_id).
Proof.
  unfold compact_once. apply may_bind; [apply may_read_head|]. intros [[[v planned]|]|e]; [|by constructor..].
  destruct (_ <? _)%N; [by constructor|]. destruct (plan_levels _ _ _ _ _) as [[[[levels weight] deeper] t]|]; [|by constructor].
  destruct (noncontiguous _); [by constructor|]. destruct (collect _ _) as [refs|]; [|by constructor].
  apply may_bind; [by apply may_request|]. intros started.
  apply may_bind; [eapply calm_may, calm_merge_runs|]. intros [built|e]; [|by constructor].
  apply may_bind; [by apply may_request|]. intros finished. destruct (_ <? _)%Z; [by constructor|].
  destruct (head _) as [first|]; [|by constructor]. destruct (last _) as [stop|]; [|by constructor]. apply may_compact_loop.
Qed.
Lemma may_agent a : may_ask (agent_prog a).
Proof.
  destruct a as [package gate|fuel chain_id]; [apply may_publish|].
  apply may_bind; [apply may_compact|]. intros [r|e]; by constructor.
Qed.

(** A read only asks for objects and shards. *)
Context `{ShardCache}.
Definition reads_calm {A} (p : reading A) : Prop := ∀ st, calmly (p st).
Lemma calm_reading_bind {A B} (p : reading A) (k : A → reading B) :
  reads_calm p → (∀ a, reads_calm (k a)) → reads_calm (reading_bind p k).
Proof. intros Hp Hk st. eapply always_bind; [apply Hp|]. intros [[a|e] st'] _; [apply Hk|by constructor]. Qed.
Lemma calm_reading_ret {A} (r : result A) : reads_calm (reading_ret r).
Proof. by constructor. Qed.
Lemma calm_reading_charge maximum : reads_calm (reading_charge maximum).
Proof. intros [b c]. unfold reading_charge. destruct (charge maximum b). by constructor. Qed.
Lemma calm_reading_store {A} (p : prog storeE (result A)) : calmly p → reads_calm (reading_store p).
Proof. intros Hp st. eapply always_bind; [exact Hp|]. by constructor. Qed.
Lemma calm_charged_fetch X (e : fetchE X) st : calmly (charged_fetch X e st).
Proof.
  destruct e as [reference]. apply calm_reading_bind; [apply calm_reading_charge|]. intros _. apply calm_reading_store, calm_fetch.
Qed.

Ltac calm_step :=
  match goal with
  | |- reads_calm (reading_ret _) => apply calm_reading_ret
  | |- reads_calm (reading_bind _ _) => apply calm_reading_bind; [|intros ?]
  | |- reads_calm (reading_charge _) => apply calm_reading_charge
  | |- reads_calm (match ?c with _ => _ end) => destruct c
  | |- reads_calm (if ?c then _ else _) => destruct c
  end.

Lemma calm_shard run kind index : reads_calm (Reader_shard run kind index).
Proof.
  intros [b c]. unfold Reader_shard. set (path := shard_path _ _ _ _). destruct (sc_get c path); [by constructor|].
  match goal with |- calmly (?p _) => cut (reads_calm p); [by intros Hp; apply Hp|] end. repeat calm_step.
  - apply calm_reading_store. constructor; [apply data_key_shard|]. by constructor.
  - intros [b' c']. by constructor.
Qed.
Lemma calm_lookup_runs ps key block : reads_calm (lookup_runs ps key block).
Proof.
  induction ps as [|[run reader] ps IH]; [apply calm_reading_ret|]. cbn [lookup_runs]. destruct (block <? run_start run)%N; [exact IH|].
  apply calm_reading_bind; [unfold Reader_may_contain; cbv zeta; repeat calm_step; apply calm_shard|]. intros may.
  destruct (negb may); [exact IH|]. apply calm_reading_bind; [|intros [v|]; [apply calm_reading_ret|exact IH]].
  intros st. apply always_interp_st. intros X e st'. apply calm_charged_fetch.
Qed.
Lemma calm_account r address block : reads_calm (Reader_account_in r address block).
Proof. unfold Reader_account_in, Reader_lookup. repeat calm_step. apply calm_lookup_runs. Qed.
Lemma calm_ask r q c : calmly (ask r q c).
Proof.
  assert (∀ A (p : reading A) (f : A → Answer), reads_calm p →
    calmly (let* (a, st) := p (budget_default, c) in Ret (result_map f a, st.2))) as Hgen.
  { intros A p f Hp. eapply always_bind; [apply Hp|]. intros [a st] _. by constructor. }
  destruct q; cbn [ask]; apply Hgen; [apply calm_account| |]; (apply calm_reading_bind; [apply calm_account|]; intros account;
    unfold Reader_lookup; repeat calm_step; apply calm_lookup_runs).
Qed.
Lemma calm_asks r c queries : calmly (asks r c queries).
Proof.
  revert c; induction queries as [|q queries IH]; intros c; [by constructor|]. cbn [asks].
  eapply always_bind; [apply calm_ask|]. intros [a c'] _. eapply always_bind; [apply IH|]. by constructor.
Qed.

Lemma may_observe chain_id queries : may_ask (observe chain_id queries).
Proof.
  unfold observe, Reader_open. apply may_bind; [apply may_bind; [apply may_read_head|]|].
  - intros [[[b h]|]|e]; [|by constructor..]. cbn [ok_or]. destruct (open_runs (runs h)); by constructor.
  - intros [[r c]|e]; [|by constructor]. apply may_bind; [eapply calm_may, calm_asks|]. by constructor.
Qed.
Lemma may_process p : may_ask (process_prog p).
Proof.
  destruct p as [a|chain_id queries]; (apply may_bind; [apply may_agent || apply may_observe|]); by constructor.
Qed.
End requests.

(** ** Processes *)

Section protocol.
Context `{Sha256, Keccak256, Hex, Zstd, HeadJson, ShardCache} (self : FsArchiveStore).
Context `{!Sha256Laws, !HexLaws, !HexCanon, !ZstdLaws, !HeadJsonLaws, !ShardCacheLaws}.
Abbreviation contents_of := (fs_contents self head_name data_name).

(** The states before and after the system calls of a run. *)
Definition states_of (run : list (nat * (FsState * FsState))) : list FsState := concat (map (λ t, [t.2.1; t.2.2]) run).

(** No two heads of a chain with the same digest differ. *)
Definition no_collision (states : list FsState) : Prop := ∀ t t' chain_id n n',
  t ∈ states → t' ∈ states →
  file_at (fs_path self (head_key chain_id)) t = Some n → file_at (fs_path self (head_key chain_id)) t' = Some n' →
  digest (in_bytes n) = digest (in_bytes n') → in_bytes n = in_bytes n'.

Definition met_in (states : list FsState) (m : contents) : Prop := ∃ t, t ∈ states ∧ m ≡ contents_of t.

Lemma versions_unambiguous states : no_collision states → unambiguous (met_in states).
Proof.
  intros Hno m m' chain_id b b' w (t & Ht & E) (t' & Ht' & E') Hb Hb'. rewrite (E _) in Hb. rewrite (E' _) in Hb'.
  unfold fs_contents in Hb, Hb'. rewrite decide_True in Hb, Hb' by (unfold is_key; by rewrite head_key_name).
  destruct (file_at _ t) as [n|] eqn:Hn; [|done]. destruct (file_at _ t') as [n'|] eqn:Hn'; [|done].
  injection Hb as <- <-. injection Hb' as <- Hh.
  apply (Hno t t' chain_id n n'); [done..|]. by apply arr_inj, hex_encode_inj.
Qed.

Lemma run_through_met run run' :
  run_through contents_of run run' → Forall (λ t, met_in (states_of run) t.2.1 ∧ met_in (states_of run) t.2.2) run'.
Proof.
  intros Hr. eapply Forall_impl; [exact Hr|]. intros t (u & Hu & E1 & E2).
  assert (∀ s, s ∈ [u.2.1; u.2.2] → s ∈ states_of run) as Hin.
  { intros s Hs. unfold states_of. apply list_elem_of_In, in_concat. exists [u.2.1; u.2.2].
    split; [|by apply list_elem_of_In]. apply in_map_iff. exists u. split; [done|]. by apply list_elem_of_In. }
  split; eexists; (split; [apply Hin|done]); set_solver.
Qed.

(** C2: any number of publishers, compactors and readers may run on one file system,
    as processes whose system calls interleave in any way and may fail.  What they
    do is then explained by a log of packages, published one after the other: when
    the processes have finished, each chain holds the history of its log; every
    package of the log continues the blocks before it and was offered by a
    publisher; the package of every publisher that reported success was published
    by the log, or at the start; every answer of a reader that is not a failure is
    that of the history of a part of the log; and no object has disappeared. *)
Theorem fs_processes_serialize processes fuel s run results s' start hist :
  Forall wf_process processes → fs_inv self head_name data_name s → no_collision (states_of run) →
  (∀ chain_id, represents (contents_of s) chain_id (start chain_id) (hist chain_id)) →
  pool fs_step (map (interp (fs_impl self fuel)) (map process_prog processes), s) run (map Ret results, s') →
  ∃ log : N → list Package, keeps_objects (contents_of s) (contents_of s') ∧
    (∀ chain_id, recorded_at start hist (contents_of s') chain_id (log chain_id)) ∧
    (∀ chain_id package, package ∈ log chain_id → offered processes package) ∧
    Forall2 (λ p o, outcome_ok start hist p o log) processes results.
Proof.
  intros Hw Hi Hno Hstart Hrun.
  assert (Forall (always (fs_allowed head_name data_name) (λ _, True)) (map process_prog processes)) as Hps
    by (apply Forall_fmap, Forall_true; intros p; apply may_process).
  destruct (fs_clients_linearize_run self head_name data_name _ _ fuel s run results s' Hps Hi Hrun)
    as (m' & run' & Hp & Em & Hr).
  destruct (processes_sound _ start hist (versions_unambiguous _ Hno) processes _ _ _ _ Hstart Hw Hp (run_through_met _ _ Hr))
    as (log & Hk & Hrec & Hoff & Hout).
  destruct (quiet_same m' (contents_of s')) as [Hk' Hh]; [by symmetry|].
  exists log. split_and!; [|intros c; by apply (recorded_at_keeps _ _ m')|done|done].
  intros key b Hkey Hb. by apply Hk', Hk.
Qed.
End protocol.
