(* ===== verification/TieredExample.v ===== *)
(** * A concrete archive

    Five one-block packages published in turn, with computable instances of the
    external crates.  The theorems about whole operations are applied to it. *)

From S2P Require Import Prelude Bytes SortedLists Externals ToyCrates Hash RunFormat RunReader RunRep Head ToyJson HeadFacts Summary SummaryFacts Store Compact CompactFacts MergeFacts Format Tiered TieredReader ReaderFacts ReaderTheorems HeadSteps PublishFacts TieredTheorems PackageTheorems Protocol Collect CollectFacts.
From stdpp Require Import relations.
From Stdlib Require Import Lia Sorting.Sorted.

(** A cache that never evicts. *)
Definition toy_cache : ShardCache := {|
  SC := gmap string Shard;
  sc_new _ _ := ∅;
  sc_get c k := c !! k;
  sc_touch c _ := c;
  sc_insert c k v := <[k := v]> c
|}.
Lemma toy_cache_laws : @ShardCacheLaws toy_cache.
Proof.
  split; simpl; [by intros ???; apply lookup_empty|done|].
  intros c k v k' v'. rewrite lookup_insert_Some. naive_solver.
Qed.

Module TieredExample.
#[local] Existing Instances toy_sha toy_hex toy_json toy_keccak toy_zstd toy_cache.
#[local] Existing Instances toy_sha_laws toy_hex_laws toy_json_laws toy_zstd_laws toy_cache_laws.

Definition word (n : N) : Hash32 := match to_array 32 (to_be 32 n) with Some a => a | None => zero_hash end.
Definition address : Address20 := array_repeat 20 Byte.x07.
Definition block (n : N) : BlockMeta :=
  {| bm_number := n; bm_hash := word (100 + n);
     bm_parent_hash := if (n =? 0)%N then zero_hash else word (99 + n);
     bm_state_root := word (200 + n); bm_timestamp := n |}.
Definition event (n : N) : AccountEvent :=
  {| ae_block := n; ae_address := address; ae_exists := true; ae_incarnation := 0; ae_nonce := n;
     ae_balance := word (1000 * n); ae_code_hash := keccak [] |}.
Definition slot_event (n : N) : StorageEvent :=
  {| se_block := n; se_address := address; se_incarnation := 0; se_slot := word 1; se_value := word (7 + n) |}.
Definition package (n : N) : Package :=
  {| pk_mode := if (n =? 0)%N then Anchor else Delta;
     pk_preceding_number := if (n =? 0)%N then None else Some (n - 1)%N;
     pk_preceding_hash := if (n =? 0)%N then None else Some (word (99 + n));
     pk_input_sha256 := word (300 + n);
     pk_segment := {| sg_schema := SEGMENT_SCHEMA; sg_chain_id := 1; sg_genesis_hash := word 100;
       sg_start_block := n; sg_end_block := n; sg_blocks := [block n]; sg_accounts := [event n];
       sg_storage := [slot_event n]; sg_code := [] |} |}.
Definition gate (n : N) : PublicationGate := Finalized n (word (100 + n)).

Definition publishing (n : N) (s : MemoryState) : result unit * MemoryState :=
  run_prog (mem_handle 0) (publish (package n) (gate n)) s.
Definition s0 : MemoryState := (publishing 0 memory_default).2.
Definition s1 : MemoryState := (publishing 1 s0).2.
Definition s2 : MemoryState := (publishing 2 s1).2.
Definition s3 : MemoryState := (publishing 3 s2).2.

Definition compacting : result bool * MemoryState := run_prog (mem_handle 0) (compact_once 9 1) s3.
Definition s4 : MemoryState := compacting.2.

Definition head_of (s : MemoryState) : result Head :=
  match ms_entries s !! head_key 1 with Some e => Head_decode (me_bytes e) | None => bail "no head" end.
Definition single_shards (s : MemoryState) : bool :=
  match head_of s with Ok h => forallb (λ r, (run_shards r =? 1)%N) (runs h) | Err _ => false end.
Definition versions_bounded (s : MemoryState) : bool :=
  forallb (λ p, (me_version p.2 <=? ms_next_version s)%N) (map_to_list (ms_entries s)).

(** The whole scenario in one evaluation. *)
Definition scenario : list bool :=
  let '(r0, s0) := publishing 0 memory_default in
  let '(r1, s1) := publishing 1 s0 in
  let '(r2, s2) := publishing 2 s1 in
  let '(r3, s3) := publishing 3 s2 in
  let '(r4, s4) := run_prog (mem_handle 0) (compact_once 9 1) s3 in
  [is_ok r0; is_ok r1; is_ok r2; is_ok r3; bool_decide (r4 = Ok true); single_shards s4;
   versions_bounded s0; (ms_next_version s0 + 11 <=? u64_max)%N].
Lemma scenario_eq :
  scenario = [is_ok (publishing 0 memory_default).1; is_ok (publishing 1 s0).1; is_ok (publishing 2 s1).1;
    is_ok (publishing 3 s2).1; bool_decide (compacting.1 = Ok true); single_shards s4;
    versions_bounded s0; (ms_next_version s0 + 11 <=? u64_max)%N].
Proof.
  unfold scenario, s4, compacting, s3, s2, s1, s0.
  destruct (publishing 0 memory_default) as [r0 t0]. cbn [fst snd].
  destruct (publishing 1 t0) as [r1 t1]. cbn [fst snd].
  destruct (publishing 2 t1) as [r2 t2]. cbn [fst snd].
  destruct (publishing 3 t2) as [r3 t3]. cbn [fst snd].
  destruct (run_prog _ _ t3) as [r4 t4]. reflexivity.
Qed.
Lemma scenario_ok : scenario = repeat true 8.
Proof. vm_compute. reflexivity. Qed.

Lemma eight_true (a b c d e f g h : bool) :
  [a; b; c; d; e; f; g; h] = repeat true 8 →
  a = true ∧ b = true ∧ c = true ∧ d = true ∧ e = true ∧ f = true ∧ g = true ∧ h = true.
Proof. intros E. injection E as -> -> -> -> -> -> -> ->. done. Qed.
Definition facts := eight_true _ _ _ _ _ _ _ _ (eq_trans (eq_sym scenario_eq) scenario_ok).

Lemma publishes n s : is_ok (publishing n s).1 = true → publishing n s = (Ok tt, (publishing n s).2).
Proof. destruct (publishing n s) as [[[]|e] s']; done. Qed.
Lemma published0 : publishing 0 memory_default = (Ok tt, s0).
Proof. apply publishes. destruct facts as (E & _). exact E. Qed.
Lemma published1 : publishing 1 s0 = (Ok tt, s1).
Proof. apply publishes. destruct facts as (_ & E & _). exact E. Qed.
Lemma published2 : publishing 2 s1 = (Ok tt, s2).
Proof. apply publishes. destruct facts as (_ & _ & E & _). exact E. Qed.
Lemma published3 : publishing 3 s2 = (Ok tt, s3).
Proof. apply publishes. destruct facts as (_ & _ & _ & E & _). exact E. Qed.
Lemma compacted : compacting = (Ok true, s4).
Proof.
  destruct facts as (_ & _ & _ & _ & E & _). apply bool_decide_eq_true in E.
  unfold s4. rewrite <-E. apply surjective_pairing.
Qed.
Lemma single_shards4 : single_shards s4 = true.
Proof. destruct facts as (_ & _ & _ & _ & _ & E & _). exact E. Qed.
Lemma versions_bounded0 : versions_bounded s0 = true.
Proof. destruct facts as (_ & _ & _ & _ & _ & _ & E & _). exact E. Qed.
Lemma next_small : (ms_next_version s0 + 11 <= u64_max)%N.
Proof. destruct facts as (_ & _ & _ & _ & _ & _ & _ & E). by apply N.leb_le. Qed.

Lemma package_wf n : (n <= u64_max)%N → wf_package (package n).
Proof. intros Hn. split; [vm_compute; discriminate|]. by repeat constructor. Qed.

(** ** Publication *)

Lemma empty_archive : archive_of memory_default 1 None [].
Proof. by split. Qed.

Lemma publish_appends_history_witness :
  keeps memory_default s0 ∧
  ((∃ h, None = Some h ∧ is_published h (package 0) = true ∧ s0 = memory_default) ∨
   published_to (package 0) [] s0).
Proof.
  apply (publish_appends_history 0 (package 0) (gate 0) memory_default s0 None []).
  - exact empty_archive.
  - apply package_wf. vm_compute. discriminate.
  - vm_compute. reflexivity.
  - exact published0.
Defined.

Definition records (n : N) : list RunRecord := match package_records (package n) with Ok l => l | Err _ => [] end.

(** The history after a publication that changed the head. *)
Lemma publish_step n s s' previous rss :
  archive_of s 1 previous rss → (n < u64_max)%N → publishing n s = (Ok tt, s') →
  (∀ h, previous = Some h → (h_number h < n)%N) →
  ∃ h', archive s' 1 h' (rss ++ [records n]) ∧ h_number h' = n.
Proof.
  intros Ha Hn Hp Hprev.
  destruct (publish_ok 0 (package n) (gate n) s s' previous rss) as [_ [(h & -> & Hpub & _)|(h' & rs & Hrs & Ha' & Hnum & _)]];
    [done|apply package_wf; lia|done|done| |].
  - specialize (Hprev h eq_refl). unfold is_published in Hpub. simpl in Hpub. bool_prop. lia.
  - exists h'. unfold records. rewrite Hrs. done.
Qed.

Lemma archive0 : ∃ h, archive s0 1 h [records 0] ∧ h_number h = 0%N.
Proof. apply (publish_step 0 memory_default s0 None []); [exact empty_archive|reflexivity|exact published0|done]. Qed.
Lemma archive1 : ∃ h, archive s1 1 h [records 0; records 1] ∧ h_number h = 1%N.
Proof.
  destruct archive0 as (h & Ha & Hn).
  apply (publish_step 1 s0 s1 (Some h) [records 0]); [exact Ha|reflexivity|exact published1|]. intros h' [= <-]. by rewrite Hn.
Qed.
Lemma archive2 : ∃ h, archive s2 1 h [records 0; records 1; records 2] ∧ h_number h = 2%N.
Proof.
  destruct archive1 as (h & Ha & Hn).
  apply (publish_step 2 s1 s2 (Some h) [records 0; records 1]); [exact Ha|reflexivity|exact published2|].
  intros h' [= <-]. by rewrite Hn.
Qed.
Lemma archive3 : ∃ h, archive s3 1 h [records 0; records 1; records 2; records 3] ∧ h_number h = 3%N.
Proof.
  destruct archive2 as (h & Ha & Hn).
  apply (publish_step 3 s2 s3 (Some h) [records 0; records 1; records 2]); [exact Ha|reflexivity|exact published3|].
  intros h' [= <-]. by rewrite Hn.
Qed.

(** ** Reading *)

Lemma keeps01 : keeps s0 s1.
Proof.
  destruct archive0 as (h & Ha & _).
  apply (publish_ok 0 (package 1) (gate 1) s0 s1 (Some h) [records 0]);
    [exact Ha|apply package_wf; vm_compute; discriminate|reflexivity|exact published1].
Qed.

(** The second request is made after the head has advanced. *)
Definition requests : list (MemoryState * Query) :=
  [(s0, QAccount address 0); (s1, QStorage address (word 1) 0)].

Lemma spec_account : query_spec (concat [records 0]) 0 (QAccount address 0) = Ok (AAccount (Some (event 0))).
Proof. vm_compute. reflexivity. Qed.
Lemma spec_storage : query_spec (concat [records 0]) 0 (QStorage address (word 1) 0) = Ok (AStorage (word 7)).
Proof. vm_compute. reflexivity. Qed.

Lemma reader_refines_history_witness :
  ∃ r c, run_prog (mem_handle 0) (Reader_open 1) s0 = (Ok (r, c), s0) ∧ Reader_latest_block r = 0%N ∧
    session 0 r c requests = [Ok (AAccount (Some (event 0))); Ok (AStorage (word 7))].
Proof.
  destruct archive0 as (h & Ha & Hn).
  destruct (reader_refines_history 0 s0 1 h [records 0] requests Ha) as (r & c & Eo & El & HF).
  - constructor; [reflexivity|]. constructor; [exact keeps01|constructor].
  - constructor; [|constructor; [exact keeps01|constructor]]. constructor; constructor.
  - exists r, c. split; [exact Eo|]. split; [by rewrite El|].
    pose proof (Forall2_length _ _ _ (ar_runs _ _ _ _ Ha)) as Hlen.
    revert HF. generalize (session 0 r c requests). unfold requests. intros answers HF.
    inversion HF as [|? a1 ? l1 Ha1 HF1 E1 E2]; subst. inversion HF1 as [|? a2 ? l2 Ha2 HF2 E3 E4]; subst.
    inversion HF2; subst. unfold answer_ok in Ha1, Ha2. cbn [snd] in Ha1, Ha2. rewrite Hn in Ha1, Ha2.
    destruct Ha1 as [->|(_ & _ & [])]. destruct Ha2 as [->|(_ & Hlt & _)].
    + by rewrite spec_account, spec_storage.
    + unfold len in Hlt. rewrite Hlen in Hlt. simpl in Hlt. lia.
Defined.

(** ** What was published is read *)

Lemma archive_head_eq s chain_id h h' rss rss' : archive s chain_id h rss → archive s chain_id h' rss' → h = h'.
Proof.
  intros [(e & He & _ & Hd) _ _ _] [(e' & He' & _ & Hd') _ _ _]. rewrite He in He'. simplify_eq. congruence.
Qed.
Lemma newest_event0 : newest_account (package 0) (event 0) 0.
Proof.
  split; [apply list_elem_of_singleton; reflexivity|]. split; [done|].
  intros e He _ _. apply list_elem_of_singleton in He. by rewrite He.
Qed.
Lemma newest_slot0 : newest_slot (package 0) (slot_event 0) 0.
Proof.
  split; [apply list_elem_of_singleton; reflexivity|]. split; [done|].
  intros e He _ _ _ _. apply list_elem_of_singleton in He. by rewrite He.
Qed.

Lemma published_state_is_read_witness :
  ∃ r c, run_prog (mem_handle 0) (Reader_open 1) s0 = (Ok (r, c), s0) ∧
    session 0 r c requests = [Ok (AAccount (Some (event 0))); Ok (AStorage (word 7))].
Proof.
  destruct (published_state_is_read 0 (package 0) (gate 0) memory_default s0 None [] requests) as (h' & rss' & r & c & Ha & Eo & HF).
  - exact empty_archive.
  - apply package_wf. vm_compute. discriminate.
  - vm_compute. reflexivity.
  - repeat constructor. vm_compute. discriminate.
  - done.
  - exact published0.
  - constructor; [reflexivity|]. constructor; [exact keeps01|constructor].
  - constructor; [|constructor; [exact keeps01|constructor]]. constructor; constructor.
  - exists r, c. split; [exact Eo|]. destruct archive0 as (h & Ha0 & _).
    rewrite <-(archive_head_eq _ _ _ _ _ _ Ha0 Ha) in HF.
    pose proof (Forall2_length _ _ _ (ar_runs _ _ _ _ Ha0)) as Hlen.
    assert (wf_account (event_state (event 0))) as Hwf by (split; [vm_compute; discriminate..|done]).
    revert HF. generalize (session 0 r c requests). unfold requests. intros answers HF.
    inversion HF as [|? a1 ? l1 Ha1 HF1 E1 E2]; subst. inversion HF1 as [|? a2 ? l2 Ha2 HF2 E3 E4]; subst.
    inversion HF2; subst. cbn [snd] in Ha1, Ha2.
    destruct (Ha1 _ (says_account _ _ _ newest_event0 Hwf)) as [->|(_ & _ & [])]; [done|].
    destruct (Ha2 _ (says_storage _ _ _ _ newest_event0 Hwf eq_refl newest_slot0 eq_refl eq_refl)) as [->|(_ & Hlt & _)]; [done|reflexivity|].
    unfold len in Hlt. rewrite Hlen in Hlt. simpl in Hlt. lia.
Defined.

(** ** Compaction and collection *)

Lemma history3 : length (concat [records 0; records 1; records 2; records 3]) = 8.
Proof. vm_compute. reflexivity. Qed.

Lemma compaction_preserves_states_witness :
  keeps s3 s4 ∧ ∃ h h' rss', archive s3 1 h [records 0; records 1; records 2; records 3] ∧ archive s4 1 h' rss' ∧
    h_number h' = h_number h ∧ h_hash h' = h_hash h ∧ h_genesis h' = h_genesis h ∧
    (len (h_l0 h') + L0_TRIGGER = len (h_l0 h))%N ∧
    ∀ key block, state_at (concat rss') key block
      = state_at (concat [records 0; records 1; records 2; records 3]) key block.
Proof.
  destruct archive3 as (h & Ha & Hn).
  destruct (compaction_preserves_states 0 9 1 s3 s4 h [records 0; records 1; records 2; records 3]) as (Hk & h' & rss' & Hr).
  - exact Ha.
  - rewrite history3. lia.
  - exact compacted.
  - split; [exact Hk|]. exists h, h', rss'. split; [exact Ha|exact Hr].
Defined.

Lemma archive4 : ∃ h rss, archive s4 1 h rss.
Proof.
  destruct archive3 as (h & Ha & Hn).
  destruct (compact_ok 0 9 1 s3 s4 h [records 0; records 1; records 2; records 3]) as (_ & h' & rss' & Ha' & _);
    [exact Ha|rewrite history3; lia|exact compacted|]. by exists h', rss'.
Qed.

Lemma archive_coherent s h rss : archive s 1 h rss → single_shards s = true → coherent (runs h).
Proof.
  intros [(e & He & _ & Hd) _ _ _] Hs r r' Hr Hr' _. unfold single_shards, head_of in Hs. rewrite He, Hd in Hs.
  rewrite forallb_forall in Hs. apply list_elem_of_In in Hr, Hr'. apply Hs in Hr, Hr'. bool_prop. congruence.
Qed.

(** Everything was written at time zero; a writer has stamped the objects of two shards since. *)
Definition stamped (key : string) : Z := if String.prefix "objects/sha256/5" key then 15000 else 0.
Abbreviation collecting := (run_prog (aged_handle 20000 (λ _, 0%Z) stamped) (collect_garbage 1 2 GC_MIN_AGE false) s4).
Lemma collecting_report :
  match collecting.1 with
  | Ok r => (gc_live_objects r, gc_deleted_objects r, gc_kept_young r)
  | Err _ => (0, 0, 0)%N
  end = (9, 28, 2)%N.
Proof. vm_compute. reflexivity. Qed.

Lemma garbage_collection_exact_witness :
  ∃ h rss (live dead young : gset string) s', archive s4 1 h rss ∧
    collecting = (Ok {| gc_live_objects := N.of_nat (size live); gc_deleted_objects := N.of_nat (size dead);
      gc_deleted_bytes := (total_size s4 dead mod (u64_max + 1))%N; gc_kept_young := N.of_nat (size young) |}, s') ∧
    (∀ key, key ∈ live ↔ needed s4 h 2 key) ∧
    (∀ key e, ms_entries s' !! key = Some e ↔ ms_entries s4 !! key = Some e ∧ (false = true ∨ key ∉ dead)) ∧
    archive s' 1 h rss ∧ size live = 9 ∧ size dead = 28 ∧ size young = 2.
Proof.
  destruct archive4 as (h & rss & Ha).
  destruct (garbage_collection_exact 20000 (λ _, 0%Z) stamped s4 1 h rss 2 GC_MIN_AGE false)
    as (live & dead & young & s' & E & Hl & _ & _ & Hs & Ha').
  - exact Ha.
  - apply (archive_coherent s4 h rss Ha single_shards4).
  - exists h, rss, live, dead, young, s'. split; [exact Ha|]. split; [exact E|]. split; [exact Hl|]. split; [exact Hs|].
    split; [exact Ha'|]. pose proof collecting_report as Hr. rewrite E in Hr. injection Hr as H1 H2 H3.
    split; [|split]; apply Nat2N.inj; assumption.
Defined.

(** ** Merging *)

Lemma merge_streams_sorted_union_witness :
  ∃ lists readers b0 keys out,
    run_prog (mem_handle 0) (page_lists readers) s1 = (Ok lists, s1) ∧
    run_prog (mem_handle 0) (producer 5 lists readers 4) s1 = ((Ok (add_keys b0 keys), out), s1) ∧
    sorted_by rec_version out ∧ out ≡ₚ concat [records 0; records 1] ∧ ∀ r, r ∈ out → rec_key r ∈ keys.
Proof.
  destruct archive1 as (h & Ha & Hn).
  destruct (open_runs_ok s1 _ _ (ar_runs _ _ _ _ Ha)) as (ps & _ & HF & _).
  assert (Forall2 (run_rep (mem_fetch s1)) (map snd ps) [records 0; records 1]) as HFr.
  { apply Forall2_fmap_l. eapply Forall2_impl; [exact HF|]. intros p rs Ho. apply Ho. }
  destruct (page_lists_ok 0 s1 (map snd ps) _ HFr) as (lists & El & _).
  destruct (SummaryBuilder_new 4) as [b0|] eqn:Eb; [|vm_compute in Eb; discriminate].
  destruct (merge_streams_sorted_union 0 s1 5 lists (map snd ps) [records 0; records 1] 4 b0) as (keys & out & Hr).
  - exact Eb.
  - exact HFr.
  - eapply history_NoDup, archive_history, Ha.
  - exact El.
  - vm_compute. lia.
  - exists lists, (map snd ps), b0, keys, out. split; [exact El|exact Hr].
Defined.

(** ** Planning *)

Lemma compaction_plan_total_witness :
  ∃ h, h_number h = 3%N ∧
  ((∃ levels weight t, plan_levels (S (N.to_nat MAX_LEVELS)) (h_levels h) L0_TRIGGER [] 0 =
     Ok (levels, weight, shallow (S t) (h_levels h), t) ∧
     planned_from 0 (h_levels h) levels weight t ∧
     runs h = deep t (h_levels h) ++ plan_inputs t (h_levels h) (h_l0 h) ++ drop (N.to_nat L0_TRIGGER) (h_l0 h)) ∨
   (plan_levels (S (N.to_nat MAX_LEVELS)) (h_levels h) L0_TRIGGER [] 0 =
      bail "tiered history exceeds the bounded level count" ∧
    ∀ i, i < 8 → ∃ r, h_levels h !! i = Some (Some r) ∧ run_weight r = (unit_of i * (FANOUT - 1))%N)).
Proof.
  destruct archive3 as (h & [(e & _ & _ & Hd) _ _ _] & Hn). exists h. split; [exact Hn|].
  apply compaction_plan_total. apply Head_decode_ok in Hd. apply Hd.
Defined.

(** ** Interleaving

    Two publishers of the same package race: both find no head and build; the
    second one's swap wins, the first one's fails and finds the package
    published. *)
Definition agents : list Agent := [Publisher (package 0) (gate 0); Publisher (package 0) (gate 0)].
Definition race : list (nat * Z) :=
  concat (replicate 8 [(0, 0%Z); (1, 0%Z)]) ++ [(1, 0%Z); (0, 5%Z); (0, 7%Z)].
Definition raced : option (MemoryState * list (prog storeE (result unit))) :=
  run_sched race memory_default (map agent_prog agents).

Definition is_done (p : prog storeE (result unit)) : bool := match p with Ret (Ok tt) => true | _ => false end.
Lemma race_ends : match raced with Some (_, pool) => map is_done pool | None => [] end = [true; true].
Proof. vm_compute. reflexivity. Qed.
Lemma raced_some : ∃ s pool, raced = Some (s, pool) ∧ pool !! 0 = Some (Ret (Ok tt)).
Proof.
  pose proof race_ends as E. destruct raced as [[s pool]|]; [|discriminate]. exists s, pool. split; [done|].
  destruct pool as [|p [|q []]]; try discriminate. injection E as Ep _. simpl. f_equal.
  destruct p as [[[]|]|]; simpl in Ep; done.
Qed.

Lemma agents_wf : Forall wf_agent agents.
Proof. constructor; [|constructor; [|constructor]]; apply package_wf; vm_compute; discriminate. Qed.
Lemma default_versions : versions_ok memory_default.
Proof. intros key e He. simpl in He. by rewrite lookup_empty in He. Qed.

Lemma interleaving_is_legal_witness :
  ∃ s pool, nsteps sched 19 (memory_default, map agent_prog agents) (s, pool) ∧ rtc guarantee memory_default s.
Proof.
  destruct raced_some as (s & pool & E & _). apply run_sched_steps in E. exists s, pool. split; [exact E|].
  apply (interleaving_is_legal 19 agents memory_default s pool).
  - exact default_versions.
  - exact agents_wf.
  - vm_compute. discriminate.
  - exact E.
Defined.

Lemma published_never_lost_witness :
  ∃ s pool, nsteps sched 19 (memory_default, map agent_prog agents) (s, pool) ∧ reached 1 0 s.
Proof.
  destruct raced_some as (s & pool & E & Hp). apply run_sched_steps in E. exists s, pool. split; [exact E|].
  apply (published_never_lost 19 agents memory_default s pool 0 (package 0) (gate 0)).
  - exact default_versions.
  - exact agents_wf.
  - vm_compute. discriminate.
  - exact E.
  - reflexivity.
  - exact Hp.
Defined.

(** A publisher and a compactor on the archive of one package: the first steps. *)
Lemma versions0 : versions_ok s0.
Proof.
  intros key e He. pose proof versions_bounded0 as Hb. unfold versions_bounded in Hb. rewrite forallb_forall in Hb.
  apply elem_of_map_to_list, list_elem_of_In in He. apply Hb in He. by bool_prop.
Qed.
Definition later_agents : list Agent := [Publisher (package 1) (gate 1); Compactor 9 1].
Definition later_race : list (nat * Z) := (1, 0%Z) :: replicate 10 (0, 0%Z).
Lemma later_raced : ∃ s pool, run_sched later_race s0 (map agent_prog later_agents) = Some (s, pool).
Proof.
  assert (is_Some (run_sched later_race s0 (map agent_prog later_agents))) as [[s pool] E]; [|eauto].
  assert (match run_sched later_race s0 (map agent_prog later_agents) with Some _ => true | None => false end = true)
    as Hr by (vm_compute; reflexivity).
  destruct (run_sched _ _ _); [done|discriminate].
Qed.
Lemma interleaving_keeps_heads_readable_witness :
  ∃ h s pool, nsteps sched 11 (s0, map agent_prog later_agents) (s, pool) ∧
  ∃ e' h', ms_entries s !! head_key 1 = Some e' ∧ Head_decode (me_bytes e') = Ok h' ∧
    h_chain_id h' = 1%N ∧ h_genesis h' = h_genesis h ∧
    ((h_number h < h_number h')%N ∨ (h_number h' = h_number h ∧ (len (h_l0 h') <= len (h_l0 h))%N)).
Proof.
  destruct archive0 as (h & [(e & He & _ & Hd) Hc _ _] & _).
  destruct later_raced as (s & pool & E). apply run_sched_steps in E. exists h, s, pool. split; [exact E|].
  apply (interleaving_keeps_heads_readable 11 later_agents s0 s pool 1 e h).
  - exact versions0.
  - constructor; [apply package_wf; vm_compute; discriminate|]. by constructor.
  - exact next_small.
  - exact E.
  - exact He.
  - exact Hd.
  - exact Hc.
Defined.
End TieredExample.
