(* ===== verification/Examples.v ===== *)
(** * The services over the concrete archive

    The theorems about the server, the worker and the command line, applied to the
    archive of [TieredExample]; the exporter's probe on one block; and publishers and
    a reader as processes on the file system. *)

From stdpp Require Import pretty.
From S2P Require Import Prelude Bytes Text SortedLists Externals ToyCrates Json ToyValue Hash RunFormat RunReader RunRep Head ToyJson HeadFacts Summary Store Compact CompactFacts Format Tiered TieredReader Cli ReaderFacts ReaderTheorems Rpc FormatFacts RpcFacts RpcTheorems Worker Gateway WorkerFacts WorkerTheorems GatewayTheorems TieredTheorems CliTheorems TieredExample RelyGuarantee StoreContract FsStore FsModel FsFacts FsExample Protocol SharedStore SharedProcesses FsProtocol StateProbe.
From Stdlib Require Import Lia ZArith.

(** ** A server over the concrete archive

    A reader opened at block 0 is replaced, after a publication, by the refresh
    task; the theorems about the server are applied to it. *)

(** The fields of a request, read by name. *)
Definition toy_request : RequestJson := λ v,
  l ← as_object v;
  method ← (v ← obj_get "method" l; as_str v);
  jsonrpc ← match obj_get "jsonrpc" l with
            | None | Some VNull => Some None
            | Some v => s ← as_str v; Some (Some s)
            end;
  Some {| rq_jsonrpc := jsonrpc; rq_id := default VNull (obj_get "id" l); rq_method := method;
          rq_params := default VNull (obj_get "params" l) |}.
Lemma toy_request_laws : @RequestJsonLaws toy_request.
Proof. intros jsonrpc id method params. reflexivity. Qed.

Module RpcExample.
Import TieredExample.
#[local] Existing Instances toy_sha toy_hex toy_json toy_keccak toy_zstd toy_cache toy_request.
#[local] Existing Instances toy_sha_laws toy_hex_laws toy_hex_canon toy_json_laws toy_zstd_laws toy_cache_laws toy_request_laws.

Definition interval : option N := Some 30%N.
Definition calls : list (Value * Call) :=
  [(VNumber (PosInt 1), GetBalance address (Bare TagLatest)); (VNumber (PosInt 2), GetStorageAt address (word 1) true (Eip1898 (TagNumber 0)))].
Definition posted : Value := VArray (map (λ p, request_value p.1 p.2) calls).

(** Opened at block 0, then the store grew and the ticker fired. *)
Lemma ran : ∃ seen server, server_run 0 1 interval 10 s1 seen server.
Proof.
  destruct archive0 as (h0 & Ha0 & _). destruct archive1 as (h1 & Ha1 & _).
  destruct (open_serving 0 1 s0 h0 _ Ha0) as (server & _ & E & Hs & _).
  destruct (step_serving 0 1 interval 10 Tick s1 h0 _ h1 _ server (serving_mono s0 s1 h0 _ server keeps01 Hs) Ha1) as (reply & server' & Es & _).
  exists [(h1, [records 0; records 1]); (h0, [records 0])], server'.
  eapply run_event; [eapply run_grow; [eapply run_start; [exact Ha0|exact E]|exact keeps01]|exact Ha1|exact Es].
Qed.

Lemma server_refines_history_witness :
  ∃ (seen : list (Head * list (list RunRecord))) server responses server' h rss,
    run_prog (mem_handle 0) (server_step 1 interval 10 (PostRoot posted) server) s1 =
      ((ReplyJson (VArray responses), server'), s1) ∧
    (h, rss) ∈ seen ∧ Reader_latest_block server.1 = h_number h ∧
    Forall2 (response_ok (concat rss) h) calls responses.
Proof.
  destruct ran as (seen & server & Hr).
  destruct (server_refines_history 0 1 interval 10 s1 seen server calls Hr) as (responses & server' & h & rss & Hx).
  - discriminate.
  - vm_compute. discriminate.
  - repeat constructor; vm_compute; discriminate.
  - exists seen, server, responses, server', h, rss. exact Hx.
Defined.

Lemma server_never_rolls_back_witness :
  ∃ server : Server, let next := run_prog (mem_handle 0) (server_step 1 interval 10 Tick server) s1 in
  (Reader_latest_block server.1 <= Reader_latest_block (next.1).2.1)%N ∧
  ∃ h e, ms_entries s1 !! head_key 1 = Some e ∧
    ((h_number h < Reader_latest_block server.1)%N ∧ (next.1).2 = server ∨ Reader_head_digest (next.1).2.1 = digest (me_bytes e)).
Proof.
  destruct ran as (seen & server & Hr). destruct archive1 as (h & Ha & _). exists server. cbv zeta.
  destruct (run_prog (mem_handle 0) (server_step 1 interval 10 Tick server) s1) as [[reply server'] s'] eqn:E.
  destruct (server_never_rolls_back 0 1 interval 10 s1 Tick server reply server' s' E) as [Hle Hd]. split; [exact Hle|].
  destruct (Hd seen h _ Hr Ha eq_refl eq_refl) as (e & He & Hx). exists h, e. split; [exact He|exact Hx].
Defined.

Lemma start_small : ∃ (server : Server) h, server_run 0 1 interval 10 s0 [(h, [records 0])] server ∧ (len (rd_runs server.1) <= 16)%N.
Proof.
  destruct archive0 as (h & Ha & _). destruct (open_serving 0 1 s0 h _ Ha) as (server & _ & E & [_ Hl _] & _).
  exists server, h. split; [eapply run_start; [exact Ha|exact E]|]. rewrite Hl.
  pose proof (Forall2_length _ _ _ (ar_runs _ _ _ _ Ha)) as El. unfold len. rewrite El. vm_compute. discriminate.
Qed.
Lemma batch_is_pointwise_witness :
  ∃ (server : Server) responses,
    answers 0 s0 (handle_rpc_backend (reader_backend server.1) posted 10) (λ x, x = VArray responses).
Proof.
  destruct start_small as (server & h & Hr & Hn). exists server.
  destruct (batch_is_pointwise 0 1 interval 10 s0 _ server (map (λ p, request_value p.1 p.2) calls) Hr Hn) as (responses & _ & Hx).
  - discriminate.
  - vm_compute. discriminate.
  - exists responses. exact Hx.
Defined.
End RpcExample.

(** ** A worker over the concrete archive

    A bucket that delivers the entries of a store under a prefix, in one chunk; the
    theorems about the worker and its gateway are applied to it. *)

Definition toy_object (etag : string) (b : bytes) : R2Object :=
  {| ob_size := len b; ob_etag := etag; ob_metadata := Some [("content-type", "application/octet-stream")];
     ob_body := Some {| bd_stream := Some [Some b]; bd_response := Some b |} |}.
(** A bucket with the given objects. *)
Definition toy_bucket (etag : string) (object : string → option bytes) : ∀ X, r2E X → X :=
  λ X e, match e in r2E X return X with
         | R2Get key None => Some (toy_object etag <$> object key)
         | R2Get key (Some (offset, length)) =>
             Some ((λ b, toy_object etag (take (N.to_nat length) (drop (N.to_nat offset) b))) <$> object key)
         | R2Head key => Some (toy_object etag <$> object key)
         end.
Definition store_objects (prefix : string) (s : MemoryState) (key : string) : option bytes :=
  key ← strip_prefix prefix key; me_bytes <$> ms_entries s !! key.
Lemma toy_bucket_holds etag prefix s : bucket_holds (toy_bucket etag (store_objects prefix s)) prefix s.
Proof.
  intros key b (e & He & <-). exists (toy_object etag (me_bytes e)), [me_bytes e], (Some (me_bytes e)).
  split_and!; [|done|done|by rewrite concat_cons, app_nil_r].
  cbn [toy_bucket]. unfold store_objects. rewrite strip_prefix_app. cbn [mbind option_bind]. by rewrite He.
Qed.

Lemma toy_bucket_stored etag object key b :
  quoted etag → object key = Some b → object_stored (toy_bucket etag object) key b etag.
Proof.
  intros Hq E. split; [done| |eexists _, _|intros offset length _ _; eexists _, _]; cbn [toy_bucket]; rewrite E;
    cbn [fmap option_fmap option_map].
  - by eexists.
  - by split_and!.
  - by split_and!.
Qed.

Module WorkerExample.
Import TieredExample.
#[local] Existing Instances toy_sha toy_hex toy_json toy_keccak toy_zstd toy_serde.
#[local] Existing Instances toy_sha_laws toy_hex_laws toy_hex_canon toy_json_laws toy_zstd_laws.

Definition env : Env := {| env_chain_id := Some "1"; env_prefix := None; env_bucket := true |}.
Definition call : Call := GetBalance address (Bare TagLatest).
Definition id : Value := VNumber (PosInt 7).
Definition body : bytes := value_to_vec (request_value id call).
Definition post : HttpRequest :=
  {| hr_path := "/rpc"; hr_method := MPost; hr_header := λ _, Some None; hr_stream := Some [Some body] |}.
Lemma body_read : read_bounded_body post = AOk body.
Proof. vm_compute. reflexivity. Qed.
Lemma keccak_nil : keccak256_digest [] = EMPTY_CODE_HASH.
Proof. vm_compute. reflexivity. Qed.

Lemma worker_agrees_with_server_witness :
  ∃ h response, run_pure (toy_bucket "e" (store_objects "v1/" s0)) (serve_rpc env post) = Some response ∧
    (response = worker_response id h call (call_spec (concat [records 0]) h call) ∨
     (response = w_rpc_error id Limit ∧ (15 < len (runs h))%N ∧ False)).
Proof.
  destruct archive0 as (h & Ha & _). exists h.
  apply (worker_agrees_with_server keccak_nil (toy_bucket "e" (store_objects "v1/" s0)) "v1/" s0
    (bucket_holds0 := toy_bucket_holds "e" "v1/" s0) 1 h [records 0] Ha env post body id call).
  - vm_compute. reflexivity.
  - vm_compute. reflexivity.
  - reflexivity.
  - exact body_read.
  - exact (toy_from_to (request_value id call)).
  - reflexivity.
  - exact I.
  - discriminate.
Defined.

(** The worker reads uppercase digits; the native server does not. *)
Lemma worker_accepts_uppercase :
  w_parse_quantity "0xFF" = AOk 255%N ∧ parse_quantity "0xFF" = bail "quantity is not canonical".
Proof. split; vm_compute; reflexivity. Qed.

(** ** The gateway *)

Definition content : bytes := [Byte.x01; Byte.x02; Byte.x03; Byte.x04].
Definition hash : Hash32 := digest content.
Definition get_range_request : HttpRequest :=
  {| hr_path := "/objects/" +:+ object_key hash; hr_method := MGet;
     hr_header := λ name, Some (if bool_decide (name = "range") then Some "bytes=1-2" else None);
     hr_stream := None |}.
Definition one_object (key : string) : option bytes :=
  if bool_decide (key = "v1/" +:+ object_key hash) then Some content else None.

Lemma gateway_exposes_only_objects_witness :
  always (object_request env) (λ r, ∃ response, r = Some response ∧ ((400 <= rs_status response)%N → no_store response))
    (gateway_main env get_range_request).
Proof. apply (gateway_exposes_only_objects env get_range_request). discriminate. Defined.

Definition tag : string := String quote ("tag" +:+ String quote "").
Lemma one_object_stored : object_stored (toy_bucket tag one_object) ("v1/" +:+ object_key hash) content tag.
Proof. apply toy_bucket_stored; [by exists "tag"|]. unfold one_object. by rewrite bool_decide_eq_true_2. Qed.
Lemma object_get_exact_witness :
  ∃ response, run_pure (toy_bucket tag one_object) (gateway_main env get_range_request) = Some response ∧
    object_answer content tag None (Some "bytes=1-2") None response.
Proof.
  apply (object_get_exact env get_range_request (toy_bucket tag one_object) "v1/" hash content tag None (Some "bytes=1-2") None).
  - reflexivity.
  - reflexivity.
  - reflexivity.
  - vm_compute. reflexivity.
  - exact one_object_stored.
  - reflexivity.
  - reflexivity.
  - reflexivity.
Defined.
End WorkerExample.

(** ** The command line on concrete inputs *)

Module CliExample.
Import TieredExample.
#[local] Existing Instances toy_sha toy_hex toy_json toy_keccak toy_zstd toy_cache.
#[local] Existing Instances toy_sha_laws toy_hex_laws toy_json_laws toy_zstd_laws toy_cache_laws.

Lemma checkpoint_roundtrip_witness :
  parse_checkpoint (pretty 1000%N +:+ ":" +:+ hash_to_string zero_hash) = Ok (1000%N, zero_hash) ∧
  parse_checkpoint (quantity 1000 +:+ ":" +:+ hash_to_string zero_hash) = Ok (1000%N, zero_hash).
Proof. apply checkpoint_roundtrip. vm_compute. discriminate. Defined.

(** Four level-0 runs are folded into one; then there is nothing to do. *)
Definition draining : result Z * MemoryState := run_prog (mem_handle 0) (drain 9 2 1 0) s3.
Definition drained (h : Head) (r : result Z) (s' : MemoryState) : Prop :=
  ∃ h' rss', archive s' 1 h' rss' ∧ keeps s3 s' ∧
    h_number h' = h_number h ∧ h_hash h' = h_hash h ∧ h_genesis h' = h_genesis h ∧
    (∀ key block, state_at (concat rss') key block =
       state_at (concat [records 0; records 1; records 2; records 3]) key block) ∧
    match r with
    | Ok n => (len (h_l0 h') < L0_TRIGGER)%N ∧ Z.of_N (len (h_l0 h)) = (Z.of_N (len (h_l0 h')) + 4 * n)%Z
    | Err e => ∃ s1, archive s1 1 h' rss' ∧ run_prog (mem_handle 0) (compact_once 9 1) s1 = (Err e, s')
    end.
Lemma compact_drains_witness :
  ∃ h, archive s3 1 h [records 0; records 1; records 2; records 3] ∧ drained h draining.1 draining.2.
Proof.
  destruct archive3 as (h & Ha & _).
  assert (len (h_l0 h) <= 4)%N as Hl.
  { pose proof (Forall2_length _ _ _ (ar_runs _ _ _ _ Ha)) as Hr. unfold runs in Hr. rewrite length_app in Hr. simpl in Hr.
    unfold len. lia. }
  exists h. split; [exact Ha|].
  apply (compact_drains 0 2 9 1 s3 h [records 0; records 1; records 2; records 3] draining.1 draining.2 Ha);
    [vm_compute; lia|unfold L0_TRIGGER; lia|apply surjective_pairing].
Defined.

Lemma probe_report_order_witness :
  probe_report [Ok (3, 10); bail "cold"; Ok (1, 90)]%N = probe_report [Ok (1, 90); Ok (3, 10); bail "cold"]%N.
Proof. apply probe_report_order. apply (Permutation_app_comm [_; _] [_]). Defined.

Lemma probe_nearest_rank_witness :
  pick [4; 7; 9]%N f64_p50 = Some 7%N ∧ pick [4; 7; 9]%N f64_p99 = Some 9%N.
Proof.
  destruct (probe_nearest_rank [4; 7; 9]%N) as (E50 & E99 & _); [vm_compute; discriminate|].
  rewrite E50, E99. split; reflexivity.
Defined.
End CliExample.

(** ** The exporter's probe on concrete inputs

    One block moves a balance, destroys a contract with a slot and creates another. *)
Module ExportExample.
#[local] Existing Instances toy_keccak toy_serde.

Record Account := { ac_info : option (N * N * Hash32); ac_original : option (N * N * Hash32); ac_slots : list (N * (N * N)) }.
Definition toy_revm : Revm :=
  {| Code := bytes; original_bytes b := b;
     Info := N * N * Hash32; nonce i := i.1.1; balance i := i.1.2; code_hash i := i.2; info_code _ := None;
     Slot := N * N; present_value v := v.2; is_changed v := negb (v.1 =? v.2)%N;
     BundleAccount := Account; info := ac_info; original_info := ac_original; storage := ac_slots;
     was_destroyed _ := false; is_info_changed acc := negb (bool_decide (ac_info acc = ac_original acc));
     is_contract_changed acc := negb (bool_decide (hash_of (ac_info acc) = hash_of (ac_original acc)));
     Revert := bool; wipe_storage b := b;
     BundleState := list (list (Address20 * bool)) * list (Address20 * Account) * bytes;
     reverts b := b.1.1; bundle_state b := b.1.2;
     contracts b h := if bool_decide (h = keccak b.2) then Some b.2 else None |}.
#[local] Existing Instance toy_revm.

Definition payer : Address20 := array_repeat 20 Byte.x01.
Definition old : Address20 := array_repeat 20 Byte.x02.
Definition new : Address20 := array_repeat 20 Byte.x03.
Definition code : bytes := [Byte.x60; Byte.x00].
Definition pre : World :=
  {| wd_account a := if bool_decide (a = payer) then Some (1, 100, keccak []) else
                     if bool_decide (a = old) then Some (1, 5, keccak code) else None;
     wd_slot a slot := if bool_decide (a = old ∧ slot = 7) then 9 else 0;
     wd_code _ := code |}%N.
Definition post : World :=
  {| wd_account a := if bool_decide (a = payer) then Some (2, 90, keccak []) else
                     if bool_decide (a = new) then Some (1, 15, keccak code) else None;
     wd_slot a slot := if bool_decide (a = new ∧ slot = 1) then 42 else 0;
     wd_code _ := code |}%N.
Definition changes : list (Address20 * Account) :=
  [(new, {| ac_info := Some (1, 15, keccak code); ac_original := None; ac_slots := [(1, (0, 42))] |});
   (old, {| ac_info := None; ac_original := Some (1, 5, keccak code); ac_slots := [] |});
   (payer, {| ac_info := Some (2, 90, keccak []); ac_original := Some (1, 100, keccak []); ac_slots := [] |})]%N.
Definition undone : list (Address20 * bool) := [(payer, false); (old, true); (new, false)].

Definition toy_reth : Reth :=
  {| StateProvider := unit; RecoveredBlock := N; block_hash n := to_be_bytes32 n; block_parent_hash n := to_be_bytes32 (n - 1);
     block_state_root n := to_be_bytes32 (100 + n); block_timestamp n := (12 * n)%N; Output := unit;
     ExecutorState := list (list (Address20 * bool)) * list (Address20 * Account) * bytes;
     execute_one _ _ := Ok (tt, ([undone], changes, code)); validate_block_post_execution _ _ := Ok tt; take_bundle b := b |}.
#[local] Existing Instance toy_reth.
Definition answers (X : Type) (e : probeE X) : X :=
  match e with
  | PrRuntime => Ok tt | PrOpenReadOnly _ => Ok tt | PrProvider => Ok tt
  | PrHistory _ => Ok tt | PrBlock n => Ok (Some n) | PrPrintln _ => tt
  end.
Definition world (n : N) : World := if (n =? 0)%N then pre else post.

Lemma addresses_differ : new ≠ old ∧ new ≠ payer ∧ old ≠ payer.
Proof. split_and!; apply (bool_decide_unpack _); vm_compute; exact I. Qed.
Ltac by_address := destruct addresses_differ as (? & ? & ?); repeat case_bool_decide; subst; try done; intuition (congruence || lia).
Lemma world_wf n : wf_world (world n).
Proof.
  unfold world. destruct (n =? 0)%N; split; simpl.
  1, 4: by intros a nonce balance h; repeat case_bool_decide; intros [= <- <- _].
  1, 3: by intros a slot; case_bool_decide.
  all: by intros a slot; by_address.
Qed.
Lemma changes_replay : replays (([undone], changes, code) : @BundleState toy_revm) undone pre post.
Proof.
  assert (∀ (P : Address20 → Account → Prop),
    P new {| ac_info := Some (1, 15, keccak code)%N; ac_original := None; ac_slots := [(1, (0, 42))]%N |} →
    P old {| ac_info := None; ac_original := Some (1, 5, keccak code)%N; ac_slots := [] |} →
    P payer {| ac_info := Some (2, 90, keccak [])%N; ac_original := Some (1, 100, keccak [])%N; ac_slots := [] |} →
    ∀ a acc, (a, acc) ∈ changes → P a acc) as Hall.
  { intros P H1 H2 H3 a acc. unfold changes. rewrite !elem_of_cons, elem_of_nil. by intros [[= -> ->]|[[= -> ->]|[[= -> ->]|[]]]]. }
  split; simpl.
  - apply (bool_decide_unpack _). vm_compute. exact I.
  - by refine (Hall _ _ _ _).
  - by refine (Hall _ _ _ _).
  - by refine (Hall _ _ _ _).
  - refine (Hall _ _ _ _); try done. intros _. by right.
  - by refine (Hall _ _ _ _).
  - intros a acc i. revert a acc. refine (Hall _ _ _ _); try done.
    intros [= <-] _ _. exists code. by rewrite bool_decide_eq_true_2.
  - refine (Hall _ _ _ _); simpl; repeat constructor; by intros ?%elem_of_nil.
  - intros a acc slot v. revert a acc. refine (Hall _ _ _ _); simpl; try by intros ?%elem_of_nil.
    intros [= -> ->]%list_elem_of_singleton. split_and!; try done; by intros.
  - intros a acc slot. revert a acc. refine (Hall _ _ _ _); intros Hs.
    + change (destroyed _ _ _) with false. simpl in Hs. rewrite list_elem_of_singleton in Hs. by_address.
    + change (destroyed _ _ _) with true. by_address.
    + change (destroyed _ _ _) with false. by_address.
  - intros a Ha. assert (a ≠ new ∧ a ≠ old ∧ a ≠ payer) as (? & ? & ?) by (simpl in Ha; set_solver).
    split; [|intros slot]; by_address.
Qed.

Lemma export_explains_range_witness :
  ∃ records, run_prog (node answers) (export_main ["probe"; "data"; "1"; "+1"]) [] = (Ok tt, map value_to_vec records) ∧
    length records = 1 ∧ explain records 1 world ∧
    ∀ w', (∀ n, wf_world (w' n)) → same_state pre (w' 0%N) → explain records 1 w' → same_state post (w' 1%N).
Proof.
  destruct (export_explains_range answers "probe" "data" "1" "+1" 1 1 world) as (records & E & Hlen & Hx & Hu).
  - reflexivity.
  - reflexivity.
  - lia.
  - reflexivity.
  - reflexivity.
  - reflexivity.
  - reflexivity.
  - exact world_wf.
  - intros n Hn. assert (n = 1)%N as -> by lia.
    exists tt, 1%N, tt, ([undone], changes, code), undone. split_and!; [reflexivity..|exact changes_replay].
  - exists records. split_and!; [exact E|lia|exact Hx|exact Hu].
Defined.
End ExportExample.

(** ** Processes on a file system

    Two publishers offer the same package, with their system calls in turns: the one
    whose swap comes second finds its package published.  A reader opens the head
    when the first one has swapped, and asks for an account and a slot. *)
Module FsProtocolExample.
Import TieredExample.
#[local] Existing Instances toy_sha toy_hex toy_json toy_keccak toy_zstd toy_cache.
#[local] Existing Instances toy_sha_laws toy_hex_laws toy_hex_canon toy_json_laws toy_zstd_laws toy_cache_laws.
Abbreviation store := Example.store.

Definition questions : list Query := [QAccount address 0; QStorage address (word 1) 0].
Definition actors : list Process :=
  [PAgent (Publisher (package 0) (gate 0)); PAgent (Publisher (package 0) (gate 0)); PReader 1 questions].
Definition calls : list (prog fsE Outcome) := map (interp (fs_impl store 0)) (map process_prog actors).
Definition schedule : list nat := concat (repeat [0; 1] 172) ++ concat (repeat [0; 2; 1] 20).
Definition both : list (prog fsE Outcome) * FsState := run_pool Example.machine schedule (calls, Example.start).
Definition both_run : list (nat * (FsState * FsState)) := run_trace Example.machine schedule (calls, Example.start).

(** The head that is written, and what the reader is told. *)
Definition head_in (t : FsState) : bytes :=
  match file_at (fs_path store (head_key 1)) t with Some n => in_bytes n | None => [] end.
Definition answer_in (ps : list (prog fsE Outcome)) : result (Head * list (result Answer)) :=
  match ps with [_; _; Ret (ORead r)] => r | _ => bail "the reader has not finished" end.
Definition served : result (Head * list (result Answer)) := answer_in both.1.
Definition one_head (b : bytes) (t : FsState) : bool :=
  forallb (λ e, negb (String.eqb (file_name e.1) "tiered-v1.json")
    || match fs_inodes t !! e.2 with Some n => bool_decide (in_bytes n = b) | None => true end) (map_to_list (fs_entries t)).

Definition is_answer (a : result Answer) : bool := match a with Ok _ => true | Err _ => false end.
Definition all_well (ps : list (prog fsE Outcome)) : bool :=
  match ps with
  | [Ret (ODone (Ok _)); Ret (ODone (Ok _)); Ret (ORead (Ok (_, answers)))] => forallb is_answer answers
  | _ => false
  end.
Definition facts_of (c : list (prog fsE Outcome) * FsState) (run : list (nat * (FsState * FsState))) : bool :=
  all_well c.1 && forallb (one_head (head_in c.2)) (states_of run).
Lemma both_ok : facts_of both both_run = true.
Proof. vm_compute. reflexivity. Qed.

Lemma both_done : both.1 = map Ret [ODone (Ok tt); ODone (Ok tt); ORead served] ∧
  ∃ h answers, served = Ok (h, answers) ∧ forallb is_answer answers = true.
Proof.
  destruct (andb_prop _ _ both_ok) as [Hf _]. unfold served. revert Hf. generalize both.1. intros ps Hf.
  destruct ps as [|[[[[]|]|]|] [|[[[[]|]|]|] [|[[|[[h answers]|]]|] []]]]; try discriminate Hf.
  split; [reflexivity|]. by exists h, answers.
Qed.
Lemma one_head_at b t chain_id n :
  one_head b t = true → file_at (fs_path store (head_key chain_id)) t = Some n → in_bytes n = b.
Proof.
  unfold one_head, file_at. intros Hall Hf. destruct (fs_entries t !! _) as [i|] eqn:He; [|discriminate Hf]. simpl in Hf.
  rewrite forallb_forall in Hall. specialize (Hall (_, i) (proj1 (list_elem_of_In _ _) (proj2 (elem_of_map_to_list _ _ _) He))).
  simpl in Hall. rewrite Hf in Hall. apply orb_true_iff in Hall as [Hn|Hb]; [|by apply bool_decide_eq_true in Hb].
  exfalso. apply negb_true_iff, String.eqb_neq in Hn. apply Hn, head_key_file.
Qed.
Lemma both_no_collision : no_collision store (states_of both_run).
Proof.
  destruct (andb_prop _ _ both_ok) as [_ Hf]. revert Hf. generalize (head_in both.2). generalize both_run.
  intros run b Hf t t' chain_id n n' Ht Ht' Hn Hn' _. rewrite forallb_forall in Hf.
  apply list_elem_of_In, Hf in Ht, Ht'.
  rewrite (one_head_at _ _ _ _ Ht Hn). symmetry. exact (one_head_at _ _ _ _ Ht' Hn').
Qed.

Lemma both_pool : pool fs_step (calls, Example.start) both_run both.
Proof.
  exact (run_pool_trace Example.machine fs_step schedule (calls, Example.start)
           (λ i X e s x s' Hx, fs_machine_conforms 0 i X e s x s' Hx)).
Qed.
Lemma actors_wf : Forall wf_process actors.
Proof.
  assert (wf_process (PAgent (Publisher (package 0) (gate 0)))) as Hp
    by (split; [apply package_wf; vm_compute; discriminate|vm_compute; reflexivity]).
  constructor; [exact Hp|]. constructor; [exact Hp|]. constructor; [exact I|]. constructor.
Qed.

(** The package is published once, and the reader answers as its block says. *)
Lemma fs_processes_serialize_witness :
  ∃ log : N → list Package,
    recorded_at (λ _, None) (λ _, []) (fs_contents store head_name data_name both.2) 1 (log 1%N) ∧
    listed None (log 1%N) (package 0) ∧ (∀ p, p ∈ log 1%N → offered actors p) ∧
    ∃ h answers log' hist', served = Ok (h, answers) ∧ forallb is_answer answers = true ∧ log' `prefix_of` log 1%N ∧
      ledger None [] log' (Some h) hist' ∧ answers_of hist' (h_number h) questions answers.
Proof.
  destruct both_done as (Hdone & h & answers & Hs & Hok).
  assert (pool fs_step (calls, Example.start) both_run (map Ret [ODone (Ok tt); ODone (Ok tt); ORead served], both.2)) as Hrun.
  { rewrite <-Hdone, <-surjective_pairing. exact both_pool. }
  destruct (fs_processes_serialize store actors 0 Example.start both_run
    [ODone (Ok tt); ODone (Ok tt); ORead served] both.2 (λ _, None) (λ _, [])) as (log & _ & Hrec & Hoff & Hout).
  - exact actors_wf.
  - apply Example.start_inv_any, _.
  - exact both_no_collision.
  - intros chain_id. split; [apply Example.start_empty|reflexivity].
  - exact Hrun.
  - exists log. split_and!; [apply Hrec| |apply Hoff|].
    + exact (Forall2_lookup_lr _ _ _ 0 _ _ Hout eq_refl eq_refl eq_refl).
    + destruct (Forall2_lookup_lr _ _ _ 2 _ _ Hout eq_refl eq_refl h answers (f_equal ORead Hs)) as (log' & hist' & Hrest).
      exists h, answers, log', hist'. split; [exact Hs|]. split; [exact Hok|exact Hrest].
Defined.
End FsProtocolExample.
